(* ===== verification/_CoqProject ===== *)
-Q . S2P
Prelude.v
BTree.v
RustStr.v
External.v
ExpireKey.v
MetaTypes.v
Marked.v
Stack.v
MapApi.v
Level.v
StateMap.v
LeveledMap.v
LeveledMapProofs.v
RotblLib.v
Rotbl.v
RotblProofs.v
Compaction.v
CompactionProofs.v
StoreTheorems.v
Txn.v
StateMachine.v
Applier.v
ApplierSpec.v
StateMachineProofs.v
ApplierProofs.v
ApplyProofs.v
SpecFacts.v
Replica.v
ApplierTheorems.v
SMV003.v
RestoreProofs.v
ExportProofs.v
MemMetaProofs.v
SMV003Theorems.v
KeyCodec.v
KeyCodecProofs.v
AppKeys.v
AppKeysProofs.v
KeyTheorems.v
KVApi.v
ProtoConv.v
MetaApi.v
ClientProofs.v
ServeProofs.v
SequenceProofs.v
IdProofs.v
KvProtocol.v
ApiTheorems.v
Watcher.v
WatcherProofs.v
WatchNodeProofs.v
WatchTheorems.v
DatabaseTypes.v
Database.v
DatabaseProofs.v
DatabaseCalls.v
DatabaseRuns.v
DatabaseTheorems.v
ClockPool.v
LockTypes.v
Lock.v
LockProofs.v
LockCalls.v
LockRuns.v
LockTheorems.v
Grants.v
GrantProofs.v
RoleTypes.v
Roles.v
RelatedProofs.v
KvClock.v
RoleProofs.v
RoleCalls.v
RoleRuns.v
RoleGraph.v
RoleRace.v
RoleTheorems.v
