(* ===== verification/Prelude.v ===== *)
(** * Verification of the databend meta-service

    The meta-service (src/meta) is the replicated key-value store that keeps the
    catalog of databend.  This development models its state machine from the raft
    log down to the persisted table, the encodings of its keys, the watchers of a
    node, and the client APIs that the catalog is built on.  Paths below are under src/meta.

    ** The program

    - A node receives log entries from raft.  The _applier_
      (raft-store/src/applier.rs) removes the keys that are expired at the time
      of the entry, executes the command (an upsert, a transaction, a change of
      the nodes), and publishes the changes to the watchers.
    - The _state machine_ (raft-store/src/state_machine_api.rs,
      state_machine_api_ext.rs, sm_v003) is a map with an expiration cursor.  Its
      map holds key-values, an index of the keys that expire, and system data with
      the sequence number that is the version of the next write.
    - The _leveled store_ (raft-store/src/leveled_store) is that map: a writable
      level over frozen levels over a read-only table on disk.  A snapshot freezes
      the writable level, merges the frozen levels with the table into a new table
      while writes go on, and installs the new table.
    - _Watchers_ (service/src/watcher) are clients of a node that are sent the
      changes of a range of keys.  One task, the dispatcher, takes the changes and
      the requests of the clients from a queue.
    - _Keys_ (kvapi/src/kvapi, app/src) are structured values that are encoded as
      slash-separated strings in a key space.
    - _Clients_ (kvapi/src/kvapi/api.rs, api/src, proto-conv/src) read and write
      protobuf values under structured keys, and retry transactions under the
      condition that what they read is unchanged.
    - _Databases_ (the calls on databases of api/src/schema_api_impl.rs) are one
      such client.  A name maps to the id of its database and to the list of the
      ids it has had; an id maps to the record of the database and to its name.
    - _Table locks_ (the calls on lock revisions of api/src/schema_api_impl.rs, and
      src/query/service/src/locks) are another.  A session that wants the lock of a
      table creates a revision, a key that expires, and has the lock when its
      revision is the first one; a task extends the revision until it deletes it.
    - _Privileges and roles_ (app/src/principal, src/query/management/src/role,
      src/query/users/src) are a third.  A role has privileges on objects and other
      roles, and contains what these have; an object can have a role as its owner.

    ** Conventions

    Bytes and strings are [string].  A [u64] is an [N] below [u64_mod], and a sum
    that can wrap is written with [wrap64].  A Rust [Result] that can also panic
    is an [Outcome]; the text of an error is left out.  A method on [&mut self] is
    a computation in the state monad [M].  An [async] function is the function
    without suspension points, except in the client APIs, where each request is a
    point at which other clients run.  Streams are lists of outcomes.

    ** The store

    - [Prelude]: results, the state monad, integers, lists, tactics.
    - [BTree], [RustStr]: the ordered maps and the strings of the Rust library.
    - [External], [RotblLib]: the crates openraft, stream_more, rotbl, bincode and
      serde_json, as parameters with laws.  Each has a concrete instance.
    - [ExpireKey], [MetaTypes], [Marked]: the data (types/src,
      raft-store/src/state_machine/expire.rs, raft-store/src/marked).
    - [Stack], [MapApi]: reading a stack of levels (leveled_store/map_api.rs,
      util.rs).  [Level]: one level.  [StateMap]: the interface [StateMap] that the
      state machine uses, its laws [StateMapLaws], and a single level as one
      implementation.
    - [LeveledMap], [LeveledMapProofs]: the leveled map, the other implementation.
    - [Rotbl], [RotblProofs]: the encodings of the persisted table.
    - [Compaction], [CompactionProofs]: merging levels, building and installing
      a snapshot (compacting_data.rs, writer_v003.rs, and do_build_snapshot of
      service/src/store/store_inner.rs).
    - [StoreTheorems]: the leveled map implements one map
      ([leveled_map_refines]); building a snapshot during writes cannot be observed
      ([snapshot_transparent]), nor can merging levels in memory; there is at most
      one compactor; keys and values survive their encodings.

    ** The state machine

    - [Txn], [StateMachine], [Applier]: transactions, the state machine over any
      [StateMap], and the applier.
    - [ApplierSpec]: the abstract state machine [Spec], which has the readable
      key-values, the system data and the cursor, and neither levels, tombstones nor
      an index.  Its operations [sp_upsert], [sp_txn], [sp_clean], [sp_apply] are
      total.
    - [StateMachineProofs], [ApplierProofs], [ApplyProofs], [SpecFacts], [Replica]:
      the applier over any lawful map refines the abstract state machine.
    - [ApplierTheorems]: the refinement ([apply_entries_refines]), replicas agree
      whatever their maps and batches are ([replicas_agree]), no expired value can
      be read, versions are never reused, published changes replay the data, the
      index is exact, and what each command does on every branch.
    - [SMV003], [RestoreProofs], [ExportProofs], [MemMetaProofs],
      [SMV003Theorems]: a node's state machine with its snapshots, reads and exports
      (sm_v003, mem_meta.rs, mem_state_machine.rs).  A node restored from a snapshot
      follows the log like the others, if its own cursor is not ahead of theirs and no
      entry is older than theirs; [restored_replica_diverges] shows that the second
      condition is needed, as the cursor is not in the snapshot.

    ** Watchers

    - [Watcher]: the messages (types/proto/meta.proto, watch_ext.rs), the dispatcher
      (service/src/watcher/dispatch), and a node: a state machine, the queue of the
      dispatcher, and the calls of [watch] (grpc_service.rs) in their steps.  The
      crate span_map is a parameter with laws; an association list is an instance.
    - [WatcherProofs], [WatchNodeProofs]: what the dispatcher sends, and the
      invariant of a node under any interleaving of applied entries, snapshots,
      calls of [watch], clients that go away, and the dispatcher ([node_step]).
    - [WatchTheorems]: when the dispatcher has handled its queue, the copy of a
      client is what the state machine holds ([watchers_catch_up]), and without a
      flush the client got the events since its call once and in order
      ([watch_in_order]); the gauge of the watchers can become negative, and
      installing a snapshot is not seen by watchers.

    ** Keys

    - [KeyCodec], [AppKeys] with their [Proofs], and [KeyTheorems]: every key
      in the domain of its codec reads back from its string, different keys and key
      spaces have different strings, a directory selects exactly its keys.  The domain
      excludes what a key does not write (the database of the owner of a table, the
      tenant of a resource without tenants); [key_strings_faithful] says what is read
      instead.  Exceptions of the code are theorems too: [user_identity_percent],
      [prefix_to_range_semantics].

    ** Clients

    - [KVApi]: the requests of the trait [KVApi]; a client is a tree of requests and
      continuations, which are given the reply or the error of the request
      ([try_client] is code that looks at an error).  [mem_serve] serves a request by the in-memory meta-service,
      [sp_serve] by the abstract state machine.
    - [ProtoConv]: values as messages; the codecs of prost, serde_json and chrono are
      parameters with the law that what was encoded is decoded.
    - [MetaApi]: the operations of api/src as clients: kv_pb_api, kv_pb_crud_api.rs,
      name_value_api.rs, name_id_value_api.rs, sequence_api_impl.rs.
    - [ClientProofs], [ServeProofs]: a pool of clients takes steps in any order, with
      requests and replies lost at any point ([pool_step]).  A [Protocol] states
      what each client relies on and guarantees; [pool_reach] shows once that
      clients that are [safe] for a protocol keep its invariant together and do
      not panic.  [KvProtocol] is the protocol of an invariant on some keys
      ([KvInvariant]), with a rule for each kind of request.
    - [SequenceProofs], [IdProofs], [ApiTheorems]: concurrent calls of
      [get_sequence_next_value] return disjoint ranges; concurrent creations,
      removals and updates keep the mappings from names to ids to values whole; what
      the calls do alone, on every branch; that they end; and two places
      where the code differs from its documentation.

    ** Databases

    - [DatabaseTypes]: the records of databases, lists of ids and stored names, and
      their messages (app/src/schema/database.rs, tenant_key/raw.rs, primitive.rs,
      proto-conv/src, protos/proto).
    - [Database]: [create_database], [drop_database], [undrop_database],
      [rename_database] and the readers as clients.
    - [DatabaseProofs]: the integrity of the records ([entry], [databases]) and the
      changes that keep it.  [DatabaseCalls]: each call is safe for the protocol of
      that invariant.  [DatabaseRuns]: what the calls do undisturbed.
    - [DatabaseTheorems]: concurrent calls keep the records whole and well typed and
      never panic ([databases_integrity], [database_records_typed]); creating on
      every branch; undropping undoes a drop and a rename can be undone; an old
      database without a list is lost when it is replaced, and undropping ignores
      a purge.
      The purge of dropped databases is not a call of these pools.

    ** Table locks

    - [LockTypes]: the key of a lock, its record and message, and the requests
      (app/src/schema/lock.rs, table_lock_ident.rs, proto-conv/src, protos/proto).
    - [Lock]: the calls on revisions; the holder of a lock (lock_holder.rs), with
      [acquire_loop] for the loop of [try_acquire_lock] and [lock_task] for the task
      that [start] spawns; the manager (lock_manager.rs).  What a call is told by its
      surroundings is an argument: the time since its start and the end of a watch
      in each round, the pauses of the backoff and the shutdown.  A list that is used
      up means that the timeout has passed, or that the shutdown flag is set.
    - [ClockPool]: pools of clients under one clock that does not go back, and
      protocols that may speak about expiration ([ClockProtocol]); [csafe] is a
      triple for a client, with rules for sequencing, retries and handled errors;
      [clock_run] makes a run of one client steps of the pool.
    - [LockProofs], [LockCalls]: the keys of the revisions; the protocol: a revision
      that was given out is not created again and changes only while it has not
      expired; each call keeps it.  [LockRuns]: what the calls do undisturbed.
    - [LockTheorems]: of the sessions that have acquired a lock at most one has a
      revision that has not expired, no call panics, and the assertion of the manager
      holds ([lock_mutual_exclusion]); what each call does alone, on every branch,
      and when a revision expires ([lock_calls_alone]).
      The theorems are about the revisions in the meta-service: a session whose
      revision has expired learns it when its task extends the revision.

    ** Privileges and roles

    - [Grants], [GrantProofs]: privileges, the objects they are granted on, and sets of
      grants (app/src/principal/user_privilege.rs, user_grant.rs).  The bit sets of
      enumflags2 and the order of a hash set are parameters with laws; [BitSet] and
      [elements_order] are instances.
    - [RoleTypes]: roles and owners with their messages (role_info.rs,
      ownership_info.rs, proto-conv/src, protos/proto).
    - [Roles]: the upgrade of values that are stored as JSON (serde/quota.rs,
      pb_serde.rs), the calls of the role API (role/role_mgr.rs), the search for the
      roles that a role contains (role_util.rs), and the provider
      (query/users/src/role_mgr.rs).
    - [RelatedProofs]: the search is reachability.  [KvClock]: the protocol of an
      invariant on some keys for the pools of [ClockPool], with a rule for each kind of
      request.  [RoleProofs], [RoleCalls]: the stored roles ([roles_ok], [role_at]), and
      that each call changes them by its effect only ([call_effect]).  [RoleRuns]: what
      calls do undisturbed.  [RoleGraph]: granted roles as a graph.  [RoleRace]: the
      schedule of two grants that close a cycle.
    - [RoleTheorems]: a set of grants is a relation ([grant_set_refines]); the search
      finds what can be reached ([related_roles_closure]); concurrent calls change
      roles in whole steps and do not panic ([role_updates_atomic]); granting a role to
      a role on every branch, which makes no cycle when it is undisturbed
      ([grant_role_branches]).  Two faults of the code are theorems too: an update of a
      role can be lost and answered with success ([role_update_lost]), and two calls
      can make a cycle together ([role_cycle_race]).

    ** Bounds

    Sequence numbers are [u64] and the code does not check them for overflow.
    Theorems about writes assume room for the numbers that the writes may take
    ([entry_cost], [req_cost]: one for each write).  A pool step that is served
    has this room as a condition.  The trials of a transaction are the 60 of the
    code, so that a call of [get_sequence_next_value] sends at most 120 requests.
    The ids of watchers are [i64] and wrap; the theorems on watchers assume
    [ids_left], that fewer than 2^63 were given out or are asked for in the queue.
    Fuel occurs in four functions: the digits of a number (20, enough for a [u64]),
    decoding of UTF-8 and splitting into chunks (the length of the input), and the
    search for roles ([related_fuel]: the names in the queue and all granted roles;
    more fuel does not change the result).

    ** Not modelled

    - Raft itself, the log store, the network and gRPC: they are the openraft and
      tonic libraries and their configuration.
    - Files, temporary names, threads and channels of snapshot building: only the
      pure parts are modelled.  Of the watchers, the bound of a channel (a full
      channel delays the dispatcher) and the count of sent bytes.
    - The rest of the schema API (tables, indexes, virtual columns, dictionaries,
      catalogs, the purge of dropped items), the data mask and background
      APIs, and the conversions of the values that only they store
      (proto-conv/src): the values are large records of the catalog.
    - Of the modelled APIs: the waiting times between trials, [list_u64_value],
      [mget_pb_values], the [deserialize_*_get_response] helpers, and the
      compatible variant of the API of names.
    - Of the table locks: the settings that give the times, the metrics, killing the
      query whose lock is lost, and the guard that unlocks when it is dropped.
    - Of the roles: the helper [upgrade_to_pb], which nothing calls, the cache of roles,
      users, and the checks that a session makes.
    - The rest of the query engine (src/query) and the common libraries (src/common). *)

From stdpp Require Import base sorting strings gmap numbers list.

Create HintDb datafuse.

(** ** Results of Rust code

    A Rust function of type [Result<A, io::Error>] either returns a value,
    returns an error, or panics (a failed [assert!], [unwrap] or
    [unreachable!]).  The text of an error message is not modelled, its
    [io::ErrorKind] is. *)

Inductive ErrorKind := InvalidData | InvalidInput | UnexpectedEof | OtherError.

Inductive Outcome (A : Type) : Type :=
| Ok (a : A)
| Err (e : ErrorKind)
| Panic.
Arguments Ok {_} _.
Arguments Err {_} _.
Arguments Panic {_}.

#[export] Instance ErrorKind_eq_dec : EqDecision ErrorKind.
Proof. solve_decision. Defined.
#[export] Instance Outcome_eq_dec `{EqDecision A} : EqDecision (Outcome A).
Proof. solve_decision. Defined.

#[export] Instance Outcome_ret : MRet Outcome := @Ok.
#[export] Instance Outcome_bind : MBind Outcome :=
  λ A B f o, match o with Ok a => f a | Err e => Err e | Panic => Panic end.
#[export] Instance Outcome_fmap : FMap Outcome :=
  λ A B f o, match o with Ok a => Ok (f a) | Err e => Err e | Panic => Panic end.

(** Code that reads and writes a state [S] and may stop with an error or a
    panic.  The state reached is kept on every path: an error does not undo
    the writes made before it. *)
Definition M (S A : Type) : Type := S → S * Outcome A.

#[export] Instance M_ret {S} : MRet (M S) := λ A a s, (s, Ok a).
#[export] Instance M_bind {S} : MBind (M S) := λ A B f c s,
  match c s with
  | (s', Ok a) => f a s'
  | (s', Err e) => (s', Err e)
  | (s', Panic) => (s', Panic)
  end.

Definition get_st {S} : M S S := λ s, (s, Ok s).
Definition put_st {S} (s : S) : M S unit := λ _, (s, Ok tt).
Definition gets {S A} (f : S → A) : M S A := λ s, (s, Ok (f s)).
Definition modify {S} (f : S → S) : M S unit := λ s, (f s, Ok tt).
Definition lift {S A} (o : Outcome A) : M S A := λ s, (s, o).

(** [for x in xs { body }]. *)
Fixpoint for_each {S A} (xs : list A) (body : A → M S unit) : M S unit :=
  match xs with
  | [] => mret tt
  | x :: xs => _ ← body x; for_each xs body
  end.

(** Run a computation on a part of the state. *)
Definition zoom {S T A} (part : S → T) (set_part : T → S → S) (c : M T A) : M S A :=
  λ s, let '(t, o) := c (part s) in (set_part t s, o).

Lemma M_bind_Ok {S A B} (c : M S A) (f : A → M S B) s s' a :
  c s = (s', Ok a) → (c ≫= f) s = f a s'.
Proof. intros E. unfold mbind, M_bind. by rewrite E. Qed.

Lemma M_bind_ret {S A B} (a : A) (f : A → M S B) s : (mret a ≫= f) s = f a s.
Proof. done. Qed.

(** Stepping through a monadic body: rewrite the first call with a lemma that
    gives its result, then continue with the rest. *)
Ltac m_step H := erewrite M_bind_Ok; [|exact H]; cbv beta iota.
Ltac m_unfold := cbv beta iota delta [mbind M_bind mret M_ret get_st put_st gets modify lift].

Definition is_ok {A} (o : Outcome A) : bool := match o with Ok _ => true | _ => false end.
Definition is_none {A} (o : option A) : bool := match o with None => true | Some _ => false end.

(** ** Fixed-width integers

    A [u64] is an [N] below 2^64.  The release profile of the workspace sets
    [overflow-checks = false], so [+] and [*] wrap around. *)

Definition u64_mod : N := 2 ^ 64.
Definition u64_max : N := u64_mod - 1.
Definition wrap64 (x : N) : N := x `mod` u64_mod.
Definition sat_add64 (x y : N) : N := (x + y) `min` u64_max.
Definition sat_sub64 (x y : N) : N := x - y.
Definition wrapping_sub64 (x y : N) : N := wrap64 (x + u64_mod - y).

Lemma wrap64_small x : (x < u64_mod → wrap64 x = x)%N.
Proof. apply N.mod_small. Qed.

Lemma wrap64_lt x : (wrap64 x < u64_mod)%N.
Proof. apply N.mod_lt. done. Qed.

(** ** Lists sorted by key *)

Lemma sorted_lookup {A} (R : relation A) l i j x y :
  StronglySorted R l → l !! i = Some x → l !! j = Some y → (i < j)%nat → R x y.
Proof.
  intros Hs. revert i j. induction Hs as [|z l Hl IH Hz]; intros [|i] [|j] Hi Hj Hij;
    simplify_eq/=; try lia.
  - rewrite Forall_forall in Hz. by eapply Hz, list_elem_of_lookup_2.
  - eapply IH; [done..|lia].
Qed.


Section sorted_by_key.
Context {K V : Type} (R : relation K) `{!PartialOrder R}.
Implicit Types l : list (K * V).

Definition kv_lt (x y : K * V) : Prop := strict R x.1 y.1.

Lemma kv_lt_irrefl x : ¬ kv_lt x x.
Proof. apply (irreflexivity (strict R)). Qed.

#[local] Instance kv_lt_trans : Transitive kv_lt.
Proof. intros x y z. apply (transitivity (R := strict R)). Qed.

Lemma sorted_kv_NoDup_fst l : StronglySorted kv_lt l → NoDup l.*1.
Proof.
  induction 1 as [|x l Hl IH Hx]; simpl; constructor; [|done].
  intros ([k v] & Hk & Hin)%list_elem_of_fmap.
  rewrite Forall_forall in Hx. specialize (Hx _ Hin). unfold kv_lt in Hx.
  rewrite Hk in Hx. by apply (irreflexivity (strict R)) in Hx.
Qed.

Lemma sorted_kv_NoDup l : StronglySorted kv_lt l → NoDup l.
Proof. intros H. by eapply NoDup_fmap_1, sorted_kv_NoDup_fst. Qed.

(** Two lists sorted by key with the same elements are equal. *)
Lemma sorted_kv_ext l1 l2 :
  StronglySorted kv_lt l1 → StronglySorted kv_lt l2 →
  (∀ x, x ∈ l1 ↔ x ∈ l2) → l1 = l2.
Proof.
  intros H1 H2 Hel.
  assert (AntiSymm (=) kv_lt) as Hanti.
  { intros x y Hxy Hyx. destruct (kv_lt_irrefl x). by etrans. }
  apply (StronglySorted_unique kv_lt); [done..|].
  apply NoDup_Permutation; auto using sorted_kv_NoDup.
Qed.

Lemma sorted_kv_filter (P : K * V → Prop) `{!∀ x, Decision (P x)} l :
  StronglySorted kv_lt l → StronglySorted kv_lt (filter P l).
Proof.
  induction 1 as [|x l Hl IH Hx]; [constructor|].
  rewrite filter_cons. case_decide; [|done].
  constructor; [done|]. rewrite Forall_forall in *.
  intros y [_ ?]%list_elem_of_filter. auto.
Qed.

Lemma sorted_kv_functional l k v1 v2 :
  StronglySorted kv_lt l → (k, v1) ∈ l → (k, v2) ∈ l → v1 = v2.
Proof.
  intros Hs%sorted_kv_NoDup_fst [i Hi]%list_elem_of_lookup [j Hj]%list_elem_of_lookup.
  assert (i = j) as ->; [|by simplify_eq].
  eapply (NoDup_lookup l.*1); [done|..]; rewrite list_lookup_fmap.
  - by rewrite Hi.
  - by rewrite Hj.
Qed.
End sorted_by_key.
