(* ===== verification/BTree.v ===== *)
(** Ordered maps of the Rust standard library: keys with a total order
    ([Ord]), range bounds ([Bound], [RangeBounds]) and [BTreeMap], kept as a
    [gmap] that is enumerated in key order.  [BTreeMap::range] panics on a
    decreasing range, and the model keeps that. *)

From stdpp Require Import base orders sorting strings gmap numbers list.
From S2P Require Import Prelude.

(** A key type with the total order of Rust's [Ord]. *)
Class OrdKey (K : Type) `{Countable K} := {
  key_le : relation K;
  key_le_dec :: RelDecision key_le;
  key_le_po :: PartialOrder key_le;
  key_le_total :: Total key_le;
}.

Abbreviation key_lt := (strict key_le).
Abbreviation klt := (kv_lt key_le).

Inductive Bound (K : Type) : Type :=
| Included (k : K)
| Excluded (k : K)
| Unbounded.
Arguments Included {_} _.
Arguments Excluded {_} _.
Arguments Unbounded {_}.

(** [(start_bound, end_bound)] of a [RangeBounds]. *)
Definition Bounds (K : Type) : Type := Bound K * Bound K.

Definition bounds_full {K} : Bounds K := (Unbounded, Unbounded).

Section bounds.
Context `{OrdKey K}.

Definition above (b : Bound K) (k : K) : Prop :=
  match b with
  | Included a => key_le a k
  | Excluded a => key_lt a k
  | Unbounded => True
  end.

Definition below (b : Bound K) (k : K) : Prop :=
  match b with
  | Included a => key_le k a
  | Excluded a => key_lt k a
  | Unbounded => True
  end.

Definition in_bounds (b : Bounds K) (k : K) : Prop := above b.1 k ∧ below b.2 k.

#[export] Instance in_bounds_dec b k : Decision (in_bounds b k).
Proof. destruct b as [[] []]; unfold in_bounds, above, below; simpl; apply _. Defined.

(** The ranges on which [BTreeMap::range] panics: the start is after the end,
    or both are the same excluded key. *)
Definition bad_range (b : Bounds K) : Prop :=
  match b with
  | (Included s, Included e) | (Included s, Excluded e) | (Excluded s, Included e) =>
      ¬ key_le s e
  | (Excluded s, Excluded e) => key_le e s
  | _ => False
  end.

#[export] Instance bad_range_dec b : Decision (bad_range b).
Proof. destruct b as [[] []]; simpl; apply _. Defined.

Lemma key_lt_le x y : key_lt x y → key_le x y.
Proof. by intros []. Qed.

Lemma key_le_lt_eq x y : key_le x y → key_lt x y ∨ x = y.
Proof.
  intros Hle. destruct (decide (key_le y x)).
  - right. by apply (anti_symm key_le).
  - left. done.
Qed.

Lemma key_not_le_lt x y : ¬ key_le x y → key_lt y x.
Proof. intros Hn. destruct (total key_le x y); [done|]. by split. Qed.

Lemma key_lt_not_le x y : key_lt x y → ¬ key_le y x.
Proof. by intros []. Qed.

Lemma key_lt_irrefl x : ¬ key_lt x x.
Proof. apply (irreflexivity key_lt). Qed.

Lemma key_le_lt_trans x y z : key_le x y → key_lt y z → key_lt x z.
Proof. intros. by eapply strict_trans_r. Qed.

Lemma key_lt_le_trans x y z : key_lt x y → key_le y z → key_lt x z.
Proof. intros. by eapply strict_trans_l. Qed.
End bounds.

#[export] Hint Resolve key_lt_le : datafuse.

Section btree.
Context `{OrdKey K} {V : Type}.
Implicit Types (m : gmap K V) (k : K) (v : V) (b : Bounds K).

Definition kv_le (x y : K * V) : Prop := key_le x.1 y.1.

#[export] Instance kv_le_dec : RelDecision kv_le.
Proof. intros x y. unfold kv_le. apply _. Defined.
#[local] Instance kv_le_trans : Transitive kv_le.
Proof. intros x y z. unfold kv_le. apply transitivity. Qed.
#[local] Instance kv_le_total : Total kv_le.
Proof. intros x y. unfold kv_le. apply (total key_le). Qed.

(** The entries of a [BTreeMap] in ascending key order. *)
Definition btree_iter m : list (K * V) := merge_sort kv_le (map_to_list m).

(** [BTreeMap::range]. *)
Definition btree_range m b : Outcome (list (K * V)) :=
  if decide (bad_range b) then Panic
  else Ok (filter (λ x, in_bounds b x.1) (btree_iter m)).

Lemma elem_of_btree_iter m k v : (k, v) ∈ btree_iter m ↔ m !! k = Some v.
Proof.
  unfold btree_iter. rewrite merge_sort_Permutation. apply elem_of_map_to_list.
Qed.

Lemma kv_le_sorted_strict (l : list (K * V)) :
  StronglySorted kv_le l → NoDup l.*1 → StronglySorted klt l.
Proof.
  induction 1 as [|x l Hl IH Hx]; simpl; [constructor|].
  intros [Hnin Hnd]%NoDup_cons. constructor; [auto|].
  rewrite Forall_forall in *. intros y Hy.
  destruct (key_le_lt_eq x.1 y.1 (Hx y Hy)) as [|Heq]; [done|].
  destruct Hnin. rewrite Heq. by apply list_elem_of_fmap_2.
Qed.

Lemma btree_iter_sorted m : StronglySorted klt (btree_iter m).
Proof.
  apply kv_le_sorted_strict; unfold btree_iter.
  - apply StronglySorted_merge_sort; apply _.
  - rewrite merge_sort_Permutation. apply NoDup_fst_map_to_list.
Qed.

(** A list sorted by key with the entries of [m] is the enumeration of [m]. *)
Lemma btree_iter_unique m l :
  StronglySorted klt l → (∀ k v, (k, v) ∈ l ↔ m !! k = Some v) → l = btree_iter m.
Proof.
  intros Hs Hel. apply (sorted_kv_ext key_le); [done|apply btree_iter_sorted|].
  intros [k v]. by rewrite Hel, elem_of_btree_iter.
Qed.

Definition range_list m b : list (K * V) := filter (λ x, in_bounds b x.1) (btree_iter m).

Lemma elem_of_range_list m b k v :
  (k, v) ∈ range_list m b ↔ m !! k = Some v ∧ in_bounds b k.
Proof.
  unfold range_list. rewrite list_elem_of_filter, elem_of_btree_iter. naive_solver.
Qed.

Lemma range_list_sorted m b : StronglySorted klt (range_list m b).
Proof. apply sorted_kv_filter, btree_iter_sorted. Qed.

Lemma range_list_full m : range_list m bounds_full = btree_iter m.
Proof.
  apply btree_iter_unique; [apply range_list_sorted|].
  intros. rewrite elem_of_range_list. split; [by intros []|]. done.
Qed.

Lemma btree_range_ok m b : ¬ bad_range b → btree_range m b = Ok (range_list m b).
Proof. intros. unfold btree_range. by rewrite decide_False. Qed.

Lemma range_list_unique m b l :
  StronglySorted klt l → (∀ k v, (k, v) ∈ l ↔ m !! k = Some v ∧ in_bounds b k) →
  l = range_list m b.
Proof.
  intros Hs Hel. apply (sorted_kv_ext key_le); [done|apply range_list_sorted|].
  intros [k v]. by rewrite Hel, elem_of_range_list.
Qed.
End btree.

(** Collecting a sorted stream into a [BTreeMap]: a later entry of a key
    replaces an earlier one. *)
Definition btree_collect `{Countable K} {V} (l : list (K * V)) : gmap K V :=
  foldl (λ m x, <[x.1 := x.2]> m) ∅ l.

Lemma btree_collect_sorted `{OrdKey K} {V} (l : list (K * V)) k v :
  StronglySorted klt l → btree_collect l !! k = Some v ↔ (k, v) ∈ l.
Proof.
  intros Hs. unfold btree_collect.
  assert (∀ m : gmap K V, (∀ x, x ∈ l → m !! x.1 = None) →
    foldl (λ m x, <[x.1 := x.2]> m) m l !! k = Some v ↔ (k, v) ∈ l ∨ m !! k = Some v) as Hgen.
  { induction Hs as [|[k1 v1] l Hl IH Hx]; simpl; intros m Hm.
    { rewrite elem_of_nil. naive_solver. }
    rewrite Forall_forall in Hx.
    rewrite IH.
    - rewrite elem_of_cons, lookup_insert_Some.
      assert (m !! k1 = None) by (apply (Hm (k1, v1)); left).
      naive_solver.
    - intros [k2 v2] Hin. simpl. rewrite lookup_insert_ne.
      + apply (Hm (k2, v2)). by right.
      + intros ->. by apply (kv_lt_irrefl key_le (k2, v2)), (Hx (k2, v2)). }
  rewrite Hgen; [|by intros; rewrite lookup_empty].
  rewrite lookup_empty. naive_solver.
Qed.

(** ** The key order of [String]: bytewise *)
#[export] Instance string_OrdKey : OrdKey string := {| key_le := String.le |}.

(** ** The key order of [u64] *)
#[export] Instance N_OrdKey : OrdKey N := {| key_le := N.le |}.

Lemma btree_collect_iter `{OrdKey K} {V} (g : gmap K V) : btree_collect (btree_iter g) = g.
Proof.
  apply map_eq. intros k. apply option_eq. intros v.
  by rewrite btree_collect_sorted, elem_of_btree_iter by apply btree_iter_sorted.
Qed.
