(* ===== verification/RustStr.v ===== *)
(** The functions of Rust's [str] and [char] that the meta-service uses, on
    strings of bytes: prefixes, splitting, decimal numbers and UTF-8.  Strings
    compare bytewise. *)

From stdpp Require Import base orders sorting strings gmap numbers list.
From S2P Require Import Prelude BTree.
Local Open Scope N_scope.

(** ** Definitions *)

Abbreviation byte_of a := (Ascii.N_of_ascii a).
Abbreviation byte n := (Ascii.ascii_of_N n).

(** [str::strip_prefix]. *)
Fixpoint strip_prefix (p s : string) : option string :=
  match p, s with
  | EmptyString, s => Some s
  | String a p, String b s => if decide (a = b) then strip_prefix p s else None
  | String _ _, EmptyString => None
  end.

(** [str::starts_with]. *)
Definition starts_with (s p : string) : bool := bool_decide (is_Some (strip_prefix p s)).

(** [str::split(c)]: at least one segment. *)
Fixpoint split_on (c : Ascii.ascii) (s : string) : list string :=
  match s with
  | EmptyString => [EmptyString]
  | String a s =>
      if decide (a = c) then EmptyString :: split_on c s
      else match split_on c s with
           | [] => [String a EmptyString]
           | x :: xs => String a x :: xs
           end
  end.

(** The last [w] decimal digits of a number, which are all of them when it is
    below [10 ^ w]: the text of [{:>0w}]. *)
Fixpoint dec_fixed (w : nat) (n : N) : string :=
  match w with
  | O => EmptyString
  | S w => String (byte (48 + (n / 10 ^ N.of_nat w) `mod` 10)) (dec_fixed w n)
  end.

(** The decimal text of a number of at most [S fuel] digits, before [acc]. *)
Fixpoint dec_digits (fuel : nat) (n : N) (acc : string) : string :=
  let acc := String (byte (48 + n `mod` 10)) acc in
  match fuel with
  | O => acc
  | S fuel => if n / 10 =? 0 then acc else dec_digits fuel (n / 10) acc
  end.

(** [to_string] of a [u64] or [usize], which has at most 20 digits. *)
Definition dec_string (n : N) : string := dec_digits 19 n EmptyString.

Definition is_digit (a : Ascii.ascii) : bool := (48 <=? byte_of a) && (byte_of a <=? 57).

Fixpoint parse_digits (acc : N) (s : string) : option N :=
  match s with
  | EmptyString => Some acc
  | String a s =>
      if is_digit a then
        let acc := acc * 10 + (byte_of a - 48) in
        if acc <? u64_mod then parse_digits acc s else None
      else None
  end.

(** [u64::from_str]: digits, with an optional plus sign, within 64 bits. *)
Definition parse_u64 (s : string) : option N :=
  match s with
  | EmptyString => None
  | String a s' =>
      if decide (a = byte 43) then
        match s' with EmptyString => None | _ => parse_digits 0 s' end
      else parse_digits 0 s
  end.

(** ** UTF-8 *)

Definition is_scalar (c : N) : bool := (c <? 0xD800) || ((0xE000 <=? c) && (c <=? 0x10FFFF)).

(** [char::from_u32]. *)
Definition char_from_u32 (c : N) : option N := if is_scalar c then Some c else None.

Fixpoint of_bytes (l : list N) : string :=
  match l with [] => EmptyString | b :: l => String (byte b) (of_bytes l) end.
Fixpoint to_bytes (s : string) : list N :=
  match s with EmptyString => [] | String a s => byte_of a :: to_bytes s end.

Definition utf8_bytes (c : N) : list N :=
  if c <? 0x80 then [c]
  else if c <? 0x800 then [0xC0 + c / 64; 0x80 + c `mod` 64]
  else if c <? 0x10000 then [0xE0 + c / 4096; 0x80 + (c / 64) `mod` 64; 0x80 + c `mod` 64]
  else [0xF0 + c / 262144; 0x80 + (c / 4096) `mod` 64; 0x80 + (c / 64) `mod` 64; 0x80 + c `mod` 64].

Definition utf8_encode (c : N) : string := of_bytes (utf8_bytes c).

(** [chars.iter().collect::<String>()]. *)
Fixpoint collect_chars (cs : list N) : string :=
  match cs with [] => EmptyString | c :: cs => utf8_encode c +:+ collect_chars cs end.

(** The code point that the bytes of one character hold; [None] unless the
    bytes are its encoding. *)
Definition decode_char (bs : list N) : option N :=
  let c := match bs with
    | [a] => a
    | [a; b] => (a - 0xC0) * 64 + (b - 0x80)
    | [a; b; d] => (a - 0xE0) * 4096 + (b - 0x80) * 64 + (d - 0x80)
    | [a; b; d; e] => (a - 0xF0) * 262144 + (b - 0x80) * 4096 + (d - 0x80) * 64 + (e - 0x80)
    | _ => 0x110000
    end in
  if is_scalar c && bool_decide (utf8_bytes c = bs) then Some c else None.

Definition utf8_width (a : N) : nat :=
  if a <? 0x80 then 1 else if a <? 0xE0 then 2 else if a <? 0xF0 then 3 else 4.

Fixpoint decode_chars (fuel : nat) (bs : list N) : option (list N) :=
  match fuel, bs with
  | _, [] => Some []
  | O, _ => None
  | S fuel, a :: _ =>
      c ← decode_char (take (utf8_width a) bs);
      cs ← decode_chars fuel (drop (utf8_width a) bs);
      Some (c :: cs)
  end.

(** [str::chars]; [None] when the bytes are not a Rust string. *)
Definition chars (s : string) : option (list N) :=
  decode_chars (String.length s) (to_bytes s).

Definition is_utf8 (s : string) : bool := bool_decide (is_Some (chars s)).

(** [String::from_utf8]. *)
Definition from_utf8 (b : string) : option string := if is_utf8 b then Some b else None.

(** ** [prefix_right_bound] (raft-store/src/utils.rs)

    The characters from the last to the first. *)
Fixpoint right_bound_go (rev_chars : list N) : option string :=
  match rev_chars with
  | [] => None
  | c :: rest =>
      if c =? 0x10FFFF then right_bound_go rest
      else match char_from_u32 (c + 1) with
           | Some next_char => Some (collect_chars (reverse (next_char :: rest)))
           | None => None
           end
  end.

Definition prefix_right_bound (p : string) : option string :=
  cs ← chars p; right_bound_go (reverse cs).

(** ** Order and prefixes *)

Lemma byte_of_lt a : byte_of a < 256.
Proof. apply Ascii.N_ascii_bounded. Qed.

Lemma byte_of_inj a b : byte_of a = byte_of b → a = b.
Proof. intros E. by rewrite <-(Ascii.ascii_N_embedding a), E, Ascii.ascii_N_embedding. Qed.

Lemma str_le_nil s : String.le EmptyString s.
Proof. by destruct s. Qed.

Lemma str_le_cons a b s t :
  String.le (String a s) (String b t) ↔ byte_of a < byte_of b ∨ (a = b ∧ String.le s t).
Proof.
  unfold String.le, String.leb. cbn [String.compare]. unfold Ascii.compare.
  destruct (N.compare_spec (byte_of a) (byte_of b)) as [E|Hlt|Hgt].
  - apply byte_of_inj in E as ->. split; [by right|]. intros [?|[_ ?]]; [lia|done].
  - split; [by left|done].
  - split; [done|]. intros [?|[-> _]]; lia.
Qed.

Lemma str_lt_alt s t : key_lt s t ↔ ¬ String.le t s.
Proof.
  split; [exact (key_lt_not_le (K := string) s t)|exact (key_not_le_lt (K := string) t s)].
Qed.

Lemma str_lt_cons a b s t :
  key_lt (String a s) (String b t) ↔ byte_of a < byte_of b ∨ (a = b ∧ key_lt s t).
Proof.
  rewrite !str_lt_alt, str_le_cons. split.
  - intros Hn. destruct (N.lt_trichotomy (byte_of a) (byte_of b)) as [?|[E|?]]; [by left| |tauto].
    apply byte_of_inj in E. right. split; [done|]. rewrite E in *. tauto.
  - intros [?|[? ?]] [?|[? ?]]; subst; (lia || tauto).
Qed.

Lemma str_app_cons a x s : String a x +:+ s = String a (x +:+ s).
Proof. done. Qed.

Lemma str_app_nil_r s : s +:+ EmptyString = s.
Proof. induction s as [|a s IH]; [done|]. by rewrite str_app_cons, IH. Qed.

Lemma str_app_assoc x s t : x +:+ s +:+ t = (x +:+ s) +:+ t.
Proof. induction x as [|a x IH]; [done|]. by rewrite !str_app_cons, IH. Qed.

Lemma str_app_inj x s t : x +:+ s = x +:+ t → s = t.
Proof. induction x as [|a x IH]; [done|]. rewrite !str_app_cons. intros [=]. auto. Qed.

Lemma str_length_app s t : String.length (s +:+ t) = (String.length s + String.length t)%nat.
Proof. induction s as [|a s IH]; [done|]. rewrite str_app_cons. cbn [String.length]. by rewrite IH. Qed.

Lemma str_le_app x s t : String.le (x +:+ s) (x +:+ t) ↔ String.le s t.
Proof.
  induction x as [|a x IH]; [done|]. rewrite !str_app_cons, str_le_cons, IH.
  split; [intros [?|[_ ?]]; [lia|done]|by right].
Qed.

Lemma str_lt_app x s t : key_lt (x +:+ s) (x +:+ t) ↔ key_lt s t.
Proof. by rewrite !str_lt_alt, str_le_app. Qed.

Lemma strip_prefix_Some p s x : strip_prefix p s = Some x ↔ s = p +:+ x.
Proof.
  revert s. induction p as [|a p IH]; intros s; [split; [by intros [=]|by intros ->]|].
  destruct s as [|b s]; [done|]. rewrite str_app_cons. cbn [strip_prefix].
  case_decide as Hab; [subst; rewrite IH; split; [by intros ->|by intros [=]]|].
  split; [done|]. intros [=]. congruence.
Qed.

Lemma starts_with_iff s p : starts_with s p = true ↔ ∃ x, s = p +:+ x.
Proof.
  unfold starts_with. rewrite bool_decide_eq_true. unfold is_Some.
  by setoid_rewrite strip_prefix_Some.
Qed.

Lemma str_le_prefix p x : String.le p (p +:+ x).
Proof. rewrite <-(str_app_nil_r p) at 1. apply str_le_app, str_le_nil. Qed.

(** The strings with a prefix are contiguous. *)
Lemma prefix_between p s x : String.le p s → String.le s (p +:+ x) → ∃ y, s = p +:+ y.
Proof.
  revert s. induction p as [|a p IH]; intros s Hl Hr; [by exists s|].
  destruct s as [|b s]; [by destruct Hl|].
  rewrite str_app_cons in Hr. apply str_le_cons in Hl, Hr.
  destruct Hl as [?|[-> Hl]], Hr as [?|[? Hr]]; subst; try lia.
  destruct (IH s Hl Hr) as [y ->]. by exists y.
Qed.

(** A difference at a position of both strings. *)
Inductive diverges : string → string → Prop :=
| diverges_here a b s t : byte_of a < byte_of b → diverges (String a s) (String b t)
| diverges_next a s t : diverges s t → diverges (String a s) (String a t).

Lemma diverges_lt s t x y : diverges s t → key_lt (s +:+ x) (t +:+ y).
Proof. induction 1; rewrite !str_app_cons; apply str_lt_cons; auto. Qed.

Lemma diverges_app x s t y z : diverges s t → diverges (x +:+ s +:+ y) (x +:+ t +:+ z).
Proof.
  intros Hd. induction x as [|a x IH]; [|by constructor].
  induction Hd; by constructor.
Qed.

(** ** UTF-8 keeps the order of the characters *)

Lemma byte_of_byte n : n < 256 → byte_of (byte n) = n.
Proof. apply Ascii.N_ascii_embedding. Qed.

Lemma of_to_bytes s : of_bytes (to_bytes s) = s.
Proof. induction s as [|a s IH]; [done|]. cbn. by rewrite IH, Ascii.ascii_N_embedding. Qed.

Lemma of_bytes_app l1 l2 : of_bytes (l1 ++ l2) = of_bytes l1 +:+ of_bytes l2.
Proof. induction l1 as [|a l1 IH]; [done|]. cbn [of_bytes app]. by rewrite IH. Qed.

Lemma diverges_of_bytes a b l1 l2 :
  a < b → b < 256 → diverges (of_bytes (a :: l1)) (of_bytes (b :: l2)).
Proof. intros. cbn [of_bytes]. apply diverges_here. rewrite !byte_of_byte; lia. Qed.

Lemma diverges_of_bytes_next a b l1 l2 :
  a = b → diverges (of_bytes l1) (of_bytes l2) → diverges (of_bytes (a :: l1)) (of_bytes (b :: l2)).
Proof. intros ->. apply diverges_next. Qed.

(** Compare two lists of bytes of the same length. *)
Ltac diverge_bytes :=
  match goal with
  | |- diverges (of_bytes (?a :: _)) (of_bytes (?b :: _)) =>
      first [ apply diverges_of_bytes; [lia|lia]
            | apply diverges_of_bytes_next; [lia|diverge_bytes] ]
  end.

(** Adding 1 to a number changes its last digit or carries over. *)
Lemma carry64 c :
  ((c + 1) / 64 = c / 64 ∧ (c + 1) `mod` 64 = c `mod` 64 + 1) ∨ (c + 1) / 64 = c / 64 + 1.
Proof.
  pose proof (N.div_mod c 64 ltac:(done)) as H1. pose proof (N.mod_lt c 64 ltac:(done)).
  pose proof (N.div_mod (c + 1) 64 ltac:(done)) as H2. pose proof (N.mod_lt (c + 1) 64 ltac:(done)).
  revert H1 H2 H H0. generalize (c / 64), (c `mod` 64), ((c + 1) / 64), ((c + 1) `mod` 64). lia.
Qed.

Lemma utf8_encode_next c : c < 0x10FFFF → diverges (utf8_encode c) (utf8_encode (c + 1)).
Proof.
  intros Hc. unfold utf8_encode, utf8_bytes.
  change 262144 with (64 * (64 * 64)). change 4096 with (64 * 64).
  rewrite <-!N.Div0.div_div.
  pose proof (N.mod_lt (c + 1) 64 ltac:(done)).
  pose proof (N.mod_lt ((c + 1) / 64) 64 ltac:(done)).
  pose proof (N.mod_lt ((c + 1) / 64 / 64) 64 ltac:(done)).
  pose proof (N.Div0.mul_div_le c 64).
  pose proof (N.Div0.mul_div_le (c / 64) 64).
  pose proof (N.Div0.mul_div_le (c / 64 / 64) 64).
  pose proof (N.Div0.mul_div_le (c + 1) 64).
  pose proof (N.Div0.mul_div_le ((c + 1) / 64) 64).
  pose proof (N.Div0.mul_div_le ((c + 1) / 64 / 64) 64).
  pose proof (N.le_0_l (c / 64)). pose proof (N.le_0_l (c / 64 / 64)).
  pose proof (N.le_0_l (c / 64 / 64 / 64)).
  destruct (N.ltb_spec c 0x80), (N.ltb_spec (c + 1) 0x80),
    (N.ltb_spec c 0x800), (N.ltb_spec (c + 1) 0x800),
    (N.ltb_spec c 0x10000), (N.ltb_spec (c + 1) 0x10000); try lia.
  all: destruct (carry64 c) as [[E1 ?]|E1]; try rewrite E1 in *; try diverge_bytes.
  all: destruct (carry64 (c / 64)) as [[E2 ?]|E2]; try rewrite E2 in *; try diverge_bytes.
  all: destruct (carry64 (c / 64 / 64)) as [[E3 ?]|E3]; try rewrite E3 in *; diverge_bytes.
Qed.

Lemma decode_char_Some bs c : decode_char bs = Some c → is_scalar c = true ∧ utf8_bytes c = bs.
Proof.
  unfold decode_char. set (c' := match bs with [] => _ | _ => _ end).
  destruct (is_scalar c') eqn:Hs; [|done]. cbn [andb].
  case_bool_decide; [|done]. intros [= <-]. done.
Qed.

Lemma decode_chars_Some fuel bs cs :
  decode_chars fuel bs = Some cs → collect_chars cs = of_bytes bs ∧ Forall is_scalar cs.
Proof.
  revert bs cs. induction fuel as [|fuel IH]; intros [|a bs] cs; cbn [decode_chars];
    try (intros [= <-]; done).
  intros (c & Hc & (cs' & Hcs & [= <-])%bind_Some)%bind_Some.
  apply decode_char_Some in Hc as [Hs Hc]. apply IH in Hcs as [Hcs Hall].
  split; [|constructor; [by apply Is_true_true|done]].
  cbn [collect_chars]. unfold utf8_encode. by rewrite Hc, Hcs, <-of_bytes_app, take_drop.
Qed.

(** The characters of a string are its content. *)
Lemma chars_collect s cs : chars s = Some cs → collect_chars cs = s ∧ Forall is_scalar cs.
Proof. intros [-> ?]%decode_chars_Some. by rewrite of_to_bytes. Qed.

Lemma collect_chars_app cs ds : collect_chars (cs ++ ds) = collect_chars cs +:+ collect_chars ds.
Proof. induction cs as [|c cs IH]; [done|]. cbn. by rewrite IH, str_app_assoc. Qed.

Lemma diverges_app_r s t x : diverges s t → diverges (s +:+ x) t.
Proof. intros. induction H; by constructor. Qed.

Lemma right_bound_go_spec l r :
  right_bound_go l = Some r → diverges (collect_chars (reverse l)) r.
Proof.
  induction l as [|c l IH]; [done|]. cbn [right_bound_go].
  rewrite reverse_cons, collect_chars_app.
  destruct (N.eqb_spec c 0x10FFFF) as [->|Hc].
  { intros Hr. by apply diverges_app_r, IH. }
  unfold char_from_u32. destruct (is_scalar (c + 1)) eqn:Hs; [|done].
  intros [= <-]. rewrite reverse_cons, collect_chars_app.
  apply diverges_app. rewrite <-(str_app_nil_r (utf8_encode c)).
  apply diverges_app_r, utf8_encode_next.
  unfold is_scalar in Hs. apply orb_true_iff in Hs. rewrite andb_true_iff in Hs.
  rewrite N.ltb_lt, !N.leb_le in Hs. lia.
Qed.

(** Every string with the prefix is below the right bound. *)
Lemma prefix_right_bound_above p r x : prefix_right_bound p = Some r → key_lt (p +:+ x) r.
Proof.
  unfold prefix_right_bound. intros (cs & Hcs & Hr)%bind_Some.
  apply chars_collect in Hcs as [<- _]. apply right_bound_go_spec in Hr.
  rewrite reverse_involutive in Hr. rewrite <-(str_app_nil_r r). by apply diverges_lt.
Qed.

(** ** Fixed-width decimal numbers *)

Lemma dec_fixed_length w n : String.length (dec_fixed w n) = w.
Proof. induction w as [|w IH]; [done|]. cbn [dec_fixed String.length]. by rewrite IH. Qed.

Lemma digit_byte d : d < 10 → byte_of (byte (48 + d)) = 48 + d ∧ is_digit (byte (48 + d)) = true.
Proof.
  intros Hd. unfold is_digit. rewrite byte_of_byte by lia.
  rewrite andb_true_iff, !N.leb_le. lia.
Qed.

Lemma digit_ne d n : d < 10 → n < 48 → byte (48 + d) ≠ byte n.
Proof.
  intros Hd Hn Ha%(f_equal (λ a, byte_of a)). rewrite !byte_of_byte in Ha; lia.
Qed.

Lemma parse_dec_fixed w n acc :
  acc * 10 ^ N.of_nat w + n `mod` 10 ^ N.of_nat w < u64_mod →
  parse_digits acc (dec_fixed w n) = Some (acc * 10 ^ N.of_nat w + n `mod` 10 ^ N.of_nat w).
Proof.
  revert acc. induction w as [|w IH]; intros acc.
  { cbn [dec_fixed parse_digits]. rewrite N.pow_0_r, N.mod_1_r. intros _. f_equal. lia. }
  rewrite Nat2N.inj_succ, N.pow_succ_r'. set (p := 10 ^ N.of_nat w) in *.
  assert (p ≠ 0) as Hp by (apply N.pow_nonzero; lia).
  rewrite (N.mul_comm 10 p), N.Div0.mod_mul_r.
  pose proof (N.mod_lt (n / p) 10 ltac:(done)) as Hd.
  cbn [dec_fixed parse_digits]. fold p.
  destruct (digit_byte _ Hd) as [-> ->].
  rewrite (N.add_comm 48), N.add_sub.
  set (d := (n / p) `mod` 10) in *. intros Hlt.
  assert (acc * (p * 10) + (n `mod` p + p * d) = (acc * 10 + d) * p + n `mod` p) as E by ring.
  rewrite E in *.
  assert (acc * 10 + d < u64_mod) 
    by (clear -Hlt Hp; generalize dependent (n `mod` p); clearbody d p; nia).
  destruct (N.ltb_spec (acc * 10 + d) u64_mod); [|lia]. by apply IH.
Qed.

Lemma div_mod_10 n : n / 10 * 10 + n `mod` 10 = n.
Proof. rewrite (N.mul_comm _ 10). symmetry. by apply N.div_mod. Qed.

Lemma parse_dec_digits fuel n s :
  n < u64_mod → n < 10 ^ N.of_nat (S fuel) →
  parse_digits 0 (dec_digits fuel n s) = parse_digits n s.
Proof.
  revert n s. induction fuel as [|fuel IH]; intros n s Hu Hn.
  all: pose proof (N.mod_lt n 10 ltac:(done)) as Hd; destruct (digit_byte _ Hd) as [Hb Hdig].
  - change (n < 10) in Hn. rewrite N.mod_small in * by done. cbn [dec_digits parse_digits].
    rewrite N.mod_small by done. rewrite Hb, Hdig, N.mul_0_l, N.add_0_l, (N.add_comm 48), N.add_sub.
    by apply N.ltb_lt in Hu as ->.
  - cbn [dec_digits]. destruct (N.eqb_spec (n / 10) 0) as [E|Hne].
    + assert (n `mod` 10 = n) as Hm by (pose proof (div_mod_10 n) as Hq; by rewrite E in Hq).
      cbn [parse_digits]. rewrite Hb, Hdig, Hm, N.mul_0_l, N.add_0_l, (N.add_comm 48), N.add_sub.
      by apply N.ltb_lt in Hu as ->.
    + rewrite IH.
      * cbn [parse_digits]. rewrite Hb, Hdig, (N.add_comm 48), N.add_sub, div_mod_10.
        by apply N.ltb_lt in Hu as ->.
      * eapply N.le_lt_trans; [|exact Hu]. apply N.Div0.div_le_upper_bound. lia.
      * apply N.Div0.div_lt_upper_bound. by rewrite <-N.pow_succ_r', <-Nat2N.inj_succ.
Qed.

Lemma u64_max_digits : u64_mod < 10 ^ N.of_nat 20.
Proof. by vm_compute. Qed.

(** Parsing inverts the zero-padded format. *)
Lemma parse_u64_dec n : n < u64_mod → parse_u64 (dec_fixed 20 n) = Some n.
Proof.
  intros Hn. pose proof u64_max_digits as Hm.
  assert (n `mod` 10 ^ N.of_nat 20 = n) as E by (apply N.mod_small; by etransitivity).
  pose proof (parse_dec_fixed 20 n 0) as Hp. rewrite E, N.mul_0_l, N.add_0_l in Hp.
  rewrite <-(Hp Hn).
  change (dec_fixed 20 n) with
    (String (byte (48 + (n / 10 ^ N.of_nat 19) `mod` 10)) (dec_fixed 19 n)).
  cbn [parse_u64]. rewrite decide_False; [done|]. apply digit_ne; [by apply N.mod_lt|done].
Qed.

(** The padded texts compare like the numbers. *)
Lemma dec_fixed_diverges w m n :
  m `mod` 10 ^ N.of_nat w < n `mod` 10 ^ N.of_nat w → diverges (dec_fixed w m) (dec_fixed w n).
Proof.
  induction w as [|w IH]; intros Hlt.
  { rewrite !N.mod_1_r in Hlt. lia. }
  rewrite Nat2N.inj_succ, N.pow_succ_r' in Hlt. set (p := 10 ^ N.of_nat w) in *.
  assert (p ≠ 0) as Hp by (apply N.pow_nonzero; lia).
  rewrite (N.mul_comm 10 p), !N.Div0.mod_mul_r in Hlt.
  pose proof (N.mod_lt (m / p) 10 ltac:(done)) as Hm.
  pose proof (N.mod_lt (n / p) 10 ltac:(done)) as Hn.
  cbn [dec_fixed]. fold p.
  destruct (digit_byte _ Hm) as [Hbm _], (digit_byte _ Hn) as [Hbn _].
  pose proof (N.mod_lt n p Hp) as Hn'.
  set (dm := (m / p) `mod` 10) in *. set (dn := (n / p) `mod` 10) in *.
  destruct (N.lt_trichotomy dm dn) as [?|[E|Hgt]].
  - apply diverges_here. lia.
  - rewrite E in *. apply diverges_next, IH. lia.
  - exfalso. assert (p * (dn + 1) ≤ p * dm) by (apply N.mul_le_mono_l; lia).
    revert Hlt Hn' H. generalize (n `mod` p), (m `mod` p). clearbody dm dn p. clear. nia.
Qed.

Lemma dec_fixed_lt m n :
  m < n → n < u64_mod → diverges (dec_fixed 20 m) (dec_fixed 20 n).
Proof.
  intros Hlt Hn. pose proof u64_max_digits. apply dec_fixed_diverges.
  rewrite !N.mod_small; [done|by etransitivity|]. etransitivity; [|done]. by etransitivity.
Qed.

(** ** Splitting *)

Lemma split_on_nonempty c s : split_on c s ≠ [].
Proof.
  destruct s as [|a s]; [done|]. cbn. case_decide; [done|].
  by destruct (split_on c s).
Qed.

Lemma split_on_app c s t :
  split_on c s = [s] → split_on c (s +:+ String c t) = s :: split_on c t.
Proof.
  induction s as [|a s IH]; intros Hs.
  { change (EmptyString +:+ String c t) with (String c t). cbn [split_on]. by rewrite decide_True. }
  rewrite str_app_cons. cbn [split_on] in *. case_decide as Hac.
  { discriminate. }
  destruct (split_on c s) as [|x xs] eqn:E; [by apply split_on_nonempty in E|].
  injection Hs as -> ->. by rewrite IH.
Qed.

Lemma dec_fixed_split w n : split_on (byte 47) (dec_fixed w n) = [dec_fixed w n].
Proof.
  induction w as [|w IH]; [done|]. cbn [dec_fixed split_on]. rewrite decide_False.
  - by rewrite IH.
  - apply digit_ne; [by apply N.mod_lt|done].
Qed.

(** Parsing inverts [to_string]. *)
Lemma parse_u64_dec_string n : n < u64_mod → parse_u64 (dec_string n) = Some n.
Proof.
  intros Hn. pose proof u64_max_digits.
  assert (parse_digits 0 (dec_string n) = Some n) as Hp.
  { unfold dec_string. rewrite parse_dec_digits; [done|done|]. by etransitivity. }
  assert (∀ fuel n s, ∃ d s', d < 10 ∧ dec_digits fuel n s = String (byte (48 + d)) s') as Hd.
  { clear. induction fuel as [|fuel IH]; intros n s; cbn [dec_digits].
    - eexists _, _. split; [|done]. by apply N.mod_lt.
    - destruct (n / 10 =? 0); [|apply IH]. eexists _, _. split; [|done]. by apply N.mod_lt. }
  destruct (Hd 19%nat n EmptyString) as (d & s' & Hlt & E). unfold dec_string in *. rewrite E in *.
  cbn [parse_u64]. rewrite decide_False; [done|]. by apply digit_ne.
Qed.
