(* ===== verification/External.v ===== *)
(** Code the meta-service calls and that is not part of the repository, as
    parameters of the model with the behaviour the meta-service relies on:
    the consensus types of the [openraft] crate and the stream adapters of the
    [stream_more] crate.  Each class of parameters has a concrete instance,
    which shows that its laws can hold. *)

From stdpp Require Import base sorting numbers list.
From S2P Require Import Prelude.

(** The types of the [openraft] crate (types/src/raft_types.rs instantiates
    them).  [log_id_leb] is the [PartialOrd] of [LogId]. *)
Class OpenRaft := {
  LogId : Type;
  log_id_leb : LogId → LogId → bool;
  Membership : Type;
  StoredMembership : Type;
  stored_membership_new : option LogId → Membership → StoredMembership;
  stored_membership_default : StoredMembership;
}.

(** The derived order of [Option<LogId>]: [None] is the least. *)
Definition opt_log_id_leb {raft : OpenRaft} (a b : option LogId) : bool :=
  match a, b with
  | None, _ => true
  | Some _, None => false
  | Some x, Some y => log_id_leb x y
  end.

(** A concrete instance, for examples: a log id is its index, a membership is
    the list of the members' ids. *)
Definition nat_raft : OpenRaft := {|
  LogId := nat;
  log_id_leb := Nat.leb;
  Membership := list nat;
  StoredMembership := option nat * list nat;
  stored_membership_new l m := (l, m);
  stored_membership_default := (None, []);
|}.

(** ** The [stream_more] crate

    A stream is the list of the results its polls yield, a panic included.
    [kmerge] is [KMerge::by]: it merges streams, taking the head [x] before
    the head [y] of another stream when the comparison of [x] and [y] says so.
    The comparison may panic.  [coalesce] merges consecutive items. *)

Class StreamMore := {
  kmerge : ∀ {A : Type}, (Outcome A → Outcome A → option bool) →
    list (list (Outcome A)) → list (Outcome A);
  coalesce : ∀ {A : Type}, (A → A → A + A * A) → list A → list A;
}.

(** The items of any two different streams are compared by [le]. *)
Definition compares_by {A} (f : Outcome A → Outcome A → option bool)
    (le : relation (Outcome A)) `{!RelDecision le} (ss : list (list (Outcome A))) : Prop :=
  ∀ i j si sj x y, i ≠ j → ss !! i = Some si → ss !! j = Some sj → x ∈ si → y ∈ sj →
    f x y = Some (bool_decide (le x y)).

Class StreamMoreLaws (sm : StreamMore) : Prop := {
  kmerge_sorted : ∀ A (f : Outcome A → Outcome A → option bool) (le : relation (Outcome A))
      `{!RelDecision le, !Transitive le, !Total le} ss,
    compares_by f le ss → Forall (StronglySorted le) ss →
    kmerge f ss ≡ₚ concat ss ∧ StronglySorted le (kmerge f ss);
  coalesce_nil : ∀ A (f : A → A → A + A * A), coalesce f [] = [];
  coalesce_one : ∀ A (f : A → A → A + A * A) x, coalesce f [x] = [x];
  coalesce_cons : ∀ A (f : A → A → A + A * A) x y l,
    coalesce f (x :: y :: l) =
      match f x y with
      | inl z => coalesce f (z :: l)
      | inr (a, b) => a :: coalesce f (b :: l)
      end;
}.

(** A concrete instance: merge the streams one after the other. *)
Fixpoint merge2 {A} (f : Outcome A → Outcome A → option bool)
    (l1 : list (Outcome A)) : list (Outcome A) → list (Outcome A) :=
  match l1 with
  | [] => λ l2, l2
  | x :: l1' => fix go l2 :=
      match l2 with
      | [] => x :: l1'
      | y :: l2' =>
          match f x y with
          | Some true => x :: merge2 f l1' (y :: l2')
          | Some false => y :: go l2'
          | None => [Panic]
          end
      end
  end.

Fixpoint coalesce_go {A} (f : A → A → A + A * A) (x : A) (l : list A) : list A :=
  match l with
  | [] => [x]
  | y :: l =>
      match f x y with
      | inl z => coalesce_go f z l
      | inr (a, b) => a :: coalesce_go f b l
      end
  end.

Definition list_streams : StreamMore := {|
  kmerge A f ss := foldr (merge2 f) [] ss;
  coalesce A f l := match l with [] => [] | x :: l => coalesce_go f x l end;
|}.

Lemma merge2_sorted {A} (f : Outcome A → Outcome A → option bool) (le : relation (Outcome A))
    `{!RelDecision le, !Transitive le, !Total le} l1 l2 :
  (∀ x y, x ∈ l1 → y ∈ l2 → f x y = Some (bool_decide (le x y))) →
  StronglySorted le l1 → StronglySorted le l2 →
  merge2 f l1 l2 ≡ₚ l1 ++ l2 ∧ StronglySorted le (merge2 f l1 l2).
Proof.
  intros Hf Hs1. revert l2 Hf.
  induction Hs1 as [|x l1 Hs1 IH1 Hx]; intros l2 Hf Hs2; [by simpl|].
  induction Hs2 as [|y l2 Hs2 IH2 Hy]; [by rewrite app_nil_r; split; [|constructor]|].
  simpl. rewrite (Hf x y) by left. case_bool_decide as Hxy.
  - destruct (IH1 (y :: l2)) as [Hp Hs]; [|by constructor|].
    { intros. apply Hf; [by right|done]. }
    split; [by constructor|]. constructor; [done|].
    rewrite Hp. apply Forall_app. split; [done|]. constructor; [done|].
    eapply Forall_impl; [exact Hy|]. intros z ?. by trans y.
  - destruct IH2 as [Hp Hs]; [by intros; apply Hf; [|right]|].
    change (y :: merge2 f (x :: l1) l2 ≡ₚ x :: l1 ++ y :: l2 ∧
      StronglySorted le (y :: merge2 f (x :: l1) l2)).
    assert (le y x) by (destruct (total le x y); done).
    split.
    + rewrite Hp. apply (Permutation_middle (x :: l1)).
    + constructor; [done|]. rewrite Hp. constructor; [done|].
      apply Forall_app. split; [|done].
      eapply Forall_impl; [exact Hx|]. intros z ?. by trans x.
Qed.

Lemma list_streams_laws : StreamMoreLaws list_streams.
Proof.
  split; [|done..].
  intros A f le ??? ss. unfold kmerge, list_streams.
  induction ss as [|s ss IH]; intros Hf Hs; simpl; [split; [done|constructor]|].
  apply Forall_cons in Hs as [Hs Hss].
  destruct IH as [Hp Hs']; [|done|].
  { intros i j si sj x y Hij Hi Hj. apply (Hf (S i) (S j)); [lia|done..]. }
  destruct (merge2_sorted f le s (foldr (merge2 f) [] ss)) as [Hp2 Hs2]; [|done..|].
  { intros x y Hx Hy. rewrite Hp in Hy.
    apply list_elem_of_In, in_concat in Hy as (sj & Hsj%list_elem_of_In & Hy%list_elem_of_In).
    apply list_elem_of_lookup in Hsj as [j Hj].
    by apply (Hf 0%nat (S j) s sj). }
  split; [by rewrite Hp2, Hp|done].
Qed.
