(* ===== verification/ExpireKey.v ===== *)
(** [ExpireKey] (raft-store/src/state_machine/expire.rs): the key
    [(expire_time, seq)] of the expiration index, its order, and its
    order-preserving big-endian serialization. *)

From stdpp Require Import base strings gmap numbers list.
From S2P Require Import Prelude BTree.
Local Open Scope N_scope.

Definition is_u64 (x : N) : bool := x <? u64_mod.

(** Two [u64] numbers. *)
Record ExpireKey := mk_ExpireKey {
  time_ms : N;
  ek_seq : N;
  ek_u64 : is_u64 time_ms && is_u64 ek_seq = true;
}.

Definition expire_key_default : ExpireKey := mk_ExpireKey 0 0 eq_refl.

(** [ExpireKey::new]; the arguments are [u64], wrapping keeps them. *)
Definition expire_key_new (t s : N) : ExpireKey :=
  match Bool.bool_dec (is_u64 (wrap64 t) && is_u64 (wrap64 s)) true with
  | left H => mk_ExpireKey (wrap64 t) (wrap64 s) H
  | right _ => expire_key_default
  end.

(** [ExpireKey::is_expired]: an equal time is not expired. *)
Definition ek_is_expired (ek : ExpireKey) (now_ms : N) : bool := time_ms ek <? now_ms.

Lemma is_u64_lt x : is_u64 x = true ↔ x < u64_mod.
Proof. apply N.ltb_lt. Qed.

Lemma ek_bounds ek : time_ms ek < u64_mod ∧ ek_seq ek < u64_mod.
Proof. pose proof (ek_u64 ek) as H. by rewrite andb_true_iff, !is_u64_lt in H. Qed.

Lemma ExpireKey_ext a b : time_ms a = time_ms b → ek_seq a = ek_seq b → a = b.
Proof.
  destruct a as [t1 s1 H1], b as [t2 s2 H2]. simpl. intros <- <-. f_equal. apply (proof_irrel _ _).
Qed.

Lemma expire_key_new_eq t s :
  time_ms (expire_key_new t s) = wrap64 t ∧ ek_seq (expire_key_new t s) = wrap64 s.
Proof.
  unfold expire_key_new. destruct (Bool.bool_dec _ _) as [H|H]; [done|].
  destruct H. apply andb_true_iff. rewrite !is_u64_lt. auto using wrap64_lt.
Qed.

Lemma time_ms_new t s : t < u64_mod → time_ms (expire_key_new t s) = t.
Proof. intros. destruct (expire_key_new_eq t s) as [-> _]. by apply wrap64_small. Qed.
Lemma ek_seq_new t s : s < u64_mod → ek_seq (expire_key_new t s) = s.
Proof. intros. destruct (expire_key_new_eq t s) as [_ ->]. by apply wrap64_small. Qed.

Lemma expire_key_new_eta ek : expire_key_new (time_ms ek) (ek_seq ek) = ek.
Proof.
  destruct (ek_bounds ek), (expire_key_new_eq (time_ms ek) (ek_seq ek)) as [Ht Hs].
  apply ExpireKey_ext; [rewrite Ht|rewrite Hs]; by apply wrap64_small.
Qed.

#[export] Instance ExpireKey_eq_dec : EqDecision ExpireKey.
Proof.
  intros a b. destruct (decide (time_ms a = time_ms b)) as [?|Hn].
  - destruct (decide (ek_seq a = ek_seq b)) as [?|Hn].
    + left. by apply ExpireKey_ext.
    + right. by intros ->.
  - right. by intros ->.
Defined.
#[export] Instance ExpireKey_countable : Countable ExpireKey.
Proof.
  apply (inj_countable' (λ ek, (time_ms ek, ek_seq ek)) (λ p, expire_key_new p.1 p.2)).
  intros ek. apply expire_key_new_eta.
Defined.

(** The derived lexicographic order. *)
Definition ek_le (a b : ExpireKey) : Prop :=
  time_ms a < time_ms b ∨ (time_ms a = time_ms b ∧ ek_seq a ≤ ek_seq b).

#[export] Instance ek_le_dec : RelDecision ek_le.
Proof. intros a b. unfold ek_le. apply _. Defined.

#[export] Instance ek_le_po : PartialOrder ek_le.
Proof.
  split; [split|].
  - intros a. right. lia.
  - intros [] [] []. unfold ek_le. simpl. lia.
  - intros a b. unfold ek_le. intros. apply ExpireKey_ext; lia.
Qed.

#[export] Instance ek_le_total : Total ek_le.
Proof. intros [] []. unfold ek_le. simpl. lia. Qed.

#[export] Instance ExpireKey_OrdKey : OrdKey ExpireKey := {| key_le := ek_le |}.

Lemma ek_lt_alt (a b : ExpireKey) :
  key_lt a b ↔ time_ms a < time_ms b ∨ (time_ms a = time_ms b ∧ ek_seq a < ek_seq b).
Proof.
  change (strict ek_le a b ↔ time_ms a < time_ms b ∨ (time_ms a = time_ms b ∧ ek_seq a < ek_seq b)).
  unfold strict, ek_le. lia.
Qed.

(** ** [SledOrderedSerde]: sixteen big-endian bytes *)

Fixpoint be_write (n : nat) (x : N) : list N :=
  match n with
  | O => []
  | S n => (x / 256 ^ N.of_nat n) `mod` 256 :: be_write n x
  end.

Fixpoint be_read (acc : N) (bs : list N) : N :=
  match bs with
  | [] => acc
  | b :: bs => be_read (acc * 256 + b) bs
  end.

(** [ser]: [BigEndian::write_u64] of the time, then of the sequence number. *)
Definition ek_ser (ek : ExpireKey) : list N :=
  be_write 8 (time_ms ek) ++ be_write 8 (ek_seq ek).

(** [de]: [BigEndian::read_u64] reads eight bytes and panics on fewer. *)
Definition ek_de (b : list N) : Outcome ExpireKey :=
  if decide (length b < 16)%nat then Panic
  else Ok (expire_key_new (be_read 0 (take 8 b)) (be_read 0 (take 8 (drop 8 b)))).

Lemma be_write_length n x : length (be_write n x) = n.
Proof. induction n; simpl; congruence. Qed.

Lemma be_read_app acc l1 l2 : be_read acc (l1 ++ l2) = be_read (be_read acc l1) l2.
Proof. revert acc. induction l1; simpl; auto. Qed.

Lemma be_read_write n acc x :
  be_read acc (be_write n x) = acc * 256 ^ N.of_nat n + x `mod` 256 ^ N.of_nat n.
Proof.
  revert acc. induction n as [|n IH]; intros acc; simpl.
  { rewrite N.mod_1_r. lia. }
  rewrite IH. rewrite Nat2N.inj_succ, N.pow_succ_r'.
  set (p := 256 ^ N.of_nat n).
  assert (p ≠ 0) by (apply N.pow_nonzero; lia).
  rewrite (N.mul_comm 256 p), N.Div0.mod_mul_r. lia.
Qed.

(** The bytes of two numbers of the same width compare like the numbers. *)
Inductive bytes_lt : list N → list N → Prop :=
| bytes_lt_nil b l : bytes_lt [] (b :: l)
| bytes_lt_here b1 b2 l1 l2 : b1 < b2 → bytes_lt (b1 :: l1) (b2 :: l2)
| bytes_lt_next b l1 l2 : bytes_lt l1 l2 → bytes_lt (b :: l1) (b :: l2).

Lemma bytes_lt_app_l l l1 l2 : bytes_lt l1 l2 → bytes_lt (l ++ l1) (l ++ l2).
Proof. intros. induction l; simpl; [done|by constructor]. Qed.

Lemma bytes_lt_app_same_length l1 l2 k1 k2 :
  length l1 = length l2 → bytes_lt l1 l2 → bytes_lt (l1 ++ k1) (l2 ++ k2).
Proof.
  intros Hlen H. revert Hlen.
  induction H as [|b1 b2 l1 l2 Hb|b l1 l2 H IH]; intros Hlen; simplify_eq/=.
  - by apply bytes_lt_here.
  - apply bytes_lt_next. auto.
Qed.

Lemma be_write_lt n x y :
  x `mod` 256 ^ N.of_nat n < y `mod` 256 ^ N.of_nat n →
  bytes_lt (be_write n x) (be_write n y).
Proof.
  induction n as [|n IH]; intros Hxy.
  { simpl in Hxy. rewrite !N.mod_1_r in Hxy. lia. }
  rewrite Nat2N.inj_succ, N.pow_succ_r' in Hxy. simpl.
  set (p := 256 ^ N.of_nat n) in *.
  assert (p ≠ 0) by (apply N.pow_nonzero; lia).
  rewrite (N.mul_comm 256 p), !N.Div0.mod_mul_r in Hxy.
  pose proof (N.mod_lt x p ltac:(done)) as Hx. pose proof (N.mod_lt y p ltac:(done)) as Hy.
  destruct (N.lt_trichotomy ((x / p) `mod` 256) ((y / p) `mod` 256)) as [?|[Heq|Hgt]].
  - by constructor.
  - rewrite Heq in *. apply bytes_lt_next, IH. lia.
  - exfalso.
    assert (p * ((y / p) `mod` 256 + 1) ≤ p * ((x / p) `mod` 256))
      as Hp by (apply N.mul_le_mono_l; lia).
    rewrite N.mul_add_distr_l, N.mul_1_r in Hp.
    clear IH Hgt. revert Hxy Hp Hx Hy.
    generalize (p * ((y / p) `mod` 256)), (p * ((x / p) `mod` 256)).
    generalize (x `mod` p), (y `mod` p). clearbody p. lia.
Qed.

Lemma be_width_8 : 256 ^ N.of_nat 8 = u64_mod.
Proof. vm_compute. reflexivity. Qed.

(** [de] inverts [ser]. *)
Lemma ek_de_ser ek : ek_de (ek_ser ek) = Ok ek.
Proof.
  destruct (ek_bounds ek). unfold ek_de, ek_ser.
  rewrite length_app, !be_write_length, decide_False by lia.
  rewrite take_app_length', drop_app_length' by (by rewrite be_write_length).
  rewrite take_ge by (rewrite be_write_length; lia).
  rewrite !be_read_write, be_width_8, !N.mod_small by assumption.
  by rewrite !N.mul_0_l, !N.add_0_l, expire_key_new_eta.
Qed.

(** The serialized keys compare bytewise like the keys. *)
Lemma ek_ser_lt a b : key_lt a b → bytes_lt (ek_ser a) (ek_ser b).
Proof.
  intros Hlt%ek_lt_alt. destruct (ek_bounds a), (ek_bounds b). unfold ek_ser.
  destruct Hlt as [Hlt|[-> Hlt]].
  - apply bytes_lt_app_same_length; [by rewrite !be_write_length|].
    apply be_write_lt. by rewrite be_width_8, !N.mod_small by assumption.
  - apply bytes_lt_app_l, be_write_lt.
    by rewrite be_width_8, !N.mod_small by assumption.
Qed.
