(* ===== verification/MetaTypes.v ===== *)
(** The data types of the meta-service API (src/meta/types): values with a
    sequence number and an expiration time, conditional upserts, commands and
    raft log entries. *)

From stdpp Require Import base strings gmap numbers list.
From S2P Require Import Prelude External.
Local Open Scope N_scope.

(** [Vec<u8>]. *)
Abbreviation bytes := string.

(** ** Time: [Interval] and [Time], in milliseconds, saturating *)

Record Interval := { millis : N }.

Definition interval_from_millis (ms : N) : Interval := {| millis := ms |}.
Definition interval_seconds (i : Interval) : N := millis i / 1000.
Definition interval_add (a b : Interval) : Interval :=
  {| millis := sat_add64 (millis a) (millis b) |}.
Definition interval_sub (a b : Interval) : Interval :=
  {| millis := sat_sub64 (millis a) (millis b) |}.

Record Time := { time : Interval }.

Definition time_from_millis (ms : N) : Time := {| time := interval_from_millis ms |}.
Definition time_seconds (t : Time) : N := interval_seconds (time t).
Definition time_add (t : Time) (i : Interval) : Time := {| time := interval_add (time t) i |}.
Definition time_sub (t : Time) (i : Interval) : Time := {| time := interval_sub (time t) i |}.
Definition time_diff (a b : Time) : Interval := interval_sub (time a) (time b).

(** ** [KVMeta] and the expiration time of a record *)

Record KVMeta := { expire_at : option N }.

Definition new_expire (sec : N) : KVMeta := {| expire_at := Some sec |}.

(** [get_expire_at_ms]: seconds to milliseconds, with the wrap-around of [*]. *)
Definition get_expire_at_ms (m : KVMeta) : option N :=
  (λ t, wrap64 (t * 1000)) <$> expire_at m.

(** [Expirable for KVMeta]. *)
Definition expires_at_ms (m : KVMeta) : N :=
  match expire_at m with
  | None => u64_max
  | Some exp_at_sec => wrap64 (exp_at_sec * 1000)
  end.

(** [Expirable for Option<T>]. *)
Definition opt_expires_at_ms (m : option KVMeta) : N :=
  match m with Some m => expires_at_ms m | None => u64_max end.

(** ** [SeqV]: a value with its sequence number and meta *)

Record SeqV (T : Type) := mk_SeqV { seq : N; meta : option KVMeta; data : T }.
Arguments mk_SeqV {_} _ _ _.
Arguments seq {_} _.
Arguments meta {_} _.
Arguments data {_} _.

Definition seqv_new {T} (s : N) (d : T) : SeqV T := mk_SeqV s None d.
Definition seqv_map {T U} (f : T → U) (v : SeqV T) : SeqV U :=
  mk_SeqV (seq v) (meta v) (f (data v)).

(** [SeqValue for Option<SeqV>]. *)
Definition opt_seq {T} (o : option (SeqV T)) : N :=
  match o with Some v => seq v | None => 0 end.
Definition opt_value {T} (o : option (SeqV T)) : option T := data <$> o.
Definition opt_meta {T} (o : option (SeqV T)) : option KVMeta := o ≫= meta.

(** [SeqValue::expires_at_ms_opt], [expires_at_ms] and [is_expired]. *)
Definition meta_expires_at_ms_opt (m : option KVMeta) : option N := m ≫= get_expire_at_ms.
Definition seqv_is_expired {T} (v : SeqV T) (now_ms : N) : bool :=
  opt_expires_at_ms (meta v) <? now_ms.
Definition opt_is_expired {T} (o : option (SeqV T)) (now_ms : N) : bool :=
  opt_expires_at_ms (opt_meta o) <? now_ms.

(** ** [MatchSeq]: the sequence number an operation expects *)

Inductive MatchSeq :=
| Any
| Exact (s : N)
| GE (s : N).

Inductive ConflictSeq := NotMatch (want : MatchSeq) (got : N).

Definition match_seq (ms : MatchSeq) (s : N) : unit + ConflictSeq :=
  match ms with
  | Any => inl tt
  | Exact e => if s =? e then inl tt else inr (NotMatch ms s)
  | GE e => if e <=? s then inl tt else inr (NotMatch ms s)
  end.

Definition match_seq_err (ms : MatchSeq) (s : N) : bool :=
  match match_seq ms s with inl _ => false | inr _ => true end.

(** ** Upserts *)

Inductive Operation (T : Type) :=
| Update (v : T)
| Delete
| AsIs.
Arguments Update {_} _.
Arguments Delete {_}.
Arguments AsIs {_}.

Record CmdContext := { ctx_time : Time }.

Definition cmd_ctx_from_millis (ms : N) : CmdContext := {| ctx_time := time_from_millis ms |}.

Record MetaSpec := { spec_expire_at : option N; spec_ttl : option Interval }.

(** [MetaSpec::to_kv_meta]: a [ttl] overrides an absolute [expire_at]. *)
Definition to_kv_meta (m : MetaSpec) (ctx : CmdContext) : KVMeta :=
  match spec_ttl m with
  | Some ttl => new_expire (time_seconds (time_add (ctx_time ctx) ttl))
  | None => {| expire_at := spec_expire_at m |}
  end.

Record UpsertKV := {
  ukey : string;
  useq : MatchSeq;
  uvalue : Operation bytes;
  uvalue_meta : option MetaSpec;
}.

Definition upsert_insert (k : string) (v : bytes) : UpsertKV :=
  {| ukey := k; useq := Exact 0; uvalue := Update v; uvalue_meta := None |}.
Definition upsert_update (k : string) (v : bytes) : UpsertKV :=
  {| ukey := k; useq := GE 0; uvalue := Update v; uvalue_meta := None |}.
Definition upsert_delete (k : string) : UpsertKV :=
  {| ukey := k; useq := GE 1; uvalue := Delete; uvalue_meta := None |}.
Definition with_match_seq (u : UpsertKV) (ms : MatchSeq) : UpsertKV :=
  {| ukey := ukey u; useq := ms; uvalue := uvalue u; uvalue_meta := uvalue_meta u |}.
Definition with_meta_spec (u : UpsertKV) (m : MetaSpec) : UpsertKV :=
  {| ukey := ukey u; useq := useq u; uvalue := uvalue u; uvalue_meta := Some m |}.

(** ** [Change]: the states before and after an operation *)

Record Change (T ID : Type) := {
  ident : option ID;
  ch_prev : option (SeqV T);
  ch_result : option (SeqV T);
}.
Arguments ident {_ _} _.
Arguments ch_prev {_ _} _.
Arguments ch_result {_ _} _.

Definition change_new {T ID} (p r : option (SeqV T)) : Change T ID :=
  {| ident := None; ch_prev := p; ch_result := r |}.
Definition change_with_id {T ID} (c : Change T ID) (id : ID) : Change T ID :=
  {| ident := Some id; ch_prev := ch_prev c; ch_result := ch_result c |}.
Definition is_changed {T ID} (c : Change T ID) : bool :=
  negb (opt_seq (ch_prev c) =? opt_seq (ch_result c)).

(** [added_or_else], [added_seq_or_else] and [removed_or_else]: read a change
    as an insertion or a removal; the error carries the previous value. *)
Definition added_or_else {T ID} (c : Change T ID) : option (SeqV T) + SeqV T :=
  match ch_prev c with Some p => inr p | None => inl (ch_result c) end.
Definition added_seq_or_else {T ID} (c : Change T ID) : N + SeqV T :=
  match ch_prev c with Some p => inr p | None => inl (opt_seq (ch_result c)) end.
Definition removed_or_else {T ID} (c : Change T ID) : SeqV T + option (SeqV T) :=
  match ch_result c, ch_prev c with
  | None, Some p => inl p
  | _, p => inr p
  end.

(** ** Meta-service nodes *)

Record Endpoint := { addr : string; port : N }.
Record Node := {
  node_name : string;
  node_endpoint : Endpoint;
  grpc_api_addr : option string;
  grpc_api_advertise_address : option string;
}.

(** ** Equality of the data types *)

#[export] Instance Interval_eq_dec : EqDecision Interval.
Proof. solve_decision. Defined.
#[export] Instance KVMeta_eq_dec : EqDecision KVMeta.
Proof. solve_decision. Defined.
#[export] Instance SeqV_eq_dec `{EqDecision T} : EqDecision (SeqV T).
Proof. solve_decision. Defined.
#[export] Instance MatchSeq_eq_dec : EqDecision MatchSeq.
Proof. solve_decision. Defined.
#[export] Instance Endpoint_eq_dec : EqDecision Endpoint.
Proof. solve_decision. Defined.
#[export] Instance Node_eq_dec : EqDecision Node.
Proof. solve_decision. Defined.

(** ** Lemmas *)

Lemma opt_expires_Some m t :
  meta_expires_at_ms_opt m = Some t → opt_expires_at_ms m = t.
Proof. destruct m as [[[s|]]|]; intros [=]; done || by subst. Qed.

Lemma opt_expires_None m :
  meta_expires_at_ms_opt m = None → opt_expires_at_ms m = u64_max.
Proof. destruct m as [[[s|]]|]; intros [=]; done || by subst. Qed.

Lemma opt_expires_le_max m : opt_expires_at_ms m ≤ u64_max.
Proof.
  destruct m as [[[s|]]|]; cbn; try done.
  pose proof (wrap64_lt (s * 1000)). unfold u64_max. lia.
Qed.

Lemma match_seq_err_any s : match_seq_err Any s = false.
Proof. done. Qed.

Lemma match_seq_err_exact e s : match_seq_err (Exact e) s = negb (s =? e).
Proof. unfold match_seq_err; simpl. by destruct (s =? e). Qed.

Lemma match_seq_err_ge e s : match_seq_err (GE e) s = (s <? e).
Proof.
  unfold match_seq_err; simpl. destruct (N.leb_spec e s), (N.ltb_spec s e); done || lia.
Qed.
