(* ===== verification/Marked.v ===== *)
(** [Marked] (raft-store/src/marked): a stored value or a tombstone, both
    with the internal sequence number that tells which of two versions of a
    key is the newer one. *)

From stdpp Require Import base strings gmap numbers list.
From S2P Require Import Prelude MetaTypes.
Local Open Scope N_scope.

(** ** [SeqTombstone]: the freshness of a record *)

Record SeqTombstone := { st_seq : N; st_tombstone : bool }.

Definition st_normal (s : N) : SeqTombstone := {| st_seq := s; st_tombstone := false |}.
Definition st_tomb (s : N) : SeqTombstone := {| st_seq := s; st_tombstone := true |}.

(** The derived lexicographic order, [false < true]. *)
Definition st_leb (a b : SeqTombstone) : bool :=
  (st_seq a <? st_seq b) ||
  ((st_seq a =? st_seq b) && implb (st_tombstone a) (st_tombstone b)).
Definition st_ltb (a b : SeqTombstone) : bool := negb (st_leb b a).

#[export] Instance SeqTombstone_eq_dec : EqDecision SeqTombstone.
Proof. solve_decision. Defined.

(** ** [Marked] *)

Inductive Marked (T : Type) : Type :=
| TombStone (internal_seq : N)
| Normal (internal_seq : N) (value : T) (meta : option KVMeta).
Arguments TombStone {_} _.
Arguments Normal {_} _ _ _.

#[export] Instance Marked_eq_dec `{EqDecision T} : EqDecision (Marked T).
Proof. solve_decision. Defined.

Section marked.
Context {T : Type}.
Implicit Types m a b : Marked T.

(** [From<(u64, T, Option<KVMeta>)>]: asserts that the sequence number is not 0. *)
Definition marked_from (s : N) (v : T) (mt : option KVMeta) : Outcome (Marked T) :=
  if s =? 0 then Panic else Ok (Normal s v mt).

Definition marked_of_seqv (v : SeqV T) : Marked T := Normal (seq v) (data v) (meta v).

(** [SeqValue for Marked]: a tombstone has the user-visible [seq] 0. *)
Definition marked_seq m : N :=
  match m with TombStone _ => 0 | Normal s _ _ => s end.
Definition marked_value m : option T :=
  match m with TombStone _ => None | Normal _ v _ => Some v end.
Definition marked_meta m : option KVMeta :=
  match m with TombStone _ => None | Normal _ _ mt => mt end.
Definition marked_expires_at_ms_opt m : option N := meta_expires_at_ms_opt (marked_meta m).

Definition marked_empty : Marked T := TombStone 0.

Definition order_key m : SeqTombstone :=
  match m with TombStone s => st_tomb s | Normal s _ _ => st_normal s end.

Definition unpack m : option (T * option KVMeta) :=
  match m with TombStone _ => None | Normal _ v mt => Some (v, mt) end.

(** [Marked::max]: the one with the larger order key, the second on a tie. *)
Definition marked_max a b : Marked T := if st_ltb (order_key b) (order_key a) then a else b.

Definition new_tombstone (s : N) : Marked T := TombStone s.
Definition new_normal (s : N) (v : T) : Marked T := Normal s v None.
Definition new_with_meta (s : N) (v : T) (mt : option KVMeta) : Marked T := Normal s v mt.

Definition with_meta m (mt : option KVMeta) : Outcome (Marked T) :=
  match m with TombStone _ => Panic | Normal s v _ => Ok (Normal s v mt) end.

Definition is_not_found m : bool :=
  match m with TombStone 0 => true | _ => false end.
Definition is_tombstone m : bool :=
  match m with TombStone _ => true | _ => false end.
Definition is_normal m : bool :=
  match m with Normal _ _ _ => true | _ => false end.

(** [From<Marked> for Option<SeqV>]. *)
Definition seqv_of_marked m : option (SeqV T) :=
  match m with TombStone _ => None | Normal s v mt => Some (mk_SeqV s mt v) end.
End marked.

(** ** Conversions of [Marked<String>] *)

(** [ExpireValue]: the exported form of an entry of the expiration index. *)
Record ExpireValue := { ev_seq : N; ev_key : string }.

Definition marked_of_expire_value (v : ExpireValue) : Marked string :=
  new_with_meta (ev_seq v) (ev_key v) None.
Definition expire_value_of_marked (m : Marked string) : option ExpireValue :=
  match m with
  | TombStone _ => None
  | Normal s v _ => Some {| ev_seq := s; ev_key := v |}
  end.

(** ** The order of freshness is a total order *)

Definition st_le (a b : SeqTombstone) : Prop := st_leb a b = true.

Lemma st_le_alt a b :
  st_le a b ↔ st_seq a < st_seq b ∨
    (st_seq a = st_seq b ∧ (st_tombstone a = true → st_tombstone b = true)).
Proof.
  unfold st_le, st_leb.
  rewrite orb_true_iff, andb_true_iff, N.ltb_lt, N.eqb_eq, implb_true_iff. done.
Qed.

#[export] Instance st_le_dec : RelDecision st_le.
Proof. intros a b. unfold st_le. apply _. Defined.

#[export] Instance st_le_po : PartialOrder st_le.
Proof.
  split; [split|].
  - intros a. rewrite st_le_alt. by right.
  - intros a b c. rewrite !st_le_alt.
    destruct a as [? []], b as [? []], c as [? []]; simpl; intuition (lia || congruence).
  - intros [s1 t1] [s2 t2]. rewrite !st_le_alt. simpl.
    intros [?|[-> H1]] [?|[? H2]]; try lia.
    f_equal. destruct t1, t2; intuition congruence.
Qed.

#[export] Instance st_le_total : Total st_le.
Proof.
  intros [s1 t1] [s2 t2]. rewrite !st_le_alt. simpl.
  destruct (N.lt_trichotomy s1 s2) as [?|[->|?]]; [by left; left| |by right; left].
  destruct t1; [right|left]; right; split; done || (intros; congruence).
Qed.

Lemma st_ltb_false a b : st_ltb b a = false ↔ st_le a b.
Proof. unfold st_ltb, st_le. by rewrite negb_false_iff. Qed.

Lemma marked_max_l {T} (a b : Marked T) :
  ¬ st_le (order_key a) (order_key b) → marked_max a b = a.
Proof.
  intros Hn. unfold marked_max. destruct (st_ltb _ _) eqn:E; [done|].
  by apply st_ltb_false in E.
Qed.

Lemma marked_max_r {T} (a b : Marked T) :
  st_le (order_key a) (order_key b) → marked_max a b = b.
Proof. intros H. unfold marked_max. apply st_ltb_false in H. by rewrite H. Qed.

(** Entries with the same order key that are both tombstones are equal. *)
Lemma tombstone_order_key_inj {T} (a b : Marked T) :
  is_tombstone a = true → is_tombstone b = true → order_key a = order_key b → a = b.
Proof. destruct a, b; simpl; try done. intros _ _ [=]. by subst. Qed.

Lemma is_not_found_iff {T} (m : Marked T) : is_not_found m = true ↔ m = TombStone 0.
Proof. destruct m as [[]|]; simpl; naive_solver. Qed.

Lemma seqv_of_marked_seq {T} (m : Marked T) : opt_seq (seqv_of_marked m) = marked_seq m.
Proof. by destruct m. Qed.

Lemma seqv_of_marked_meta {T} (m : Marked T) : opt_meta (seqv_of_marked m) = marked_meta m.
Proof. by destruct m. Qed.

Lemma seqv_of_marked_None {T} (m : Marked T) :
  seqv_of_marked m = None ↔ is_tombstone m = true.
Proof. by destruct m. Qed.

Lemma seqv_of_marked_of_seqv {T} (v : SeqV T) : seqv_of_marked (marked_of_seqv v) = Some v.
Proof. by destruct v. Qed.
