(* ===== verification/Stack.v ===== *)
(** Stacks of ordered maps: a level above another one holds the newer version
    of a key, told by an order key.  Merging the sorted streams of the levels
    and keeping the greatest version of each key reads the stack.  Used for the
    levels in memory and for the compaction into a persisted table. *)

From stdpp Require Import base orders sorting strings gmap numbers list.
From S2P Require Import Prelude BTree External MetaTypes Marked.

(** Versions of a value: an order key, and when one is newer than another. *)
Class Entry (X : Type) := {
  version : X → SeqTombstone;
  fresher : X → X → Prop;
  fresher_le : ∀ a b, fresher a b → st_le (version b) (version a);
  fresher_same : ∀ a b, fresher a b → version a = version b → a = b;
}.

Section stack.
Context `{OrdKey K} {X : Type} `{!Entry X}.
Implicit Types (ms : list (gmap K X)) (m : gmap K X) (a b : X).

(** Every entry of [m1] is fresher than the entry of the same key in [m2]. *)
Definition newer_level m1 m2 : Prop :=
  ∀ k a b, m1 !! k = Some a → m2 !! k = Some b → fresher a b.

(** Levels from the newest to the oldest. *)
Definition levels_ordered ms : Prop := StronglySorted newer_level ms.

(** The content of the stack: the newest entry of each key. *)
Definition stack ms : gmap K X := ⋃ ms.

Lemma stack_nil : stack [] = ∅.
Proof. done. Qed.

Lemma stack_cons m ms : stack (m :: ms) = m ∪ stack ms.
Proof. done. Qed.

Lemma stack_app ms1 ms2 : stack (ms1 ++ ms2) = stack ms1 ∪ stack ms2.
Proof.
  induction ms1 as [|m ms1 IH]; simpl.
  - unfold stack. simpl. by rewrite (left_id_L ∅ (∪)).
  - change (m ∪ stack (ms1 ++ ms2) = m ∪ stack ms1 ∪ stack ms2).
    by rewrite IH, (assoc_L (∪)).
Qed.

Lemma stack_lookup_Some ms k a :
  stack ms !! k = Some a → ∃ m, m ∈ ms ∧ m !! k = Some a.
Proof.
  induction ms as [|m ms IH]; [unfold stack; simpl; by rewrite lookup_empty|].
  rewrite stack_cons, lookup_union_Some_raw.
  intros [?|[_ (m' & ? & ?)%IH]]; eexists; (split; [|done]); [left|by right].
Qed.

Lemma stack_lookup_is_Some ms m k a : m ∈ ms → m !! k = Some a → is_Some (stack ms !! k).
Proof.
  induction ms as [|m' ms IH]; [by intros ?%elem_of_nil|].
  rewrite stack_cons, elem_of_cons, lookup_union_is_Some. intros [->|?] ?; [by left|right; auto].
Qed.

Lemma newer_level_stack m ms :
  Forall (newer_level m) ms → newer_level m (stack ms).
Proof.
  intros Hms k a b Ha (m' & Hm' & Hb)%stack_lookup_Some.
  rewrite Forall_forall in Hms. by apply (Hms m' Hm' k).
Qed.

(** The entry of the stack is an entry of a level and the freshest one. *)
Lemma stack_lookup ms k a :
  levels_ordered ms →
  stack ms !! k = Some a ↔
    (∃ m, m ∈ ms ∧ m !! k = Some a) ∧
    (∀ m b, m ∈ ms → m !! k = Some b → st_le (version b) (version a)).
Proof.
  induction 1 as [|m ms Hms IH Hm].
  { unfold stack. simpl. rewrite lookup_empty. split; [done|].
    intros [(m & []%elem_of_nil & _) _]. }
  pose proof (newer_level_stack m ms Hm) as Hst.
  rewrite stack_cons, lookup_union_Some_raw. split.
  - intros [Ha|[Hnone Ha]].
    + split; [exists m; split; [left|done]|].
      intros m' b Hin Hb. apply elem_of_cons in Hin as [->|Hin]; [by simplify_eq|].
      rewrite Forall_forall in Hm. by apply fresher_le, (Hm m' Hin k).
    + apply IH in Ha as [(m' & Hin & Ha) Hmax].
      split; [exists m'; split; [by right|done]|].
      intros m'' b Hin' Hb. apply elem_of_cons in Hin' as [->|?]; [by simplify_eq|eauto].
  - intros [(m' & Hin & Ha) Hmax].
    destruct (m !! k) as [c|] eqn:Hc.
    + left. apply elem_of_cons in Hin as [->|Hin]; [by simplify_eq|].
      rewrite Forall_forall in Hm.
      pose proof (Hm m' Hin k c a Hc Ha) as Hfr.
      f_equal. apply (fresher_same c a Hfr).
      apply (anti_symm st_le); [|by apply fresher_le].
      apply (Hmax m c); [left|done].
    + right. split; [done|]. apply IH. split.
      * apply elem_of_cons in Hin as [->|?]; [by simplify_eq|eauto].
      * intros m'' b ??. apply (Hmax m''); [by right|done].
Qed.

(** Two entries of a key with the same order key are the same entry. *)
Lemma levels_ordered_inj ms m1 m2 k a b :
  levels_ordered ms → m1 ∈ ms → m2 ∈ ms → m1 !! k = Some a → m2 !! k = Some b →
  version a = version b → a = b.
Proof.
  induction 1 as [|m ms Hms IH Hm]; [by intros ?%elem_of_nil|].
  rewrite Forall_forall in Hm.
  rewrite !elem_of_cons. intros [->|H1] [->|H2] Ha Hb He.
  - by simplify_eq.
  - by apply (fresher_same _ _ (Hm m2 H2 k a b Ha Hb)).
  - symmetry. by apply (fresher_same _ _ (Hm m1 H1 k b a Hb Ha)).
  - by apply IH.
Qed.
End stack.
Arguments stack : simpl never.


(** ** Merging the levels *)

Section merge.
Context `{OrdKey K} {X : Type} `{!Entry X}.
Implicit Types (ms : list (gmap K X)) (m : gmap K X).

(** The order of pairs by key, then by version. *)
Definition entry_le (x y : K * X) : Prop :=
  key_lt x.1 y.1 ∨ (x.1 = y.1 ∧ st_le (version x.2) (version y.2)).

#[export] Instance entry_le_dec : RelDecision entry_le.
Proof. intros x y. unfold entry_le. apply _. Defined.

(** The stack as the merge and the coalescing compute it. *)
Definition level_stream (b : Bounds K) m : list (Outcome (K * X)) := Ok <$> range_list m b.

Definition out_le (x y : Outcome (K * X)) : Prop :=
  match x, y with
  | Ok a, Ok b => entry_le a b
  | Ok _, _ => False
  | _, _ => True
  end.

#[export] Instance out_le_dec : RelDecision out_le.
Proof. intros [] []; simpl; apply _. Defined.

#[local] Instance entry_le_trans : Transitive entry_le.
Proof.
  intros x y z. unfold entry_le. intros [?|[He ?]] [?|[He' ?]].
  - left. by trans y.1.
  - left. by rewrite <-He'.
  - left. by rewrite He.
  - right. split; [congruence|by trans (version y.2)].
Qed.

#[local] Instance entry_le_total : Total entry_le.
Proof.
  intros x y. unfold entry_le. destruct (decide (x.1 = y.1)) as [He|Hne].
  - rewrite He. destruct (total st_le (version x.2) (version y.2)); auto.
  - destruct (total key_le x.1 y.1) as [Hle|Hle];
      apply key_le_lt_eq in Hle as [?|?]; auto; congruence.
Qed.

#[local] Instance out_le_trans : Transitive out_le.
Proof. intros [a| |] [b| |] [c| |]; simpl; try done. apply transitivity. Qed.

#[local] Instance out_le_total : Total out_le.
Proof. intros [a| |] [b| |]; simpl; auto. apply (total entry_le). Qed.

Lemma klt_entry_le (l : list (K * X)) :
  StronglySorted klt l → StronglySorted out_le (Ok <$> l).
Proof.
  intros Hs. apply (StronglySorted_fmap Ok klt out_le); [|done].
  intros x y ?. by left.
Qed.

Context {sm : StreamMore} `{!StreamMoreLaws sm}.

(** How two consecutive entries are coalesced: the newer of the same key. *)
Definition chooses_newer (ch : Outcome (K * X) → Outcome (K * X) →
    Outcome (K * X) + Outcome (K * X) * Outcome (K * X)) : Prop :=
  (∀ k x y, st_le (version x) (version y) → ch (Ok (k, x)) (Ok (k, y)) = inl (Ok (k, y))) ∧
  (∀ k1 x k2 y, k1 ≠ k2 → ch (Ok (k1, x)) (Ok (k2, y)) = inr (Ok (k1, x), Ok (k2, y))).

Context (ch : Outcome (K * X) → Outcome (K * X) →
  Outcome (K * X) + Outcome (K * X) * Outcome (K * X)) (Hch : chooses_newer ch).

(** On a list sorted by key and order key, coalescing keeps the last entry of
    each key. *)
Lemma coalesce_sorted (x : K * X) l :
  StronglySorted entry_le (x :: l) →
  (∀ y z, y ∈ x :: l → z ∈ x :: l → y.1 = z.1 → version y.2 = version z.2 → y = z) →
  ∃ l', coalesce ch (Ok <$> (x :: l)) = Ok <$> l' ∧
    StronglySorted klt l' ∧
    (∀ z, z ∈ l' ↔ z ∈ x :: l ∧
      ∀ w, w ∈ x :: l → w.1 = z.1 → st_le (version w.2) (version z.2)).
Proof.
  revert x. induction l as [|y l IH]; intros x Hs Hinj.
  { exists [x]. rewrite fmap_cons, fmap_nil, coalesce_one.
    split; [done|]. split; [repeat constructor|].
    intros z. rewrite list_elem_of_singleton. split; [|by intros []].
    intros ->. split; [done|]. intros w ->%list_elem_of_singleton. done. }
  apply StronglySorted_inv in Hs as [Hs Hx].
  assert (entry_le x y) as Hxy by (by apply Forall_cons in Hx as [? _]).
  destruct (IH y Hs) as (l' & Hl' & Hs' & Hel).
  { intros ????. apply Hinj; by right. }
  rewrite !fmap_cons, coalesce_cons in *. destruct x as [k1 v1], y as [k2 v2].
  destruct (decide (k1 = k2)) as [<-|Hne].
  - destruct Hxy as [[_ []]|[_ Hle]]; [done|]. simpl in Hle.
    rewrite (proj1 Hch) by done. exists l'. split; [done|]. split; [done|].
    intros z. rewrite Hel, (elem_of_cons _ _ (_, v1)). split.
    + intros [Hin Hmax]. split; [by right|].
      intros w Hw Hk. apply elem_of_cons in Hw as [->|Hw]; [|by apply Hmax].
      simpl in *. etrans; [exact Hle|]. apply (Hmax (k1, v2)); [left|done].
    + intros [[->|Hin] Hmax]; [|split; [done|]; intros; apply Hmax; [by right|done]].
      assert ((k1, v1) = (k1, v2)) as [= <-].
      { apply Hinj; [left|right; left|done|]. simpl. apply (anti_symm st_le); [done|].
        apply (Hmax (k1, v2)); [right; left|done]. }
      split; [left|]. intros; apply Hmax; [by right|done].
  - rewrite (proj2 Hch) by done. exists ((k1, v1) :: l'). rewrite Hl'. split; [done|].
    assert (∀ w, w ∈ (k2, v2) :: l → key_lt k1 w.1) as Hlt.
    { intros w Hw. destruct Hxy as [Hlt|[? _]]; [|done]. simpl in Hlt.
      apply elem_of_cons in Hw as [->|Hw]; [done|].
      apply StronglySorted_inv in Hs as [_ Hy]. rewrite Forall_forall in Hy.
      destruct (Hy w Hw) as [?|[He _]]; simpl in *; [by trans k2|congruence]. }
    split.
    { constructor; [done|]. apply Forall_forall. intros z [Hz _]%Hel. by apply (Hlt z). }
    intros z. rewrite !(elem_of_cons _ _ (k1, v1)), Hel. split.
    + intros [->|[Hin Hmax]].
      * split; [by left|]. intros w [->|Hw]%elem_of_cons Hk; [done|].
        simpl in Hk. specialize (Hlt w Hw). rewrite Hk in Hlt. by apply key_lt_irrefl in Hlt.
      * split; [by right|]. intros w [->|Hw]%elem_of_cons Hk; [|by apply Hmax].
        simpl in Hk. specialize (Hlt z Hin). rewrite <-Hk in Hlt. by apply key_lt_irrefl in Hlt.
    + intros [[->|Hin] Hmax]; [by left|right]. split; [done|].
      intros w Hw. apply Hmax. by right.
Qed.

Lemma elem_of_concat_levels ms b z :
  z ∈ concat ((λ m, range_list m b) <$> ms) ↔ ∃ m, m ∈ ms ∧ m !! z.1 = Some z.2 ∧ in_bounds b z.1.
Proof.
  rewrite list_elem_of_In, in_concat. setoid_rewrite <-list_elem_of_In. split.
  - intros (l & Hl & Hz). apply list_elem_of_fmap in Hl as (m & -> & Hm).
    destruct z. apply elem_of_range_list in Hz. eauto.
  - intros (m & Hm & ? & ?). exists (range_list m b). split.
    + by apply (list_elem_of_fmap_2 (λ m, range_list m b)).
    + destruct z. by apply elem_of_range_list.
Qed.

Lemma concat_fmap_Ok (ls : list (list (K * X))) :
  concat ((λ l : list (K * X), Ok <$> l) <$> ls) = Ok <$> concat ls.
Proof.
  induction ls as [|l ls IH]; [done|].
  rewrite fmap_cons. cbn [concat]. by rewrite IH, fmap_app.
Qed.

(** The merged streams are the entries of all the levels, sorted. *)
Lemma merged_sorted f ms b :
  compares_by f out_le (level_stream b <$> ms) →
  ∃ l, kmerge f (level_stream b <$> ms) = Ok <$> l ∧ StronglySorted entry_le l ∧
    ∀ z, z ∈ l ↔ ∃ m, m ∈ ms ∧ m !! z.1 = Some z.2 ∧ in_bounds b z.1.
Proof.
  intros Hf. destruct (kmerge_sorted (K * X) f out_le (level_stream b <$> ms) Hf) as [Hp Hs].
  { apply Forall_forall. intros s (m & -> & _)%list_elem_of_fmap.
    apply klt_entry_le, range_list_sorted. }
  set (l0 := concat ((λ m, range_list m b) <$> ms)).
  assert (concat (level_stream b <$> ms) = Ok <$> l0) as Hconcat.
  { unfold l0. rewrite <-concat_fmap_Ok, <-list_fmap_compose. done. }
  rewrite Hconcat in Hp.
  destruct (Permutation_map_inv Ok l0 Hp) as (l & Hl & Hp').
  change (kmerge f (level_stream b <$> ms) = Ok <$> l) in Hl. exists l.
  rewrite Hl in Hs. split; [done|]. split.
  - clear -Hs. induction l as [|x l IH]; [constructor|].
    rewrite fmap_cons in Hs. apply StronglySorted_inv in Hs as [Hs Hx].
    constructor; [auto|]. by rewrite Forall_fmap in Hx.
  - intros z. rewrite <-Hp'. apply elem_of_concat_levels.
Qed.

(** The merged and coalesced streams of an ordered stack enumerate the stack. *)
Lemma merged_stack f ms b :
  levels_ordered ms → compares_by f out_le (level_stream b <$> ms) →
  coalesce ch (kmerge f (level_stream b <$> ms)) = Ok <$> range_list (stack ms) b.
Proof.
  intros Hord Hf. destruct (merged_sorted f ms b Hf) as (l & -> & Hsl & Hel).
  assert (∀ y z, y ∈ l → z ∈ l → y.1 = z.1 → version y.2 = version z.2 → y = z) as Hinj.
  { intros [k1 v1] [k2 v2] (m1 & ? & ? & _)%Hel (m2 & ? & ? & _)%Hel Hk He.
    simpl in *. subst k2. f_equal. by eapply (levels_ordered_inj ms m1 m2 k1). }
  destruct l as [|x l].
  { rewrite fmap_nil, coalesce_nil. replace (range_list (stack ms) b) with (@nil (K * X)); [done|].
    apply range_list_unique; [constructor|]. intros k v. split; [by intros ?%elem_of_nil|].
    intros [(m & ? & ?)%stack_lookup_Some ?]. apply (Hel (k, v)). eauto. }
  destruct (coalesce_sorted x l Hsl Hinj) as (l' & -> & Hs' & Hel').
  f_equal. apply range_list_unique; [done|].
  intros k v. rewrite Hel', (stack_lookup ms k v Hord), Hel. split.
  - intros [(m & ? & ? & ?) Hmax]. split; [split; [by eauto|]|done].
    intros m' v' ??. apply (Hmax (k, v')); [|done]. apply Hel. eauto.
  - intros [[(m & ? & ?) Hmax] ?]. split; [by eauto|].
    intros [k' v'] Hin Hk. simpl in Hk. subst k'.
    apply Hel in Hin as (m' & ? & ? & _). by apply (Hmax m').
Qed.
End merge.
