(* ===== verification/MapApi.v ===== *)
(** The key-value map interface of the state machine
    (raft-store/src/leveled_store/map_api.rs and util.rs): reading one level,
    and reading a stack of levels as one map. *)

From stdpp Require Import base orders sorting strings gmap numbers list.
From S2P Require Import Prelude BTree External MetaTypes Marked Stack.

(** A stream of io results. *)
Abbreviation Stream A := (list (Outcome A)).

(** ** [MapApiRO] and [MapApi] *)

Class MapApiRO (L K V : Type) := {
  ro_get : L → K → Outcome (Marked V);
  ro_range : L → Bounds K → Outcome (Stream (K * Marked V));
}.

Class MapApi (L K V : Type) := {
  map_ro :: MapApiRO L K V;
  map_set : K → option (V * option KVMeta) → M L (Marked V * Marked V);
}.

(** [impl MapApiRO for ()]: an empty map. *)
#[export] Instance unit_MapApiRO {K V} : MapApiRO unit K V := {|
  ro_get _ _ := Ok marked_empty;
  ro_range _ _ := Ok [];
|}.

Section map_api_ext.
Context {L K V : Type} `{!MapApi L K V}.

(** [MapApiExt::update_meta]: nothing is done when the entry does not exist. *)
Definition update_meta (key : K) (mt : option KVMeta) : M L (Marked V * Marked V) :=
  s ← get_st;
  got ← lift (ro_get s key);
  match unpack got with
  | None => mret (got, got)
  | Some (v, _) => map_set key (Some (v, mt))
  end.

(** [MapApiExt::upsert_value]: keep the meta, create the entry if needed. *)
Definition upsert_value (key : K) (value : V) : M L (Marked V * Marked V) :=
  s ← get_st;
  got ← lift (ro_get s key);
  let mt := match unpack got with Some (_, mt) => mt | None => None end in
  map_set key (Some (value, mt)).
End map_api_ext.

(** ** Reading several levels *)

Section compacted.
Context `{OrdKey K} {V : Type} {sm : StreamMore}.

(** The first [get] that finds an entry or a tombstone. *)
Fixpoint first_found (gets : list (Outcome (Marked V))) : Outcome (option (Marked V)) :=
  match gets with
  | [] => Ok None
  | g :: gets => got ← g; if is_not_found got then first_found gets else Ok (Some got)
  end.

Definition compacted_get {L PL} `{!MapApiRO L K V, !MapApiRO PL K V}
    (key : K) (levels : list L) (persisted : list PL) : Outcome (Marked V) :=
  r ← first_found ((λ l, ro_get l key) <$> levels);
  match r with
  | Some got => Ok got
  | None =>
      r ← first_found ((λ p, ro_get p key) <$> persisted);
      Ok (default marked_empty r)
  end.

(** The order [(key, order_key) <= (key, order_key)] of tuples. *)
Definition key_seq_le (x y : K * Marked V) : Prop :=
  key_lt x.1 y.1 ∨ (x.1 = y.1 ∧ st_le (order_key x.2) (order_key y.2)).

#[export] Instance key_seq_le_dec : RelDecision key_seq_le.
Proof. intros x y. unfold key_seq_le. apply _. Defined.

(** [by_key_seq]: [None] is the failed assertion on two entries of the same key
    and sequence number that are not both tombstones. *)
Definition by_key_seq (r1 r2 : Outcome (K * Marked V)) : option bool :=
  match r1, r2 with
  | Ok (k1, v1), Ok (k2, v2) =>
      if decide (k1 = k2 ∧ order_key v1 = order_key v2) then
        if st_tombstone (order_key v1) && st_tombstone (order_key v2)
        then Some true else None
      else Some (bool_decide (key_seq_le (k1, v1) (k2, v2)))
  | _, _ => Some true
  end.

Definition choose_greater (r1 r2 : Outcome (K * Marked V)) :
    Outcome (K * Marked V) + Outcome (K * Marked V) * Outcome (K * Marked V) :=
  match r1, r2 with
  | Ok (k1, v1), Ok (k2, v2) =>
      if decide (k1 = k2) then inl (Ok (k1, marked_max v1 v2)) else inr (r1, r2)
  | _, _ => inr (r1, r2)
  end.

Definition compacted_range {TOP L PL}
    `{!MapApiRO TOP K V, !MapApiRO L K V, !MapApiRO PL K V} (range : Bounds K)
    (top : option TOP) (levels : list L) (persisted : list PL) :
    Outcome (Stream (K * Marked V)) :=
  tops ← mapM (λ t, ro_range t range) (option_list top);
  lvls ← mapM (λ l, ro_range l range) levels;
  pers ← mapM (λ p, ro_range p range) persisted;
  Ok (coalesce choose_greater (kmerge by_key_seq (tops ++ lvls ++ pers))).
End compacted.

(** ** What a level promises

    [ro_view] is the content of a level, tombstones included. *)
Class ROView (L K V : Type) `{OrdKey K, !MapApiRO L K V} := {
  ro_view : L → gmap K (Marked V);
  ro_wf : L → Prop;
  ro_get_spec : ∀ l k, ro_wf l → ro_get l k = Ok (default marked_empty (ro_view l !! k));
  ro_range_spec : ∀ l b, ro_wf l → ¬ bad_range b →
    ro_range l b = Ok (Ok <$> range_list (ro_view l) b);
}.

(** ** The versions of a [Marked] value

    [a] was written after [b]; only tombstones may have the same order key. *)

Definition marked_fresher {V} (a b : Marked V) : Prop :=
  st_le (order_key b) (order_key a) ∧
  (order_key a = order_key b → is_tombstone a = true ∧ is_tombstone b = true).

#[export, refine] Instance marked_entry {V} : Entry (Marked V) :=
  {| version := order_key; fresher := marked_fresher |}.
Proof.
  - by intros a b [].
  - intros a b [_ Ht] He. destruct (Ht He). by apply tombstone_order_key_inj.
Defined.

(** No level holds an entry that reads as missing. *)
Definition found_entries `{Countable K} {V} (m : gmap K (Marked V)) : Prop :=
  ∀ k a, m !! k = Some a → is_not_found a = false.

(** ** [compacted_get] and [compacted_range] read the stack *)

Section compacted_spec.
Context `{OrdKey K} {V : Type}.
Implicit Types (ms : list (gmap K (Marked V))) (m : gmap K (Marked V)).

Lemma first_found_spec ms k :
  Forall found_entries ms →
  first_found ((λ m, Ok (default marked_empty (m !! k))) <$> ms) = Ok (stack ms !! k).
Proof.
  induction 1 as [|m ms Hm Hms IH]; [done|].
  rewrite fmap_cons, stack_cons. cbn [first_found]. unfold mbind, Outcome_bind.
  destruct (m !! k) as [a|] eqn:Ha; cbn [from_option id].
  - rewrite (Hm k a Ha). by rewrite (lookup_union_Some_l _ _ _ _ Ha).
  - cbn [is_not_found marked_empty]. rewrite IH. by rewrite (lookup_union_r _ _ _ Ha).
Qed.

(** The assertion of [by_key_seq] never fails between two levels of an ordered
    stack. *)
Lemma by_key_seq_no_panic ms b :
  levels_ordered ms → compares_by by_key_seq out_le (level_stream b <$> ms).
Proof.
  intros Hord i j si sj x y Hij Hi Hj Hx Hy.
  rewrite list_lookup_fmap, fmap_Some in Hi. destruct Hi as (mi & Hi & ->).
  rewrite list_lookup_fmap, fmap_Some in Hj. destruct Hj as (mj & Hj & ->).
  apply list_elem_of_fmap in Hx as ([k1 v1] & -> & Hx).
  apply list_elem_of_fmap in Hy as ([k2 v2] & -> & Hy).
  apply elem_of_range_list in Hx as [Hx _], Hy as [Hy _]. simpl.
  destruct (decide (k1 = k2 ∧ _)) as [[<- He]|Hne]; [|done].
  assert (v1 = v2) as ->.
  { apply (levels_ordered_inj ms mi mj k1); eauto using list_elem_of_lookup_2. }
  assert (marked_fresher v2 v2 → is_tombstone v2 = true) as Ht by (intros [_ ?]; naive_solver).
  assert (is_tombstone v2 = true) as Htomb.
  { apply Ht. unfold levels_ordered in Hord.
    destruct (decide (i < j)%nat).
    - exact (sorted_lookup _ _ i j _ _ Hord Hi Hj ltac:(lia) k1 v2 v2 Hx Hy).
    - exact (sorted_lookup _ _ j i _ _ Hord Hj Hi ltac:(lia) k1 v2 v2 Hy Hx). }
  destruct v2; [|done]. simpl. f_equal. symmetry. apply bool_decide_eq_true_2.
  right. split; done.
Qed.

Lemma choose_greater_newer : chooses_newer (K := K) (X := Marked V) choose_greater.
Proof.
  split.
  - intros k x y Hle. cbn. rewrite decide_True by done. by rewrite marked_max_r.
  - intros k1 x k2 y Hne. cbn. by rewrite decide_False.
Qed.

Context {sm : StreamMore} `{!StreamMoreLaws sm}.

(** The merged and coalesced streams of an ordered stack enumerate the stack. *)
Lemma merged_spec ms b :
  levels_ordered ms →
  coalesce choose_greater (kmerge by_key_seq (level_stream b <$> ms)) =
    Ok <$> range_list (stack ms) b.
Proof.
  intros Hord. apply merged_stack; [apply choose_greater_newer|done|by apply by_key_seq_no_panic].
Qed.

Lemma mapM_ro_range `{!MapApiRO L K V, !ROView L K V} b (ls : list L) :
  ¬ bad_range b → Forall ro_wf ls →
  mapM (λ l, ro_range l b) ls = Ok (level_stream b <$> (ro_view <$> ls)).
Proof.
  intros Hb. induction 1 as [|l ls Hl Hls IH]; [done|].
  cbn [mapM]. unfold mbind, Outcome_bind in *. by rewrite ro_range_spec, IH.
Qed.

Lemma fmap_ro_get `{!MapApiRO L K V, !ROView L K V} k (ls : list L) :
  Forall ro_wf ls →
  (λ l, ro_get l k) <$> ls = (λ m, Ok (default marked_empty (m !! k))) <$> (ro_view <$> ls).
Proof.
  intros Hls. rewrite <-list_fmap_compose. apply list_fmap_ext.
  intros i l Hl. rewrite Forall_forall in Hls.
  apply ro_get_spec, Hls. by eapply list_elem_of_lookup_2.
Qed.

Section views.
Context {TOP L PL : Type}.
Context `{!MapApiRO TOP K V, !ROView TOP K V} `{!MapApiRO L K V, !ROView L K V}.
Context `{!MapApiRO PL K V, !ROView PL K V}.

(** Reading a key of well-formed levels finds the entry of the stack. *)
Lemma compacted_get_spec k (ls : list L) (ps : list PL) :
  Forall ro_wf ls → Forall ro_wf ps →
  Forall found_entries (ro_view <$> ls) → Forall found_entries (ro_view <$> ps) →
  compacted_get k ls ps =
    Ok (default marked_empty (stack ((ro_view <$> ls) ++ (ro_view <$> ps)) !! k)).
Proof.
  intros Hl Hp Fl Fp. unfold compacted_get.
  rewrite (fmap_ro_get k ls), (fmap_ro_get k ps), !first_found_spec by done. unfold mbind, Outcome_bind.
  rewrite stack_app. destruct (stack (ro_view <$> ls) !! k) as [a|] eqn:Ha.
  - by rewrite (lookup_union_Some_l _ _ _ _ Ha).
  - by rewrite (lookup_union_r _ _ _ Ha).
Qed.

(** The range of well-formed ordered levels enumerates the stack. *)
Lemma compacted_range_spec b (top : option TOP) (ls : list L) (ps : list PL) :
  ¬ bad_range b →
  Forall ro_wf (option_list top) → Forall ro_wf ls → Forall ro_wf ps →
  levels_ordered ((ro_view <$> option_list top) ++ (ro_view <$> ls) ++ (ro_view <$> ps)) →
  compacted_range b top ls ps =
    Ok (Ok <$> range_list
      (stack ((ro_view <$> option_list top) ++ (ro_view <$> ls) ++ (ro_view <$> ps))) b).
Proof.
  intros Hb Ht Hl Hp Hord. unfold compacted_range.
  rewrite !mapM_ro_range by done. unfold mbind at 1 2 3, Outcome_bind.
  rewrite <-!fmap_app. by rewrite merged_spec.
Qed.
End views.
End compacted_spec.
