(* ===== verification/Level.v ===== *)
(** One level of state machine data (types/src/sys_data.rs and
    raft-store/src/leveled_store: level.rs, immutable.rs, immutable_levels.rs,
    level_index.rs): the system data, the key-value map and the expiration
    index, as a writable level or as a frozen one. *)

From stdpp Require Import base orders sorting strings gmap numbers list.
From S2P Require Import Prelude BTree External ExpireKey MetaTypes Marked MapApi.
Local Open Scope N_scope.

Section level.
Context {raft : OpenRaft}.

(** ** [SysData] *)

Record SysData := {
  last_applied : option LogId;
  last_membership : StoredMembership;
  nodes : gmap N Node;
  sequence : N;
}.

Definition sys_data_default : SysData := {|
  last_applied := None;
  last_membership := stored_membership_default;
  nodes := ∅;
  sequence := 0;
|}.

Definition curr_seq (d : SysData) : N := sequence d.
Definition update_seq (s : N) (d : SysData) : SysData := {|
  last_applied := last_applied d; last_membership := last_membership d;
  nodes := nodes d; sequence := s;
|}.

(** [next_seq]: increase the sequence number by 1 and return the updated value. *)
Definition next_seq (d : SysData) : SysData * N :=
  let s := wrap64 (sequence d + 1) in (update_seq s d, s).

Definition set_last_applied (l : option LogId) (d : SysData) : SysData := {|
  last_applied := l; last_membership := last_membership d;
  nodes := nodes d; sequence := sequence d;
|}.
Definition set_last_membership (m : StoredMembership) (d : SysData) : SysData := {|
  last_applied := last_applied d; last_membership := m;
  nodes := nodes d; sequence := sequence d;
|}.
Definition set_nodes (n : gmap N Node) (d : SysData) : SysData := {|
  last_applied := last_applied d; last_membership := last_membership d;
  nodes := n; sequence := sequence d;
|}.

(** ** [Level] *)

Record Level := {
  sys_data : SysData;
  kv : gmap string (Marked bytes);
  expire : gmap ExpireKey (Marked string);
}.

Definition level_default : Level :=
  {| sys_data := sys_data_default; kv := ∅; expire := ∅ |}.

(** A level based on this one: the system data is cloned, the maps are empty. *)
Definition new_level (l : Level) : Level :=
  {| sys_data := sys_data l; kv := ∅; expire := ∅ |}.

Definition set_sys_data (d : SysData) (l : Level) : Level :=
  {| sys_data := d; kv := kv l; expire := expire l |}.
Definition replace_kv (m : gmap string (Marked bytes)) (l : Level) : Level :=
  {| sys_data := sys_data l; kv := m; expire := expire l |}.
Definition replace_expire (m : gmap ExpireKey (Marked string)) (l : Level) : Level :=
  {| sys_data := sys_data l; kv := kv l; expire := m |}.

(** [BTreeMap::range], as a stream of cloned entries. *)
Definition range_stream `{OrdKey K} {V} (m : gmap K V) (b : Bounds K) : Outcome (Stream (K * V)) :=
  (λ l : list (K * V), Ok <$> l) <$> btree_range m b.

Definition level_get_kv (l : Level) (k : string) : Outcome (Marked bytes) :=
  Ok (default marked_empty (kv l !! k)).

Definition level_get_expire (l : Level) (k : ExpireKey) : Outcome (Marked string) :=
  Ok (default marked_empty (expire l !! k)).

(** [MapApi<String>::set]: a new value takes the next sequence number; a
    deletion writes a tombstone with the current one. *)
Definition level_set_kv (k : string) (value : option (bytes * option KVMeta)) :
    M Level (Marked bytes * Marked bytes) :=
  marked ← match value with
    | Some (v, mt) => λ l,
        let '(d, s) := next_seq (sys_data l) in (set_sys_data d l, Ok (new_with_meta s v mt))
    | None => gets (λ l, new_tombstone (curr_seq (sys_data l)))
    end;
  l ← get_st;
  prev ← lift (level_get_kv l k);
  _ ← modify (replace_kv (<[k := marked]> (kv l)));
  mret (prev, marked).

(** [MapApi<ExpireKey>::set]: the sequence number does not change. *)
Definition level_set_expire (k : ExpireKey) (value : option (string * option KVMeta)) :
    M Level (Marked string * Marked string) :=
  l ← get_st;
  let s := curr_seq (sys_data l) in
  marked ← lift match value with
    | Some (v, mt) => marked_from s v mt
    | None => Ok (TombStone s)
    end;
  prev ← lift (level_get_expire l k);
  _ ← modify (replace_expire (<[k := marked]> (expire l)));
  mret (prev, marked).

#[export] Instance level_kv_ro : MapApiRO Level string bytes :=
  {| ro_get := level_get_kv; ro_range l b := range_stream (kv l) b |}.
#[export] Instance level_expire_ro : MapApiRO Level ExpireKey string :=
  {| ro_get := level_get_expire; ro_range l b := range_stream (expire l) b |}.
#[export] Instance level_kv : MapApi Level string bytes := {| map_set := level_set_kv |}.
#[export] Instance level_expire : MapApi Level ExpireKey string := {| map_set := level_set_expire |}.

Lemma range_stream_ok `{OrdKey K} {V} (m : gmap K V) b :
  ¬ bad_range b → range_stream m b = Ok (Ok <$> range_list m b).
Proof. intros. unfold range_stream. by rewrite btree_range_ok. Qed.

#[export, refine] Instance level_kv_view : ROView Level string bytes :=
  {| ro_view := kv; ro_wf _ := True |}.
Proof. 1: done. intros. by apply range_stream_ok. Defined.
#[export, refine] Instance level_expire_view : ROView Level ExpireKey string :=
  {| ro_view := expire; ro_wf _ := True |}.
Proof. 1: done. intros. by apply range_stream_ok. Defined.

(** ** [Immutable]: a frozen level

    [uniq] is the value the process-wide counter [UNIQ] returned. *)

Record LevelIndex := { li_internal_seq : N; li_uniq : N }.

#[export] Instance LevelIndex_eq_dec : EqDecision LevelIndex.
Proof. solve_decision. Defined.

Record Immutable := { imm_index : LevelIndex; imm_level : Level }.

Definition immutable_new (uniq : N) (l : Level) : Immutable := {|
  imm_index := {| li_internal_seq := curr_seq (sys_data l); li_uniq := uniq |};
  imm_level := l;
|}.

(** The range of a frozen level is a generator: a bad range panics at the first
    poll. *)
Definition lazy_range_stream `{OrdKey K} {V} (m : gmap K V) (b : Bounds K) :
    Outcome (Stream (K * V)) :=
  Ok match btree_range m b with
     | Ok l => Ok <$> l
     | Err e => [Err e]
     | Panic => [Panic]
     end.

Lemma lazy_range_stream_ok `{OrdKey K} {V} (m : gmap K V) b :
  ¬ bad_range b → lazy_range_stream m b = Ok (Ok <$> range_list m b).
Proof. intros. unfold lazy_range_stream. by rewrite btree_range_ok. Qed.

#[export] Instance immutable_kv_ro : MapApiRO Immutable string bytes := {|
  ro_get i k := level_get_kv (imm_level i) k;
  ro_range i b := lazy_range_stream (kv (imm_level i)) b;
|}.
#[export] Instance immutable_expire_ro : MapApiRO Immutable ExpireKey string := {|
  ro_get i k := level_get_expire (imm_level i) k;
  ro_range i b := lazy_range_stream (expire (imm_level i)) b;
|}.

#[export, refine] Instance immutable_kv_view : ROView Immutable string bytes :=
  {| ro_view i := kv (imm_level i); ro_wf _ := True |}.
Proof. 1: done. intros. by apply lazy_range_stream_ok. Defined.
#[export, refine] Instance immutable_expire_view : ROView Immutable ExpireKey string :=
  {| ro_view i := expire (imm_level i); ro_wf _ := True |}.
Proof. 1: done. intros. by apply lazy_range_stream_ok. Defined.

(** ** [ImmutableLevels]: from the oldest to the newest *)

Record ImmutableLevels := { levels : list Immutable }.

Definition iter_immutable_levels (ls : ImmutableLevels) : list Immutable := reverse (levels ls).
Definition imm_iter_levels (ls : ImmutableLevels) : list Level := reverse (imm_level <$> levels ls).
Definition newest (ls : ImmutableLevels) : option Immutable := last (levels ls).
Definition imm_push (i : Immutable) (ls : ImmutableLevels) : ImmutableLevels :=
  {| levels := levels ls ++ [i] |}.

Context {sm : StreamMore}.

#[export] Instance immutable_levels_ro `{OrdKey K} {V} `{!MapApiRO Immutable K V, !MapApiRO Level K V} :
    MapApiRO ImmutableLevels K V := {|
  ro_get ls k := compacted_get (PL := Immutable) k (iter_immutable_levels ls) [];
  ro_range ls b :=
    compacted_range (TOP := Level) (PL := Level) b None (iter_immutable_levels ls) [];
|}.
End level.

Arguments SysData : clear implicits.
Arguments SysData {raft}.
