(* ===== verification/StateMap.v ===== *)
(** The map of a state machine: the key-value map, the expiration index and
    the system data (the associated type [Map] of the trait [StateMachineApi],
    raft-store/src/state_machine_api.rs), and what the state machine relies on.
    A single [Level] is the map of the in-memory state machine. *)

From stdpp Require Import base orders sorting strings gmap numbers list.
From S2P Require Import Prelude BTree External ExpireKey MetaTypes Marked MapApi Level.
Local Open Scope N_scope.

Class StateMap (raft : OpenRaft) (Mp : Type) := {
  map_kv :: MapApi Mp string bytes;
  map_expire :: MapApi Mp ExpireKey string;
  map_sys : Mp → SysData;
  map_set_sys : SysData → Mp → Mp;
}.

Abbreviation kv_raw m := (ro_view (K := string) (V := bytes) m).
Abbreviation exp_raw m := (ro_view (K := ExpireKey) (V := string) m).

(** The behaviour of a state machine's map.  [kv_raw] and [exp_raw] are its
    content with the tombstones, [smap_wf] its invariant. *)
Class StateMapLaws {raft : OpenRaft} (Mp : Type) `{!StateMap raft Mp} := {
  kv_rov :: ROView Mp string bytes;
  exp_rov :: ROView Mp ExpireKey string;
  smap_wf : Mp → Prop;
  smap_wf_kv : ∀ m, smap_wf m → ro_wf (K := string) (V := bytes) m;
  smap_wf_exp : ∀ m, smap_wf m → ro_wf (K := ExpireKey) (V := string) m;

  (** Writing a value: the entry gets the next sequence number. *)
  kv_set_Some : ∀ m (k : string) (v : bytes) mt, smap_wf m → curr_seq (map_sys m) + 1 < u64_mod →
    ∃ m', map_set (V := bytes) k (Some (v, mt)) m =
        (m', Ok (default marked_empty (kv_raw m !! k),
                 Normal (curr_seq (map_sys m) + 1) v mt)) ∧
      smap_wf m' ∧
      kv_raw m' =
        <[k := Normal (curr_seq (map_sys m) + 1) v mt]> (kv_raw m) ∧
      exp_raw m' = exp_raw m ∧
      map_sys m' = update_seq (curr_seq (map_sys m) + 1) (map_sys m);

  (** Deleting: the key reads as a tombstone, or was not there. *)
  kv_set_None : ∀ m (k : string), smap_wf m →
    ∃ m' t, map_set (V := bytes) k None m =
        (m', Ok (default marked_empty (kv_raw m !! k), TombStone t)) ∧
      smap_wf m' ∧
      (kv_raw m' = <[k := TombStone t]> (kv_raw m) ∨
       kv_raw m' = kv_raw m ∧
         kv_raw m !! k = None) ∧
      exp_raw m' = exp_raw m ∧
      map_sys m' = map_sys m;

  (** Adding an entry to the expiration index, for a key that was never there. *)
  exp_set_Some : ∀ m (ek : ExpireKey) (s : string) mt, smap_wf m → curr_seq (map_sys m) ≠ 0 →
    exp_raw m !! ek = None →
    ∃ m', map_set ek (Some (s, mt)) m =
        (m', Ok (marked_empty, Normal (curr_seq (map_sys m)) s mt)) ∧
      smap_wf m' ∧
      exp_raw m' =
        <[ek := Normal (curr_seq (map_sys m)) s mt]> (exp_raw m) ∧
      kv_raw m' = kv_raw m ∧
      map_sys m' = map_sys m;

  exp_set_None : ∀ m (ek : ExpireKey), smap_wf m →
    ∃ m' t, map_set (V := string) ek None m =
        (m', Ok (default marked_empty (exp_raw m !! ek), TombStone t)) ∧
      smap_wf m' ∧
      (exp_raw m' = <[ek := TombStone t]> (exp_raw m) ∨
       exp_raw m' = exp_raw m ∧
         exp_raw m !! ek = None) ∧
      kv_raw m' = kv_raw m ∧
      map_sys m' = map_sys m;

  (** Replacing the system data, when the sequence number is kept. *)
  set_sys_spec : ∀ m d, smap_wf m → curr_seq d = curr_seq (map_sys m) →
    smap_wf (map_set_sys d m) ∧
    kv_raw (map_set_sys d m) = kv_raw m ∧
    exp_raw (map_set_sys d m) = exp_raw m ∧
    map_sys (map_set_sys d m) = d;
}.

(** ** A single level *)

Section level_map.
Context {raft : OpenRaft}.

#[export] Instance level_state_map : StateMap raft Level := {|
  map_sys := sys_data;
  map_set_sys := set_sys_data;
|}.

#[export, refine] Instance level_state_map_laws : StateMapLaws Level :=
  {| smap_wf _ := True |}.
Proof.
  - done.
  - done.
  - intros m k v mt _ Hs. eexists. split; [|split; [done|]].
    + cbn -[wrap64]. unfold level_set_kv. m_unfold. cbn -[wrap64].
      rewrite wrap64_small by done. done.
    + done.
  - intros m k _. do 2 eexists. split; [done|split; [done|]]. split; [by left|done].
  - intros m ek s mt _ Hs Hek. eexists. split; [|split; [done|]].
    + cbn. unfold level_set_expire. m_unfold. unfold marked_from, level_get_expire.
      cbn in Hek, Hs. rewrite Hek. apply N.eqb_neq in Hs. rewrite Hs. done.
    + done.
  - intros m ek _. do 2 eexists. split; [unfold map_set; cbn; unfold level_set_expire; m_unfold; reflexivity|split; [done|]]. split; [by left|done].
  - done.
Defined.

Lemma level_smap_wf (l : Level) : smap_wf l.
Proof. done. Qed.
End level_map.
