(* ===== verification/LeveledMap.v ===== *)
(** The leveled map (raft-store/src/leveled_store/leveled_map: mod.rs and
    map_api_impl.rs): a writable level over frozen levels over a persisted
    table, read and written as one map. *)

From stdpp Require Import base orders sorting strings gmap numbers list.
From S2P Require Import Prelude BTree External ExpireKey MetaTypes Marked MapApi Level StateMap.
Local Open Scope N_scope.

(** A level holds a map of [K] to [V], and a frozen level holds the same one. *)
Class LevelMap {raft : OpenRaft} (K V : Type) `{OrdKey K} := {
  level_api :: MapApi Level K V;
  level_view :: ROView Level K V;
  immutable_api :: MapApiRO Immutable K V;
  immutable_view :: ROView Immutable K V;
  level_ro_wf : ∀ l : Level, ro_wf l;
  immutable_ro_wf : ∀ i : Immutable, ro_wf i;
  immutable_view_level : ∀ i : Immutable, ro_view i = ro_view (imm_level i);
  new_level_view : ∀ l : Level, ro_view (new_level l) = ∅;
}.

#[export, refine] Instance level_map_kv {raft : OpenRaft} : LevelMap string bytes :=
  {| level_api := level_kv; level_view := level_kv_view |}.
Proof. all: done. Defined.
#[export, refine] Instance level_map_expire {raft : OpenRaft} : LevelMap ExpireKey string :=
  {| level_api := level_expire; level_view := level_expire_view |}.
Proof. all: done. Defined.

Section leveled_map.
Context {raft : OpenRaft} {sm : StreamMore} {DB : Type}.

(** The receiver of a compactor's channel is named by the channel.  It is
    closed once the compactor that owns the sender is dropped. *)
Record LeveledMap := {
  current_compactor : option nat;
  writable : Level;
  immutable_levels : ImmutableLevels;
  persisted : option DB;
}.

Definition leveled_map_default : LeveledMap := {|
  current_compactor := None;
  writable := level_default;
  immutable_levels := {| levels := [] |};
  persisted := None;
|}.

Definition set_writable (w : Level) (m : LeveledMap) : LeveledMap := {|
  current_compactor := current_compactor m; writable := w;
  immutable_levels := immutable_levels m; persisted := persisted m;
|}.
Definition set_current_compactor (c : option nat) (m : LeveledMap) : LeveledMap := {|
  current_compactor := c; writable := writable m;
  immutable_levels := immutable_levels m; persisted := persisted m;
|}.
Definition replace_immutable_levels (b : ImmutableLevels) (m : LeveledMap) : LeveledMap := {|
  current_compactor := current_compactor m; writable := writable m;
  immutable_levels := b; persisted := persisted m;
|}.
Definition set_persisted (db : option DB) (m : LeveledMap) : LeveledMap := {|
  current_compactor := current_compactor m; writable := writable m;
  immutable_levels := immutable_levels m; persisted := db;
|}.

Definition lm_sys_data (m : LeveledMap) : SysData := sys_data (writable m).
Definition lm_set_sys_data (d : SysData) (m : LeveledMap) : LeveledMap :=
  set_writable (set_sys_data d (writable m)) m.

Definition lm_clear (m : LeveledMap) : LeveledMap := {|
  current_compactor := current_compactor m;
  writable := level_default;
  immutable_levels := {| levels := [] |};
  persisted := None;
|}.

Definition immutable_level_index (m : LeveledMap) : option LevelIndex :=
  imm_index <$> newest (immutable_levels m).

(** The levels in memory, from the newest to the oldest. *)
Definition iter_levels (m : LeveledMap) : list Level :=
  [writable m] ++ imm_iter_levels (immutable_levels m).

Definition iter_shared_levels (m : LeveledMap) : option Level * list Immutable :=
  (Some (writable m), iter_immutable_levels (immutable_levels m)).

(** Freeze the writable level under the identifier [uniq] and start an empty one. *)
Definition freeze_writable (uniq : N) (m : LeveledMap) : LeveledMap := {|
  current_compactor := current_compactor m;
  writable := new_level (writable m);
  immutable_levels := imm_push (immutable_new uniq (writable m)) (immutable_levels m);
  persisted := persisted m;
|}.

(** ** Reads and writes *)

Section map_api.
Context `{OrdKey K} {V : Type} `{!LevelMap K V} `{!MapApiRO DB K V}.

Definition lm_get (m : LeveledMap) (key : K) : Outcome (Marked V) :=
  compacted_get key (iter_levels m) (option_list (persisted m)).

Definition lm_range (m : LeveledMap) (range : Bounds K) : Outcome (Stream (K * Marked V)) :=
  let '(top, levels) := iter_shared_levels m in
  compacted_range range top levels (option_list (persisted m)).

#[export] Instance leveled_map_ro : MapApiRO LeveledMap K V :=
  {| ro_get := lm_get; ro_range := lm_range |}.

Definition lm_set (key : K) (value : option (V * option KVMeta)) :
    M LeveledMap (Marked V * Marked V) :=
  m ← get_st;
  prev ← lift (lm_get m key);
  if is_not_found prev && is_none value
  then mret (prev, new_tombstone 0)
  else
    '(_, inserted) ← zoom writable set_writable (map_set key value);
    mret (prev, inserted).

#[export] Instance leveled_map_api : MapApi LeveledMap K V := {| map_set := lm_set |}.
End map_api.

(** ** Compactors *)

Record Compactor := {
  guard : nat;
  comp_levels : ImmutableLevels;
  comp_db : option DB;
  since : option LevelIndex;
}.

(** [chan] is the fresh channel of the compactor. *)
Definition new_compactor (chan : nat) (m : LeveledMap) : LeveledMap * Compactor :=
  (set_current_compactor (Some chan) m,
   {| guard := chan; comp_levels := immutable_levels m; comp_db := persisted m;
      since := immutable_level_index m |}).

(** [live] are the channels whose sender is not dropped. *)
Definition try_acquire_compactor (live : gset nat) (chan : nat) (m : LeveledMap) :
    LeveledMap * option Compactor :=
  match current_compactor m with
  | Some rx =>
      if decide (rx ∈ live) then (m, None)
      else let '(m', c) := new_compactor chan m in (m', Some c)
  | None => let '(m', c) := new_compactor chan m in (m', Some c)
  end.

(** The receiver is taken and awaited: the rest runs once the channel is closed. *)
Definition acquire_compactor (chan : nat) (m : LeveledMap) : LeveledMap * Compactor :=
  new_compactor chan (set_current_compactor None m).

(** Install the compacted table in place of the levels of the compactor.  The
    index [len - 1] wraps around when [len] is 0 and is then out of range, as
    index 0 is; [split_off] panics when it is asked for more than there is. *)
Definition replace_with_compacted (c : Compactor) (db : DB) : M LeveledMap unit :=
  let len := length (levels (comp_levels c)) in
  let corresponding_index := imm_index <$> levels (comp_levels c) !! (len - 1)%nat in
  if decide (since c ≠ corresponding_index) then lift Panic
  else
    m ← get_st;
    if decide (length (levels (immutable_levels m)) < len)%nat then lift Panic
    else put_st {|
      current_compactor := current_compactor m;
      writable := writable m;
      immutable_levels := {| levels := drop len (levels (immutable_levels m)) |};
      persisted := Some db;
    |}.
End leveled_map.
Arguments LeveledMap {raft} DB.
Arguments Compactor {raft} DB.
