(* ===== verification/LeveledMapProofs.v ===== *)
(** The leveled map behaves as one map: its invariant, the content it
    represents, and that every operation keeps the invariant and acts on the
    content as on a single map. *)

From stdpp Require Import base orders sorting strings gmap numbers list.
From S2P Require Import Prelude BTree External ExpireKey MetaTypes Marked MapApi Level StateMap.
From S2P Require Import Stack LeveledMap.
Local Open Scope N_scope.

Abbreviation iseq a := (st_seq (order_key a)).

(** Entries written until the sequence number [n]. *)
Definition written_until `{Countable K} {V} (n : N) (g : gmap K (Marked V)) : Prop :=
  ∀ k a, g !! k = Some a → 0 < iseq a ≤ n.

Lemma written_until_found `{Countable K} {V} n (g : gmap K (Marked V)) :
  written_until n g → found_entries g.
Proof. intros Hw k a Ha. destruct (Hw k a Ha). destruct a as [[]|]; done. Qed.

Lemma written_until_mono `{Countable K} {V} n n' (g : gmap K (Marked V)) :
  n ≤ n' → written_until n g → written_until n' g.
Proof. intros Hle Hw k a Ha. destruct (Hw k a Ha). lia. Qed.

Lemma fresher_next {V} n (b : Marked V) v mt : iseq b ≤ n → fresher (Normal (n + 1) v mt) b.
Proof.
  intros Hb. split.
  - apply st_le_alt. left. cbn. lia.
  - intros He. apply (f_equal st_seq) in He. cbn in He. lia.
Qed.

Lemma fresher_tombstone {V} n (b : Marked V) : iseq b ≤ n → fresher (TombStone n) b.
Proof.
  intros Hb. split.
  - apply st_le_alt. cbn. destruct (N.lt_total (iseq b) n) as [?|[?|?]]; [by left|by right|lia].
  - destruct b; [done|]. intros [=].
Qed.

Section laws.
Context {raft : OpenRaft} {sm : StreamMore} `{!StreamMoreLaws sm} {DB : Type}.

Section one_map.
Context `{OrdKey K} {V : Type} `{!LevelMap K V} `{!MapApiRO DB K V} `{!ROView DB K V}.
Implicit Types m : LeveledMap DB.

(** The levels of a leveled map, from the newest to the oldest. *)
Definition older_maps m : list (gmap K (Marked V)) :=
  (ro_view <$> iter_immutable_levels (immutable_levels m)) ++
  (ro_view <$> option_list (persisted m)).
Definition lm_maps m : list (gmap K (Marked V)) := ro_view (writable m) :: older_maps m.

Definition lm_view m : gmap K (Marked V) := stack (lm_maps m).

Record lm_ok m : Prop := {
  ok_persisted : Forall ro_wf (option_list (persisted m));
  ok_ordered : levels_ordered (lm_maps m);
  ok_written : Forall (written_until (curr_seq (lm_sys_data m))) (lm_maps m);
}.

Lemma lm_view_written m : lm_ok m → written_until (curr_seq (lm_sys_data m)) (lm_view m).
Proof.
  intros [_ _ Hw] k a (g & Hg & Ha)%stack_lookup_Some.
  rewrite Forall_forall in Hw. by apply (Hw g Hg k).
Qed.

Lemma iter_levels_views m :
  (ro_view <$> iter_levels m) =
  ro_view (writable m) :: (ro_view <$> iter_immutable_levels (immutable_levels m)).
Proof.
  unfold iter_levels, imm_iter_levels, iter_immutable_levels. cbn [app]. rewrite fmap_cons.
  f_equal. rewrite <-fmap_reverse, <-list_fmap_compose.
  apply list_fmap_ext. intros i x _. by rewrite immutable_view_level.
Qed.

Lemma all_level_wf (ls : list Level) : Forall (ro_wf (K := K) (V := V)) ls.
Proof. apply Forall_forall. intros. apply level_ro_wf. Qed.
Lemma all_immutable_wf (ls : list Immutable) : Forall (ro_wf (K := K) (V := V)) ls.
Proof. apply Forall_forall. intros. apply immutable_ro_wf. Qed.

Lemma lm_get_spec m k : lm_ok m → lm_get m k = Ok (default marked_empty (lm_view m !! k)).
Proof.
  intros [Hp Ho Hw]. unfold lm_get.
  assert (Forall found_entries (lm_maps m)) as Hf.
  { eapply Forall_impl; [exact Hw|]. intros g. apply written_until_found. }
  unfold lm_maps, older_maps in Hf. rewrite app_comm_cons, <-iter_levels_views in Hf.
  apply Forall_app in Hf as [Hf1 Hf2].
  rewrite compacted_get_spec by auto using all_level_wf. by rewrite iter_levels_views.
Qed.

Lemma lm_range_spec m b :
  lm_ok m → ¬ bad_range b → lm_range m b = Ok (Ok <$> range_list (lm_view m) b).
Proof.
  intros [Hp Ho Hw] Hb. unfold lm_range, iter_shared_levels.
  by rewrite (compacted_range_spec b (Some (writable m))) by
    auto using all_level_wf, all_immutable_wf.
Qed.

#[export, refine] Instance leveled_map_view : ROView (LeveledMap DB) K V :=
  {| ro_view := lm_view; ro_wf := lm_ok |}.
Proof.
  - intros m k. apply lm_get_spec.
  - intros m b. apply lm_range_spec.
Defined.

(** Changing the writable level only. *)
Lemma lm_ok_writable m w :
  lm_ok m → curr_seq (lm_sys_data m) ≤ curr_seq (sys_data w) →
  (∀ k a, ro_view w !! k = Some a → 0 < iseq a ≤ curr_seq (sys_data w) ∧
     (∀ b, stack (older_maps m) !! k = Some b → fresher a b)) →
  lm_ok (set_writable w m).
Proof.
  intros [Hp Ho Hw] Hle Hnew. apply Forall_cons in Hw as [_ Hw].
  apply StronglySorted_inv in Ho as [Ho _]. split; [done|..].
  - constructor; [done|]. apply Forall_forall. intros g Hg k a b Ha Hb.
    destruct (Hnew k a Ha) as [_ Hfr].
    assert (is_Some (stack (older_maps m) !! k)) as [c Hc]
      by (by eapply stack_lookup_is_Some).
    pose proof (Hfr c Hc) as [Hle1 Heq1].
    apply stack_lookup in Hc as [(g' & Hg' & Hc) Hmax]; [|done].
    pose proof (Hmax g b Hg Hb) as Hbc.
    split; [by etrans|]. intros He.
    assert (order_key c = order_key b) as Hcb.
    { apply (anti_symm st_le); [|done]. by rewrite <-He. }
    assert (c = b) as ->
      by (by apply (levels_ordered_inj (older_maps m) g' g k)).
    auto.
  - constructor; [intros k a Ha; exact (proj1 (Hnew k a Ha))|].
    eapply Forall_impl; [exact Hw|]. intros g. by apply written_until_mono.
Qed.

Lemma lm_view_older m k b :
  lm_ok m → stack (older_maps m) !! k = Some b → iseq b ≤ curr_seq (lm_sys_data m).
Proof.
  intros [_ _ Hw] (g & Hg & Hb)%stack_lookup_Some.
  apply Forall_cons in Hw as [_ Hw]. rewrite Forall_forall in Hw. by apply (Hw g Hg k b).
Qed.

(** Inserting an entry into the writable level. *)
Lemma lm_ok_insert m w k a :
  lm_ok m → ro_view w = <[k := a]> (ro_view (writable m)) →
  curr_seq (lm_sys_data m) ≤ curr_seq (sys_data w) → 0 < iseq a ≤ curr_seq (sys_data w) →
  (∀ b, stack (older_maps m) !! k = Some b → fresher a b) →
  lm_ok (set_writable w m) ∧ lm_view (set_writable w m) = <[k := a]> (lm_view m).
Proof.
  intros Hok Hview Hle Ha Hfr. split.
  - apply lm_ok_writable; [done..|]. intros k' a'. rewrite Hview, lookup_insert_Some.
    intros [[<- <-]|[Hne Ha']]; [done|].
    destruct Hok as [_ Ho Hw]. apply Forall_cons in Hw as [Hw _].
    apply StronglySorted_inv in Ho as [_ Ho].
    split; [pose proof (Hw k' a' Ha'); lia|].
    intros b Hb. by apply (newer_level_stack _ _ Ho k').
  - unfold lm_view, lm_maps, set_writable. cbn [writable].
    rewrite Hview, !stack_cons, <-insert_union_l. done.
Qed.

(** The other map of the writable level is unchanged. *)
Lemma lm_ok_frame m w :
  lm_ok m → ro_view w = ro_view (writable m) →
  curr_seq (lm_sys_data m) ≤ curr_seq (sys_data w) →
  lm_ok (set_writable w m) ∧ lm_view (set_writable w m) = lm_view m.
Proof.
  intros [Hp Ho Hw] Hview Hle.
  assert (lm_maps (set_writable w m) = lm_maps m) as Hm.
  { unfold lm_maps, set_writable, older_maps. cbn [writable immutable_levels persisted].
    by rewrite Hview. }
  split; [split|]; unfold lm_view; try rewrite Hm; [done..| |done].
  eapply Forall_impl; [exact Hw|]. intros g. by apply written_until_mono.
Qed.

(** Freezing the writable level changes nothing that can be read. *)
Lemma freeze_maps uniq m : lm_maps (freeze_writable uniq m) = ∅ :: lm_maps m.
Proof.
  unfold lm_maps, older_maps, freeze_writable, iter_immutable_levels.
  cbn [writable immutable_levels persisted imm_push levels].
  by rewrite new_level_view, reverse_app, reverse_singleton, fmap_app, list_fmap_singleton,
    immutable_view_level.
Qed.

Lemma freeze_spec uniq m :
  lm_ok m → lm_ok (freeze_writable uniq m) ∧ lm_view (freeze_writable uniq m) = lm_view m.
Proof.
  intros [Hp Ho Hw]. unfold lm_view. rewrite freeze_maps, stack_cons, (left_id_L ∅ (∪)).
  split; [|done]. split; [done|..]; rewrite freeze_maps.
  - constructor; [done|]. apply Forall_forall. intros g _ k a b Ha. by rewrite lookup_empty in Ha.
  - constructor; [|done]. intros k a Ha. by rewrite lookup_empty in Ha.
Qed.

(** Writing goes to the writable level and returns what the stack held before. *)
Lemma lm_set_eval m k value w p a :
  lm_ok m → is_none (lm_view m !! k) && is_none value = false →
  map_set k value (writable m) = (w, Ok (p, a)) →
  lm_set k value m = (set_writable w m, Ok (default marked_empty (lm_view m !! k), a)).
Proof.
  intros Hok Hc Hset. unfold lm_set. m_unfold. rewrite lm_get_spec by done.
  replace (is_not_found _) with (is_none (lm_view m !! k)); [rewrite Hc; unfold zoom; by rewrite Hset|].
  destruct (lm_view m !! k) as [b|] eqn:Hb; [|done]. cbn [from_option id is_none].
  pose proof (written_until_found _ _ (lm_view_written m Hok) k b Hb). done.
Qed.

(** Writing changes the writable level only. *)
Lemma lm_set_frame k value m m' o :
  lm_set (V := V) k value m = (m', o) →
  immutable_levels m' = immutable_levels m ∧ persisted m' = persisted m ∧
  current_compactor m' = current_compactor m.
Proof.
  unfold lm_set, zoom. m_unfold. destruct (lm_get m k) as [prev| |]; [|by intros [= <- _]..].
  destruct (_ && _); [by intros [= <- _]|].
  destruct (map_set k value (writable m)) as [w [[p a]| |]]; by intros [= <- _].
Qed.

(** Deleting what is not there writes nothing. *)
Lemma lm_set_absent m k :
  lm_ok m → lm_view m !! k = None → lm_set k None m = (m, Ok (marked_empty, TombStone 0)).
Proof. intros Hok Hk. unfold lm_set. m_unfold. by rewrite lm_get_spec, Hk. Qed.
End one_map.

(** ** The leveled map is a state machine's map *)

Context `{!MapApiRO DB string bytes, !ROView DB string bytes}.
Context `{!MapApiRO DB ExpireKey string, !ROView DB ExpireKey string}.

#[export] Instance leveled_state_map : StateMap raft (LeveledMap DB) := {|
  map_kv := leveled_map_api;
  map_expire := leveled_map_api;
  map_sys := lm_sys_data;
  map_set_sys := lm_set_sys_data;
|}.

Definition lm_wf (m : LeveledMap DB) : Prop :=
  lm_ok (K := string) (V := bytes) m ∧ lm_ok (K := ExpireKey) (V := string) m.

Lemma leveled_map_default_wf : lm_wf leveled_map_default.
Proof.
  unfold lm_wf. split; split; unfold lm_maps, older_maps; cbn.
  1,4: constructor.
  1,3: repeat constructor.
  all: constructor; [|constructor]; intros k a; by rewrite lookup_empty.
Qed.

Lemma view_older {K V} `{OrdKey K} `{!LevelMap K V} `{!MapApiRO DB K V} `{!ROView DB K V}
    (m : LeveledMap DB) k :
  lm_view (K := K) m !! k = None → stack (older_maps m) !! k = None.
Proof. unfold lm_view, lm_maps. rewrite stack_cons, lookup_union_None. by intros []. Qed.

Lemma lm_kv_set_Some (m : LeveledMap DB) (k : string) (v : bytes) mt :
  lm_wf m → curr_seq (lm_sys_data m) + 1 < u64_mod →
  ∃ m', lm_set k (Some (v, mt)) m =
      (m', Ok (default marked_empty (lm_view m !! k), Normal (curr_seq (lm_sys_data m) + 1) v mt)) ∧
    lm_wf m' ∧
    lm_view m' = <[k := Normal (curr_seq (lm_sys_data m) + 1) v mt]> (lm_view (V := bytes) m) ∧
    lm_view (K := ExpireKey) m' = lm_view (K := ExpireKey) m ∧
    lm_sys_data m' = update_seq (curr_seq (lm_sys_data m) + 1) (lm_sys_data m).
Proof.
  intros [Hkv Hexp] Hs.
  destruct (kv_set_Some (writable m) k v mt (level_smap_wf _) Hs) as (w & Hw & _ & Hview & Hframe & Hsys).
  change (map_sys (writable m)) with (lm_sys_data m) in *.
  assert (curr_seq (sys_data w) = curr_seq (lm_sys_data m) + 1) as Hseq
    by (change (curr_seq (map_sys w) = curr_seq (lm_sys_data m) + 1); by rewrite Hsys).
  exists (set_writable w m).
  destruct (lm_ok_insert (K := string) (V := bytes) m w k _ Hkv Hview) as [Hok' Hview'].
  { rewrite Hseq. lia. }
  { rewrite Hseq. cbn [order_key st_normal st_seq]. lia. }
  { intros b Hb. by apply fresher_next, (lm_view_older m k). }
  destruct (lm_ok_frame (K := ExpireKey) (V := string) m w Hexp Hframe) as [Hok2 Hview2].
  { rewrite Hseq. lia. }
  split; [|done]. eapply lm_set_eval; [done| |exact Hw]. by rewrite andb_false_r.
Qed.

(** Deletions, in either map: [other] is the map that is not written. *)
Lemma lm_set_None {K V} `{OrdKey K} `{!LevelMap K V, !MapApiRO DB K V, !ROView DB K V}
    {K2 V2} `{OrdKey K2} `{!LevelMap K2 V2, !MapApiRO DB K2 V2, !ROView DB K2 V2}
    (m : LeveledMap DB) (k : K) w :
  lm_ok (K := K) (V := V) m → lm_ok (K := K2) (V := V2) m →
  map_set (V := V) k None (writable m) =
    (w, Ok (default marked_empty (ro_view (writable m) !! k), TombStone (curr_seq (lm_sys_data m)))) →
  ro_view (V := V) w = <[k := TombStone (curr_seq (lm_sys_data m))]> (ro_view (writable m)) →
  ro_view (K := K2) (V := V2) w = ro_view (writable m) → sys_data w = sys_data (writable m) →
  ∃ m' t, lm_set (V := V) k None m = (m', Ok (default marked_empty (lm_view m !! k), TombStone t)) ∧
    (lm_ok (K := K) (V := V) m' ∧ lm_ok (K := K2) (V := V2) m') ∧
    (lm_view (V := V) m' = <[k := TombStone t]> (lm_view m) ∨
     lm_view (V := V) m' = lm_view m ∧ lm_view (V := V) m !! k = None) ∧
    lm_view (K := K2) (V := V2) m' = lm_view m ∧ lm_sys_data m' = lm_sys_data m.
Proof.
  intros Hok Hok2 Hset Hview Hframe Hsys.
  destruct (lm_view m !! k) as [b|] eqn:Hb.
  2: { exists m, 0. rewrite lm_set_absent by done.
       split; [done|]. split; [done|]. split; [by right|done]. }
  exists (set_writable w m), (curr_seq (lm_sys_data m)).
  pose proof (lm_view_written m Hok k b Hb) as Hseq.
  destruct (lm_ok_insert m w k _ Hok Hview) as [Hok' Hview'].
  { by rewrite Hsys. }
  { rewrite Hsys. cbn [order_key st_tomb st_seq]. unfold lm_sys_data in *. lia. }
  { intros c Hc. by apply fresher_tombstone, (lm_view_older m k). }
  destruct (lm_ok_frame m w Hok2 Hframe) as [Hok2' Hview2]; [by rewrite Hsys|].
  split; [|split; [done|]; split; [by left|done]].
  rewrite (lm_set_eval m k None w _ _ Hok) by (exact Hset || by rewrite Hb). by rewrite Hb.
Qed.

Lemma lm_exp_set_Some (m : LeveledMap DB) (ek : ExpireKey) (s : string) mt :
  lm_wf m → curr_seq (lm_sys_data m) ≠ 0 → lm_view (V := string) m !! ek = None →
  ∃ m', lm_set ek (Some (s, mt)) m =
      (m', Ok (marked_empty, Normal (curr_seq (lm_sys_data m)) s mt)) ∧
    lm_wf m' ∧
    lm_view m' = <[ek := Normal (curr_seq (lm_sys_data m)) s mt]> (lm_view (V := string) m) ∧
    lm_view (K := string) (V := bytes) m' = lm_view m ∧ lm_sys_data m' = lm_sys_data m.
Proof.
  intros [Hkv Hexp] Hs Hek.
  pose proof (view_older m ek Hek) as Hold.
  assert (exp_raw (writable m) !! ek = None) as Htop.
  { unfold lm_view, lm_maps in Hek. rewrite stack_cons, lookup_union_None in Hek. by destruct Hek. }
  destruct (exp_set_Some (writable m) ek s mt (level_smap_wf _) Hs Htop)
    as (w & Hw & _ & Hview & Hframe & Hsys).
  change (map_sys (writable m)) with (lm_sys_data m) in *.
  change (sys_data w = lm_sys_data m) in Hsys.
  exists (set_writable w m).
  destruct (lm_ok_insert (K := ExpireKey) (V := string) m w ek _ Hexp Hview) as [Hok' Hview'].
  { by rewrite Hsys. }
  { rewrite Hsys. cbn [order_key st_normal st_seq]. lia. }
  { intros b Hb. congruence. }
  destruct (lm_ok_frame (K := string) (V := bytes) m w Hkv Hframe) as [Hok2 Hview2].
  { by rewrite Hsys. }
  split; [|done]. erewrite lm_set_eval; [|done|by rewrite andb_false_r|exact Hw].
  by rewrite Hek.
Qed.

Lemma lm_set_sys_spec (m : LeveledMap DB) d :
  lm_wf m → curr_seq d = curr_seq (lm_sys_data m) →
  lm_wf (lm_set_sys_data d m) ∧
  lm_view (K := string) (V := bytes) (lm_set_sys_data d m) = lm_view m ∧
  lm_view (K := ExpireKey) (V := string) (lm_set_sys_data d m) = lm_view m ∧
  lm_sys_data (lm_set_sys_data d m) = d.
Proof.
  intros [Hkv Hexp] Hd. unfold lm_set_sys_data.
  destruct (lm_ok_frame (K := string) (V := bytes) m (set_sys_data d (writable m)) Hkv)
    as [? ?]; [done|cbn; by rewrite Hd|].
  destruct (lm_ok_frame (K := ExpireKey) (V := string) m (set_sys_data d (writable m)) Hexp)
    as [? ?]; [done|cbn; by rewrite Hd|].
  done.
Qed.

#[export, refine] Instance leveled_state_map_laws : StateMapLaws (LeveledMap DB) :=
  {| smap_wf := lm_wf |}.
Proof.
  - by intros m [].
  - by intros m [].
  - exact lm_kv_set_Some.
  - intros m k [Hkv Hexp]. by eapply (lm_set_None (K2 := ExpireKey) (V2 := string)).
  - exact lm_exp_set_Some.
  - intros m k [Hkv Hexp]. unfold lm_wf.
    destruct (lm_set_None (K2 := string) (V2 := bytes) m k
      (replace_expire (<[k := TombStone (curr_seq (lm_sys_data m))]> (expire (writable m))) (writable m)))
      as (m' & t & ? & [? ?] & ?); try done. eauto 10.
  - exact lm_set_sys_spec.
Defined.
End laws.
