(* ===== verification/RotblLib.v ===== *)
(** The libraries behind the persisted table, as parameters: the read-only
    table of the [rotbl] crate, the binary encoding of [bincode] and the JSON
    encoding of [serde_json], with the behaviour the meta-service relies on. *)

From stdpp Require Import base orders sorting strings gmap numbers list.
From S2P Require Import Prelude BTree RustStr External MetaTypes Marked Level.
Local Open Scope N_scope.

(** ** [rotbl]: versions of a value, tables and their builder *)

Class RotblLib := {
  SeqMarked : Type;
  sqm_new_normal : N → bytes → SeqMarked;
  sqm_new_tombstone : N → SeqMarked;
  sqm_seq : SeqMarked → N;
  sqm_into_data : SeqMarked → option bytes;
  sqm_is_normal : SeqMarked → bool;
  (** [a.order_key() <= b.order_key()] *)
  sqm_order_leb : SeqMarked → SeqMarked → bool;

  Rotbl : Type;
  rotbl_get : Rotbl → string → Outcome (option SeqMarked);
  rotbl_range : Rotbl → Bounds string → list (Outcome (string * SeqMarked));
  rotbl_user_data : Rotbl → string;

  RotblBuilder : Type;
  rotbl_builder_append : RotblBuilder → string → SeqMarked → Outcome RotblBuilder;
  rotbl_builder_commit : RotblBuilder → string → Outcome Rotbl;
}.

(** The order of two versions, as in [SeqTombstone]. *)
Definition sqm_version {rb : RotblLib} (x : SeqMarked) : SeqTombstone :=
  {| st_seq := sqm_seq x; st_tombstone := negb (sqm_is_normal x) |}.

Class RotblLaws (rb : RotblLib) := {
  sqm_seq_normal : ∀ s d, sqm_seq (sqm_new_normal s d) = s;
  sqm_seq_tombstone : ∀ s, sqm_seq (sqm_new_tombstone s) = s;
  sqm_data_normal : ∀ s d, sqm_into_data (sqm_new_normal s d) = Some d;
  sqm_data_tombstone : ∀ s, sqm_into_data (sqm_new_tombstone s) = None;
  sqm_normal_data : ∀ x, sqm_is_normal x = bool_decide (is_Some (sqm_into_data x));
  sqm_eta : ∀ x, x =
    match sqm_into_data x with
    | Some d => sqm_new_normal (sqm_seq x) d
    | None => sqm_new_tombstone (sqm_seq x)
    end;
  sqm_order_leb_spec : ∀ x y, sqm_order_leb x y = st_leb (sqm_version x) (sqm_version y);

  (** A readable table, and its entries. *)
  rotbl_ok : Rotbl → Prop;
  rotbl_content : Rotbl → gmap string SeqMarked;
  rotbl_get_spec : ∀ r k, rotbl_ok r → rotbl_get r k = Ok (rotbl_content r !! k);
  rotbl_range_spec : ∀ r b, rotbl_ok r → ¬ bad_range b →
    rotbl_range r b = Ok <$> range_list (rotbl_content r) b;

  (** A builder with the entries appended to it so far.  Writing to disk may
      fail.  Keys are appended in ascending order. *)
  builder_content : RotblBuilder → list (string * SeqMarked) → Prop;
  builder_append_spec : ∀ b l k x b', builder_content b l →
    Forall (λ y, key_lt y.1 k) l → rotbl_builder_append b k x = Ok b' →
    builder_content b' (l ++ [(k, x)]);
  builder_commit_spec : ∀ b l meta r, builder_content b l →
    rotbl_builder_commit b meta = Ok r →
    rotbl_ok r ∧ rotbl_content r = list_to_map l ∧ rotbl_user_data r = meta;
}.

(** ** [bincode] and [serde_json] *)

Class SerdeLib (raft : OpenRaft) := {
  (** [encode_to_vec] and [decode_from_slice] of [(u8, String, Vec<u8>)]; the
      decoder also returns the number of bytes it read. *)
  bincode_encode : N * string * bytes → option bytes;
  bincode_decode : bytes → option (N * string * bytes * nat);
  json_of_meta : option KVMeta → option string;
  meta_of_json : string → option (option KVMeta);
  json_of_sys_data : SysData → option string;
  sys_data_of_json : string → option SysData;
}.

Class SerdeLaws {raft : OpenRaft} (sl : SerdeLib raft) : Prop := {
  bincode_roundtrip : ∀ x b, bincode_encode x = Some b →
    bincode_decode b = Some (x, String.length b);
  json_meta_roundtrip : ∀ m s, json_of_meta m = Some s → meta_of_json s = Some m;
  json_sys_data_roundtrip : ∀ d s, json_of_sys_data d = Some s → sys_data_of_json s = Some d;
}.

(** Encoding always succeeds for the values of the meta-service. *)
Class SerdeTotal {raft : OpenRaft} (sl : SerdeLib raft) : Prop := {
  bincode_total : ∀ x, is_Some (bincode_encode x);
  json_meta_total : ∀ m, is_Some (json_of_meta m);
  json_sys_data_total : ∀ d, is_Some (json_of_sys_data d);
}.

(** ** A concrete instance *)

Inductive seq_marked := SMNormal (s : N) (d : bytes) | SMTombstone (s : N).

Definition mem_seq (x : seq_marked) : N := match x with SMNormal s _ | SMTombstone s => s end.
Definition mem_data (x : seq_marked) : option bytes :=
  match x with SMNormal _ d => Some d | SMTombstone _ => None end.
Definition mem_is_normal (x : seq_marked) : bool := match x with SMNormal _ _ => true | _ => false end.
Definition mem_version (x : seq_marked) : SeqTombstone :=
  {| st_seq := mem_seq x; st_tombstone := negb (mem_is_normal x) |}.

(** A table in memory: its entries in order, and the user data. *)
Definition mem_rotbl : RotblLib := {|
  SeqMarked := seq_marked;
  sqm_new_normal := SMNormal;
  sqm_new_tombstone := SMTombstone;
  sqm_seq := mem_seq;
  sqm_into_data := mem_data;
  sqm_is_normal := mem_is_normal;
  sqm_order_leb x y := st_leb (mem_version x) (mem_version y);
  Rotbl := gmap string seq_marked * string;
  rotbl_get r k := Ok (r.1 !! k);
  rotbl_range r b := match btree_range r.1 b with Ok l => Ok <$> l | _ => [Panic] end;
  rotbl_user_data r := r.2;
  RotblBuilder := list (string * seq_marked);
  rotbl_builder_append b k x := Ok (b ++ [(k, x)]);
  rotbl_builder_commit b meta := Ok (list_to_map b, meta);
|}.

#[local, refine] Instance mem_rotbl_laws : RotblLaws mem_rotbl := {|
  rotbl_ok _ := True;
  rotbl_content (r : @Rotbl mem_rotbl) := fst r;
  builder_content (b : @RotblBuilder mem_rotbl) l := b = l;
|}.
Proof.
  1-4: done.
  - by intros [].
  - by intros [].
  - done.
  - done.
  - intros r b _ Hb. cbn. by rewrite btree_range_ok.
  - cbn. by intros b l k x b' -> _ [= <-].
  - cbn. by intros b l meta r -> [= <-].
Defined.

(** Any countable type has an encoding in strings of binary digits. *)
Fixpoint bits_of (p : positive) : string :=
  match p with
  | xH => EmptyString
  | xO p => String (byte 48) (bits_of p)
  | xI p => String (byte 49) (bits_of p)
  end.
Fixpoint pos_of_bits (s : string) : positive :=
  match s with
  | EmptyString => xH
  | String a s => if decide (a = byte 48) then xO (pos_of_bits s) else xI (pos_of_bits s)
  end.

Definition text_encode `{Countable A} (x : A) : option string := Some (bits_of (encode x)).
Definition text_decode `{Countable A} (s : string) : option A := decode (pos_of_bits s).

Lemma pos_of_bits_of p : pos_of_bits (bits_of p) = p.
Proof. induction p as [p IH|p IH|]; cbn; [by rewrite IH..|done]. Qed.

Lemma text_roundtrip `{Countable A} (x : A) s : text_encode x = Some s → text_decode s = Some x.
Proof.
  intros [= <-]. unfold text_decode. by rewrite pos_of_bits_of, decode_encode.
Qed.

#[local] Instance KVMeta_countable : Countable KVMeta.
Proof. apply (inj_countable' expire_at Build_KVMeta). by intros []. Defined.
#[local] Instance Endpoint_countable : Countable Endpoint.
Proof.
  apply (inj_countable' (λ e, (addr e, port e)) (λ p, Build_Endpoint p.1 p.2)). by intros [].
Defined.
#[local] Instance Node_countable : Countable Node.
Proof.
  apply (inj_countable'
    (λ n, (node_name n, node_endpoint n, grpc_api_addr n, grpc_api_advertise_address n))
    (λ p, let '(a, b, c, d) := p in Build_Node a b c d)).
  by intros [].
Defined.

Definition sys_data_parts (d : @SysData nat_raft) :
    option nat * (option nat * list nat) * gmap N Node * N :=
  (@last_applied nat_raft d, @last_membership nat_raft d, nodes d, sequence d).
Definition sys_data_join
    (p : option nat * (option nat * list nat) * gmap N Node * N) : @SysData nat_raft :=
  let '(l, m, n, s) := p in @Build_SysData nat_raft l m n s.

Definition text_serde : SerdeLib nat_raft := {|
  bincode_encode := text_encode;
  bincode_decode b := (λ x, (x, String.length b)) <$> text_decode b;
  json_of_meta := text_encode;
  meta_of_json := text_decode;
  json_of_sys_data d := text_encode (sys_data_parts d);
  sys_data_of_json s := sys_data_join <$> text_decode s;
|}.

Lemma text_serde_laws : SerdeLaws text_serde.
Proof.
  split; cbn.
  - intros x b E. by rewrite (text_roundtrip x b E).
  - intros m s. apply text_roundtrip.
  - intros d s E. rewrite (text_roundtrip _ s E). by destruct d.
Qed.

Lemma text_serde_total : SerdeTotal text_serde.
Proof. split; intros; by eexists. Qed.
