(* ===== verification/Rotbl.v ===== *)
(** The persisted level (raft-store/src/leveled_store: key_spaces_impl.rs,
    rotbl_codec.rs, rotbl_seq_mark_impl.rs, db_map_api_ro_impl.rs, db_builder.rs,
    and types/src/snapshot_db.rs): the encoding of keys and values into a
    table, and the table as a level. *)

From stdpp Require Import base orders sorting strings gmap numbers list.
From S2P Require Import Prelude BTree RustStr External ExpireKey MetaTypes Marked Stack MapApi Level.
From S2P Require Import RotblLib.
Local Open Scope N_scope.

(** ** Key spaces: [MapKeyEncode] and [MapKeyDecode] *)

Class MapKey (K : Type) := {
  PREFIX : string;
  mk_encode : K → string;
  mk_decode : string → Outcome K;
}.

Arguments PREFIX K {_}.

#[export] Instance string_map_key : MapKey string := {|
  PREFIX := "kv--";
  mk_encode k := k;
  mk_decode buf := Ok buf;
|}.

Definition ek_encode (k : ExpireKey) : string :=
  dec_fixed 20 (time_ms k) +:+ String (byte 47) (dec_fixed 20 (ek_seq k)).

Definition ek_decode (buf : string) : Outcome ExpireKey :=
  if negb (String.length buf =? 41)%nat then Err InvalidData
  else match split_on (byte 47) buf with
  | [] | [_] => Err InvalidData
  | t :: s :: rest =>
      match rest with
      | _ :: _ => Err InvalidData
      | [] =>
          if negb (String.length t =? 20)%nat then Err InvalidData
          else if negb (String.length s =? 20)%nat then Err InvalidData
          else match parse_u64 t with
          | None => Err InvalidData
          | Some time_ms =>
              match parse_u64 s with
              | None => Err InvalidData
              | Some seq => Ok (expire_key_new time_ms seq)
              end
          end
      end
  end.

#[export] Instance expire_key_map_key : MapKey ExpireKey := {|
  PREFIX := "exp-";
  mk_encode := ek_encode;
  mk_decode := ek_decode;
|}.

(** ** [RotblCodec] *)

Section codec.
Context {K : Type} `{!MapKey K}.

(** Writing to a string does not fail. *)
Definition encode_key (k : K) : string := PREFIX K +:+ String (byte 47) (mk_encode k).

Definition decode_key (str_key : string) : Outcome K :=
  match strip_prefix (PREFIX K) str_key with
  | None => Err InvalidData
  | Some prefix_stripped =>
      match strip_prefix (String (byte 47) EmptyString) prefix_stripped with
      | None => Err InvalidData
      | Some key => mk_decode key
      end
  end.

Definition encode_bound (v : Bound K) (left : bool) : Bound string :=
  match v with
  | Included k => Included (encode_key k)
  | Excluded k => Excluded (encode_key k)
  | Unbounded =>
      if left then Included (PREFIX K +:+ String (byte 47) EmptyString)
      else Excluded (PREFIX K +:+ String (byte 48) EmptyString)
  end.

Definition encode_range (r : Bounds K) : Bounds string :=
  (encode_bound r.1 true, encode_bound r.2 false).
End codec.

(** ** Values: [Marked] and [rotbl::SeqMarked] *)

Section values.
Context {raft : OpenRaft} {rb : RotblLib} {sl : SerdeLib raft}.

Definition marked_of_seq_marked (x : SeqMarked) : Outcome (Marked bytes) :=
  let seq := sqm_seq x in
  match sqm_into_data x with
  | None => Ok (new_tombstone seq)
  | Some data =>
      match bincode_decode data with
      | None => Err InvalidData
      | Some (ver, meta_str, value, size) =>
          if negb (ver =? 1) then Err InvalidData
          else if negb (size =? String.length data)%nat then Err InvalidData
          else match meta_of_json meta_str with
          | None => Err InvalidData
          | Some kv_meta => Ok (new_with_meta seq value kv_meta)
          end
      end
  end.

Definition marked_string_of_seq_marked (x : SeqMarked) : Outcome (Marked string) :=
  marked ← marked_of_seq_marked x;
  match marked with
  | TombStone s => Ok (TombStone s)
  | Normal s value mt =>
      match from_utf8 value with
      | None => Err InvalidData
      | Some value => Ok (Normal s value mt)
      end
  end.

Definition seq_marked_of_marked (m : Marked bytes) : Outcome SeqMarked :=
  match m with
  | TombStone s => Ok (sqm_new_tombstone s)
  | Normal s value mt =>
      match json_of_meta mt with
      | None => Err InvalidData
      | Some kv_meta_str =>
          match bincode_encode (1, kv_meta_str, value) with
          | None => Err InvalidData
          | Some d => Ok (sqm_new_normal s d)
          end
      end
  end.

(** [Marked<String>] is converted to [Marked<Vec<u8>>] first. *)
Definition marked_bytes_of_string (m : Marked string) : Marked bytes :=
  match m with TombStone s => TombStone s | Normal s v mt => Normal s v mt end.
Definition seq_marked_of_marked_string (m : Marked string) : Outcome SeqMarked :=
  seq_marked_of_marked (marked_bytes_of_string m).

(** The conversions of the values of a key space [K]. *)
Class MapValue (K V : Type) := {
  val_decode : SeqMarked → Outcome (Marked V);
  val_encode : Marked V → Outcome SeqMarked;
}.
#[export] Instance kv_map_value : MapValue string bytes :=
  {| val_decode := marked_of_seq_marked; val_encode := seq_marked_of_marked |}.
#[export] Instance expire_map_value : MapValue ExpireKey string :=
  {| val_decode := marked_string_of_seq_marked; val_encode := seq_marked_of_marked_string |}.

Definition encode_key_seq_marked {K V} `{!MapKey K, !MapValue K V} (k : K) (m : Marked V) :
    Outcome (string * SeqMarked) :=
  v ← val_encode (K := K) m; Ok (encode_key k, v).

(** ** [DB]: a table with its system data *)

Record SnapshotMeta := {
  snap_last_log_id : option LogId;
  snap_last_membership : StoredMembership;
  snapshot_id : string;
}.

Record DB := {
  db_path : string;
  db_meta : SnapshotMeta;
  db_sys_data : SysData;
  db_rotbl : Rotbl;
}.

(** [DB::new]: the system data is the user data of the table; [unwrap] panics
    when it is not readable. *)
Definition db_new (path : string) (id : string) (r : Rotbl) : Outcome DB :=
  match sys_data_of_json (rotbl_user_data r) with
  | None => Panic
  | Some d => Ok {|
      db_path := path;
      db_meta := {|
        snap_last_log_id := last_applied d;
        snap_last_membership := last_membership d;
        snapshot_id := id;
      |};
      db_sys_data := d;
      db_rotbl := r;
    |}
  end.

Definition inner_range (db : DB) : Stream (string * SeqMarked) :=
  rotbl_range (db_rotbl db) bounds_full.

(** [MapApiRO for DB]. *)
Definition db_get {K V} `{!MapKey K, !MapValue K V} (db : DB) (key : K) : Outcome (Marked V) :=
  res ← rotbl_get (db_rotbl db) (encode_key key);
  match res with
  | None => Ok marked_empty
  | Some seq_marked => val_decode (K := K) seq_marked
  end.

Definition db_decode_item {K V} `{!MapKey K, !MapValue K V} (item : Outcome (string * SeqMarked)) :
    Outcome (K * Marked V) :=
  '(str_k, seq_marked) ← item;
  key ← decode_key str_k;
  marked ← val_decode (K := K) seq_marked;
  Ok (key, marked).

Definition db_range {K V} `{!MapKey K, !MapValue K V} (db : DB) (range : Bounds K) :
    Outcome (Stream (K * Marked V)) :=
  Ok (db_decode_item <$> rotbl_range (db_rotbl db) (encode_range range)).

#[export] Instance db_ro {K V} `{!MapKey K, !MapValue K V} : MapApiRO DB K V :=
  {| ro_get := db_get; ro_range := db_range |}.

(** ** [DBBuilder]: write a stream, then the system data *)

Fixpoint append_kv_stream (b : RotblBuilder) (strm : Stream (string * SeqMarked)) :
    Outcome RotblBuilder :=
  match strm with
  | [] => Ok b
  | item :: strm =>
      '(k, v) ← item;
      b ← rotbl_builder_append b k v;
      append_kv_stream b strm
  end.

Definition db_builder_flush (b : RotblBuilder) (d : SysData) : Outcome Rotbl :=
  match json_of_sys_data d with
  | None => Err InvalidData
  | Some meta => rotbl_builder_commit b meta
  end.
End values.
