(* ===== verification/RotblProofs.v ===== *)
(** The encodings of the persisted level: keys and values are read back as
    they were written, encoded keys have the order of the keys, an encoded
    range holds exactly the keys of the range, and a table reads as a level. *)

From stdpp Require Import base orders sorting strings gmap numbers list.
From S2P Require Import Prelude BTree RustStr External ExpireKey MetaTypes Marked Stack MapApi Level.
From S2P Require Import RotblLib Rotbl.
Local Open Scope N_scope.

(** ** Keys *)

Class MapKeyLaws (K : Type) `{OrdKey K, !MapKey K} : Prop := {
  mk_decode_encode : ∀ k : K, mk_decode (mk_encode k) = Ok k;
  mk_encode_lt : ∀ a b : K, key_lt a b → key_lt (mk_encode a) (mk_encode b);
}.

#[export] Instance string_key_laws : MapKeyLaws string.
Proof. split; done. Qed.

Lemma ek_decode_encode k : ek_decode (ek_encode k) = Ok k.
Proof.
  destruct (ek_bounds k). unfold ek_decode, ek_encode.
  rewrite str_length_app. cbn [String.length]. rewrite !dec_fixed_length.
  rewrite split_on_app, dec_fixed_split by apply dec_fixed_split.
  cbn [Nat.add Nat.eqb negb]. rewrite !dec_fixed_length. cbn [Nat.eqb negb].
  by rewrite !parse_u64_dec, expire_key_new_eta.
Qed.

Lemma ek_encode_lt a b : key_lt a b → key_lt (ek_encode a) (ek_encode b).
Proof.
  intros Hlt%ek_lt_alt. destruct (ek_bounds a), (ek_bounds b). unfold ek_encode.
  destruct Hlt as [Hlt|[-> Hlt]].
  - by apply diverges_lt, dec_fixed_lt.
  - apply str_lt_app, str_lt_cons. right. split; [done|].
    rewrite <-(str_app_nil_r (dec_fixed 20 (ek_seq a))), <-(str_app_nil_r (dec_fixed 20 (ek_seq b))).
    by apply diverges_lt, dec_fixed_lt.
Qed.

#[export] Instance expire_key_laws : MapKeyLaws ExpireKey.
Proof. split; [apply ek_decode_encode|apply ek_encode_lt]. Qed.

Section keys.
Context `{OrdKey K, !MapKey K, !MapKeyLaws K}.
Implicit Types (k : K) (b : Bounds K) (s : string).

(** The strings of the key space. *)
Definition in_space s : Prop := ∃ x, s = PREFIX K +:+ String (byte 47) x.

Lemma encode_key_in_space k : in_space (encode_key k).
Proof. by eexists. Qed.

Lemma decode_encode_key k : decode_key (encode_key k) = Ok k.
Proof.
  unfold decode_key, encode_key.
  rewrite (proj2 (strip_prefix_Some _ _ _) eq_refl). cbn. rewrite decide_True by done.
  apply mk_decode_encode.
Qed.

Lemma decode_key_in_space s k : decode_key s = Ok k → in_space s.
Proof.
  unfold decode_key. destruct (strip_prefix (PREFIX K) s) as [x|] eqn:E; [|done].
  apply strip_prefix_Some in E as ->. destruct x as [|a x]; [done|]. cbn.
  case_decide; [|done]. subst. intros _. by exists x.
Qed.

Lemma encode_key_inj k1 k2 : encode_key k1 = encode_key k2 → k1 = k2.
Proof.
  intros E. apply (f_equal decode_key) in E. rewrite !decode_encode_key in E. by injection E.
Qed.

Lemma encode_key_lt k1 k2 : key_lt (encode_key k1) (encode_key k2) ↔ key_lt k1 k2.
Proof.
  assert (∀ c d : K, key_lt c d → key_lt (encode_key c) (encode_key d)) as Hlt.
  { intros c d Hcd. apply str_lt_app, str_lt_cons. right. split; [done|].
    by apply mk_encode_lt. }
  split; [|apply Hlt]. intros He. apply key_not_le_lt.
  intros [Hlt'| ->]%key_le_lt_eq; [|by apply key_lt_irrefl in He].
  apply (key_lt_not_le _ _ He), key_lt_le, Hlt, Hlt'.
Qed.

Lemma encode_key_le k1 k2 : key_le (encode_key k1) (encode_key k2) ↔ key_le k1 k2.
Proof.
  split.
  - intros [?%encode_key_lt| ->%encode_key_inj]%key_le_lt_eq; [by apply key_lt_le|done].
  - intros [?| ->]%key_le_lt_eq; [|done]. by apply key_lt_le, encode_key_lt.
Qed.

(** An encoded range holds exactly the keys of the range, *)
Lemma encode_range_exact b k : in_bounds (encode_range b) (encode_key k) ↔ in_bounds b k.
Proof.
  unfold in_bounds, encode_range. cbn [fst snd].
  f_equiv; destruct b as [[l|l|] [r|r|]]; cbn [fst snd encode_bound above below];
    rewrite ?encode_key_le, ?encode_key_lt; try done.
  all: split; [done|intros _]; unfold encode_key.
  1-3: apply str_le_app, str_le_cons; right; split; [done|apply str_le_nil].
  all: apply str_lt_app, str_lt_cons; by left.
Qed.

(** and no string outside of the key space. *)
Lemma encode_range_in_space b s : in_bounds (encode_range b) s → in_space s.
Proof.
  intros [Hl Hr].
  assert (key_le (PREFIX K +:+ String (byte 47) EmptyString) s) as Hl'.
  { destruct b as [[l|l|] r]; cbn in Hl; [..|done]; (etrans; [|first [exact Hl|apply key_lt_le, Hl]]);
      apply str_le_app, str_le_cons; (right; split; [done|apply str_le_nil]). }
  assert (key_lt s (PREFIX K +:+ String (byte 48) EmptyString)) as Hr'.
  { destruct b as [l [r|r|]]; cbn in Hr; [..|done];
      [eapply key_le_lt_trans; [exact Hr|]|etrans; [exact Hr|]];
      (apply str_lt_app, str_lt_cons; by left). }
  clear Hl Hr. revert s Hl' Hr'. unfold in_space. generalize (PREFIX K) as p.
  induction p as [|a p IH]; intros [|c s] Hl Hr; try done.
  - apply str_le_cons in Hl as [Hl|[<- _]]; [|by exists s].
    apply str_lt_cons in Hr as [Hr|[_ Hr]].
    + rewrite !byte_of_byte in Hl, Hr by done. lia.
    + by destruct Hr as [_ []]; destruct s.
  - rewrite str_app_cons in Hl, Hr. apply str_le_cons in Hl. apply str_lt_cons in Hr.
    destruct Hl as [?|[? Hl]], Hr as [?|[? Hr]]; subst; try lia.
    destruct (IH s Hl Hr) as [x ->]. by exists x.
Qed.

Lemma encode_range_bad b : ¬ bad_range b → ¬ bad_range (encode_range b).
Proof.
  assert (∀ k : K, key_lt (encode_key k) (PREFIX K +:+ String (byte 48) EmptyString)) as Hr.
  { intros k. apply str_lt_app, str_lt_cons. by left. }
  assert (∀ k : K, key_le (PREFIX K +:+ String (byte 47) EmptyString) (encode_key k)) as Hl.
  { intros k. apply str_le_app, str_le_cons. right. split; [done|apply str_le_nil]. }
  destruct b as [[l|l|] [r|r|]]; cbn [bad_range encode_range encode_bound fst snd];
    rewrite ?encode_key_le; intros Hb; try done.
  - intros []. apply key_lt_le, Hr.
  - apply key_lt_not_le, Hr.
  - intros []. apply Hl.
  - intros []. apply Hl.
  - intros []. apply str_le_app, str_le_cons. by left.
Qed.
End keys.

(** ** Values *)

Section values.
Context {raft : OpenRaft} {rb : RotblLib} `{!RotblLaws rb} {sl : SerdeLib raft} `{!SerdeLaws sl}.

(** What a value must satisfy to be read back: a Rust [String] is UTF-8. *)
Class MapValueLaws (K V : Type) `{!MapValue K V} := {
  val_ok : V → Prop;
  val_roundtrip : ∀ (m : Marked V) x,
    (∀ v, marked_value m = Some v → val_ok v) → val_encode (K := K) m = Ok x →
    val_decode (K := K) x = Ok m;
  val_version : ∀ (m : Marked V) x,
    val_decode (K := K) x = Ok m → sqm_version x = order_key m;
}.

Lemma seq_marked_roundtrip m x :
  seq_marked_of_marked m = Ok x → marked_of_seq_marked x = Ok m.
Proof.
  unfold marked_of_seq_marked. destruct m as [s|s v mt]; cbn.
  { intros [= <-]. by rewrite sqm_data_tombstone, sqm_seq_tombstone. }
  destruct (json_of_meta mt) as [j|] eqn:Ej; [|done].
  destruct (bincode_encode (1, j, v)) as [d|] eqn:Ed; [|done].
  intros [= <-]. rewrite sqm_data_normal, sqm_seq_normal.
  rewrite (bincode_roundtrip _ _ Ed), (json_meta_roundtrip _ _ Ej). cbn.
  by rewrite Nat.eqb_refl.
Qed.

Lemma seq_marked_version m x : marked_of_seq_marked x = Ok m → sqm_version x = order_key m.
Proof.
  unfold marked_of_seq_marked, sqm_version. rewrite sqm_normal_data.
  destruct (sqm_into_data x) as [d|]; [|by intros [= <-]].
  destruct (bincode_decode d) as [[[[ver j] v] size]|]; [|done].
  destruct (negb _); [done|]. destruct (negb _); [done|].
  destruct (meta_of_json j); [|done]. by intros [= <-].
Qed.

#[export, refine] Instance kv_value_laws : MapValueLaws string bytes := {| val_ok _ := True |}.
Proof.
  - intros m x _. apply seq_marked_roundtrip.
  - apply seq_marked_version.
Defined.

#[export, refine] Instance expire_value_laws : MapValueLaws ExpireKey string :=
  {| val_ok v := is_utf8 v = true |}.
Proof.
  - intros m x Hv. cbn. unfold seq_marked_of_marked_string, marked_string_of_seq_marked.
    intros ->%seq_marked_roundtrip. destruct m as [s|s v mt]; [done|].
    cbn. unfold from_utf8. by rewrite (Hv v eq_refl).
  - intros m x. cbn. unfold marked_string_of_seq_marked.
    destruct (marked_of_seq_marked x) as [m'| |] eqn:E; [|done..].
    apply seq_marked_version in E as ->. destruct m' as [s|s v mt]; cbn; [by intros [= <-]|].
    destruct (from_utf8 v); [|done]. by intros [= <-].
Defined.

(** ** A table as a level *)

Section db.
Context `{OrdKey K, !MapKey K, !MapKeyLaws K} {V : Type} `{!MapValue K V}.
Implicit Types (k : K) (s : string) (x : SeqMarked) (g : gmap string SeqMarked).

(** The entry of the key space that a table entry holds. *)
Definition db_entry (e : string * SeqMarked) : option (K * Marked V) :=
  match decode_key e.1, val_decode (K := K) e.2 with
  | Ok k, Ok m => Some (k, m)
  | _, _ => None
  end.

(** The entries of the key space are readable. *)
Definition space_ok g : Prop :=
  ∀ s x, g !! s = Some x → in_space (K := K) s →
    ∃ k m, s = encode_key k ∧ val_decode (K := K) (V := V) x = Ok m.

Lemma db_entry_Some g s x k m :
  space_ok g → g !! s = Some x → db_entry (s, x) = Some (k, m) →
  s = encode_key k ∧ val_decode (K := K) x = Ok m.
Proof.
  unfold db_entry. cbn [fst snd]. intros Hok Hx.
  destruct (decode_key s) as [k'| |] eqn:Ek; [|done..].
  destruct (val_decode x) as [m'| |] eqn:Em; [|done..]. intros [= <- <-].
  destruct (Hok s x Hx (decode_key_in_space s k' Ek)) as (k'' & m'' & -> & _).
  rewrite decode_encode_key in Ek. by injection Ek as <-.
Qed.

Lemma db_entry_encode k x m :
  val_decode (K := K) x = Ok m → db_entry (encode_key k, x) = Some (k, m).
Proof. intros Hm. unfold db_entry. cbn [fst snd]. by rewrite decode_encode_key, Hm. Qed.

(** Decoding keeps the order of the entries. *)
Lemma db_entries_sorted g (l : list (string * SeqMarked)) :
  space_ok g → (∀ s x, (s, x) ∈ l → g !! s = Some x) →
  StronglySorted klt l → StronglySorted klt (omap db_entry l).
Proof.
  intros Hok Hg. induction 1 as [|[s x] l Hl IH Hx]; [constructor|]. cbn.
  assert (StronglySorted klt (omap db_entry l)) as Hl'
    by (apply IH; intros; apply Hg; by right).
  destruct (db_entry (s, x)) as [[k m]|] eqn:E; [|done].
  apply (db_entry_Some g) in E as [-> _]; [|done|apply Hg; left].
  constructor; [done|]. rewrite Forall_forall in Hx. apply Forall_forall.
  intros [k' m'] ([s' x'] & Hin & E')%list_elem_of_omap.
  apply (db_entry_Some g) in E' as [-> _]; [|done|apply Hg; by right].
  apply encode_key_lt, (Hx _ Hin).
Qed.

Lemma elem_of_db_entries g (l : list (string * SeqMarked)) k m :
  space_ok g → (∀ s x, (s, x) ∈ l → g !! s = Some x) →
  (k, m) ∈ omap db_entry l ↔ ∃ x, (encode_key k, x) ∈ l ∧ val_decode (K := K) x = Ok m.
Proof.
  intros Hok Hg. rewrite list_elem_of_omap. split.
  - intros ([s x] & Hin & E). apply (db_entry_Some g) in E as [-> ?]; eauto.
  - intros (x & Hin & Hm). exists (encode_key k, x). auto using db_entry_encode.
Qed.

(** The content of the key space. *)
Definition space_map g : gmap K (Marked V) := list_to_map (omap db_entry (btree_iter g)).

Lemma space_map_lookup g k m :
  space_ok g →
  space_map g !! k = Some m ↔ ∃ x, g !! encode_key k = Some x ∧ val_decode (K := K) x = Ok m.
Proof.
  intros Hok. unfold space_map.
  assert (∀ s x, (s, x) ∈ btree_iter g → g !! s = Some x) as Hg
    by (intros; by apply elem_of_btree_iter).
  rewrite <-elem_of_list_to_map.
  - rewrite (elem_of_db_entries g) by done. by setoid_rewrite elem_of_btree_iter.
  - eapply (sorted_kv_NoDup_fst key_le), (db_entries_sorted g); auto using btree_iter_sorted.
Qed.

Definition db_ok (db : DB) : Prop :=
  rotbl_ok (db_rotbl db) ∧ space_ok (rotbl_content (db_rotbl db)).
Definition db_view (db : DB) : gmap K (Marked V) := space_map (rotbl_content (db_rotbl db)).

Lemma db_get_spec db k : db_ok db → db_get db k = Ok (default marked_empty (db_view db !! k)).
Proof.
  intros [Hr Hok]. unfold db_get. rewrite rotbl_get_spec by done. cbn [mbind Outcome_bind].
  destruct (rotbl_content (db_rotbl db) !! encode_key k) as [x|] eqn:Ex.
  - destruct (Hok _ _ Ex (encode_key_in_space k)) as (k' & m & E & Hm).
    rewrite Hm. unfold db_view. by rewrite (proj2 (space_map_lookup _ k m Hok)) by eauto.
  - unfold db_view. destruct (space_map _ !! k) as [m|] eqn:Em; [|done].
    apply space_map_lookup in Em as (x & ? & _); [congruence|done].
Qed.

Lemma db_range_spec db b :
  db_ok db → ¬ bad_range b → db_range db b = Ok (Ok <$> range_list (db_view db) b).
Proof.
  intros [Hr Hok] Hb. unfold db_range.
  rewrite rotbl_range_spec; [|done|by apply encode_range_bad].
  set (g := rotbl_content (db_rotbl db)) in *.
  assert (∀ s x, (s, x) ∈ range_list g (encode_range b) →
    g !! s = Some x ∧ in_bounds (encode_range b) s) as Hg
    by (intros s x; apply elem_of_range_list).
  f_equal. trans ((Ok : _ → Outcome (K * Marked V)) <$> omap db_entry (range_list g (encode_range b))).
  - clear Hr. induction (range_list g (encode_range b)) as [|[s x] l IH]; [done|].
    destruct (Hg s x) as [Hx Hin]; [left|].
    destruct (Hok s x Hx (encode_range_in_space b s Hin)) as (k & m & -> & Hm).
    rewrite !fmap_cons, IH by (intros; apply Hg; by right). cbn [omap list_omap].
    rewrite (db_entry_encode k x m Hm). cbn. by rewrite decode_encode_key, Hm.
  - f_equal. apply range_list_unique.
    + apply (db_entries_sorted g); [done|by intros; apply Hg|apply range_list_sorted].
    + intros k m. rewrite (elem_of_db_entries g); [|done|by intros; apply Hg].
      unfold db_view. fold g. rewrite space_map_lookup by done.
      setoid_rewrite elem_of_range_list. setoid_rewrite encode_range_exact. naive_solver.
Qed.

#[export, refine] Instance db_ro_view : ROView DB K V := {| ro_view := db_view; ro_wf := db_ok |}.
Proof.
  - intros db k. apply db_get_spec.
  - intros db b. apply db_range_spec.
Defined.
End db.
End values.
