(* ===== verification/Compaction.v ===== *)
(** Compaction (raft-store/src/leveled_store/leveled_map/compacting_data.rs,
    util.rs, sm_v003/writer_v003.rs, and do_build_snapshot of
    service/src/store/store_inner.rs): merge the frozen levels and the
    persisted table into a new table without tombstones. *)

From stdpp Require Import base orders sorting strings gmap numbers list.
From S2P Require Import Prelude BTree RustStr External ExpireKey MetaTypes Marked Stack MapApi Level.
From S2P Require Import StateMap LeveledMap RotblLib Rotbl.
Local Open Scope N_scope.

Section compaction.
Context {raft : OpenRaft} {sm : StreamMore} {rb : RotblLib} {sl : SerdeLib raft}.

(** ** Comparing and merging table entries *)

Definition rotbl_entry_leb (x y : string * SeqMarked) : bool :=
  bool_decide (key_lt x.1 y.1) || (bool_decide (x.1 = y.1) && sqm_order_leb x.2 y.2).

Definition rotbl_by_key_seq (r1 r2 : Outcome (string * SeqMarked)) : option bool :=
  match r1, r2 with
  | Ok x, Ok y => Some (rotbl_entry_leb x y)
  | _, _ => Some true
  end.

Definition seq_marked_max (a b : SeqMarked) : SeqMarked := if sqm_seq b <? sqm_seq a then a else b.

Definition rotbl_choose_greater (r1 r2 : Outcome (string * SeqMarked)) :
    Outcome (string * SeqMarked) + Outcome (string * SeqMarked) * Outcome (string * SeqMarked) :=
  match r1, r2 with
  | Ok (k1, v1), Ok (k2, v2) =>
      if decide (k1 = k2) then inl (Ok (k1, seq_marked_max v1 v2)) else inr (r1, r2)
  | _, _ => inr (r1, r2)
  end.

(** ** [CompactingData] *)

(** [try_collect]. *)
Fixpoint try_collect {A} (strm : Stream A) : Outcome (list A) :=
  match strm with
  | [] => Ok []
  | item :: strm => x ← item; l ← try_collect strm; Ok (x :: l)
  end.

(** Merge the frozen levels into one and keep the tombstones; [uniq] is the
    identifier of the new level. *)
Definition compact_immutable_in_place (uniq : N) : M ImmutableLevels unit :=
  ls ← get_st;
  match newest ls with
  | None => mret tt
  | Some newest =>
      let data := new_level (imm_level newest) in
      strm ← lift (ro_range (K := ExpireKey) (V := string) ls bounds_full);
      bt ← lift (try_collect strm);
      let data := replace_expire (btree_collect bt) data in
      strm ← lift (ro_range (K := string) (V := bytes) ls bounds_full);
      bt ← lift (try_collect strm);
      let data := replace_kv (btree_collect bt) data in
      put_st {| levels := [immutable_new uniq data] |}
  end.

Definition encode_item {K V} `{!MapKey K, !MapValue K V} (item : Outcome (K * Marked V)) :
    Outcome (string * SeqMarked) :=
  '(k, v) ← item; encode_key_seq_marked k v.

(** [try_filter(is_normal)]: errors pass. *)
Definition keeps_item (item : Outcome (string * SeqMarked)) : bool :=
  match item with Ok (_, v) => sqm_is_normal v | _ => true end.
Definition filter_normal (strm : Stream (string * SeqMarked)) : Stream (string * SeqMarked) :=
  filter (λ item, keeps_item item = true) strm.

Definition compact (ls : ImmutableLevels) (db : option DB) :
    Outcome (SysData * Stream (string * SeqMarked)) :=
  match newest ls with
  | None => Panic
  | Some d =>
      let sd := sys_data (imm_level d) in
      strm ← ro_range (K := ExpireKey) (V := string) ls bounds_full;
      let expire_strm := encode_item (V := string) <$> strm in
      strm ← ro_range (K := string) (V := bytes) ls bounds_full;
      let kv_strm := encode_item (V := bytes) <$> strm in
      let strm := expire_strm ++ kv_strm in
      let merged := kmerge rotbl_by_key_seq ([strm] ++ (inner_range <$> option_list db)) in
      Ok (sd, filter_normal (coalesce rotbl_choose_greater merged))
  end.

(** [Compactor::compact]. *)
Definition compactor_compact (c : Compactor DB) : Outcome (SysData * Stream (string * SeqMarked)) :=
  compact (comp_levels c) (comp_db c).

(** ** Writing a snapshot *)

(** [WriterV003::write_kv_stream]: the writer thread appends the entries it
    receives and flushes at the end of the stream. *)
Definition write_kv_stream (b : RotblBuilder) (strm : Stream (string * SeqMarked)) (d : SysData) :
    Outcome Rotbl :=
  b ← append_kv_stream b strm; db_builder_flush b d.

(** The first step of [do_build_snapshot], under the lock of the state machine:
    freeze the writable level and take the compactor.  Waiting for an earlier
    compactor keeps the lock. *)
Definition snapshot_begin (uniq : N) (chan : nat) (m : LeveledMap DB) :
    LeveledMap DB * Compactor DB :=
  acquire_compactor chan (freeze_writable uniq m).

(** The second step, without the lock: compact, write, and open the table. *)
Definition snapshot_write (c : Compactor DB) (b : RotblBuilder) (path id : string) : Outcome DB :=
  '(d, strm) ← compactor_compact c;
  r ← write_kv_stream b strm d;
  db_new path id r.

(** The last step, under the lock again. *)
Definition snapshot_finish (c : Compactor DB) (db : DB) : M (LeveledMap DB) unit :=
  replace_with_compacted c db.
End compaction.
