(* ===== verification/CompactionProofs.v ===== *)
(** Compaction keeps the data: the stream it produces is the content of the
    frozen levels and the old table without the tombstones, and installing the
    table built from it does not change what can be read. *)

From stdpp Require Import base orders sorting strings gmap numbers list.
From S2P Require Import Prelude BTree RustStr External ExpireKey MetaTypes Marked Stack MapApi Level.
From S2P Require Import StateMap LeveledMap LeveledMapProofs RotblLib Rotbl RotblProofs Compaction.
Local Open Scope N_scope.

(** The entries that are not tombstones. *)
Definition normal_only `{Countable K} {V} (g : gmap K (Marked V)) : gmap K (Marked V) :=
  filter (λ e, is_normal e.2 = true) g.

Section compaction.
Context {raft : OpenRaft} {sm : StreamMore} `{!StreamMoreLaws sm}.
Context {rb : RotblLib} `{!RotblLaws rb} {sl : SerdeLib raft} `{!SerdeLaws sl, !SerdeTotal sl}.

(** ** Table entries as versions *)

#[export, refine] Instance seq_marked_entry : Entry SeqMarked := {|
  version := sqm_version;
  fresher a b := st_le (sqm_version b) (sqm_version a) ∧ (sqm_version a = sqm_version b → a = b);
|}.
Proof.
  - by intros a b [].
  - intros a b [_ Heq]. done.
Defined.

Lemma sqm_tombstone_inj x y :
  sqm_version x = sqm_version y → st_tombstone (sqm_version x) = true → x = y.
Proof.
  unfold sqm_version. cbn. rewrite !sqm_normal_data. intros [= Hs Hn] Ht.
  rewrite (sqm_eta x), (sqm_eta y), Hs.
  destruct (sqm_into_data x), (sqm_into_data y); done.
Qed.

Lemma rotbl_compares (gs : list (gmap string SeqMarked)) b :
  compares_by rotbl_by_key_seq out_le (level_stream b <$> gs).
Proof.
  intros i j si sj x y _ Hi Hj Hx Hy.
  rewrite list_lookup_fmap, fmap_Some in Hi. destruct Hi as (gi & _ & ->).
  rewrite list_lookup_fmap, fmap_Some in Hj. destruct Hj as (gj & _ & ->).
  apply list_elem_of_fmap in Hx as (a & -> & _). apply list_elem_of_fmap in Hy as (c & -> & _).
  cbn. unfold rotbl_entry_leb. f_equal. rewrite sqm_order_leb_spec.
  apply eq_bool_prop_intro. rewrite bool_decide_spec. unfold entry_le.
  rewrite orb_True, andb_True, !bool_decide_spec. cbn. unfold st_le.
  by rewrite Is_true_true.
Qed.

Lemma rotbl_choose_newer : chooses_newer (K := string) rotbl_choose_greater.
Proof.
  split.
  - intros k x y Hle. cbn. rewrite decide_True by done. unfold seq_marked_max.
    destruct (N.ltb_spec (sqm_seq y) (sqm_seq x)); [|done].
    apply st_le_alt in Hle. cbn in Hle. lia.
  - intros k1 x k2 y Hne. cbn. by rewrite decide_False.
Qed.

(** ** Encoding a level *)

Section encode.
Context `{OrdKey K, !MapKey K, !MapKeyLaws K} {V : Type} `{!MapValue K V, !MapValueLaws K V}.
Context (val_total : ∀ m : Marked V, ∃ x, val_encode (K := K) m = Ok x).
Implicit Types (g : gmap K (Marked V)) (E : gmap string SeqMarked).

(** The entries of [g] in a table. *)
Definition encodes g E : Prop :=
  (∀ k x, E !! encode_key k = Some x ↔ ∃ m, g !! k = Some m ∧ val_encode (K := K) m = Ok x) ∧
  (∀ s x, E !! s = Some x → in_space (K := K) s → ∃ k, s = encode_key (K := K) k).

Lemma encode_stream g :
  ∃ l, encode_item <$> (Ok <$> btree_iter g) = Ok <$> l ∧ StronglySorted klt l ∧
    (∀ s x, (s, x) ∈ l ↔ ∃ k m, s = encode_key k ∧ g !! k = Some m ∧ val_encode (K := K) m = Ok x).
Proof.
  setoid_rewrite <-elem_of_btree_iter. pose proof (btree_iter_sorted g) as Hs.
  induction Hs as [|[k m] l Hl IH Hx].
  { exists []. split; [done|]. split; [constructor|]. intros s x.
    rewrite elem_of_nil. split; [done|]. intros (k & m & _ & []%elem_of_nil & _). }
  destruct IH as (l' & He & Hs' & Hel), (val_total m) as [x Hx'].
  exists ((encode_key k, x) :: l'). rewrite !fmap_cons, He. cbn.
  unfold encode_key_seq_marked. rewrite Hx'. split; [done|]. split.
  - constructor; [done|]. apply Forall_forall.
    intros [s' x''] (k' & m' & -> & Hin & _)%Hel. rewrite Forall_forall in Hx.
    apply encode_key_lt, (Hx _ Hin).
  - intros s y. rewrite elem_of_cons, Hel. split.
    + intros [[= -> ->]|(k' & m' & ? & ? & ?)].
      * exists k, m. split; [done|]. split; [left|done].
      * exists k', m'. split; [done|]. split; [by right|done].
    + intros (k' & m' & -> & [[= -> ->]|?]%elem_of_cons & Hy); [left; congruence|].
      right. eauto.
Qed.

(** The table [E] on top of the table [D], without tombstones, holds [g] on top
    of what [D] holds, without tombstones. *)
Definition merged_table E (D : gmap string SeqMarked) : gmap string SeqMarked :=
  filter (λ e, sqm_is_normal e.2 = true) (E ∪ D).

Lemma merged_lookup E D s x :
  merged_table E D !! s = Some x ↔ (E ∪ D) !! s = Some x ∧ sqm_is_normal x = true.
Proof. apply map_lookup_filter_Some. Qed.

Lemma decode_normal x (m : Marked V) :
  val_decode (K := K) x = Ok m → sqm_is_normal x = is_normal m.
Proof.
  intros Hv%val_version. apply (f_equal st_tombstone) in Hv. cbn in Hv.
  destruct m; cbn in *; destruct (sqm_is_normal x); done.
Qed.

Lemma encodes_decode g E k x :
  (∀ k m v, g !! k = Some m → marked_value m = Some v → val_ok (K := K) v) →
  encodes g E → E !! encode_key k = Some x →
  ∃ m, g !! k = Some m ∧ val_decode (K := K) x = Ok m.
Proof.
  intros Hval [He _] (m & Hm & Hx)%He. exists m. split; [done|].
  by apply val_roundtrip; [eauto|].
Qed.

Lemma merged_space_ok g E D :
  (∀ k m v, g !! k = Some m → marked_value m = Some v → val_ok (K := K) v) →
  encodes g E → space_ok (K := K) (V := V) D → space_ok (K := K) (V := V) (merged_table E D).
Proof.
  intros Hval He HD s x [Hx _]%merged_lookup Hin.
  apply lookup_union_Some_raw in Hx as [Hx|[_ Hx]]; [|by apply HD].
  destruct (proj2 He s x Hx Hin) as [k ->].
  destruct (encodes_decode g E k x Hval He Hx) as (m & _ & ?). eauto.
Qed.

Lemma merged_space_map g E D :
  (∀ k m v, g !! k = Some m → marked_value m = Some v → val_ok (K := K) v) →
  encodes g E → space_ok (K := K) (V := V) D →
  space_map (merged_table E D) = normal_only (g ∪ space_map (K := K) D).
Proof.
  intros Hval He HD. apply map_eq. intros k. apply option_eq. intros m.
  rewrite space_map_lookup by eauto using merged_space_ok.
  unfold normal_only. rewrite map_lookup_filter_Some. cbn.
  setoid_rewrite merged_lookup. rewrite lookup_union_Some_raw. setoid_rewrite lookup_union_Some_raw.
  assert (g !! k = None ↔ E !! encode_key k = None) as Hnone.
  { destruct (E !! encode_key k) as [x|] eqn:Ex.
    - destruct (encodes_decode g E k x Hval He Ex) as (m' & -> & _). done.
    - split; [done|]. intros _. destruct (g !! k) as [m'|] eqn:Em; [|done].
      destruct (val_total m') as [x Hx].
      assert (E !! encode_key k = Some x) by (apply He; eauto). congruence. }
  split.
  - intros (x & [[Hx|[HE Hx]] Hn] & Hm).
    + destruct (encodes_decode g E k x Hval He Hx) as (m' & Hg & Hm').
      rewrite Hm in Hm'. injection Hm' as <-. rewrite <-(decode_normal x m) by done. auto.
    + rewrite Hnone, space_map_lookup by done. rewrite <-(decode_normal x m) by done. eauto 6.
  - intros [[Hg|[Hg (x & Hx & Hm)%space_map_lookup]] Hn]; [..|done].
    + destruct (val_total m) as [x Hx].
      assert (E !! encode_key k = Some x) as HE by (apply He; eauto).
      destruct (encodes_decode g E k x Hval He HE) as (m' & Hg' & Hm').
      rewrite Hg in Hg'. injection Hg' as <-. exists x. rewrite (decode_normal x m) by done. auto.
    + exists x. rewrite (decode_normal x m), <-Hnone by done. auto.
Qed.

(** A frozen level over the table is an ordered stack of tables. *)
Lemma encoded_fresher g E D k x y :
  (∀ k m v, g !! k = Some m → marked_value m = Some v → val_ok (K := K) v) →
  encodes g E → space_ok (K := K) (V := V) D → newer_level g (space_map (K := K) D) →
  E !! encode_key k = Some x → D !! encode_key k = Some y → fresher x y.
Proof.
  intros Hval He HD Hnew Hx Hy.
  destruct (encodes_decode g E k x Hval He Hx) as (m & Hm & Hdm).
  destruct (HD _ _ Hy (encode_key_in_space k)) as (k' & m' & Ek & Hdm').
  assert (space_map (K := K) D !! k = Some m') as Hm' by (apply space_map_lookup; eauto).
  destruct (Hnew k m m' Hm Hm') as [Hle Heq].
  apply val_version in Hdm, Hdm'. cbn. rewrite Hdm, Hdm'. split; [done|].
  intros Ho. destruct (Heq Ho) as [Ht _].
  apply sqm_tombstone_inj; [congruence|]. rewrite Hdm. by destruct m.
Qed.
End encode.

(** ** The stream of a compactor *)

Lemma kv_val_total (m : Marked bytes) : ∃ x, val_encode (K := string) m = Ok x.
Proof.
  destruct m as [s|s v mt]; cbn; [by eexists|].
  destruct (json_meta_total mt) as [j ->], (bincode_total (1, j, v)) as [d ->]. by eexists.
Qed.

Lemma expire_val_total (m : Marked string) : ∃ x, val_encode (K := ExpireKey) m = Ok x.
Proof. apply (kv_val_total (marked_bytes_of_string m)). Qed.

Lemma spaces_disjoint s : in_space (K := ExpireKey) s → in_space (K := string) s → False.
Proof. intros [x ->] [y E]. discriminate E. Qed.

Lemma expire_kv_table (ge : gmap ExpireKey (Marked string)) (gk : gmap string (Marked bytes)) :
  ∃ E, (encode_item (V := string) <$> (Ok <$> btree_iter ge)) ++
       (encode_item (V := bytes) <$> (Ok <$> btree_iter gk)) = level_stream bounds_full E ∧
    encodes ge E ∧ encodes gk E ∧
    (∀ s x, E !! s = Some x →
      (∃ k : ExpireKey, s = encode_key k) ∨ (∃ k : string, s = encode_key k)).
Proof.
  destruct (encode_stream expire_val_total ge) as (l1 & -> & Hs1 & Hel1).
  destruct (encode_stream kv_val_total gk) as (l2 & -> & Hs2 & Hel2).
  assert (StronglySorted klt (l1 ++ l2)) as Hs.
  { apply StronglySorted_app_2; [|done..]. intros [s1 x1] [s2 x2].
    intros (k1 & m1 & -> & _)%Hel1 (k2 & m2 & -> & _)%Hel2.
    unfold kv_lt, encode_key. cbn [fst]. apply str_lt_alt. by intros Hle. }
  set (E := list_to_map (l1 ++ l2) : gmap string SeqMarked).
  assert (∀ s x, E !! s = Some x ↔ (s, x) ∈ l1 ∨ (s, x) ∈ l2) as HE.
  { intros s x. rewrite <-elem_of_app. symmetry. apply elem_of_list_to_map.
    by eapply (sorted_kv_NoDup_fst key_le). }
  exists E. split; [|split; [split|split; [split|]]].
  - unfold level_stream. rewrite range_list_full, <-fmap_app. f_equal.
    apply btree_iter_unique; [done|]. intros s x. by rewrite HE, elem_of_app.
  - intros k x. rewrite HE, Hel1, Hel2. split.
    + intros [(k' & m & ->%encode_key_inj & ? & ?)|(k' & m & Hk & _)]; [eauto|].
      exfalso. apply (spaces_disjoint (encode_key k)); [by eexists|]. rewrite Hk. by eexists.
    + intros (m & ? & ?). left. eauto.
  - intros s x Hx Hin. apply HE in Hx as [(k & m & -> & _)%Hel1|(k & m & -> & _)%Hel2]; [eauto|].
    exfalso. apply (spaces_disjoint (encode_key k)); [done|by eexists].
  - intros k x. rewrite HE, Hel1, Hel2. split.
    + intros [(k' & m & Hk & _)|(k' & m & ->%encode_key_inj & ? & ?)]; [|eauto].
      exfalso. apply (spaces_disjoint (encode_key k)); [rewrite Hk; by eexists|by eexists].
    + intros (m & ? & ?). right. eauto.
  - intros s x Hx Hin. apply HE in Hx as [(k & m & -> & _)%Hel1|(k & m & -> & _)%Hel2]; [|eauto].
    exfalso. apply (spaces_disjoint (encode_key k)); [by eexists|done].
  - intros s x [(k & m & -> & _)%Hel1|(k & m & -> & _)%Hel2]%HE; eauto.
Qed.

(** The levels of a compactor, from the newest to the oldest. *)
Section compactor_maps.
Context `{OrdKey K, !MapKey K, !MapKeyLaws K} {V : Type} `{!MapValue K V, !MapValueLaws K V}.
Context `{!LevelMap K V}.
Implicit Types c : Compactor DB.

Definition imm_maps c : list (gmap K (Marked V)) := ro_view <$> iter_immutable_levels (comp_levels c).
Definition comp_maps c : list (gmap K (Marked V)) := imm_maps c ++ (ro_view <$> option_list (comp_db c)).

Record comp_ok c : Prop := {
  comp_db_ok : Forall (ro_wf (K := K) (V := V)) (option_list (comp_db c));
  comp_ordered : levels_ordered (comp_maps c);
  comp_values : ∀ k m v, stack (comp_maps c) !! k = Some m → marked_value m = Some v → val_ok (K := K) v;
}.

Definition comp_table c : gmap string SeqMarked := stack ((λ db, rotbl_content (db_rotbl db)) <$> option_list (comp_db c)).

Lemma levels_ordered_app (l1 l2 : list (gmap K (Marked V))) :
  levels_ordered (l1 ++ l2) →
  levels_ordered l1 ∧ levels_ordered l2 ∧ newer_level (stack l1) (stack l2).
Proof.
  intros Ho. apply StronglySorted_app in Ho as (Hlt & H1 & H2). split; [done|]. split; [done|].
  intros k a b (g1 & Hg1 & Ha)%stack_lookup_Some (g2 & Hg2 & Hb)%stack_lookup_Some.
  by apply (Hlt g1 g2 Hg1 Hg2 k).
Qed.

Lemma comp_space_ok c : comp_ok c → space_ok (K := K) (V := V) (comp_table c).
Proof.
  intros [Hdb _ _]. unfold comp_table. destruct (comp_db c) as [db|]; cbn.
  - apply Forall_cons in Hdb as [[_ Hok] _]. by rewrite stack_cons, stack_nil, (right_id_L ∅ (∪)).
  - intros s x. by rewrite stack_nil, lookup_empty.
Qed.

Lemma comp_space_map c :
  stack (ro_view <$> option_list (comp_db c)) = space_map (K := K) (V := V) (comp_table c).
Proof.
  unfold comp_table. destruct (comp_db c) as [db|]; cbn.
  - by rewrite !stack_cons, !stack_nil, !(right_id_L ∅ (∪)).
  - rewrite !stack_nil. unfold space_map. rewrite <-(btree_iter_unique ∅ []); [done|constructor|].
    intros k v. by rewrite lookup_empty, elem_of_nil.
Qed.

Lemma imm_range_spec c :
  levels_ordered (imm_maps c) →
  ro_range (K := K) (V := V) (comp_levels c) bounds_full = Ok (Ok <$> btree_iter (stack (imm_maps c))).
Proof.
  intros Ho. rewrite <-range_list_full.
  pose proof (compacted_range_spec (TOP := Level) (PL := Level) bounds_full None
    (iter_immutable_levels (comp_levels c)) []) as Hr.
  cbn [option_list] in Hr. rewrite fmap_nil in Hr. rewrite app_nil_l, app_nil_r in Hr.
  apply Hr; [by intros []|constructor|apply all_immutable_wf|constructor|done].
Qed.
End compactor_maps.

Lemma filter_normal_spec (g : gmap string SeqMarked) :
  filter_normal (Ok <$> btree_iter g) =
    Ok <$> btree_iter (filter (λ e, sqm_is_normal e.2 = true) g).
Proof.
  rewrite <-(btree_iter_unique (filter _ g)
    (filter (λ e, sqm_is_normal e.2 = true) (btree_iter g))).
  - unfold filter_normal. induction (btree_iter g) as [|[k x] l IH]; [done|].
    rewrite fmap_cons, !filter_cons. cbn [keeps_item snd].
    case_decide; [by rewrite fmap_cons, <-IH|done].
  - apply sorted_kv_filter, btree_iter_sorted.
  - intros k x. rewrite list_elem_of_filter, elem_of_btree_iter, map_lookup_filter_Some. naive_solver.
Qed.

Lemma tables_ordered c E (D : gmap string SeqMarked) :
  comp_ok (K := ExpireKey) (V := string) c → comp_ok (K := string) (V := bytes) c →
  encodes (stack (imm_maps (K := ExpireKey) c)) E →
  encodes (V := bytes) (stack (imm_maps (K := string) c)) E →
  (∀ s x, E !! s = Some x → (∃ k : ExpireKey, s = encode_key k) ∨ (∃ k : string, s = encode_key k)) →
  newer_level E (comp_table c).
Proof.
  intros He Hk Ee Ek Hspace s x y Hx Hy.
  destruct (levels_ordered_app _ _ (comp_ordered c He)) as (_ & _ & Hne).
  destruct (levels_ordered_app _ _ (comp_ordered c Hk)) as (_ & _ & Hnk).
  rewrite (comp_space_map (K := ExpireKey)) in Hne. rewrite (comp_space_map (K := string)) in Hnk.
  destruct (Hspace s x Hx) as [[k ->]|[k ->]].
  - eapply (encoded_fresher (stack (imm_maps c)) E (comp_table c) k); eauto using comp_space_ok.
    intros k' m v Hm. apply (comp_values c He k'). unfold comp_maps.
    rewrite stack_app. by apply lookup_union_Some_l.
  - eapply (encoded_fresher (K := string) (V := bytes) (stack (imm_maps c)) E (comp_table c) k);
      eauto using comp_space_ok. done.
Qed.

Lemma expire_range_spec c :
  levels_ordered (imm_maps (K := ExpireKey) c) →
  ro_range (K := ExpireKey) (V := string) (comp_levels c) bounds_full =
    Ok (Ok <$> btree_iter (stack (imm_maps c))).
Proof. exact (imm_range_spec c). Qed.

Lemma kv_range_spec c :
  levels_ordered (imm_maps (K := string) c) →
  ro_range (K := string) (V := bytes) (comp_levels c) bounds_full =
    Ok (Ok <$> btree_iter (stack (imm_maps c))).
Proof. exact (imm_range_spec (K := string) (V := bytes) c). Qed.

(** What a compactor writes: the content of its levels, tombstones removed. *)
Lemma compact_spec c d :
  newest (comp_levels c) = Some d →
  comp_ok (K := ExpireKey) (V := string) c → comp_ok (K := string) (V := bytes) c →
  ∃ G, compactor_compact c = Ok (sys_data (imm_level d), Ok <$> btree_iter G) ∧
    space_ok (K := ExpireKey) (V := string) G ∧ space_ok (K := string) (V := bytes) G ∧
    space_map (K := ExpireKey) G = normal_only (stack (comp_maps (V := string) c)) ∧
    space_map (K := string) G = normal_only (stack (comp_maps (V := bytes) c)).
Proof.
  intros Hd He Hk.
  destruct (levels_ordered_app _ _ (comp_ordered c He)) as (Hie & _ & _).
  destruct (levels_ordered_app _ _ (comp_ordered c Hk)) as (Hik & _ & _).
  destruct (expire_kv_table (stack (imm_maps c)) (stack (imm_maps c))) as (E & HE & Ee & Ek & Hsp).
  pose proof (tables_ordered c E (comp_table c) He Hk Ee Ek Hsp) as Hnew.
  exists (merged_table E (comp_table c)).
  assert (∀ k m v, stack (imm_maps (K := ExpireKey) c) !! k = Some m →
    marked_value m = Some v → val_ok (K := ExpireKey) v) as Hval.
  { intros k m v Hm. apply (comp_values c He k). unfold comp_maps.
    rewrite stack_app. by apply lookup_union_Some_l. }
  split; [|split; [|split; [|split]]].
  - unfold compactor_compact, compact. rewrite Hd.
    rewrite (expire_range_spec c Hie), (kv_range_spec c Hik).
    unfold mbind, Outcome_bind. rewrite HE. do 2 f_equal.
    assert (inner_range <$> option_list (comp_db c) =
      level_stream bounds_full <$> ((λ db, rotbl_content (db_rotbl db)) <$> option_list (comp_db c))) as ->.
    { destruct (comp_db c) as [db|] eqn:Edb; [|done]. cbn. unfold inner_range.
      pose proof (comp_db_ok c He) as Hok. rewrite Edb in Hok. apply Forall_cons in Hok as [[Hok _] _].
      rewrite rotbl_range_spec; [done|done|by intros []]. }
    rewrite <-list_fmap_singleton, <-fmap_app.
    rewrite merged_stack; [|apply rotbl_choose_newer| |apply rotbl_compares].
    + rewrite range_list_full, filter_normal_spec. done.
    + unfold comp_table in Hnew. destruct (comp_db c) as [db|]; cbn in *.
      * rewrite stack_cons, stack_nil, (right_id_L ∅ (∪)) in Hnew.
        constructor; [repeat constructor|by apply Forall_singleton].
      * repeat constructor.
  - eapply merged_space_ok; eauto using comp_space_ok.
  - eapply merged_space_ok; eauto using comp_space_ok. done.
  - rewrite (merged_space_map expire_val_total (stack (imm_maps c))) by eauto using comp_space_ok.
    unfold comp_maps. by rewrite stack_app, comp_space_map.
  - rewrite (merged_space_map kv_val_total (stack (imm_maps c))) by (done || eauto using comp_space_ok).
    unfold comp_maps. by rewrite stack_app, comp_space_map.
Qed.

(** ** The table that is written *)

Lemma append_stream_spec b l0 l b' :
  builder_content b l0 → StronglySorted klt (l0 ++ l) →
  append_kv_stream b (Ok <$> l) = Ok b' → builder_content b' (l0 ++ l).
Proof.
  revert b l0. induction l as [|[k x] l IH]; intros b l0 Hb Hs.
  { cbn. intros [= <-]. by rewrite app_nil_r. }
  rewrite fmap_cons. cbn. destruct (rotbl_builder_append b k x) as [b1| |] eqn:E; [|done..].
  rewrite cons_middle, app_assoc in *. apply IH; [|done].
  eapply builder_append_spec; [done| |done].
  apply StronglySorted_app_1_l, StronglySorted_app in Hs as (Hlt & _ & _).
  apply Forall_forall. intros y Hy. apply (Hlt y (k, x) Hy). left.
Qed.

Lemma write_spec b (G : gmap string SeqMarked) d r :
  builder_content b [] → write_kv_stream b (Ok <$> btree_iter G) d = Ok r →
  rotbl_ok r ∧ rotbl_content r = G ∧ sys_data_of_json (rotbl_user_data r) = Some d.
Proof.
  intros Hb. unfold write_kv_stream, db_builder_flush.
  destruct (append_kv_stream b _) as [b'| |] eqn:E; cbn; [|done..].
  apply (append_stream_spec b []) in E; [|done|apply btree_iter_sorted].
  destruct (json_of_sys_data d) as [j|] eqn:Ej; [|done].
  intros (Hok & -> & ->)%(builder_commit_spec _ _ _ _ E). split; [done|]. split.
  - apply map_eq. intros k. apply option_eq. intros x. rewrite app_nil_l.
    rewrite <-elem_of_list_to_map; [apply elem_of_btree_iter|].
    apply (sorted_kv_NoDup_fst key_le), btree_iter_sorted.
  - by apply json_sys_data_roundtrip.
Qed.

Lemma snapshot_write_spec c d b path id db :
  newest (comp_levels c) = Some d →
  comp_ok (K := ExpireKey) (V := string) c → comp_ok (K := string) (V := bytes) c →
  builder_content b [] → snapshot_write c b path id = Ok db →
  db_ok (K := ExpireKey) (V := string) db ∧ db_ok (K := string) (V := bytes) db ∧
  db_view (K := ExpireKey) db = normal_only (stack (comp_maps (V := string) c)) ∧
  db_view (K := string) db = normal_only (stack (comp_maps (V := bytes) c)) ∧
  db_sys_data db = sys_data (imm_level d).
Proof.
  intros Hd He Hk Hb. unfold snapshot_write.
  destruct (compact_spec c d Hd He Hk) as (G & -> & Hoe & Hok & Hve & Hvk). cbn [mbind Outcome_bind].
  destruct (write_kv_stream b _ _) as [r| |] eqn:Ew; [|done..].
  apply write_spec in Ew as (Hr & HG & Hsd); [|done].
  cbn. unfold db_new. rewrite Hsd. intros [= <-].
  unfold db_ok, db_view. cbn. rewrite HG. done.
Qed.

(** ** Installing the table *)

Section install.
Context `{OrdKey K, !MapKey K, !MapKeyLaws K} {V : Type} `{!MapValue K V, !MapValueLaws K V}.
Context `{!LevelMap K V}.
Implicit Types (m : LeveledMap DB) (c : Compactor DB).

(** What can be read: the entries that are not tombstones. *)
Definition live (g : gmap K (Marked V)) : gmap K (SeqV V) := omap seqv_of_marked g.

Lemma live_normal_only (g : gmap K (Marked V)) : live (normal_only g) = live g.
Proof.
  apply map_eq. intros k. unfold live, normal_only. rewrite !lookup_omap, map_lookup_filter.
  destruct (g !! k) as [[]|]; done.
Qed.

Lemma live_union_normal (g h : gmap K (Marked V)) : live (g ∪ normal_only h) = live (g ∪ h).
Proof.
  apply map_eq. intros k. unfold live, normal_only. rewrite !lookup_omap, !lookup_union, map_lookup_filter.
  destruct (g !! k) as [[]|], (h !! k) as [[]|]; done.
Qed.

(** The levels of [m] end with those of the compactor. *)
Definition extends_compactor m c (extra : list Immutable) : Prop :=
  levels (immutable_levels m) = levels (comp_levels c) ++ extra ∧ persisted m = comp_db c.

Definition extra_maps (extra : list Immutable) : list (gmap K (Marked V)) := ro_view <$> reverse extra.

Lemma extends_older_maps m c extra :
  extends_compactor m c extra → older_maps (K := K) m = extra_maps extra ++ comp_maps c.
Proof.
  intros [Hl Hp]. unfold older_maps, comp_maps, imm_maps, extra_maps, iter_immutable_levels.
  by rewrite Hl, Hp, reverse_app, fmap_app, app_assoc.
Qed.

Definition install m (extra : list Immutable) (db : DB) : LeveledMap DB := {|
  current_compactor := current_compactor m; writable := writable m;
  immutable_levels := {| levels := extra |}; persisted := Some db;
|}.

Lemma install_spec m c extra db :
  lm_ok (K := K) (V := V) m → extends_compactor m c extra →
  db_ok (K := K) (V := V) db → db_view (K := K) db = normal_only (stack (comp_maps c)) →
  lm_ok (K := K) (V := V) (install m extra db) ∧
  live (lm_view (install m extra db)) = live (lm_view m).
Proof.
  intros [Hp Ho Hw] Hext Hdb Hview.
  assert (lm_maps m = (ro_view (writable m) :: extra_maps extra) ++ comp_maps c) as Hm.
  { unfold lm_maps. by rewrite (extends_older_maps m c extra Hext). }
  assert (lm_maps (install m extra db) =
    (ro_view (writable m) :: extra_maps extra) ++ [normal_only (stack (comp_maps c))]) as Hm'.
  { unfold lm_maps, older_maps, install. cbn. by rewrite <-Hview. }
  rewrite Hm in Ho, Hw. apply Forall_app in Hw as [Hw1 Hw2].
  apply StronglySorted_app in Ho as (Hlt & Ho1 & Ho2).
  split; [split|].
  - apply Forall_singleton. done.
  - rewrite Hm'. apply StronglySorted_app_2; [|done|repeat constructor].
    intros g1 g2 Hg1 ->%list_elem_of_singleton k a b Ha Hb.
    unfold normal_only in Hb. apply map_lookup_filter_Some in Hb as [Hb _].
    apply stack_lookup_Some in Hb as (g & Hg & Hb). by apply (Hlt g1 g Hg1 Hg k).
  - rewrite Hm'. apply Forall_app. split; [done|]. apply Forall_singleton.
    intros k a Ha. unfold normal_only in Ha. apply map_lookup_filter_Some in Ha as [Ha _].
    apply stack_lookup_Some in Ha as (g & Hg & Ha). rewrite Forall_forall in Hw2. by apply (Hw2 g Hg k).
  - unfold lm_view. rewrite Hm, Hm', !stack_app, !stack_cons, stack_nil, (right_id_L ∅ (∪)).
    apply live_union_normal.
Qed.

(** The compactor of a snapshot holds every level of the map. *)
Lemma snapshot_comp_maps uniq chan m :
  comp_maps (K := K) (V := V) (snapshot_begin uniq chan m).2 = lm_maps m.
Proof. pose proof (freeze_maps (K := K) (V := V) uniq m) as Hf. by injection Hf. Qed.
End install.

(** ** What happens to the map while a snapshot is written *)

Inductive map_step : LeveledMap DB → LeveledMap DB → Prop :=
| step_kv m m' (k : string) v o : lm_set (V := bytes) k v m = (m', o) → map_step m m'
| step_expire m m' (k : ExpireKey) v o : lm_set (V := string) k v m = (m', o) → map_step m m'
| step_sys_data m d : map_step m (lm_set_sys_data d m)
| step_freeze m uniq : map_step m (freeze_writable uniq m).

Lemma map_step_extends m m' c extra :
  extends_compactor m c extra → map_step m m' → ∃ extra', extends_compactor m' c extra'.
Proof.
  unfold extends_compactor.
  intros Hext Hs. revert Hext.
  destruct Hs as [? ? k v o (Hi & Hp' & _)%lm_set_frame|? ? k v o (Hi & Hp' & _)%lm_set_frame|? d|? uniq];
    intros [Hl Hp].
  - exists extra. by rewrite Hi, Hp'.
  - exists extra. by rewrite Hi, Hp'.
  - by exists extra.
  - eexists. cbn. rewrite Hl, <-app_assoc. done.
Qed.

Lemma map_steps_extend m m' c extra :
  extends_compactor m c extra → rtc map_step m m' → ∃ extra', extends_compactor m' c extra'.
Proof.
  intros Hext Hs. revert extra Hext. induction Hs as [|m1 m2 m3 H12 _ IH]; [eauto|].
  intros extra Hext. destruct (map_step_extends _ _ _ _ Hext H12) as [extra' ?]. eauto.
Qed.

(** ** The compactor of a snapshot *)

Definition utf8_values (m : LeveledMap DB) : Prop :=
  ∀ k a v, lm_view (K := ExpireKey) (V := string) m !! k = Some a →
    marked_value a = Some v → is_utf8 v = true.

Lemma snapshot_begin_spec uniq chan m m1 c :
  lm_wf m → snapshot_begin uniq chan m = (m1, c) →
  lm_wf m1 ∧ extends_compactor m1 c [] ∧
  newest (comp_levels c) = Some (immutable_new uniq (writable m)) ∧
  since c = Some (imm_index (immutable_new uniq (writable m))) ∧
  lm_view (K := string) (V := bytes) m1 = lm_view m ∧
  lm_view (K := ExpireKey) (V := string) m1 = lm_view m ∧
  stack (comp_maps (K := string) (V := bytes) c) = lm_view m ∧
  stack (comp_maps (K := ExpireKey) (V := string) c) = lm_view m ∧
  (utf8_values m → comp_ok (K := ExpireKey) (V := string) c) ∧
  comp_ok (K := string) (V := bytes) c.
Proof.
  intros [Hk He] Hb.
  assert (c = (snapshot_begin uniq chan m).2) as -> by (by rewrite Hb).
  assert (m1 = (snapshot_begin uniq chan m).1) as -> by (by rewrite Hb).
  destruct (freeze_spec uniq m Hk) as [Hk' Vk], (freeze_spec uniq m He) as [He' Ve].
  pose proof (snapshot_comp_maps (K := string) (V := bytes) uniq chan m) as Mk.
  pose proof (snapshot_comp_maps (K := ExpireKey) (V := string) uniq chan m) as Me.
  split; [|split; [split|]].
  - split; split; [apply Hk'|apply Hk'|apply Hk'|apply He'|apply He'|apply He'].
  - cbn. by rewrite app_nil_r.
  - done.
  - split; [cbn; apply last_snoc|]. split; [cbn; unfold immutable_level_index, newest; cbn; by rewrite last_snoc|].
    split; [exact Vk|]. split; [exact Ve|]. rewrite Mk, Me. split; [done|]. split; [done|].
    split; [intros Hutf|]; split; rewrite ?Mk, ?Me; cbn.
    + apply He.
    + apply He.
    + exact Hutf.
    + apply Hk.
    + apply Hk.
    + done.
Qed.

Lemma snapshot_finish_eval c d m extra db :
  newest (comp_levels c) = Some d → since c = Some (imm_index d) → extends_compactor m c extra →
  snapshot_finish c db m = (install m extra db, Ok tt).
Proof.
  intros Hn Hs [Hl Hp]. unfold snapshot_finish, replace_with_compacted, install.
  unfold newest in Hn. rewrite last_lookup, <-Nat.sub_1_r in Hn. rewrite Hn, Hs.
  rewrite decide_False by (cbn; tauto). m_unfold. rewrite Hl, length_app.
  rewrite decide_False by lia. by rewrite drop_app_length.
Qed.
End compaction.
