(* ===== verification/StoreTheorems.v ===== *)
(** What the leveled store promises: a stack of levels reads and writes as one
    map, freezing and compaction cannot be observed, and the encodings of the
    persisted table are faithful. *)

From stdpp Require Import base orders sorting strings gmap numbers list.
From S2P Require Import Prelude BTree RustStr External ExpireKey MetaTypes Marked Stack MapApi Level.
From S2P Require Import StateMap LeveledMap LeveledMapProofs RotblLib Rotbl RotblProofs.
From S2P Require Import Compaction CompactionProofs.
Local Open Scope N_scope.

Section store.
Context {raft : OpenRaft} {sm : StreamMore} `{!StreamMoreLaws sm}.
Context {rb : RotblLib} `{!RotblLaws rb} {sl : SerdeLib raft} `{!SerdeLaws sl}.
Implicit Types m : LeveledMap DB.

(** C3: Taking a snapshot cannot be observed.  The map is frozen and its
    compactor taken; the compacted table is written while the map goes on being
    written and frozen; then the table replaces the compacted levels.  The last
    step succeeds, keeps the invariant and the system data, and leaves every key
    and every entry of the expiration index as readable as before.  The table
    itself holds what the map held when the snapshot began. *)
Theorem snapshot_transparent `{!SerdeTotal sl} m0 uniq chan m1 c b path id db m2 :
  lm_wf m0 → utf8_values m0 → snapshot_begin uniq chan m0 = (m1, c) →
  builder_content b [] → snapshot_write c b path id = Ok db →
  rtc map_step m1 m2 → lm_wf m2 →
  ∃ m3, snapshot_finish c db m2 = (m3, Ok tt) ∧ lm_wf m3 ∧
    lm_sys_data m3 = lm_sys_data m2 ∧
    live (lm_view (K := string) (V := bytes) m3) = live (lm_view m2) ∧
    live (lm_view (K := ExpireKey) (V := string) m3) = live (lm_view m2) ∧
    live (db_view (K := string) (V := bytes) db) = live (lm_view m0) ∧
    live (db_view (K := ExpireKey) (V := string) db) = live (lm_view m0) ∧
    db_sys_data db = lm_sys_data m0.
Proof.
  intros Hwf Hutf Hb Hbuild Hw Hsteps [Hk2 He2].
  destruct (snapshot_begin_spec _ _ _ _ _ Hwf Hb)
    as (_ & Hext & Hn & Hsince & _ & _ & Sk & Se & Ce & Ck).
  destruct (snapshot_write_spec _ _ _ _ _ _ Hn (Ce Hutf) Ck Hbuild Hw)
    as (Oe & Ok & Ve & Vk & Hsd).
  destruct (map_steps_extend _ _ _ _ Hext Hsteps) as [extra Hext2].
  destruct (install_spec m2 c extra db Hk2 Hext2 Ok Vk) as [Hk3 Lk].
  destruct (install_spec m2 c extra db He2 Hext2 Oe Ve) as [He3 Le].
  exists (install m2 extra db). split; [by eapply snapshot_finish_eval|].
  split; [done|]. split; [done|]. split; [done|]. split; [done|].
  by rewrite Vk, Ve, Sk, Se, !live_normal_only.
Qed.

(** C16: The levels are one map.  Reading a key and reading a range give what the
    stack of levels holds; a write goes to that map under the next sequence
    number and leaves the expiration index alone; a deletion removes the key;
    freezing the writable level changes nothing that can be read. *)
Theorem leveled_map_refines m (k : string) (v : bytes) mt (b : Bounds string) uniq :
  lm_wf m → curr_seq (lm_sys_data m) + 1 < u64_mod → ¬ bad_range b →
  let g := lm_view (K := string) (V := bytes) m in
  let next := Normal (curr_seq (lm_sys_data m) + 1) v mt in
  lm_get m k = Ok (default marked_empty (g !! k)) ∧
  lm_range m b = Ok (Ok <$> range_list g b) ∧
  (∃ m', lm_set k (Some (v, mt)) m = (m', Ok (default marked_empty (g !! k), next)) ∧ lm_wf m' ∧
    lm_view m' = <[k := next]> g ∧
    lm_view (K := ExpireKey) (V := string) m' = lm_view m) ∧
  (∃ m' t, lm_set (V := bytes) k None m = (m', Ok (default marked_empty (g !! k), TombStone t)) ∧ lm_wf m' ∧
    live (lm_view (K := string) (V := bytes) m') = delete k (live g) ∧
    lm_view (K := ExpireKey) (V := string) m' = lm_view m) ∧
  lm_wf (freeze_writable uniq m) ∧ lm_view (freeze_writable uniq m) = g ∧
  lm_view (K := ExpireKey) (V := string) (freeze_writable uniq m) = lm_view m.
Proof.
  intros Hwf Hs Hb g next. destruct Hwf as [Hk He] eqn:E. clear E.
  split; [exact (lm_get_spec m k Hk)|]. split; [exact (lm_range_spec m b Hk Hb)|].
  split; [|split; [|split; [|split]]].
  - destruct (lm_kv_set_Some m k v mt Hwf Hs) as (m' & E & Hwf' & Hv & Hx & _). by exists m'.
  - destruct (@kv_set_None _ _ _ leveled_state_map_laws m k Hwf) as (m' & t & E & Hwf' & Hv & Hx & _).
    exists m', t. split_and!; [exact E|exact Hwf'| |exact Hx].
    destruct Hv as [Hv|[Hv Hn]].
    + etrans; [exact (f_equal live Hv)|]. unfold live. by rewrite omap_insert_None.
    + etrans; [exact (f_equal live Hv)|]. symmetry. apply delete_id. unfold live. rewrite lookup_omap.
      exact (f_equal (λ x, x ≫= seqv_of_marked) Hn).
  - split; by apply freeze_spec.
  - by apply freeze_spec.
  - by apply freeze_spec.
Qed.
End store.

(** ** Compacting the frozen levels in memory *)

Lemma try_collect_Ok {A} (l : list A) : try_collect (Ok <$> l) = Ok l.
Proof. induction l as [|x l IH]; [done|]. rewrite fmap_cons. cbn. by rewrite IH. Qed.

Section in_place.
Context {raft : OpenRaft} {sm : StreamMore} `{!StreamMoreLaws sm}.
Context {rb : RotblLib} `{!RotblLaws rb} {sl : SerdeLib raft} `{!SerdeLaws sl}.
Implicit Types m : LeveledMap DB.

Section one_space.
Context `{OrdKey K, !MapKey K, !MapKeyLaws K} {V : Type} `{!MapValue K V, !MapValueLaws K V} `{!LevelMap K V}.

Lemma merged_maps m i :
  lm_maps (K := K) (V := V) (replace_immutable_levels {| levels := [i] |} m) =
    ro_view (writable m) :: ro_view i :: (ro_view <$> option_list (persisted m)).
Proof. done. Qed.

(** One level in place of those it merges. *)
Lemma merged_level_ok m i :
  lm_ok (K := K) (V := V) m →
  ro_view i = stack (ro_view <$> iter_immutable_levels (immutable_levels m)) →
  lm_ok (K := K) (V := V) (replace_immutable_levels {| levels := [i] |} m) ∧
  lm_view (replace_immutable_levels {| levels := [i] |} m) = lm_view (K := K) (V := V) m.
Proof.
  intros [Hp Ho Hw] Hi. unfold lm_maps, older_maps in Ho, Hw.
  split; [split; [done|..]|]; unfold lm_view; rewrite merged_maps, Hi.
  - apply StronglySorted_inv in Ho as [Ho [Ha1 Ha2]%Forall_app].
    apply StronglySorted_app in Ho as (Hlt & _ & Hps).
    constructor; [constructor; [done|]|constructor; [by apply newer_level_stack|done]].
    apply Forall_forall. intros p Hin k a b (g & Hg & Hk)%stack_lookup_Some. by apply (Hlt g p Hg Hin k).
  - rewrite Forall_cons, Forall_app in Hw. destruct Hw as (Hw & Hims & Hps).
    constructor; [done|]. constructor; [|done].
    intros k a (g & Hg & Hk)%stack_lookup_Some. rewrite Forall_forall in Hims. by apply (Hims g Hg k).
  - unfold lm_maps, older_maps. by rewrite !stack_cons, stack_app.
Qed.

Lemma lm_imm_ordered m c : lm_ok (K := K) (V := V) m → comp_levels c = immutable_levels m →
  levels_ordered (imm_maps (K := K) (V := V) c).
Proof.
  intros [_ Ho _] Hc. apply StronglySorted_inv in Ho as [Ho _]. unfold older_maps in Ho.
  rewrite <-Hc in Ho. by apply levels_ordered_app in Ho as [? _].
Qed.
End one_space.

(** Merging the frozen levels in memory cannot be observed.  It succeeds, at
    most one level is left, and a map with the merged level has the same content,
    tombstones included, and keeps its invariant. *)
Lemma compact_in_place_transparent m uniq :
  lm_wf m →
  ∃ ls, compact_immutable_in_place uniq (immutable_levels m) = (ls, Ok tt) ∧ (length (levels ls) ≤ 1)%nat ∧
    let m' := replace_immutable_levels ls m in
    lm_wf m' ∧ lm_view (K := string) (V := bytes) m' = lm_view m ∧
    lm_view (K := ExpireKey) (V := string) m' = lm_view m.
Proof.
  intros [Hk He]. unfold compact_immutable_in_place. m_unfold.
  destruct (newest (immutable_levels m)) as [d|] eqn:En.
  2: { apply last_None in En. exists (immutable_levels m). rewrite En.
       split; [done|]. split; [cbn; lia|]. by destruct m. }
  set (c := {| guard := 0%nat; comp_levels := immutable_levels m; comp_db := persisted m; since := None |} : Compactor DB).
  change (immutable_levels m) with (comp_levels c).
  rewrite expire_range_spec by by apply (lm_imm_ordered m).
  rewrite kv_range_spec by by apply (lm_imm_ordered m).
  rewrite !try_collect_Ok, !btree_collect_iter.
  set (i := immutable_new uniq _). exists {| levels := [i] |}. split; [done|]. split; [done|].
  destruct (merged_level_ok (K := string) (V := bytes) m i Hk eq_refl) as [Hk' Vk].
  destruct (merged_level_ok (K := ExpireKey) (V := string) m i He eq_refl) as [He' Ve]. done.
Qed.
End in_place.

(** ** Compactors *)

Section compactors.
Context {raft : OpenRaft} {sm : StreamMore} {rb : RotblLib} {sl : SerdeLib raft}.
Implicit Types (m : LeveledMap DB) (c : Compactor DB) (live : gset nat).

(** The map and the channels of the compactors that are not dropped.  A new
    channel is not one of those. *)
Inductive compactor_step : LeveledMap DB * gset nat → LeveledMap DB * gset nat → Prop :=
| step_try m live chan m' c :
    chan ∉ live → try_acquire_compactor live chan m = (m', Some c) →
    compactor_step (m, live) (m', {[guard c]} ∪ live)
| step_busy m live chan m' :
    try_acquire_compactor live chan m = (m', None) → compactor_step (m, live) (m', live)
| step_acquire m live chan m' c :
    chan ∉ live → (∀ rx, current_compactor m = Some rx → rx ∉ live) →
    acquire_compactor chan m = (m', c) → compactor_step (m, live) (m', {[guard c]} ∪ live)
| step_map m live m' : map_step m m' → compactor_step (m, live) (m', live)
| step_drop m live c : compactor_step (m, live) (m, live ∖ {[guard c]})
| step_replace m live c db m' :
    replace_with_compacted c db m = (m', Ok tt) → compactor_step (m, live) (m', live ∖ {[guard c]}).

Definition tracked (s : LeveledMap DB * gset nat) : Prop :=
  ∀ x, x ∈ s.2 → current_compactor s.1 = Some x.

Lemma compactor_step_tracked s s' : compactor_step s s' → tracked s → tracked s'.
Proof.
  intros Hs Ht. destruct Hs as [m live chan m' c Hc E|m live chan m' E|m live chan m' c Hc Hrx E|m live m' E|m live c|m live c db m' E];
    unfold tracked in *; cbn in *.
  - assert (current_compactor m' = Some (guard c) ∧ ∀ rx, current_compactor m = Some rx → rx ∉ live) as [-> Hrx].
    { unfold try_acquire_compactor, new_compactor in E.
      destruct (current_compactor m) as [rx|]; [case_decide|]; simplify_eq; cbn; naive_solver. }
    intros x [?%elem_of_singleton|Hx]%elem_of_union; [by subst|]. by destruct (Hrx x (Ht x Hx)).
  - enough (m' = m) as -> by exact Ht. unfold try_acquire_compactor, new_compactor in E.
    destruct (current_compactor m) as [rx|]; [destruct (decide (rx ∈ live))|]; by simplify_eq.
  - unfold acquire_compactor, new_compactor in E. simplify_eq. cbn. intros x [?%elem_of_singleton|Hx]%elem_of_union; [by subst|].
    by destruct (Hrx x (Ht x Hx)).
  - intros x Hx. rewrite <-(Ht x Hx).
    by destruct E as [? ? ? ? ? (_ & _ & E)%lm_set_frame|? ? ? ? ? (_ & _ & E)%lm_set_frame|? ?|? ?].
  - set_solver.
  - unfold replace_with_compacted in E. case_decide; [done|]. unfold mbind, M_bind, get_st in E.
    case_decide; [done|]. unfold put_st in E. simplify_eq. cbn. set_solver.
Qed.

(** There is one compactor at a time.  Whatever is done to the map and to the
    compactors, at most one of them is alive, and asking for one is refused
    exactly when one is alive. *)
Lemma one_compactor m0 m live chan :
  current_compactor m0 = None → rtc compactor_step (m0, ∅) (m, live) →
  (size live ≤ 1)%nat ∧ ((try_acquire_compactor live chan m).2 = None ↔ live ≠ ∅).
Proof.
  intros H0 Hs. assert (tracked (m, live)) as Ht.
  { refine (rtc_ind_r tracked _ _ _ _ Hs); [set_solver|]. intros s1 s2 _ Hst. by apply compactor_step_tracked. }
  unfold tracked in Ht. cbn in Ht. split.
  - rewrite <-(size_singleton (C := gset nat) (default 0%nat (current_compactor m))).
    apply subseteq_size. intros x Hx. rewrite (Ht x Hx). set_solver.
  - unfold try_acquire_compactor, new_compactor. destruct (current_compactor m) as [rx|].
    + case_decide; cbn; set_solver.
    + cbn. split; [done|]. intros []. set_solver.
Qed.
(** Installing a compacted table only checks the compactor against itself.
    For a compactor of any map [m0], installing its table into any map [m] fails
    exactly when [m] has fewer frozen levels than [m0] had; otherwise that many of
    the oldest levels of [m] are dropped, whether or not they are those of the
    compactor. *)
Lemma replace_checks_count_only chan m0 c db m :
  c = (new_compactor chan m0).2 →
  replace_with_compacted c db m =
    if decide (length (levels (immutable_levels m)) < length (levels (immutable_levels m0)))%nat
    then (m, Panic)
    else ({| current_compactor := current_compactor m; writable := writable m;
             immutable_levels := {| levels := drop (length (levels (immutable_levels m0))) (levels (immutable_levels m)) |};
             persisted := Some db |}, Ok tt).
Proof.
  intros ->. unfold replace_with_compacted. cbn [new_compactor snd comp_levels since].
  rewrite decide_False.
  - unfold mbind, M_bind, get_st. by case_decide.
  - unfold immutable_level_index, newest. rewrite last_lookup, <-Nat.sub_1_r. tauto.
Qed.
End compactors.

(** ** Encodings *)

Section values.
Context {raft : OpenRaft} {rb : RotblLib} `{!RotblLaws rb} {sl : SerdeLib raft} `{!SerdeLaws sl, !SerdeTotal sl}.

(** C37: The keys of the expiration index survive the two encodings, and keep
    their order: as text in the persisted table, where a range of keys selects
    exactly the entries of the range and none of the other key space, and as the
    sixteen bytes of the sled store.  The values of the persisted table are read
    back as they were written, with their sequence numbers and tombstones: those
    of the key-values, and those of the expiration index when they are UTF-8. *)
Theorem persisted_encodings (a b : ExpireKey) (r : Bounds ExpireKey) (k : string) (m : Marked bytes)
    (e : Marked string) :
  (∀ v, marked_value e = Some v → is_utf8 v = true) →
  decode_key (encode_key a) = Ok a ∧
  (key_lt (encode_key a) (encode_key b) ↔ key_lt a b) ∧
  (in_bounds (encode_range r) (encode_key a) ↔ in_bounds r a) ∧
  ¬ in_bounds (encode_range r) (encode_key k) ∧
  ek_de (ek_ser a) = Ok a ∧ (key_lt a b → bytes_lt (ek_ser a) (ek_ser b)) ∧
  (∃ x, seq_marked_of_marked m = Ok x ∧ marked_of_seq_marked x = Ok m ∧ sqm_version x = order_key m) ∧
  (∃ x, seq_marked_of_marked_string e = Ok x ∧ marked_string_of_seq_marked x = Ok e ∧
    sqm_version x = order_key e).
Proof.
  intros He.
  split_and!; [apply decode_encode_key|apply encode_key_lt|apply encode_range_exact| |apply ek_de_ser|apply ek_ser_lt|..].
  - intros Hs%encode_range_in_space. exact (spaces_disjoint _ Hs (encode_key_in_space k)).
  - destruct (kv_val_total m) as [x Hx]. exists x. pose proof (seq_marked_roundtrip m x Hx) as Hr.
    split_and!; [exact Hx|exact Hr|by apply seq_marked_version].
  - destruct (expire_val_total e) as [x Hx]. exists x.
    pose proof (val_roundtrip (K := ExpireKey) e x He Hx) as Hr.
    split_and!; [exact Hx|exact Hr|by apply (val_version (K := ExpireKey))].
Qed.
End values.

(** ** Examples *)

Module Ex.
#[export] Existing Instances nat_raft list_streams list_streams_laws mem_rotbl mem_rotbl_laws.
#[export] Existing Instances text_serde text_serde_laws text_serde_total.

Definition put (k : string) (v : bytes) (m : LeveledMap DB) : LeveledMap DB :=
  (lm_set k (Some (v, None)) m).1.
Definition del (k : string) (m : LeveledMap DB) : LeveledMap DB := (lm_set (V := bytes) k None m).1.

(** A frozen level and a writable level with a tombstone. *)
Definition m0 : LeveledMap DB :=
  del "a" (put "b" "2" (freeze_writable 0 (put "a" "1" leveled_map_default))).
Definition m1 : LeveledMap DB := (snapshot_begin 1 0 m0).1.
Definition c : Compactor DB := (snapshot_begin 1 0 m0).2.
Definition m2 : LeveledMap DB := put "c" "3" m1.
Definition db : DB :=
  match snapshot_write c [] "path" "id" with
  | Ok db => db
  | _ => {| db_path := ""; db_meta := {| snap_last_log_id := None;
              snap_last_membership := stored_membership_default; snapshot_id := "" |};
            db_sys_data := sys_data_default; db_rotbl := (∅, "") |}
  end.

Lemma put_wf k v (m : LeveledMap DB) :
  lm_wf m → curr_seq (lm_sys_data m) + 1 < u64_mod → lm_wf (put k v m).
Proof.
  intros Hwf Hs. destruct (lm_kv_set_Some m k v None Hwf Hs) as (m' & E & Hwf' & _).
  unfold put. by rewrite E.
Qed.

Lemma del_wf k (m : LeveledMap DB) : lm_wf m → lm_wf (del k m).
Proof.
  intros Hwf.
  destruct (@kv_set_None _ _ _ leveled_state_map_laws m k Hwf) as (m' & t & E & Hwf' & _).
  unfold del. change (lm_set (V := bytes) k None m = (m', Ok (default marked_empty (lm_view m !! k), TombStone t))) in E.
  by rewrite E.
Qed.

Lemma freeze_wf uniq (m : LeveledMap DB) : lm_wf m → lm_wf (freeze_writable uniq m).
Proof. intros [Hk He]. split; by apply freeze_spec. Qed.

Lemma m0_wf : lm_wf m0.
Proof.
  apply del_wf, put_wf; [|by vm_compute]. apply freeze_wf, put_wf; [|by vm_compute].
  apply leveled_map_default_wf.
Qed.

Lemma m0_utf8 : utf8_values m0.
Proof.
  assert (lm_view (K := ExpireKey) (V := string) m0 = ∅) as E by reflexivity.
  intros k a v. by rewrite E, lookup_empty.
Qed.

Lemma db_eq : snapshot_write c [] "path" "id" = Ok db.
Proof.
  assert (is_ok (snapshot_write c [] "path" "id") = true) as Hok by (vm_compute; reflexivity).
  unfold db. by destruct (snapshot_write c [] "path" "id").
Qed.

Lemma m2_wf : lm_wf m2.
Proof.
  apply put_wf; [|by vm_compute].
  by destruct (snapshot_begin_spec 1 0 m0 m1 c m0_wf eq_refl).
Qed.

Lemma snapshot_transparent_witness :
  ∃ m3, snapshot_finish c db m2 = (m3, Ok tt).
Proof.
  destruct (snapshot_transparent m0 1 0 m1 c [] "path" "id" db m2)
    as (m3 & Hfin & _).
  - apply m0_wf.
  - apply m0_utf8.
  - reflexivity.
  - reflexivity.
  - apply db_eq.
  - apply rtc_once. eapply step_kv. unfold m2, put. apply surjective_pairing.
  - apply m2_wf.
  - exists m3. exact Hfin.
Defined.

Lemma leveled_map_refines_witness :
  lm_get (V := bytes) m0 "a" = Ok (TombStone 2) ∧ lm_get m0 "b" = Ok (Normal 2 "2" None).
Proof.
  assert (curr_seq (lm_sys_data m0) + 1 < u64_mod) as Hs by (vm_compute; reflexivity).
  destruct (leveled_map_refines m0 "a" "" None bounds_full 0 m0_wf Hs) as (E & _); [by intros []|].
  destruct (leveled_map_refines m0 "b" "" None bounds_full 0 m0_wf Hs) as (E' & _); [by intros []|].
  split; [etrans; [exact E|]|etrans; [exact E'|]]; vm_compute; reflexivity.
Defined.

Lemma compact_in_place_transparent_witness :
  ∃ ls, compact_immutable_in_place 7 (immutable_levels m1) = (ls, Ok tt) ∧ (length (levels ls) ≤ 1)%nat.
Proof.
  destruct (compact_in_place_transparent m1 7) as (ls & E & Hl & _).
  - by destruct (snapshot_begin_spec 1 0 m0 m1 c m0_wf eq_refl).
  - exists ls. split; [exact E|exact Hl].
Defined.

(** A compactor is taken, and the next request is refused. *)
Lemma one_compactor_witness :
  (size ({[0%nat]} ∪ ∅ : gset nat) ≤ 1)%nat ∧
  ((try_acquire_compactor ({[0%nat]} ∪ ∅) 1 (acquire_compactor 0 m0).1).2 = None ↔ ({[0%nat]} ∪ ∅ : gset nat) ≠ ∅).
Proof.
  apply (one_compactor m0).
  - reflexivity.
  - apply rtc_once. apply (step_acquire m0 ∅ 0 _ (acquire_compactor 0 m0).2); [set_solver|set_solver|].
    apply surjective_pairing.
Defined.

Lemma persisted_encodings_witness :
  let a := expire_key_new 3 1 in
  let b := expire_key_new 20 0 in
  key_lt (encode_key a) (encode_key b) ∧
  (∃ x, seq_marked_of_marked_string (Normal 3 "k" None) = Ok x ∧
    marked_string_of_seq_marked x = Ok (Normal 3 "k" None) ∧
    sqm_version x = order_key (Normal 3 "k" None : Marked string)).
Proof.
  intros a b.
  destruct (persisted_encodings a b bounds_full "k" (Normal 3 "v" None) (Normal 3 "k" None))
    as (_ & Hlt & _ & _ & _ & _ & _ & Hx).
  - intros v [= <-]. vm_compute. reflexivity.
  - split; [|exact Hx]. apply Hlt. apply (bool_decide_unpack _). vm_compute. exact I.
Defined.
End Ex.
