(* ===== verification/Txn.v ===== *)
(** Transactions and raft log entries: the messages of
    types/proto/meta.proto, their constructors in types/src/proto_ext
    (txn_ext.rs, seq_v_ext.rs), the commands of types/src/cmd and the result of
    applying one (types/src/applied_state.rs). *)

From stdpp Require Import base strings gmap numbers list.
From S2P Require Import Prelude RustStr External MetaTypes.
Local Open Scope N_scope.

(** ** [pb::SeqV] and [pb::KvMeta] *)

Record pb_KvMeta := { pb_expire_at : option N }.
Record pb_SeqV := { pb_seq : N; pb_data : bytes; pb_meta : option pb_KvMeta }.

Definition pb_KvMeta_of (m : KVMeta) : pb_KvMeta :=
  {| pb_expire_at := (λ x, x / 1000) <$> get_expire_at_ms m |}.
Definition KVMeta_of_pb (m : pb_KvMeta) : KVMeta := {| expire_at := pb_expire_at m |}.

Definition pb_SeqV_of (sv : SeqV bytes) : pb_SeqV :=
  {| pb_seq := seq sv; pb_data := data sv; pb_meta := pb_KvMeta_of <$> meta sv |}.
Definition SeqV_of_pb (sv : pb_SeqV) : SeqV bytes :=
  mk_SeqV (pb_seq sv) (KVMeta_of_pb <$> pb_meta sv) (pb_data sv).

(** ** Conditions *)

Inductive ConditionResult := CEq | CGt | CGe | CLt | CLe | CNe.

Definition condition_result_to_i32 (c : ConditionResult) : Z :=
  match c with CEq => 0 | CGt => 1 | CGe => 2 | CLt => 3 | CLe => 4 | CNe => 5 end.
(** [FromPrimitive::from_i32]. *)
Definition condition_result_from_i32 (i : Z) : option ConditionResult :=
  match i with
  | 0 => Some CEq | 1 => Some CGt | 2 => Some CGe | 3 => Some CLt | 4 => Some CLe | 5 => Some CNe
  | _ => None
  end%Z.

Inductive Target :=
| TargetValue (v : bytes)
| TargetSeq (s : N)
| TargetKeysWithPrefix (n : N).

Record TxnCondition := { cond_key : string; cond_expected : Z; cond_target : option Target }.

Inductive CombiningOperator := And | Or.

Definition combining_operator_to_i32 (o : CombiningOperator) : Z :=
  match o with And => 0 | Or => 1 end.

Inductive BooleanExpression := mk_BooleanExpression {
  be_operator : Z;
  be_sub_expressions : list BooleanExpression;
  be_conditions : list TxnCondition;
}.

(** Induction over the sub-expressions. *)
Lemma BooleanExpression_tree_ind (P : BooleanExpression → Prop) :
  (∀ op subs conds, Forall P subs → P (mk_BooleanExpression op subs conds)) → ∀ e, P e.
Proof.
  intros Hstep. fix IH 1. intros [op subs conds]. apply Hstep.
  induction subs as [|e subs IHs]; constructor; [apply IH|exact IHs].
Qed.

(** The getter [operator()]: an unknown value reads as the default. *)
Definition operator (e : BooleanExpression) : CombiningOperator :=
  if (be_operator e =? 1)%Z then Or else And.

(** ** Operations and replies *)

Record TxnGetRequest := { get_key : string }.
Record TxnPutRequest := {
  put_key : string; put_value : bytes; put_prev_value : bool;
  put_expire_at : option N; put_ttl_ms : option N;
}.
Record TxnDeleteRequest := {
  del_key : string; del_prev_value : bool; del_match_seq : option N;
}.
Record TxnDeleteByPrefixRequest := { dbp_prefix : string }.

Inductive TxnOp_Request :=
| RGet (r : TxnGetRequest)
| RPut (r : TxnPutRequest)
| RDelete (r : TxnDeleteRequest)
| RDeleteByPrefix (r : TxnDeleteByPrefixRequest).

Record TxnOp := { op_request : option TxnOp_Request }.

Record ConditionalOperation := {
  co_predicate : option BooleanExpression;
  co_operations : list TxnOp;
}.

Record TxnRequest := {
  txn_operations : list ConditionalOperation;
  txn_condition : list TxnCondition;
  txn_if_then : list TxnOp;
  txn_else_then : list TxnOp;
}.

Inductive TxnOp_Response :=
| RespGet (key : string) (value : option pb_SeqV)
| RespPut (key : string) (prev_value : option pb_SeqV)
| RespDelete (key : string) (success : bool) (prev_value : option pb_SeqV)
| RespDeleteByPrefix (prefix : string) (count : N).

Record TxnOpResponse := { op_response : option TxnOp_Response }.

Record TxnReply := {
  reply_success : bool;
  reply_responses : list TxnOpResponse;
  reply_error : string;
  reply_execution_path : string;
}.

(** ** Constructors (txn_ext.rs) *)

Definition conditional_operation_new (expr : option BooleanExpression) (ops : list TxnOp) :
    ConditionalOperation := {| co_predicate := expr; co_operations := ops |}.

Definition push_branch (expr : option BooleanExpression) (ops : list TxnOp) (t : TxnRequest) :
    TxnRequest := {|
  txn_operations := txn_operations t ++ [conditional_operation_new expr ops];
  txn_condition := txn_condition t; txn_if_then := txn_if_then t; txn_else_then := txn_else_then t;
|}.

Definition push_if_then (conds : list TxnCondition) (ops : list TxnOp) (t : TxnRequest) :
    Outcome TxnRequest :=
  match txn_condition t, txn_if_then t with
  | [], [] => Ok {|
      txn_operations := txn_operations t; txn_condition := conds;
      txn_if_then := ops; txn_else_then := txn_else_then t |}
  | _, _ => Panic
  end.

Definition txn_new (conds : list TxnCondition) (ops : list TxnOp) : TxnRequest :=
  {| txn_operations := []; txn_condition := conds; txn_if_then := ops; txn_else_then := [] |}.
Definition with_else (ops : list TxnOp) (t : TxnRequest) : TxnRequest := {|
  txn_operations := txn_operations t; txn_condition := txn_condition t;
  txn_if_then := txn_if_then t; txn_else_then := ops;
|}.
Definition unconditional (ops : list TxnOp) : TxnRequest :=
  {| txn_operations := []; txn_condition := []; txn_if_then := ops; txn_else_then := [] |}.

Definition txn_reply_new (path : string) : TxnReply := {|
  reply_success := bool_decide (path ≠ "else");
  reply_responses := [];
  reply_error := "";
  reply_execution_path := path;
|}.

(** [executed_branch_index]: the error carries the path. *)
Definition executed_branch_index (r : TxnReply) : option N + string :=
  match strip_prefix "operation:" (reply_execution_path r) with
  | Some index =>
      match parse_u64 index with
      | Some i => inl (Some i)
      | None => inr (reply_execution_path r)
      end
  | None => inl None
  end.

Definition from_conditions (op : CombiningOperator) (conds : list TxnCondition) : BooleanExpression :=
  mk_BooleanExpression (combining_operator_to_i32 op) [] conds.

Definition merge_conditions (e : BooleanExpression) (op : CombiningOperator)
    (conds : list TxnCondition) : BooleanExpression :=
  if (be_operator e =? combining_operator_to_i32 op)%Z
  then mk_BooleanExpression (be_operator e) (be_sub_expressions e) (be_conditions e ++ conds)
  else mk_BooleanExpression (combining_operator_to_i32 op) [e] conds.

Definition merge_expressions (e : BooleanExpression) (op : CombiningOperator)
    (other : list BooleanExpression) : BooleanExpression :=
  if (be_operator e =? combining_operator_to_i32 op)%Z
  then mk_BooleanExpression (be_operator e) (be_sub_expressions e ++ other) (be_conditions e)
  else mk_BooleanExpression (combining_operator_to_i32 op) (e :: other) [].

Inductive ExpressionOrCondition :=
| EOCExpression (e : BooleanExpression)
| EOCCondition (c : TxnCondition).

Definition merge (e : BooleanExpression) (op : CombiningOperator) (x : ExpressionOrCondition) :
    BooleanExpression :=
  match x with
  | EOCExpression e' => merge_expressions e op [e']
  | EOCCondition c => merge_conditions e op [c]
  end.

Definition cond_match_seq (key : string) (op : ConditionResult) (s : N) : TxnCondition :=
  {| cond_key := key; cond_expected := condition_result_to_i32 op; cond_target := Some (TargetSeq s) |}.
Definition cond_eq_seq (key : string) (s : N) : TxnCondition := cond_match_seq key CEq s.
Definition cond_match_value (key : string) (op : ConditionResult) (v : bytes) : TxnCondition :=
  {| cond_key := key; cond_expected := condition_result_to_i32 op; cond_target := Some (TargetValue v) |}.
Definition cond_eq_value (key : string) (v : bytes) : TxnCondition := cond_match_value key CEq v.
Definition match_keys_with_prefix (prefix : string) (op : ConditionResult) (n : N) : TxnCondition :=
  {| cond_key := prefix; cond_expected := condition_result_to_i32 op;
     cond_target := Some (TargetKeysWithPrefix n) |}.
Definition keys_with_prefix (prefix : string) (n : N) : TxnCondition :=
  match_keys_with_prefix prefix CEq n.

Definition op_put (key : string) (value : bytes) : TxnOp :=
  {| op_request := Some (RPut {| put_key := key; put_value := value; put_prev_value := true;
                                  put_expire_at := None; put_ttl_ms := None |}) |}.
Definition op_with_ttl (ttl_ms : option N) (o : TxnOp) : TxnOp :=
  match op_request o with
  | Some (RPut p) =>
      {| op_request := Some (RPut {| put_key := put_key p; put_value := put_value p;
           put_prev_value := put_prev_value p; put_expire_at := put_expire_at p;
           put_ttl_ms := ttl_ms |}) |}
  | _ => o
  end.
Definition op_delete_exact (key : string) (s : option N) : TxnOp :=
  {| op_request := Some (RDelete {| del_key := key; del_prev_value := true; del_match_seq := s |}) |}.
Definition op_delete (key : string) : TxnOp := op_delete_exact key None.
Definition op_get (key : string) : TxnOp := {| op_request := Some (RGet {| get_key := key |}) |}.

Definition resp_get (key : string) (value : option (SeqV bytes)) : TxnOpResponse :=
  {| op_response := Some (RespGet key (pb_SeqV_of <$> value)) |}.

(** ** Commands and log entries *)

Inductive Cmd :=
| AddNode (node_id : N) (node : Node) (overriding : bool)
| RemoveNode (node_id : N)
| CmdUpsertKV (u : UpsertKV)
| Transaction (t : TxnRequest).

Record RaftTxId := { tx_client : string; tx_serial : N }.
Record LogEntry := { log_txid : option RaftTxId; log_time_ms : option N; log_cmd : Cmd }.

(** The payload and the entry of the [openraft] crate. *)
Inductive EntryPayload {raft : OpenRaft} :=
| Blank
| PayloadNormal (d : LogEntry)
| PayloadMembership (m : Membership).
Record RaftEntry {raft : OpenRaft} := { entry_log_id : LogId; entry_payload : EntryPayload }.

Inductive AppliedState :=
| ASNode (prev result : option Node)
| ASKV (c : Change bytes N)
| ASTxnReply (r : TxnReply)
| ASNone.

(** [AppliedState::changed]. *)
Definition applied_changed (s : AppliedState) : bool :=
  match s with
  | ASNode p r => negb (bool_decide (p = r))
  | ASKV c => is_changed c
  | ASNone => false
  | ASTxnReply r => reply_success r
  end.
Definition prev_is_none (s : AppliedState) : bool :=
  match s with
  | ASNode p _ => is_none p
  | ASKV c => is_none (ch_prev c)
  | ASNone => true
  | ASTxnReply _ => true
  end.
Definition result_is_none (s : AppliedState) : bool :=
  match s with
  | ASNode _ r => is_none r
  | ASKV c => is_none (ch_result c)
  | ASNone => true
  | ASTxnReply r => negb (reply_success r)
  end.
