(* ===== verification/StateMachine.v ===== *)
(** The state machine of the meta-service (raft-store/src/state_machine_api.rs,
    state_machine_api_ext.rs): a map with an expiration cursor and an optional
    subscriber of changes.  Both implementations of the trait [StateMachineApi]
    are of this form: [SMV003] over a leveled map, [MemStateMachine] over a
    single level. *)

From stdpp Require Import base orders sorting strings gmap numbers list.
From S2P Require Import Prelude BTree RustStr External ExpireKey MetaTypes Marked MapApi Level StateMap.
Local Open Scope N_scope.

(** A change sent to the subscriber: the key, and the values before and after. *)
Abbreviation Event := (string * option (SeqV bytes) * option (SeqV bytes))%type.

Record StateMachine (Mp : Type) := {
  sm_map : Mp;
  expire_cursor : ExpireKey;
  (** the events sent so far, when there is a subscriber *)
  subscriber : option (list Event);
}.
Arguments sm_map {_} _.
Arguments expire_cursor {_} _.
Arguments subscriber {_} _.

(** ** Adapters of streams of io results *)

(** [try_take_while]. *)
Fixpoint try_take_while {A} (p : A → bool) (strm : Stream A) : Stream A :=
  match strm with
  | [] => []
  | Ok a :: strm => if p a then Ok a :: try_take_while p strm else []
  | item :: strm => item :: try_take_while p strm
  end.

(** [try_filter_map]. *)
Fixpoint try_filter_map {A B} (f : A → option B) (strm : Stream A) : Stream B :=
  match strm with
  | [] => []
  | Ok a :: strm =>
      match f a with Some b => Ok b :: try_filter_map f strm | None => try_filter_map f strm end
  | Err e :: strm => Err e :: try_filter_map f strm
  | Panic :: strm => Panic :: try_filter_map f strm
  end.

Section state_machine.
Context {raft : OpenRaft} {Mp : Type} `{!StateMap raft Mp}.

Definition set_map (m : Mp) (s : StateMachine Mp) : StateMachine Mp :=
  {| sm_map := m; expire_cursor := expire_cursor s; subscriber := subscriber s |}.
Definition set_expire_cursor (c : ExpireKey) (s : StateMachine Mp) : StateMachine Mp :=
  {| sm_map := sm_map s; expire_cursor := c; subscriber := subscriber s |}.

Definition sys_data_ref (s : StateMachine Mp) : SysData := map_sys (sm_map s).
Definition modify_sys_data (f : SysData → SysData) (s : StateMachine Mp) : StateMachine Mp :=
  set_map (map_set_sys (f (sys_data_ref s)) (sm_map s)) s.

(** Run an operation of the map. *)
Definition on_map {A} (c : M Mp A) : M (StateMachine Mp) A := zoom sm_map set_map c.

Definition kv_get (s : StateMachine Mp) (k : string) : Outcome (Marked bytes) :=
  ro_get (K := string) (V := bytes) (sm_map s) k.

(** [upsert_kv_primary_index]: the entries before and after the upsert. *)
Definition upsert_kv_primary_index (u : UpsertKV) (ctx : CmdContext) :
    M (StateMachine Mp) (Marked bytes * Marked bytes) :=
  let kv_meta := (λ m, to_kv_meta m ctx) <$> uvalue_meta u in
  s ← get_st;
  prev ← lift (kv_get s (ukey u));
  if match_seq_err (useq u) (marked_seq prev) then mret (prev, prev)
  else
    '(prev, result) ← match uvalue u with
      | Update v => on_map (map_set (V := bytes) (ukey u) (Some (v, kv_meta)))
      | Delete => on_map (map_set (V := bytes) (ukey u) None)
      | AsIs => on_map (update_meta (V := bytes) (ukey u) kv_meta)
      end;
    let expire_ms := opt_expires_at_ms kv_meta in
    cursor ← gets expire_cursor;
    if expire_ms <? time_ms cursor then
      '(_, r) ← on_map (map_set (V := bytes) (ukey u) None);
      mret (prev, r)
    else mret (prev, result).

Definition marked_to_seqv (x : string * Marked bytes) : option (string * SeqV bytes) :=
  (λ v, (x.1, v)) <$> seqv_of_marked x.2.

(** [list_kv]: the entries whose key has the prefix. *)
Definition list_kv (s : StateMachine Mp) (prefix : string) : Outcome (Stream (string * SeqV bytes)) :=
  strm ← match prefix_right_bound prefix with
    | Some bound => ro_range (V := bytes) (sm_map s) (Included prefix, Excluded bound)
    | None => ro_range (V := bytes) (sm_map s) (Included prefix, Unbounded)
    end;
  Ok (try_filter_map marked_to_seqv (try_take_while (λ x, starts_with x.1 prefix) strm)).

(** [range_kv]. *)
Definition range_kv (s : StateMachine Mp) (rng : Bounds string) :
    Outcome (Stream (string * SeqV bytes)) :=
  strm ← ro_range (V := bytes) (sm_map s) rng;
  Ok (try_filter_map marked_to_seqv strm).

(** [update_expire_index]: replace the index entry of the removed version by
    the one of the added version. *)
Definition update_expire_index (key : string) (removed added : Marked bytes) :
    M (StateMachine Mp) unit :=
  if decide (removed = added) then mret tt
  else
    _ ← match marked_expires_at_ms_opt removed with
      | Some exp_ms =>
          _ ← on_map (map_set (V := string)
                (expire_key_new exp_ms (st_seq (order_key removed))) None);
          mret tt
      | None => mret tt
      end;
    match marked_expires_at_ms_opt added with
    | Some exp_ms =>
        _ ← on_map (map_set (V := string)
              (expire_key_new exp_ms (st_seq (order_key added))) (Some (key, None)));
        mret tt
    | None => mret tt
    end.

(** [list_expire_index]: the index entries from the cursor up to the time. *)
Definition list_expire_index (s : StateMachine Mp) (curr_time_ms : N) :
    Outcome (Stream (ExpireKey * string)) :=
  let start := expire_cursor s in
  let end_ := expire_key_new curr_time_ms 0 in
  if decide (key_le end_ start) then Ok []
  else
    strm ← ro_range (V := string) (sm_map s) (Included start, Excluded end_);
    Ok (try_filter_map (λ x, (λ v, (x.1, v.1)) <$> unpack x.2) strm).

Definition update_expire_cursor (log_time_ms : N) : M (StateMachine Mp) unit :=
  s ← get_st;
  if log_time_ms <? time_ms (expire_cursor s) then mret tt
  else put_st (set_expire_cursor (expire_key_new log_time_ms 0) s).

(** [get_maybe_expired_kv]: no check of the expiration. *)
Definition get_maybe_expired_kv (s : StateMachine Mp) (k : string) : Outcome (option (SeqV bytes)) :=
  got ← kv_get s k; Ok (seqv_of_marked got).
End state_machine.
