(* ===== verification/Applier.v ===== *)
(** Applying raft log entries (raft-store/src/applier.rs): clean the expired
    keys, then execute the command of the entry, then publish the changes. *)

From stdpp Require Import base orders sorting strings gmap numbers list.
From S2P Require Import Prelude BTree RustStr External ExpireKey MetaTypes Marked MapApi Level StateMap.
From S2P Require Import Txn StateMachine.
Local Open Scope N_scope.

Record Applier (Mp : Type) := {
  ap_sm : StateMachine Mp;
  cmd_ctx : CmdContext;
  changes : list Event;
}.
Arguments ap_sm {_} _.
Arguments cmd_ctx {_} _.
Arguments changes {_} _.

(** [eval_compare], for a type with its order. *)
Definition eval_compare {T} (le : T → T → bool) (left : T) (op : ConditionResult) (right : T) : bool :=
  match op with
  | CEq => le left right && le right left
  | CGt => negb (le left right)
  | CLt => negb (le right left)
  | CNe => negb (le left right && le right left)
  | CGe => le right left
  | CLe => le left right
  end.

(** [try_fold(0, |acc, _| acc + 1)]: stops at an error. *)
Fixpoint try_count {A} (acc : N) (strm : Stream A) : Outcome N :=
  match strm with
  | [] => Ok acc
  | Ok _ :: strm => try_count (wrap64 (acc + 1)) strm
  | Err e :: _ => Err e
  | Panic :: _ => Panic
  end.

(** The entries before the first one that is not expired. *)
Fixpoint take_expired (log_time_ms : N) (strm : Stream (ExpireKey * string)) :
    Outcome (list (ExpireKey * string)) :=
  match strm with
  | [] => Ok []
  | item :: strm =>
      '(ek, key) ← item;
      if ek_is_expired ek log_time_ms then
        rest ← take_expired log_time_ms strm; Ok ((ek, key) :: rest)
      else Ok []
  end.

(** [get_log_time]: only a [Normal] entry has a time. *)
Definition get_log_time {raft : OpenRaft} (e : RaftEntry) : N :=
  match entry_payload e with
  | PayloadNormal d => default 0 (log_time_ms d)
  | _ => 0
  end.

Section applier.
Context {raft : OpenRaft} {Mp : Type} `{!StateMap raft Mp}.

Definition applier_new (s : StateMachine Mp) : Applier Mp :=
  {| ap_sm := s; cmd_ctx := cmd_ctx_from_millis 0; changes := [] |}.

Definition set_sm (s : StateMachine Mp) (a : Applier Mp) : Applier Mp :=
  {| ap_sm := s; cmd_ctx := cmd_ctx a; changes := changes a |}.
Definition set_changes (l : list Event) (a : Applier Mp) : Applier Mp :=
  {| ap_sm := ap_sm a; cmd_ctx := cmd_ctx a; changes := l |}.
Definition set_cmd_ctx (c : CmdContext) (a : Applier Mp) : Applier Mp :=
  {| ap_sm := ap_sm a; cmd_ctx := c; changes := changes a |}.

Definition on_sm {A} (c : M (StateMachine Mp) A) : M (Applier Mp) A := zoom ap_sm set_sm c.
Definition modify_sys (f : SysData → SysData) : M (Applier Mp) unit :=
  on_sm (modify (modify_sys_data f)).

(** [push_change]: nothing when the value did not change. *)
Definition push_change (key : string) (prev result : option (SeqV bytes)) : M (Applier Mp) unit :=
  if decide (prev = result) then mret tt
  else modify (λ a, set_changes (changes a ++ [(key, prev, result)]) a).

(** [upsert_kv]: the primary index, then the expiration index. *)
Definition upsert_kv (u : UpsertKV) : M (Applier Mp) (option (SeqV bytes) * option (SeqV bytes)) :=
  a ← get_st;
  '(prev, result) ← on_sm (upsert_kv_primary_index u (cmd_ctx a));
  _ ← on_sm (update_expire_index (ukey u) prev result);
  let prev := seqv_of_marked prev in
  let result := seqv_of_marked result in
  _ ← push_change (ukey u) prev result;
  mret (prev, result).

Definition apply_upsert_kv (u : UpsertKV) : M (Applier Mp) AppliedState :=
  '(prev, result) ← upsert_kv u;
  mret (ASKV (change_new prev result)).

(** ** Nodes *)

Definition apply_add_node (node_id : N) (node : Node) (overriding : bool) :
    M (Applier Mp) AppliedState :=
  a ← get_st;
  let prev := nodes (sys_data_ref (ap_sm a)) !! node_id in
  match prev with
  | None =>
      _ ← modify_sys (λ d, set_nodes (<[node_id := node]> (nodes d)) d);
      mret (ASNode prev (Some node))
  | Some _ =>
      if overriding then
        _ ← modify_sys (λ d, set_nodes (<[node_id := node]> (nodes d)) d);
        mret (ASNode prev (Some node))
      else mret (ASNode prev prev)
  end.

Definition apply_remove_node (node_id : N) : M (Applier Mp) AppliedState :=
  a ← get_st;
  let prev := nodes (sys_data_ref (ap_sm a)) !! node_id in
  _ ← modify_sys (λ d, set_nodes (delete node_id (nodes d)) d);
  mret (ASNode prev None).

(** ** Conditions of a transaction *)

(** [eval_one_condition]; [(against_n + 1) as usize] wraps around. *)
Definition eval_one_condition (s : StateMachine Mp) (c : TxnCondition) : Outcome bool :=
  seqv ← get_maybe_expired_kv s (cond_key c);
  match condition_result_from_i32 (cond_expected c) with
  | None => Ok false
  | Some op =>
      match cond_target c with
      | None => Ok false
      | Some (TargetSeq against) => Ok (eval_compare N.leb (opt_seq seqv) op against)
      | Some (TargetValue against) =>
          match opt_value seqv with
          | Some stored => Ok (eval_compare String.leb stored op against)
          | None => Ok false
          end
      | Some (TargetKeysWithPrefix against_n) =>
          strm ← list_kv s (cond_key c);
          count ← try_count 0 (take (N.to_nat (wrap64 (against_n + 1))) strm);
          Ok (eval_compare N.leb count op against_n)
      end
  end.

(** [for x in xs { if !f(x)? { return Ok(false) } }], then [rest]. *)
Definition all_or_return {A} (f : A → Outcome bool) (xs : list A) (rest : Outcome bool) : Outcome bool :=
  (fix go xs :=
    match xs with
    | [] => rest
    | x :: xs => match f x with Ok true => go xs | o => o end
    end) xs.

(** [for x in xs { if f(x)? { return Ok(true) } }], then [rest]. *)
Definition any_or_return {A} (f : A → Outcome bool) (xs : list A) (rest : Outcome bool) : Outcome bool :=
  (fix go xs :=
    match xs with
    | [] => rest
    | x :: xs => match f x with Ok false => go xs | o => o end
    end) xs.

Definition eval_txn_conditions (s : StateMachine Mp) (conds : list TxnCondition) : Outcome bool :=
  all_or_return (eval_one_condition s) conds (Ok true).

(** [eval_bool_expression]: both operators end with [Ok(true)]. *)
Fixpoint eval_bool_expression (s : StateMachine Mp) (e : BooleanExpression) : Outcome bool :=
  match operator e with
  | And =>
      all_or_return (eval_bool_expression s) (be_sub_expressions e)
        (all_or_return (eval_one_condition s) (be_conditions e) (Ok true))
  | Or =>
      any_or_return (eval_bool_expression s) (be_sub_expressions e)
        (any_or_return (eval_one_condition s) (be_conditions e) (Ok true))
  end.

(** ** Operations of a transaction *)

Definition push_response (r : TxnOp_Response) (resp : TxnReply) : TxnReply := {|
  reply_success := reply_success resp;
  reply_responses := reply_responses resp ++ [{| op_response := Some r |}];
  reply_error := reply_error resp;
  reply_execution_path := reply_execution_path resp;
|}.

Definition txn_execute_get (r : TxnGetRequest) (resp : TxnReply) : M (Applier Mp) TxnReply :=
  a ← get_st;
  sv ← lift (get_maybe_expired_kv (ap_sm a) (get_key r));
  mret (push_response (RespGet (get_key r) (pb_SeqV_of <$> sv)) resp).

Definition put_upsert (r : TxnPutRequest) : UpsertKV :=
  with_meta_spec (upsert_update (put_key r) (put_value r))
    {| spec_expire_at := put_expire_at r; spec_ttl := interval_from_millis <$> put_ttl_ms r |}.

Definition txn_execute_put (r : TxnPutRequest) (resp : TxnReply) : M (Applier Mp) TxnReply :=
  '(prev, _) ← upsert_kv (put_upsert r);
  mret (push_response (RespPut (put_key r) (pb_SeqV_of <$> prev)) resp).

Definition delete_upsert (r : TxnDeleteRequest) : UpsertKV :=
  match del_match_seq r with
  | Some s => with_match_seq (upsert_delete (del_key r)) (Exact s)
  | None => upsert_delete (del_key r)
  end.

Definition txn_execute_delete (r : TxnDeleteRequest) (resp : TxnReply) : M (Applier Mp) TxnReply :=
  '(prev, result) ← upsert_kv (delete_upsert r);
  let is_deleted := negb (is_none prev) && is_none result in
  mret (push_response (RespDelete (del_key r) is_deleted (pb_SeqV_of <$> prev)) resp).

(** The loop of [txn_execute_delete_by_prefix]; the counter is a [u32]. *)
Fixpoint delete_each (strm : Stream (string * SeqV bytes)) (count : N) : M (Applier Mp) N :=
  match strm with
  | [] => mret count
  | item :: strm =>
      '(key, _) ← lift item;
      '(prev, res) ← upsert_kv (upsert_delete key);
      _ ← push_change key prev res;
      delete_each strm ((count + 1) `mod` 2 ^ 32)
  end.

Definition txn_execute_delete_by_prefix (r : TxnDeleteByPrefixRequest) (resp : TxnReply) :
    M (Applier Mp) TxnReply :=
  a ← get_st;
  strm ← lift (list_kv (ap_sm a) (dbp_prefix r));
  count ← delete_each strm 0;
  mret (push_response (RespDeleteByPrefix (dbp_prefix r) count) resp).

Definition txn_execute_operation (op : TxnOp) (resp : TxnReply) : M (Applier Mp) TxnReply :=
  match op_request op with
  | Some (RGet r) => txn_execute_get r resp
  | Some (RPut r) => txn_execute_put r resp
  | Some (RDelete r) => txn_execute_delete r resp
  | Some (RDeleteByPrefix r) => txn_execute_delete_by_prefix r resp
  | None => mret resp
  end.

Fixpoint execute_operations (ops : list TxnOp) (resp : TxnReply) : M (Applier Mp) TxnReply :=
  match ops with
  | [] => mret resp
  | op :: ops => resp ← txn_execute_operation op resp; execute_operations ops resp
  end.

(** The loop of [apply_txn] over the branches, from the index [i]. *)
Fixpoint first_branch (s : StateMachine Mp) (i : N) (branches : list ConditionalOperation) :
    Outcome (option (N * list TxnOp)) :=
  match branches with
  | [] => Ok None
  | b :: branches =>
      success ← match co_predicate b with
        | Some predicate => eval_bool_expression s predicate
        | None => Ok true
        end;
      if success : bool then Ok (Some (i, co_operations b)) else first_branch s (i + 1) branches
  end.

Definition apply_txn (req : TxnRequest) : M (Applier Mp) AppliedState :=
  a ← get_st;
  branch ← lift (first_branch (ap_sm a) 0 (txn_operations req));
  match branch with
  | Some (i, ops) =>
      resp ← execute_operations ops (txn_reply_new ("operation:" +:+ dec_string i));
      mret (ASTxnReply resp)
  | None =>
      success ← lift (eval_txn_conditions (ap_sm a) (txn_condition req));
      let '(ops, path) := if success : bool then (txn_if_then req, "then")
                          else (txn_else_then req, "else") in
      resp ← execute_operations ops (txn_reply_new path);
      mret (ASTxnReply resp)
  end.

(** ** Expired keys *)

(** The loop of [clean_expired_kvs] over the expired index entries. *)
Definition clean_one (x : ExpireKey * string) : M (Applier Mp) unit :=
  let '(ek, key) := x in
  a ← get_st;
  curr ← lift (get_maybe_expired_kv (ap_sm a) key);
  match curr with
  | Some seq_v =>
      if decide (ek_seq ek = seq seq_v) then _ ← upsert_kv (upsert_delete key); mret tt
      else lift Panic
  | None => lift Panic
  end.

Definition clean_expired_kvs (log_time_ms : N) : M (Applier Mp) unit :=
  if log_time_ms =? 0 then mret tt
  else
    a ← get_st;
    strm ← lift (list_expire_index (ap_sm a) log_time_ms);
    to_clean ← lift (take_expired log_time_ms strm);
    _ ← for_each to_clean clean_one;
    on_sm (update_expire_cursor log_time_ms).

(** ** Applying an entry *)

Definition apply_cmd (cmd : Cmd) : M (Applier Mp) AppliedState :=
  match cmd with
  | AddNode node_id node overriding => apply_add_node node_id node overriding
  | RemoveNode node_id => apply_remove_node node_id
  | CmdUpsertKV u => apply_upsert_kv u
  | Transaction t => apply_txn t
  end.

(** Send the queued changes to the subscriber, if there is one. *)
Definition send_changes (a : Applier Mp) : Applier Mp :=
  match subscriber (ap_sm a) with
  | None => a
  | Some sent => set_changes [] (set_sm {|
      sm_map := sm_map (ap_sm a); expire_cursor := expire_cursor (ap_sm a);
      subscriber := Some (sent ++ changes a) |} a)
  end.

Definition apply (e : RaftEntry) : M (Applier Mp) AppliedState :=
  let log_id := entry_log_id e in
  let log_time_ms := get_log_time e in
  _ ← modify (set_cmd_ctx (cmd_ctx_from_millis log_time_ms));
  _ ← clean_expired_kvs log_time_ms;
  _ ← modify_sys (set_last_applied (Some log_id));
  applied_state ← match entry_payload e with
    | Blank => mret ASNone
    | PayloadNormal d =>
        match log_txid d with
        | Some _ => lift Panic
        | None => apply_cmd (log_cmd d)
        end
    | PayloadMembership mem =>
        _ ← modify_sys (set_last_membership (stored_membership_new (Some log_id) mem));
        mret ASNone
    end;
  _ ← modify send_changes;
  mret applied_state.

(** [SMV003::apply_entries]. *)
Fixpoint apply_all (es : list RaftEntry) : M (Applier Mp) (list AppliedState) :=
  match es with
  | [] => mret []
  | e :: es => r ← apply e; rs ← apply_all es; mret (r :: rs)
  end.

Definition apply_entries (es : list RaftEntry) (s : StateMachine Mp) :
    StateMachine Mp * Outcome (list AppliedState) :=
  let '(a, r) := apply_all es (applier_new s) in (ap_sm a, r).
End applier.
