(* ===== verification/ApplierSpec.v ===== *)
(** What applying log entries means: the abstract state machine.  Its state is
    the readable key-values and the system data, without levels, tombstones or
    an expiration index; its operations cannot fail. *)

From stdpp Require Import base orders sorting strings gmap numbers list.
From S2P Require Import Prelude BTree RustStr External ExpireKey MetaTypes Level.
From S2P Require Import Txn StateMachine Applier.
Local Open Scope N_scope.

(** ** The expiration index of the key-values *)

(** The index key of a value that expires. *)
Definition ek_of (v : SeqV bytes) : option ExpireKey :=
  (λ t, expire_key_new t (seq v)) <$> meta_expires_at_ms_opt (meta v).

Definition index_of (kv : gmap string (SeqV bytes)) : gmap ExpireKey string :=
  list_to_map (omap (λ x, (λ ek, (ek, x.1)) <$> ek_of x.2) (map_to_list kv)).

(** ** The state *)

Section spec.
Context {raft : OpenRaft}.

Record Spec := {
  sp_kv : gmap string (SeqV bytes);
  sp_sys : SysData;
  sp_cursor : ExpireKey;
  sp_sub : option (list Event);
  sp_changes : list Event;
}.

Definition sp_set_kv (kv : gmap string (SeqV bytes)) (st : Spec) : Spec :=
  {| sp_kv := kv; sp_sys := sp_sys st; sp_cursor := sp_cursor st; sp_sub := sp_sub st;
     sp_changes := sp_changes st |}.
Definition sp_set_sys (d : SysData) (st : Spec) : Spec :=
  {| sp_kv := sp_kv st; sp_sys := d; sp_cursor := sp_cursor st; sp_sub := sp_sub st;
     sp_changes := sp_changes st |}.
Definition sp_set_cursor (c : ExpireKey) (st : Spec) : Spec :=
  {| sp_kv := sp_kv st; sp_sys := sp_sys st; sp_cursor := c; sp_sub := sp_sub st;
     sp_changes := sp_changes st |}.
Definition sp_push (e : Event) (st : Spec) : Spec :=
  {| sp_kv := sp_kv st; sp_sys := sp_sys st; sp_cursor := sp_cursor st; sp_sub := sp_sub st;
     sp_changes := sp_changes st ++ [e] |}.

(** A change is recorded when the value changed. *)
Definition sp_change (k : string) (prev result : option (SeqV bytes)) (st : Spec) : Spec :=
  if decide (prev = result) then st else sp_push (k, prev, result) st.

(** ** Upserts *)

(** Write a value under the next sequence number; it is gone at once when it
    expires before the cursor. *)
Definition sp_write (k : string) (v : bytes) (mt : option KVMeta) (st : Spec) :
    Spec * option (SeqV bytes) :=
  let s := sequence (sp_sys st) + 1 in
  let st := sp_set_sys (update_seq s (sp_sys st)) st in
  if opt_expires_at_ms mt <? time_ms (sp_cursor st)
  then (sp_set_kv (delete k (sp_kv st)) st, None)
  else (sp_set_kv (<[k := mk_SeqV s mt v]> (sp_kv st)) st, Some (mk_SeqV s mt v)).

Definition sp_primary (u : UpsertKV) (ctx : CmdContext) (st : Spec) : Spec * option (SeqV bytes) :=
  let mt := (λ m, to_kv_meta m ctx) <$> uvalue_meta u in
  let k := ukey u in
  let prev := sp_kv st !! k in
  if match_seq_err (useq u) (opt_seq prev) then (st, prev)
  else match uvalue u, prev with
  | Update v, _ => sp_write k v mt st
  | Delete, _ => (sp_set_kv (delete k (sp_kv st)) st, None)
  | AsIs, Some p => sp_write k (data p) mt st
  | AsIs, None => (st, None)
  end.

Definition sp_upsert (u : UpsertKV) (ctx : CmdContext) (st : Spec) :
    Spec * (option (SeqV bytes) * option (SeqV bytes)) :=
  let prev := sp_kv st !! ukey u in
  let '(st, result) := sp_primary u ctx st in
  (sp_change (ukey u) prev result st, (prev, result)).

(** ** Listing and conditions *)

Definition sp_list (kv : gmap string (SeqV bytes)) (prefix : string) : list (string * SeqV bytes) :=
  filter (λ x, starts_with x.1 prefix = true) (btree_iter kv).

(** Which results of a comparison satisfy the operator. *)
Definition op_holds (op : ConditionResult) (c : comparison) : bool :=
  match op, c with
  | CEq, Eq | CGe, Eq | CLe, Eq => true
  | CGt, Gt | CGe, Gt | CNe, Gt => true
  | CLt, Lt | CLe, Lt | CNe, Lt => true
  | _, _ => false
  end.

Definition sp_condition (kv : gmap string (SeqV bytes)) (c : TxnCondition) : bool :=
  match condition_result_from_i32 (cond_expected c), cond_target c with
  | Some op, Some (TargetSeq s) => op_holds op (opt_seq (kv !! cond_key c) ?= s)
  | Some op, Some (TargetValue v) =>
      match kv !! cond_key c with
      | Some stored => op_holds op (String.compare (data stored) v)
      | None => false
      end
  | Some op, Some (TargetKeysWithPrefix n) =>
      let count := N.of_nat (length (sp_list kv (cond_key c))) in
      op_holds op (count `min` wrap64 (n + 1) ?= n)
  | _, _ => false
  end.

(** The value of an expression as the code computes it. *)
Fixpoint sp_expression (kv : gmap string (SeqV bytes)) (e : BooleanExpression) : bool :=
  match operator e with
  | And => forallb (sp_expression kv) (be_sub_expressions e) &&
           forallb (sp_condition kv) (be_conditions e)
  | Or => true
  end.

(** ** Transactions *)

Definition sp_delete_each (keys : list (string * SeqV bytes)) (ctx : CmdContext) (st : Spec) : Spec :=
  foldl (λ st x,
    let '(st, (prev, res)) := sp_upsert (upsert_delete x.1) ctx st in
    sp_change x.1 prev res st) st keys.

Definition sp_operation (op : TxnOp) (ctx : CmdContext) (st : Spec) : Spec * list TxnOp_Response :=
  match op_request op with
  | Some (RGet r) => (st, [RespGet (get_key r) (pb_SeqV_of <$> sp_kv st !! get_key r)])
  | Some (RPut r) =>
      let '(st, (prev, _)) := sp_upsert (put_upsert r) ctx st in
      (st, [RespPut (put_key r) (pb_SeqV_of <$> prev)])
  | Some (RDelete r) =>
      let '(st, (prev, result)) := sp_upsert (delete_upsert r) ctx st in
      (st, [RespDelete (del_key r) (negb (is_none prev) && is_none result) (pb_SeqV_of <$> prev)])
  | Some (RDeleteByPrefix r) =>
      let keys := sp_list (sp_kv st) (dbp_prefix r) in
      (sp_delete_each keys ctx st,
       [RespDeleteByPrefix (dbp_prefix r) (N.of_nat (length keys) `mod` 2 ^ 32)])
  | None => (st, [])
  end.

Fixpoint sp_operations (ops : list TxnOp) (ctx : CmdContext) (st : Spec) :
    Spec * list TxnOp_Response :=
  match ops with
  | [] => (st, [])
  | op :: ops =>
      let '(st, r) := sp_operation op ctx st in
      let '(st, rs) := sp_operations ops ctx st in
      (st, r ++ rs)
  end.

(** The branch of a transaction: its operations and the path of the reply. *)
Fixpoint sp_branch (kv : gmap string (SeqV bytes)) (i : N) (bs : list ConditionalOperation) :
    option (N * list TxnOp) :=
  match bs with
  | [] => None
  | b :: bs =>
      if match co_predicate b with Some e => sp_expression kv e | None => true end
      then Some (i, co_operations b) else sp_branch kv (i + 1) bs
  end.

Definition sp_choose (kv : gmap string (SeqV bytes)) (t : TxnRequest) : list TxnOp * string :=
  match sp_branch kv 0 (txn_operations t) with
  | Some (i, ops) => (ops, "operation:" +:+ dec_string i)
  | None =>
      if forallb (sp_condition kv) (txn_condition t)
      then (txn_if_then t, "then") else (txn_else_then t, "else")
  end.

Definition sp_txn (t : TxnRequest) (ctx : CmdContext) (st : Spec) : Spec * TxnReply :=
  let '(ops, path) := sp_choose (sp_kv st) t in
  let '(st, rs) := sp_operations ops ctx st in
  (st, {| reply_success := bool_decide (path ≠ "else");
          reply_responses := (λ r, {| op_response := Some r |}) <$> rs;
          reply_error := ""; reply_execution_path := path |}).

(** ** Expiration *)

(** The keys that expire before the time, from the cursor on, by expiration
    time and sequence number. *)
Definition sp_expired (t : N) (st : Spec) : list (ExpireKey * string) :=
  let bound := expire_key_new t 0 in
  if decide (key_le bound (sp_cursor st)) then []
  else range_list (index_of (sp_kv st)) (Included (sp_cursor st), Excluded bound).

Definition sp_clean (t : N) (ctx : CmdContext) (st : Spec) : Spec :=
  if t =? 0 then st
  else
    let st' := foldl (λ st x, (sp_upsert (upsert_delete x.2) ctx st).1) st (sp_expired t st) in
    if t <? time_ms (sp_cursor st') then st' else sp_set_cursor (expire_key_new t 0) st'.

(** ** Log entries *)

Definition sp_cmd (c : Cmd) (ctx : CmdContext) (st : Spec) : Spec * AppliedState :=
  let d := sp_sys st in
  match c with
  | AddNode id node overriding =>
      let prev := nodes d !! id in
      if is_none prev || overriding
      then (sp_set_sys (set_nodes (<[id := node]> (nodes d)) d) st, ASNode prev (Some node))
      else (st, ASNode prev prev)
  | RemoveNode id =>
      (sp_set_sys (set_nodes (delete id (nodes d)) d) st, ASNode (nodes d !! id) None)
  | CmdUpsertKV u =>
      let '(st, (prev, result)) := sp_upsert u ctx st in (st, ASKV (change_new prev result))
  | Transaction t => let '(st, r) := sp_txn t ctx st in (st, ASTxnReply r)
  end.

Definition sp_send (st : Spec) : Spec :=
  match sp_sub st with
  | None => st
  | Some sent => {|
      sp_kv := sp_kv st; sp_sys := sp_sys st; sp_cursor := sp_cursor st;
      sp_sub := Some (sent ++ sp_changes st); sp_changes := [] |}
  end.

Definition sp_apply (e : RaftEntry) (st : Spec) : Spec * AppliedState :=
  let t := get_log_time e in
  let ctx := cmd_ctx_from_millis t in
  let st := sp_clean t ctx st in
  let st := sp_set_sys (set_last_applied (Some (entry_log_id e)) (sp_sys st)) st in
  let '(st, r) :=
    match entry_payload e with
    | Blank => (st, ASNone)
    | PayloadNormal d => sp_cmd (log_cmd d) ctx st
    | PayloadMembership mem =>
        (sp_set_sys (set_last_membership (stored_membership_new (Some (entry_log_id e)) mem)
                       (sp_sys st)) st, ASNone)
    end in
  (sp_send st, r).

Fixpoint sp_apply_all (es : list RaftEntry) (st : Spec) : Spec * list AppliedState :=
  match es with
  | [] => (st, [])
  | e :: es =>
      let '(st, r) := sp_apply e st in
      let '(st, rs) := sp_apply_all es st in
      (st, r :: rs)
  end.
End spec.
