(* ===== verification/StateMachineProofs.v ===== *)
(** The state machine over any lawful map: reading, writing and listing in
    terms of the readable content, and the expiration index. *)

From stdpp Require Import base orders sorting strings gmap numbers list.
From S2P Require Import Prelude BTree RustStr External ExpireKey MetaTypes Marked MapApi Level StateMap.
From S2P Require Import Txn StateMachine Applier ApplierSpec.
Local Open Scope N_scope.

(** ** The index of a set of key-values *)

(** Sequence numbers of the key-values: positive, not above [n], and different
    for different keys. *)
Record seqs_ok (n : N) (kv : gmap string (SeqV bytes)) : Prop := {
  seqs_bound : ∀ k v, kv !! k = Some v → 0 < seq v ≤ n;
  seqs_inj : ∀ k1 k2 v1 v2, kv !! k1 = Some v1 → kv !! k2 = Some v2 → seq v1 = seq v2 → k1 = k2;
}.

Definition indexes (kv : gmap string (SeqV bytes)) (ex : gmap ExpireKey string) : Prop :=
  ∀ ek k, ex !! ek = Some k ↔ ∃ v, kv !! k = Some v ∧ ek_of v = Some ek.

Lemma ek_of_Some v ek :
  seq v < u64_mod → ek_of v = Some ek →
  ek_seq ek = seq v ∧ time_ms ek = opt_expires_at_ms (meta v).
Proof.
  unfold ek_of. intros Hs (t & Ht & ->)%fmap_Some.
  rewrite ek_seq_new by done. rewrite (opt_expires_Some _ _ Ht).
  split; [done|]. apply time_ms_new. rewrite <-(opt_expires_Some _ _ Ht).
  pose proof (opt_expires_le_max (meta v)). unfold u64_max in *. pose proof wrap64_lt. unfold u64_mod in *. lia.
Qed.

Section index.
Context (n : N) (Hn : n < u64_mod).
Implicit Types (kv : gmap string (SeqV bytes)) (ex : gmap ExpireKey string).

(** A key has at most one index entry. *)
Lemma indexes_inj kv ex ek1 ek2 k :
  indexes kv ex → ex !! ek1 = Some k → ex !! ek2 = Some k → ek1 = ek2.
Proof. intros Hi (v1 & ? & ?)%Hi (v2 & ? & ?)%Hi. congruence. Qed.

Lemma ek_of_inj kv k1 k2 v1 v2 ek :
  seqs_ok n kv → kv !! k1 = Some v1 → kv !! k2 = Some v2 →
  ek_of v1 = Some ek → ek_of v2 = Some ek → k1 = k2.
Proof.
  intros Hs H1 H2 E1 E2.
  pose proof (seqs_bound n kv Hs k1 v1 H1). pose proof (seqs_bound n kv Hs k2 v2 H2).
  apply ek_of_Some in E1 as [E1 _]; [|lia]. apply ek_of_Some in E2 as [E2 _]; [|lia].
  apply (seqs_inj n kv Hs k1 k2 v1 v2); congruence.
Qed.

Lemma index_of_indexes kv : seqs_ok n kv → indexes kv (index_of kv).
Proof.
  intros Hs ek k. unfold index_of.
  set (l := omap (λ x, (λ ek, (ek, x.1)) <$> ek_of x.2) (map_to_list kv)).
  assert (∀ ek k, (ek, k) ∈ l ↔ ∃ v, kv !! k = Some v ∧ ek_of v = Some ek) as Hel.
  { intros ek' k'. unfold l. rewrite list_elem_of_omap. split.
    - intros ([k0 v0] & Hin%elem_of_map_to_list & (ek0 & He & [= -> ->])%fmap_Some). eauto.
    - intros (v & Hv & He). exists (k', v). rewrite elem_of_map_to_list. cbn. by rewrite He. }
  rewrite <-Hel. split; [apply elem_of_list_to_map_2|].
  intros Hin. apply elem_of_list_to_map_1'; [|done].
  intros k' Hin'. apply Hel in Hin as (v & Hv & He), Hin' as (v' & Hv' & He').
  by eapply ek_of_inj.
Qed.

(** The index is determined by the key-values. *)
Lemma index_of_unique kv ex : seqs_ok n kv → indexes kv ex → ex = index_of kv.
Proof.
  intros Hs Hi. apply map_eq. intros ek. apply option_eq. intros k.
  by rewrite (Hi ek k), (index_of_indexes kv Hs ek k).
Qed.

Lemma seqs_ok_delete kv k : seqs_ok n kv → seqs_ok n (delete k kv).
Proof.
  intros [Hb Hi]. split.
  - intros k' v [_ ?]%lookup_delete_Some. eauto.
  - intros k1 k2 v1 v2 [_ ?]%lookup_delete_Some [_ ?]%lookup_delete_Some. eauto.
Qed.

Lemma indexes_delete kv ex k v :
  seqs_ok n kv → indexes kv ex → kv !! k = Some v →
  indexes (delete k kv) (match ek_of v with Some ek => delete ek ex | None => ex end).
Proof.
  intros Hs Hi Hk ek k'.
  assert ((match ek_of v with Some ek => delete ek ex | None => ex end) !! ek = Some k' ↔
    ex !! ek = Some k' ∧ ek_of v ≠ Some ek) as ->.
  { destruct (ek_of v) as [ek'|]; [rewrite lookup_delete_Some|]; naive_solver. }
  rewrite (Hi ek k'). setoid_rewrite lookup_delete_Some. split.
  - intros [(v' & Hv' & He) Hne]. exists v'. split; [|done]. split; [|done]. intros <-. congruence.
  - intros (v' & [Hne Hv'] & He). split; [eauto|]. intros He'. destruct Hne.
    by apply (ek_of_inj kv k k' v v' ek).
Qed.

Lemma indexes_insert kv ex k v :
  indexes kv ex → kv !! k = None →
  (∀ k' v', kv !! k' = Some v' → seq v' < seq v) → seq v < u64_mod →
  indexes (<[k := v]> kv) (match ek_of v with Some ek => <[ek := k]> ex | None => ex end).
Proof.
  intros Hi Hk Hlt Hv ek k'.
  assert (∀ ek k', ek_of v = Some ek → ex !! ek = Some k' → False) as Hfresh.
  { intros ek' k'' E (v' & Hv' & E')%Hi. specialize (Hlt _ _ Hv').
    apply ek_of_Some in E as [E _]; [|done]. apply ek_of_Some in E' as [E' _]; [|lia]. lia. }
  assert ((match ek_of v with Some ek => <[ek := k]> ex | None => ex end) !! ek = Some k' ↔
    (ek_of v = Some ek ∧ k = k') ∨ ex !! ek = Some k') as ->.
  { destruct (ek_of v) as [ek'|] eqn:E; [rewrite lookup_insert_Some|]; naive_solver. }
  rewrite (Hi ek k'). setoid_rewrite lookup_insert_Some. split.
  - intros [[He <-]|(v' & Hv' & He)]; [eauto|]. exists v'. split; [|done].
    right. split; [|done]. intros <-. congruence.
  - intros (v' & [[<- <-]|[Hne Hv']] & He); [auto|]. right. eauto.
Qed.
End index.

Lemma seqs_ok_mono n n' kv : n ≤ n' → seqs_ok n kv → seqs_ok n' kv.
Proof. intros Hle [Hb Hi]. split; [|done]. intros k v Hk. specialize (Hb k v Hk). lia. Qed.

Lemma seqs_ok_insert n kv k v :
  seqs_ok n kv → seq v = n + 1 → seqs_ok (n + 1) (<[k := v]> kv).
Proof.
  intros [Hb Hi] Hv. split.
  - intros k' v' [[_ <-]|[_ H]]%lookup_insert_Some; [lia|]. specialize (Hb _ _ H). lia.
  - intros k1 k2 v1 v2 [[<- <-]|[_ H1]]%lookup_insert_Some [[<- <-]|[_ H2]]%lookup_insert_Some E;
      [done|specialize (Hb _ _ H2); lia|specialize (Hb _ _ H1); lia|eauto].
Qed.

(** ** The readable content of a map *)

Section content.
Context {raft : OpenRaft} {Mp : Type} `{!StateMap raft Mp, !StateMapLaws Mp}.
Implicit Types (m : Mp) (s : StateMachine Mp).

Definition kvv m : gmap string (SeqV bytes) := omap seqv_of_marked (kv_raw m).
Definition expv m : gmap ExpireKey string := omap marked_value (exp_raw m).

Lemma seqv_default m k : seqv_of_marked (default marked_empty (kv_raw m !! k)) = kvv m !! k.
Proof. unfold kvv. rewrite lookup_omap. by destruct (kv_raw m !! k). Qed.

Lemma kv_get_live s k :
  smap_wf (sm_map s) → ∃ a, kv_get s k = Ok a ∧ seqv_of_marked a = kvv (sm_map s) !! k.
Proof.
  intros Hwf. eexists. split; [apply ro_get_spec; by apply smap_wf_kv|apply seqv_default].
Qed.

Lemma get_live s k :
  smap_wf (sm_map s) → get_maybe_expired_kv s k = Ok (kvv (sm_map s) !! k).
Proof.
  intros Hwf. destruct (kv_get_live s k Hwf) as (a & Ha & Hv).
  unfold get_maybe_expired_kv. rewrite Ha. cbn. by rewrite Hv.
Qed.

Lemma kv_put m k v mt :
  smap_wf m → curr_seq (map_sys m) + 1 < u64_mod →
  ∃ m' p, map_set (V := bytes) k (Some (v, mt)) m =
      (m', Ok (p, Normal (curr_seq (map_sys m) + 1) v mt)) ∧
    seqv_of_marked p = kvv m !! k ∧ smap_wf m' ∧
    kvv m' = <[k := mk_SeqV (curr_seq (map_sys m) + 1) mt v]> (kvv m) ∧
    exp_raw m' = exp_raw m ∧
    map_sys m' = update_seq (curr_seq (map_sys m) + 1) (map_sys m).
Proof.
  intros Hwf Hs. destruct (kv_set_Some m k v mt Hwf Hs) as (m' & E & Hwf' & Hkv & Hexp & Hsys).
  exists m', (default marked_empty (kv_raw m !! k)). split; [done|]. split; [apply seqv_default|].
  split; [done|]. split; [|done].
  unfold kvv. rewrite Hkv. by apply (omap_insert_Some _ _ _ (Normal _ v mt)).
Qed.

Lemma kv_del m k :
  smap_wf m →
  ∃ m' p t, map_set (V := bytes) k None m = (m', Ok (p, TombStone t)) ∧
    seqv_of_marked p = kvv m !! k ∧ smap_wf m' ∧ kvv m' = delete k (kvv m) ∧
    exp_raw m' = exp_raw m ∧ map_sys m' = map_sys m.
Proof.
  intros Hwf. destruct (kv_set_None m k Hwf) as (m' & t & E & Hwf' & Hkv & Hexp & Hsys).
  exists m', (default marked_empty (kv_raw m !! k)), t. split; [done|]. split; [apply seqv_default|].
  split; [done|]. split; [|done]. unfold kvv. destruct Hkv as [->|[-> Hnone]].
  - by apply (omap_insert_None _ _ _ (TombStone t)).
  - rewrite delete_id; [done|]. by rewrite lookup_omap, Hnone.
Qed.

Lemma exp_put m ek k mt :
  smap_wf m → curr_seq (map_sys m) ≠ 0 → exp_raw m !! ek = None →
  ∃ m' r, map_set (V := string) ek (Some (k, mt)) m = (m', Ok r) ∧ smap_wf m' ∧
    expv m' = <[ek := k]> (expv m) ∧
    (∀ ek', is_Some (exp_raw m' !! ek') → ek' = ek ∨ is_Some (exp_raw m !! ek')) ∧
    kvv m' = kvv m ∧ map_sys m' = map_sys m.
Proof.
  intros Hwf Hs Hek. destruct (exp_set_Some m ek k mt Hwf Hs Hek) as (m' & E & Hwf' & Hexp & Hkv & Hsys).
  eexists m', _. split; [done|]. split; [done|]. split; [|split; [|split; [|done]]].
  - unfold expv. rewrite Hexp. by apply (omap_insert_Some _ _ _ (Normal _ k mt)).
  - intros ek'. rewrite Hexp. destruct (decide (ek = ek')) as [->|?]; [auto|].
    rewrite lookup_insert_ne by done. auto.
  - unfold kvv. by rewrite Hkv.
Qed.

Lemma exp_del m ek :
  smap_wf m →
  ∃ m' r, map_set (V := string) ek None m = (m', Ok r) ∧ smap_wf m' ∧
    expv m' = delete ek (expv m) ∧
    (∀ ek', is_Some (exp_raw m' !! ek') → ek' = ek ∨ is_Some (exp_raw m !! ek')) ∧
    kvv m' = kvv m ∧ map_sys m' = map_sys m.
Proof.
  intros Hwf. destruct (exp_set_None m ek Hwf) as (m' & t & E & Hwf' & Hexp & Hkv & Hsys).
  eexists m', _. split; [done|]. split; [done|]. split; [|split; [|split; [|done]]].
  - unfold expv. destruct Hexp as [->|[-> Hnone]].
    + by apply (omap_insert_None _ _ _ (TombStone t)).
    + rewrite delete_id; [done|]. by rewrite lookup_omap, Hnone.
  - intros ek'. destruct Hexp as [->|[-> _]]; [|auto].
    destruct (decide (ek = ek')) as [->|?]; [auto|]. rewrite lookup_insert_ne by done. auto.
  - unfold kvv. by rewrite Hkv.
Qed.

Lemma update_meta_eval m k mt :
  smap_wf m →
  ∃ a, seqv_of_marked a = kvv m !! k ∧
    update_meta (V := bytes) k mt m =
      match kvv m !! k with
      | None => (m, Ok (a, a))
      | Some v => map_set (V := bytes) k (Some (data v, mt)) m
      end.
Proof.
  intros Hwf. exists (default marked_empty (kv_raw m !! k)). split; [apply seqv_default|].
  unfold update_meta. m_unfold. rewrite ro_get_spec by (by apply smap_wf_kv).
  unfold kvv. rewrite lookup_omap. by destruct (kv_raw m !! k) as [[]|].
Qed.

(** ** Upserts of the primary index *)

Lemma on_map_eval {A} (c : M Mp A) s m' o :
  c (sm_map s) = (m', o) → on_map c s = (set_map m' s, o).
Proof. intros E. unfold on_map, zoom. by rewrite E. Qed.

Lemma set_map_id s : set_map (sm_map s) s = s.
Proof. by destruct s. Qed.

(** The end of [upsert_kv_primary_index]: delete the value when it expired. *)
Definition expire_tail (k : string) (expire_ms : N) (p r : Marked bytes) :
    M (StateMachine Mp) (Marked bytes * Marked bytes) :=
  cursor ← gets expire_cursor;
  if expire_ms <? time_ms cursor then
    '(_, r) ← on_map (map_set (V := bytes) k None);
    mret (p, r)
  else mret (p, r).

Lemma expire_tail_spec k expire_ms p r s m1 :
  smap_wf m1 →
  ∃ m' r', expire_tail k expire_ms p r (set_map m1 s) = (set_map m' s, Ok (p, r')) ∧ smap_wf m' ∧
    exp_raw m' = exp_raw m1 ∧ map_sys m' = map_sys m1 ∧
    if expire_ms <? time_ms (expire_cursor s)
    then kvv m' = delete k (kvv m1) ∧ seqv_of_marked r' = None
    else kvv m' = kvv m1 ∧ r' = r.
Proof.
  intros Hwf. unfold expire_tail. m_unfold. cbn [set_map expire_cursor].
  destruct (expire_ms <? time_ms (expire_cursor s)).
  - destruct (kv_del m1 k Hwf) as (m' & p' & t & E & _ & Hwf' & Hkv & Hexp & Hsys).
    exists m', (TombStone t). rewrite (on_map_eval _ _ m' (Ok (p', TombStone t))) by done. done.
  - exists m1, r. done.
Qed.

(** Writing a value, which is deleted at once when it expired. *)
Lemma write_tail_spec k v mt s st :
  smap_wf (sm_map s) → kvv (sm_map s) = sp_kv st → map_sys (sm_map s) = sp_sys st →
  expire_cursor s = sp_cursor st → sequence (sp_sys st) + 1 < u64_mod →
  ∃ m' p r,
    ('(p, r) ← on_map (map_set (V := bytes) k (Some (v, mt)));
      expire_tail k (opt_expires_at_ms mt) p r) s = (set_map m' s, Ok (p, r)) ∧ smap_wf m' ∧
    exp_raw m' = exp_raw (sm_map s) ∧ seqv_of_marked p = sp_kv st !! k ∧
    seqv_of_marked r = (sp_write k v mt st).2 ∧ kvv m' = sp_kv (sp_write k v mt st).1 ∧
    map_sys m' = sp_sys (sp_write k v mt st).1.
Proof.
  intros Hwf Hkv Hsys Hcur Hseq. rewrite <-Hsys in Hseq.
  destruct (kv_put (sm_map s) k v mt Hwf Hseq) as (m1 & p1 & E1 & Hp1 & Hwf1 & Hkv1 & He1 & Hs1).
  rewrite (M_bind_Ok _ _ _ _ _ (on_map_eval _ _ _ _ E1)).
  destruct (expire_tail_spec k (opt_expires_at_ms mt) p1
    (Normal (curr_seq (map_sys (sm_map s)) + 1) v mt) s m1 Hwf1) as (m2 & r2 & E2 & Hwf2 & He2 & Hs2 & Hif).
  exists m2, p1, r2. rewrite E2, He2, Hp1, Hkv, Hs2, Hs1. unfold sp_write. cbn [sp_cursor sp_set_sys].
  rewrite <-Hcur, <-Hsys. destruct (_ <? _); destruct Hif as [-> Hr].
  - rewrite Hr, Hkv1, delete_insert_eq, Hkv. done.
  - rewrite Hr, Hkv1, Hkv. done.
Qed.

(** The upsert of the primary index does what [sp_primary] does. *)
Lemma primary_spec u ctx s st :
  smap_wf (sm_map s) → kvv (sm_map s) = sp_kv st → map_sys (sm_map s) = sp_sys st →
  expire_cursor s = sp_cursor st → sequence (sp_sys st) + 1 < u64_mod →
  ∃ m' p r, upsert_kv_primary_index u ctx s = (set_map m' s, Ok (p, r)) ∧ smap_wf m' ∧
    exp_raw m' = exp_raw (sm_map s) ∧ seqv_of_marked p = sp_kv st !! ukey u ∧
    seqv_of_marked r = (sp_primary u ctx st).2 ∧ kvv m' = sp_kv (sp_primary u ctx st).1 ∧
    map_sys m' = sp_sys (sp_primary u ctx st).1.
Proof.
  intros Hwf Hkv Hsys Hcur Hseq. unfold upsert_kv_primary_index, sp_primary.
  set (mt := (λ x, to_kv_meta x ctx) <$> uvalue_meta u).
  destruct (kv_get_live s (ukey u) Hwf) as (a & Ha & Hav). rewrite Hkv in Hav.
  unfold mbind at 1, M_bind at 1, get_st. unfold mbind at 1, M_bind at 1, lift. rewrite Ha.
  rewrite <-seqv_of_marked_seq, Hav.
  destruct (match_seq_err (useq u) (opt_seq (sp_kv st !! ukey u))).
  { exists (sm_map s), a, a. rewrite set_map_id. done. }
  pose proof (λ v, write_tail_spec (ukey u) v mt s st Hwf Hkv Hsys Hcur Hseq) as Hwrite.
  destruct (uvalue u) as [v| |].
  - exact (Hwrite v).
  - destruct (kv_del (sm_map s) (ukey u) Hwf) as (m1 & p1 & t & E1 & Hp1 & Hwf1 & Hkv1 & He1 & Hs1).
    rewrite (M_bind_Ok _ _ _ _ _ (on_map_eval _ _ _ _ E1)).
    destruct (expire_tail_spec (ukey u) (opt_expires_at_ms mt) p1 (TombStone t) s m1 Hwf1)
      as (m2 & r2 & E2 & Hwf2 & He2 & Hs2 & Hif).
    exists m2, p1, r2. unfold expire_tail in E2. rewrite E2, He2, Hp1, Hkv, Hs2, Hs1. cbn.
    destruct (_ <? _); destruct Hif as [-> Hr]; rewrite Hr, Hkv1, Hkv, ?delete_delete_eq; done.
  - destruct (update_meta_eval (sm_map s) (ukey u) mt Hwf) as (b & Hb & Eb).
    rewrite Hkv in Hb, Eb. destruct (sp_kv st !! ukey u) as [v|] eqn:Ek.
    + destruct (Hwrite (data v)) as (m' & p & r & E & Hrest).
      exists m', p, r. split; [|done]. rewrite <-E. unfold on_map, zoom, mbind, M_bind. by rewrite Eb.
    + rewrite (M_bind_Ok _ _ _ _ _ (on_map_eval _ _ _ _ Eb)).
      destruct (expire_tail_spec (ukey u) (opt_expires_at_ms mt) b b s (sm_map s) Hwf)
        as (m2 & r2 & E2 & Hwf2 & He2 & Hs2 & Hif).
      exists m2, b, r2. unfold expire_tail in E2. rewrite E2, He2, Hs2, Hsys. cbn.
      destruct (_ <? _); destruct Hif as [-> Hr]; rewrite Hr, Hkv; [|done].
      rewrite delete_id by done. done.
Qed.

(** ** The expiration index *)

(** The index key of a stored version. *)
Definition marked_ek (a : Marked bytes) : option ExpireKey :=
  (λ t, expire_key_new t (st_seq (order_key a))) <$> marked_expires_at_ms_opt a.

Lemma marked_ek_seqv a : marked_ek a = seqv_of_marked a ≫= ek_of.
Proof. by destruct a. Qed.

Definition index_remove (o : option ExpireKey) (ex : gmap ExpireKey string) : gmap ExpireKey string :=
  match o with Some ek => delete ek ex | None => ex end.
Definition index_add (o : option ExpireKey) (k : string) (ex : gmap ExpireKey string) :
    gmap ExpireKey string :=
  match o with Some ek => <[ek := k]> ex | None => ex end.

(** The index after the version [prev] of a key is replaced by [res]. *)
Definition index_update (k : string) (prev res : option (SeqV bytes)) (ex : gmap ExpireKey string) :
    gmap ExpireKey string :=
  if decide (prev = res) then ex
  else index_add (res ≫= ek_of) k (index_remove (prev ≫= ek_of) ex).

Lemma index_update_marked k removed added ex :
  index_update k (seqv_of_marked removed) (seqv_of_marked added) ex =
    if decide (removed = added) then ex
    else index_add (marked_ek added) k (index_remove (marked_ek removed) ex).
Proof.
  unfold index_update. rewrite !marked_ek_seqv. case_decide as Hs; case_decide as Hm; try done.
  - destruct removed, added; simplify_eq/=; done.
  - by subst.
Qed.

Lemma update_expire_index_spec key removed added s :
  smap_wf (sm_map s) →
  (∀ ek, marked_ek added = Some ek → removed ≠ added →
    exp_raw (sm_map s) !! ek = None ∧ marked_ek removed ≠ Some ek ∧ curr_seq (map_sys (sm_map s)) ≠ 0) →
  ∃ m', update_expire_index key removed added s = (set_map m' s, Ok tt) ∧ smap_wf m' ∧
    kvv m' = kvv (sm_map s) ∧ map_sys m' = map_sys (sm_map s) ∧
    expv m' = index_update key (seqv_of_marked removed) (seqv_of_marked added) (expv (sm_map s)) ∧
    (∀ ek, is_Some (exp_raw m' !! ek) →
      marked_ek removed = Some ek ∨ marked_ek added = Some ek ∨ is_Some (exp_raw (sm_map s) !! ek)).
Proof.
  intros Hwf Hfresh. rewrite index_update_marked. unfold update_expire_index.
  destruct (decide (removed = added)) as [|Hne].
  { exists (sm_map s). rewrite set_map_id. auto 10. }
  assert (∃ m1, (match marked_expires_at_ms_opt removed with
      | Some exp_ms =>
          _ ← on_map (map_set (V := string) (expire_key_new exp_ms (st_seq (order_key removed))) None);
          mret tt
      | None => mret tt
      end : M (StateMachine Mp) unit) s = (set_map m1 s, Ok tt) ∧ smap_wf m1 ∧
    kvv m1 = kvv (sm_map s) ∧ map_sys m1 = map_sys (sm_map s) ∧
    expv m1 = index_remove (marked_ek removed) (expv (sm_map s)) ∧
    (∀ ek, is_Some (exp_raw m1 !! ek) → marked_ek removed = Some ek ∨ is_Some (exp_raw (sm_map s) !! ek)))
    as (m1 & E1 & Hwf1 & Hkv1 & Hs1 & Hex1 & Hk1).
  { unfold marked_ek. destruct (marked_expires_at_ms_opt removed) as [t|].
    - destruct (exp_del (sm_map s) (expire_key_new t (st_seq (order_key removed))) Hwf)
        as (m1 & r & E & ? & ? & Hk & ? & ?).
      exists m1. rewrite (M_bind_Ok _ _ _ _ _ (on_map_eval _ _ _ _ E)).
      do 5 (split; [done|]). intros ek [->|?]%Hk; auto.
    - exists (sm_map s). rewrite set_map_id. auto 10. }
  rewrite (M_bind_Ok _ _ _ _ _ E1). unfold marked_ek in *.
  destruct (marked_expires_at_ms_opt added) as [t|]; cbn [fmap option_fmap option_map index_add] in *.
  - destruct (Hfresh _ eq_refl Hne) as (Hnone & Hdiff & Hs).
    destruct (exp_put m1 (expire_key_new t (st_seq (order_key added))) key None Hwf1)
      as (m2 & r & E & ? & Hex2 & Hk & ? & ?).
    { by rewrite Hs1. }
    { destruct (exp_raw m1 !! _) eqn:E; [|done]. destruct (Hk1 _ (mk_is_Some _ _ E)) as [?|[? ?]]; congruence. }
    exists m2. rewrite (M_bind_Ok _ _ _ _ _ (on_map_eval _ (set_map m1 s) _ _ E)).
    split; [done|]. split; [done|]. split; [congruence|]. split; [congruence|]. split; [by rewrite Hex2, Hex1|].
    intros ek [->|[?|?]%Hk1]%Hk; auto.
  - exists m1. do 5 (split; [done|]). intros ek [?|?]%Hk1; auto.
Qed.
End content.

(** ** Listing *)

Lemma try_filter_map_Ok {A B} (f : A → option B) l :
  try_filter_map f (Ok <$> l) = Ok <$> omap f l.
Proof.
  induction l as [|x l IH]; [done|]. cbn. rewrite IH. by destruct (f x).
Qed.

(** On a sorted list in which the strings with the prefix come first, taking
    while the prefix is there takes all of them. *)
Lemma take_while_prefix {V} p (l : list (string * V)) :
  StronglySorted klt l → (∀ k v, (k, v) ∈ l → String.le p k) →
  try_take_while (λ x, starts_with x.1 p) (Ok <$> l) =
    Ok <$> filter (λ x, starts_with x.1 p = true) l.
Proof.
  intros Hs. induction Hs as [|[k v] l Hl IH Hx]; intros Hle; [done|].
  rewrite fmap_cons, filter_cons. cbn [try_take_while fst]. destruct (starts_with k p) eqn:E.
  - rewrite decide_True by done. rewrite IH; [done|]. intros. eapply Hle. by right.
  - rewrite decide_False by done. rewrite Forall_forall in Hx.
    assert (filter (λ x, starts_with x.1 p = true) l = []) as ->; [|done].
    apply elem_of_nil_inv. intros [k' v'] [Hp' Hin]%list_elem_of_filter. cbn in Hp'.
    apply not_true_iff_false in E. apply E. apply starts_with_iff.
    apply starts_with_iff in Hp' as [x ->].
    apply (prefix_between p k x); [eapply Hle; left|].
    exact (key_lt_le _ _ (Hx _ Hin)).
Qed.

Section omap_range.
Context `{OrdKey K} {A B : Type} (f : A → option B) (g : gmap K A).

Lemma omap_sorted (l : list (K * A)) (F : K * A → option (K * B)) :
  (∀ x y, F x = Some y → y.1 = x.1) → StronglySorted klt l → StronglySorted klt (omap F l).
Proof.
  intros HF. induction 1 as [|x l Hl IH Hx]; [constructor|]. cbn.
  destruct (F x) as [y|] eqn:E; [|done]. constructor; [done|].
  rewrite Forall_forall in Hx. apply Forall_forall. intros z (x' & Hin & E')%list_elem_of_omap.
  unfold kv_lt. rewrite (HF _ _ E), (HF _ _ E'). by apply (Hx x').
Qed.

Lemma omap_range_list b (F : K * A → option (K * B)) :
  (∀ x, F x = (λ v, (x.1, v)) <$> f x.2) →
  omap F (range_list g b) = range_list (omap f g) b.
Proof.
  intros HF. apply range_list_unique.
  - apply omap_sorted; [|apply range_list_sorted].
    intros x y. rewrite HF. by intros (v & _ & ->)%fmap_Some.
  - intros k v. rewrite list_elem_of_omap, lookup_omap_Some. split.
    + intros ([k' a] & [Hg Hin]%elem_of_range_list & E). rewrite HF in E.
      apply fmap_Some in E as (v' & E & [= -> ->]). eauto.
    + intros [(a & Ha & E) Hin]. exists (k, a). split; [by apply elem_of_range_list|].
      rewrite HF. cbn. by rewrite Ha.
Qed.
End omap_range.

Section listing.
Context {raft : OpenRaft} {Mp : Type} `{!StateMap raft Mp, !StateMapLaws Mp}.
Implicit Types (s : StateMachine Mp).

Lemma range_kv_spec s b :
  smap_wf (sm_map s) → ¬ bad_range b →
  range_kv s b = Ok (Ok <$> range_list (kvv (sm_map s)) b).
Proof.
  intros Hwf Hb. unfold range_kv. rewrite ro_range_spec by (done || by apply smap_wf_kv).
  cbn [mbind Outcome_bind]. rewrite try_filter_map_Ok. do 2 f_equal. by apply omap_range_list.
Qed.

Lemma list_kv_spec s p :
  smap_wf (sm_map s) → list_kv s p = Ok (Ok <$> sp_list (kvv (sm_map s)) p).
Proof.
  intros Hwf. unfold list_kv.
  set (b := match prefix_right_bound p with
    | Some r => (Included p, Excluded r) | None => (Included p, Unbounded) end).
  assert (¬ bad_range b ∧ ∀ k, starts_with k p = true → in_bounds b k) as [Hb Hin].
  { unfold b. destruct (prefix_right_bound p) as [r|] eqn:Er; cbn; split; try by intros [].
    - intros Hn. apply Hn. pose proof (prefix_right_bound_above p r EmptyString Er) as Hlt.
      rewrite str_app_nil_r in Hlt. exact (key_lt_le _ _ Hlt).
    - intros k [x ->]%starts_with_iff. split; [apply str_le_prefix|]. by apply prefix_right_bound_above.
    - intros k [x ->]%starts_with_iff. split; [apply str_le_prefix|done]. }
  assert (ro_range (V := bytes) (sm_map s) b = Ok (Ok <$> range_list (kv_raw (sm_map s)) b)) as Hr.
  { apply ro_range_spec; [by apply smap_wf_kv|done]. }
  assert ((match prefix_right_bound p with
    | Some bound => ro_range (V := bytes) (sm_map s) (Included p, Excluded bound)
    | None => ro_range (V := bytes) (sm_map s) (Included p, Unbounded)
    end) = Ok (Ok <$> range_list (kv_raw (sm_map s)) b)) as ->
    by (rewrite <-Hr; unfold b; by destruct (prefix_right_bound p)).
  cbn [mbind Outcome_bind]. rewrite take_while_prefix.
  2: apply range_list_sorted.
  2: { intros k v [_ [Hl _]]%elem_of_range_list. unfold b in Hl. by destruct (prefix_right_bound p). }
  rewrite try_filter_map_Ok. do 2 f_equal. apply (sorted_kv_ext key_le).
  - apply omap_sorted; [|apply sorted_kv_filter, range_list_sorted].
    intros x y. unfold marked_to_seqv. by intros (v & _ & ->)%fmap_Some.
  - apply sorted_kv_filter, btree_iter_sorted.
  - intros [k v]. unfold sp_list. rewrite list_elem_of_omap, list_elem_of_filter, elem_of_btree_iter.
    unfold kvv. rewrite lookup_omap_Some. split.
    + intros ([k' a] & [Hp [Ha _]%elem_of_range_list]%list_elem_of_filter & E).
      unfold marked_to_seqv in E. apply fmap_Some in E as (v' & E & [= -> ->]). eauto.
    + intros [Hp (a & Ha & E)]. exists (k, a). unfold marked_to_seqv. cbn. rewrite Ha.
      split; [|done]. apply list_elem_of_filter. split; [done|]. apply elem_of_range_list. auto.
Qed.

Lemma list_expire_index_spec s t :
  smap_wf (sm_map s) →
  list_expire_index s t = Ok (Ok <$>
    if decide (key_le (expire_key_new t 0) (expire_cursor s)) then []
    else range_list (expv (sm_map s)) (Included (expire_cursor s), Excluded (expire_key_new t 0))).
Proof.
  intros Hwf. unfold list_expire_index. case_decide as Hle; [done|].
  rewrite ro_range_spec.
  2: by apply smap_wf_exp.
  2: { cbn. intros Hn. apply Hn. by destruct (total key_le (expire_cursor s) (expire_key_new t 0)). }
  cbn [mbind Outcome_bind]. rewrite try_filter_map_Ok. do 2 f_equal.
  apply omap_range_list. by intros [k []].
Qed.
End listing.
