(* ===== verification/ApplierProofs.v ===== *)
(** The applier refines the abstract state machine: over any lawful map, every
    operation ends without an error or a panic, in a state that represents the
    abstract result, and the expiration index stays the index of the
    key-values. *)

From stdpp Require Import base orders sorting strings gmap numbers list.
From S2P Require Import Prelude BTree RustStr External ExpireKey MetaTypes Marked MapApi Level StateMap.
From S2P Require Import Txn StateMachine Applier ApplierSpec StateMachineProofs.
Local Open Scope N_scope.

(** ** The invariant of the abstract state *)

Section inv.
Context {raft : OpenRaft}.
Implicit Types st : Spec.

Record Inv st : Prop := {
  inv_seqs : seqs_ok (sequence (sp_sys st)) (sp_kv st);
  inv_bound : sequence (sp_sys st) < u64_mod;
  (** no key expires before the cursor *)
  inv_cursor : ∀ k v, sp_kv st !! k = Some v → time_ms (sp_cursor st) ≤ opt_expires_at_ms (meta v);
  inv_cursor_seq : ek_seq (sp_cursor st) = 0;
}.

(** What an upsert does to the key-values. *)
Inductive upsert_effect st (k : string) : Spec → option (SeqV bytes) → Prop :=
| effect_none : upsert_effect st k st (sp_kv st !! k)
| effect_delete d :
    (d = sp_sys st ∨ d = update_seq (sequence (sp_sys st) + 1) (sp_sys st)) →
    upsert_effect st k (sp_set_kv (delete k (sp_kv st)) (sp_set_sys d st)) None
| effect_write v :
    seq v = sequence (sp_sys st) + 1 → time_ms (sp_cursor st) ≤ opt_expires_at_ms (meta v) →
    upsert_effect st k
      (sp_set_kv (<[k := v]> (sp_kv st)) (sp_set_sys (update_seq (sequence (sp_sys st) + 1) (sp_sys st)) st))
      (Some v).

Lemma sp_set_sys_id st : sp_set_sys (sp_sys st) st = st.
Proof. by destruct st. Qed.

Lemma sp_write_effect st k v mt :
  upsert_effect st k (sp_write k v mt st).1 (sp_write k v mt st).2.
Proof.
  unfold sp_write. cbn [sp_cursor sp_set_sys sp_kv].
  destruct (N.ltb_spec (opt_expires_at_ms mt) (time_ms (sp_cursor st))).
  - apply effect_delete. by right.
  - by apply effect_write.
Qed.

Lemma sp_primary_effect st u ctx :
  upsert_effect st (ukey u) (sp_primary u ctx st).1 (sp_primary u ctx st).2.
Proof.
  unfold sp_primary. destruct (match_seq_err _ _); [apply effect_none|].
  destruct (uvalue u) as [v| |]; [apply sp_write_effect| |].
  - pose proof (effect_delete st (ukey u) (sp_sys st) (or_introl eq_refl)) as He.
    by rewrite sp_set_sys_id in He.
  - destruct (sp_kv st !! ukey u) as [p|] eqn:E; [apply sp_write_effect|].
    rewrite <-E. apply effect_none.
Qed.

Lemma effect_inv st k st' res :
  Inv st → sequence (sp_sys st) + 1 < u64_mod → upsert_effect st k st' res → Inv st'.
Proof.
  intros [Hs Hb Hc Hz] Hlt [|d Hd|v Hv He]; [done|..]; split; cbn; try done.
  - apply seqs_ok_delete. destruct Hd as [->| ->]; [done|]. eapply seqs_ok_mono; [|done]. cbn. lia.
  - destruct Hd as [->| ->]; [done|]. done.
  - intros k' v' [_ ?]%lookup_delete_Some. eauto.
  - by apply seqs_ok_insert.
  - intros k' v' [[_ <-]|[_ ?]]%lookup_insert_Some; eauto.
Qed.

(** The index after an upsert is the index of the new key-values. *)
Lemma effect_index st k st' res ex :
  Inv st → sequence (sp_sys st) + 1 < u64_mod → upsert_effect st k st' res →
  indexes (sp_kv st) ex → indexes (sp_kv st') (index_update k (sp_kv st !! k) res ex).
Proof.
  intros [Hs Hb Hc _] Hlt He Hi. unfold index_update.
  destruct He as [|d Hd|v Hv He].
  - by rewrite decide_True.
  - cbn. destruct (sp_kv st !! k) as [p|] eqn:Hp.
    + rewrite decide_False by done. exact (indexes_delete _ Hb _ _ k p Hs Hi Hp).
    + rewrite decide_True by done. by rewrite delete_id.
  - assert (sp_kv st !! k ≠ Some v) as Hne.
    { intros E. pose proof (seqs_bound _ _ Hs _ _ E). lia. }
    rewrite decide_False by done. cbn. rewrite <-insert_delete_eq.
    apply (indexes_insert _ Hb); [|apply lookup_delete_eq| |lia].
    + destruct (sp_kv st !! k) as [p|] eqn:Hp; [exact (indexes_delete _ Hb _ _ k p Hs Hi Hp)|]. by rewrite delete_id.
    + intros k' v' [_ E]%lookup_delete_Some. pose proof (seqs_bound _ _ Hs _ _ E). lia.
Qed.

Lemma prev_ek_bound st k ek :
  Inv st → sp_kv st !! k ≫= ek_of = Some ek → ek_seq ek ≤ sequence (sp_sys st).
Proof.
  intros [Hs Hb _ _] (v & Hv & He)%bind_Some. pose proof (seqs_bound _ _ Hs _ _ Hv).
  apply ek_of_Some in He as [-> _]; lia.
Qed.
End inv.

(** ** The simulation *)

Section sim.
Context {raft : OpenRaft} {Mp : Type} `{!StateMap raft Mp, !StateMapLaws Mp}.
Implicit Types (a : Applier Mp) (s : StateMachine Mp) (st : Spec).

(** The applier represents the abstract state. *)
Record Rep a st : Prop := {
  rep_wf : smap_wf (sm_map (ap_sm a));
  rep_kv : kvv (sm_map (ap_sm a)) = sp_kv st;
  rep_sys : map_sys (sm_map (ap_sm a)) = sp_sys st;
  rep_cursor : expire_cursor (ap_sm a) = sp_cursor st;
  rep_sub : subscriber (ap_sm a) = sp_sub st;
  rep_changes : changes a = sp_changes st;
  rep_index : indexes (sp_kv st) (expv (sm_map (ap_sm a)));
  rep_keys : ∀ ek, is_Some (exp_raw (sm_map (ap_sm a)) !! ek) → ek_seq ek ≤ sequence (sp_sys st);
}.

Lemma on_sm_eval {A} (c : M (StateMachine Mp) A) a s' o :
  c (ap_sm a) = (s', o) → on_sm c a = (set_sm s' a, o).
Proof. intros E. unfold on_sm, zoom. by rewrite E. Qed.

Lemma push_change_eval k p r a :
  push_change k p r a =
    (if decide (p = r) then a else set_changes (changes a ++ [(k, p, r)]) a, Ok tt).
Proof. unfold push_change. by case_decide. Qed.

(** Recording a change on both sides. *)
Lemma rep_push k p r a st :
  Rep a st → ∃ a', push_change k p r a = (a', Ok tt) ∧ Rep a' (sp_change k p r st) ∧ cmd_ctx a' = cmd_ctx a.
Proof.
  intros []. rewrite push_change_eval. unfold sp_change. case_decide.
  - by exists a.
  - eexists. split; [done|]. split; [|done]. split; try done. cbn. congruence.
Qed.

Lemma sp_change_frame k p r st :
  sp_kv (sp_change k p r st) = sp_kv st ∧ sp_sys (sp_change k p r st) = sp_sys st ∧
  sp_cursor (sp_change k p r st) = sp_cursor st ∧ sp_sub (sp_change k p r st) = sp_sub st.
Proof. unfold sp_change. by case_decide. Qed.

Lemma inv_change k p r st : Inv st → Inv (sp_change k p r st).
Proof.
  intros [? ? ? ?]. destruct (sp_change_frame k p r st) as (Hk & Hs & Hc & _).
  split; by rewrite ?Hk, ?Hs, ?Hc.
Qed.

Lemma effect_frame st k st' res :
  upsert_effect st k st' res →
  sp_cursor st' = sp_cursor st ∧ sp_sub st' = sp_sub st ∧ sp_changes st' = sp_changes st ∧
  sequence (sp_sys st) ≤ sequence (sp_sys st') ≤ sequence (sp_sys st) + 1.
Proof. intros [|d [->| ->]|v _ _]; cbn; repeat split; lia. Qed.

Lemma sp_upsert_inv u ctx st :
  Inv st → sequence (sp_sys st) + 1 < u64_mod → Inv (sp_upsert u ctx st).1.
Proof.
  intros Hi Hs. unfold sp_upsert. pose proof (sp_primary_effect st u ctx) as He.
  destruct (sp_primary u ctx st) as [st' res]. by apply inv_change, (effect_inv st (ukey u) st' res).
Qed.

(** Both indexes after an upsert. *)
Lemma upsert_sm_spec u ctx a st :
  Rep a st → Inv st → sequence (sp_sys st) + 1 < u64_mod →
  ∃ m1 m2 p r, upsert_kv_primary_index u ctx (ap_sm a) = (set_map m1 (ap_sm a), Ok (p, r)) ∧
    update_expire_index (ukey u) p r (set_map m1 (ap_sm a)) = (set_map m2 (ap_sm a), Ok tt) ∧
    seqv_of_marked p = sp_kv st !! ukey u ∧ seqv_of_marked r = (sp_primary u ctx st).2 ∧
    Rep (set_sm (set_map m2 (ap_sm a)) a) (sp_primary u ctx st).1.
Proof.
  intros [Hwf Hkv Hsys Hcur Hsub Hch Hidx Hkeys] Hinv Hseq.
  destruct (primary_spec u ctx (ap_sm a) st Hwf Hkv Hsys Hcur Hseq)
    as (m1 & p & r & E1 & Hwf1 & Hexp1 & Hp & Hr & Hkv1 & Hsys1).
  pose proof (sp_primary_effect st u ctx) as He.
  destruct (sp_primary u ctx st) as [st' res]. cbn [fst snd] in *.
  pose proof (effect_frame _ _ _ _ He) as (Fc & Fs & Fch & Fseq).
  assert (∀ ek, marked_ek p = Some ek → ek_seq ek ≤ sequence (sp_sys st)) as Hpek.
  { intros ek. rewrite marked_ek_seqv, Hp. by apply prev_ek_bound. }
  assert (∀ ek, marked_ek r = Some ek → seqv_of_marked p = seqv_of_marked r ∨
    (ek_seq ek = sequence (sp_sys st) + 1 ∧ sequence (sp_sys st') = sequence (sp_sys st) + 1)) as Hrek.
  { intros ek. rewrite marked_ek_seqv, Hp, Hr. destruct He as [|d _|v Hv _]; [by left|done|].
    cbn. intros [-> _]%ek_of_Some; [by right|lia]. }
  destruct (update_expire_index_spec (ukey u) p r (set_map m1 (ap_sm a)) Hwf1)
    as (m2 & E2 & Hwf2 & Hkv2 & Hsys2 & Hexp2 & Hkeys2).
  { cbn [sm_map set_map]. intros ek Hek Hne. destruct (Hrek ek Hek) as [Heq|[Hs Hs']].
    { destruct p, r; simplify_eq/=. }
    rewrite Hexp1, Hsys1. split; [|split].
    - destruct (exp_raw _ !! ek) eqn:E; [|done]. pose proof (Hkeys _ (mk_is_Some _ _ E)). lia.
    - intros Hpe%Hpek. lia.
    - unfold curr_seq. lia. }
  exists m1, m2, p, r. split; [done|]. split; [done|]. split; [done|]. split; [done|].
  cbn [sm_map set_map] in *. split; cbn.
  - done.
  - congruence.
  - congruence.
  - congruence.
  - congruence.
  - congruence.
  - rewrite Hexp2, Hp, Hr. unfold expv. rewrite Hexp1. by eapply (effect_index st (ukey u) st' res).
  - intros ek [Hek|[Hek|Hek]]%Hkeys2.
    + specialize (Hpek ek Hek). lia.
    + destruct (Hrek ek Hek) as [Heq|[? ?]]; [|lia].
      rewrite marked_ek_seqv, <-Heq, <-marked_ek_seqv in Hek. specialize (Hpek ek Hek). lia.
    + rewrite Hexp1 in Hek. specialize (Hkeys ek Hek). lia.
Qed.

(** [upsert_kv] does what [sp_upsert] does. *)
Lemma upsert_sim u a st :
  Rep a st → Inv st → sequence (sp_sys st) + 1 < u64_mod →
  ∃ a', upsert_kv u a = (a', Ok (sp_upsert u (cmd_ctx a) st).2) ∧
    Rep a' (sp_upsert u (cmd_ctx a) st).1 ∧ cmd_ctx a' = cmd_ctx a.
Proof.
  intros HR HI Hseq.
  destruct (upsert_sm_spec u (cmd_ctx a) a st HR HI Hseq) as (m1 & m2 & p & r & E1 & E2 & Hp & Hr & HR2).
  unfold upsert_kv. unfold mbind at 1, M_bind at 1, get_st.
  rewrite (M_bind_Ok _ _ _ _ _ (on_sm_eval _ _ _ _ E1)).
  rewrite (M_bind_Ok _ _ _ _ _ (on_sm_eval _ (set_sm (set_map m1 (ap_sm a)) a) _ _ E2)).
  unfold sp_upsert. rewrite Hp, Hr. destruct (sp_primary u (cmd_ctx a) st) as [st' res]. cbn [fst snd] in *.
  destruct (rep_push (ukey u) (sp_kv st !! ukey u) res _ _ HR2) as (a' & E3 & HR3 & Hctx).
  exists a'. split; [|done]. by rewrite (M_bind_Ok _ _ _ _ _ E3).
Qed.

(** ** Simulations and how they compose

    [c] does what [f] does, with the context [ctx], and writes at most [n] new
    versions.  There is always room for one more sequence number. *)
Definition simulates {A} (ctx : CmdContext) (n : N) (c : M (Applier Mp) A) (f : Spec → Spec * A) : Prop :=
  ∀ a st, Rep a st → Inv st → cmd_ctx a = ctx → sequence (sp_sys st) + n + 1 < u64_mod →
    ∃ a', c a = (a', Ok (f st).2) ∧ Rep a' (f st).1 ∧ Inv (f st).1 ∧ cmd_ctx a' = ctx ∧
      sequence (sp_sys (f st).1) ≤ sequence (sp_sys st) + n.

Lemma sim_ret {A} ctx n (x : A) : simulates ctx n (mret x) (λ st, (st, x)).
Proof. intros a st HR HI Hc Hs. exists a. split_and!; try done; cbn; lia. Qed.

Lemma sim_bind {A B} ctx n1 n2 (c : M (Applier Mp) A) f (k : A → M (Applier Mp) B) g :
  simulates ctx n1 c f → (∀ x, simulates ctx n2 (k x) (g x)) →
  simulates ctx (n1 + n2) (c ≫= k) (λ st, g (f st).2 (f st).1).
Proof.
  intros H1 H2 a st HR HI Hc Hs.
  destruct (H1 a st HR HI Hc) as (a1 & E1 & HR1 & HI1 & Hc1 & Hs1); [lia|].
  destruct (H2 (f st).2 a1 (f st).1 HR1 HI1 Hc1) as (a2 & E2 & HR2 & HI2 & Hc2 & Hs2); [lia|].
  exists a2. rewrite (M_bind_Ok _ _ _ _ _ E1). split_and!; [done..|lia].
Qed.

Lemma sim_lift {A B} ctx n (x : A) (k : A → M (Applier Mp) B) f :
  simulates ctx n (k x) f → simulates ctx n (x ← lift (Ok x); k x) f.
Proof. done. Qed.

(** A computation whose result is then mapped by [h]. *)
Lemma sim_map {A B} ctx n (c : M (Applier Mp) A) f (k : A → M (Applier Mp) B) h :
  simulates ctx n c f → (∀ x, k x = mret (h x)) →
  simulates ctx n (c ≫= k) (λ st, ((f st).1, h (f st).2)).
Proof.
  intros Hc Hk. rewrite <-(N.add_0_r n). apply (sim_bind ctx n 0 c f k (λ x st, (st, h x))); [done|].
  intros x. rewrite Hk. apply sim_ret.
Qed.

Lemma sim_ext {A} ctx n c (f g : Spec → Spec * A) :
  (∀ st, f st = g st) → simulates ctx n c f → simulates ctx n c g.
Proof. intros Hfg Hf a st. rewrite <-Hfg. apply Hf. Qed.

Lemma sim_mono {A} ctx n n' c (f : Spec → Spec * A) :
  n ≤ n' → simulates ctx n c f → simulates ctx n' c f.
Proof.
  intros Hle Hf a st HR HI Hc Hs. destruct (Hf a st HR HI Hc) as (a' & ? & ? & ? & ? & ?); [lia|].
  exists a'. split_and!; [done..|lia].
Qed.

(** A read of the state; [φ] gives the value the code reads. *)
Lemma sim_read {A B C} ctx n (o : Applier Mp → Outcome A) (h : Spec → C) (φ : C → A)
    (k : A → M (Applier Mp) B) g :
  (∀ a st, Rep a st → o a = Ok (φ (h st))) → (∀ x, simulates ctx n (k (φ x)) (g x)) →
  simulates ctx n (a ← get_st; x ← lift (o a); k x) (λ st, g (h st) st).
Proof.
  intros Ho Hk a st HR HI Hc Hs. unfold mbind at 1, M_bind at 1, get_st.
  unfold mbind at 1, M_bind at 1, lift. rewrite (Ho a st HR). by apply Hk.
Qed.

Lemma sp_upsert_seq u ctx st :
  sequence (sp_sys (sp_upsert u ctx st).1) ≤
    sequence (sp_sys st) + match uvalue u with Delete => 0 | _ => 1 end.
Proof.
  unfold sp_upsert, sp_primary, sp_write.
  destruct (match_seq_err _ _); cbn [fst].
  { destruct (sp_change_frame (ukey u) (sp_kv st !! ukey u) (sp_kv st !! ukey u) st) as (_ & -> & _).
    destruct (uvalue u); lia. }
  destruct (uvalue u) as [v| |]; [destruct (_ <? _)| |destruct (sp_kv st !! ukey u); [destruct (_ <? _)|]];
    cbn [fst]; match goal with |- context [sp_change ?k ?p ?r ?st'] =>
      destruct (sp_change_frame k p r st') as (_ & -> & _) end; cbn; lia.
Qed.

Lemma sim_upsert ctx u :
  simulates ctx (match uvalue u with Delete => 0 | _ => 1 end) (upsert_kv u) (sp_upsert u ctx).
Proof.
  intros a st HR HI <- Hs.
  destruct (upsert_sim u a st HR HI) as (a' & E & HR' & Hc); [lia|].
  exists a'. split_and!; [done|done|by apply sp_upsert_inv; [|lia]|done|apply sp_upsert_seq].
Qed.

Lemma sim_push ctx k p r : simulates ctx 0 (push_change k p r) (λ st, (sp_change k p r st, tt)).
Proof.
  intros a st HR HI Hc Hs. destruct (rep_push k p r a st HR) as (a' & E & HR' & Hc').
  exists a'. cbn. destruct (sp_change_frame k p r st) as (_ & -> & _).
  split_and!; [done|done|by apply inv_change|congruence|lia].
Qed.

(** ** Conditions *)

Lemma get_sim a st k : Rep a st → get_maybe_expired_kv (ap_sm a) k = Ok (sp_kv st !! k).
Proof. intros []. rewrite get_live by done. congruence. Qed.

Lemma list_sim a st p : Rep a st → list_kv (ap_sm a) p = Ok (Ok <$> sp_list (sp_kv st) p).
Proof. intros []. rewrite list_kv_spec by done. congruence. Qed.

Lemma try_count_Ok {A} (l : list A) acc :
  acc + N.of_nat (length l) < u64_mod → try_count acc (Ok <$> l) = Ok (acc + N.of_nat (length l)).
Proof.
  revert acc. induction l as [|x l IH]; intros acc Hl; cbn [length] in *.
  - cbn. f_equal. lia.
  - rewrite fmap_cons. cbn [try_count]. rewrite wrap64_small by lia. rewrite IH by lia. f_equal. lia.
Qed.

Lemma eval_compare_N l op r : eval_compare N.leb l op r = op_holds op (l ?= r).
Proof. unfold eval_compare, N.leb. rewrite (N.compare_antisym l r). by destruct op, (l ?= r). Qed.
Lemma eval_compare_string l op r : eval_compare String.leb l op r = op_holds op (String.compare l r).
Proof. unfold eval_compare, String.leb. rewrite (String.compare_antisym r l). by destruct op, (String.compare l r). Qed.

Lemma condition_sim a st c : Rep a st → eval_one_condition (ap_sm a) c = Ok (sp_condition (sp_kv st) c).
Proof.
  intros HR. unfold eval_one_condition, sp_condition. rewrite (get_sim a st) by done. cbn [mbind Outcome_bind].
  destruct (condition_result_from_i32 (cond_expected c)) as [op|]; [|done].
  destruct (cond_target c) as [[v|s|n]|]; [| | |done].
  - destruct (sp_kv st !! cond_key c); [|done]. cbn. by rewrite eval_compare_string.
  - by rewrite eval_compare_N.
  - rewrite (list_sim a st) by done. cbn [mbind Outcome_bind].
    set (l := sp_list (sp_kv st) (cond_key c)). pose proof (wrap64_lt (n + 1)) as Hw.
    rewrite <-fmap_take, try_count_Ok by (rewrite length_take; lia). cbn [mbind Outcome_bind].
    rewrite eval_compare_N. do 3 f_equal. rewrite length_take. lia.
Qed.

Lemma all_or_return_Ok {A} (f : A → Outcome bool) g xs rest :
  (∀ x, x ∈ xs → f x = Ok (g x)) →
  all_or_return f xs rest = if forallb g xs then rest else Ok false.
Proof.
  intros Hf. induction xs as [|x xs IH]; [done|]. cbn. rewrite Hf by left.
  destruct (g x); [|done]. apply IH. intros. apply Hf. by right.
Qed.

Lemma any_or_return_true {A} (f : A → Outcome bool) g xs :
  (∀ x, x ∈ xs → f x = Ok (g x)) → any_or_return f xs (Ok true) = Ok true.
Proof.
  intros Hf. induction xs as [|x xs IH]; [done|]. cbn. rewrite Hf by left.
  destruct (g x); [done|]. apply IH. intros. apply Hf. by right.
Qed.

Lemma expression_sim a st : Rep a st →
  ∀ e, eval_bool_expression (ap_sm a) e = Ok (sp_expression (sp_kv st) e).
Proof.
  intros HR e. induction e as [op subs conds Hsubs] using BooleanExpression_tree_ind.
  rewrite Forall_forall in Hsubs.
  cbn [eval_bool_expression sp_expression be_sub_expressions be_conditions].
  destruct (operator _).
  - rewrite (all_or_return_Ok _ (sp_expression (sp_kv st))) by done.
    rewrite (all_or_return_Ok _ (sp_condition (sp_kv st))) by (intros; by apply condition_sim).
    destruct (forallb _ subs); [|done]. by destruct (forallb _ conds).
  - rewrite (any_or_return_true _ (sp_condition (sp_kv st))) by (intros; by apply condition_sim).
    by rewrite (any_or_return_true _ (sp_expression (sp_kv st))).
Qed.

(** ** Operations of a transaction *)

Definition push_responses (rs : list TxnOp_Response) (resp : TxnReply) : TxnReply :=
  foldl (λ resp r, push_response r resp) resp rs.

Lemma push_responses_eq rs resp :
  push_responses rs resp = {|
    reply_success := reply_success resp;
    reply_responses := reply_responses resp ++ ((λ r, {| op_response := Some r |}) <$> rs);
    reply_error := reply_error resp; reply_execution_path := reply_execution_path resp |}.
Proof.
  revert resp. induction rs as [|r rs IH]; intros resp; cbn.
  - rewrite app_nil_r. by destruct resp.
  - etrans; [exact (IH (push_response r resp))|]. cbn. by rewrite <-app_assoc.
Qed.

Definition op_cost (op : TxnOp) : N := match op_request op with Some (RPut _) => 1 | _ => 0 end.
Definition ops_cost (ops : list TxnOp) : N := foldr (λ op n, op_cost op + n) 0 ops.

Lemma delete_each_sim ctx l count :
  count < 2 ^ 32 →
  simulates ctx 0 (delete_each (Ok <$> l) count)
    (λ st, (sp_delete_each l ctx st, (count + N.of_nat (length l)) `mod` 2 ^ 32)).
Proof.
  revert count. induction l as [|[k v] l IH]; intros count Hc.
  - cbn [length]. rewrite N.add_0_r, N.mod_small by done. apply sim_ret.
  - rewrite fmap_cons. cbn [delete_each].
    apply sim_lift. eapply sim_ext; cycle 1.
    { apply (sim_bind ctx 0 0 _ (sp_upsert (upsert_delete k) ctx) _
        (λ pr st, (sp_delete_each l ctx (sp_change k pr.1 pr.2 st),
          ((count + 1) `mod` 2 ^ 32 + N.of_nat (length l)) `mod` 2 ^ 32))).
      - apply (sim_upsert ctx (upsert_delete k)).
      - intros [prev res]. apply (sim_bind ctx 0 0 _ _ _ (λ _ st, (sp_delete_each l ctx st,
          ((count + 1) `mod` 2 ^ 32 + N.of_nat (length l)) `mod` 2 ^ 32)) (sim_push ctx k prev res)).
        intros _. apply (IH ((count + 1) `mod` 2 ^ 32)). by apply N.mod_lt. }
    intros st. cbn. destruct (sp_upsert (upsert_delete k) ctx st) as [st' [prev res]]. cbn. f_equal.
    rewrite N.Div0.add_mod_idemp_l. f_equal. lia.
Qed.

Lemma operation_sim ctx op resp :
  simulates ctx (op_cost op) (txn_execute_operation op resp)
    (λ st, ((sp_operation op ctx st).1, push_responses (sp_operation op ctx st).2 resp)).
Proof.
  unfold txn_execute_operation, sp_operation, op_cost.
  destruct (op_request op) as [[r|r|r|r]|].
  - apply (sim_read ctx 0 _ (λ st, sp_kv st !! get_key r) id _
      (λ sv st, (st, push_response (RespGet (get_key r) (pb_SeqV_of <$> sv)) resp))).
    + intros. by apply get_sim.
    + intros sv. apply sim_ret.
  - eapply sim_ext; [|apply (sim_map ctx 1 _ _ _ (λ pr,
      push_response (RespPut (put_key r) (pb_SeqV_of <$> pr.1)) resp)
      (sim_upsert ctx (put_upsert r))); by intros []].
    intros st. cbn. by destruct (sp_upsert _ ctx st) as [st' [prev res]].
  - eapply sim_ext; [|apply (sim_map ctx 0 _ (sp_upsert (delete_upsert r) ctx) _ (λ pr,
      push_response (RespDelete (del_key r) (negb (is_none pr.1) && is_none pr.2)
        (pb_SeqV_of <$> pr.1)) resp)); [|by intros []]].
    + intros st. cbn. by destruct (sp_upsert _ ctx st) as [st' [prev res]].
    + eapply sim_mono; [|apply (sim_upsert ctx (delete_upsert r))].
      unfold delete_upsert. by destruct (del_match_seq r).
  - apply (sim_read ctx 0 _ (λ st, sp_list (sp_kv st) (dbp_prefix r)) (fmap Ok) _
      (λ l st, (sp_delete_each l ctx st, push_response
        (RespDeleteByPrefix (dbp_prefix r) (N.of_nat (length l) `mod` 2 ^ 32)) resp))).
    + intros. by apply list_sim.
    + intros l. by apply (sim_map ctx 0 _ _ _ (λ count,
        push_response (RespDeleteByPrefix (dbp_prefix r) count) resp)
        (delete_each_sim ctx l 0 eq_refl)).
  - apply sim_ret.
Qed.

Lemma operations_sim ctx ops resp :
  simulates ctx (ops_cost ops) (execute_operations ops resp)
    (λ st, ((sp_operations ops ctx st).1, push_responses (sp_operations ops ctx st).2 resp)).
Proof.
  revert resp. induction ops as [|op ops IH]; intros resp; [apply sim_ret|].
  eapply sim_ext; [|apply (sim_bind ctx (op_cost op) (ops_cost ops) _ _ _ (λ resp st,
    ((sp_operations ops ctx st).1, push_responses (sp_operations ops ctx st).2 resp))
    (operation_sim ctx op resp)); apply IH].
  intros st. cbn. destruct (sp_operation op ctx st) as [st1 r1]. cbn.
  destruct (sp_operations ops ctx st1) as [st2 r2]. cbn. f_equal.
  unfold push_responses. by rewrite foldl_app.
Qed.
End sim.
