(* ===== verification/ApplyProofs.v ===== *)
(** Whole log entries: transactions, the removal of expired keys and the
    commands do what the abstract state machine does, for any sequence of
    entries. *)

From stdpp Require Import base orders sorting strings gmap numbers list.
From S2P Require Import Prelude BTree RustStr External ExpireKey MetaTypes Marked MapApi Level StateMap.
From S2P Require Import Txn StateMachine Applier ApplierSpec StateMachineProofs ApplierProofs.
Local Open Scope N_scope.

(** ** The versions an entry can write *)

(** The puts of all branches of a transaction. *)
Definition txn_cost (t : TxnRequest) : N :=
  ops_cost (txn_if_then t) + ops_cost (txn_else_then t) +
  foldr (λ b n, ops_cost (co_operations b) + n) 0 (txn_operations t).

Definition cmd_cost (c : Cmd) : N :=
  match c with
  | CmdUpsertKV u => match uvalue u with Delete => 0 | _ => 1 end
  | Transaction t => txn_cost t
  | _ => 0
  end.

Definition entry_cost {raft : OpenRaft} (e : RaftEntry) : N :=
  match entry_payload e with PayloadNormal d => cmd_cost (log_cmd d) | _ => 0 end.

Definition entries_cost {raft : OpenRaft} (es : list RaftEntry) : N :=
  foldr (λ e n, entry_cost e + n) 0 es.

(** A log entry of this version: no transaction id, and a time that is a [u64]. *)
Definition entry_ok {raft : OpenRaft} (e : RaftEntry) : Prop :=
  match entry_payload e with
  | PayloadNormal d => log_txid d = None ∧ default 0 (log_time_ms d) < u64_mod
  | _ => True
  end.

#[export] Instance entry_ok_dec {raft : OpenRaft} e : Decision (entry_ok e).
Proof. unfold entry_ok. destruct (entry_payload e); apply _. Defined.

Lemma log_time_bound {raft : OpenRaft} e : entry_ok e → get_log_time e < u64_mod.
Proof. unfold entry_ok, get_log_time. by destruct (entry_payload e) as [|d|m]; [|intros []|]. Qed.

Lemma sp_branch_cost kv i bs j ops :
  sp_branch kv i bs = Some (j, ops) →
  ops_cost ops ≤ foldr (λ b n, ops_cost (co_operations b) + n) 0 bs.
Proof.
  revert i. induction bs as [|b bs IH]; intros i; [done|]. cbn [sp_branch foldr].
  destruct (match co_predicate b with Some e => _ | None => _ end).
  - intros [= _ <-]. lia.
  - intros H%IH. lia.
Qed.

(** ** Transactions and nodes *)

Section entries.
Context {raft : OpenRaft} {Mp : Type} `{!StateMap raft Mp, !StateMapLaws Mp}.
Implicit Types (a : Applier Mp) (s : StateMachine Mp) (st : Spec).

Lemma first_branch_sim a st : Rep a st →
  ∀ bs i, first_branch (ap_sm a) i bs = Ok (sp_branch (sp_kv st) i bs).
Proof.
  intros HR bs. induction bs as [|b bs IH]; intros i; [done|]. cbn [first_branch sp_branch].
  assert ((match co_predicate b with
    | Some predicate => eval_bool_expression (ap_sm a) predicate | None => Ok true end) =
    Ok match co_predicate b with Some e => sp_expression (sp_kv st) e | None => true end) as ->
    by (destruct (co_predicate b); [by apply expression_sim|done]).
  cbn [mbind Outcome_bind]. destruct (match co_predicate b with Some e => _ | None => _ end); [done|apply IH].
Qed.

(** Executing the operations of a branch and replying. *)
Lemma branch_sim ctx ops path :
  simulates ctx (ops_cost ops)
    (resp ← execute_operations ops (txn_reply_new path); mret (ASTxnReply resp))
    (λ st, ((sp_operations ops ctx st).1, ASTxnReply {|
      reply_success := bool_decide (path ≠ "else");
      reply_responses := (λ r, {| op_response := Some r |}) <$> (sp_operations ops ctx st).2;
      reply_error := ""; reply_execution_path := path |})).
Proof.
  eapply sim_ext; [|by apply (sim_map ctx _ _ _ _ ASTxnReply (operations_sim ctx ops (txn_reply_new path)))].
  intros st. cbn. by rewrite push_responses_eq.
Qed.

Lemma txn_sim ctx t :
  simulates ctx (txn_cost t) (apply_txn t)
    (λ st, ((sp_txn t ctx st).1, ASTxnReply (sp_txn t ctx st).2)).
Proof.
  intros a st HR HI Hc Hs. unfold apply_txn, sp_txn, sp_choose.
  unfold mbind at 1, M_bind at 1, get_st. unfold mbind at 1, M_bind at 1, lift.
  rewrite (first_branch_sim a st HR). unfold txn_cost in *.
  destruct (sp_branch (sp_kv st) 0 (txn_operations t)) as [[i ops]|] eqn:Eb.
  - pose proof (sp_branch_cost _ _ _ _ _ Eb).
    destruct (branch_sim ctx ops ("operation:" +:+ dec_string i) a st HR HI Hc) as (a' & E & HR' & HI' & Hc' & Hs'); [lia|].
    cbn [fst snd] in *. exists a'. destruct (sp_operations ops ctx st) as [st' rs]. cbn [fst snd] in *. split_and!; [done..|lia].
  - unfold mbind at 1, M_bind at 1, lift. unfold eval_txn_conditions.
    rewrite (all_or_return_Ok _ (sp_condition (sp_kv st))) by (intros; by apply condition_sim).
    destruct (forallb (sp_condition (sp_kv st)) (txn_condition t)); cbv beta iota.
    + destruct (branch_sim ctx (txn_if_then t) "then" a st HR HI Hc) as (a' & E & HR' & HI' & Hc' & Hs'); [lia|].
      cbn [fst snd] in *. exists a'. destruct (sp_operations _ ctx st) as [st' rs]. cbn [fst snd] in *. split_and!; [done..|lia].
    + destruct (branch_sim ctx (txn_else_then t) "else" a st HR HI Hc) as (a' & E & HR' & HI' & Hc' & Hs'); [lia|].
      cbn [fst snd] in *. exists a'. destruct (sp_operations _ ctx st) as [st' rs]. cbn [fst snd] in *. split_and!; [done..|lia].
Qed.

(** Changing the system data other than the sequence number. *)
Lemma modify_sys_sim ctx f :
  (∀ d, sequence (f d) = sequence d) →
  simulates ctx 0 (modify_sys f) (λ st, (sp_set_sys (f (sp_sys st)) st, tt)).
Proof.
  intros Hf a st [Hwf Hkv Hsys Hcur Hsub Hch Hidx Hkeys] [Hs Hb Hc Hz] Hctx _.
  destruct (set_sys_spec (sm_map (ap_sm a)) (f (map_sys (sm_map (ap_sm a)))) Hwf) as (Hwf' & Hkv' & Hex' & Hsys').
  { apply Hf. }
  eexists. split; [done|]. cbn.
  split_and!; [..|done|rewrite Hf; lia].
  - split; cbn; unfold kvv, expv, sys_data_ref in *; rewrite ?Hkv', ?Hex', ?Hsys', ?Hf; try done. congruence.
  - split; cbn; rewrite ?Hf; done.
Qed.

Lemma add_node_sim ctx id node ov :
  simulates ctx 0 (apply_add_node id node ov) (sp_cmd (AddNode id node ov) ctx).
Proof.
  intros a st HR HI Hc Hs. unfold apply_add_node. unfold mbind at 1, M_bind at 1, get_st.
  unfold sys_data_ref. rewrite (rep_sys _ _ HR). cbn [sp_cmd].
  assert (simulates (Mp := Mp) ctx 0 (_ ← modify_sys (λ d, set_nodes (<[id := node]> (nodes d)) d);
    mret (ASNode (nodes (sp_sys st) !! id) (Some node)))
    (λ st', (sp_set_sys (set_nodes (<[id := node]> (nodes (sp_sys st'))) (sp_sys st')) st',
             ASNode (nodes (sp_sys st) !! id) (Some node)))) as Hset.
  { by apply (sim_map ctx 0 _ _ _ (λ _, ASNode (nodes (sp_sys st) !! id) (Some node))
      (modify_sys_sim ctx (λ d, set_nodes (<[id := node]> (nodes d)) d) (λ _, eq_refl))). }
  destruct (nodes (sp_sys st) !! id) as [p|]; [destruct ov|]; cbn [is_none orb];
    [by apply Hset|by apply sim_ret|by apply Hset].
Qed.

Lemma remove_node_sim ctx id :
  simulates ctx 0 (apply_remove_node id) (sp_cmd (RemoveNode id) ctx).
Proof.
  intros a st HR HI Hc Hs. unfold apply_remove_node. unfold mbind at 1, M_bind at 1, get_st.
  unfold sys_data_ref. rewrite (rep_sys _ _ HR). cbn [sp_cmd].
  by apply (sim_map ctx 0 _ _ _ (λ _, ASNode (nodes (sp_sys st) !! id) None)
    (modify_sys_sim ctx (λ d, set_nodes (delete id (nodes d)) d) (λ _, eq_refl))).
Qed.

Lemma cmd_sim ctx c : simulates ctx (cmd_cost c) (apply_cmd c) (sp_cmd c ctx).
Proof.
  destruct c as [id node ov|id|u|t]; cbn [apply_cmd cmd_cost].
  - apply add_node_sim.
  - apply remove_node_sim.
  - eapply sim_ext; [|apply (sim_map ctx _ _ _ _ (λ pr, ASKV (change_new pr.1 pr.2)) (sim_upsert ctx u)); by intros []].
    intros st. cbn. by destruct (sp_upsert u ctx st) as [st' [p r]].
  - eapply sim_ext; [|apply txn_sim]. intros st. cbn. by destruct (sp_txn t ctx st).
Qed.

(** ** Expired keys *)

(** The index entries of a list are those of present keys, each key once. *)
Definition live_entries st (l : list (ExpireKey * string)) : Prop :=
  NoDup l.*2 ∧ ∀ ek k, (ek, k) ∈ l → ∃ v, sp_kv st !! k = Some v ∧ ek_of v = Some ek.

Lemma sp_expired_elem t st ek k :
  Inv st → t < u64_mod →
  (ek, k) ∈ sp_expired t st ↔
    ∃ v, sp_kv st !! k = Some v ∧ ek_of v = Some ek ∧ opt_expires_at_ms (meta v) < t.
Proof.
  intros [Hs Hb Hc Hz] Ht. pose proof (index_of_indexes _ Hb _ Hs) as Hi. unfold sp_expired.
  set (bound := expire_key_new t 0).
  assert (time_ms bound = t ∧ ek_seq bound = 0) as [Hbt Hbs] by (split; [by apply time_ms_new|by apply ek_seq_new]).
  assert (∀ v, sp_kv st !! k = Some v → ek_of v = Some ek →
    key_le (sp_cursor st) ek ∧ (key_lt ek bound ↔ opt_expires_at_ms (meta v) < t)) as Hek.
  { intros v Hv He. specialize (Hc k v Hv). pose proof (seqs_bound _ _ Hs _ _ Hv).
    destruct (ek_of_Some v ek ltac:(lia) He) as [Hes Het]. rewrite ek_lt_alt. split; [|lia].
    change (ek_le (sp_cursor st) ek). unfold ek_le. lia. }
  case_decide as Hle.
  - split; [by intros ?%elem_of_nil|]. intros (v & Hv & He & Hlt). exfalso.
    destruct (Hek v Hv He) as [Hge Hiff]. apply Hiff in Hlt.
    by apply (key_lt_irrefl ek), (key_lt_le_trans _ bound); [|etrans].
  - rewrite elem_of_range_list, (Hi ek k). cbn [in_bounds fst snd]. split.
    + intros [(v & Hv & He) [_ Hlt]]. exists v. split_and!; [done..|]. by apply (Hek v Hv He).
    + intros (v & Hv & He & Hlt). destruct (Hek v Hv He) as [Hge Hiff].
      split; [by exists v|]. split; [exact Hge|by apply Hiff].
Qed.

Lemma sp_expired_sorted t st : StronglySorted klt (sp_expired t st).
Proof. unfold sp_expired. case_decide; [constructor|apply range_list_sorted]. Qed.

Lemma sp_expired_live t st : Inv st → t < u64_mod → live_entries st (sp_expired t st).
Proof.
  intros HI Ht. split.
  - pose proof (sorted_kv_NoDup_fst key_le _ (sp_expired_sorted t st)) as Hnd.
    assert (∀ ek1 ek2 k, (ek1, k) ∈ sp_expired t st → (ek2, k) ∈ sp_expired t st → ek1 = ek2) as Hinj.
    { intros ek1 ek2 k (v1 & ? & ? & _)%sp_expired_elem (v2 & ? & ? & _)%sp_expired_elem; congruence. }
    induction (sp_expired t st) as [|[ek k] l IH]; [constructor|]. cbn in *.
    apply NoDup_cons in Hnd as [Hn Hnd]. constructor.
    + intros ([ek' k'] & -> & Hin)%list_elem_of_fmap. cbn in *. apply Hn.
      rewrite (Hinj ek ek' k'); [by apply (list_elem_of_fmap_2 fst _ (ek', k'))|left|by right].
    + apply IH; [done|]. intros. eapply Hinj; right; done.
  - intros ek k (v & ? & ? & _)%sp_expired_elem; eauto.
Qed.

Lemma take_expired_all t l :
  (∀ ek k, (ek, k) ∈ l → time_ms ek < t) → take_expired t (Ok <$> l) = Ok l.
Proof.
  induction l as [|[ek k] l IH]; intros Hl; [done|]. rewrite fmap_cons. cbn [take_expired mbind Outcome_bind].
  unfold ek_is_expired. assert ((time_ms ek <? t) = true) as -> by (apply N.ltb_lt, (Hl ek k); left).
  rewrite IH; [done|]. intros. eapply Hl. by right.
Qed.

(** Deleting a key that is there. *)
Lemma sp_delete_present ctx st k v :
  Inv st → sp_kv st !! k = Some v →
  sp_upsert (upsert_delete k) ctx st =
    (sp_push (k, Some v, None) (sp_set_kv (delete k (sp_kv st)) st), (Some v, None)).
Proof.
  intros [Hs _ _ _] Hv. pose proof (seqs_bound _ _ Hs _ _ Hv).
  unfold sp_upsert, sp_primary. cbn [ukey useq uvalue upsert_delete]. rewrite Hv. cbn [opt_seq].
  rewrite match_seq_err_ge. assert ((seq v <? 1) = false) as -> by (apply N.ltb_ge; lia). done.
Qed.

(** What remains after the keys of [l] are deleted, and the changes it queues. *)
Lemma sp_delete_all ctx l st :
  Inv st → sequence (sp_sys st) + 1 < u64_mod → live_entries st l →
  let st' := foldl (λ st x, (sp_upsert (upsert_delete x.2) ctx st).1) st l in
  Inv st' ∧ sp_kv st' = filter (λ x, x.1 ∉ l.*2) (sp_kv st) ∧ sp_sys st' = sp_sys st ∧
  sp_cursor st' = sp_cursor st ∧ sp_sub st' = sp_sub st ∧
  sp_changes st' = sp_changes st ++ ((λ x, (x.2, sp_kv st !! x.2, None)) <$> l).
Proof.
  revert st. induction l as [|[ek k] l IH]; intros st HI Hs [Hnd Hl]; cbn [foldl fmap list_fmap fst snd].
  { split_and!; try done; [|by rewrite app_nil_r].
    symmetry. apply map_filter_id. intros ? ? ? ?%elem_of_nil. done. }
  destruct (Hl ek k) as (v & Hv & He); [left|]. cbn [fmap list_fmap] in Hnd. apply NoDup_cons in Hnd as [Hn Hnd].
  pose proof (sp_delete_present ctx st k v HI Hv) as E.
  pose proof (sp_upsert_inv (upsert_delete k) ctx st HI Hs) as HI1.
  rewrite E in *. cbn [fst] in *. destruct (IH _ HI1 Hs) as (HI' & Hkv & Hsys & Hcur & Hsub & Hch).
  { split; [done|]. intros ek' k' Hin. destruct (Hl ek' k') as (v' & Hv' & He'); [by right|].
    exists v'. split; [|done]. cbn. rewrite lookup_delete_ne; [done|]. intros <-. apply Hn.
    by apply (list_elem_of_fmap_2 snd _ (ek', k)). }
  split_and!; try done.
  - rewrite Hkv. cbn. apply map_eq. intros k'. apply option_eq. intros v'.
    rewrite !map_lookup_filter_Some, lookup_delete_Some. cbn. rewrite not_elem_of_cons. naive_solver.
  - rewrite Hch. cbn. rewrite <-app_assoc. cbn. rewrite Hv. do 2 f_equal. apply list_fmap_ext.
    intros i [ek' k'] Hi. cbn. rewrite lookup_delete_ne; [done|]. intros <-. apply Hn.
    by apply (list_elem_of_fmap_2 snd _ (ek', k)), (list_elem_of_lookup_2 _ i).
Qed.

(** Exactly the keys that expire before the time are removed. *)
Lemma sp_clean_spec t ctx st :
  Inv st → t < u64_mod → sequence (sp_sys st) + 1 < u64_mod →
  Inv (sp_clean t ctx st) ∧
  sp_kv (sp_clean t ctx st) = filter (λ x, t ≤ opt_expires_at_ms (meta x.2)) (sp_kv st) ∧
  sp_sys (sp_clean t ctx st) = sp_sys st ∧ sp_sub (sp_clean t ctx st) = sp_sub st.
Proof.
  intros HI Ht Hs. unfold sp_clean. destruct (N.eqb_spec t 0) as [->|Hz].
  { split_and!; try done. symmetry. apply map_filter_id. intros. lia. }
  destruct (sp_delete_all ctx (sp_expired t st) st HI Hs (sp_expired_live t st HI Ht))
    as (HI' & Hkv & Hsys & Hcur & Hsub & _).
  set (st' := foldl _ st (sp_expired t st)) in *.
  assert (sp_kv st' = filter (λ x, t ≤ opt_expires_at_ms (meta x.2)) (sp_kv st)) as Hkv'.
  { rewrite Hkv. apply map_filter_ext. intros k v Hv. cbn. rewrite list_elem_of_fmap. split.
    - intros Hn. apply N.nlt_ge. intros Hlt. apply Hn. destruct (ek_of v) as [ek|] eqn:He.
      + exists (ek, k). split; [done|]. apply sp_expired_elem; eauto.
      + exfalso. apply fmap_None, opt_expires_None in He. unfold u64_max in He. lia.
    - intros Hle ([ek k'] & -> & (v' & ? & _ & Hlt)%sp_expired_elem); [|done..].
      cbn [snd] in *. simplify_eq. lia. }
  destruct (N.ltb_spec t (time_ms (sp_cursor st'))); [done|].
  split_and!; [|done..]. destruct HI' as [Hi1 Hi2 Hi3 Hi4]. split; cbn; try done; [|by apply ek_seq_new].
  intros k v. rewrite Hkv', time_ms_new by done. by intros [_ ?]%map_lookup_filter_Some.
Qed.

Lemma clean_loop_sim ctx l a st :
  Rep a st → Inv st → cmd_ctx a = ctx → sequence (sp_sys st) + 1 < u64_mod → live_entries st l →
  ∃ a', for_each l clean_one a = (a', Ok tt) ∧
    Rep a' (foldl (λ st x, (sp_upsert (upsert_delete x.2) ctx st).1) st l) ∧ cmd_ctx a' = ctx.
Proof.
  revert a st. induction l as [|[ek k] l IH]; intros a st HR HI Hc Hs [Hnd Hl].
  { by exists a. }
  destruct (Hl ek k) as (v & Hv & He); [left|]. cbn [fmap list_fmap] in Hnd. apply NoDup_cons in Hnd as [Hn Hnd].
  destruct (sim_upsert ctx (upsert_delete k) a st HR HI Hc) as (a1 & E1 & HR1 & HI1 & Hc1 & Hs1); [cbn; lia|].
  assert (clean_one (ek, k) a = (a1, Ok tt)) as Eone.
  { unfold clean_one. unfold mbind at 1, M_bind at 1, get_st. unfold mbind at 1, M_bind at 1, lift.
    rewrite (get_sim a st), Hv by done. pose proof (seqs_bound _ _ (inv_seqs _ HI) _ _ Hv).
    rewrite decide_True by (apply (ek_of_Some v); [lia|done]). by rewrite (M_bind_Ok _ _ _ _ _ E1). }
  cbn [for_each]. rewrite (M_bind_Ok _ _ _ _ _ Eone). cbn [foldl snd].
  rewrite (sp_delete_present ctx st k v HI Hv) in *. cbn [fst snd] in *.
  apply IH; [done..|]. split; [done|]. intros ek' k' Hin.
  destruct (Hl ek' k') as (v' & Hv' & He'); [by right|]. exists v'. split; [|done].
  cbn. rewrite lookup_delete_ne; [done|]. intros <-. apply Hn. by apply (list_elem_of_fmap_2 snd _ (ek', k)).
Qed.

Lemma clean_sim ctx t : t < u64_mod → simulates ctx 0 (clean_expired_kvs t) (λ st, (sp_clean t ctx st, tt)).
Proof.
  intros Ht a st HR HI Hc Hs. cbn [fst snd].
  destruct (sp_clean_spec t ctx st HI Ht) as (HI' & _ & Hsys & _); [lia|].
  enough (∃ a', clean_expired_kvs t a = (a', Ok tt) ∧ Rep a' (sp_clean t ctx st) ∧ cmd_ctx a' = ctx)
    as (a' & ? & ? & ?) by (exists a'; rewrite Hsys; split_and!; [done..|lia]).
  unfold clean_expired_kvs, sp_clean in *. destruct (t =? 0); [by exists a|].
  pose proof (sp_expired_live t st HI Ht) as Hl.
  unfold mbind at 1, M_bind at 1, get_st. unfold mbind at 1, M_bind at 1, lift.
  rewrite list_expire_index_spec, (rep_cursor _ _ HR) by apply HR.
  rewrite (index_of_unique _ (inv_bound _ HI) _ _ (inv_seqs _ HI) (rep_index _ _ HR)).
  fold (sp_expired t st). unfold mbind at 1, M_bind at 1, lift.
  rewrite take_expired_all.
  2: { intros ek k (v & Hv & He & Hlt)%sp_expired_elem; [|done..].
       pose proof (seqs_bound _ _ (inv_seqs _ HI) _ _ Hv). pose proof (inv_bound _ HI).
       by destruct (ek_of_Some v ek ltac:(lia) He) as [_ ->]. }
  destruct (clean_loop_sim ctx _ a st HR HI Hc ltac:(lia) Hl) as (a1 & E1 & HR1 & Hc1).
  rewrite (M_bind_Ok _ _ _ _ _ E1). unfold update_expire_cursor.
  set (st' := foldl _ st _) in *. eexists. split; [|split].
  - rewrite (on_sm_eval _ a1 (if t <? time_ms (sp_cursor st') then ap_sm a1
      else set_expire_cursor (expire_key_new t 0) (ap_sm a1)) (Ok tt)); [done|].
    unfold mbind, M_bind, get_st. rewrite (rep_cursor _ _ HR1). by destruct (t <? _).
  - destruct HR1. destruct (t <? time_ms (sp_cursor st')); by split.
  - done.
Qed.

(** ** Log entries *)

Definition sp_payload (e : RaftEntry) (ctx : CmdContext) (st : Spec) : Spec * AppliedState :=
  match entry_payload e with
  | Blank => (st, ASNone)
  | PayloadNormal d => sp_cmd (log_cmd d) ctx st
  | PayloadMembership mem =>
      (sp_set_sys (set_last_membership (stored_membership_new (Some (entry_log_id e)) mem)
                     (sp_sys st)) st, ASNone)
  end.

Lemma payload_sim ctx e :
  entry_ok e →
  simulates (Mp := Mp) ctx (entry_cost e)
    (match entry_payload e with
     | Blank => mret ASNone
     | PayloadNormal d =>
         match log_txid d with Some _ => lift Panic | None => apply_cmd (log_cmd d) end
     | PayloadMembership mem =>
         _ ← modify_sys (set_last_membership (stored_membership_new (Some (entry_log_id e)) mem));
         mret ASNone
     end) (sp_payload e ctx).
Proof.
  unfold entry_ok, entry_cost, sp_payload. destruct (entry_payload e) as [|d|mem].
  - intros _. apply sim_ret.
  - intros [-> _]. apply cmd_sim.
  - intros _. by apply (sim_map ctx 0 _ _ _ (λ _, ASNone) (modify_sys_sim ctx
      (set_last_membership (stored_membership_new (Some (entry_log_id e)) mem)) (λ _, eq_refl))).
Qed.

Lemma send_sim ctx : simulates ctx 0 (modify send_changes) (λ st, (sp_send st, tt)).
Proof.
  intros a st HR HI Hc _. eexists. split; [done|]. cbn. unfold send_changes, sp_send.
  rewrite (rep_sub _ _ HR), (rep_changes _ _ HR). destruct HI.
  destruct (sp_sub st); cbn; (split_and!; [by destruct HR|done|done|lia]).
Qed.

Lemma sp_apply_eq e st :
  let ctx := cmd_ctx_from_millis (get_log_time e) in
  let st1 := sp_clean (get_log_time e) ctx st in
  let st2 := sp_set_sys (set_last_applied (Some (entry_log_id e)) (sp_sys st1)) st1 in
  sp_apply e st = (sp_send (sp_payload e ctx st2).1, (sp_payload e ctx st2).2).
Proof.
  unfold sp_apply, sp_payload. cbv zeta. destruct (entry_payload e); [done| |done]. by destruct (sp_cmd _ _ _).
Qed.

(** Applying an entry; the applier takes over the time of the entry. *)
Lemma apply_sim e a st :
  entry_ok e → Rep a st → Inv st → sequence (sp_sys st) + entry_cost e + 1 < u64_mod →
  ∃ a', apply e a = (a', Ok (sp_apply e st).2) ∧ Rep a' (sp_apply e st).1 ∧ Inv (sp_apply e st).1 ∧
    sequence (sp_sys (sp_apply e st).1) ≤ sequence (sp_sys st) + entry_cost e.
Proof.
  intros He HR HI Hs. rewrite sp_apply_eq.
  set (ctx := cmd_ctx_from_millis (get_log_time e)). cbn zeta.
  assert (Rep (set_cmd_ctx ctx a) st) as HR0 by by destruct HR.
  pose proof (sim_bind ctx 0 _ _ _ _ (λ _ st1, _) (clean_sim ctx _ (log_time_bound e He))
    (λ _, sim_bind ctx 0 _ _ _ _ (λ _ st2, _)
      (modify_sys_sim ctx (set_last_applied (Some (entry_log_id e))) (λ _, eq_refl))
      (λ _, sim_bind ctx _ 0 _ _ _ (λ r st3, (sp_send st3, r)) (payload_sim ctx e He)
        (λ r, sim_map ctx 0 _ _ _ (λ _, r) (send_sim ctx) (λ _, eq_refl))))) as Hsim.
  destruct (Hsim _ _ HR0 HI eq_refl) as (a' & E & HR' & HI' & _ & Hs'); [lia|].
  exists a'. split_and!; [exact E|exact HR'|exact HI'|]. cbn in *. lia.
Qed.

Lemma apply_all_sim es a st :
  Forall entry_ok es → Rep a st → Inv st → sequence (sp_sys st) + entries_cost es + 1 < u64_mod →
  ∃ a', apply_all es a = (a', Ok (sp_apply_all es st).2) ∧ Rep a' (sp_apply_all es st).1 ∧
    Inv (sp_apply_all es st).1 ∧
    sequence (sp_sys (sp_apply_all es st).1) ≤ sequence (sp_sys st) + entries_cost es.
Proof.
  intros Hes. revert a st. induction Hes as [|e es He Hes IH]; intros a st HR HI Hs.
  { exists a. split_and!; try done. cbn. lia. }
  cbn [entries_cost foldr] in *. fold (entries_cost es) in *.
  destruct (apply_sim e a st He HR HI) as (a1 & E1 & HR1 & HI1 & Hs1); [lia|].
  destruct (IH a1 (sp_apply e st).1 HR1 HI1) as (a2 & E2 & HR2 & HI2 & Hs2); [lia|].
  cbn [apply_all sp_apply_all]. rewrite (M_bind_Ok _ _ _ _ _ E1), (M_bind_Ok _ _ _ _ _ E2).
  destruct (sp_apply e st) as [st1 r1]. cbn [fst snd] in *.
  destruct (sp_apply_all es st1) as [st2 rs]. cbn [fst snd] in *.
  exists a2. split_and!; [done..|lia].
Qed.
End entries.
