(* ===== verification/SpecFacts.v ===== *)
(** Facts about the abstract state machine: it runs by a few basic steps, its
    versions are never reused, the changes it queues replay its key-values,
    and what it computes does not depend on the subscriber. *)

From stdpp Require Import base orders sorting strings gmap numbers list relations.
From S2P Require Import Prelude BTree RustStr External ExpireKey MetaTypes Level.
From S2P Require Import Txn StateMachine Applier ApplierSpec StateMachineProofs ApplierProofs ApplyProofs.
Local Open Scope N_scope.

Section facts.
Context {raft : OpenRaft}.
Implicit Types st : Spec.

(** ** The basic steps *)

Inductive spec_step : Spec → Spec → Prop :=
| step_upsert u ctx st : spec_step st (sp_upsert u ctx st).1
(** a change recorded once more *)
| step_again u ctx st st' p r :
    sp_upsert u ctx st = (st', (p, r)) → spec_step st (sp_change (ukey u) p r st')
| step_sys d st : sequence d = sequence (sp_sys st) → spec_step st (sp_set_sys d st)
| step_cursor c st : time_ms (sp_cursor st) ≤ time_ms c → spec_step st (sp_set_cursor c st)
| step_send st : spec_step st (sp_send st).

Lemma delete_each_steps l ctx st : rtc spec_step st (sp_delete_each l ctx st).
Proof.
  revert st. induction l as [|[k v] l IH]; intros st; [done|]. cbn.
  destruct (sp_upsert (upsert_delete k) ctx st) as [st' [p r]] eqn:E.
  eapply rtc_l; [exact (step_again _ _ _ _ _ _ E)|apply IH].
Qed.

Lemma operation_steps op ctx st : rtc spec_step st (sp_operation op ctx st).1.
Proof.
  unfold sp_operation. destruct (op_request op) as [[r|r|r|r]|]; cbn [fst]; [done| | | |done].
  - pose proof (step_upsert (put_upsert r) ctx st) as Hs.
    destruct (sp_upsert _ ctx st) as [st' [p r']]. by apply rtc_once.
  - pose proof (step_upsert (delete_upsert r) ctx st) as Hs.
    destruct (sp_upsert _ ctx st) as [st' [p r']]. by apply rtc_once.
  - apply delete_each_steps.
Qed.

Lemma operations_steps ops ctx st : rtc spec_step st (sp_operations ops ctx st).1.
Proof.
  revert st. induction ops as [|op ops IH]; intros st; [done|]. cbn.
  pose proof (operation_steps op ctx st) as Hs.
  destruct (sp_operation op ctx st) as [st1 r1]. specialize (IH st1).
  destruct (sp_operations ops ctx st1) as [st2 r2]. by etrans.
Qed.

Lemma clean_steps t ctx st : t < u64_mod → rtc spec_step st (sp_clean t ctx st).
Proof.
  intros Ht. unfold sp_clean. destruct (t =? 0); [done|].
  assert (∀ (l : list (ExpireKey * string)) st, rtc spec_step st (foldl (λ st x, (sp_upsert (upsert_delete x.2) ctx st).1) st l)) as Hl.
  { intros l. induction l as [|[ek k] l IH]; intros st0; [done|].
    eapply rtc_l; [apply (step_upsert (upsert_delete k) ctx)|apply IH]. }
  destruct (N.ltb_spec t (time_ms (sp_cursor (foldl (λ st x, (sp_upsert (upsert_delete x.2) ctx st).1) st
    (sp_expired t st))))); [apply Hl|].
  eapply rtc_r; [apply Hl|]. apply step_cursor. by rewrite time_ms_new.
Qed.

Lemma cmd_steps c ctx st : rtc spec_step st (sp_cmd c ctx st).1.
Proof.
  destruct c as [id node ov|id|u|t]; cbn [sp_cmd].
  - destruct (is_none _ || ov); [|done]. by apply rtc_once, step_sys.
  - by apply rtc_once, step_sys.
  - pose proof (step_upsert u ctx st) as Hs. destruct (sp_upsert u ctx st) as [st' [p r]]. by apply rtc_once.
  - unfold sp_txn. destruct (sp_choose (sp_kv st) t) as [ops path].
    pose proof (operations_steps ops ctx st) as Hs. by destruct (sp_operations ops ctx st).
Qed.

Lemma apply_steps e st : entry_ok e →
  rtc spec_step st (sp_clean (get_log_time e) (cmd_ctx_from_millis (get_log_time e)) st) ∧
  rtc spec_step (sp_clean (get_log_time e) (cmd_ctx_from_millis (get_log_time e)) st) (sp_apply e st).1.
Proof.
  intros He. split; [by apply clean_steps, log_time_bound|]. rewrite sp_apply_eq. cbn [fst].
  eapply rtc_r; [|apply step_send].
  set (st1 := sp_clean _ _ st). set (d := set_last_applied _ (sp_sys st1)).
  apply (rtc_l _ _ (sp_set_sys d st1)); [by apply step_sys|].
  unfold sp_payload. destruct (entry_payload e); [done|apply cmd_steps|]. by apply rtc_once, step_sys.
Qed.

Lemma apply_all_steps es st : Forall entry_ok es → rtc spec_step st (sp_apply_all es st).1.
Proof.
  intros Hes. revert st. induction Hes as [|e es He _ IH]; intros st; [done|]. cbn.
  destruct (apply_steps e st He) as [Hc Hs]. destruct (sp_apply e st) as [st1 r].
  specialize (IH st1). destruct (sp_apply_all es st1) as [st2 rs]. etrans; [exact Hc|]. by etrans.
Qed.

(** ** Versions *)

(** Every value that was not there before has a new sequence number. *)
Definition evolves st st' : Prop :=
  sequence (sp_sys st) ≤ sequence (sp_sys st') ∧
  ∀ k v, sp_kv st' !! k = Some v →
    sp_kv st !! k = Some v ∨ sequence (sp_sys st) < seq v ≤ sequence (sp_sys st').

#[export] Instance evolves_po : PreOrder evolves.
Proof.
  split.
  - intros st. split; [done|]. by left.
  - intros st1 st2 st3 [H12 K12] [H23 K23]. split; [lia|].
    intros k v [H|H]%K23; [|right; lia]. destruct (K12 k v H); [by left|right; lia].
Qed.

Lemma upsert_evolves u ctx st : evolves st (sp_upsert u ctx st).1.
Proof.
  unfold sp_upsert. pose proof (sp_primary_effect st u ctx) as He.
  destruct (sp_primary u ctx st) as [st' res]. cbn [fst snd] in *.
  destruct (sp_change_frame (ukey u) (sp_kv st !! ukey u) res st') as (Hk & Hs & _).
  unfold evolves. rewrite Hk, Hs. destruct He as [|d Hd|v Hv _]; cbn.
  - split; [done|]. by left.
  - split; [destruct Hd as [->| ->]; cbn; lia|]. intros k v' [_ ?]%lookup_delete_Some. by left.
  - split; [lia|]. intros k v' [[_ <-]|[_ ?]]%lookup_insert_Some; [right; lia|by left].
Qed.

Lemma steps_evolve st st' : rtc spec_step st st' → evolves st st'.
Proof.
  induction 1 as [st|st1 st2 st3 Hs _ IH]; [done|]. etrans; [|exact IH]. clear IH.
  destruct Hs as [u ctx st|u ctx st st' p r E|d st Hd|c st Hc|st].
  - apply upsert_evolves.
  - pose proof (upsert_evolves u ctx st) as H. rewrite E in H. cbn in H.
    unfold evolves in *. by destruct (sp_change_frame (ukey u) p r st') as (-> & -> & _).
  - split; cbn; [lia|by left].
  - split; [done|by left].
  - unfold evolves, sp_send. destruct (sp_sub st); (split; [done|by left]).
Qed.

(** ** The cursor *)

Lemma steps_cursor st st' : rtc spec_step st st' → time_ms (sp_cursor st) ≤ time_ms (sp_cursor st').
Proof.
  induction 1 as [st|st1 st2 st3 Hs _ IH]; [done|]. etrans; [|exact IH]. clear IH.
  assert (∀ u ctx st, sp_cursor (sp_upsert u ctx st).1 = sp_cursor st) as Hu.
  { intros u ctx st. unfold sp_upsert. pose proof (sp_primary_effect st u ctx) as He.
    destruct (sp_primary u ctx st) as [st' res]. cbn [fst snd] in *.
    destruct (sp_change_frame (ukey u) (sp_kv st !! ukey u) res st') as (_ & _ & -> & _).
    by destruct (effect_frame _ _ _ _ He) as (-> & _). }
  destruct Hs as [u ctx st|u ctx st st' p r E|d st Hd|c st Hc|st].
  - by rewrite Hu.
  - destruct (sp_change_frame (ukey u) p r st') as (_ & _ & -> & _). by rewrite <-(Hu u ctx st), E.
  - done.
  - done.
  - unfold sp_send. by destruct (sp_sub st).
Qed.

Lemma clean_cursor t ctx st :
  t < u64_mod → t ≤ time_ms (sp_cursor (sp_clean t ctx st)).
Proof.
  intros Ht. unfold sp_clean. destruct (N.eqb_spec t 0) as [->|]; [lia|].
  match goal with |- context [t <? ?c] => destruct (N.ltb_spec t c) as [|_] end; [lia|].
  cbn [sp_set_cursor sp_cursor]. by rewrite time_ms_new.
Qed.

(** After a log, the cursor is not before the time of any of its entries. *)
Lemma apply_all_cursor es st e :
  Forall entry_ok es → e ∈ es → get_log_time e ≤ time_ms (sp_cursor (sp_apply_all es st).1).
Proof.
  intros Hes. revert st. induction Hes as [|e' es He Hes IH]; intros st; [by intros ?%elem_of_nil|].
  cbn [sp_apply_all]. destruct (apply_steps e' st He) as [_ Hs].
  destruct (sp_apply e' st) as [st1 r]. cbn [fst] in Hs.
  pose proof (apply_all_steps es st1 Hes) as Hrest. specialize (IH st1).
  destruct (sp_apply_all es st1) as [st2 rs]. cbn [fst] in *.
  intros [->|Hin]%elem_of_cons; [|by apply IH].
  pose proof (clean_cursor (get_log_time e') (cmd_ctx_from_millis (get_log_time e')) st (log_time_bound _ He)).
  apply steps_cursor in Hs, Hrest. lia.
Qed.

(** ** Changes *)

(** What a subscriber that follows the changes holds. *)
Definition replay_event (kv : gmap string (SeqV bytes)) (e : Event) : gmap string (SeqV bytes) :=
  match e with
  | (k, _, Some v) => <[k := v]> kv
  | (k, _, None) => delete k kv
  end.
Definition replay (evs : list Event) (kv : gmap string (SeqV bytes)) : gmap string (SeqV bytes) :=
  foldl replay_event kv evs.

(** The changes sent and queued. *)
Definition sp_events st : list Event := default [] (sp_sub st) ++ sp_changes st.

(** The new changes replay what happened to the key-values. *)
Definition emits st st' : Prop :=
  ∃ evs, sp_events st' = sp_events st ++ evs ∧ replay evs (sp_kv st) = sp_kv st' ∧
    is_none (sp_sub st') = is_none (sp_sub st).

#[export] Instance emits_po : PreOrder emits.
Proof.
  split.
  - intros st. exists []. by rewrite app_nil_r.
  - intros st1 st2 st3 (e1 & H1 & K1 & S1) (e2 & H2 & K2 & S2). exists (e1 ++ e2).
    rewrite H2, H1, <-app_assoc. unfold replay in *. rewrite foldl_app, K1. split_and!; congruence.
Qed.

Lemma change_emits k p r st :
  (if decide (p = r) then True else replay_event (sp_kv st) (k, p, r) = sp_kv st) →
  emits st (sp_change k p r st).
Proof.
  unfold sp_change. case_decide; [done|]. intros E. exists [(k, p, r)]. split_and!; [|done..].
  unfold sp_events. cbn. by rewrite app_assoc.
Qed.

(** The change of an upsert, recorded right after it and then once more. *)
Lemma effect_emits st k st' res :
  upsert_effect st k st' res → emits st (sp_change k (sp_kv st !! k) res st') ∧
  (sp_kv st !! k ≠ res → replay_event (sp_kv st') (k, sp_kv st !! k, res) = sp_kv st').
Proof.
  intros He. pose proof (effect_frame _ _ _ _ He) as (_ & Hsub & Hch & _). split.
  - unfold sp_change. case_decide as Hd.
    + exists []. unfold sp_events. rewrite app_nil_r, Hsub, Hch. split_and!; [done| |done].
      destruct He as [|d _|v _ _]; cbn in *; [done| |].
      * by rewrite delete_id.
      * by rewrite insert_id.
    + exists [(k, sp_kv st !! k, res)]. unfold sp_events. cbn. rewrite Hsub, Hch, app_assoc.
      split_and!; [done| |done]. by destruct He.
  - intros Hne. destruct He as [|d _|v _ _]; cbn; [done|by rewrite delete_delete_eq|by rewrite insert_insert_eq].
Qed.

Lemma upsert_emits u ctx st st' p r :
  sp_upsert u ctx st = (st', (p, r)) → emits st st' ∧ emits st (sp_change (ukey u) p r st').
Proof.
  unfold sp_upsert. pose proof (sp_primary_effect st u ctx) as He.
  destruct (sp_primary u ctx st) as [st1 res]. cbn [fst snd] in He. intros [= <- <- <-].
  destruct (effect_emits _ _ _ _ He) as [H1 H2]. split; [done|]. etrans; [exact H1|].
  apply change_emits. case_decide; [done|].
  destruct (sp_change_frame (ukey u) (sp_kv st !! ukey u) res st1) as (-> & _). auto.
Qed.

Lemma steps_emit st st' : rtc spec_step st st' → emits st st'.
Proof.
  induction 1 as [st|st1 st2 st3 Hs _ IH]; [done|]. etrans; [|exact IH]. clear IH.
  destruct Hs as [u ctx st|u ctx st st' p r E|d st Hd|c st Hc|st].
  - destruct (sp_upsert u ctx st) as [st' [p r]] eqn:E. by apply (upsert_emits u ctx st st' p r).
  - by apply (upsert_emits u ctx st st' p r).
  - exists []. by rewrite app_nil_r.
  - exists []. by rewrite app_nil_r.
  - exists []. rewrite app_nil_r. unfold sp_events, sp_send. destruct (sp_sub st) as [l|] eqn:E; cbn.
    + by rewrite app_nil_r.
    + by rewrite E.
Qed.

(** ** States that differ in their subscriber only *)

#[export] Instance Spec_equiv : Equiv Spec := λ st1 st2,
  sp_kv st1 = sp_kv st2 ∧ sp_sys st1 = sp_sys st2 ∧ sp_cursor st1 = sp_cursor st2.

#[export] Instance Spec_equivalence : Equivalence (≡@{Spec}).
Proof.
  split.
  - done.
  - intros st1 st2 (? & ? & ?). done.
  - intros st1 st2 st3 (? & ? & ?) (? & ? & ?). split_and!; congruence.
Qed.

(** An operation gives equivalent states and equal results. *)
Abbreviation same_result := (prod_relation (≡@{Spec}) (=)).

Lemma change_equiv k p r st : sp_change k p r st ≡ st.
Proof. destruct (sp_change_frame k p r st) as (? & ? & ? & _). done. Qed.

#[export] Instance set_sys_proper : Proper ((=) ==> (≡) ==> (≡)) sp_set_sys.
Proof. intros d ? <- st1 st2 (? & ? & ?). done. Qed.
#[export] Instance set_cursor_proper : Proper ((=) ==> (≡) ==> (≡)) sp_set_cursor.
Proof. intros d ? <- st1 st2 (? & ? & ?). done. Qed.

Lemma send_equiv st : sp_send st ≡ st.
Proof. unfold sp_send. by destruct (sp_sub st). Qed.

#[export] Instance primary_proper u ctx : Proper ((≡) ==> same_result) (sp_primary u ctx).
Proof.
  intros [kv1 sys1 c1 ? ?] [kv2 sys2 c2 ? ?] (Hk & Hs & Hc). cbn in *. subst.
  unfold sp_primary, sp_write. cbn. destruct (match_seq_err _ _); [done|].
  destruct (uvalue u); [by destruct (_ <? _)|done|]. destruct (kv2 !! ukey u); [|done]. by destruct (_ <? _).
Qed.

#[export] Instance upsert_proper u ctx : Proper ((≡) ==> same_result) (sp_upsert u ctx).
Proof.
  intros st1 st2 Hst. unfold sp_upsert. destruct Hst as [Hkv Hst']. rewrite Hkv.
  destruct (primary_proper u ctx st1 st2 (conj Hkv Hst')) as [H1 H2].
  destruct (sp_primary u ctx st1) as [st1' r1], (sp_primary u ctx st2) as [st2' r2]. cbn in *. subst.
  split; [|done]. cbn. by rewrite !change_equiv.
Qed.

Lemma delete_each_proper l ctx : Proper ((≡) ==> (≡)) (sp_delete_each l ctx).
Proof.
  induction l as [|[k v] l IH]; intros st1 st2 Hst; [done|]. cbn.
  destruct (upsert_proper (upsert_delete k) ctx st1 st2 Hst) as [H1 H2].
  destruct (sp_upsert _ ctx st1) as [st1' [p1 r1]], (sp_upsert _ ctx st2) as [st2' [p2 r2]].
  cbn in *. simplify_eq. apply IH. by rewrite !change_equiv.
Qed.

#[export] Instance operation_proper op ctx : Proper ((≡) ==> same_result) (sp_operation op ctx).
Proof.
  intros st1 st2 Hst. unfold sp_operation. destruct (op_request op) as [[r|r|r|r]|]; [| | | |done].
  - destruct Hst as [Hkv Hst]. by rewrite Hkv.
  - destruct (upsert_proper (put_upsert r) ctx st1 st2 Hst) as [H1 H2].
    destruct (sp_upsert _ ctx st1) as [st1' [p1 r1]], (sp_upsert _ ctx st2) as [st2' [p2 r2]].
    cbn in *. by simplify_eq.
  - destruct (upsert_proper (delete_upsert r) ctx st1 st2 Hst) as [H1 H2].
    destruct (sp_upsert _ ctx st1) as [st1' [p1 r1]], (sp_upsert _ ctx st2) as [st2' [p2 r2]].
    cbn in *. by simplify_eq.
  - destruct (Hst) as [Hkv _]. rewrite Hkv. split; [|done]. by apply delete_each_proper.
Qed.

#[export] Instance operations_proper ops ctx : Proper ((≡) ==> same_result) (sp_operations ops ctx).
Proof.
  induction ops as [|op ops IH]; intros st1 st2 Hst; [done|]. cbn.
  destruct (operation_proper op ctx st1 st2 Hst) as [H1 H2].
  destruct (sp_operation op ctx st1) as [st1' r1], (sp_operation op ctx st2) as [st2' r2]. cbn in *.
  destruct (IH st1' st2' H1) as [H3 H4].
  destruct (sp_operations ops ctx st1') as [st1'' r1'], (sp_operations ops ctx st2') as [st2'' r2'].
  cbn in *. by simplify_eq.
Qed.

#[export] Instance cmd_proper c ctx : Proper ((≡) ==> same_result) (sp_cmd c ctx).
Proof.
  intros st1 st2 Hst. destruct (Hst) as (Hkv & Hsys & _).
  destruct c as [id node ov|id|u|t]; cbn [sp_cmd].
  - rewrite Hsys. destruct (is_none _ || ov); [|done]. split; [by apply set_sys_proper|done].
  - rewrite Hsys. split; [by apply set_sys_proper|done].
  - destruct (upsert_proper u ctx st1 st2 Hst) as [H1 H2].
    destruct (sp_upsert u ctx st1) as [st1' [p1 r1]], (sp_upsert u ctx st2) as [st2' [p2 r2]].
    cbn in *. by simplify_eq.
  - unfold sp_txn. rewrite Hkv. destruct (sp_choose (sp_kv st2) t) as [ops path].
    destruct (operations_proper ops ctx st1 st2 Hst) as [H1 H2].
    destruct (sp_operations ops ctx st1) as [st1' r1], (sp_operations ops ctx st2) as [st2' r2].
    cbn in *. by simplify_eq.
Qed.

#[export] Instance clean_proper t ctx : Proper ((≡) ==> (≡)) (sp_clean t ctx).
Proof.
  intros st1 st2 Hst. unfold sp_clean. destruct (t =? 0); [done|].
  assert (sp_expired t st1 = sp_expired t st2) as ->.
  { unfold sp_expired. by destruct Hst as (-> & _ & ->). }
  assert (∀ (l : list (ExpireKey * string)) st1 st2, st1 ≡ st2 →
    foldl (λ st x, (sp_upsert (upsert_delete x.2) ctx st).1) st1 l ≡
    foldl (λ st x, (sp_upsert (upsert_delete x.2) ctx st).1) st2 l) as Hl.
  { intros l. induction l as [|x l IH]; intros s1 s2 Hs; [done|]. apply IH, upsert_proper, Hs. }
  specialize (Hl (sp_expired t st2) st1 st2 Hst). rewrite (proj2 (proj2 Hl)).
  destruct (t <? _); [done|]. by apply set_cursor_proper.
Qed.

#[export] Instance apply_proper e : Proper ((≡) ==> same_result) (sp_apply e).
Proof.
  intros st1 st2 Hst. rewrite !sp_apply_eq. cbn zeta.
  set (ctx := cmd_ctx_from_millis _).
  pose proof (clean_proper (get_log_time e) ctx st1 st2 Hst) as Hc.
  assert (Proper ((≡) ==> same_result) (sp_payload e ctx)) as Hp.
  { intros s1 s2 Hs. unfold sp_payload. destruct (entry_payload e); [done|by apply cmd_proper|].
    split; [|done]. destruct (Hs) as (_ & -> & _). by apply set_sys_proper. }
  destruct (Hp _ _ (set_sys_proper _ _ (f_equal (set_last_applied (Some (entry_log_id e))) (proj1 (proj2 Hc))) _ _ Hc)) as [H1 H2].
  split; [|done]. cbn [fst]. by rewrite !send_equiv.
Qed.

#[export] Instance apply_all_proper es : Proper ((≡) ==> same_result) (sp_apply_all es).
Proof.
  induction es as [|e es IH]; intros st1 st2 Hst; [done|]. cbn [sp_apply_all].
  destruct (apply_proper e st1 st2 Hst) as [H1 H2].
  destruct (sp_apply e st1) as [st1' r1], (sp_apply e st2) as [st2' r2]. cbn in *.
  destruct (IH st1' st2' H1) as [H3 H4].
  destruct (sp_apply_all es st1') as [st1'' r1'], (sp_apply_all es st2') as [st2'' r2'].
  cbn in *. by simplify_eq.
Qed.

Lemma sp_apply_all_app es1 es2 st :
  sp_apply_all (es1 ++ es2) st =
    ((sp_apply_all es2 (sp_apply_all es1 st).1).1,
     (sp_apply_all es1 st).2 ++ (sp_apply_all es2 (sp_apply_all es1 st).1).2).
Proof.
  revert st. induction es1 as [|e es1 IH]; intros st; cbn.
  - by destruct (sp_apply_all es2 st).
  - destruct (sp_apply e st) as [st1 r]. rewrite IH. by destruct (sp_apply_all es1 st1).
Qed.
End facts.
