(* ===== verification/Replica.v ===== *)
(** State machines that apply a log: the abstract state of a state machine,
    its invariant, and what applying batches of entries does to both. *)

From stdpp Require Import base orders sorting strings gmap numbers list relations.
From S2P Require Import Prelude BTree RustStr External ExpireKey MetaTypes Marked MapApi Level StateMap.
From S2P Require Import Txn StateMachine Applier ApplierSpec StateMachineProofs ApplierProofs ApplyProofs SpecFacts.
Local Open Scope N_scope.

(** With a subscriber, no change is left behind. *)
Lemma changes_sent {raft : OpenRaft} es st :
  Forall entry_ok es → sp_changes st = [] → is_Some (sp_sub st) → sp_changes (sp_apply_all es st).1 = [].
Proof.
  intros Hes. revert st. induction Hes as [|e es He _ IH]; intros st Hch [sent Hsub]; [done|].
  destruct (apply_steps e st He) as [H1 H2].
  destruct (steps_emit st (sp_apply e st).1 (transitivity H1 H2)) as (_ & _ & _ & Hn).
  cbn [sp_apply_all]. rewrite sp_apply_eq in Hn |- *. cbn zeta in *. set (st1 := (sp_payload _ _ _).1) in *.
  cbn [fst] in Hn. rewrite Hsub in Hn.
  assert (sp_changes (sp_send st1) = [] ∧ is_Some (sp_sub (sp_send st1))) as [Hc Hs].
  { unfold sp_send in *. destruct (sp_sub st1) as [l|] eqn:E; [done|]. by rewrite E in Hn. }
  specialize (IH _ Hc Hs). by destruct (sp_apply_all es (sp_send st1)).
Qed.

Section replica.
Context {raft : OpenRaft} {Mp : Type} `{!StateMap raft Mp, !StateMapLaws Mp}.
Implicit Types (a : Applier Mp) (s : StateMachine Mp) (st : Spec).

(** The abstract state: what can be read. *)
Definition abs s : Spec := {|
  sp_kv := kvv (sm_map s); sp_sys := map_sys (sm_map s); sp_cursor := expire_cursor s;
  sp_sub := subscriber s; sp_changes := [];
|}.

(** The invariant of a state machine: its map is well-formed, sequence numbers
    are unique and bounded, nothing expires before the cursor, and the
    expiration index is the index of the key-values. *)
Record sm_ok s : Prop := {
  ok_wf : smap_wf (sm_map s);
  ok_inv : Inv (abs s);
  ok_index : indexes (kvv (sm_map s)) (expv (sm_map s));
  ok_keys : ∀ ek, is_Some (exp_raw (sm_map s) !! ek) → ek_seq ek ≤ sequence (map_sys (sm_map s));
}.

Lemma ok_rep s : sm_ok s → Rep (applier_new s) (abs s).
Proof. by intros []. Qed.

Lemma rep_ok a st : Rep a st → Inv st → sm_ok (ap_sm a) ∧ abs (ap_sm a) ≡ st ∧ subscriber (ap_sm a) = sp_sub st.
Proof.
  intros [Hwf Hkv Hsys Hcur Hsub Hch Hidx Hkeys] [Hs Hb Hc Hz]. split_and!; [|done..].
  split; [done| |by rewrite Hkv|by rewrite Hsys].
  split; cbn; rewrite ?Hkv, ?Hsys, ?Hcur; done.
Qed.

(** An applier in the middle of its work. *)
Definition abs_with a : Spec := {|
  sp_kv := kvv (sm_map (ap_sm a)); sp_sys := map_sys (sm_map (ap_sm a));
  sp_cursor := expire_cursor (ap_sm a); sp_sub := subscriber (ap_sm a); sp_changes := changes a;
|}.

Lemma ok_rep_with a : sm_ok (ap_sm a) → Rep a (abs_with a) ∧ Inv (abs_with a).
Proof. intros [? [] ? ?]. by split. Qed.

Lemma get_ok s k : sm_ok s → get_maybe_expired_kv s k = Ok (sp_kv (abs s) !! k).
Proof. intros H%ok_rep. exact (get_sim _ _ k H). Qed.

Lemma apply_entries_spec es s :
  sm_ok s → Forall entry_ok es → sequence (map_sys (sm_map s)) + entries_cost es + 1 < u64_mod →
  ∃ s', apply_entries es s = (s', Ok (sp_apply_all es (abs s)).2) ∧ sm_ok s' ∧
    abs s' ≡ (sp_apply_all es (abs s)).1 ∧ subscriber s' = sp_sub (sp_apply_all es (abs s)).1 ∧
    sequence (map_sys (sm_map s')) ≤ sequence (map_sys (sm_map s)) + entries_cost es.
Proof.
  intros Hok Hes Hs.
  destruct (apply_all_sim es _ _ Hes (ok_rep s Hok) (ok_inv s Hok) Hs) as (a & E & HR & HI & Hs').
  destruct (rep_ok _ _ HR HI) as (Hok' & Habs & Hsub). exists (ap_sm a).
  unfold apply_entries. rewrite E. split_and!; try done. destruct Habs as (_ & Hsys & _). cbn in Hsys.
  by rewrite Hsys.
Qed.

(** The events of a log, when there is a subscriber. *)
Lemma apply_all_events es s sent :
  Forall entry_ok es → subscriber s = Some sent →
  ∃ evs, sp_sub (sp_apply_all es (abs s)).1 = Some (sent ++ evs) ∧
    replay evs (kvv (sm_map s)) = sp_kv (sp_apply_all es (abs s)).1.
Proof.
  intros Hes Hsub. destruct (steps_emit _ _ (apply_all_steps es (abs s) Hes)) as (evs & Hev & Hrep & Hn).
  exists evs. split; [|exact Hrep].
  assert (sp_changes (sp_apply_all es (abs s)).1 = []) as Hch by (apply changes_sent; by cbn; rewrite ?Hsub).
  unfold sp_events in Hev. rewrite Hch in Hev. cbn in Hev, Hn. rewrite Hsub in Hev, Hn. cbn in Hev, Hn.
  rewrite !app_nil_r in Hev. destruct (sp_sub (sp_apply_all es (abs s)).1); [|done]. by rewrite <-Hev.
Qed.

(** The log arrives in batches; each has an applier of its own. *)
Fixpoint apply_batches (bs : list (list RaftEntry)) : M (StateMachine Mp) (list AppliedState) :=
  match bs with
  | [] => mret []
  | b :: bs => rs ← apply_entries b; rest ← apply_batches bs; mret (rs ++ rest)
  end.

Lemma entries_cost_app es1 es2 : entries_cost (es1 ++ es2) = entries_cost es1 + entries_cost es2.
Proof. induction es1 as [|e es1 IH]; cbn; [done|]. fold (entries_cost (es1 ++ es2)). fold (entries_cost es1). lia. Qed.

(** Batches do not matter. *)
Lemma apply_batches_spec bs s :
  sm_ok s → Forall entry_ok (concat bs) →
  sequence (map_sys (sm_map s)) + entries_cost (concat bs) + 1 < u64_mod →
  ∃ s', apply_batches bs s = (s', Ok (sp_apply_all (concat bs) (abs s)).2) ∧ sm_ok s' ∧
    abs s' ≡ (sp_apply_all (concat bs) (abs s)).1.
Proof.
  revert s. induction bs as [|b bs IH]; intros s Hok Hes Hs; [by exists s|].
  cbn [concat] in *. rewrite Forall_app in Hes. destruct Hes as [Hb Hbs]. rewrite entries_cost_app in Hs.
  destruct (apply_entries_spec b s Hok Hb) as (s1 & E1 & Hok1 & Habs1 & _ & Hs1); [lia|].
  destruct (IH s1 Hok1 Hbs) as (s2 & E2 & Hok2 & Habs2); [lia|].
  destruct (apply_all_proper (concat bs) _ _ Habs1) as [H1 H2].
  exists s2. cbn [apply_batches]. rewrite (M_bind_Ok _ _ _ _ _ E1), (M_bind_Ok _ _ _ _ _ E2).
  rewrite sp_apply_all_app. cbn [fst snd]. rewrite <-H2. split_and!; [done|done|]. by rewrite Habs2.
Qed.
End replica.

(** ** State machines that start empty *)

Section init.
Context {raft : OpenRaft} {Mp : Type} `{!StateMap raft Mp, !StateMapLaws Mp}.

Lemma sm_ok_empty (m : Mp) sub :
  smap_wf m → kv_raw m = ∅ → exp_raw m = ∅ → map_sys m = sys_data_default →
  sm_ok {| sm_map := m; expire_cursor := expire_key_default; subscriber := sub |}.
Proof.
  intros Hwf Hk He Hs. assert (kvv m = ∅) as Hkv by (unfold kvv; by rewrite Hk).
  split; cbn [sm_map]; [done|split; cbn; rewrite ?Hkv, ?Hs; try done|..].
  - intros ek k. rewrite Hkv. unfold expv. rewrite He. split.
    + intros H. by rewrite lookup_omap, lookup_empty in H.
    + intros (v & H & _). by rewrite lookup_empty in H.
  - rewrite He. intros ek [x H]. by rewrite lookup_empty in H.
Qed.
End init.
