(* ===== verification/ApplierTheorems.v ===== *)
(** What applying the raft log promises, for any lawful map: the abstract state
    machine is implemented, replicas agree, expired keys go away exactly,
    versions are never reused and the published changes replay the data. *)

From stdpp Require Import base orders sorting strings gmap numbers list relations.
From S2P Require Import Prelude BTree RustStr External ExpireKey MetaTypes Marked MapApi Level StateMap.
From S2P Require Import LeveledMap LeveledMapProofs RotblLib Rotbl RotblProofs.
From S2P Require Import Txn StateMachine Applier ApplierSpec StateMachineProofs ApplierProofs ApplyProofs.
From S2P Require Import SpecFacts Replica.
Local Open Scope N_scope.

(** ** Lemmas *)

(** The branch of a transaction that is executed: the first one that holds. *)
Definition branch_holds (kv : gmap string (SeqV bytes)) (b : ConditionalOperation) : bool :=
  match co_predicate b with Some e => sp_expression kv e | None => true end.

Lemma sp_branch_first kv bs i j ops :
  sp_branch kv i bs = Some (j, ops) ↔
  ∃ n b, j = i + N.of_nat n ∧ bs !! n = Some b ∧ ops = co_operations b ∧ branch_holds kv b = true ∧
    ∀ n' b', (n' < n)%nat → bs !! n' = Some b' → branch_holds kv b' = false.
Proof.
  revert i. induction bs as [|b bs IH]; intros i.
  { split; [done|]. intros (n & b & _ & H & _). by rewrite lookup_nil in H. }
  cbn [sp_branch]. fold (branch_holds kv b). destruct (branch_holds kv b) eqn:E.
  - split.
    + intros [= <- <-]. exists 0%nat, b. split_and!; [lia|done..|]. intros n' b' Hn. lia.
    + intros ([|n] & b' & -> & Hb & -> & Ht & Hf); simplify_eq/=; [f_equal; f_equal; lia|].
      rewrite (Hf 0%nat b) in E; [done|lia|done].
  - rewrite IH. split.
    + intros (n & b' & -> & Hb & -> & Ht & Hf). exists (S n), b'. split_and!; [lia|done..|].
      intros [|n'] b'' Hn Hb''; simplify_eq/=; [done|]. eapply Hf; [|done]. lia.
    + intros ([|n] & b' & -> & Hb & -> & Ht & Hf); simplify_eq/=; [congruence|].
      exists n, b'. split_and!; [lia|done..|]. intros n' b'' Hn Hb''. apply (Hf (S n') b''); [lia|done].
Qed.

Lemma sp_branch_none kv bs i :
  sp_branch kv i bs = None → ∀ b, b ∈ bs → branch_holds kv b = false.
Proof.
  revert i. induction bs as [|b bs IH]; intros i; [by intros _ b ?%elem_of_nil|].
  cbn [sp_branch]. fold (branch_holds kv b). destruct (branch_holds kv b) eqn:E; [done|].
  intros Hn b' [->|Hin]%elem_of_cons; [done|]. by apply (IH (i + 1)).
Qed.

(** ** The log *)

Section log.
Context {raft : OpenRaft} {Mp : Type} `{!StateMap raft Mp, !StateMapLaws Mp}.
Implicit Types (s : StateMachine Mp) (es : list RaftEntry).

(** C1: Applying any log entries is a refinement of the abstract state machine.
    From a state that satisfies the invariant, with room for the versions the
    entries write, [apply_entries] ends without an error and without a panic,
    returns the replies of the abstract machine, and reaches a state that
    satisfies the invariant again and reads as the abstract state. *)
Theorem apply_entries_refines es s :
  sm_ok s → Forall entry_ok es → sequence (map_sys (sm_map s)) + entries_cost es + 1 < u64_mod →
  ∃ s', apply_entries es s = (s', Ok (sp_apply_all es (abs s)).2) ∧ sm_ok s' ∧
    abs s' ≡ (sp_apply_all es (abs s)).1.
Proof.
  intros Hok Hes Hs. destruct (apply_entries_spec es s Hok Hes Hs) as (s' & ? & ? & ? & _). eauto.
Qed.

(** C13: Sequence numbers identify values.  If a value read after the log has the
    sequence number of a value read before it, it is the same value under the
    same key: a version number is never given to another value. *)
Theorem versions_never_reused es s k k' v v' :
  sm_ok s → Forall entry_ok es → sequence (map_sys (sm_map s)) + entries_cost es + 1 < u64_mod →
  get_maybe_expired_kv s k = Ok (Some v) →
  get_maybe_expired_kv (apply_entries es s).1 k' = Ok (Some v') →
  seq v' = seq v → k' = k ∧ v' = v.
Proof.
  intros Hok Hes Hs. destruct (apply_entries_spec es s Hok Hes Hs) as (s' & E & Hok' & Habs & _).
  rewrite E. cbn [fst]. rewrite !get_ok by done. intros [= Hk] [= Hk'] Hseq.
  destruct Habs as (Hkv & _ & _). cbn in Hkv, Hk'. rewrite Hkv in Hk'.
  destruct (steps_evolve _ _ (apply_all_steps es (abs s) Hes)) as [_ Hev].
  pose proof (ok_inv s Hok) as HI. pose proof (seqs_bound _ _ (inv_seqs _ HI) k v Hk).
  destruct (Hev k' v' Hk') as [Hold|Hnew]; [|lia].
  pose proof (seqs_inj _ _ (inv_seqs _ HI) k' k v' v Hold Hk Hseq) as ->.
  cbn in Hold, Hk. by simplify_eq.
Qed.

(** C14: The published changes are complete.  When there is a subscriber, the
    changes sent while a log is applied, replayed in their order over the old
    key-values, give the new key-values. *)
Theorem events_replay es s sent :
  sm_ok s → Forall entry_ok es → sequence (map_sys (sm_map s)) + entries_cost es + 1 < u64_mod →
  subscriber s = Some sent →
  ∃ evs, subscriber (apply_entries es s).1 = Some (sent ++ evs) ∧
    replay evs (kvv (sm_map s)) = kvv (sm_map (apply_entries es s).1).
Proof.
  intros Hok Hes Hs Hsub. destruct (apply_entries_spec es s Hok Hes Hs) as (s' & E & Hok' & Habs & Hsub' & _).
  destruct (apply_all_events es s sent Hes Hsub) as (evs & Hev & Hrep).
  rewrite E. cbn [fst]. destruct Habs as (Hkv & _ & _). cbn in Hkv. exists evs. by rewrite Hkv, Hsub'.
Qed.

(** C15: Expiration is exact.  After a log is applied, a value that can be read
    does not expire before the time of any entry of the log, and the readable
    content of the expiration index is computed from the key-values: one entry
    [(expire time, seq) -> key] for each value with an expiration time. *)
Theorem expiration_exact es s :
  sm_ok s → Forall entry_ok es → sequence (map_sys (sm_map s)) + entries_cost es + 1 < u64_mod →
  (∀ e k v, e ∈ es → get_maybe_expired_kv (apply_entries es s).1 k = Ok (Some v) → seqv_is_expired v (get_log_time e) = false) ∧
  expv (sm_map (apply_entries es s).1) = index_of (kvv (sm_map (apply_entries es s).1)).
Proof.
  intros Hok Hes Hs. destruct (apply_entries_spec es s Hok Hes Hs) as (s' & E & Hok' & (_ & _ & Hcur) & _).
  rewrite E. cbn [fst]. split.
  - intros e k v Hin. rewrite get_ok by done. intros [= Hk].
    pose proof (inv_cursor _ (ok_inv _ Hok') k v Hk) as Hc. rewrite Hcur in Hc.
    pose proof (apply_all_cursor es (abs s) e Hes Hin). unfold seqv_is_expired. apply N.ltb_ge. lia.
  - destruct Hok' as [_ HI Hidx _]. exact (index_of_unique _ (inv_bound _ HI) _ _ (inv_seqs _ HI) Hidx).
Qed.
End log.

(** C2: Replicas agree.  Two state machines, over maps of different kinds and
    with or without a subscriber, that read the same and apply the same log,
    each cut into batches in its own way, return the same replies and read the
    same afterwards. *)
Theorem replicas_agree {raft : OpenRaft} {Mp1 Mp2 : Type} `{!StateMap raft Mp1, !StateMapLaws Mp1}
    `{!StateMap raft Mp2, !StateMapLaws Mp2} (s1 : StateMachine Mp1) (s2 : StateMachine Mp2) bs1 bs2 :
  sm_ok s1 → sm_ok s2 → abs s1 ≡ abs s2 → concat bs1 = concat bs2 → Forall entry_ok (concat bs1) →
  sequence (map_sys (sm_map s1)) + entries_cost (concat bs1) + 1 < u64_mod →
  ∃ s1' s2' rs, apply_batches bs1 s1 = (s1', Ok rs) ∧ apply_batches bs2 s2 = (s2', Ok rs) ∧
    sm_ok s1' ∧ sm_ok s2' ∧ abs s1' ≡ abs s2'.
Proof.
  intros Hok1 Hok2 Habs Hbs Hes Hs.
  destruct (apply_batches_spec bs1 s1 Hok1 Hes Hs) as (s1' & E1 & Hok1' & Habs1).
  destruct (apply_batches_spec bs2 s2 Hok2) as (s2' & E2 & Hok2' & Habs2).
  { by rewrite <-Hbs. }
  { rewrite <-Hbs. destruct Habs as (_ & Hsys & _). cbn in Hsys. by rewrite <-Hsys. }
  destruct (apply_all_proper (concat bs2) _ _ Habs) as [H1 H2].
  exists s1', s2', (sp_apply_all (concat bs2) (abs s2)).2.
  rewrite Hbs in *. split_and!; [by rewrite E1, H2|done..|]. by rewrite Habs1, Habs2.
Qed.

(** ** The operations *)

(** What an upsert makes of the value of its key; [next] is the next sequence
    number. *)
Definition upserted (u : UpsertKV) (ctx : CmdContext) (cursor : ExpireKey) (next : N)
    (prev : option (SeqV bytes)) : option (SeqV bytes) :=
  let mt := (λ m, to_kv_meta m ctx) <$> uvalue_meta u in
  let kept v := if opt_expires_at_ms mt <? time_ms cursor then None else Some (mk_SeqV next mt v) in
  if match_seq_err (useq u) (opt_seq prev) then prev
  else match uvalue u with
  | Update v => kept v
  | Delete => None
  | AsIs => prev ≫= λ p, kept (data p)
  end.

Lemma sp_primary_upserted {raft : OpenRaft} u ctx st :
  let res := upserted u ctx (sp_cursor st) (sequence (sp_sys st) + 1) (sp_kv st !! ukey u) in
  (sp_primary u ctx st).2 = res ∧
  sp_kv (sp_primary u ctx st).1 = partial_alter (λ _, res) (ukey u) (sp_kv st).
Proof.
  unfold sp_primary, upserted, sp_write. destruct (match_seq_err _ _).
  { split; [done|]. by rewrite partial_alter_self. }
  cbn [sp_cursor sp_set_sys]. destruct (uvalue u) as [v| |]; [by destruct (_ <? _)|done|].
  destruct (sp_kv st !! ukey u) as [p|] eqn:E; cbn; [by destruct (_ <? _)|].
  split; [done|]. rewrite <-E. by rewrite partial_alter_self.
Qed.

(** Deleting the listed keys one by one, as [delete_by_prefix] does. *)
Lemma sp_delete_each_spec {raft : OpenRaft} ctx l st :
  Inv st → sequence (sp_sys st) + 1 < u64_mod → NoDup l.*1 →
  (∀ k v, (k, v) ∈ l → sp_kv st !! k = Some v) →
  sp_kv (sp_delete_each l ctx st) = filter (λ x, x.1 ∉ l.*1) (sp_kv st) ∧
  sp_changes (sp_delete_each l ctx st) =
    sp_changes st ++ (l ≫= λ x, [(x.1, Some x.2, None); (x.1, Some x.2, None)]).
Proof.
  revert st. induction l as [|[k v] l IH]; intros st HI Hs Hnd Hl.
  { split; [|by rewrite app_nil_r]. symmetry. apply map_filter_id. intros ? ? ? ?%elem_of_nil. done. }
  cbn [fmap list_fmap] in Hnd. apply NoDup_cons in Hnd as [Hn Hnd].
  assert (sp_kv st !! k = Some v) as Hv by (apply Hl; left).
  pose proof (sp_delete_present ctx st k v HI Hv) as E.
  pose proof (sp_upsert_inv (upsert_delete k) ctx st HI Hs) as HI1.
  cbn [sp_delete_each foldl fst]. rewrite E in *. cbn [fst] in HI1.
  apply (inv_change k (Some v) None) in HI1. unfold sp_change in *. rewrite decide_False in * by done.
  destruct (IH _ HI1 Hs Hnd) as [Hkv Hch].
  { intros k' v' Hin. cbn. rewrite lookup_delete_ne; [apply Hl; by right|]. intros <-. apply Hn.
    by apply (list_elem_of_fmap_2 fst _ (k, v')). }
  split.
  - etrans; [exact Hkv|]. cbn. apply map_eq. intros k'. apply option_eq. intros v'.
    rewrite !map_lookup_filter_Some, lookup_delete_Some. cbn. rewrite not_elem_of_cons. naive_solver.
  - etrans; [exact Hch|]. cbn. by rewrite <-!app_assoc.
Qed.

Lemma elem_of_sp_list kv p k v :
  (k, v) ∈ sp_list kv p ↔ kv !! k = Some v ∧ starts_with k p = true.
Proof. unfold sp_list. rewrite list_elem_of_filter, elem_of_btree_iter. naive_solver. Qed.

Lemma sp_list_sorted kv p : StronglySorted klt (sp_list kv p).
Proof. apply sorted_kv_filter, btree_iter_sorted. Qed.

Section operations.
Context {raft : OpenRaft} {Mp : Type} `{!StateMap raft Mp, !StateMapLaws Mp}.
Implicit Types (s : StateMachine Mp) (a : Applier Mp).

(** C18: An upsert is a compare-and-set on one key.  When the sequence number of
    the key does not match, nothing changes; a delete removes the key; a put, or
    an update of the meta of a present key, stores the value under the next
    sequence number, unless it expires before the cursor.  The reply has the
    values before and after, other keys keep their values, and the invariant is
    kept. *)
Theorem upsert_semantics u a :
  sm_ok (ap_sm a) → sequence (map_sys (sm_map (ap_sm a))) + 2 < u64_mod →
  let kv := kvv (sm_map (ap_sm a)) in
  let res := upserted u (cmd_ctx a) (expire_cursor (ap_sm a))
    (sequence (map_sys (sm_map (ap_sm a))) + 1) (kv !! ukey u) in
  ∃ a', apply_upsert_kv u a = (a', Ok (ASKV (change_new (kv !! ukey u) res))) ∧ sm_ok (ap_sm a') ∧
    kvv (sm_map (ap_sm a')) = partial_alter (λ _, res) (ukey u) kv.
Proof.
  intros Hok Hs kv res. destruct (ok_rep_with a Hok) as [HR HI].
  destruct (cmd_sim (cmd_ctx a) (CmdUpsertKV u) a _ HR HI eq_refl) as (a' & E & HR' & HI' & _).
  { cbn. destruct (uvalue u); lia. }
  destruct (rep_ok _ _ HR' HI') as (Hok' & (Hkv & _) & _). exists a'.
  destruct (sp_primary_upserted u (cmd_ctx a) (abs_with a)) as [Hres Hkv'].
  cbn [sp_cmd apply_cmd] in *. unfold sp_upsert in *.
  destruct (sp_primary u (cmd_ctx a) (abs_with a)) as [st' r]. cbn [fst snd] in *.
  split_and!; [by rewrite E, Hres|done|].
  etrans; [exact Hkv|]. etrans; [apply sp_change_frame|exact Hkv'].
Qed.

(** C19: Cleaning removes exactly the expired keys.  [clean_expired_kvs] does not
    fail or panic; a key remains when its value is not expired at the given
    time, the system data stays, and each removed key is reported once, ordered
    by expiration time and sequence number.  The expiration cursor moves to the time,
    unless the time is 0 or before the cursor. *)
Theorem clean_expired_exact t a :
  sm_ok (ap_sm a) → t < u64_mod → sequence (map_sys (sm_map (ap_sm a))) + 1 < u64_mod →
  let kv := kvv (sm_map (ap_sm a)) in
  ∃ a' l, clean_expired_kvs t a = (a', Ok tt) ∧ sm_ok (ap_sm a') ∧
    kvv (sm_map (ap_sm a')) = filter (λ x, seqv_is_expired x.2 t = false) kv ∧
    map_sys (sm_map (ap_sm a')) = map_sys (sm_map (ap_sm a)) ∧
    expire_cursor (ap_sm a') =
      (if (t =? 0) || (t <? time_ms (expire_cursor (ap_sm a))) then expire_cursor (ap_sm a) else expire_key_new t 0) ∧
    changes a' = changes a ++ ((λ x, (x.2, kv !! x.2, None)) <$> l) ∧
    StronglySorted klt l ∧
    ∀ ek k, (ek, k) ∈ l ↔ ∃ v, kv !! k = Some v ∧ ek_of v = Some ek ∧ seqv_is_expired v t = true.
Proof.
  intros Hok Ht Hs kv. destruct (ok_rep_with a Hok) as [HR HI].
  destruct (clean_sim (cmd_ctx a) t Ht a _ HR HI eq_refl) as (a' & E & HR' & _ & _).
  { cbn. lia. }
  destruct (sp_clean_spec t (cmd_ctx a) _ HI Ht Hs) as (HI' & Hkv' & Hsys' & _).
  destruct (rep_ok _ _ HR' HI') as (Hok' & (Hkv & Hsys & _) & _). cbn in Hkv, Hsys.
  destruct (sp_delete_all (cmd_ctx a) (sp_expired t (abs_with a)) _ HI Hs (sp_expired_live t _ HI Ht))
    as (_ & _ & _ & Hcur & _ & Hch).
  exists a', (if t =? 0 then [] else sp_expired t (abs_with a)). split_and!; [done|done|..].
  - rewrite Hkv, Hkv'. apply map_filter_ext. intros k v _. unfold seqv_is_expired. cbn. by rewrite N.ltb_ge.
  - by rewrite Hsys, Hsys'.
  - rewrite (rep_cursor _ _ HR'). cbn [fst]. unfold sp_clean. destruct (t =? 0); [done|]. rewrite Hcur. by destruct (_ <? _).
  - rewrite (rep_changes _ _ HR'). cbn [fst]. unfold sp_clean. destruct (t =? 0).
    { by rewrite app_nil_r. }
    destruct (_ <? _); exact Hch.
  - destruct (t =? 0); [constructor|apply sp_expired_sorted].
  - intros ek k. unfold seqv_is_expired. destruct (N.eqb_spec t 0) as [->|Hz].
    + split; [by intros ?%elem_of_nil|]. intros (v & _ & _ & Hlt). apply N.ltb_lt in Hlt. lia.
    + rewrite (sp_expired_elem t _ ek k HI Ht). by setoid_rewrite N.ltb_lt.
Qed.
End operations.

Section transactions.
Context {raft : OpenRaft} {Mp : Type} `{!StateMap raft Mp, !StateMapLaws Mp}.
Implicit Types (s : StateMachine Mp) (a : Applier Mp).

(** What an operator of a condition says of two values. *)
Definition op_rel {T} (lt : relation T) (op : ConditionResult) (x y : T) : Prop :=
  match op with
  | CEq => x = y
  | CNe => x ≠ y
  | CGt => lt y x
  | CLt => lt x y
  | CGe => ¬ lt x y
  | CLe => ¬ lt y x
  end.

Lemma op_holds_N op x y : op_holds op (x ?= y) = true ↔ op_rel N.lt op x y.
Proof. destruct op, (N.compare_spec x y); cbn; split; (done || lia). Qed.
Lemma op_holds_string op (x y : string) : op_holds op (String.compare x y) = true ↔ op_rel key_lt op x y.
Proof.
  assert (String.compare x y = Lt ↔ key_lt x y) as Hlt.
  { rewrite str_lt_alt. unfold String.le, String.leb. rewrite (String.compare_antisym y x).
    destruct (String.compare x y); naive_solver. }
  assert (String.compare x y = Gt ↔ key_lt y x) as Hgt.
  { rewrite str_lt_alt. unfold String.le, String.leb. destruct (String.compare x y); naive_solver. }
  assert (String.compare x y = Eq ↔ x = y) as Heq.
  { split; [apply String.compare_eq_iff|]. intros ->. pose proof (String.compare_antisym y y) as E. by destruct (String.compare y y). }
  destruct op; cbn [op_rel]; rewrite <-?Hlt, <-?Hgt, <-?Heq; destruct (String.compare x y); naive_solver.
Qed.
(** Counting stops after one more than the number that is compared with. *)
Lemma op_rel_min op n m : op_rel N.lt op (n `min` (m + 1)) m ↔ op_rel N.lt op n m.
Proof. destruct op; cbn; lia. Qed.

Lemma length_sp_list kv p : length (sp_list kv p) = size (filter (λ x, starts_with x.1 p = true) kv).
Proof.
  rewrite <-length_map_to_list. apply Permutation_length, NoDup_Permutation.
  - apply NoDup_filter. unfold btree_iter. rewrite merge_sort_Permutation. apply NoDup_map_to_list.
  - apply NoDup_map_to_list.
  - intros [k v]. unfold sp_list. rewrite list_elem_of_filter, elem_of_btree_iter, elem_of_map_to_list, map_lookup_filter_Some. cbn. tauto.
Qed.

(** The operations [ops] were executed in their order: each on the state that the one
    before it left, with its response. *)
Definition executed (ops : list TxnOp) a a' (r : TxnReply) : Prop :=
  let '(st, rs) := sp_operations ops (cmd_ctx a) (abs_with a) in
  kvv (sm_map (ap_sm a')) = sp_kv st ∧ map_sys (sm_map (ap_sm a')) = sp_sys st ∧ changes a' = sp_changes st ∧
  reply_responses r = (λ x, {| op_response := Some x |}) <$> rs.

Lemma to_from_i32 op : condition_result_from_i32 (condition_result_to_i32 op) = Some op.
Proof. by destruct op. Qed.

Lemma branch_index_none b rs e p :
  p = "then" ∨ p = "else" →
  executed_branch_index {| reply_success := b; reply_responses := rs; reply_error := e; reply_execution_path := p |} = inl None.
Proof. by intros [-> | ->]. Qed.

Lemma txn_executes_one t a :
  sm_ok (ap_sm a) → sequence (map_sys (sm_map (ap_sm a))) + txn_cost t + 1 < u64_mod →
  N.of_nat (length (txn_operations t)) < u64_mod →
  let kv := kvv (sm_map (ap_sm a)) in
  ∃ a' r, apply_txn t a = (a', Ok (ASTxnReply r)) ∧ sm_ok (ap_sm a') ∧
    match executed_branch_index r with
    | inl (Some i) => ∃ b, txn_operations t !! N.to_nat i = Some b ∧ branch_holds kv b = true ∧
        (∀ j b', (j < N.to_nat i)%nat → txn_operations t !! j = Some b' → branch_holds kv b' = false) ∧
        reply_success r = true ∧ executed (co_operations b) a a' r
    | inl None =>
        (∀ b, b ∈ txn_operations t → branch_holds kv b = false) ∧
        reply_success r = forallb (sp_condition kv) (txn_condition t) ∧
        executed (if reply_success r then txn_if_then t else txn_else_then t) a a' r
    | inr _ => False
    end.
Proof.
  intros Hok Hs Hlen kv. destruct (ok_rep_with a Hok) as [HR HI].
  destruct (txn_sim (cmd_ctx a) t a _ HR HI eq_refl Hs) as (a' & E & HR' & HI' & _).
  destruct (rep_ok _ _ HR' HI') as (Hok' & _). exists a', (sp_txn t (cmd_ctx a) (abs_with a)).2.
  split_and!; [done..|]. clear E Hok'. cbn [fst] in HR'. destruct HR' as [_ Hkv Hsys _ _ Hch _ _]. revert Hkv Hsys Hch.
  unfold executed, sp_txn, sp_choose. change (sp_kv (abs_with a)) with kv.
  destruct (sp_branch kv 0 (txn_operations t)) as [[i ops]|] eqn:Eb.
  - pose proof (proj1 (sp_branch_first _ _ _ _ _) Eb) as (n & b & -> & Hb & -> & Ht & Hf).
    destruct (sp_operations _ _ _) as [st' rs] eqn:Eo. cbn [fst snd]. intros Hkv Hsys Hch. unfold executed_branch_index.
    cbn [reply_execution_path]. rewrite (proj2 (strip_prefix_Some _ _ _) eq_refl), parse_u64_dec_string.
    2: { apply lookup_lt_Some in Hb. lia. }
    exists b. cbn [reply_success reply_responses]. rewrite Eo. replace (N.to_nat (0 + N.of_nat n)) with n by lia. done.
  - assert (∀ b, b ∈ txn_operations t → branch_holds kv b = false) as Hnone.
    { apply (sp_branch_none kv (txn_operations t) 0 Eb). }
    destruct (forallb (sp_condition kv) (txn_condition t)).
    all: destruct (sp_operations _ _ _) as [st' rs] eqn:Eo; cbn [fst snd]; rewrite branch_index_none by auto;
      case_bool_decide; try done; cbn [reply_success]; by rewrite Eo.
Qed.

(** C27: A transaction executes one branch.  The reply's
    [executed_branch_index] is the index of the first branch whose predicate
    holds in the state before the transaction, and then the transaction
    succeeded; when no predicate holds it is [None], and the transaction
    succeeded iff its conditions hold.  The key-values, the system data, the recorded
    changes and the responses afterwards are those of executing the operations of that
    branch one after the other.  A condition compares the sequence number (0 without
    a value), the value, or the number of keys with a prefix by its operator; without
    a value no condition on it holds.  A predicate with the operator [And] holds iff
    all its sub-expressions and conditions hold; with the operator [Or] it is true
    whatever its parts are, also when all of them are false: the evaluation falls
    through to [Ok(true)]. *)
Theorem txn_semantics t a :
  sm_ok (ap_sm a) → sequence (map_sys (sm_map (ap_sm a))) + txn_cost t + 1 < u64_mod →
  N.of_nat (length (txn_operations t)) < u64_mod →
  let kv := kvv (sm_map (ap_sm a)) in
  (∃ a' r, apply_txn t a = (a', Ok (ASTxnReply r)) ∧ sm_ok (ap_sm a') ∧
    match executed_branch_index r with
    | inl (Some i) => ∃ b, txn_operations t !! N.to_nat i = Some b ∧ branch_holds kv b = true ∧
        (∀ j b', (j < N.to_nat i)%nat → txn_operations t !! j = Some b' → branch_holds kv b' = false) ∧
        reply_success r = true ∧ executed (co_operations b) a a' r
    | inl None =>
        (∀ b, b ∈ txn_operations t → branch_holds kv b = false) ∧
        reply_success r = forallb (sp_condition kv) (txn_condition t) ∧
        executed (if reply_success r then txn_if_then t else txn_else_then t) a a' r
    | inr _ => False
    end) ∧
  (∀ k op n, eval_one_condition (ap_sm a) (cond_match_seq k op n) = Ok true ↔ op_rel N.lt op (opt_seq (kv !! k)) n) ∧
  (∀ k op v, eval_one_condition (ap_sm a) (cond_match_value k op v) = Ok true ↔
     ∃ stored, kv !! k = Some stored ∧ op_rel key_lt op (data stored) v) ∧
  (∀ p op n, n + 1 < u64_mod → eval_one_condition (ap_sm a) (match_keys_with_prefix p op n) = Ok true ↔
     op_rel N.lt op (N.of_nat (size (filter (λ x, starts_with x.1 p = true) kv))) n) ∧
  (∀ e, eval_bool_expression (ap_sm a) e =
    Ok (match operator e with
        | And => forallb (sp_expression kv) (be_sub_expressions e) && forallb (sp_condition kv) (be_conditions e)
        | Or => true
        end)).
Proof.
  intros Hok Hs Hlen kv. split; [by apply txn_executes_one|]. pose proof (ok_rep _ Hok) as HR.
  assert (∀ c, eval_one_condition (ap_sm a) c = Ok true ↔ sp_condition kv c = true) as Hc.
  { intros c. assert (eval_one_condition (ap_sm a) c = Ok (sp_condition kv c)) as -> by exact (condition_sim _ _ c HR).
    split; [by intros [= ?]|by intros ->]. }
  unfold sp_condition in Hc.
  split_and!.
  - intros k op n. rewrite Hc, <-op_holds_N. by destruct op.
  - intros k op v. rewrite Hc. setoid_rewrite <-op_holds_string. cbn [cond_key cond_target cond_expected cond_match_value].
    rewrite to_from_i32. destruct (kv !! k) as [stored|]; [|naive_solver]. split; [by exists stored|by intros (? & [= <-] & ->)].
  - intros p op n Hn. rewrite Hc, <-length_sp_list, <-op_rel_min, <-op_holds_N. cbn [cond_key cond_target cond_expected match_keys_with_prefix].
    by rewrite to_from_i32, wrap64_small.
  - intros e. etrans; [exact (expression_sim _ _ HR e)|]. by destruct e as [[] ? ?].
Qed.

(** C35: Deleting by prefix removes exactly the keys with the prefix and replies
    with their number (as a [u32]).  Each removal is recorded twice in the
    changes: once by [upsert_kv] and once by the loop. *)
Theorem delete_by_prefix_semantics r resp a :
  sm_ok (ap_sm a) → sequence (map_sys (sm_map (ap_sm a))) + 1 < u64_mod →
  let kv := kvv (sm_map (ap_sm a)) in
  let l := sp_list kv (dbp_prefix r) in
  ∃ a', txn_execute_delete_by_prefix r resp a =
      (a', Ok (push_response (RespDeleteByPrefix (dbp_prefix r) (N.of_nat (length l) `mod` 2 ^ 32)) resp)) ∧
    sm_ok (ap_sm a') ∧
    kvv (sm_map (ap_sm a')) = filter (λ x, starts_with x.1 (dbp_prefix r) = false) kv ∧
    changes a' = changes a ++ (l ≫= λ x, [(x.1, Some x.2, None); (x.1, Some x.2, None)]).
Proof.
  intros Hok Hs kv l. destruct (ok_rep_with a Hok) as [HR HI].
  destruct (operation_sim (cmd_ctx a) {| op_request := Some (RDeleteByPrefix r) |} resp a _ HR HI eq_refl)
    as (a' & E & HR' & HI' & _).
  { cbn. lia. }
  destruct (rep_ok _ _ HR' HI') as (Hok' & (Hkv & _) & _).
  destruct (sp_delete_each_spec (cmd_ctx a) l (abs_with a) HI Hs) as [Hkv' Hch].
  { apply (sorted_kv_NoDup_fst key_le), sp_list_sorted. }
  { by intros k v [? _]%elem_of_sp_list. }
  exists a'. split_and!; [exact E|done|..].
  - etrans; [exact Hkv|]. etrans; [exact Hkv'|]. apply map_filter_ext. intros k v Hk. cbn.
    rewrite list_elem_of_fmap. destruct (starts_with k (dbp_prefix r)) eqn:Ep; split; try done.
    + intros Hn. destruct Hn. exists (k, v). split; [done|]. by apply elem_of_sp_list.
    + intros _ ([k' v'] & -> & [_ Hp]%elem_of_sp_list). cbn in Ep. congruence.
  - rewrite (rep_changes _ _ HR'). exact Hch.
Qed.

(** Listing a prefix is exact: [list_kv] gives the present keys with the
    prefix, each with its value, in the order of the keys, and no error. *)
Lemma list_kv_exact s p :
  sm_ok s →
  ∃ l, list_kv s p = Ok (Ok <$> l) ∧ StronglySorted klt l ∧
    ∀ k v, (k, v) ∈ l ↔ starts_with k p = true ∧ get_maybe_expired_kv s k = Ok (Some v).
Proof.
  intros Hok. exists (sp_list (kvv (sm_map s)) p). split; [by apply list_kv_spec, Hok|].
  split; [apply sp_list_sorted|]. intros k v. rewrite elem_of_sp_list, get_ok by done. cbn. naive_solver congruence.
Qed.

(** Nodes.  Adding a node stores it when the id is free or when it
    overrides, and otherwise changes nothing; the reply has the node before and
    after.  Key-values are not touched. *)
Lemma add_node_semantics id node (overriding : bool) a :
  sm_ok (ap_sm a) → sequence (map_sys (sm_map (ap_sm a))) + 1 < u64_mod →
  let prev := nodes (map_sys (sm_map (ap_sm a))) !! id in
  let stored := if overriding then node else default node prev in
  ∃ a', apply_add_node id node overriding a = (a', Ok (ASNode prev (Some stored))) ∧ sm_ok (ap_sm a') ∧
    nodes (map_sys (sm_map (ap_sm a'))) = <[id := stored]> (nodes (map_sys (sm_map (ap_sm a)))) ∧
    kvv (sm_map (ap_sm a')) = kvv (sm_map (ap_sm a)).
Proof.
  intros Hok Hs prev stored. destruct (ok_rep_with a Hok) as [HR HI].
  destruct (add_node_sim (cmd_ctx a) id node overriding a _ HR HI eq_refl) as (a' & E & HR' & HI' & _).
  { cbn. lia. }
  destruct (rep_ok _ _ HR' HI') as (Hok' & (Hkv & Hsys & _) & _). exists a'.
  rewrite E. cbn [sp_cmd abs_with sp_sys] in *. fold prev in Hkv, Hsys |- *. cbn [abs sp_sys sp_kv] in Hkv, Hsys.
  rewrite Hkv, Hsys. destruct prev as [p|] eqn:Ep, overriding; cbn; split_and!; try done.
  symmetry. by apply insert_id.
Qed.
End transactions.

(** ** Examples: a state machine over the leveled map, and one over a level *)

Module LogEx.
#[export] Existing Instances nat_raft list_streams list_streams_laws mem_rotbl mem_rotbl_laws.
#[export] Existing Instances text_serde text_serde_laws text_serde_total.

Definition s0 : StateMachine (LeveledMap DB) :=
  {| sm_map := leveled_map_default; expire_cursor := expire_key_default; subscriber := Some [] |}.
Definition mem0 : StateMachine Level :=
  {| sm_map := level_default; expire_cursor := expire_key_default; subscriber := None |}.

Definition entry (i : nat) (t : N) (c : Cmd) : RaftEntry :=
  {| entry_log_id := i : LogId; entry_payload := PayloadNormal {| log_txid := None; log_time_ms := Some t; log_cmd := c |} |}.

(** [a] expires at 5 seconds, before the second entry. *)
Definition es : list RaftEntry := [
  entry 1 1000 (CmdUpsertKV (with_meta_spec (upsert_update "a" "1")
    {| spec_expire_at := Some 5; spec_ttl := None |}));
  entry 2 6000 (Transaction (txn_new [cond_eq_seq "a" 0] [op_put "b" "2"; op_get "b"]))
].

Lemma s0_ok : sm_ok s0.
Proof. apply sm_ok_empty; [apply leveled_map_default_wf|reflexivity..]. Qed.

Lemma mem0_ok : sm_ok mem0.
Proof. apply sm_ok_empty; [apply level_smap_wf|reflexivity..]. Qed.

Lemma es_ok : Forall entry_ok es.
Proof. repeat constructor. Qed.

Lemma es_room : sequence (map_sys (sm_map s0)) + entries_cost es + 1 < u64_mod.
Proof. reflexivity. Qed.

Lemma apply_entries_refines_witness :
  ∃ s', apply_entries es s0 = (s', Ok (sp_apply_all es (abs s0)).2) ∧ sm_ok s' ∧
    abs s' ≡ (sp_apply_all es (abs s0)).1.
Proof. exact (apply_entries_refines es s0 s0_ok es_ok es_room). Defined.

Definition b_value : SeqV bytes := mk_SeqV 2 (Some {| expire_at := None |}) "2".

Lemma b_read : get_maybe_expired_kv (apply_entries es s0).1 "b" = Ok (Some b_value).
Proof. vm_compute. reflexivity. Qed.

(** A state machine that holds [b], and one entry that leaves it alone. *)
Definition s1 : StateMachine (LeveledMap DB) := (apply_entries es s0).1.
Definition es1 : list RaftEntry := [entry 3 7000 (CmdUpsertKV (upsert_insert "c" "3"))].

Lemma s1_ok : sm_ok s1.
Proof.
  destruct (apply_entries_spec es s0 s0_ok es_ok es_room) as (s' & E & Hok & _).
  unfold s1. by rewrite E.
Qed.

Lemma es1_ok : Forall entry_ok es1.
Proof. repeat constructor. Qed.

Lemma s1_room n : n < 1000 → sequence (map_sys (sm_map s1)) + n + 1 < u64_mod.
Proof.
  assert (sequence (map_sys (sm_map s1)) = 2) as -> by (vm_compute; reflexivity). unfold u64_mod. lia.
Qed.

Lemma versions_never_reused_witness : "b" = "b" ∧ b_value = b_value.
Proof.
  apply (versions_never_reused es1 s1 "b" "b" b_value b_value s1_ok es1_ok).
  - by apply s1_room.
  - exact b_read.
  - vm_compute. reflexivity.
  - reflexivity.
Defined.

Lemma events_replay_witness :
  ∃ evs, subscriber (apply_entries es s0).1 = Some ([] ++ evs) ∧
    replay evs (kvv (sm_map s0)) = kvv (sm_map (apply_entries es s0).1).
Proof. exact (events_replay es s0 [] s0_ok es_ok es_room eq_refl). Defined.

Lemma expiration_exact_witness :
  seqv_is_expired b_value 1000 = false ∧ expv (sm_map (apply_entries es s0).1) = index_of (kvv (sm_map (apply_entries es s0).1)).
Proof.
  destruct (expiration_exact es s0 s0_ok es_ok es_room) as [H1 H2]. split; [|exact H2].
  exact (H1 (entry 1 1000 (CmdUpsertKV (with_meta_spec (upsert_update "a" "1")
    {| spec_expire_at := Some 5; spec_ttl := None |}))) "b" b_value (list_elem_of_here _ _) b_read).
Defined.

(** One replica applies the entries one by one, the other together. *)
Definition singles : list (list RaftEntry) := (λ e, [e]) <$> es.

Lemma singles_concat : concat singles = es.
Proof. reflexivity. Qed.

Lemma same_start : abs s0 ≡ abs mem0.
Proof. split_and!; reflexivity. Qed.

Lemma replicas_agree_witness :
  ∃ s' mem' rs, apply_batches singles s0 = (s', Ok rs) ∧
    apply_batches [es] mem0 = (mem', Ok rs) ∧ abs s' ≡ abs mem'.
Proof.
  destruct (replicas_agree s0 mem0 singles [es] s0_ok mem0_ok same_start)
    as (s' & mem' & rs & E1 & E2 & _ & _ & Habs).
  - rewrite singles_concat. cbn [concat]. by rewrite app_nil_r.
  - rewrite singles_concat. exact es_ok.
  - rewrite singles_concat. exact es_room.
  - exists s', mem', rs. split; [exact E1|]. split; [exact E2|exact Habs].
Defined.

Definition a1 : Applier (LeveledMap DB) := applier_new s1.

Lemma upsert_semantics_witness :
  ∃ a', apply_upsert_kv (upsert_insert "c" "3") a1 =
    (a', Ok (ASKV (change_new None (Some (mk_SeqV 3 None "3"))))).
Proof.
  destruct (upsert_semantics (upsert_insert "c" "3") a1 s1_ok (s1_room 1 eq_refl)) as (a' & E & _).
  exists a'. rewrite E. unfold change_new. do 4 f_equal; vm_compute; reflexivity.
Defined.

Lemma clean_expired_exact_witness :
  ∃ a', clean_expired_kvs 9000 a1 = (a', Ok tt) ∧ sm_ok (ap_sm a') ∧ expire_cursor (ap_sm a') = expire_key_new 9000 0.
Proof.
  destruct (clean_expired_exact 9000 a1 s1_ok eq_refl (s1_room 0 eq_refl)) as (a' & l & E & Hok & _ & _ & Hcur & _).
  exists a'. split; [exact E|]. split; [exact Hok|]. rewrite Hcur. vm_compute. reflexivity.
Defined.

(** Two branches, the second one holds. *)
Definition txn1 : TxnRequest :=
  push_branch (Some (from_conditions And [cond_eq_seq "b" 2])) [op_delete "b"]
    (push_branch (Some (from_conditions And [cond_eq_seq "b" 1])) [op_get "b"] (unconditional [])).

Lemma txn_semantics_witness :
  (∃ a' r, apply_txn txn1 a1 = (a', Ok (ASTxnReply r)) ∧ sm_ok (ap_sm a')) ∧
  eval_one_condition (ap_sm a1) (cond_match_seq "b" CGt 1) = Ok true ∧
  eval_bool_expression (ap_sm a1) (from_conditions Or [cond_eq_seq "b" 1; cond_eq_value "b" "x"]) = Ok true.
Proof.
  destruct (txn_semantics txn1 a1 s1_ok (s1_room 0 eq_refl) eq_refl) as [(a' & r & E & Hok & _) (Hseq & _ & _ & H)].
  split; [exists a', r; split; [exact E|exact Hok]|]. split.
  - apply Hseq. vm_compute. reflexivity.
  - exact (H (from_conditions Or [cond_eq_seq "b" 1; cond_eq_value "b" "x"])).
Defined.

(** In the second expression both conditions are false. *)
Lemma delete_by_prefix_semantics_witness :
  ∃ a', txn_execute_delete_by_prefix {| dbp_prefix := "b" |} (txn_reply_new "then") a1 =
      (a', Ok (push_response (RespDeleteByPrefix "b" 1) (txn_reply_new "then"))) ∧
    changes a' = [("b", Some b_value, None); ("b", Some b_value, None)].
Proof.
  destruct (delete_by_prefix_semantics {| dbp_prefix := "b" |} (txn_reply_new "then") a1 s1_ok (s1_room 0 eq_refl))
    as (a' & E & _ & _ & Hch). exists a'. split.
  - rewrite E. do 3 f_equal.
  - rewrite Hch. vm_compute. reflexivity.
Defined.
End LogEx.
