(* ===== verification/SMV003.v ===== *)
(** The state machine of a meta-service node (raft-store/src/sm_v003/sm_v003.rs,
    sm_v003_kv_api.rs) and of the in-memory meta-service (mem_meta.rs,
    mem_state_machine.rs): installing snapshots, reading through the KV API, and
    the exported form of a snapshot (db_exporter.rs, adapter.rs). *)

From stdpp Require Import base orders sorting strings gmap numbers list.
From S2P Require Import Prelude BTree RustStr External ExpireKey MetaTypes Marked MapApi Level StateMap.
From S2P Require Import LeveledMap LeveledMapProofs RotblLib Rotbl RotblProofs Compaction Txn StateMachine Applier.
Local Open Scope N_scope.

(** ** Reading through the KV API

    The clock of the node is read once per request; [now] is its time. *)

Record StreamItem := { si_key : string; si_value : option pb_SeqV }.

Definition non_expired {V} (seq_value : option (SeqV V)) (now_ms : N) : option (SeqV V) :=
  if opt_is_expired seq_value now_ms then None else seq_value.

Definition stream_item (x : string * option (SeqV bytes)) : StreamItem :=
  {| si_key := x.1; si_value := pb_SeqV_of <$> x.2 |}.

Section kv_api.
Context {raft : OpenRaft} {Mp : Type} `{!StateMap raft Mp}.

(** [get_kv_stream]: the keys one by one. *)
Fixpoint get_kv_stream (now : N) (s : StateMachine Mp) (keys : list string) :
    Outcome (Stream StreamItem) :=
  match keys with
  | [] => Ok []
  | k :: keys =>
      got ← get_maybe_expired_kv s k;
      items ← get_kv_stream now s keys;
      Ok (Ok (stream_item (k, non_expired got now)) :: items)
  end.

(** [list_kv] of the KV API: expired entries are left out. *)
Definition api_list_kv (now : N) (s : StateMachine Mp) (prefix : string) : Outcome (Stream StreamItem) :=
  strm ← list_kv s prefix;
  Ok (try_filter_map (λ x : string * SeqV bytes,
    if seqv_is_expired x.2 now then None else Some (stream_item (x.1, Some x.2))) strm).

(** Run an applier on the state machine. *)
Definition with_applier {A} (c : M (Applier Mp) A) : M (StateMachine Mp) A := λ s,
  let '(a, r) := c (applier_new s) in (ap_sm a, r).

(** [MemMeta::init_applier]: the time of the request, then the expired keys. *)
Definition init_applier (now : N) : M (Applier Mp) unit :=
  _ ← modify (set_cmd_ctx (cmd_ctx_from_millis now));
  clean_expired_kvs now.

(** [MemMeta::upsert_kv] and [MemMeta::transaction]. *)
Definition mem_upsert_kv (now : N) (u : UpsertKV) : M (StateMachine Mp) (Change bytes N) :=
  with_applier (
    _ ← init_applier now;
    '(prev, result) ← upsert_kv u;
    mret (change_new prev result)).

Definition mem_transaction (now : N) (t : TxnRequest) : M (StateMachine Mp) TxnReply :=
  with_applier (
    _ ← init_applier now;
    applied_state ← apply_txn t;
    match applied_state with
    | ASTxnReply txn_reply => mret txn_reply
    | _ => lift Panic
    end).
(** [send_range]: the stream that is handed to the sender of events, if there
    is one. *)
Definition send_range (s : StateMachine Mp) (rng : Bounds string) :
    Outcome (option (Stream (string * SeqV bytes))) :=
  match subscriber s with
  | None => Ok None
  | Some _ => strm ← range_kv s rng; Ok (Some strm)
  end.

End kv_api.

(** ** [SMV003] *)

Section sm_v003.
Context {raft : OpenRaft} {sm : StreamMore} {rb : RotblLib} {sl : SerdeLib raft}.

Abbreviation SMV003 := (StateMachine (LeveledMap DB)).

Definition sm_v003_default : SMV003 :=
  {| sm_map := leveled_map_default; expire_cursor := expire_key_default; subscriber := None |}.

Definition mem_state_machine_default : StateMachine Level :=
  {| sm_map := level_default; expire_cursor := expire_key_default; subscriber := None |}.

(** [install_snapshot_v003]: a snapshot that is not newer is ignored. *)
Definition install_snapshot_v003 (db : DB) : M SMV003 unit :=
  s ← get_st;
  let my_last_applied := last_applied (lm_sys_data (sm_map s)) in
  if negb (is_none my_last_applied) && opt_log_id_leb (last_applied (db_sys_data db)) my_last_applied
  then mret tt
  else
    let levels := lm_clear (sm_map s) in
    let levels := lm_set_sys_data (db_sys_data db) levels in
    put_st (set_map (set_persisted (Some db) levels) s).

Definition get_snapshot (s : SMV003) : option DB := persisted (sm_map s).

(** [replace]: all the data, and the cursor. *)
Definition sm_replace (level : LeveledMap DB) : M SMV003 unit :=
  s ← get_st;
  if opt_log_id_leb (last_applied (lm_sys_data (sm_map s))) (last_applied (lm_sys_data level))
  then put_st {| sm_map := level; expire_cursor := expire_key_new 0 0; subscriber := subscriber s |}
  else lift Panic.

Definition set_event_sender (s : SMV003) : SMV003 :=
  {| sm_map := sm_map s; expire_cursor := expire_cursor s; subscriber := Some [] |}.

(** ** Export and import *)

Inductive StateMachineMetaKey := LastApplied | Initialized | LastMembership.
Inductive StateMachineMetaValue :=
| SMVLogId (l : LogId)
| SMVBool (b : bool)
| SMVMembership (m : StoredMembership).

Inductive SMEntry :=
| SMDataHeader
| SMNodes (key : N) (value : Node)
| SMStateMachineMeta (key : StateMachineMetaKey) (value : StateMachineMetaValue)
| SMExpire (key : ExpireKey) (value : ExpireValue)
| SMGenericKV (key : string) (value : SeqV bytes)
| SMSequences (key : string) (value : N).

(** [sys_data_sm_entries]; the nodes are those of a [BTreeMap]. *)
Definition sys_data_sm_entries (d : SysData) : list SMEntry :=
  [SMSequences "generic-kv" (curr_seq d)] ++
  (match last_applied d with
   | Some l => [SMStateMachineMeta LastApplied (SMVLogId l)]
   | None => []
   end) ++
  [SMStateMachineMeta LastMembership (SMVMembership (last_membership d))] ++
  ((λ x, SMNodes x.1 x.2) <$> btree_iter (nodes d)).

(** [export]: the system data, the expiration index, the key-values. *)
Definition export (db : DB) : Outcome (Stream SMEntry) :=
  strm ← ro_range (K := ExpireKey) (V := string) db bounds_full;
  let expire_strm := try_filter_map (λ x : ExpireKey * Marked string,
    SMExpire x.1 <$> expire_value_of_marked x.2) strm in
  strm ← ro_range (K := string) (V := bytes) db bounds_full;
  let kv_strm := try_filter_map (λ x : string * Marked bytes,
    SMGenericKV x.1 <$> seqv_of_marked x.2) strm in
  Ok ((Ok <$> sys_data_sm_entries (db_sys_data db)) ++ expire_strm ++ kv_strm).

(** [sm_entry_to_rotbl_kv]: an entry updates the system data or is an entry of
    the table; an old index entry has the sequence number 0. *)
Definition sm_entry_to_rotbl_kv (ent : SMEntry) : M SysData (option (string * SeqMarked)) :=
  match ent with
  | SMDataHeader => mret None
  | SMNodes key value => _ ← modify (λ d, set_nodes (<[key := value]> (nodes d)) d); mret None
  | SMStateMachineMeta LastApplied value =>
      match value with
      | SMVLogId l => _ ← modify (set_last_applied (Some l)); mret None
      | _ => lift Panic
      end
  | SMStateMachineMeta Initialized _ => mret None
  | SMStateMachineMeta LastMembership value =>
      match value with
      | SMVMembership m => _ ← modify (set_last_membership m); mret None
      | _ => lift Panic
      end
  | SMExpire key value =>
      let value := if ev_seq value =? 0 then {| ev_seq := 1; ev_key := ev_key value |} else value in
      kv ← lift (encode_key_seq_marked key (marked_of_expire_value value));
      mret (Some kv)
  | SMGenericKV key value =>
      kv ← lift (encode_key_seq_marked key (marked_of_seqv value));
      mret (Some kv)
  | SMSequences _ value => _ ← modify (update_seq value); mret None
  end.

(** The workers convert the entries in their order. *)
Fixpoint convert_entries (ents : list SMEntry) : M SysData (list (string * SeqMarked)) :=
  match ents with
  | [] => mret []
  | ent :: ents =>
      kv ← sm_entry_to_rotbl_kv ent;
      res ← convert_entries ents;
      mret (option_list kv ++ res)
  end.

(** [upgrade_snapshot_data_v002_to_v003_or_v004]: the entries of the index are
    written first, those of the key-values are kept until the end. *)
Definition import_entries (b : RotblBuilder) (ents : list SMEntry) : Outcome Rotbl :=
  let '(d, r) := convert_entries ents sys_data_default in
  lines ← r;
  let kv_cache := filter (λ x : string * SeqMarked, starts_with x.1 "kv--/" = true) lines in
  let others := filter (λ x : string * SeqMarked, starts_with x.1 "kv--/" = false) lines in
  write_kv_stream b (Ok <$> others ++ kv_cache) d.
End sm_v003.
