(* ===== verification/RestoreProofs.v ===== *)
(** Restoring a replica: what a snapshot leaves out is the expiration cursor,
    and when that does not matter. *)

From stdpp Require Import base orders sorting strings gmap numbers list relations.
From S2P Require Import Prelude BTree RustStr External ExpireKey MetaTypes Marked Stack MapApi Level StateMap.
From S2P Require Import LeveledMap LeveledMapProofs RotblLib Rotbl RotblProofs Compaction CompactionProofs.
From S2P Require Import Txn StateMachine Applier ApplierSpec StateMachineProofs ApplierProofs ApplyProofs.
From S2P Require Import SpecFacts Replica SMV003.
Local Open Scope N_scope.

(** ** A replica with an older cursor *)

Section lagging.
Context {raft : OpenRaft}.
Implicit Types st : Spec.

Record lagging st1 st2 : Prop := {
  lag_kv : sp_kv st1 = sp_kv st2;
  lag_sys : sp_sys st1 = sp_sys st2;
  lag_cursor : time_ms (sp_cursor st2) ≤ time_ms (sp_cursor st1);
  lag_inv1 : Inv st1;
  lag_inv2 : Inv st2;
}.

Lemma inv_equiv st1 st2 : st1 ≡ st2 → Inv st2 → Inv st1.
Proof. intros (Hk & Hs & Hc) []. split; by rewrite ?Hk, ?Hs, ?Hc. Qed.

Lemma lagging_equiv st1 st2 st1' st2' :
  st1' ≡ st1 → st2' ≡ st2 → lagging st1 st2 → lagging st1' st2'.
Proof.
  intros E1 E2 [Hk Hs Hc I1 I2]. pose proof (inv_equiv _ _ E1 I1). pose proof (inv_equiv _ _ E2 I2).
  destruct E1 as (K1 & S1 & C1), E2 as (K2 & S2 & C2). split; try done; congruence.
Qed.

(** A normal entry has a time, and it is not before the time [c]. *)
Definition timely (c : N) (e : RaftEntry) : Prop :=
  match entry_payload e with PayloadNormal _ => c ≤ get_log_time e ∧ get_log_time e ≠ 0 | _ => True end.

Lemma clean_cursor_eq t ctx st :
  Inv st → t < u64_mod → sequence (sp_sys st) + 1 < u64_mod → t ≠ 0 → time_ms (sp_cursor st) ≤ t →
  sp_cursor (sp_clean t ctx st) = expire_key_new t 0.
Proof.
  intros HI Ht Hs Hz Hle. unfold sp_clean. destruct (N.eqb_spec t 0); [done|].
  destruct (sp_delete_all ctx (sp_expired t st) st HI Hs (sp_expired_live t st HI Ht))
    as (_ & _ & _ & Hcur & _). rewrite Hcur. by destruct (N.ltb_spec t (time_ms (sp_cursor st))); [lia|].
Qed.

(** Cleaning at a later time makes the replicas equal. *)
Lemma clean_catches_up t ctx st1 st2 :
  lagging st1 st2 → t < u64_mod → sequence (sp_sys st1) + 1 < u64_mod → t ≠ 0 →
  time_ms (sp_cursor st1) ≤ t → sp_clean t ctx st1 ≡ sp_clean t ctx st2.
Proof.
  intros [Hkv Hsys Hc HI1 HI2] Ht Hs Hz Hle.
  assert (sequence (sp_sys st2) + 1 < u64_mod) as Hs2 by (rewrite <-Hsys; done).
  destruct (sp_clean_spec t ctx st1 HI1 Ht Hs) as (_ & K1 & S1 & _).
  destruct (sp_clean_spec t ctx st2 HI2 Ht Hs2) as (_ & K2 & S2 & _).
  split_and!; [congruence..|]. rewrite !clean_cursor_eq by (done || lia). done.
Qed.

Lemma lagging_apply e st1 st2 :
  entry_ok e → lagging st1 st2 → sequence (sp_sys st1) + 1 < u64_mod → timely (time_ms (sp_cursor st1)) e →
  (sp_apply e st1).2 = (sp_apply e st2).2 ∧
  ((sp_apply e st1).1 ≡ (sp_apply e st2).1 ∨
   lagging (sp_apply e st1).1 (sp_apply e st2).1 ∧
   sp_cursor (sp_apply e st1).1 = sp_cursor st1 ∧
   sequence (sp_sys (sp_apply e st1).1) = sequence (sp_sys st1)).
Proof.
  intros He Hlag Hs Ht. pose proof (log_time_bound e He) as Hb. rewrite !sp_apply_eq. cbn [fst snd].
  set (ctx := cmd_ctx_from_millis _). unfold timely in Ht.
  destruct (entry_payload e) as [|d|mem] eqn:Ep.
  2: { destruct Ht as [Ht Hz]. pose proof (clean_catches_up _ ctx _ _ Hlag Hb Hs Hz Ht) as Hc.
    assert (Proper ((≡) ==> prod_relation (≡@{Spec}) (=)) (sp_payload e ctx)) as Hp.
    { intros s1 s2 Hst. unfold sp_payload. rewrite Ep. by apply cmd_proper. }
    destruct (Hp _ _ (set_sys_proper _ _ (f_equal (set_last_applied (Some (entry_log_id e)))
      (proj1 (proj2 Hc))) _ _ Hc)) as [H1 H2].
    split; [exact H2|]. left. by rewrite !send_equiv. }
  all: unfold get_log_time, sp_payload; rewrite Ep; cbn [fst snd]; split; [done|]; right.
  all: unfold sp_clean; cbn [N.eqb].
  all: match goal with |- lagging (sp_send ?x) (sp_send ?y) ∧ _ =>
    assert (lagging x y) as Hxy by (destruct Hlag as [Hkv Hsys Hc [] []]; split; cbn; try done; try (by rewrite Hsys); by split);
    split; [exact (lagging_equiv _ _ _ _ (send_equiv x) (send_equiv y) Hxy)|];
    destruct (send_equiv x) as (_ & -> & ->); done end.
Qed.

Lemma lagging_apply_all es st1 st2 :
  Forall entry_ok es → lagging st1 st2 → sequence (sp_sys st1) + 1 < u64_mod →
  Forall (timely (time_ms (sp_cursor st1))) es →
  (sp_apply_all es st1).2 = (sp_apply_all es st2).2 ∧
  sp_kv (sp_apply_all es st1).1 = sp_kv (sp_apply_all es st2).1 ∧
  sp_sys (sp_apply_all es st1).1 = sp_sys (sp_apply_all es st2).1.
Proof.
  intros Hes. revert st1 st2. induction Hes as [|e es He Hes IH]; intros st1 st2 Hlag Hs Ht.
  { by destruct Hlag. }
  apply Forall_cons in Ht as [Hte Ht]. cbn [sp_apply_all].
  destruct (lagging_apply e st1 st2 He Hlag Hs Hte) as [Hr Hst].
  destruct (sp_apply e st1) as [s1 r1], (sp_apply e st2) as [s2 r2]. cbn [fst snd] in *. subst r2.
  destruct Hst as [Heq|(Hlag' & Hc & Hseq)].
  - destruct (apply_all_proper es s1 s2 Heq) as [(Hk & Hy & _) H2].
    destruct (sp_apply_all es s1), (sp_apply_all es s2). cbn in *. by rewrite Hk, Hy, H2.
  - destruct (IH s1 s2 Hlag') as (H1 & H2 & H3); [by rewrite Hseq|by rewrite Hc|].
    destruct (sp_apply_all es s1), (sp_apply_all es s2). cbn in *. by rewrite H1, H2, H3.
Qed.
(** An entry that puts a value expiring at [x] seconds. *)
Definition put_entry (i : LogId) (t : N) (k : string) (v : bytes) (x : N) : RaftEntry := {|
  entry_log_id := i;
  entry_payload := PayloadNormal {| log_txid := None; log_time_ms := Some t;
    log_cmd := CmdUpsertKV (with_meta_spec (upsert_update k v)
      {| spec_expire_at := Some x; spec_ttl := None |}) |} |}.

Lemma clean_cursor_max t ctx st :
  Inv st → t < u64_mod → sequence (sp_sys st) + 1 < u64_mod →
  time_ms (sp_cursor (sp_clean t ctx st)) = t `max` time_ms (sp_cursor st).
Proof.
  intros HI Ht Hs. unfold sp_clean. destruct (N.eqb_spec t 0) as [->|Hz]; [lia|].
  destruct (sp_delete_all ctx (sp_expired t st) st HI Hs (sp_expired_live t st HI Ht)) as (_ & _ & _ & Hcur & _).
  rewrite Hcur. destruct (N.ltb_spec t (time_ms (sp_cursor st))); [rewrite Hcur; lia|].
  cbn [sp_set_cursor sp_cursor]. rewrite time_ms_new by done. lia.
Qed.

(** The value is stored unless it expires before the cursor. *)
Lemma put_entry_reply i t k v x st :
  Inv st → t < u64_mod → sequence (sp_sys st) + 1 < u64_mod → sp_kv st !! k = None → x * 1000 < u64_mod →
  (sp_apply (put_entry i t k v x) st).2 = ASKV (change_new None
    (if x * 1000 <? t `max` time_ms (sp_cursor st) then None
     else Some (mk_SeqV (sequence (sp_sys st) + 1) (Some {| expire_at := Some x |}) v))).
Proof.
  intros HI Ht Hs Hk Hx. rewrite sp_apply_eq. cbn zeta. cbn [snd].
  set (ctx := cmd_ctx_from_millis _). change (get_log_time (put_entry i t k v x)) with t.
  destruct (sp_clean_spec t ctx st HI Ht Hs) as (_ & Hkv & Hsys & _).
  rewrite <-(clean_cursor_max t ctx st HI Ht Hs). set (st1 := sp_clean t ctx st) in *.
  assert (sp_kv st1 !! k = None) as Hk1 by (rewrite Hkv; by apply map_lookup_filter_None_2; left).
  unfold sp_payload. cbn -[wrap64]. unfold sp_upsert, sp_primary, sp_write. cbn -[wrap64].
  rewrite Hk1, Hsys, wrap64_small by done. by destruct (x * 1000 <? _).
Qed.
End lagging.

(** ** Installing a snapshot *)

Section restore.
Context {raft : OpenRaft} {sm : StreamMore} `{!StreamMoreLaws sm}.
Context {rb : RotblLib} `{!RotblLaws rb} {sl : SerdeLib raft} `{!SerdeLaws sl, !SerdeTotal sl}.

(** The map with one table and nothing else. *)
Definition only_table (c : option nat) (db : DB) : LeveledMap DB := {|
  current_compactor := c; writable := set_sys_data (db_sys_data db) level_default;
  immutable_levels := {| levels := [] |}; persisted := Some db |}.

Section one_space.
Context `{OrdKey K, !MapKey K, !MapKeyLaws K} {V : Type} `{!MapValue K V, !MapValueLaws K V} `{!LevelMap K V}.

Lemma only_table_ok (m : LeveledMap DB) c db :
  ro_view (K := K) (V := V) (set_sys_data (db_sys_data db) level_default) = ∅ →
  lm_ok (K := K) (V := V) m → db_ok (K := K) (V := V) db → db_sys_data db = lm_sys_data m →
  db_view (K := K) (V := V) db = normal_only (lm_view m) →
  lm_ok (K := K) (V := V) (only_table c db) ∧ lm_view (only_table c db) = normal_only (lm_view m).
Proof.
  intros He Hm Hdb Hsys Hview.
  assert (lm_maps (only_table c db) = [∅; normal_only (lm_view m)]) as Hmaps.
  { unfold lm_maps, older_maps, only_table. cbn. rewrite <-Hview. f_equal. exact He. }
  split; [split|].
  - apply Forall_singleton. done.
  - rewrite Hmaps. constructor; [repeat constructor|]. apply Forall_singleton.
    intros k a b Ha. by rewrite lookup_empty in Ha.
  - rewrite Hmaps. constructor; [|apply Forall_singleton].
    + intros k a Ha. by rewrite lookup_empty in Ha.
    + intros k a Ha. unfold normal_only in Ha. apply map_lookup_filter_Some in Ha as [Ha _].
      cbn. rewrite Hsys. by apply (lm_view_written m Hm k a).
  - unfold lm_view. rewrite Hmaps, !stack_cons, stack_nil, (right_id_L ∅ (∪)), (left_id_L ∅ (∪)). done.
Qed.
End one_space.

Lemma install_snapshot_spec (leader s : StateMachine (LeveledMap DB)) uniq chan m1 c b path id db :
  sm_ok leader → utf8_values (sm_map leader) → snapshot_begin uniq chan (sm_map leader) = (m1, c) →
  builder_content b [] → snapshot_write c b path id = Ok db →
  last_applied (map_sys (sm_map s)) = None ∨
    opt_log_id_leb (last_applied (map_sys (sm_map leader))) (last_applied (map_sys (sm_map s))) = false →
  ek_seq (expire_cursor s) = 0 → time_ms (expire_cursor s) ≤ time_ms (expire_cursor leader) →
  ∃ s', install_snapshot_v003 db s = (s', Ok tt) ∧ sm_ok s' ∧
    sp_kv (abs s') = sp_kv (abs leader) ∧ sp_sys (abs s') = sp_sys (abs leader) ∧
    expire_cursor s' = expire_cursor s.
Proof.
  intros [Hwf HI Hidx Hkeys] Hutf Hb Hbuild Hw Hla Hcs Hct.
  destruct (snapshot_begin_spec _ _ _ _ _ Hwf Hb) as (_ & _ & Hn & _ & _ & _ & Sk & Se & Ce & Ck).
  destruct (snapshot_write_spec _ _ _ _ _ _ Hn (Ce Hutf) Ck Hbuild Hw) as (Oe & Od & Ve & Vk & Hsd).
  rewrite Sk in Vk. rewrite Se in Ve. cbn in Hsd. destruct Hwf as [Wk We].
  destruct (only_table_ok (K := string) (V := bytes) (LevelMap0 := level_map_kv) (sm_map leader) (current_compactor (sm_map s)) db eq_refl Wk Od Hsd Vk) as [Wk' Lk].
  destruct (only_table_ok (K := ExpireKey) (V := string) (LevelMap0 := level_map_expire) (sm_map leader) (current_compactor (sm_map s)) db eq_refl We Oe Hsd Ve) as [We' Le].
  set (m' := only_table (current_compactor (sm_map s)) db) in *.
  assert (kvv m' = kvv (sm_map leader)) as Hkv.
  { unfold kvv. change (live (lm_view (K := string) (V := bytes) m') = live (lm_view (sm_map leader))).
    rewrite Lk. apply live_normal_only. }
  assert (expv m' = expv (sm_map leader)) as Hexp.
  { unfold expv. change (exp_raw m') with (lm_view (K := ExpireKey) (V := string) m'). rewrite Le.
    apply map_eq. intros k. unfold normal_only. rewrite !lookup_omap, map_lookup_filter.
    change (exp_raw (sm_map leader)) with (lm_view (K := ExpireKey) (V := string) (sm_map leader)).
    by destruct (lm_view (K := ExpireKey) (V := string) (sm_map leader) !! k) as [[]|]. }
  exists (set_map m' s). split_and!; [|split|exact Hkv|exact Hsd|done].
  - unfold install_snapshot_v003. m_unfold.
    assert (negb (is_none (last_applied (lm_sys_data (sm_map s)))) &&
      opt_log_id_leb (last_applied (db_sys_data db)) (last_applied (lm_sys_data (sm_map s))) = false) as ->; [|done].
    rewrite Hsd. apply andb_false_iff. cbn in Hla. destruct Hla as [->|Hla]; [by left|by right].
  - done.
  - destruct HI as [Hi1 Hi2 Hi3 Hi4]. split; cbn [abs sp_kv sp_sys sp_cursor sm_map set_map expire_cursor] in *.
    + rewrite Hkv. cbn. rewrite Hsd. exact Hi1.
    + cbn. rewrite Hsd. exact Hi2.
    + rewrite Hkv. intros k v Hk. specialize (Hi3 k v Hk). lia.
    + done.
  - cbn [sm_map set_map]. by rewrite Hkv, Hexp.
  - cbn [sm_map set_map]. intros ek [x Hx]. change (exp_raw m') with (lm_view (K := ExpireKey) (V := string) m') in Hx.
    rewrite Le in Hx. apply map_lookup_filter_Some in Hx as [Hx _]. cbn. rewrite Hsd.
    apply (Hkeys ek). by exists x.
Qed.
End restore.
