(* ===== verification/ExportProofs.v ===== *)
(** Exporting a snapshot and importing it again: the entries are those of the
    table, and importing them builds a table with the same content. *)

From stdpp Require Import base orders sorting strings gmap numbers list relations.
From S2P Require Import Prelude BTree RustStr External ExpireKey MetaTypes Marked Stack MapApi Level StateMap.
From S2P Require Import LeveledMap LeveledMapProofs RotblLib Rotbl RotblProofs Compaction CompactionProofs.
From S2P Require Import StateMachine StateMachineProofs SMV003.
Local Open Scope N_scope.

Section export.
Context {raft : OpenRaft} {sm : StreamMore} {rb : RotblLib} `{!RotblLaws rb}.
Context {sl : SerdeLib raft} `{!SerdeLaws sl, !SerdeTotal sl}.
Implicit Types (d : SysData) (db : DB).

(** A table without tombstones, whose index entries are written by the state
    machine: they have no meta, a sequence number and a key in UTF-8. *)
Record exportable db : Prop := {
  ex_exp_ok : db_ok (K := ExpireKey) (V := string) db;
  ex_kv_ok : db_ok (K := string) (V := bytes) db;
  ex_exp : ∀ ek a, db_view (K := ExpireKey) (V := string) db !! ek = Some a →
    ∃ s k, a = Normal s k None ∧ s ≠ 0 ∧ is_utf8 k = true;
  ex_kv : ∀ k a, db_view (K := string) (V := bytes) db !! k = Some a → is_normal a = true;
}.

Definition expire_entries db : list SMEntry :=
  omap (λ x : ExpireKey * Marked string, SMExpire x.1 <$> expire_value_of_marked x.2)
    (btree_iter (db_view (K := ExpireKey) (V := string) db)).
Definition kv_entries db : list SMEntry :=
  omap (λ x : string * Marked bytes, SMGenericKV x.1 <$> seqv_of_marked x.2)
    (btree_iter (db_view (K := string) (V := bytes) db)).

Lemma export_spec db :
  exportable db →
  export db = Ok (Ok <$> sys_data_sm_entries (db_sys_data db) ++ expire_entries db ++ kv_entries db).
Proof.
  intros [He Hk _ _]. unfold export, ro_range. cbn [db_ro].
  rewrite db_range_spec, range_list_full by (done || by intros []). cbn [mbind Outcome_bind].
  rewrite db_range_spec, range_list_full by (done || by intros []). cbn [mbind Outcome_bind].
  by rewrite !try_filter_map_Ok, !fmap_app.
Qed.

(** ** Converting the entries *)

Lemma convert_app l1 l2 d d1 d2 r1 r2 :
  convert_entries l1 d = (d1, Ok r1) → convert_entries l2 d1 = (d2, Ok r2) →
  convert_entries (l1 ++ l2) d = (d2, Ok (r1 ++ r2)).
Proof.
  revert d r1. induction l1 as [|e l1 IH]; intros d r1 H1 H2.
  { cbv in H1. by simplify_eq. }
  cbn [app convert_entries] in *. unfold mbind, M_bind in *.
  destruct (sm_entry_to_rotbl_kv e d) as [d' [kv| |]]; [|done..].
  destruct (convert_entries l1 d') as [d'' [res| |]] eqn:E; [|done..].
  cbv [mret M_ret] in H1. simplify_eq. rewrite (IH d' res E H2). cbv [mret M_ret]. by rewrite app_assoc.
Qed.

Lemma convert_nodes (l : list (N * Node)) d :
  convert_entries ((λ x, SMNodes x.1 x.2) <$> l) d =
    (set_nodes (foldl (λ m x, <[x.1 := x.2]> m) (nodes d) l) d, Ok []).
Proof.
  revert d. induction l as [|[id n] l IH]; intros d; [by destruct d|].
  rewrite fmap_cons. cbn [convert_entries sm_entry_to_rotbl_kv foldl]. m_unfold. cbn [fst snd]. by rewrite IH.
Qed.

(** The system data is rebuilt. *)
Lemma convert_sys_data d :
  convert_entries (sys_data_sm_entries d) sys_data_default = (d, Ok []).
Proof.
  unfold sys_data_sm_entries. rewrite <-(app_nil_l (A := string * SeqMarked) []).
  eapply convert_app; [reflexivity|]. rewrite <-(app_nil_l (A := string * SeqMarked) []).
  eapply (convert_app _ _ _ (set_last_applied (last_applied d) (update_seq (curr_seq d) sys_data_default))).
  { by destruct (last_applied d). }
  rewrite <-(app_nil_l (A := string * SeqMarked) []). eapply convert_app; [reflexivity|].
  rewrite convert_nodes. cbn [nodes set_last_membership set_last_applied update_seq sys_data_default].
  fold (btree_collect (btree_iter (nodes d))). rewrite btree_collect_iter. by destruct d.
Qed.

(** Entries that are only encoded. *)
Lemma convert_omap {A} (f : A → option SMEntry) (enc : A → Outcome (string * SeqMarked)) l lines d :
  (∀ x, x ∈ l → ∃ e, f x = Some e ∧ ∀ d, sm_entry_to_rotbl_kv e d = (d, kv ← enc x; Ok (Some kv))) →
  enc <$> l = Ok <$> lines → convert_entries (omap f l) d = (d, Ok lines).
Proof.
  revert lines. induction l as [|x l IH]; intros [|y lines] Hf Hl; try done.
  rewrite !fmap_cons in Hl. injection Hl as Hx Hl.
  destruct (Hf x) as (e & He & Hc); [left|]. cbn [omap list_omap]. rewrite He.
  cbn [convert_entries]. unfold mbind at 1, M_bind at 1. rewrite Hc, Hx. cbn [mbind Outcome_bind].
  unfold mbind, M_bind. rewrite (IH lines); [done| |done]. intros z Hz. apply Hf. by right.
Qed.

Lemma lift_encode (o : Outcome (string * SeqMarked)) d :
  (kv ← lift o; mret (Some kv)) d = (d, kv ← o; Ok (Some kv)).
Proof. by destruct o. Qed.

Lemma convert_expire db lines d :
  exportable db →
  (encode_item (V := string) <$> (Ok <$> btree_iter (db_view (K := ExpireKey) db))) = Ok <$> lines →
  convert_entries (expire_entries db) d = (d, Ok lines).
Proof.
  intros Hex Hl. rewrite <-list_fmap_compose in Hl. eapply convert_omap; [|exact Hl].
  intros [ek a] (s & k & -> & Hs & _)%elem_of_btree_iter%ex_exp; [|done]. eexists. split; [done|].
  intros d'. cbn [sm_entry_to_rotbl_kv ev_seq]. destruct (N.eqb_spec s 0); [done|].
  apply (lift_encode (encode_key_seq_marked ek (Normal s k None))).
Qed.

Lemma convert_kv db lines d :
  exportable db →
  (encode_item (V := bytes) <$> (Ok <$> btree_iter (db_view (K := string) db))) = Ok <$> lines →
  convert_entries (kv_entries db) d = (d, Ok lines).
Proof.
  intros Hex Hl. rewrite <-list_fmap_compose in Hl. eapply convert_omap; [|exact Hl].
  intros [k a] Hn%elem_of_btree_iter%ex_kv; [|done]. destruct a as [|s v mt]; [done|]. eexists. split; [done|].
  intros d'. apply (lift_encode (encode_key_seq_marked k (Normal s v mt))).
Qed.

(** ** Importing *)

Lemma filter_same {A} (p : A → bool) (b : bool) (l : list A) :
  (∀ x, x ∈ l → p x = b) → filter (λ x, p x = b) l = l ∧ filter (λ x, p x = negb b) l = [].
Proof.
  induction l as [|x l IH]; intros Hl; [done|].
  assert (p x = b) as Hx by (apply Hl; left). destruct IH as [H1 H2]; [intros y Hy; apply Hl; by right|].
  rewrite filter_cons_True, H1, filter_cons_False, H2 by (done || by destruct (p x), b). done.
Qed.

(** The prefixes tell the two key spaces apart. *)
Lemma import_partition (l1 l2 : list (string * SeqMarked)) :
  (∀ x, x ∈ l1 → in_space (K := ExpireKey) x.1) → (∀ x, x ∈ l2 → in_space (K := string) x.1) →
  filter (λ x, starts_with x.1 "kv--/" = false) (l1 ++ l2) ++
    filter (λ x, starts_with x.1 "kv--/" = true) (l1 ++ l2) = l1 ++ l2.
Proof.
  intros H1 H2. rewrite !filter_app.
  destruct (filter_same (λ x, starts_with x.1 "kv--/") false l1) as [F1 F2]; [by intros x [y ->]%H1|].
  destruct (filter_same (λ x, starts_with x.1 "kv--/") true l2) as [F3 F4].
  { intros x [y ->]%H2. apply starts_with_iff. by exists y. }
  cbn [negb] in *. by rewrite F1, F2, F3, F4, app_nil_r.
Qed.

(** A table that encodes a map holds that map. *)
Lemma encodes_space `{OrdKey K, !MapKey K, !MapKeyLaws K} {V} `{!MapValue K V, !MapValueLaws K V}
    (g : gmap K (Marked V)) E :
  (∀ m : Marked V, ∃ x, val_encode (K := K) m = Ok x) →
  (∀ k m v, g !! k = Some m → marked_value m = Some v → val_ok (K := K) v) → encodes g E →
  space_ok (K := K) (V := V) E ∧ space_map (K := K) E = g.
Proof.
  intros Htotal Hval He. assert (space_ok (K := K) (V := V) E) as Hok.
  { intros s x Hx Hin. destruct (proj2 He s x Hx Hin) as [k ->].
    destruct (encodes_decode g E k x Hval He Hx) as (m & _ & ?). eauto. }
  split; [done|]. apply map_eq. intros k. apply option_eq. intros m. rewrite space_map_lookup by done. split.
  - intros (x & Hx & Hd). destruct (encodes_decode g E k x Hval He Hx) as (m' & ? & ?). congruence.
  - intros Hm. destruct (Htotal m) as [x Hx]. exists x. split; [apply (proj1 He); eauto|].
    apply val_roundtrip; [by eauto|done].
Qed.

Lemma import_spec db b r :
  exportable db → builder_content b [] →
  import_entries b (sys_data_sm_entries (db_sys_data db) ++ expire_entries db ++ kv_entries db) = Ok r →
  ∃ E, rotbl_ok r ∧ rotbl_content r = E ∧ sys_data_of_json (rotbl_user_data r) = Some (db_sys_data db) ∧
    encodes (db_view (K := ExpireKey) (V := string) db) E ∧ encodes (db_view (K := string) (V := bytes) db) E.
Proof.
  intros Hex Hb. unfold import_entries.
  destruct (expire_kv_table (db_view (K := ExpireKey) db) (db_view (K := string) db)) as (E & Hl & He & Hk & _).
  destruct (encode_stream expire_val_total (db_view (K := ExpireKey) db)) as (l1 & E1 & _ & M1).
  destruct (encode_stream kv_val_total (db_view (K := string) db)) as (l2 & E2 & _ & M2).
  rewrite E1, E2, <-fmap_app in Hl. unfold level_stream in Hl. rewrite range_list_full in Hl.
  apply list_fmap_eq_inj in Hl; [|by intros ? ? [= ->]].
  rewrite (convert_app _ _ _ _ _ _ _ (convert_sys_data (db_sys_data db))
    (convert_app _ _ _ _ _ _ _ (convert_expire db l1 _ Hex E1) (convert_kv db l2 _ Hex E2))).
  cbn [mbind Outcome_bind]. rewrite app_nil_l, import_partition, Hl.
  - intros Hw. exists E. destruct (write_spec b E _ r Hb Hw) as (? & ? & ?). done.
  - intros [s x] (k & m & -> & _)%M1. apply encode_key_in_space.
  - intros [s x] (k & m & -> & _)%M2. apply encode_key_in_space.
Qed.
End export.
