(* ===== verification/MemMetaProofs.v ===== *)
(** The in-memory meta-service (raft-store/src/mem_meta.rs) and the abstract
    state machine: what its reads and its writes answer. *)

From stdpp Require Import base orders sorting strings gmap numbers list relations.
From S2P Require Import Prelude BTree RustStr External ExpireKey MetaTypes Marked MapApi Level StateMap.
From S2P Require Import Txn StateMachine Applier ApplierSpec StateMachineProofs ApplierProofs ApplyProofs.
From S2P Require Import SpecFacts Replica SMV003.
Local Open Scope N_scope.

Lemma omap_keep {A B} (p : A → bool) (g : A → B) (l : list A) :
  omap (λ x, if p x then None else Some (g x)) l = g <$> filter (λ x, p x = false) l.
Proof.
  induction l as [|x l IH]; [done|]. rewrite filter_cons. cbn [omap list_omap].
  rewrite IH. by destruct (p x).
Qed.

(** Filtering the values first or last. *)
Lemma list_filter_values (kv : gmap string (SeqV bytes)) prefix (p : SeqV bytes → bool) :
  filter (λ x, p x.2 = false) (sp_list kv prefix) = sp_list (filter (λ x, p x.2 = false) kv) prefix.
Proof.
  apply (sorted_kv_ext key_le); [repeat apply sorted_kv_filter; apply btree_iter_sorted..|].
  intros [k v]. unfold sp_list. rewrite !list_elem_of_filter, !elem_of_btree_iter, map_lookup_filter_Some.
  cbn. naive_solver.
Qed.

(** A value that is not expired. *)
Lemma non_expired_lookup (kv : gmap string (SeqV bytes)) k now :
  non_expired (kv !! k) now = filter (λ x, seqv_is_expired x.2 now = false) kv !! k.
Proof.
  unfold non_expired. rewrite map_lookup_filter. destruct (kv !! k) as [v|]; cbn.
  - unfold opt_is_expired, seqv_is_expired. cbn. by destruct (_ <? now).
  - by destruct (opt_is_expired None now).
Qed.

Section mem_meta.
Context {raft : OpenRaft} {Mp : Type} `{!StateMap raft Mp, !StateMapLaws Mp}.
Implicit Types s : StateMachine Mp.

(** ** Reads *)

Lemma get_kv_stream_spec now s keys :
  sm_ok s → get_kv_stream now s keys =
    Ok ((λ k, Ok (stream_item (k, non_expired (kvv (sm_map s) !! k) now))) <$> keys).
Proof.
  intros Hok. induction keys as [|k keys IH]; [done|]. cbn [get_kv_stream]. rewrite get_ok by done.
  cbn [mbind Outcome_bind]. by rewrite IH.
Qed.

Lemma api_list_kv_spec now s prefix :
  sm_ok s → api_list_kv now s prefix =
    Ok ((λ x : string * SeqV bytes, Ok (stream_item (x.1, Some x.2))) <$>
        sp_list (filter (λ x, seqv_is_expired x.2 now = false) (kvv (sm_map s))) prefix).
Proof.
  intros Hok. unfold api_list_kv. rewrite list_kv_spec by apply Hok. cbn [mbind Outcome_bind].
  rewrite try_filter_map_Ok, omap_keep, <-list_fmap_compose. f_equal.
  rewrite (list_filter_values _ _ (λ v, seqv_is_expired v now)). done.
Qed.

(** ** Writes *)

(** A request of the in-memory meta-service is a step of the applier after the
    expired keys are cleaned. *)
Lemma mem_request {A B} now n (c : M (Applier Mp) A) (f : Spec → Spec * A) (k : A → M (Applier Mp) B) g s :
  let ctx := cmd_ctx_from_millis now in
  simulates ctx n c f → (∀ x a, k x a = (a, Ok (g x))) →
  sm_ok s → now < u64_mod → sequence (map_sys (sm_map s)) + n + 1 < u64_mod →
  ∃ s', with_applier (_ ← init_applier now; x ← c; k x) s =
      (s', Ok (g (f (sp_clean now ctx (abs s))).2)) ∧
    sm_ok s' ∧ abs s' ≡ (f (sp_clean now ctx (abs s))).1 ∧
    sequence (map_sys (sm_map s')) ≤ sequence (map_sys (sm_map s)) + n.
Proof.
  intros ctx Hc Hk Hok Hnow Hroom.
  assert (Rep (set_cmd_ctx ctx (applier_new s)) (abs s)) as HR by by destruct (ok_rep s Hok).
  destruct (clean_sim ctx now Hnow _ _ HR (ok_inv s Hok) eq_refl) as (a1 & E1 & HR1 & HI1 & Hc1 & Hs1).
  { cbn. change (sequence (map_sys (sm_map s)) + 0 + 1 < u64_mod). lia. }
  cbn [fst snd] in *. change (sp_sys (abs s)) with (map_sys (sm_map s)) in Hs1.
  destruct (Hc a1 _ HR1 HI1 Hc1) as (a2 & E2 & HR2 & HI2 & _ & Hs2); [lia|].
  destruct (rep_ok _ _ HR2 HI2) as (Hok2 & Habs & _). exists (ap_sm a2). split_and!; [|done|done|].
  2: { pose proof Habs as (_ & Hsys & _). change (sequence (sp_sys (abs (ap_sm a2))) ≤ sequence (map_sys (sm_map s)) + n).
       rewrite Hsys. lia. }
  unfold with_applier, init_applier. unfold mbind at 1 2 3, M_bind at 1 2 3, modify. fold ctx.
  by rewrite E1, E2, Hk.
Qed.

Lemma mem_upsert_spec now u s :
  sm_ok s → now < u64_mod → sequence (map_sys (sm_map s)) + cmd_cost (CmdUpsertKV u) + 1 < u64_mod →
  let ctx := cmd_ctx_from_millis now in
  let st := sp_clean now ctx (abs s) in
  ∃ s', mem_upsert_kv now u s =
      (s', Ok (change_new (sp_upsert u ctx st).2.1 (sp_upsert u ctx st).2.2)) ∧
    sm_ok s' ∧ abs s' ≡ (sp_upsert u ctx st).1 ∧
    sequence (map_sys (sm_map s')) ≤ sequence (map_sys (sm_map s)) + cmd_cost (CmdUpsertKV u).
Proof.
  intros Hok Hnow Hroom ctx st.
  apply (mem_request now _ (upsert_kv u) (sp_upsert u ctx) (λ '(p, r), mret (change_new (ID := N) p r))
    (λ pr, change_new (ID := N) pr.1 pr.2) s (sim_upsert ctx u)); [by intros []|done..].
Qed.

Lemma mem_transaction_spec now t s :
  sm_ok s → now < u64_mod → sequence (map_sys (sm_map s)) + txn_cost t + 1 < u64_mod →
  let ctx := cmd_ctx_from_millis now in
  let st := sp_clean now ctx (abs s) in
  ∃ s', mem_transaction now t s = (s', Ok (sp_txn t ctx st).2) ∧
    sm_ok s' ∧ abs s' ≡ (sp_txn t ctx st).1 ∧
    sequence (map_sys (sm_map s')) ≤ sequence (map_sys (sm_map s)) + txn_cost t.
Proof.
  intros Hok Hnow Hroom ctx st.
  destruct (mem_request now (txn_cost t) (r ← apply_txn t; match r with ASTxnReply x => mret x | _ => lift Panic end)
    (sp_txn t ctx) mret id s) as (s' & E & Hok' & Habs); [|done..|].
  { intros a st' HR HI Hc Hs. destruct (txn_sim ctx t a st' HR HI Hc Hs) as (a' & E & ? & ? & ? & ?).
    exists a'. unfold mbind, M_bind. by rewrite E. }
  exists s'. split; [|done]. etrans; [|exact E]. unfold mem_transaction, with_applier, mbind, M_bind.
  destruct (init_applier now (applier_new s)) as [a [[]|e|]]; [|done..].
  by destruct (apply_txn t a) as [? [[]| |]].
Qed.
End mem_meta.
