(* ===== verification/SMV003Theorems.v ===== *)
(** What a node's state machine promises: a replica restored from a snapshot
    follows the log like the others, reads return no expired value, and the
    in-memory meta-service behaves like the replicated one. *)

From stdpp Require Import base orders sorting strings gmap numbers list relations.
From S2P Require Import Prelude BTree RustStr External ExpireKey MetaTypes Marked Stack MapApi Level StateMap.
From S2P Require Import LeveledMap LeveledMapProofs RotblLib Rotbl RotblProofs Compaction CompactionProofs.
From S2P Require Import Txn StateMachine Applier ApplierSpec StateMachineProofs ApplierProofs ApplyProofs.
From S2P Require Import SpecFacts Replica ApplierTheorems SMV003 RestoreProofs ExportProofs MemMetaProofs.
Local Open Scope N_scope.

Section restored.
Context {raft : OpenRaft} {sm : StreamMore} `{!StreamMoreLaws sm}.
Context {rb : RotblLib} `{!RotblLaws rb} {sl : SerdeLib raft} `{!SerdeLaws sl, !SerdeTotal sl}.

(** C4: A replica restored from a snapshot agrees with the one that wrote it.  A
    node whose data is older installs the snapshot of another node, the leader;
    then both apply the same log entries.  The expiration cursor of the node, which
    the snapshot does not change, is not ahead of the cursor of the leader and has the
    sequence number 0, as every cursor that the code sets; the entries are not older
    than the cursor of the leader.  Then the replies are the same, and so are the
    key-values, the system data and the invariant afterwards.  A node that has just
    started has the cursor 0. *)
Theorem restored_replica_agrees (leader s : StateMachine (LeveledMap DB)) uniq chan m1 c b path id db es :
  sm_ok leader → utf8_values (sm_map leader) → snapshot_begin uniq chan (sm_map leader) = (m1, c) →
  builder_content b [] → snapshot_write c b path id = Ok db →
  last_applied (map_sys (sm_map s)) = None ∨
    opt_log_id_leb (last_applied (map_sys (sm_map leader))) (last_applied (map_sys (sm_map s))) = false →
  ek_seq (expire_cursor s) = 0 → time_ms (expire_cursor s) ≤ time_ms (expire_cursor leader) →
  Forall entry_ok es → Forall (timely (time_ms (expire_cursor leader))) es →
  sequence (map_sys (sm_map leader)) + entries_cost es + 1 < u64_mod →
  ∃ s' l' f' rs, install_snapshot_v003 db s = (s', Ok tt) ∧
    apply_entries es leader = (l', Ok rs) ∧ apply_entries es s' = (f', Ok rs) ∧
    sm_ok l' ∧ sm_ok f' ∧ kvv (sm_map l') = kvv (sm_map f') ∧ map_sys (sm_map l') = map_sys (sm_map f').
Proof.
  intros Hok Hutf Hb Hbuild Hw Hla Hcs Hct Hes Ht Hroom.
  destruct (install_snapshot_spec leader s _ _ _ _ _ _ _ _ Hok Hutf Hb Hbuild Hw Hla Hcs Hct)
    as (s' & E & Hok' & Hkv & Hsys & Hcur).
  assert (lagging (abs leader) (abs s')) as Hlag.
  { split; [done|done|cbn; by rewrite Hcur|apply Hok|apply Hok']. }
  destruct (lagging_apply_all es _ _ Hes Hlag) as (Hr & Hk & Hs).
  { change (sequence (map_sys (sm_map leader)) + 1 < u64_mod). lia. }
  { done. }
  destruct (apply_entries_spec es leader Hok Hes Hroom) as (l' & El & Hokl & (Kl & Sl & _) & _).
  destruct (apply_entries_spec es s' Hok' Hes) as (f' & Ef & Hokf & (Kf & Sf & _) & _).
  { change (map_sys (sm_map s') = map_sys (sm_map leader)) in Hsys. by rewrite Hsys. }
  exists s', l', f', (sp_apply_all es (abs leader)).2.
  split_and!; [done|done|by rewrite Ef, Hr|done|done|..].
  - etrans; [exact Kl|]. etrans; [exact Hk|]. symmetry. exact Kf.
  - etrans; [exact Sl|]. etrans; [exact Hs|]. symmetry. exact Sf.
Qed.
(** C38: The expiration cursor is not part of a snapshot, and that can be observed.
    The leader has seen the time of its cursor, the restored node has not; an
    entry with an earlier time puts a key that expires between the two cursors.
    The leader answers that the value is gone at once, the restored node keeps
    it. *)
Theorem restored_replica_diverges (leader s : StateMachine (LeveledMap DB)) uniq chan m1 c b path id db
    i t k v x :
  sm_ok leader → utf8_values (sm_map leader) → snapshot_begin uniq chan (sm_map leader) = (m1, c) →
  builder_content b [] → snapshot_write c b path id = Ok db →
  last_applied (map_sys (sm_map s)) = None ∨
    opt_log_id_leb (last_applied (map_sys (sm_map leader))) (last_applied (map_sys (sm_map s))) = false →
  ek_seq (expire_cursor s) = 0 → sequence (map_sys (sm_map leader)) + 2 < u64_mod →
  kvv (sm_map leader) !! k = None →
  t ≤ x * 1000 → time_ms (expire_cursor s) ≤ x * 1000 → x * 1000 < time_ms (expire_cursor leader) →
  let e := put_entry i t k v x in
  ∃ s' l' f' r, install_snapshot_v003 db s = (s', Ok tt) ∧
    apply_entries [e] leader = (l', Ok [ASKV (change_new None None)]) ∧
    apply_entries [e] s' = (f', Ok [ASKV (change_new None (Some r))]).
Proof.
  intros Hok Hutf Hb Hbuild Hw Hla Hcs Hroom Hk Ht Hcx Hx e.
  destruct (ek_bounds (expire_cursor leader)) as [Hu64 _].
  destruct (install_snapshot_spec leader s _ _ _ _ _ _ _ _ Hok Hutf Hb Hbuild Hw Hla Hcs)
    as (s' & E & Hok' & Hkv & Hsys & Hcur); [lia|].
  assert (Forall entry_ok [e]) as Hes by (apply Forall_singleton; split; [done|cbn; lia]).
  assert (entries_cost [e] = 1) as Hcost by done.
  assert (∀ st, sp_kv st = sp_kv (abs leader) → sp_sys st = sp_sys (abs leader) → Inv st →
    (sp_apply_all [e] st).2 = [ASKV (change_new None
      (if x * 1000 <? t `max` time_ms (sp_cursor st) then None
       else Some (mk_SeqV (sequence (sp_sys st) + 1) (Some {| expire_at := Some x |}) v)))]) as Hreply.
  { intros st Hk' Hs' HI.
    assert (sequence (sp_sys st) + 1 < u64_mod) as Hs1.
    { rewrite Hs'. change (sp_sys (abs leader)) with (map_sys (sm_map leader)). lia. }
    rewrite <-(put_entry_reply i t k v x st HI) by (lia || (rewrite Hk'; exact Hk)).
    fold e. cbn [sp_apply_all]. destruct (sp_apply e st) as [st' r']. reflexivity. }
  destruct (apply_entries_spec [e] leader Hok Hes) as (l' & El & _); [rewrite Hcost; lia|].
  destruct (apply_entries_spec [e] s' Hok' Hes) as (f' & Ef & _).
  { change (map_sys (sm_map s') = map_sys (sm_map leader)) in Hsys. rewrite Hsys, Hcost. lia. }
  rewrite (Hreply _ eq_refl eq_refl (ok_inv _ Hok)) in El. rewrite (Hreply _ Hkv Hsys (ok_inv _ Hok')) in Ef.
  change (sp_cursor (abs leader)) with (expire_cursor leader) in El.
  change (sp_cursor (abs s')) with (expire_cursor s') in Ef. rewrite Hcur in Ef.
  destruct (N.ltb_spec (x * 1000) (t `max` time_ms (expire_cursor leader))); [|lia].
  destruct (N.ltb_spec (x * 1000) (t `max` time_ms (expire_cursor s))); [lia|]. eauto 10.
Qed.
End restored.

Section exported.
Context {raft : OpenRaft} {sm : StreamMore} {rb : RotblLib} `{!RotblLaws rb}.
Context {sl : SerdeLib raft} `{!SerdeLaws sl, !SerdeTotal sl}.

(** C29: Export and import are inverse.  Exporting a snapshot succeeds, and the
    table that is built from the exported entries has the same key-values, the
    same expiration index and the same system data. *)
Theorem export_import_roundtrip (db db' : DB) b path id r :
  exportable db → builder_content b [] →
  ∃ ents, export db = Ok (Ok <$> ents) ∧
    (import_entries b ents = Ok r → db_new path id r = Ok db' →
     db_ok (K := string) (V := bytes) db' ∧ db_ok (K := ExpireKey) (V := string) db' ∧
     db_view (K := string) (V := bytes) db' = db_view db ∧
     db_view (K := ExpireKey) (V := string) db' = db_view db ∧ db_sys_data db' = db_sys_data db).
Proof.
  intros Hex Hb. eexists. split; [by apply export_spec|]. intros Hi Hn.
  destruct (import_spec db b r Hex Hb Hi) as (E & Hok & Hc & Hd & He & Hk).
  destruct (encodes_space (K := ExpireKey) (V := string) (db_view db) E) as [Se Me]; [apply expire_val_total| |done|].
  { intros ek m v Hm Hv. destruct (ex_exp db Hex ek m Hm) as (? & ? & -> & _ & Hu). by injection Hv as <-. }
  destruct (encodes_space (K := string) (V := bytes) (db_view db) E) as [Sk Mk]; [apply kv_val_total|done..|].
  unfold db_new in Hn. rewrite Hd in Hn. injection Hn as <-. rewrite <-Hc in *. done.
Qed.
End exported.

Section mem_meta.
Context {raft : OpenRaft} {Mp : Type} `{!StateMap raft Mp, !StateMapLaws Mp}.
Implicit Types s : StateMachine Mp.

(** C30: The in-memory meta-service answers like the replicated one.  A write at
    the time [now] has the reply, and leaves the data, of applying its command
    in the log at that time: first the expired keys go, then the command is
    executed.  Reads are exact at the time of the node: [get_kv_stream] answers
    the keys in their order, each with its value unless the value is expired;
    [list_kv] gives the values with the prefix that are not expired, in the
    order of the keys. *)
Theorem mem_meta_refines now s :
  sm_ok s → now < u64_mod →
  let ctx := cmd_ctx_from_millis now in
  let st := sp_clean now ctx (abs s) in
  let kv := filter (λ x, seqv_is_expired x.2 now = false) (kvv (sm_map s)) in
  (∀ u, sequence (map_sys (sm_map s)) + cmd_cost (CmdUpsertKV u) + 1 < u64_mod →
    ∃ s' r, mem_upsert_kv now u s = (s', Ok r) ∧ sm_ok s' ∧
      (sp_cmd (CmdUpsertKV u) ctx st).2 = ASKV r ∧ abs s' ≡ (sp_cmd (CmdUpsertKV u) ctx st).1) ∧
  (∀ t, sequence (map_sys (sm_map s)) + txn_cost t + 1 < u64_mod →
    ∃ s' r, mem_transaction now t s = (s', Ok r) ∧ sm_ok s' ∧
      (sp_cmd (Transaction t) ctx st).2 = ASTxnReply r ∧ abs s' ≡ (sp_cmd (Transaction t) ctx st).1) ∧
  (∀ keys, get_kv_stream now s keys = Ok ((λ k, Ok (stream_item (k, kv !! k))) <$> keys)) ∧
  (∀ prefix, api_list_kv now s prefix =
    Ok ((λ x : string * SeqV bytes, Ok (stream_item (x.1, Some x.2))) <$>
        filter (λ x, starts_with x.1 prefix = true) (btree_iter kv))).
Proof.
  intros Hok Hnow ctx st kv. split_and!.
  - intros u Hroom. destruct (mem_upsert_spec now u s Hok Hnow Hroom) as (s' & E & Hok' & Habs & _).
    eexists s', _. split; [exact E|]. split; [exact Hok'|]. cbn [sp_cmd]. fold ctx st in Habs |- *.
    destruct (sp_upsert u ctx st) as [st' [p r]]. split; [done|exact Habs].
  - intros t Hroom. destruct (mem_transaction_spec now t s Hok Hnow Hroom) as (s' & E & Hok' & Habs & _).
    eexists s', _. split; [exact E|]. split; [exact Hok'|]. cbn [sp_cmd]. fold ctx st in Habs |- *.
    destruct (sp_txn t ctx st) as [st' r]. split; [done|exact Habs].
  - intros keys. rewrite get_kv_stream_spec by done. f_equal. apply list_fmap_ext. intros _ k _. by rewrite non_expired_lookup.
  - intros prefix. by rewrite api_list_kv_spec.
Qed.
End mem_meta.

(** ** Examples *)

Module SmEx.
Import LogEx.

(** The table of a state machine. *)
Definition compactor_of (s : StateMachine (LeveledMap DB)) : Compactor DB := (snapshot_begin 1 0 (sm_map s)).2.
Definition table_of (s : StateMachine (LeveledMap DB)) : DB :=
  match snapshot_write (compactor_of s) [] "path" "id" with
  | Ok db => db
  | _ => {| db_path := ""; db_meta := {| snap_last_log_id := None;
              snap_last_membership := stored_membership_default; snapshot_id := "" |};
            db_sys_data := sys_data_default; db_rotbl := (∅, "") |}
  end.

Lemma table_of_eq s :
  is_ok (snapshot_write (compactor_of s) [] "path" "id") = true →
  snapshot_write (compactor_of s) [] "path" "id" = Ok (table_of s).
Proof. intros Hok. unfold table_of. by destruct (snapshot_write (compactor_of s) [] "path" "id"). Qed.

Definition compactor : Compactor DB := compactor_of s1.
Definition table : DB := table_of s1.

Lemma table_eq : snapshot_write compactor [] "path" "id" = Ok table.
Proof. apply table_of_eq. vm_compute. reflexivity. Qed.

Definition utf8_check (x : ExpireKey * Marked string) : bool :=
  match marked_value x.2 with Some v => is_utf8 v | None => true end.

Lemma utf8_values_check (m : LeveledMap DB) :
  forallb utf8_check (map_to_list (lm_view (K := ExpireKey) (V := string) m)) = true → utf8_values m.
Proof.
  intros H%Is_true_true k a v Ha Hv. rewrite forallb_True, Forall_forall in H. apply Is_true_true.
  specialize (H (k, a)). unfold utf8_check in H. cbn in H. rewrite Hv in H. by apply H, elem_of_map_to_list.
Qed.

Lemma s1_utf8 : utf8_values (sm_map s1).
Proof. apply utf8_values_check. vm_compute. reflexivity. Qed.

Lemma es1_timely : Forall (timely (time_ms (expire_cursor s1))) es1.
Proof.
  assert (time_ms (expire_cursor s1) = 6000) as -> by (vm_compute; reflexivity).
  apply Forall_singleton. split; [by vm_compute|done].
Qed.

Lemma restored_replica_agrees_witness :
  ∃ s' l' f' rs, install_snapshot_v003 table sm_v003_default = (s', Ok tt) ∧
    apply_entries es1 s1 = (l', Ok rs) ∧ apply_entries es1 s' = (f', Ok rs) ∧
    kvv (sm_map l') = kvv (sm_map f').
Proof.
  destruct (restored_replica_agrees s1 sm_v003_default 1 0 (snapshot_begin 1 0 (sm_map s1)).1 compactor
    [] "path" "id" table es1 s1_ok s1_utf8 (surjective_pairing _) eq_refl table_eq (or_introl eq_refl) eq_refl
    (N.le_0_l _) es1_ok es1_timely (s1_room (entries_cost es1) eq_refl)) as (s' & l' & f' & rs & E1 & E2 & E3 & _ & _ & Hkv & _).
  exists s', l', f', rs. split; [exact E1|]. split; [exact E2|]. split; [exact E3|exact Hkv].
Defined.

(** The cursor of the leader is at 6 seconds; the key expires at 4 seconds. *)
Definition late : RaftEntry := put_entry (3%nat : LogId) 1000 "z" "1" 4.

Lemma restored_replica_diverges_witness :
  ∃ (s' l' f' : StateMachine (LeveledMap DB)) (r : SeqV bytes), install_snapshot_v003 table sm_v003_default = (s', Ok tt) ∧
    apply_entries [late] s1 = (l', Ok [ASKV (change_new None None)]) ∧
    apply_entries [late] s' = (f', Ok [ASKV (change_new None (Some r))]).
Proof.
  apply (restored_replica_diverges s1 sm_v003_default 1 0 (snapshot_begin 1 0 (sm_map s1)).1 compactor
    [] "path" "id" table (entry_log_id late) 1000 "z" "1" 4 s1_ok s1_utf8 (surjective_pairing _) eq_refl table_eq
    (or_introl eq_refl) eq_refl).
  - pose proof (s1_room 1 eq_refl). lia.
  - vm_compute. reflexivity.
  - done.
  - done.
  - assert (time_ms (expire_cursor s1) = 6000) as -> by (vm_compute; reflexivity). done.
Defined.

Lemma mem_meta_refines_witness :
  (∃ s' r, mem_upsert_kv 1000 (upsert_insert "c" "3") mem0 = (s', Ok r) ∧ sm_ok s') ∧
  get_kv_stream 7000 s1 ["b"; "x"] =
    Ok [Ok (stream_item ("b", Some b_value)); Ok (stream_item ("x", None))].
Proof.
  split.
  - destruct (mem_meta_refines 1000 mem0 mem0_ok eq_refl) as [H _].
    destruct (H (upsert_insert "c" "3") eq_refl) as (s' & r & E & Hok & _).
    exists s', r. split; [exact E|exact Hok].
  - destruct (mem_meta_refines 7000 s1 s1_ok eq_refl) as (_ & _ & H & _). rewrite (H ["b"; "x"]). vm_compute. reflexivity.
Defined.

(** A state machine with an entry in its expiration index. *)
Definition s2 : StateMachine (LeveledMap DB) := (apply_entries (take 1 es) s0).1.
Definition table2 : DB := table_of s2.

Lemma s2_ok : sm_ok s2.
Proof.
  destruct (apply_entries_spec (take 1 es) s0 s0_ok) as (s' & E & Hok & _).
  - repeat constructor.
  - reflexivity.
  - unfold s2. by rewrite E.
Qed.

Definition index_check (x : ExpireKey * Marked string) : bool :=
  match x.2 with Normal s k None => negb (s =? 0) && is_utf8 k | _ => false end.

Lemma index_check_spec (db : DB) :
  forallb index_check (map_to_list (db_view (K := ExpireKey) (V := string) db)) = true →
  ∀ ek a, db_view (K := ExpireKey) (V := string) db !! ek = Some a →
    ∃ s k, a = Normal s k None ∧ s ≠ 0 ∧ is_utf8 k = true.
Proof.
  intros Hc%Is_true_true ek a Ha%elem_of_map_to_list. rewrite forallb_True, Forall_forall in Hc.
  apply Hc in Ha. unfold index_check in Ha. cbn in Ha. destruct a as [|s k [mt|]]; [done..|].
  apply Is_true_true, andb_true_iff in Ha as [Hs Hk]. exists s, k. split; [done|]. split; [by intros ->|done].
Qed.

Lemma table2_exportable : exportable table2.
Proof.
  destruct (snapshot_begin_spec 1 0 (sm_map s2) (snapshot_begin 1 0 (sm_map s2)).1 (compactor_of s2) (ok_wf _ s2_ok)
    (surjective_pairing _)) as (_ & _ & Hn & _ & _ & _ & _ & _ & Ce & Ck).
  assert (utf8_values (sm_map s2)) as Hu by (apply utf8_values_check; vm_compute; reflexivity).
  assert (is_ok (snapshot_write (compactor_of s2) [] "path" "id") = true) as Hw by (vm_compute; reflexivity).
  destruct (snapshot_write_spec (compactor_of s2) _ [] "path" "id" _ Hn (Ce Hu) Ck eq_refl (table_of_eq s2 Hw))
    as (Oe & Od & Ve & Vk & _).
  split; [exact Oe|exact Od| |].
  - apply index_check_spec. vm_compute. reflexivity.
  - intros k a Ha. unfold table2 in Ha. rewrite Vk in Ha. apply map_lookup_filter_Some in Ha as [_ Hn'].
    exact Hn'.
Qed.

Lemma export_import_roundtrip_witness :
  (∃ ents, export table2 = Ok (Ok <$> ents)) ∧
  is_ok (strm ← export table2; ents ← try_collect strm; import_entries [] ents) = true.
Proof.
  split; [|vm_compute; reflexivity].
  destruct (export_import_roundtrip table2 table2 [] "path" "id" (db_rotbl table2) table2_exportable eq_refl)
    as (ents & E & _). exists ents. exact E.
Defined.
End SmEx.
