(* ===== verification/KeyCodec.v ===== *)
(** Structured keys as strings (src/meta/kvapi/src/kvapi: helper.rs,
    key_builder.rs, key_parser.rs, key_codec.rs, key.rs, dir_name.rs): escaping,
    the builder and the parser of slash-separated keys, and the codec that
    types of keys implement. *)

From stdpp Require Import base orders sorting strings gmap numbers list.
From S2P Require Import Prelude BTree RustStr.
Local Open Scope N_scope.

(** ** Errors *)

Inductive KeyError :=
| FromUtf8Error
| AsciiError (non_ascii : string)
| InvalidSegment (i : nat) (expect got : string)
| EmptySegment (i : nat)
| WrongNumberOfSegments (expect : nat) (got : string)
| AtleastSegments (expect actual : nat)
| InvalidId (s : string)
| UnknownPrefix (prefix : string).

(** [Result<A, KeyError>], or a panic. *)
Inductive KeyResult (A : Type) :=
| KOk (a : A)
| KErr (e : KeyError)
| KPanic.
Arguments KOk {_} _.
Arguments KErr {_} _.
Arguments KPanic {_}.

#[export] Instance KeyResult_ret : MRet KeyResult := @KOk.
#[export] Instance KeyResult_bind : MBind KeyResult := λ A B f o,
  match o with KOk a => f a | KErr e => KErr e | KPanic => KPanic end.

(** ** Escaping (helper.rs) *)

Definition percent : Ascii.ascii := byte 37.
Definition slash : Ascii.ascii := byte 47.

(** [hex]: of a number below 16. *)
Definition hex (num : N) : Ascii.ascii :=
  if num <=? 9 then byte (48 + num) else byte (97 + (num - 10)).

(** [unhex]: [None] is the [unreachable!] branch. *)
Definition unhex (a : Ascii.ascii) : option N :=
  let num := byte_of a in
  if (48 <=? num) && (num <=? 57) then Some (num - 48)
  else if (97 <=? num) && (num <=? 102) then Some (num - 97 + 10)
  else None.

(** The bytes that [escape] keeps. *)
Definition is_plain (a : Ascii.ascii) : bool :=
  let num := byte_of a in
  ((48 <=? num) && (num <=? 57)) || (num =? 95) || ((97 <=? num) && (num <=? 122)) ||
  ((65 <=? num) && (num <=? 90)).

Definition escape_byte (a : Ascii.ascii) (rest : string) : string :=
  String percent (String (hex (byte_of a / 16)) (String (hex (byte_of a `mod` 16)) rest)).

Fixpoint escape (key : string) : string :=
  match key with
  | EmptyString => EmptyString
  | String a key => if is_plain a then String a (escape key) else escape_byte a (escape key)
  end.

Fixpoint escape_specified (key : string) (chars : list Ascii.ascii) : string :=
  match key with
  | EmptyString => EmptyString
  | String a key =>
      if decide (a ∈ chars) then escape_byte a (escape_specified key chars)
      else String a (escape_specified key chars)
  end.

Definition opt_panic {A} (o : option A) : KeyResult A :=
  match o with Some a => KOk a | None => KPanic end.

(** The loop of [unescape]: a [%] that is not followed by two bytes is an index
    out of range. *)
Fixpoint unescape_go (key : string) : KeyResult string :=
  match key with
  | EmptyString => KOk EmptyString
  | String a rest =>
      if decide (a = percent) then
        match rest with
        | String h (String l rest) =>
            h ← opt_panic (unhex h);
            l ← opt_panic (unhex l);
            new_key ← unescape_go rest;
            KOk (String (byte (h * 16 + l)) new_key)
        | _ => KPanic
        end
      else new_key ← unescape_go rest; KOk (String a new_key)
  end.

Definition check_utf8 (b : string) : KeyResult string :=
  match from_utf8 b with Some s => KOk s | None => KErr FromUtf8Error end.

Definition unescape (key : string) : KeyResult string :=
  new_key ← unescape_go key; check_utf8 new_key.

(** The loop of [unescape_specified]: only the given bytes are unescaped, an
    incomplete escape is kept. *)
Fixpoint unescape_specified_go (key : string) (chars : list Ascii.ascii) : KeyResult string :=
  match key with
  | EmptyString => KOk EmptyString
  | String a rest =>
      if decide (a = percent) then
        match rest with
        | String h (String l rest) =>
            n1 ← opt_panic (unhex h);
            n2 ← opt_panic (unhex l);
            new_key ← unescape_specified_go rest chars;
            KOk (let num := byte (n1 * 16 + n2) in
                 if decide (num ∈ chars) then String num new_key
                 else String a (String h (String l new_key)))
        | _ => new_key ← unescape_specified_go rest chars; KOk (String percent new_key)
        end
      else new_key ← unescape_specified_go rest chars; KOk (String a new_key)
  end.

Definition unescape_specified (key : string) (chars : list Ascii.ascii) : KeyResult string :=
  new_key ← unescape_specified_go key chars; check_utf8 new_key.

Definition decode_id (s : string) : KeyResult N :=
  match parse_u64 s with Some id => KOk id | None => KErr (InvalidId s) end.

(** ** [KeyBuilder] *)

Record KeyBuilder := { buf : string }.

Definition key_builder_new : KeyBuilder := {| buf := EmptyString |}.
Definition push_raw (s : string) (b : KeyBuilder) : KeyBuilder :=
  {| buf := match buf b with
     | EmptyString => s
     | _ => buf b +:+ String slash s
     end |}.
Definition key_builder_prefixed (prefix : string) : KeyBuilder := push_raw prefix key_builder_new.
Definition push_str (s : string) (b : KeyBuilder) : KeyBuilder := push_raw (escape s) b.
Definition push_u64 (n : N) (b : KeyBuilder) : KeyBuilder := push_raw (dec_string n) b.
Definition builder_done (b : KeyBuilder) : KeyResult string := opt_panic (from_utf8 (buf b)).

(** ** [KeyParser] *)

Record KeyParser := {
  str_key : string;
  (** the index of the next item to return *)
  kp_i : nat;
  (** the index of the byte for the next return *)
  kp_index : nat;
  elements : list string;
}.

(** Code that reads from a parser; the parser is kept on every path. *)
Definition P (A : Type) : Type := KeyParser → KeyParser * KeyResult A.
#[export] Instance P_ret : MRet P := λ A a p, (p, KOk a).
#[export] Instance P_bind : MBind P := λ A B f c p,
  match c p with
  | (p', KOk a) => f a p'
  | (p', KErr e) => (p', KErr e)
  | (p', KPanic) => (p', KPanic)
  end.
Definition p_get : P KeyParser := λ p, (p, KOk p).
Definition p_lift {A} (o : KeyResult A) : P A := λ p, (p, o).

Definition key_parser_new (source : string) : KeyParser :=
  {| str_key := source; kp_i := 0; kp_index := 0; elements := split_on slash source |}.

Definition peek_literal (expect : string) : P unit := λ p,
  (p, match elements p with
      | [] => KErr (WrongNumberOfSegments (kp_i p) (str_key p))
      | next :: _ =>
          if decide (next = expect) then KOk tt else KErr (InvalidSegment (kp_i p) expect next)
      end).

Definition next_raw : P string := λ p,
  match elements p with
  | s :: rest =>
      ({| str_key := str_key p; kp_i := S (kp_i p);
          kp_index := kp_index p + (String.length s + 1); elements := rest |}, KOk s)
  | [] => (p, KErr (WrongNumberOfSegments (S (kp_i p)) (str_key p)))
  end.

(** [NonEmptyString::new]. *)
Definition non_empty_new (s : string) : option string :=
  match s with EmptyString => None | _ => Some s end.

Definition next_nonempty : P string :=
  elt ← next_raw;
  s ← p_lift (unescape elt);
  p ← p_get;
  p_lift (match non_empty_new s with Some x => KOk x | None => KErr (EmptySegment (kp_i p - 1)) end).

Definition next_str : P string := elt ← next_raw; p_lift (unescape elt).
Definition next_u64 : P N := elt ← next_raw; p_lift (decode_id elt).

Definition next_literal (expect : string) : P unit :=
  p ← p_get;
  elt ← next_raw;
  if decide (elt = expect) then mret tt else p_lift (KErr (InvalidSegment (kp_i p) expect elt)).

Definition key_parser_prefixed (source prefix : string) : KeyResult KeyParser :=
  let '(p, r) := next_literal prefix (key_parser_new source) in _ ← r; KOk p.

(** [&s[i..]]: a panic when [i] is past the end or inside a character. *)
Fixpoint str_from (i : nat) (s : string) : option string :=
  match i, s with
  | O, EmptyString => Some s
  | O, String a _ => if (128 <=? byte_of a) && (byte_of a <? 192) then None else Some s
  | S i, String _ s => str_from i s
  | S _, EmptyString => None
  end.

(** [tail_raw]: the parser is exhausted; the rest of the source from the next
    element on. *)
Definition tail_raw : P string := λ p,
  match next_raw p with
  | (p1, KOk _) =>
      let n := length (elements p1) in
      ({| str_key := str_key p1; kp_i := kp_i p1 + n;
          kp_index := foldl (λ k s, k + (String.length s + 1))%nat (kp_index p1) (elements p1);
          elements := [] |},
       opt_panic (str_from (kp_index p) (str_key p)))
  | (p1, KErr e) => (p1, KErr e)
  | (p1, KPanic) => (p1, KPanic)
  end.

Definition parser_done : P unit := λ p,
  match elements p with
  | [] => (p, KOk tt)
  | _ :: rest =>
      ({| str_key := str_key p; kp_i := kp_i p; kp_index := kp_index p; elements := rest |},
       KErr (WrongNumberOfSegments (kp_i p) (str_key p)))
  end.

(** ** [KeyCodec] and [Key] *)

Class KeyCodec (K : Type) := {
  encode_key : K → KeyBuilder → KeyBuilder;
  decode_key : P K;
}.

Class Key (K : Type) `{!KeyCodec K} := { KEY_PREFIX : string }.
Arguments KEY_PREFIX K {_ _}.

Definition to_string_key `{Key K} (k : K) : KeyResult string :=
  builder_done (encode_key k (key_builder_prefixed (KEY_PREFIX K))).

Definition from_str_key `{Key K} (s : string) : KeyResult K :=
  p ← key_parser_prefixed s (KEY_PREFIX K);
  let '(p, r) := (k ← decode_key; _ ← parser_done; mret k) p in r.

#[export] Instance string_codec : KeyCodec string :=
  {| encode_key := push_str; decode_key := next_str |}.
#[export] Instance u64_codec : KeyCodec N :=
  {| encode_key := push_u64; decode_key := next_u64 |}.
#[export] Instance unit_codec : KeyCodec unit :=
  {| encode_key _ b := b; decode_key := mret tt |}.

(** ** [DirName] *)

Record DirName (K : Type) := { dir_key : K; dir_level : N }.
Arguments dir_key {_} _.
Arguments dir_level {_} _.

Definition dir_name_new {K} (k : K) : DirName K := {| dir_key := k; dir_level := 1 |}.

Fixpoint join_with (c : Ascii.ascii) (segs : list string) : string :=
  match segs with
  | [] => EmptyString
  | [s] => s
  | s :: segs => s +:+ String c (join_with c segs)
  end.

(** [s.rsplitn(n, c).last()]: what is left of [s] when [n - 1] segments were
    split off from the right, or the first segment. *)
Definition rsplitn_last (n : N) (c : Ascii.ascii) (s : string) : option string :=
  if n =? 0 then None
  else let segs := split_on c s in
       Some (join_with c (take (N.to_nat (1 `max` (N.of_nat (length segs) - (n - 1)))) segs)).

Definition dir_to_string_key `{Key K} (d : DirName K) : KeyResult string :=
  k ← to_string_key (dir_key d);
  opt_panic (rsplitn_last (wrap64 (dir_level d + 1)) slash k).

Definition dir_name_with_slash `{Key K} (d : DirName K) : KeyResult string :=
  prefix ← dir_to_string_key d; KOk (prefix +:+ String slash EmptyString).

(** ** Ranges of keys with a prefix (prefix.rs) *)

(** Bytes below 128 only. *)
Fixpoint is_ascii (s : string) : bool :=
  match s with EmptyString => true | String a s => (byte_of a <? 128) && is_ascii s end.

(** The last character that is not 127 is replaced by the next one; what follows
    it is kept. *)
Fixpoint ascii_next_go (s : string) : option string :=
  match s with
  | EmptyString => None
  | String a s =>
      match ascii_next_go s with
      | Some t => Some (String a t)
      | None => if byte_of a =? 127 then None else Some (String (byte (byte_of a + 1)) s)
      end
  end.

Definition ascii_next (s : string) : KeyResult string :=
  if is_ascii s then
    KOk (match ascii_next_go s with Some t => t | None => s +:+ String (byte 127) EmptyString end)
  else KErr (AsciiError s).

Definition prefix_to_range (prefix : string) : KeyResult (string * string) :=
  e ← ascii_next prefix; KOk (prefix, e).
