(* ===== verification/KeyCodecProofs.v ===== *)
(** Keys and strings: escaping is undone by unescaping, a built key splits
    into the pushed segments, and every lawful codec round-trips. *)

From stdpp Require Import base orders sorting strings gmap numbers list.
From S2P Require Import Prelude BTree RustStr KeyCodec.
Local Open Scope N_scope.

(** ** UTF-8 strings *)

Lemma utf8_bytes_width c a l :
  is_scalar c = true → utf8_bytes c = a :: l → utf8_width a = S (length l).
Proof.
  unfold is_scalar, utf8_bytes, utf8_width. intros Hc.
  assert (c <= 0x10FFFF) as Hmax.
  { apply orb_true_iff in Hc as [Hc|Hc]; [apply N.ltb_lt in Hc; lia|].
    apply andb_true_iff in Hc as [_ Hc]. by apply N.leb_le in Hc. }
  clear Hc. pose proof (N.div_mod c 64 ltac:(done)). pose proof (N.mod_lt c 64 ltac:(done)).
  pose proof (N.div_mod c 4096 ltac:(done)). pose proof (N.mod_lt c 4096 ltac:(done)).
  pose proof (N.div_mod c 262144 ltac:(done)). pose proof (N.mod_lt c 262144 ltac:(done)).
  destruct (N.ltb_spec c 0x80); [|destruct (N.ltb_spec c 0x800); [|destruct (N.ltb_spec c 0x10000)]];
    intros [= <- <-]; cbn [length]; try done;
    generalize dependent (c / 64); generalize dependent (c / 4096); generalize dependent (c / 262144);
    generalize dependent (c `mod` 64); generalize dependent (c `mod` 4096);
    generalize dependent (c `mod` 262144); intros;
    repeat match goal with |- context [?x <? ?y] => destruct (N.ltb_spec x y); try lia end; done.
Qed.

Lemma decode_char_width a bs c rest :
  decode_char (take (utf8_width a) (a :: bs)) = Some c →
  decode_char (take (utf8_width a) ((a :: bs) ++ rest)) = Some c ∧
  (utf8_width a ≤ length (a :: bs))%nat.
Proof.
  intros Hd.
  pose proof (decode_char_Some _ _ Hd) as [Hs Hb].
  assert (utf8_width a = S (pred (utf8_width a))) as Hw.
  { unfold utf8_width. by repeat case_match. }
  rewrite Hw in Hb. cbn [take] in Hb. pose proof (utf8_bytes_width c a _ Hs Hb) as Hl.
  rewrite length_take in Hl.
  assert (utf8_width a ≤ length (a :: bs))%nat as Hle by (cbn; lia).
  split; [|done]. by rewrite take_app_le.
Qed.

Lemma decode_chars_app f1 f2 b1 b2 c1 c2 :
  decode_chars f1 b1 = Some c1 → decode_chars f2 b2 = Some c2 →
  decode_chars (f1 + f2) (b1 ++ b2) = Some (c1 ++ c2).
Proof.
  intros H1 H2. revert b1 c1 H1. induction f1 as [|f1 IH]; intros [|a b1] c1 H1; simplify_eq/=.
  - by destruct f2.
  - rename H2 into H2'. assert (∀ f, decode_chars (f + f2) b2 = Some c2) as Hmore.
    { intros f. clear IH. revert b2 c2 H2'. induction f2 as [|f2 IH2]; intros b2 c2 H2.
      - destruct b2; [|done]. destruct f; simplify_eq/=; done.
      - rewrite Nat.add_succ_r. destruct b2 as [|a b2]; [done|]. cbn [decode_chars] in *.
        apply bind_Some in H2 as (c & Hc & (cs & Hcs & [= <-])%bind_Some).
        rewrite Hc. cbn. by rewrite (IH2 _ _ Hcs). }
    exact (Hmore (S f1)).
  - apply bind_Some in H1 as (c & Hc & (cs & Hcs & [= <-])%bind_Some).
    destruct (decode_char_width a b1 c b2 Hc) as [Hc' Hle].
    change (a :: b1 ++ b2) with ((a :: b1) ++ b2). rewrite Hc'. cbn [mbind option_bind].
    rewrite drop_app_le by done. by rewrite (IH _ _ Hcs).
Qed.

Lemma to_bytes_app s t : to_bytes (s +:+ t) = to_bytes s ++ to_bytes t.
Proof. induction s as [|a s IH]; [done|]. rewrite str_app_cons. cbn. by rewrite IH. Qed.

Lemma utf8_app s t : is_utf8 s = true → is_utf8 t = true → is_utf8 (s +:+ t) = true.
Proof.
  unfold is_utf8, chars. rewrite !bool_decide_eq_true. intros [c1 H1] [c2 H2]. exists (c1 ++ c2).
  rewrite str_length_app, to_bytes_app. by apply decode_chars_app.
Qed.

Lemma is_ascii_app s t : is_ascii (s +:+ t) = is_ascii s && is_ascii t.
Proof. induction s as [|a s IH]; [done|]. rewrite str_app_cons. cbn. by rewrite IH, andb_assoc. Qed.

Lemma decode_char_ascii a : a < 128 → decode_char [a] = Some a.
Proof.
  intros Ha. unfold decode_char, is_scalar, utf8_bytes.
  destruct (N.ltb_spec a 0xD800); [|lia]. destruct (N.ltb_spec a 0x80); [|lia].
  cbn [orb andb]. by rewrite bool_decide_eq_true_2.
Qed.

Lemma ascii_utf8 s : is_ascii s = true → is_utf8 s = true.
Proof.
  unfold is_utf8, chars. rewrite bool_decide_eq_true. induction s as [|a s IH]; [by exists []|].
  cbn [is_ascii]. intros [Ha Hs]%andb_true_iff. destruct (IH Hs) as [cs Hcs].
  apply N.ltb_lt in Ha. exists (byte_of a :: cs). cbn [String.length to_bytes decode_chars].
  unfold utf8_width. destruct (N.ltb_spec (byte_of a) 0x80); [|lia]. cbn [take drop].
  rewrite take_0, drop_0, decode_char_ascii by done. cbn [mbind option_bind]. by rewrite Hcs.
Qed.

Lemma utf8_cons a s : byte_of a < 128 → is_utf8 s = true → is_utf8 (String a s) = true.
Proof.
  intros Ha. apply (utf8_app (String a EmptyString)), ascii_utf8. cbn. apply N.ltb_lt in Ha. by rewrite Ha.
Qed.

Lemma from_utf8_Some s : is_utf8 s = true → from_utf8 s = Some s.
Proof. unfold from_utf8. by intros ->. Qed.

(** ** Escaping *)

Lemma hex_unhex n : n < 16 → unhex (hex n) = Some n.
Proof.
  intros Hn. unfold hex, unhex. destruct (N.leb_spec n 9).
  - rewrite byte_of_byte by lia.
    destruct (N.leb_spec 48 (48 + n)), (N.leb_spec (48 + n) 57); try lia. cbn. f_equal. lia.
  - rewrite byte_of_byte by lia.
    destruct (N.leb_spec 48 (97 + (n - 10))), (N.leb_spec (97 + (n - 10)) 57); try lia.
    destruct (N.leb_spec 97 (97 + (n - 10))), (N.leb_spec (97 + (n - 10)) 102); try lia. cbn. f_equal. lia.
Qed.

(** A hexadecimal digit is plain. *)
Lemma hex_plain n : n < 16 → is_plain (hex n) = true.
Proof.
  intros Hn. unfold hex, is_plain. destruct (N.leb_spec n 9); rewrite byte_of_byte by lia;
    rewrite !orb_true_iff, !andb_true_iff, !N.leb_le; lia.
Qed.

Lemma hex_byte a :
  ∃ h l, byte_of a / 16 = h ∧ byte_of a `mod` 16 = l ∧ h < 16 ∧ l < 16 ∧ byte (h * 16 + l) = a.
Proof.
  exists (byte_of a / 16), (byte_of a `mod` 16). pose proof (byte_of_lt a).
  pose proof (N.mod_lt (byte_of a) 16 ltac:(done)). split_and!; try done.
  - apply N.Div0.div_lt_upper_bound. lia.
  - rewrite (N.mul_comm _ 16), <-N.div_mod by done. apply Ascii.ascii_N_embedding.
Qed.

Lemma plain_not a n : is_plain a = true → n < 48 → a ≠ byte n.
Proof.
  intros Ha Hn ->. unfold is_plain in Ha. rewrite byte_of_byte in Ha by lia.
  rewrite !orb_true_iff, !andb_true_iff, !N.leb_le, N.eqb_eq in Ha. lia.
Qed.

Lemma plain_ascii a : is_plain a = true → byte_of a < 128.
Proof. unfold is_plain. rewrite !orb_true_iff, !andb_true_iff, !N.leb_le, N.eqb_eq. lia. Qed.

Lemma unescape_go_escape s : unescape_go (escape s) = KOk s.
Proof.
  induction s as [|a s IH]; [done|]. cbn [escape]. destruct (is_plain a) eqn:Ha.
  - cbn [unescape_go]. rewrite decide_False by (by apply plain_not). by rewrite IH.
  - destruct (hex_byte a) as (h & l & Eh & El & Hh & Hl & Ea). unfold escape_byte.
    cbn [unescape_go]. rewrite decide_True, Eh, El, !hex_unhex, IH by done. cbn. by rewrite Ea.
Qed.

Lemma unescape_escape s : is_utf8 s = true → unescape (escape s) = KOk s.
Proof.
  intros Hs. unfold unescape, check_utf8. rewrite unescape_go_escape. cbn. by rewrite from_utf8_Some.
Qed.

(** The bytes of an escaped string are plain or [%]. *)
Fixpoint safe_bytes (s : string) : Prop :=
  match s with EmptyString => True | String a s => (is_plain a = true ∨ a = percent) ∧ safe_bytes s end.

Lemma escape_safe s : safe_bytes (escape s).
Proof.
  induction s as [|a s IH]; [done|]. cbn [escape]. destruct (is_plain a) eqn:Ha; cbn; [by auto|].
  destruct (hex_byte a) as (h & l & -> & -> & Hh & Hl & _). split_and!; auto using hex_plain.
Qed.

Lemma safe_ascii s : safe_bytes s → is_ascii s = true.
Proof.
  induction s as [|a s IH]; [done|]. intros [Ha Hs]. cbn. rewrite IH, andb_true_r by done.
  apply N.ltb_lt. destruct Ha as [Ha| ->]; [by apply plain_ascii|done].
Qed.

(** ** Segments *)

(** A segment has no slash. *)
Definition segment (s : string) : Prop := split_on slash s = [s].

Lemma segment_cons a s : a ≠ slash → segment s → segment (String a s).
Proof. intros Ha Hs. unfold segment in *. cbn [split_on]. by rewrite decide_False, Hs. Qed.

Lemma safe_segment s : safe_bytes s → segment s.
Proof.
  induction s as [|a s IH]; [done|]. intros [Ha Hs]. apply segment_cons; [|by apply IH].
  destruct Ha as [Ha| ->]; [by apply plain_not|done].
Qed.

Lemma dec_digits_ascii fuel n acc :
  segment acc → is_ascii acc = true →
  segment (dec_digits fuel n acc) ∧ is_ascii (dec_digits fuel n acc) = true.
Proof.
  revert n acc. induction fuel as [|fuel IH]; intros n acc Hs Ha; cbn [dec_digits].
  all: pose proof (N.mod_lt n 10 ltac:(done)) as Hm.
  all: assert (segment (String (byte (48 + n `mod` 10)) acc)) as Hs'
    by (apply segment_cons; [by apply digit_ne|done]).
  all: assert (is_ascii (String (byte (48 + n `mod` 10)) acc) = true) as Ha'
    by (cbn [is_ascii]; rewrite byte_of_byte, Ha, andb_true_r by lia; apply N.ltb_lt; lia).
  - done.
  - destruct (_ =? _); [done|]. by apply IH.
Qed.

Lemma dec_string_segment n : segment (dec_string n).
Proof. by apply dec_digits_ascii. Qed.
Lemma dec_string_utf8 n : is_utf8 (dec_string n) = true.
Proof. by apply ascii_utf8, dec_digits_ascii. Qed.

Lemma join_cons s x segs : join_with slash (s :: x :: segs) = s +:+ String slash (join_with slash (x :: segs)).
Proof. done. Qed.

Lemma split_join segs : segs ≠ [] → Forall segment segs → split_on slash (join_with slash segs) = segs.
Proof.
  intros Hne Hs. induction Hs as [|s segs Hs Hsegs IH]; [done|].
  destruct segs as [|x segs]; [exact Hs|]. rewrite join_cons, split_on_app by done. by rewrite IH.
Qed.

Lemma join_app l1 l2 :
  l1 ≠ [] → l2 ≠ [] →
  join_with slash (l1 ++ l2) = join_with slash l1 +:+ String slash (join_with slash l2).
Proof.
  intros H1 H2. induction l1 as [|s l1 IH]; [done|]. destruct l1 as [|x l1].
  - destruct l2; [done|]. done.
  - change ((s :: x :: l1) ++ l2) with (s :: (x :: l1) ++ l2).
    change (join_with slash (s :: (x :: l1) ++ l2)) with (s +:+ String slash (join_with slash ((x :: l1) ++ l2))).
    rewrite IH by done. rewrite join_cons, <-str_app_assoc. done.
Qed.

Lemma join_utf8 segs : Forall (λ s, is_utf8 s = true) segs → is_utf8 (join_with slash segs) = true.
Proof.
  induction 1 as [|s segs Hs _ IH]; [done|]. destruct segs; [done|]. rewrite join_cons.
  apply utf8_app; [done|]. by apply utf8_cons.
Qed.


(** ** The builder *)

Definition push_all (segs : list string) (b : KeyBuilder) : KeyBuilder :=
  foldl (λ b s, push_raw s b) b segs.

Lemma push_all_app l1 l2 b : push_all (l1 ++ l2) b = push_all l2 (push_all l1 b).
Proof. apply foldl_app. Qed.

Lemma push_all_buf segs b : buf b ≠ EmptyString → buf (push_all segs b) = join_with slash (buf b :: segs).
Proof.
  revert b. induction segs as [|s segs IH]; intros b Hb; [done|]. cbn [push_all foldl].
  fold (push_all segs (push_raw s b)).
  assert (buf (push_raw s b) = buf b +:+ String slash s) as E by (unfold push_raw; cbn; by destruct (buf b)).
  rewrite IH, E by (rewrite E; by destruct (buf b)). rewrite join_cons.
  destruct segs as [|x segs]; [done|]. rewrite !join_cons, <-str_app_assoc. done.
Qed.

(** ** Parsing segments *)

(** [c] reads the segments [segs] and returns [a]. *)
Definition parses {A} (c : P A) (segs : list string) (a : A) : Prop :=
  ∀ p rest, elements p = segs ++ rest → ∃ p', c p = (p', KOk a) ∧ elements p' = rest.

Lemma parses_ret {A} (a : A) : parses (mret a) [] a.
Proof. intros p rest E. by exists p. Qed.

Lemma parses_bind {A B} (c : P A) (k : A → P B) s1 s2 a b :
  parses c s1 a → parses (k a) s2 b → parses (c ≫= k) (s1 ++ s2) b.
Proof.
  intros H1 H2 p rest E. rewrite <-app_assoc in E.
  destruct (H1 _ _ E) as (p1 & E1 & R1). destruct (H2 _ _ R1) as (p2 & E2 & R2).
  exists p2. unfold mbind, P_bind. by rewrite E1.
Qed.

(** A last step that only builds the value. *)
Lemma parses_map {A B} (c : P A) (k : A → P B) s a b :
  parses c s a → k a = mret b → parses (c ≫= k) s b.
Proof.
  intros H1 H2. rewrite <-(app_nil_r s). apply (parses_bind _ _ _ _ a); [done|].
  rewrite H2. apply parses_ret.
Qed.

Lemma parses_next_raw s : parses next_raw [s] s.
Proof. intros p rest E. unfold next_raw. rewrite E. eauto. Qed.

Lemma parses_lift {A} (o : KeyResult A) a : o = KOk a → parses (p_lift o) [] a.
Proof. intros -> p rest E. by exists p. Qed.

Lemma parses_next_str s : is_utf8 s = true → parses next_str [escape s] s.
Proof.
  intros Hs. apply (parses_bind _ _ [_] [] _ _ (parses_next_raw _)). by apply parses_lift, unescape_escape.
Qed.

Lemma parses_next_u64 n : n < u64_mod → parses next_u64 [dec_string n] n.
Proof.
  intros Hn. apply (parses_bind _ _ [_] [] _ _ (parses_next_raw _)). apply parses_lift.
  unfold decode_id. by rewrite parse_u64_dec_string.
Qed.

Lemma parses_next_nonempty s : is_utf8 s = true → s ≠ EmptyString → parses next_nonempty [escape s] s.
Proof.
  intros Hs Hne. apply (parses_bind _ _ [_] [] _ _ (parses_next_raw _)).
  apply (parses_bind _ _ [] [] s); [by apply parses_lift, unescape_escape|].
  intros p rest E. exists p. unfold mbind, P_bind, p_get, p_lift. by destruct s.
Qed.

Lemma parses_next_literal s : parses (next_literal s) [s] tt.
Proof.
  intros p rest E. unfold next_literal, mbind, P_bind, p_get. destruct (parses_next_raw s p rest E) as (p' & E' & R).
  rewrite E'. rewrite decide_True by done. by exists p'.
Qed.

(** ** Lawful codecs *)

(** What a codec promises: a key is encoded as segments without slashes, and
    decoding reads them back. *)
Class KeyCodecLaws (K : Type) `{!KeyCodec K} := {
  key_ok : K → Prop;
  key_segs : K → list string;
  encode_segs : ∀ k b, encode_key k b = push_all (key_segs k) b;
  segs_segment : ∀ k, key_ok k → Forall segment (key_segs k);
  segs_utf8 : ∀ k, key_ok k → Forall (λ s, is_utf8 s = true) (key_segs k);
  decode_segs : ∀ k, key_ok k → parses decode_key (key_segs k) k;
}.

Definition str_ok (s : string) : Prop := is_utf8 s = true.
Definition id_ok (n : N) : Prop := n < u64_mod.

Lemma escape_segment s : segment (escape s).
Proof. apply safe_segment, escape_safe. Qed.
Lemma escape_utf8 s : is_utf8 (escape s) = true.
Proof. apply ascii_utf8, safe_ascii, escape_safe. Qed.

#[export] Hint Resolve escape_segment escape_utf8 dec_string_segment dec_string_utf8 : datafuse.
#[export] Hint Resolve parses_next_str parses_next_u64 parses_next_nonempty parses_next_raw : datafuse.

#[export, refine] Instance string_codec_laws : KeyCodecLaws string :=
  {| key_ok := str_ok; key_segs s := [escape s] |}.
Proof.
  - done.
  - intros s _. repeat constructor. auto with datafuse.
  - intros s _. repeat constructor. auto with datafuse.
  - exact parses_next_str.
Defined.

#[export, refine] Instance u64_codec_laws : KeyCodecLaws N :=
  {| key_ok := id_ok; key_segs n := [dec_string n] |}.
Proof.
  - done.
  - intros n _. repeat constructor. auto with datafuse.
  - intros n _. repeat constructor. auto with datafuse.
  - exact parses_next_u64.
Defined.

#[export, refine] Instance unit_codec_laws : KeyCodecLaws unit :=
  {| key_ok _ := True; key_segs _ := [] |}.
Proof.
  - done.
  - constructor.
  - constructor.
  - intros [] _. apply parses_ret.
Defined.

(** ** Keys *)

(** A prefix of a key space: one non-empty segment. *)
Definition prefix_ok (p : string) : Prop := p ≠ EmptyString ∧ segment p ∧ is_utf8 p = true.

Section keys.
Context `{!KeyCodec K, !Key K, !KeyCodecLaws K} (Hp : prefix_ok (KEY_PREFIX K)).
Implicit Types k : K.

(** All segments of the string of a key. *)
Definition full_segs k : list string := KEY_PREFIX K :: key_segs k.

Lemma full_segment k : key_ok k → Forall segment (full_segs k).
Proof. intros Hk. destruct Hp as (_ & ? & _). constructor; [done|]. by apply segs_segment. Qed.

Lemma to_string_key_eq k : key_ok k → to_string_key k = KOk (join_with slash (full_segs k)).
Proof.
  intros Hk. destruct Hp as (Hne & _ & Hu). unfold to_string_key, builder_done.
  rewrite encode_segs, push_all_buf by done. cbn [key_builder_prefixed push_raw key_builder_new buf].
  fold (full_segs k). rewrite from_utf8_Some; [done|]. apply join_utf8. constructor; [done|]. by apply segs_utf8.
Qed.

Lemma from_str_key_eq k : key_ok k → from_str_key (join_with slash (full_segs k)) = KOk k.
Proof.
  intros Hk. unfold from_str_key, key_parser_prefixed.
  destruct (parses_next_literal (KEY_PREFIX K) (key_parser_new (join_with slash (full_segs k))) (key_segs k))
    as (p1 & E1 & R1).
  { cbn [elements key_parser_new]. by rewrite split_join by (done || by apply full_segment). }
  rewrite E1. cbn [mbind KeyResult_bind].
  destruct (decode_segs k Hk p1 []) as (p2 & E2 & R2); [by rewrite app_nil_r|].
  unfold mbind, P_bind. rewrite E2. unfold parser_done. by rewrite R2.
Qed.

Lemma split_join_app l x :
  l ≠ [] → Forall segment l → split_on slash (join_with slash l +:+ String slash x) = l ++ split_on slash x.
Proof.
  intros Hne Hs. induction Hs as [|s l Hs Hl IH]; [done|].
  destruct l as [|y l]; [by apply split_on_app|].
  rewrite join_cons, <-str_app_assoc, str_app_cons, split_on_app, IH by done. done.
Qed.

(** The string of a directory, [n] segments above the key. *)
Lemma dir_to_string_key_eq k n :
  key_ok k → n + 1 < u64_mod → (N.to_nat n ≤ length (key_segs k))%nat →
  dir_to_string_key {| dir_key := k; dir_level := n |} =
    KOk (join_with slash (take (length (full_segs k) - N.to_nat n) (full_segs k))).
Proof.
  intros Hk Hn Hle. unfold dir_to_string_key. cbn [dir_key dir_level].
  rewrite to_string_key_eq by done. cbn [mbind KeyResult_bind].
  rewrite wrap64_small by done. unfold rsplitn_last.
  destruct (N.eqb_spec (n + 1) 0); [lia|]. rewrite split_join by (done || by apply full_segment).
  cbn [opt_panic]. do 3 f_equal. cbn [full_segs length] in *. lia.
Qed.
End keys.

(** The strings between a prefix and the prefix with the next last character. *)
Lemma prefix_range p a b k :
  byte_of b = byte_of a + 1 → String.le (p +:+ String a EmptyString) k →
  key_lt k (p +:+ String b EmptyString) → ∃ x, k = (p +:+ String a EmptyString) +:+ x.
Proof.
  intros Hb. revert k. induction p as [|c p IH]; intros k Hle Hlt.
  - change (String.le (String a EmptyString) k) in Hle. change (key_lt k (String b EmptyString)) in Hlt.
    destruct k as [|x k]; [by destruct Hle|]. apply str_le_cons in Hle. apply str_lt_cons in Hlt.
    assert (x = a) as ->; [|by exists k].
    apply byte_of_inj. destruct Hlt as [?|[_ Hn]]; [|by apply str_lt_alt in Hn; destruct Hn; apply str_le_nil].
    destruct Hle as [?|[-> _]]; lia.
  - rewrite str_app_cons in Hle, Hlt |- *. destruct k as [|x k]; [by destruct Hle|].
    apply str_le_cons in Hle. apply str_lt_cons in Hlt.
    assert (byte_of c ≤ byte_of x) by (destruct Hle as [?|[E _]]; [lia|by rewrite E]).
    assert (byte_of x ≤ byte_of c) by (destruct Hlt as [?|[E _]]; [lia|by rewrite E]).
    assert (x = c) as -> by (apply byte_of_inj; lia).
    destruct (IH k) as [y Ey].
    + destruct Hle as [?|[_ ?]]; [lia|done].
    + destruct Hlt as [?|[_ ?]]; [lia|done].
    + exists y. by rewrite str_app_cons, Ey.
Qed.
