(* ===== verification/AppKeys.v ===== *)
(** The keys of the applications of the meta-service (src/meta/app/src): the
    types of keys with their codecs, and the key spaces they live in. *)

From stdpp Require Import base orders sorting strings gmap numbers list.
From S2P Require Import Prelude BTree RustStr KeyCodec.
Local Open Scope N_scope.

(** ** Tenants and keys of a tenant *)

Record Tenant := { tenant : string }.

(** [Tenant::new_or_err]: the error is [TenantIsEmpty]. *)
Definition tenant_new_or_err (t : string) : option Tenant :=
  t ← non_empty_new t; Some {| tenant := t |}.

#[export] Instance tenant_codec : KeyCodec Tenant := {|
  encode_key t b := push_str (tenant t) b;
  decode_key := t ← next_nonempty; mret {| tenant := t |};
|}.
#[export] Instance tenant_key : Key Tenant := {| KEY_PREFIX := "__fd_tenant" |}.

(** The constants of the trait [TenantResource]. *)
Record TenantResource := { RSC_PREFIX : string; HAS_TENANT : bool }.

(** [<PREFIX>/<TENANT>/<NAME>]. *)
Record TIdent (r : TenantResource) (T : Type) := { tident_tenant : Tenant; tident_name : T }.
Arguments tident_tenant {_ _} _.
Arguments tident_name {_ _} _.

Definition tident_new {r T} (t : Tenant) (name : T) : TIdent r T :=
  {| tident_tenant := t; tident_name := name |}.

Definition tident_encode {r} `{KeyCodec T} (k : TIdent r T) (b : KeyBuilder) : KeyBuilder :=
  let b := if HAS_TENANT r then push_str (tenant (tident_tenant k)) b else b in
  encode_key (tident_name k) b.
Definition tident_decode {r} `{KeyCodec T} : P (TIdent r T) :=
  tenant_name ← (if HAS_TENANT r then next_nonempty else mret "dummy");
  name ← decode_key;
  mret (tident_new {| tenant := tenant_name |} name).

#[export] Instance tident_codec r `{KeyCodec T} : KeyCodec (TIdent r T) :=
  {| encode_key := tident_encode; decode_key := tident_decode |}.
#[export] Instance tident_key r `{KeyCodec T} : Key (TIdent r T) := {| KEY_PREFIX := RSC_PREFIX r |}.

Record DataId := { data_id : N }.
#[export] Instance data_id_codec : KeyCodec DataId := {|
  encode_key k := push_u64 (data_id k);
  decode_key := v ← next_u64; mret {| data_id := v |};
|}.

(** ** Databases and tables *)

Record DatabaseId := { did_db_id : N }.
#[export] Instance database_id_codec : KeyCodec DatabaseId := {|
  encode_key k := push_u64 (did_db_id k);
  decode_key := db_id ← next_u64; mret {| did_db_id := db_id |};
|}.
#[export] Instance database_id_key : Key DatabaseId := {| KEY_PREFIX := "__fd_database_by_id" |}.

Record DatabaseIdToName := { ditn_db_id : N }.
#[export] Instance database_id_to_name_codec : KeyCodec DatabaseIdToName := {|
  encode_key k := push_u64 (ditn_db_id k);
  decode_key := db_id ← next_u64; mret {| ditn_db_id := db_id |};
|}.
#[export] Instance database_id_to_name_key : Key DatabaseIdToName :=
  {| KEY_PREFIX := "__fd_database_id_to_name" |}.

Record DBIdTableName := { db_id : N; table_name : string }.
#[export] Instance db_id_table_name_codec : KeyCodec DBIdTableName := {|
  encode_key k b := push_str (table_name k) (push_u64 (db_id k) b);
  decode_key :=
    db_id ← next_u64;
    table_name ← next_str;
    mret {| db_id := db_id; table_name := table_name |};
|}.
#[export] Instance db_id_table_name_key : Key DBIdTableName := {| KEY_PREFIX := "__fd_table" |}.

Record TableIdToName := { titn_table_id : N }.
#[export] Instance table_id_to_name_codec : KeyCodec TableIdToName := {|
  encode_key k := push_u64 (titn_table_id k);
  decode_key := table_id ← next_u64; mret {| titn_table_id := table_id |};
|}.
#[export] Instance table_id_to_name_key : Key TableIdToName :=
  {| KEY_PREFIX := "__fd_table_id_to_name" |}.

Record TableId := { table_id : N }.
#[export] Instance table_id_codec : KeyCodec TableId := {|
  encode_key k := push_u64 (table_id k);
  decode_key := table_id ← next_u64; mret {| table_id := table_id |};
|}.
#[export] Instance table_id_key : Key TableId := {| KEY_PREFIX := "__fd_table_by_id" |}.

Record TableIdHistoryIdent := { database_id : N; history_table_name : string }.
#[export] Instance table_id_history_codec : KeyCodec TableIdHistoryIdent := {|
  encode_key k b := push_str (history_table_name k) (push_u64 (database_id k) b);
  decode_key :=
    db_id ← next_u64;
    table_name ← next_str;
    mret {| database_id := db_id; history_table_name := table_name |};
|}.
#[export] Instance table_id_history_key : Key TableIdHistoryIdent :=
  {| KEY_PREFIX := "__fd_table_id_list" |}.

(** The file is not escaped and is the whole tail of the key. *)
Record TableCopiedFileNameIdent := { copied_table_id : N; file : string }.
#[export] Instance table_copied_file_codec : KeyCodec TableCopiedFileNameIdent := {|
  encode_key k b := push_raw (file k) (push_u64 (copied_table_id k) b);
  decode_key :=
    table_id ← next_u64;
    file ← tail_raw;
    mret {| copied_table_id := table_id; file := file |};
|}.
#[export] Instance table_copied_file_key : Key TableCopiedFileNameIdent :=
  {| KEY_PREFIX := "__fd_table_copied_files" |}.

Record TableIdRevision := { rev_table_id : N; revision : N }.
#[export] Instance table_id_revision_codec : KeyCodec TableIdRevision := {|
  encode_key k b := push_u64 (revision k) (push_u64 (rev_table_id k) b);
  decode_key :=
    table_id ← next_u64;
    revision ← next_u64;
    mret {| rev_table_id := table_id; revision := revision |};
|}.

Record MarkedDeletedIndexId := { mdi_table_id : N; mdi_index_id : N }.
#[export] Instance marked_deleted_index_codec : KeyCodec MarkedDeletedIndexId := {|
  encode_key k b := push_u64 (mdi_index_id k) (push_u64 (mdi_table_id k) b);
  decode_key :=
    table_id ← next_u64;
    index_id ← next_u64;
    mret {| mdi_table_id := table_id; mdi_index_id := index_id |};
|}.

Record MarkedDeletedTableIndexId := { mdt_table_id : N; index_name : string; index_version : string }.
#[export] Instance marked_deleted_table_index_codec : KeyCodec MarkedDeletedTableIndexId := {|
  encode_key k b :=
    push_str (index_version k) (push_str (index_name k) (push_u64 (mdt_table_id k) b));
  decode_key :=
    table_id ← next_u64;
    index_name ← next_str;
    index_version ← next_str;
    mret {| mdt_table_id := table_id; index_name := index_name; index_version := index_version |};
|}.

Record DictionaryIdentity := { dict_db_id : N; dict_name : string }.
#[export] Instance dictionary_identity_codec : KeyCodec DictionaryIdentity := {|
  encode_key k b := push_str (dict_name k) (push_u64 (dict_db_id k) b);
  decode_key :=
    db_id ← next_u64;
    dict_name ← next_str;
    mret {| dict_db_id := db_id; dict_name := dict_name |};
|}.

Record IdGenerator := { resource : string }.
#[export] Instance id_generator_codec : KeyCodec IdGenerator := {|
  encode_key k := push_raw (resource k);
  decode_key := r ← next_raw; mret {| resource := r |};
|}.
#[export] Instance id_generator_key : Key IdGenerator := {| KEY_PREFIX := "__fd_id_gen" |}.

(** The generators of the resources. *)
Definition ID_GENERATORS : list string :=
  ["generic"; "table_id"; "database_id"; "dictionary_id"; "share_id"; "share_endpoint_id"; "index_id";
   "data_mask"; "table_lock_id"; "background_job"; "catalog_id"; "procedure_id"].

(** ** Principals *)

Record ProcedureIdentity := { proc_name : string; proc_args : string }.
#[export] Instance procedure_identity_codec : KeyCodec ProcedureIdentity := {|
  encode_key k b := push_str (proc_args k) (push_str (proc_name k) b);
  decode_key :=
    name ← next_str;
    args ← next_str;
    mret {| proc_name := name; proc_args := args |};
|}.

Record StageFilePath := { stage : string; path : string }.
#[export] Instance stage_file_path_codec : KeyCodec StageFilePath := {|
  encode_key k b := push_str (path k) (push_str (stage k) b);
  decode_key :=
    stage ← next_str;
    path ← next_str;
    mret {| stage := stage; path := path |};
|}.

Record UserSessionId := { user_name : string; session_id : string }.
#[export] Instance user_session_id_codec : KeyCodec UserSessionId := {|
  encode_key k b := push_str (session_id k) (push_str (user_name k) b);
  decode_key :=
    user_name ← next_str;
    session_id ← next_str;
    mret {| user_name := user_name; session_id := session_id |};
|}.

Record UserIdentity := { username : string; hostname : string }.

Definition quote : Ascii.ascii := byte 39.
Definition at_sign : Ascii.ascii := byte 64.
Definition USER_ESCAPE_CHARS : list Ascii.ascii := [quote; at_sign].

(** [s.splitn(2, c)] when it gives two parts. *)
Fixpoint split_once (c : Ascii.ascii) (s : string) : option (string * string) :=
  match s with
  | EmptyString => None
  | String a s =>
      if decide (a = c) then Some (EmptyString, s)
      else '(l, r) ← split_once c s; Some (String a l, r)
  end.

Fixpoint trim_start_matches (c : Ascii.ascii) (s : string) : string :=
  match s with
  | EmptyString => EmptyString
  | String a s' => if decide (a = c) then trim_start_matches c s' else s
  end.
(** [trim_end_matches]: only what is left when the rest is all [c] is dropped. *)
Fixpoint trim_end_matches (c : Ascii.ascii) (s : string) : string :=
  match s with
  | EmptyString => EmptyString
  | String a s =>
      match trim_end_matches c s with
      | EmptyString => if decide (a = c) then EmptyString else String a EmptyString
      | t => String a t
      end
  end.
Definition trim_matches (c : Ascii.ascii) (s : string) : string :=
  trim_end_matches c (trim_start_matches c s).

Definition user_parse (s : string) : KeyResult UserIdentity :=
  match split_once at_sign s with
  | None => KErr (WrongNumberOfSegments 2 s)
  | Some (l, r) =>
      username ← unescape_specified (trim_matches quote l) USER_ESCAPE_CHARS;
      hostname ← unescape_specified (trim_matches quote r) USER_ESCAPE_CHARS;
      KOk {| username := username; hostname := hostname |}
  end.

Definition quoted (s : string) (rest : string) : string := String quote (s +:+ String quote rest).

(** ['<username>'@'<hostname>']. *)
Definition user_encode (u : UserIdentity) : string :=
  quoted (escape_specified (username u) USER_ESCAPE_CHARS)
    (String at_sign (quoted (escape_specified (hostname u) USER_ESCAPE_CHARS) EmptyString)).

#[export] Instance user_identity_codec : KeyCodec UserIdentity := {|
  encode_key u := push_str (user_encode u);
  decode_key := s ← next_str; p_lift (user_parse s);
|}.

Inductive OwnershipObject :=
| OwnDatabase (catalog_name : string) (db_id : N)
| OwnTable (catalog_name : string) (db_id table_id : N)
| OwnStage (name : string)
| OwnUDF (name : string)
| OwnWarehouse (id : string).

Definition DEFAULT_CATALOG : string := "default".
Definition OWNERSHIP_EXPECT : string :=
  "database-by-id|database-by-catalog-id|table-by-id|table-by-catalog-id|stage-by-name|udf-by-name|warehouse-by-id".

Definition ownership_encode (o : OwnershipObject) (b : KeyBuilder) : KeyBuilder :=
  match o with
  | OwnDatabase catalog_name db_id =>
      if decide (catalog_name = DEFAULT_CATALOG) then push_u64 db_id (push_raw "database-by-id" b)
      else push_u64 db_id (push_str catalog_name (push_raw "database-by-catalog-id" b))
  | OwnTable catalog_name _ table_id =>
      if decide (catalog_name = DEFAULT_CATALOG) then push_u64 table_id (push_raw "table-by-id" b)
      else push_u64 table_id (push_str catalog_name (push_raw "table-by-catalog-id" b))
  | OwnStage name => push_str name (push_raw "stage-by-name" b)
  | OwnUDF name => push_str name (push_raw "udf-by-name" b)
  | OwnWarehouse id => push_str id (push_raw "warehouse-by-id" b)
  end.

(** The table's [db_id] is not in the key. *)
Definition ownership_decode : P OwnershipObject :=
  q ← next_raw;
  if decide (q = "database-by-id") then db_id ← next_u64; mret (OwnDatabase DEFAULT_CATALOG db_id)
  else if decide (q = "database-by-catalog-id") then
    catalog_name ← next_str; db_id ← next_u64; mret (OwnDatabase catalog_name db_id)
  else if decide (q = "table-by-id") then table_id ← next_u64; mret (OwnTable DEFAULT_CATALOG 0 table_id)
  else if decide (q = "table-by-catalog-id") then
    catalog_name ← next_str; table_id ← next_u64; mret (OwnTable catalog_name 0 table_id)
  else if decide (q = "stage-by-name") then name ← next_str; mret (OwnStage name)
  else if decide (q = "udf-by-name") then name ← next_str; mret (OwnUDF name)
  else if decide (q = "warehouse-by-id") then id ← next_str; mret (OwnWarehouse id)
  else p ← p_get; p_lift (KErr (InvalidSegment (kp_i p - 1) OWNERSHIP_EXPECT q)).

#[export] Instance ownership_codec : KeyCodec OwnershipObject :=
  {| encode_key := ownership_encode; decode_key := ownership_decode |}.

(** ** The key spaces *)

Definition background_job_id_rsc : TenantResource := {| RSC_PREFIX := "__fd_background_job_by_id"; HAS_TENANT := false |}.
Abbreviation BackgroundJobIdIdent := (TIdent background_job_id_rsc DataId).
Definition background_job_rsc : TenantResource := {| RSC_PREFIX := "__fd_background_job"; HAS_TENANT := true |}.
Abbreviation BackgroundJobIdent := (TIdent background_job_rsc string).
Definition background_task_rsc : TenantResource := {| RSC_PREFIX := "__fd_background_task_by_name"; HAS_TENANT := true |}.
Abbreviation BackgroundTaskIdent := (TIdent background_task_rsc string).
Definition data_mask_id_rsc : TenantResource := {| RSC_PREFIX := "__fd_datamask_by_id"; HAS_TENANT := false |}.
Abbreviation DataMaskIdIdent := (TIdent data_mask_id_rsc DataId).
Definition data_mask_name_rsc : TenantResource := {| RSC_PREFIX := "__fd_datamask"; HAS_TENANT := true |}.
Abbreviation DataMaskNameIdent := (TIdent data_mask_name_rsc string).
Definition mask_policy_table_id_list_rsc : TenantResource := {| RSC_PREFIX := "__fd_datamask_id_list"; HAS_TENANT := true |}.
Abbreviation MaskPolicyTableIdListIdent := (TIdent mask_policy_table_id_list_rsc string).
Definition client_session_rsc : TenantResource := {| RSC_PREFIX := "__fd_session"; HAS_TENANT := true |}.
Abbreviation ClientSessionIdent := (TIdent client_session_rsc UserSessionId).
Definition connection_rsc : TenantResource := {| RSC_PREFIX := "__fd_connection"; HAS_TENANT := true |}.
Abbreviation ConnectionIdent := (TIdent connection_rsc string).
Definition network_policy_rsc : TenantResource := {| RSC_PREFIX := "__fd_network_policies"; HAS_TENANT := true |}.
Abbreviation NetworkPolicyIdent := (TIdent network_policy_rsc string).
Definition password_policy_rsc : TenantResource := {| RSC_PREFIX := "__fd_password_policies"; HAS_TENANT := true |}.
Abbreviation PasswordPolicyIdent := (TIdent password_policy_rsc string).
Definition procedure_id_rsc : TenantResource := {| RSC_PREFIX := "__fd_procedure_by_id"; HAS_TENANT := false |}.
Abbreviation ProcedureIdIdent := (TIdent procedure_id_rsc DataId).
Definition procedure_id_to_name_rsc : TenantResource := {| RSC_PREFIX := "__fd_procedure_id_to_name"; HAS_TENANT := false |}.
Abbreviation ProcedureIdToNameIdent := (TIdent procedure_id_to_name_rsc DataId).
Definition procedure_name_rsc : TenantResource := {| RSC_PREFIX := "__fd_procedure"; HAS_TENANT := true |}.
Abbreviation ProcedureNameIdent := (TIdent procedure_name_rsc ProcedureIdentity).
Definition role_rsc : TenantResource := {| RSC_PREFIX := "__fd_roles"; HAS_TENANT := true |}.
Abbreviation RoleIdent := (TIdent role_rsc string).
Definition stage_file_rsc : TenantResource := {| RSC_PREFIX := "__fd_stage_files"; HAS_TENANT := true |}.
Abbreviation StageFileIdent := (TIdent stage_file_rsc StageFilePath).
Definition tenant_ownership_object_rsc : TenantResource := {| RSC_PREFIX := "__fd_object_owners"; HAS_TENANT := true |}.
Abbreviation TenantOwnershipObjectIdent := (TIdent tenant_ownership_object_rsc OwnershipObject).
Definition tenant_user_rsc : TenantResource := {| RSC_PREFIX := "__fd_users"; HAS_TENANT := true |}.
Abbreviation TenantUserIdent := (TIdent tenant_user_rsc UserIdentity).
Definition udf_rsc : TenantResource := {| RSC_PREFIX := "__fd_udfs"; HAS_TENANT := true |}.
Abbreviation UdfIdent := (TIdent udf_rsc string).
Definition user_defined_file_format_rsc : TenantResource := {| RSC_PREFIX := "__fd_file_formats"; HAS_TENANT := true |}.
Abbreviation UserDefinedFileFormatIdent := (TIdent user_defined_file_format_rsc string).
Definition setting_rsc : TenantResource := {| RSC_PREFIX := "__fd_settings"; HAS_TENANT := true |}.
Abbreviation SettingIdent := (TIdent setting_rsc string).
Definition stage_rsc : TenantResource := {| RSC_PREFIX := "__fd_stages"; HAS_TENANT := true |}.
Abbreviation StageIdent := (TIdent stage_rsc string).
Definition token_rsc : TenantResource := {| RSC_PREFIX := "__fd_token"; HAS_TENANT := true |}.
Abbreviation TokenIdent := (TIdent token_rsc string).
Definition catalog_id_rsc : TenantResource := {| RSC_PREFIX := "__fd_catalog_by_id"; HAS_TENANT := false |}.
Abbreviation CatalogIdIdent := (TIdent catalog_id_rsc DataId).
Definition catalog_id_to_name_rsc : TenantResource := {| RSC_PREFIX := "__fd_catalog_id_to_name"; HAS_TENANT := false |}.
Abbreviation CatalogIdToNameIdent := (TIdent catalog_id_to_name_rsc DataId).
Definition catalog_name_rsc : TenantResource := {| RSC_PREFIX := "__fd_catalog"; HAS_TENANT := true |}.
Abbreviation CatalogNameIdent := (TIdent catalog_name_rsc string).
Definition database_id_history_rsc : TenantResource := {| RSC_PREFIX := "__fd_db_id_list"; HAS_TENANT := true |}.
Abbreviation DatabaseIdHistoryIdent := (TIdent database_id_history_rsc string).
Definition database_name_rsc : TenantResource := {| RSC_PREFIX := "__fd_database"; HAS_TENANT := true |}.
Abbreviation DatabaseNameIdent := (TIdent database_name_rsc string).
Definition dictionary_id_rsc : TenantResource := {| RSC_PREFIX := "__fd_dictionary_by_id"; HAS_TENANT := false |}.
Abbreviation DictionaryIdIdent := (TIdent dictionary_id_rsc DataId).
Definition dictionary_name_rsc : TenantResource := {| RSC_PREFIX := "__fd_dictionaries"; HAS_TENANT := true |}.
Abbreviation DictionaryNameIdent := (TIdent dictionary_name_rsc DictionaryIdentity).
Definition index_id_rsc : TenantResource := {| RSC_PREFIX := "__fd_index_by_id"; HAS_TENANT := false |}.
Abbreviation IndexIdIdent := (TIdent index_id_rsc DataId).
Definition index_id_to_name_rsc : TenantResource := {| RSC_PREFIX := "__fd_index_id_to_name"; HAS_TENANT := false |}.
Abbreviation IndexIdToNameIdent := (TIdent index_id_to_name_rsc DataId).
Definition index_name_rsc : TenantResource := {| RSC_PREFIX := "__fd_index"; HAS_TENANT := true |}.
Abbreviation IndexNameIdent := (TIdent index_name_rsc string).
Definition least_visible_time_rsc : TenantResource := {| RSC_PREFIX := "__fd_table_lvt"; HAS_TENANT := false |}.
Abbreviation LeastVisibleTimeIdent := (TIdent least_visible_time_rsc N).
Definition marked_deleted_index_id_rsc : TenantResource := {| RSC_PREFIX := "__fd_marked_deleted_index"; HAS_TENANT := false |}.
Abbreviation MarkedDeletedIndexIdIdent := (TIdent marked_deleted_index_id_rsc MarkedDeletedIndexId).
Definition marked_deleted_table_index_id_rsc : TenantResource := {| RSC_PREFIX := "__fd_marked_deleted_table_index"; HAS_TENANT := false |}.
Abbreviation MarkedDeletedTableIndexIdIdent := (TIdent marked_deleted_table_index_id_rsc MarkedDeletedTableIndexId).
Definition sequence_rsc : TenantResource := {| RSC_PREFIX := "__fd_sequence"; HAS_TENANT := true |}.
Abbreviation SequenceIdent := (TIdent sequence_rsc string).
Definition table_lock_rsc : TenantResource := {| RSC_PREFIX := "__fd_table_lock"; HAS_TENANT := true |}.
Abbreviation TableLockIdent := (TIdent table_lock_rsc TableIdRevision).
Definition virtual_column_rsc : TenantResource := {| RSC_PREFIX := "__fd_virtual_column"; HAS_TENANT := true |}.
Abbreviation VirtualColumnIdent := (TIdent virtual_column_rsc N).
Definition tenant_quota_rsc : TenantResource := {| RSC_PREFIX := "__fd_quotas"; HAS_TENANT := true |}.
Abbreviation TenantQuotaIdent := (TIdent tenant_quota_rsc unit).

(** All prefixes of keys. *)
Definition RESOURCES : list TenantResource := [
  background_job_id_rsc; background_job_rsc; background_task_rsc; data_mask_id_rsc;
  data_mask_name_rsc; mask_policy_table_id_list_rsc; client_session_rsc; connection_rsc;
  network_policy_rsc; password_policy_rsc; procedure_id_rsc; procedure_id_to_name_rsc;
  procedure_name_rsc; role_rsc; stage_file_rsc; tenant_ownership_object_rsc; tenant_user_rsc;
  udf_rsc; user_defined_file_format_rsc; setting_rsc; stage_rsc; token_rsc; catalog_id_rsc;
  catalog_id_to_name_rsc; catalog_name_rsc; database_id_history_rsc; database_name_rsc;
  dictionary_id_rsc; dictionary_name_rsc; index_id_rsc; index_id_to_name_rsc; index_name_rsc;
  least_visible_time_rsc; marked_deleted_index_id_rsc; marked_deleted_table_index_id_rsc;
  sequence_rsc; table_lock_rsc; virtual_column_rsc; tenant_quota_rsc].
Definition ALL_PREFIXES : list string :=
  [KEY_PREFIX Tenant; KEY_PREFIX DatabaseId; KEY_PREFIX DatabaseIdToName; KEY_PREFIX DBIdTableName;
   KEY_PREFIX TableIdToName; KEY_PREFIX TableId; KEY_PREFIX TableIdHistoryIdent;
   KEY_PREFIX TableCopiedFileNameIdent; KEY_PREFIX IdGenerator] ++ (RSC_PREFIX <$> RESOURCES).
