(* ===== verification/AppKeysProofs.v ===== *)
(** The codecs of the application keys are lawful. *)

From stdpp Require Import base orders sorting strings gmap numbers list.
From S2P Require Import Prelude BTree RustStr KeyCodec KeyCodecProofs AppKeys.
Local Open Scope N_scope.

Lemma parses_step {A B} (c : P A) (k : A → P B) s segs a b :
  parses c [s] a → parses (k a) segs b → parses (c ≫= k) (s :: segs) b.
Proof. exact (parses_bind c k [s] segs a b). Qed.

(** Codecs that read one segment per field. *)
Ltac solve_parses :=
  lazymatch goal with
  | |- parses (mret _) [] _ => apply parses_ret
  | |- parses (mbind _ _) (_ :: _) _ =>
      eapply parses_step; [auto with datafuse|cbv beta; solve_parses]
  end.
Ltac solve_codec_laws :=
  lazymatch goal with
  | |- ∀ k b, _ = push_all _ _ => done
  | |- ∀ k, _ → Forall _ _ => intros k _; repeat constructor; auto with datafuse
  | |- ∀ k, _ → parses _ _ _ =>
      intros [] ?; cbn -[id_ok str_ok mbind dec_string escape] in *; destruct_and?; unfold str_ok, id_ok in *; solve_parses
  end.

#[export, refine] Instance tenant_codec_laws : KeyCodecLaws Tenant :=
  {| key_ok t := str_ok (tenant t) ∧ tenant t ≠ EmptyString; key_segs t := [escape (tenant t)] |}.
Proof. all: solve_codec_laws. Defined.

#[export, refine] Instance data_id_codec_laws : KeyCodecLaws DataId :=
  {| key_ok k := id_ok (data_id k); key_segs k := [dec_string (data_id k)] |}.
Proof. all: solve_codec_laws. Defined.

#[export, refine] Instance database_id_codec_laws : KeyCodecLaws DatabaseId :=
  {| key_ok k := id_ok (did_db_id k); key_segs k := [dec_string (did_db_id k)] |}.
Proof. all: solve_codec_laws. Defined.

#[export, refine] Instance database_id_to_name_codec_laws : KeyCodecLaws DatabaseIdToName :=
  {| key_ok k := id_ok (ditn_db_id k); key_segs k := [dec_string (ditn_db_id k)] |}.
Proof. all: solve_codec_laws. Defined.

#[export, refine] Instance db_id_table_name_codec_laws : KeyCodecLaws DBIdTableName :=
  {| key_ok k := id_ok (db_id k) ∧ str_ok (table_name k);
     key_segs k := [dec_string (db_id k); escape (table_name k)] |}.
Proof. all: solve_codec_laws. Defined.

#[export, refine] Instance table_id_to_name_codec_laws : KeyCodecLaws TableIdToName :=
  {| key_ok k := id_ok (titn_table_id k); key_segs k := [dec_string (titn_table_id k)] |}.
Proof. all: solve_codec_laws. Defined.

#[export, refine] Instance table_id_codec_laws : KeyCodecLaws TableId :=
  {| key_ok k := id_ok (table_id k); key_segs k := [dec_string (table_id k)] |}.
Proof. all: solve_codec_laws. Defined.

#[export, refine] Instance table_id_history_codec_laws : KeyCodecLaws TableIdHistoryIdent :=
  {| key_ok k := id_ok (database_id k) ∧ str_ok (history_table_name k);
     key_segs k := [dec_string (database_id k); escape (history_table_name k)] |}.
Proof. all: solve_codec_laws. Defined.

#[export, refine] Instance table_id_revision_codec_laws : KeyCodecLaws TableIdRevision :=
  {| key_ok k := id_ok (rev_table_id k) ∧ id_ok (revision k);
     key_segs k := [dec_string (rev_table_id k); dec_string (revision k)] |}.
Proof. all: solve_codec_laws. Defined.

#[export, refine] Instance marked_deleted_index_codec_laws : KeyCodecLaws MarkedDeletedIndexId :=
  {| key_ok k := id_ok (mdi_table_id k) ∧ id_ok (mdi_index_id k);
     key_segs k := [dec_string (mdi_table_id k); dec_string (mdi_index_id k)] |}.
Proof. all: solve_codec_laws. Defined.

#[export, refine] Instance marked_deleted_table_index_codec_laws : KeyCodecLaws MarkedDeletedTableIndexId :=
  {| key_ok k := id_ok (mdt_table_id k) ∧ str_ok (index_name k) ∧ str_ok (index_version k);
     key_segs k := [dec_string (mdt_table_id k); escape (index_name k); escape (index_version k)] |}.
Proof. all: solve_codec_laws. Defined.

#[export, refine] Instance dictionary_identity_codec_laws : KeyCodecLaws DictionaryIdentity :=
  {| key_ok k := id_ok (dict_db_id k) ∧ str_ok (dict_name k);
     key_segs k := [dec_string (dict_db_id k); escape (dict_name k)] |}.
Proof. all: solve_codec_laws. Defined.

#[export, refine] Instance procedure_identity_codec_laws : KeyCodecLaws ProcedureIdentity :=
  {| key_ok k := str_ok (proc_name k) ∧ str_ok (proc_args k);
     key_segs k := [escape (proc_name k); escape (proc_args k)] |}.
Proof. all: solve_codec_laws. Defined.

#[export, refine] Instance stage_file_path_codec_laws : KeyCodecLaws StageFilePath :=
  {| key_ok k := str_ok (stage k) ∧ str_ok (path k);
     key_segs k := [escape (stage k); escape (path k)] |}.
Proof. all: solve_codec_laws. Defined.

#[export, refine] Instance user_session_id_codec_laws : KeyCodecLaws UserSessionId :=
  {| key_ok k := str_ok (user_name k) ∧ str_ok (session_id k);
     key_segs k := [escape (user_name k); escape (session_id k)] |}.
Proof. all: solve_codec_laws. Defined.

(** The resource is not escaped: it must be a segment itself. *)
#[export, refine] Instance id_generator_codec_laws : KeyCodecLaws IdGenerator :=
  {| key_ok k := str_ok (resource k) ∧ segment (resource k); key_segs k := [resource k] |}.
Proof.
  - done.
  - intros k [_ ?]. by repeat constructor.
  - intros k [? _]. by repeat constructor.
  - intros [] [? ?]. cbn in *. solve_parses.
Defined.

(** A key without a tenant decodes to the tenant [dummy]. *)
#[export, refine] Instance tident_codec_laws r `{!KeyCodec T, !KeyCodecLaws T} : KeyCodecLaws (TIdent r T) :=
  {| key_ok k := key_ok (tident_name k) ∧
       if HAS_TENANT r then key_ok (tident_tenant k) else tenant (tident_tenant k) = "dummy";
     key_segs k := (if HAS_TENANT r then [escape (tenant (tident_tenant k))] else []) ++
       key_segs (tident_name k) |}.
Proof.
  - intros k b. rewrite push_all_app. cbn. unfold tident_encode. rewrite encode_segs.
    by destruct (HAS_TENANT r).
  - intros k [Hn _]. apply Forall_app_2; [|by apply segs_segment].
    destruct (HAS_TENANT r); repeat constructor; auto with datafuse.
  - intros k [Hn _]. apply Forall_app_2; [|by apply segs_utf8].
    destruct (HAS_TENANT r); repeat constructor; auto with datafuse.
  - intros [[t] n] [Hn Ht]. cbn in *. unfold tident_decode. destruct (HAS_TENANT r).
    + destruct Ht as [Ht Hne]. eapply (parses_bind _ _ [_]); [by apply parses_next_nonempty|].
      eapply parses_map; [by apply decode_segs|done].
    + subst t. eapply (parses_bind _ _ []); [apply parses_ret|].
      eapply parses_map; [by apply decode_segs|done].
Defined.

(** ** Owned objects *)

Definition ownership_segs (o : OwnershipObject) : list string :=
  match o with
  | OwnDatabase c d =>
      if decide (c = DEFAULT_CATALOG) then ["database-by-id"; dec_string d]
      else ["database-by-catalog-id"; escape c; dec_string d]
  | OwnTable c _ t =>
      if decide (c = DEFAULT_CATALOG) then ["table-by-id"; dec_string t]
      else ["table-by-catalog-id"; escape c; dec_string t]
  | OwnStage n => ["stage-by-name"; escape n]
  | OwnUDF n => ["udf-by-name"; escape n]
  | OwnWarehouse i => ["warehouse-by-id"; escape i]
  end.

(** The database of a table is not in the key, so it has to be 0. *)
Definition ownership_ok (o : OwnershipObject) : Prop :=
  match o with
  | OwnDatabase c d => str_ok c ∧ id_ok d
  | OwnTable c d t => str_ok c ∧ d = 0 ∧ id_ok t
  | OwnStage n | OwnUDF n | OwnWarehouse n => str_ok n
  end.

Lemma ownership_encode_segs o b : ownership_encode o b = push_all (ownership_segs o) b.
Proof. by destruct o; cbn; try case_decide. Qed.

(** The first segment selects the branch of the decoder. *)
Ltac solve_ownership :=
  eapply parses_step; [apply parses_next_raw|cbv beta];
  repeat (rewrite decide_False by done); rewrite decide_True by done; solve_parses.

#[export, refine] Instance ownership_codec_laws : KeyCodecLaws OwnershipObject :=
  {| key_ok := ownership_ok; key_segs := ownership_segs |}.
Proof.
  - exact ownership_encode_segs.
  - intros o _. destruct o; cbn -[escape dec_string]; try case_decide; repeat constructor; auto with datafuse.
  - intros o _. destruct o; cbn -[escape dec_string]; try case_decide; repeat constructor; auto with datafuse.
  - intros o Hk. cbn [decode_key ownership_codec]. unfold ownership_decode.
    destruct o as [c d|c d t|n|n|i]; cbn [ownership_ok ownership_segs] in *;
      unfold str_ok, id_ok in *; destruct_and?; subst; try case_decide; subst; solve_ownership.
Defined.

(** ** Users *)

Fixpoint lacks (c : Ascii.ascii) (s : string) : bool :=
  match s with EmptyString => true | String a s => bool_decide (a ≠ c) && lacks c s end.

Lemma lacks_cons c a s : lacks c (String a s) = true ↔ a ≠ c ∧ lacks c s = true.
Proof. cbn. rewrite andb_true_iff. by rewrite bool_decide_eq_true. Qed.

Lemma hex_not n m : n < 16 → m < 48 → hex n ≠ byte m.
Proof. intros. apply plain_not; [by apply hex_plain|done]. Qed.

Lemma hex_not_at n : n < 16 → hex n ≠ at_sign.
Proof.
  intros Hn E%(f_equal (λ a, is_plain a)). rewrite hex_plain in E by done. by vm_compute in E.
Qed.

Lemma escape_specified_lacks s :
  lacks quote (escape_specified s USER_ESCAPE_CHARS) = true ∧
  lacks at_sign (escape_specified s USER_ESCAPE_CHARS) = true.
Proof.
  induction s as [|a s [IH1 IH2]]; [done|]. cbn [escape_specified]. case_decide as Ha.
  - destruct (hex_byte a) as (h & l & Eh & El & Hh & Hl & _). unfold escape_byte. rewrite Eh, El.
    rewrite !lacks_cons. split_and!; try done; try (by apply hex_not); by apply hex_not_at.
  - rewrite !lacks_cons. unfold USER_ESCAPE_CHARS in Ha.
    rewrite !not_elem_of_cons in Ha. naive_solver.
Qed.

Lemma unescape_specified_escape s :
  lacks percent s = true →
  unescape_specified_go (escape_specified s USER_ESCAPE_CHARS) USER_ESCAPE_CHARS = KOk s.
Proof.
  induction s as [|a s IH]; [done|]. rewrite lacks_cons. intros [Hp Hs]. cbn [escape_specified].
  case_decide as Ha.
  - destruct (hex_byte a) as (h & l & Eh & El & Hh & Hl & Ea). unfold escape_byte.
    cbn [unescape_specified_go]. rewrite decide_True, Eh, El, !hex_unhex, IH by done.
    cbn [opt_panic mbind KeyResult_bind]. by rewrite Ea, decide_True.
  - cbn [unescape_specified_go]. by rewrite decide_False, IH by done.
Qed.

Lemma split_once_lacks c s t : lacks c s = true → split_once c (s +:+ String c t) = Some (s, t).
Proof.
  induction s as [|a s IH]; intros Hs; cbn [split_once String.append].
  - change (split_once c (String c t) = Some (EmptyString, t)). cbn [split_once]. by rewrite decide_True.
  - apply lacks_cons in Hs as [Ha Hs]. rewrite str_app_cons. cbn [split_once].
    by rewrite decide_False, IH by done.
Qed.

Lemma trim_end_lacks c s : lacks c s = true → trim_end_matches c (s +:+ String c EmptyString) = s.
Proof.
  induction s as [|a s IH]; intros Hs.
  - change (trim_end_matches c (String c EmptyString) = EmptyString). cbn. by rewrite decide_True.
  - apply lacks_cons in Hs as [Ha Hs]. rewrite str_app_cons. cbn [trim_end_matches]. rewrite IH by done.
    destruct s; [by rewrite decide_False|done].
Qed.

Lemma trim_quoted s : lacks quote s = true → trim_matches quote (quoted s EmptyString) = s.
Proof.
  intros Hs. unfold trim_matches, quoted. cbn [trim_start_matches]. rewrite decide_True by done.
  destruct s as [|a s]; [done|]. pose proof Hs as [Ha _]%lacks_cons.
  rewrite str_app_cons. cbn [trim_start_matches]. rewrite decide_False by done.
  rewrite <-str_app_cons. by apply trim_end_lacks.
Qed.

Definition user_ok (u : UserIdentity) : Prop :=
  str_ok (username u) ∧ lacks percent (username u) = true ∧
  str_ok (hostname u) ∧ lacks percent (hostname u) = true.

Lemma user_parse_encode u : user_ok u → user_parse (user_encode u) = KOk u.
Proof.
  destruct u as [u h]. intros (Hu & Lu & Hh & Lh). cbn [username hostname] in *. unfold user_parse, user_encode.
  cbn [username hostname]. destruct (escape_specified_lacks u) as [Qu Au], (escape_specified_lacks h) as [Qh _].
  assert (split_once at_sign (quoted (escape_specified u USER_ESCAPE_CHARS)
      (String at_sign (quoted (escape_specified h USER_ESCAPE_CHARS) EmptyString))) =
    Some (quoted (escape_specified u USER_ESCAPE_CHARS) EmptyString,
          quoted (escape_specified h USER_ESCAPE_CHARS) EmptyString)) as ->.
  { unfold quoted. rewrite <-(split_once_lacks at_sign (String quote (escape_specified u USER_ESCAPE_CHARS
      +:+ String quote EmptyString))).
    - f_equal. rewrite str_app_cons, <-str_app_assoc. done.
    - apply lacks_cons. split; [done|]. clear -Au.
      induction (escape_specified u USER_ESCAPE_CHARS) as [|a s IH]; [done|].
      rewrite str_app_cons. apply lacks_cons in Au as [? ?]. apply lacks_cons. auto. }
  unfold unescape_specified, check_utf8. rewrite !trim_quoted, !unescape_specified_escape by done.
  cbn [mbind KeyResult_bind]. by rewrite !from_utf8_Some.
Qed.

(** Escaping ASCII bytes of a UTF-8 string gives a UTF-8 string. *)
Lemma escape_specified_app s t chars :
  escape_specified (s +:+ t) chars = escape_specified s chars +:+ escape_specified t chars.
Proof.
  induction s as [|a s IH]; [done|]. rewrite str_app_cons. cbn [escape_specified]. rewrite IH.
  case_decide; [|done]. unfold escape_byte. by rewrite !str_app_cons.
Qed.

Lemma utf8_bytes_high c a b l : utf8_bytes c = a :: b :: l → Forall (λ x, 128 ≤ x) (a :: b :: l).
Proof.
  unfold utf8_bytes. repeat case_match; intros [= <- <- <-]; repeat constructor;
    match goal with |- _ ≤ ?x + ?y => pose proof (N.le_0_l y); generalize dependent y; intros; lia end.
Qed.

Lemma escape_specified_high l chars :
  Forall (λ x, 128 ≤ x < 256) l → Forall (λ a, byte_of a < 128) chars →
  escape_specified (of_bytes l) chars = of_bytes l.
Proof.
  intros Hl Hc. induction Hl as [|x l Hx Hl IH]; [done|]. cbn [of_bytes escape_specified].
  rewrite decide_False, IH; [done|]. intros Hin. rewrite Forall_forall in Hc. specialize (Hc _ Hin).
  rewrite byte_of_byte in Hc by lia. lia.
Qed.

Lemma to_of_bytes l : Forall (λ x, x < 256) l → to_bytes (of_bytes l) = l.
Proof. induction 1 as [|x l Hx _ IH]; [done|]. cbn. by rewrite IH, byte_of_byte. Qed.

(** One character is a UTF-8 string. *)
Lemma one_char_utf8 bs c : Forall (λ x, x < 256) bs → decode_char bs = Some c → is_utf8 (of_bytes bs) = true.
Proof.
  intros Hbs Hd. unfold is_utf8, chars. apply bool_decide_eq_true_2. rewrite to_of_bytes by done.
  destruct bs as [|a bs]; [done|]. exists [c]. cbn [of_bytes String.length decode_chars].
  pose proof (decode_char_Some _ _ Hd) as [Hs Hb]. pose proof (utf8_bytes_width c a bs Hs Hb) as Hw.
  rewrite take_ge, drop_ge by (cbn; lia). rewrite Hd. by destruct (String.length (of_bytes bs)).
Qed.

Lemma escape_byte_utf8 a s : is_utf8 s = true → is_utf8 (escape_byte a s) = true.
Proof.
  intros Hs. destruct (hex_byte a) as (h & l & Eh & El & Hh & Hl & _). unfold escape_byte. rewrite Eh, El.
  repeat apply utf8_cons; try done; by apply plain_ascii, hex_plain.
Qed.

Lemma escape_specified_utf8_go chars fuel bs cs :
  Forall (λ a, byte_of a < 128) chars → Forall (λ x, x < 256) bs →
  decode_chars fuel bs = Some cs → is_utf8 (escape_specified (of_bytes bs) chars) = true.
Proof.
  intros Hc. revert bs cs. induction fuel as [|fuel IH]; intros [|a bs] cs Hb Hd; [done..|].
  cbn [decode_chars] in Hd. apply bind_Some in Hd as (c & Hd & (cs' & Hcs & _)%bind_Some).
  set (w := utf8_width a) in *. rewrite <-(take_drop w (a :: bs)) in Hb |- *.
  apply Forall_app in Hb as [Hb1 Hb2]. rewrite of_bytes_app, escape_specified_app.
  specialize (IH _ _ Hb2 Hcs). pose proof (one_char_utf8 _ _ Hb1 Hd) as Hone.
  pose proof (decode_char_Some _ _ Hd) as [_ Hu].
  destruct (take w (a :: bs)) as [|x [|y l]] eqn:E.
  - exact IH.
  - cbn [of_bytes escape_specified]. case_decide; [|by apply (utf8_app (of_bytes [x]))].
    by apply (utf8_app (escape_byte (byte x) EmptyString)); [apply escape_byte_utf8|].
  - apply utf8_app; [|done]. rewrite escape_specified_high; [done| |done].
    pose proof (utf8_bytes_high _ _ _ _ Hu) as Hh. rewrite Forall_forall in Hb1, Hh |- *.
    intros z Hz. split; [by apply Hh|by apply Hb1].
Qed.

Lemma to_bytes_bound s : Forall (λ x, x < 256) (to_bytes s).
Proof. induction s as [|a s IH]; constructor; [apply byte_of_lt|done]. Qed.

Lemma escape_specified_utf8 s chars :
  Forall (λ a, byte_of a < 128) chars → is_utf8 s = true → is_utf8 (escape_specified s chars) = true.
Proof.
  intros Hc [cs Hs]%bool_decide_eq_true. rewrite <-(of_to_bytes s).
  by eapply escape_specified_utf8_go; [|apply to_bytes_bound|].
Qed.

Lemma user_encode_utf8 u : str_ok (username u) → str_ok (hostname u) → is_utf8 (user_encode u) = true.
Proof.
  intros Hu Hh. assert (Forall (λ a, byte_of a < 128) USER_ESCAPE_CHARS) as Hc by by repeat constructor.
  assert (∀ s, str_ok s → is_utf8 (escape_specified s USER_ESCAPE_CHARS) = true) as He
    by (intros; by apply escape_specified_utf8).
  unfold user_encode, quoted. apply utf8_cons; [done|]. apply utf8_app; [by apply He|].
  repeat (apply utf8_cons; [done|]). apply utf8_app; [by apply He|]. done.
Qed.

#[export, refine] Instance user_identity_codec_laws : KeyCodecLaws UserIdentity :=
  {| key_ok := user_ok; key_segs u := [escape (user_encode u)] |}.
Proof.
  - done.
  - intros u _. repeat constructor. auto with datafuse.
  - intros u _. repeat constructor. auto with datafuse.
  - intros u (Hu & Lu & Hh & Lh). eapply parses_step; [by apply parses_next_str, user_encode_utf8|].
    by apply parses_lift, user_parse_encode.
Defined.

(** ** Copied files: the tail of the key is not escaped *)

Lemma utf8_head a s : is_utf8 (String a s) = true → (128 <=? byte_of a) && (byte_of a <? 192) = false.
Proof.
  intros [cs Hs]%bool_decide_eq_true. unfold chars in Hs. cbn [String.length to_bytes decode_chars] in Hs.
  apply bind_Some in Hs as (c & Hd & _). apply decode_char_Some in Hd as [_ Hb].
  apply andb_false_iff. rewrite N.leb_gt, N.ltb_ge.
  assert (utf8_width (byte_of a) = S (pred (utf8_width (byte_of a)))) as Hw
    by (unfold utf8_width; by repeat case_match).
  rewrite Hw in Hb. cbn [take] in Hb. unfold utf8_bytes in Hb.
  destruct (c <? 0x80) eqn:E.
  - injection Hb as Hb _. apply N.ltb_lt in E. left. lia.
  - right. destruct (c <? 0x800); [|destruct (c <? 0x10000)]; injection Hb as Hb _; rewrite <-Hb;
      match goal with |- _ ≤ ?x + ?y => pose proof (N.le_0_l y); generalize dependent y; intros; lia end.
Qed.

Lemma str_from_app x s : is_utf8 s = true → str_from (String.length x) (x +:+ s) = Some s.
Proof.
  intros Hs. induction x as [|a x IH]; [|by rewrite str_app_cons].
  change (str_from 0 s = Some s). destruct s as [|a s]; [done|]. cbn [str_from]. by rewrite (utf8_head a s Hs).
Qed.

Definition copied_file_ok (k : TableCopiedFileNameIdent) : Prop := id_ok (copied_table_id k) ∧ str_ok (file k).

(** The part of the key before the file, with its last slash. *)
Definition copied_file_dir (t : N) : string :=
  KEY_PREFIX TableCopiedFileNameIdent +:+ String slash (dec_string t +:+ String slash EmptyString).

Lemma copied_file_key_eq k :
  copied_file_ok k → to_string_key k = KOk (copied_file_dir (copied_table_id k) +:+ file k).
Proof.
  destruct k as [t f]. intros [Ht Hf]. unfold to_string_key, builder_done. cbn [encode_key table_copied_file_codec copied_table_id file].
  change (push_raw f (push_u64 t (key_builder_prefixed (KEY_PREFIX TableCopiedFileNameIdent)))) with
    (push_all [dec_string t; f] (key_builder_prefixed (KEY_PREFIX TableCopiedFileNameIdent))).
  rewrite push_all_buf by done. rewrite from_utf8_Some.
  - cbn [opt_panic]. f_equal. unfold copied_file_dir. rewrite <-str_app_assoc, str_app_cons, <-str_app_assoc. done.
  - apply join_utf8. constructor; [done|]. constructor; [apply dec_string_utf8|by constructor].
Qed.

Lemma copied_file_parse k :
  copied_file_ok k → from_str_key (copied_file_dir (copied_table_id k) +:+ file k) = KOk k.
Proof.
  destruct k as [t f]. intros [Ht Hf]. cbn [copied_table_id file] in *. unfold from_str_key, key_parser_prefixed.
  set (src := copied_file_dir t +:+ f). set (pre := KEY_PREFIX TableCopiedFileNameIdent).
  assert (split_on slash src = pre :: dec_string t :: split_on slash f) as Hsplit.
  { unfold src, copied_file_dir. fold pre. rewrite <-str_app_assoc, str_app_cons, split_on_app by done.
    rewrite <-str_app_assoc, str_app_cons, split_on_app by apply dec_string_segment. done. }
  assert (next_literal pre (key_parser_new src) = ({| str_key := src; kp_i := 1;
    kp_index := 0 + (String.length pre + 1); elements := dec_string t :: split_on slash f |}, KOk tt)) as ->.
  { unfold next_literal, mbind, P_bind, p_get, next_raw. cbn [elements key_parser_new]. rewrite Hsplit.
    by rewrite decide_True. }
  cbn [mbind KeyResult_bind].
  cbn [decode_key table_copied_file_codec]. unfold next_u64, next_raw, p_lift, mbind, P_bind. cbn [elements].
  unfold decode_id. rewrite parse_u64_dec_string by done. cbn [str_key kp_i kp_index].
  unfold tail_raw, next_raw. cbn [elements str_key kp_index].
  destruct (split_on slash f) as [|x segs] eqn:E; [by destruct (split_on_nonempty slash f)|].
  cbn [elements str_key]. replace (0 + (String.length pre + 1) + (String.length (dec_string t) + 1))%nat
    with (String.length (copied_file_dir t)).
  2: { unfold copied_file_dir. fold pre. rewrite str_length_app. cbn [String.length].
       rewrite str_length_app. cbn [String.length]. lia. }
  unfold src. by rewrite str_from_app.
Qed.
