(* ===== verification/KeyTheorems.v ===== *)
(** What the keys promise: every key reads back from its string, the strings of
    different keys and of different key spaces differ, and a directory is the
    prefix of exactly the keys in it. *)

From stdpp Require Import base orders sorting strings gmap numbers list.
From S2P Require Import Prelude BTree RustStr KeyCodec KeyCodecProofs AppKeys AppKeysProofs.
Local Open Scope N_scope.

(** A key whose segments are those of another key has its string, and reads back as
    the other key. *)
Lemma key_reads_as `{!KeyCodec K, !Key K, !KeyCodecLaws K} (k k' : K) :
  prefix_ok (KEY_PREFIX K) → key_ok k' → key_segs k = key_segs k' →
  ∃ s, to_string_key k = KOk s ∧ from_str_key s = KOk k'.
Proof.
  intros Hp Hk E. exists (join_with slash (full_segs k')). split; [|by apply from_str_key_eq].
  rewrite <-to_string_key_eq by done. unfold to_string_key. by rewrite !encode_segs, E.
Qed.

Lemma all_prefixes_ok : Forall prefix_ok ALL_PREFIXES.
Proof.
  apply Forall_forall. intros p Hin. unfold prefix_ok, segment.
  assert (forallb (λ p, bool_decide (p ≠ EmptyString) && bool_decide (split_on slash p = [p]) && is_utf8 p)
    ALL_PREFIXES = true) as Hb by (vm_compute; reflexivity).
  rewrite forallb_forall in Hb. specialize (Hb p (proj1 (list_elem_of_In _ _) Hin)).
  rewrite !andb_true_iff, !bool_decide_eq_true in Hb. tauto.
Qed.

(** C28: Keys and strings correspond.  A key is in the domain of its codec ([key_ok])
    when its integers are [u64], its texts are UTF-8, its tenant is not empty, the
    resource of an id generator is one segment, and the parts of a user have no percent
    sign.  The string of such a key exists (building it does not panic), parses back to
    the same key, and is that of no other key of the type.  Two codecs write less than
    the key, which is then in the domain only if the rest has the value that decoding
    puts: the owner of a table reads back with the database 0 instead of its own, and a
    key of a resource without tenants reads back with the tenant [dummy].  Key spaces
    are disjoint: the prefixes of all the key spaces are pairwise different single
    segments, and two keys with the same string are of key spaces with the same
    prefix. *)
Theorem key_strings_faithful `{!KeyCodec K1, !Key K1, !KeyCodecLaws K1} `{!KeyCodec K2, !Key K2, !KeyCodecLaws K2}
    (k1 : K1) (k2 : K2) :
  (prefix_ok (KEY_PREFIX K1) → key_ok k1 →
   (∃ s, to_string_key k1 = KOk s ∧ from_str_key s = KOk k1) ∧
   ∀ k, key_ok k → to_string_key k = to_string_key k1 → k = k1) ∧
  (∀ t c d i, key_ok t → str_ok c → id_ok i →
   ∃ s, to_string_key (tident_new t (OwnTable c d i) : TenantOwnershipObjectIdent) = KOk s ∧
     from_str_key s = KOk (tident_new t (OwnTable c 0 i) : TenantOwnershipObjectIdent)) ∧
  (∀ r t, HAS_TENANT r = false → prefix_ok (RSC_PREFIX r) → key_ok k1 →
   ∃ s, to_string_key (tident_new t k1 : TIdent r K1) = KOk s ∧
     from_str_key s = KOk (tident_new {| tenant := "dummy" |} k1 : TIdent r K1)) ∧
  Forall prefix_ok ALL_PREFIXES ∧ NoDup ALL_PREFIXES ∧
  (KEY_PREFIX K1 ∈ ALL_PREFIXES → KEY_PREFIX K2 ∈ ALL_PREFIXES → key_ok k1 → key_ok k2 →
   to_string_key k1 = to_string_key k2 → KEY_PREFIX K1 = KEY_PREFIX K2).
Proof.
  pose proof all_prefixes_ok as Hall. split_and!; [| | |done| |].
  - intros Hp Hk. split; [by apply key_reads_as|]. intros k Hk' E. rewrite !to_string_key_eq in E by done.
    assert (join_with slash (full_segs k) = join_with slash (full_segs k1)) as Ej by congruence.
    pose proof (from_str_key_eq Hp k Hk') as H1. rewrite Ej, from_str_key_eq in H1 by done. by injection H1.
  - intros t c d i Ht Hc Hi. apply key_reads_as; [|split; [by split_and!|exact Ht]|done].
    apply (proj1 (Forall_forall _ _) Hall). apply list_elem_of_In. vm_compute. tauto.
  - intros r t Hr Hp Hk. apply key_reads_as; [done| |].
    + split; [done|]. by rewrite Hr.
    + cbn. by rewrite Hr.
  - refine (bool_decide_eq_true_1 (NoDup ALL_PREFIXES) _). vm_compute. reflexivity.
  - intros H1 H2 Hk1 Hk2 E. rewrite Forall_forall in Hall.
    rewrite !to_string_key_eq in E by auto.
    assert (join_with slash (full_segs k1) = join_with slash (full_segs k2)) as Ej by congruence. clear E.
    apply (f_equal (split_on slash)) in Ej. rename Ej into E. rewrite !split_join in E by (done || by apply full_segment; auto).
    by injection E.
Qed.

(** Listing a directory gives exactly the keys in it.  The string of the
    directory [n] levels above a key, with its slash, is a prefix of the string
    of another key of the type iff that key starts with the same segments. *)
Lemma dir_listing_exact `{!KeyCodec K, !Key K, !KeyCodecLaws K} (k k' : K) (n : N) :
  prefix_ok (KEY_PREFIX K) → key_ok k → key_ok k' → n + 1 < u64_mod →
  (N.to_nat n ≤ length (key_segs k))%nat →
  let m := (length (key_segs k) - N.to_nat n)%nat in
  ∃ d s, dir_name_with_slash {| dir_key := k; dir_level := n |} = KOk d ∧ to_string_key k' = KOk s ∧
    (starts_with s d = true ↔ take m (key_segs k') = take m (key_segs k) ∧ (m < length (key_segs k'))%nat).
Proof.
  intros Hp Hk Hk' Hn Hle m. unfold dir_name_with_slash. rewrite dir_to_string_key_eq by done.
  rewrite (to_string_key_eq Hp k') by done. cbn [mbind KeyResult_bind]. do 2 eexists. split_and!; [done..|].
  pose proof (full_segment Hp k Hk) as Hs. pose proof (full_segment Hp k' Hk') as Hs'.
  replace (length (full_segs k) - N.to_nat n)%nat with (S m) by (unfold m; cbn; lia).
  unfold full_segs in *. cbn [take].
  set (l := KEY_PREFIX K :: take m (key_segs k)). rewrite starts_with_iff.
  assert (Forall segment l) as Hl by (unfold l; inversion_clear Hs; constructor; [done|by apply Forall_take]).
  split.
  - intros [x E]. apply (f_equal (split_on slash)) in E. rewrite split_join in E by done.
    rewrite <-str_app_assoc, str_app_cons in E. change (EmptyString +:+ x) with x in E.
    rewrite split_join_app in E by done.
    unfold l in E. injection E as E. rewrite E. pose proof (split_on_nonempty slash x).
    assert (length (take m (key_segs k)) = m) as Hm by (rewrite length_take; unfold m; lia).
    rewrite length_app, Hm. split.
    + rewrite take_app_le by lia. by rewrite take_take, Nat.min_id.
    + destruct (split_on slash x); [done|]. cbn. lia.
  - intros [E Hlt]. exists (join_with slash (drop m (key_segs k'))).
    rewrite <-str_app_assoc. change (String slash EmptyString +:+ join_with slash (drop m (key_segs k')))
      with (String slash (join_with slash (drop m (key_segs k')))).
    rewrite <-join_app; [|done|].
    + unfold l. rewrite <-E. cbn [app]. by rewrite take_drop.
    + intros Hd%(f_equal length). rewrite length_drop in Hd. cbn in Hd. lia.
Qed.

(** The key of a copied file reads back for any file name, although the name
    is not escaped: it may contain slashes or be empty. *)
Lemma copied_file_roundtrip (k : TableCopiedFileNameIdent) :
  copied_file_ok k → ∃ s, to_string_key k = KOk s ∧ from_str_key s = KOk k.
Proof.
  intros Hk. exists (copied_file_dir (copied_table_id k) +:+ file k).
  split; [by apply copied_file_key_eq|by apply copied_file_parse].
Qed.

(** C39: User names with [%] are not told apart and can stop the process.  The
    users ['] and [%27] of one host have the same key, and the key of the user
    [%zz] panics when it is decoded. *)
Theorem user_identity_percent (host : string) :
  str_ok host → lacks percent host = true →
  let user name : UserIdentity := {| username := name; hostname := host |} in
  user_encode (user "'") = user_encode (user "%27") ∧
  user_parse (user_encode (user "'")) = KOk (user "'") ∧
  user_parse (user_encode (user "%zz")) = KPanic.
Proof.
  intros Hh Hl user. split_and!; [done|by apply user_parse_encode|].
  unfold user_parse, user_encode. cbn [username hostname].
  change (escape_specified "%zz" USER_ESCAPE_CHARS) with "%zz".
  match goal with |- context [split_once at_sign ?s] =>
    change s with ("'%zz'" +:+ String at_sign (quoted (escape_specified host USER_ESCAPE_CHARS) EmptyString)) end.
  by rewrite split_once_lacks.
Qed.

(** ** Ranges of prefixes *)

(** [n] characters 127. *)
Fixpoint dels (n : nat) : string := match n with O => EmptyString | S n => String (byte 127) (dels n) end.

Lemma ascii_shape s : (∃ n, s = dels n) ∨ ∃ p c n, byte_of c ≠ 127 ∧ s = p +:+ String c (dels n).
Proof.
  induction s as [|a s [[n ->]|(p & c & n & Hc & ->)]].
  - left. by exists O.
  - destruct (decide (byte_of a = 127)) as [E|Hne].
    + left. exists (S n). cbn. f_equal. apply byte_of_inj. rewrite E. by vm_compute.
    + right. by exists EmptyString, a, n.
  - right. exists (String a p), c, n. by rewrite str_app_cons.
Qed.

Lemma ascii_next_dels n : ascii_next_go (dels n) = None.
Proof. induction n as [|n IH]; [done|]. cbn [dels ascii_next_go]. by rewrite IH. Qed.
Lemma ascii_next_shape p c n :
  byte_of c ≠ 127 → ascii_next_go (p +:+ String c (dels n)) = Some (p +:+ String (byte (byte_of c + 1)) (dels n)).
Proof.
  intros Hc. induction p as [|a p IH].
  - change (EmptyString +:+ ?x) with x. cbn [ascii_next_go]. rewrite ascii_next_dels. by destruct (N.eqb_spec (byte_of c) 127).
  - rewrite !str_app_cons. cbn [ascii_next_go]. by rewrite IH.
Qed.
Lemma dels_snoc n : dels n +:+ String (byte 127) EmptyString = dels (S n).
Proof. induction n as [|n IH]; [done|]. cbn [dels]. rewrite str_app_cons. by rewrite IH. Qed.

(** Between [n] and [n + 1] characters 127. *)
Lemma dels_range n k : String.le (dels n) k → key_lt k (dels (S n)) → starts_with k (dels n) = true.
Proof.
  revert k. induction n as [|n IH]; intros k Hle Hlt; [by destruct k|].
  destruct k as [|x k]; [by destruct Hle|]. cbn [dels] in *. apply str_le_cons in Hle. apply str_lt_cons in Hlt.
  destruct Hle as [?|[<- Hle]], Hlt as [?|[? Hlt]]; try lia; [by subst; lia|].
  rewrite starts_with_iff. destruct (proj1 (starts_with_iff _ _) (IH k Hle Hlt)) as [y ->]. exists y. by rewrite str_app_cons.
Qed.

(** A character in ASCII and the next one. *)
Lemma next_char p c t :
  is_ascii (p +:+ String c t) = true →
  byte_of (byte (byte_of c + 1)) = byte_of c + 1 ∧
  ∀ x y, key_lt ((p +:+ String c t) +:+ x) (p +:+ String (byte (byte_of c + 1)) y).
Proof.
  rewrite is_ascii_app. cbn [is_ascii]. intros [_ [Hc%N.ltb_lt _]%andb_true_iff]%andb_true_iff.
  assert (byte_of (byte (byte_of c + 1)) = byte_of c + 1) as Hb by (apply byte_of_byte; lia). split; [done|].
  intros x y. rewrite <-str_app_assoc. apply str_lt_app. rewrite str_app_cons. apply str_lt_cons. left. lia.
Qed.

(** C40: The range of a prefix in ASCII, on every prefix.  When the last character is
    not 127, the range holds exactly the strings with the prefix.  When the prefix ends
    with characters 127 after another character, the range holds all strings with the
    prefix and also strings without it.  When the prefix is empty or has only characters
    127, the range ends at the prefix with one more: it holds only strings with the
    prefix, but not all of them.  Any other prefix is refused. *)
Theorem prefix_to_range_semantics prefix :
  if is_ascii prefix then
    ∃ e, prefix_to_range prefix = KOk (prefix, e) ∧
      let in_range k := String.le prefix k ∧ key_lt k e in
      (∀ p c, prefix = p +:+ String c EmptyString → byte_of c ≠ 127 →
         ∀ k, in_range k ↔ starts_with k prefix = true) ∧
      (∀ p c n, prefix = p +:+ String c (dels (S n)) → byte_of c ≠ 127 →
         (∀ k, starts_with k prefix = true → in_range k) ∧
         let k := p +:+ String (byte (byte_of c + 1)) EmptyString in in_range k ∧ starts_with k prefix = false) ∧
      (∀ n, prefix = dels n →
         (∀ k, in_range k → starts_with k prefix = true) ∧ starts_with (dels (S n)) prefix = true ∧ ¬ in_range (dels (S n)))
  else prefix_to_range prefix = KErr (AsciiError prefix).
Proof.
  unfold prefix_to_range, ascii_next. destruct (is_ascii prefix) eqn:Ha; [|done].
  eexists. split; [done|]. cbv zeta. split_and!.
  - intros p c -> Hc k. destruct (next_char p c EmptyString Ha) as [Hb Hlt]. pose proof (ascii_next_shape p c 0 Hc) as E.
    cbn [dels] in E. rewrite E, starts_with_iff. split; [intros [H1 H2]; by eapply prefix_range|].
    intros [x ->]. split; [apply str_le_prefix|apply Hlt].
  - intros p c n -> Hc. destruct (next_char p c _ Ha) as [Hb Hlt]. rewrite (ascii_next_shape p c (S n) Hc). split_and!.
    + intros k [x ->]%starts_with_iff. split; [apply str_le_prefix|apply Hlt].
    + apply str_le_app, str_le_cons. left. lia.
    + apply str_lt_app, str_lt_cons. right. split; [done|]. apply str_lt_alt. by vm_compute.
    + apply not_true_iff_false. rewrite starts_with_iff. intros [x E].
      apply (key_lt_irrefl (K := string) (p +:+ String (byte (byte_of c + 1)) EmptyString)). rewrite E at 1. apply Hlt.
  - intros n ->. rewrite ascii_next_dels, dels_snoc. split_and!.
    + intros k [H1 H2]. by apply dels_range.
    + rewrite starts_with_iff, <-dels_snoc. by eexists.
    + intros [_ H]. by apply (key_lt_irrefl (K := string)) in H.
Qed.

(** ** Examples *)

Module KeyEx.
Definition f : TableCopiedFileNameIdent := {| copied_table_id := 7; file := "dir//x" |}.
Definition t1 : DBIdTableName := {| db_id := 7; table_name := "a b" |}.
Definition t2 : DBIdTableName := {| db_id := 70; table_name := "a b" |}.

(** A user of the tenant [t%]: the slash, the quote and the percent are escaped. *)
Definition u : TIdent tenant_user_rsc UserIdentity :=
  tident_new {| tenant := "t%" |} {| username := "a/'b"; hostname := "h" |}.

Lemma key_strings_faithful_witness :
  (∃ s, to_string_key u = KOk s ∧ from_str_key s = KOk u) ∧
  ∃ s, to_string_key (tident_new {| tenant := "t" |} (OwnTable "default" 1 7) : TenantOwnershipObjectIdent) = KOk s ∧
    from_str_key s = KOk (tident_new {| tenant := "t" |} (OwnTable "default" 0 7) : TenantOwnershipObjectIdent).
Proof.
  destruct (key_strings_faithful u u) as (Hu & Ho & _). split.
  - apply Hu; split_and!; done || (vm_compute; reflexivity).
  - apply Ho; [split; [vm_compute; reflexivity|done]|vm_compute; reflexivity|vm_compute; reflexivity].
Defined.

(** The directory of the database 7 does not cover the database 70. *)
Lemma dir_listing_exact_witness :
  ∃ d s, dir_name_with_slash {| dir_key := t1; dir_level := 1 |} = KOk d ∧ to_string_key t2 = KOk s ∧
    starts_with s d ≠ true.
Proof.
  destruct (dir_listing_exact t1 t2 1) as (d & s & Ed & Es & Hiff).
  - split_and!; done || reflexivity.
  - split; vm_compute; reflexivity.
  - split; vm_compute; reflexivity.
  - vm_compute. reflexivity.
  - vm_compute. lia.
  - exists d, s. split; [exact Ed|]. split; [exact Es|].
    intros [Ht _]%Hiff. vm_compute in Ht. discriminate Ht.
Defined.

Lemma user_identity_percent_witness :
  user_encode {| username := "'"; hostname := "h" |} = user_encode {| username := "%27"; hostname := "h" |}.
Proof. apply (user_identity_percent "h"); vm_compute; reflexivity. Defined.

End KeyEx.
