(* ===== verification/KVApi.v ===== *)
(** The KV API (kvapi/src/kvapi/api.rs) and its clients: a client is a program
    that sends requests and continues with the replies; a request is served by
    the in-memory meta-service or by the abstract state machine. *)

From stdpp Require Import base orders sorting strings gmap numbers list.
From S2P Require Import Prelude BTree RustStr External ExpireKey MetaTypes Marked MapApi Level StateMap.
From S2P Require Import Txn StateMachine Applier ApplierSpec SMV003 KeyCodec.
Local Open Scope N_scope.

(** ** Errors *)

(** A [MetaError] as its innermost cause, without the network, client and API
    errors it is wrapped in and without its message; [ServiceError] stands for
    every error the service or the network returns. *)
Inductive MetaError := ServiceError | InvalidArgument | InvalidReply | IncompleteStream.

(** The errors of the applications that the operations on sequences, databases and
    locks return. *)
Inductive AppError :=
| SequenceAlreadyExists | UnknownSequence | WrongSequenceCount | OutofSequenceRange
| DatabaseAlreadyExists | UnknownDatabase | UnknownDatabaseId
| CreateDatabaseWithDropTime | DropDbWithDropTime | UndropDbHasNoHistory | UndropDbWithNoDropTime
| TableLockExpired.

(** The errors of the query service that no API returns ([ErrorCode]). *)
Inductive QueryError :=
| TableAlreadyLocked | OCCRetryFailure
| UnknownRole | RoleAlreadyExists | InvalidRole | IllegalUserInfoFormat.

(** [MetaTxnError] and [KVAppError], and the errors of the query service. *)
Inductive ApiError :=
| EMeta (e : MetaError)
| ETxnRetryMaxTimes
| EApp (e : AppError)
| EQuery (e : QueryError).

(** The result of a client: a value, an error, or a panic. *)
Inductive ClientResult (A : Type) :=
| COk (a : A)
| CErr (e : ApiError)
| CPanic.
Arguments COk {A} _.
Arguments CErr {A} _.
Arguments CPanic {A}.

(** ** Requests and clients *)

(** A stream of the API: its items, or errors in the middle. *)
Definition KVStream := list (StreamItem + MetaError).

(** The requests of the trait [KVApi], with the type of the reply. *)
Inductive KVReq : Type → Type :=
| ReqUpsertKV (u : UpsertKV) : KVReq (Change bytes N)
| ReqGetKVStream (keys : list string) : KVReq KVStream
| ReqListKV (prefix : string) : KVReq KVStream
| ReqTransaction (t : TxnRequest) : KVReq TxnReply.

(** A client waits for the reply of its request, or the error of the request. *)
Inductive Client (A : Type) : Type :=
| Done (r : ClientResult A)
| Call (B : Type) (req : KVReq B) (k : B + MetaError → Client A).
Arguments Done {A} _.
Arguments Call {A B} _ _.

#[export] Instance Client_ret : MRet Client := λ A a, Done (COk a).

Fixpoint client_bind {A B} (f : A → Client B) (c : Client A) : Client B :=
  match c with
  | Done (COk a) => f a
  | Done (CErr e) => Done (CErr e)
  | Done CPanic => Done CPanic
  | Call req k => Call req (λ b, client_bind f (k b))
  end.
#[export] Instance Client_bind : MBind Client := λ A B f c, client_bind f c.

Definition throw {A} (e : ApiError) : Client A := Done (CErr e).

(** A request whose error is passed on with [?]. *)
Definition reply_result {B} (r : B + MetaError) : ClientResult B :=
  match r with inl b => COk b | inr e => CErr (EMeta e) end.
Definition request {B} (req : KVReq B) : Client B := Call req (λ r, Done (reply_result r)).

(** The result of a client as a value: code that matches on it instead of passing
    its error on. *)
Fixpoint try_client {A} (c : Client A) : Client (A + ApiError) :=
  match c with
  | Done (COk a) => Done (COk (inl a))
  | Done (CErr e) => Done (COk (inr e))
  | Done CPanic => Done CPanic
  | Call req k => Call req (λ r, try_client (k r))
  end.

(** The string of a key; building it can panic, and has no other error. *)
Definition key_str (r : KeyResult string) : Client string :=
  match r with
  | KOk s => mret s
  | KErr _ => Done CPanic
  | KPanic => Done CPanic
  end.

(** ** The provided methods of the trait *)

(** [get_kv]: the first item of the stream. *)
Definition get_kv (key : string) : Client (option (SeqV bytes)) :=
  strm ← request (ReqGetKVStream [key]);
  match strm with
  | [] => throw (EMeta IncompleteStream)
  | inr e :: _ => throw (EMeta e)
  | inl item :: _ => mret (SeqV_of_pb <$> si_value item)
  end.

Fixpoint collect_items {A} (f : StreamItem → Client A) (strm : KVStream) : Client (list A) :=
  match strm with
  | [] => mret []
  | inr e :: _ => throw (EMeta e)
  | inl item :: strm => x ← f item; l ← collect_items f strm; mret (x :: l)
  end.

Definition mget_kv (keys : list string) : Client (list (option (SeqV bytes))) :=
  strm ← request (ReqGetKVStream keys);
  seq_values ← collect_items (λ item, mret (SeqV_of_pb <$> si_value item)) strm;
  if negb (length seq_values =? length keys)%nat then throw (EMeta IncompleteStream)
  else mret seq_values.

(** [unwrap] panics on an item without a value. *)
Definition prefix_list_kv (prefix : string) : Client (list (string * SeqV bytes)) :=
  strm ← request (ReqListKV prefix);
  collect_items (λ item,
    match si_value item with
    | Some v => mret (si_key item, SeqV_of_pb v)
    | None => Done CPanic
    end) strm.

(** ** Serving a request *)

Section serve.
Context {raft : OpenRaft}.

(** The items of a stream as the client reads them: an error is an item, a panic
    is one of the whole request. *)
Fixpoint item_stream (strm : Stream StreamItem) : Outcome KVStream :=
  match strm with
  | [] => Ok []
  | Ok i :: strm => l ← item_stream strm; Ok (inl i :: l)
  | Err _ :: strm => l ← item_stream strm; Ok (inr ServiceError :: l)
  | Panic :: _ => Panic
  end.

(** The in-memory meta-service at the time [now]. *)
Definition mem_serve {Mp} `{!StateMap raft Mp} (now : N) {B} (req : KVReq B) : M (StateMachine Mp) B :=
  match req with
  | ReqUpsertKV u => mem_upsert_kv now u
  | ReqGetKVStream keys => s ← get_st; strm ← lift (get_kv_stream now s keys); lift (item_stream strm)
  | ReqListKV prefix => s ← get_st; strm ← lift (api_list_kv now s prefix); lift (item_stream strm)
  | ReqTransaction t => mem_transaction now t
  end.

(** The abstract state machine: a write first removes what is expired, a read
    leaves out what is expired. *)
Definition sp_serve (now : N) {B} (req : KVReq B) (st : Spec) : Spec * B :=
  let ctx := cmd_ctx_from_millis now in
  match req with
  | ReqUpsertKV u =>
      let '(st, (prev, result)) := sp_upsert u ctx (sp_clean now ctx st) in (st, change_new prev result)
  | ReqGetKVStream keys =>
      (st, (λ k, inl (stream_item (k, non_expired (sp_kv st !! k) now))) <$> keys)
  | ReqListKV prefix =>
      (st, (λ x, inl (stream_item (x.1, Some x.2))) <$>
             sp_list (filter (λ x, seqv_is_expired x.2 now = false) (sp_kv st)) prefix)
  | ReqTransaction t => sp_txn t ctx (sp_clean now ctx st)
  end.
End serve.
