(* ===== verification/ProtoConv.v ===== *)
(** Stored values as bytes (src/meta/proto-conv/src, app/src/data_id.rs): the
    trait [FromToProto] that converts a value to its message, the messages the
    applications use here, and the check of their versions. *)

From stdpp Require Import base strings gmap numbers list.
From S2P Require Import Prelude RustStr MetaTypes KeyCodec KeyCodecProofs AppKeys.
Local Open Scope N_scope.

(** ** The libraries *)

(** [prost::Message]: the code generated for a message, or written by hand for
    an id. *)
Class ProstMessage (PB : Type) := {
  prost_encode : PB → option bytes;
  prost_decode : bytes → option PB;
}.

(** A message whose fields fit in the integers of their types is decoded as it
    was encoded, and a decoded message fits. *)
Class ProstLaws (PB : Type) `{!ProstMessage PB} (fits : PB → Prop) : Prop := {
  prost_roundtrip : ∀ p, fits p → ∃ b, prost_encode p = Some b ∧ prost_decode b = Some p;
  prost_decode_fits : ∀ b p, prost_decode b = Some p → fits p;
}.

(** [serde_json] on [u64] and on the errors of the service:
    [json_is_api_error] says that a text is a [MetaAPIError]. *)
Class SerdeJson := {
  json_of_u64 : N → bytes;
  json_to_u64 : bytes → option N;
  json_is_api_error : string → bool;
}.

(** A number is its decimal digits. *)
Class SerdeJsonLaws (sj : SerdeJson) : Prop := {
  json_of_u64_dec : ∀ n, n < u64_mod → json_of_u64 n = dec_string n;
  json_u64_roundtrip : ∀ n, n < u64_mod → json_to_u64 (dec_string n) = Some n;
  json_to_u64_fits : ∀ b n, json_to_u64 b = Some n → n < u64_mod;
}.

(** [chrono]: times and their text. *)
Class Chrono := {
  DateTime : Type;
  datetime_to_string : DateTime → string;
  datetime_from_str : string → option DateTime;
}.
Class ChronoLaws (c : Chrono) : Prop := {
  datetime_roundtrip : ∀ t, datetime_from_str (datetime_to_string t) = Some t;
}.

(** ** [FromToProto] *)

(** An [Incompatible] error is [None]. *)
Class FromToProto (T : Type) := {
  PB : Type;
  pb_message :: ProstMessage PB;
  from_pb : PB → option T;
  to_pb : T → option PB;
}.

(** The bytes of a value, as [encode_operation], [serialize_struct] and
    [txn_op_put_pb] compute them, and the value of the bytes. *)
Definition encode_pb `{FromToProto T} (v : T) : option bytes := p ← to_pb v; prost_encode p.
Definition decode_pb `{FromToProto T} (b : bytes) : option T := p ← prost_decode b; from_pb p.

(** What an API needs of the type of its values. *)
Class FromToProtoLaws (T : Type) `{!FromToProto T} := {
  value_fits : T → Prop;
  pb_roundtrip : ∀ v : T, value_fits v → ∃ b, encode_pb v = Some b ∧ decode_pb b = Some v;
  pb_decode_fits : ∀ b (v : T), decode_pb b = Some v → value_fits v;
}.

(** ** Versions (util.rs) *)

Definition VER : N := 121.
Definition MIN_READER_VER : N := 24.
Definition MIN_MSG_VER : N := 1.

Definition reader_check_msg (msg_ver msg_min_reader_ver : N) : option unit :=
  if VER <? msg_min_reader_ver then None
  else if msg_ver <? MIN_MSG_VER then None
  else Some tt.

(** ** Sequences *)

Section sequence.
Context {ch : Chrono}.

Record SequenceMeta := {
  create_on : DateTime; update_on : DateTime; comment : option string;
  start : N; step : Z; current : N;
}.

Record pb_SequenceMeta := {
  pb_ver : N; pb_min_reader_ver : N;
  pb_create_on : string; pb_update_on : string; pb_comment : option string;
  pb_start : N; pb_step : Z; pb_current : N;
}.

Definition sequence_from_pb (p : pb_SequenceMeta) : option SequenceMeta :=
  _ ← reader_check_msg (pb_ver p) (pb_min_reader_ver p);
  create_on ← datetime_from_str (pb_create_on p);
  update_on ← datetime_from_str (pb_update_on p);
  Some {| comment := pb_comment p; create_on := create_on; update_on := update_on;
          start := pb_start p; current := pb_current p; step := pb_step p |}.

Definition sequence_to_pb (m : SequenceMeta) : option pb_SequenceMeta :=
  Some {| pb_ver := VER; pb_min_reader_ver := MIN_READER_VER; pb_comment := comment m;
          pb_create_on := datetime_to_string (create_on m);
          pb_update_on := datetime_to_string (update_on m);
          pb_start := start m; pb_current := current m; pb_step := step m |}.

#[export] Instance sequence_proto `{!ProstMessage pb_SequenceMeta} : FromToProto SequenceMeta :=
  {| PB := pb_SequenceMeta; from_pb := sequence_from_pb; to_pb := sequence_to_pb |}.

(** The fields are a [u64] or an [i64]. *)
Definition sequence_fits (m : SequenceMeta) : Prop :=
  start m < u64_mod ∧ current m < u64_mod ∧ (- 2 ^ 63 ≤ step m < 2 ^ 63)%Z.
Definition pb_sequence_fits (p : pb_SequenceMeta) : Prop :=
  pb_ver p < u64_mod ∧ pb_min_reader_ver p < u64_mod ∧
  pb_start p < u64_mod ∧ pb_current p < u64_mod ∧ (- 2 ^ 63 ≤ pb_step p < 2 ^ 63)%Z.

#[export, refine] Instance sequence_proto_laws `{!ProstMessage pb_SequenceMeta, !ProstLaws pb_SequenceMeta pb_sequence_fits,
    !ChronoLaws ch} : FromToProtoLaws SequenceMeta := {| value_fits := sequence_fits |}.
Proof.
  - intros m (Hs & Hc & Hp).
    destruct (prost_roundtrip (fits := pb_sequence_fits) {| pb_ver := VER; pb_min_reader_ver := MIN_READER_VER;
      pb_comment := comment m; pb_create_on := datetime_to_string (create_on m);
      pb_update_on := datetime_to_string (update_on m); pb_start := start m; pb_current := current m;
      pb_step := step m |}) as (b & Hb & Hd); [done|].
    exists b. split; [exact Hb|]. etrans; [exact (f_equal (λ o, o ≫= sequence_from_pb) Hd)|].
    cbn. unfold sequence_from_pb. cbn. rewrite !datetime_roundtrip. cbn. by destruct m.
  - intros b m (p & Hp & Hm)%bind_Some. apply (prost_decode_fits (fits := pb_sequence_fits)) in Hp as (_ & _ & ? & ? & ?).
    cbn in Hm. unfold sequence_from_pb in Hm. repeat (apply bind_Some in Hm as (? & _ & Hm)). by simplify_eq/=.
Defined.
End sequence.

(** ** Ids *)

Section ids.
Context {sj : SerdeJson}.

(** The message of an id is the id, in JSON; [decode] reads at most 64 bytes. *)
#[export] Instance data_id_prost : ProstMessage DataId := {|
  prost_encode id := Some (json_of_u64 (data_id id));
  prost_decode b :=
    if 64 <? N.of_nat (String.length b) then None
    else id ← json_to_u64 b; Some {| data_id := id |};
|}.

#[export] Instance data_id_proto : FromToProto DataId :=
  {| PB := DataId; from_pb p := Some p; to_pb id := Some id |}.

Lemma dec_digits_length fuel n acc :
  (String.length (dec_digits fuel n acc) ≤ S fuel + String.length acc)%nat.
Proof.
  revert n acc. induction fuel as [|fuel IH]; intros n acc; cbn [dec_digits]; [done|].
  destruct (n / 10 =? 0); [cbn; lia|]. etrans; [apply IH|]. cbn. lia.
Qed.

Lemma dec_string_short n : (64 <? N.of_nat (String.length (dec_string n))) = false.
Proof. apply N.ltb_ge. pose proof (dec_digits_length 19 n EmptyString). unfold dec_string. cbn in *. lia. Qed.

#[export, refine] Instance data_id_proto_laws `{!SerdeJsonLaws sj} : FromToProtoLaws DataId :=
  {| value_fits id := data_id id < u64_mod |}.
Proof.
  - intros [n] Hn. cbn in Hn. exists (dec_string n). unfold encode_pb, decode_pb. cbn -[N.ltb dec_string].
    rewrite json_of_u64_dec by done. split; [done|]. by rewrite dec_string_short, json_u64_roundtrip.
  - intros b id (p & Hp & [= <-])%bind_Some. cbn in Hp. destruct (64 <? _); [done|].
    apply bind_Some in Hp as (n & Hn & [= <-]). by apply json_to_u64_fits in Hn.
Defined.
End ids.

(** ** Concrete libraries, for examples

    A number in JSON is its digits, a time is its text, and a message is its
    fields separated by slashes. *)

Lemma parse_digits_bound acc s n : acc < u64_mod → parse_digits acc s = Some n → n < u64_mod.
Proof.
  revert acc. induction s as [|a s IH]; intros acc Ha; cbn; [by intros [= <-]|].
  destruct (is_digit a); [|done]. match goal with |- context [?x <? u64_mod] => destruct (N.ltb_spec x u64_mod) end; [|done].
  by apply IH.
Qed.

Lemma parse_u64_bound s n : parse_u64 s = Some n → n < u64_mod.
Proof.
  destruct s as [|a s]; [done|]. cbn [parse_u64]. case_decide.
  - destruct s; [done|]. by apply parse_digits_bound.
  - by apply parse_digits_bound.
Qed.

Definition digits_json : SerdeJson :=
  {| json_of_u64 := dec_string; json_to_u64 := parse_u64; json_is_api_error _ := true |}.
Lemma digits_json_laws : SerdeJsonLaws digits_json.
Proof. split; [done|exact parse_u64_dec_string|exact parse_u64_bound]. Qed.

Definition text_chrono : Chrono :=
  {| DateTime := string; datetime_to_string t := t; datetime_from_str t := Some t |}.
Lemma text_chrono_laws : ChronoLaws text_chrono.
Proof. by split. Qed.

Definition key_option {A} (r : KeyResult A) : option A := match r with KOk a => Some a | _ => None end.
Definition opt_segment (o : option string) : string :=
  match o with None => "0" | Some s => String (byte 49) (escape s) end.
Definition opt_of_segment (s : string) : option (option string) :=
  match s with
  | String a s => if decide (a = byte 48) then Some None else s ← key_option (unescape_go s); Some (Some s)
  | EmptyString => None
  end.

Definition pb_sequence_segs (p : pb_SequenceMeta) : list string :=
  [dec_string (pb_ver p); dec_string (pb_min_reader_ver p); escape (pb_create_on p); escape (pb_update_on p);
   opt_segment (pb_comment p); dec_string (pb_start p); dec_string (Z.to_N (pb_step p + 2 ^ 63)); dec_string (pb_current p)].

Definition pb_sequence_of_segs (l : list string) : option pb_SequenceMeta :=
  match l with
  | [a; b; c; d; e; f; g; h] =>
      ver ← parse_u64 a; min_ver ← parse_u64 b;
      create_on ← key_option (unescape_go c); update_on ← key_option (unescape_go d);
      comment ← opt_of_segment e; start ← parse_u64 f; step ← parse_u64 g; current ← parse_u64 h;
      Some {| pb_ver := ver; pb_min_reader_ver := min_ver; pb_create_on := create_on; pb_update_on := update_on;
              pb_comment := comment; pb_start := start; pb_step := Z.of_N step - 2 ^ 63; pb_current := current |}
  | _ => None
  end.

Definition text_prost : ProstMessage pb_SequenceMeta := {|
  prost_encode p := Some (join_with slash (pb_sequence_segs p));
  prost_decode b := pb_sequence_of_segs (split_on slash b);
|}.

Lemma opt_segment_ok o : segment (opt_segment o) ∧ opt_of_segment (opt_segment o) = Some o.
Proof.
  destruct o as [s|]; [|done]. cbn [opt_segment]. split.
  - apply segment_cons; [done|apply escape_segment].
  - cbn [opt_of_segment]. by rewrite decide_False, unescape_go_escape.
Qed.

Lemma text_prost_laws : ProstLaws (ProstMessage0 := text_prost) pb_SequenceMeta pb_sequence_fits.
Proof.
  split.
  - intros p (H1 & H2 & H3 & H4 & H5). exists (join_with slash (pb_sequence_segs p)). split; [done|].
    cbn [prost_decode text_prost]. rewrite split_join; [|done|].
    2: { unfold pb_sequence_segs. repeat (constructor; [apply dec_string_segment || apply escape_segment || apply opt_segment_ok|]).
         constructor. }
    unfold pb_sequence_segs, pb_sequence_of_segs. rewrite !parse_u64_dec_string by (done || (unfold u64_mod; lia)).
    rewrite !unescape_go_escape, (proj2 (opt_segment_ok _)). cbn [mbind option_bind key_option]. f_equal.
    destruct p; cbn in *. f_equal. lia.
  - intros b p H. cbn [prost_decode text_prost] in H.
    destruct (split_on slash b) as [|a1 [|a2 [|a3 [|a4 [|a5 [|a6 [|a7 [|a8 [|? ?]]]]]]]]]; try done.
    unfold pb_sequence_of_segs in H.
    repeat (apply bind_Some in H as (? & ? & H)). injection H as <-.
    repeat match goal with E : parse_u64 _ = Some _ |- _ => apply parse_u64_bound in E end.
    unfold pb_sequence_fits. cbn [pb_ver pb_min_reader_ver pb_start pb_current pb_step]. unfold u64_mod in *. lia.
Qed.
