(* ===== verification/MetaApi.v ===== *)
(** The APIs over structured keys and values (src/meta/api/src): the protobuf
    API of kv_pb_api, the helpers of util.rs, reply.rs and txn_backoff.rs, and
    the access patterns of kv_pb_crud_api.rs, name_value_api.rs,
    name_id_value_api.rs and sequence_api_impl.rs.  Every operation is a client
    of the KV API. *)

From stdpp Require Import base strings gmap numbers list.
From S2P Require Import Prelude RustStr MetaTypes Txn SMV003 KeyCodec AppKeys KVApi ProtoConv.
Local Open Scope N_scope.

(** ** Encoding and decoding (kv_pb_api/codec.rs) *)

Section codec.
Context `{!FromToProto V}.

(** [AsIs] is [unreachable!]; an encoding error becomes [InvalidArgument]. *)
Definition encode_operation (value : Operation V) : Client (Operation bytes) :=
  match value with
  | Update t => match encode_pb t with
                | Some b => mret (Update b)
                | None => throw (EMeta InvalidArgument)
                end
  | Delete => mret Delete
  | AsIs => Done CPanic
  end.

Definition decode_seqv (seqv : SeqV bytes) : option (SeqV V) :=
  v ← decode_pb (data seqv); Some (mk_SeqV (seq seqv) (meta seqv) v).

(** [transpose] of an optional value; a decoding error becomes [InvalidReply]. *)
Definition decode_opt (o : option (SeqV bytes)) : Client (option (SeqV V)) :=
  match o with
  | None => mret None
  | Some seqv => match decode_seqv seqv with
                 | Some v => mret (Some v)
                 | None => throw (EMeta InvalidReply)
                 end
  end.

Definition decode_transition (c : Change bytes N) : Client (Change V N) :=
  prev ← decode_opt (ch_prev c);
  result ← decode_opt (ch_result c);
  mret {| ident := ident c; ch_prev := prev; ch_result := result |}.
End codec.

(** ** [UpsertPB] (kv_pb_api/upsert_pb.rs) *)

Record UpsertPB (K V : Type) := {
  upb_key : K; upb_seq : MatchSeq; upb_value : Operation V; upb_value_meta : option MetaSpec;
}.
Arguments upb_key {_ _} _.
Arguments upb_seq {_ _} _.
Arguments upb_value {_ _} _.
Arguments upb_value_meta {_ _} _.

Section upsert_pb.
Context {K V : Type}.
Implicit Type u : UpsertPB K V.

Definition upb_insert (k : K) (v : V) : UpsertPB K V :=
  {| upb_key := k; upb_seq := Exact 0; upb_value := Update v; upb_value_meta := None |}.
Definition upb_update (k : K) (v : V) : UpsertPB K V :=
  {| upb_key := k; upb_seq := GE 0; upb_value := Update v; upb_value_meta := None |}.
Definition upb_update_exact (k : K) (v : SeqV V) : UpsertPB K V :=
  {| upb_key := k; upb_seq := Exact (seq v); upb_value := Update (data v); upb_value_meta := None |}.
Definition upb_delete (k : K) : UpsertPB K V :=
  {| upb_key := k; upb_seq := GE 1; upb_value := Delete; upb_value_meta := None |}.
Definition upb_with_seq u (s : MatchSeq) : UpsertPB K V :=
  {| upb_key := upb_key u; upb_seq := s; upb_value := upb_value u; upb_value_meta := upb_value_meta u |}.
(** A duration is its milliseconds, before they are cut to 64 bits. *)
Definition upb_with_ttl u (ttl : N) : UpsertPB K V :=
  {| upb_key := upb_key u; upb_seq := upb_seq u; upb_value := upb_value u;
     upb_value_meta := Some {| spec_expire_at := None; spec_ttl := Some (interval_from_millis (wrap64 ttl)) |} |}.
End upsert_pb.

(** ** The protobuf API (kv_pb_api/mod.rs) *)

(** The errors of [PbApiReadError]; each becomes a [MetaError]. *)
Inductive PbApiReadError :=
| PbDecodeError
| PbKeyError (e : KeyError)
| PbNoneValue
| StreamReadEof (expected received : N)
| KvApiError (e : MetaError).

Definition read_error (e : PbApiReadError) : MetaError :=
  match e with
  | KvApiError e => e
  | _ => InvalidReply
  end.

(** An item of a stream of decoded records: parsing a key can panic. *)
Inductive PbItem (A : Type) :=
| PItem (a : A)
| PErr (e : PbApiReadError)
| PPanic.
Arguments PItem {_} _.
Arguments PErr {_} _.
Arguments PPanic {_}.

(** [try_collect]: the first error ends it. *)
Fixpoint try_collect {A} (strm : list (PbItem A)) : Client (list A) :=
  match strm with
  | [] => mret []
  | PItem a :: strm => l ← try_collect strm; mret (a :: l)
  | PErr e :: _ => throw (EMeta (read_error e))
  | PPanic :: _ => Done CPanic
  end.

(** [map_ok]. *)
Definition pitem_map {A B} (f : A → B) (i : PbItem A) : PbItem B :=
  match i with PItem a => PItem (f a) | PErr e => PErr e | PPanic => PPanic end.

Fixpoint key_strs {K} `{!KeyCodec K, !Key K} (keys : list K) : Client (list string) :=
  match keys with
  | [] => mret []
  | k :: keys => s ← key_str (to_string_key k); l ← key_strs keys; mret (s :: l)
  end.

(** [chunks] of the [itertools] crate. *)
Fixpoint chunks_go {A} (fuel n : nat) (l : list A) : list (list A) :=
  match fuel, l with
  | S fuel, _ :: _ => take n l :: chunks_go fuel n (drop n l)
  | _, _ => []
  end.
Definition chunks {A} (n : nat) (l : list A) : list (list A) := chunks_go (length l) n l.

Section kv_pb_api.
Context {K V : Type} `{!KeyCodec K, !Key K, !FromToProto V}.

Definition upsert_pb (req : UpsertPB K V) : Client (Change V N) :=
  k ← key_str (to_string_key (upb_key req));
  v ← encode_operation (upb_value req);
  reply ← request (ReqUpsertKV {| ukey := k; useq := upb_seq req; uvalue := v;
                                   uvalue_meta := upb_value_meta req |});
  decode_transition reply.

Definition get_pb (key : K) : Client (option (SeqV V)) :=
  k ← key_str (to_string_key key);
  raw_seqv ← get_kv k;
  decode_opt raw_seqv.

Definition get_pb_seq_and_value (key : K) : Client (N * option V) :=
  seq_v ← get_pb key; mret (opt_seq seq_v, opt_value seq_v).

(** An item of [get_kv_stream] as a key and its decoded value. *)
Definition decode_item (r : StreamItem + MetaError) : PbItem (K * option (SeqV V)) :=
  match r with
  | inr e => PErr (KvApiError e)
  | inl item =>
      match from_str_key (K := K) (si_key item) with
      | KErr e => PErr (PbKeyError e)
      | KPanic => PPanic
      | KOk k =>
          match si_value item with
          | None => PItem (k, None)
          | Some pb => match decode_seqv (SeqV_of_pb pb) with
                       | Some v => PItem (k, Some v)
                       | None => PErr PbDecodeError
                       end
          end
      end
  end.

(** The position is written into an end of stream error. *)
Definition set_received {A} (i : nat) (r : PbItem A) : PbItem A :=
  match r with
  | PErr (StreamReadEof expected _) => PErr (StreamReadEof expected (N.of_nat i))
  | _ => r
  end.

(** One end of stream error is chained to the stream, and the stream is cut to
    the number of keys. *)
Definition fill_eof {A} (sent : nat) (strm : list (PbItem A)) : list (PbItem A) :=
  imap set_received (take sent (strm ++ [PErr (StreamReadEof (N.of_nat sent) 0)])).

Definition get_pb_stream_low (keys : list K) : Client (list (PbItem (K * option (SeqV V)))) :=
  strs ← key_strs keys;
  strm ← request (ReqGetKVStream strs);
  mret (fill_eof (length strs) (map decode_item strm)).

Definition get_pb_values (keys : list K) : Client (list (PbItem (option (SeqV V)))) :=
  strm ← get_pb_stream_low keys; mret (map (pitem_map snd) strm).

Definition get_pb_stream (keys : list K) : Client (list (PbItem (K * option (SeqV V)))) :=
  get_pb_stream_low keys.

Definition CHUNK_SIZE : nat := 256.

Fixpoint collect_chunks {A} (get : list K → Client (list (PbItem A))) (cs : list (list K)) : Client (list A) :=
  match cs with
  | [] => mret []
  | chunk :: cs =>
      strm ← get chunk;
      vec ← try_collect strm;
      rest ← collect_chunks get cs;
      mret (vec ++ rest)
  end.

Definition get_pb_values_vec (keys : list K) : Client (list (option (SeqV V))) :=
  collect_chunks get_pb_values (chunks CHUNK_SIZE keys).
Definition get_pb_vec (keys : list K) : Client (list (K * option (SeqV V))) :=
  collect_chunks get_pb_stream (chunks CHUNK_SIZE keys).

(** [decode_non_empty_item] (codec.rs). *)
Definition decode_non_empty_item (r : StreamItem + MetaError) : PbItem (K * SeqV V) :=
  match r with
  | inr e => PErr (KvApiError e)
  | inl item =>
      match from_str_key (K := K) (si_key item) with
      | KErr e => PErr (PbKeyError e)
      | KPanic => PPanic
      | KOk k =>
          match si_value item with
          | None => PErr PbNoneValue
          | Some raw => match decode_seqv (SeqV_of_pb raw) with
                        | Some v => PItem (k, v)
                        | None => PErr PbDecodeError
                        end
          end
      end
  end.

Definition list_pb (prefix : DirName K) : Client (list (PbItem (K * SeqV V))) :=
  p ← key_str (dir_name_with_slash prefix);
  strm ← request (ReqListKV p);
  mret (map decode_non_empty_item strm).

Definition list_pb_vec (prefix : DirName K) : Client (list (K * SeqV V)) :=
  strm ← list_pb prefix; try_collect strm.
End kv_pb_api.
Arguments get_pb {K} V {_ _ _} _.
Arguments list_pb {K} V {_ _ _} _.
Arguments get_pb_values {K} V {_ _ _} _.

(** [get_seq]: the sequence number of a key, without decoding. *)
Definition get_seq `{!KeyCodec K, !Key K} (key : K) : Client N :=
  k ← key_str (to_string_key key); raw_seqv ← get_kv k; mret (opt_seq raw_seqv).

(** ** Transactions (util.rs, reply.rs, txn_backoff.rs) *)

Definition txn_reply_to_api_result {sj : SerdeJson} (r : TxnReply) : Client (bool * list TxnOpResponse) :=
  match reply_error r with
  | EmptyString => mret (reply_success r, reply_responses r)
  | e => throw (EMeta (if json_is_api_error e then ServiceError else InvalidReply))
  end.

Definition send_txn {sj : SerdeJson} (t : TxnRequest) : Client (bool * list TxnOpResponse) :=
  reply ← request (ReqTransaction t); txn_reply_to_api_result reply.

Definition txn_cond_eq_seq `{!KeyCodec K, !Key K} (key : K) (s : N) : Client TxnCondition :=
  k ← key_str (to_string_key key); mret (cond_eq_seq k s).

Definition txn_op_del `{!KeyCodec K, !Key K} (key : K) : Client TxnOp :=
  k ← key_str (to_string_key key); mret (op_delete k).

(** The duration [ttl] is in milliseconds, before they are cut to 64 bits. *)
Definition put_with_ttl (key : string) (value : bytes) (ttl : option N) : TxnOp :=
  {| op_request := Some (RPut {| put_key := key; put_value := value; put_prev_value := true;
                                  put_expire_at := None; put_ttl_ms := wrap64 <$> ttl |}) |}.

(** The value is encoded before the key. *)
Definition txn_op_put_pb `{!KeyCodec K, !Key K, !FromToProto V} (key : K) (value : V) (ttl : option N) :
    Client TxnOp :=
  match encode_pb value with
  | None => throw (EMeta InvalidArgument)
  | Some buf => k ← key_str (to_string_key key); mret (put_with_ttl k buf ttl)
  end.

Definition push_cond (c : TxnCondition) (t : TxnRequest) : TxnRequest :=
  {| txn_operations := txn_operations t; txn_condition := txn_condition t ++ [c];
     txn_if_then := txn_if_then t; txn_else_then := txn_else_then t |}.
Definition push_ops (ops : list TxnOp) (t : TxnRequest) : TxnRequest :=
  {| txn_operations := txn_operations t; txn_condition := txn_condition t;
     txn_if_then := txn_if_then t ++ ops; txn_else_then := txn_else_then t |}.
Definition txn_default : TxnRequest := txn_new [] [].

Definition txn_delete_exact `{!KeyCodec K, !Key K} (key : K) (s : N) (t : TxnRequest) : Client TxnRequest :=
  c ← txn_cond_eq_seq key s; o ← txn_op_del key; mret (push_ops [o] (push_cond c t)).

Definition TXN_MAX_RETRY_TIMES : nat := 60.

(** The loop over the trials of [txn_backoff]: the body of the [i]-th trial
    returns a result or asks for another trial; after the last one the iterator
    yields the error. *)
Fixpoint txn_trials {A} (n i : nat) (body : nat → Client (option A)) : Client A :=
  match n with
  | O => throw ETxnRetryMaxTimes
  | S n => r ← body i; match r with Some a => mret a | None => txn_trials n (S i) body end
  end.
Definition txn_backoff {A} (body : nat → Client (option A)) : Client A :=
  txn_trials TXN_MAX_RETRY_TIMES 1 body.

(** ** Ids (util.rs) *)

(** The sequence number of an update is the id. *)
Definition fetch_id `{!KeyCodec K, !Key K} (generator : K) : Client N :=
  k ← key_str (to_string_key generator);
  res ← request (ReqUpsertKV {| ukey := k; useq := GE 0; uvalue := Update EmptyString; uvalue_meta := None |});
  match ch_result res with
  | Some seq_v => mret (seq seq_v)
  | None => Done CPanic
  end.

Definition get_u64_value {sj : SerdeJson} `{!KeyCodec K, !Key K} (key : K) : Client (N * N) :=
  k ← key_str (to_string_key key);
  res ← get_kv k;
  match res with
  | None => mret (0, 0)
  | Some seq_v => match json_to_u64 (data seq_v) with
                  | Some id => mret (seq seq_v, id)
                  | None => throw (EMeta InvalidReply)
                  end
  end.

(** ** [name -> value] (kv_pb_crud_api.rs, name_value_api.rs) *)

Inductive CreateOption := Create | CreateIfNotExists | CreateOrReplace.

Definition match_seq_of_create_option (o : CreateOption) : MatchSeq :=
  match o with
  | Create => Exact 0
  | CreateIfNotExists => Exact 0
  | CreateOrReplace => GE 0
  end.

Section crud.
Context {sj : SerdeJson} {K V E : Type} `{!KeyCodec K, !Key K, !FromToProto V}.

Definition crud_try_upsert (key : K) (match_seq : MatchSeq) (value : V) (ttl : option N)
    (on_exist : unit + E) : Client (unit + E) :=
  let upsert := upb_with_seq (upb_insert key value) match_seq in
  let upsert := match ttl with Some t => upb_with_ttl upsert t | None => upsert end in
  transition ← upsert_pb upsert;
  mret (if is_changed transition then inl tt else on_exist).

Definition crud_try_insert (key : K) (value : V) (ttl : option N) (on_exist : unit + E) : Client (unit + E) :=
  crud_try_upsert key (Exact 0) value ttl on_exist.

Definition crud_update_existing (name_ident : K) (update : V → option (V * option N))
    (not_found : unit + E) : Client (unit + E) :=
  txn_backoff (λ _,
    seq_meta ← get_pb V name_ident;
    match opt_value seq_meta with
    | None => mret (Some not_found)
    | Some x =>
        match update x with
        | None => mret (Some (inl tt))
        | Some (updated, ttl) =>
            c ← txn_cond_eq_seq name_ident (opt_seq seq_meta);
            o ← txn_op_put_pb name_ident updated ttl;
            '(succ, _) ← send_txn (push_ops [o] (push_cond c txn_default));
            mret (if (succ : bool) then Some (inl tt) else None)
        end
    end).

Definition crud_upsert_with (name_ident : K) (update : option (SeqV V) → option V + E) :
    Client (Change V N + E) :=
  txn_backoff (λ _,
    seq_meta ← get_pb V name_ident;
    match update seq_meta with
    | inr err => mret (Some (inr err))
    | inl None => mret (Some (inl (change_new seq_meta seq_meta)))
    | inl (Some updated) =>
        transition ← upsert_pb (upb_with_seq (upb_insert name_ident updated) (Exact (opt_seq seq_meta)));
        mret (if is_changed transition then Some (inl transition) else None)
    end).

Definition crud_remove (name_ident : K) (not_found : unit + E) : Client (unit + E) :=
  transition ← upsert_pb (V := V) (upb_delete name_ident);
  mret (if is_changed transition then inl tt else not_found).
End crud.

Section name_value.
Context {sj : SerdeJson} {K V : Type} `{!KeyCodec K, !Key K, !FromToProto V}.

(** The error [ExistError] is a unit. *)
Definition insert_name_value (name_ident : K) (value : V) (ttl : option N) : Client (unit + unit) :=
  crud_try_insert name_ident value ttl (inr tt).

Definition insert_name_value_with_create_option (name_ident : K) (value : V) (o : CreateOption) :
    Client (unit + unit) :=
  transition ← upsert_pb (upb_with_seq (upb_insert name_ident value) (match_seq_of_create_option o));
  mret (if is_changed transition then inl tt
        else match o with Create => inr tt | _ => inl tt end).
End name_value.

(** ** [name -> id -> value] (name_id_value_api.rs) *)

(** The trait [KeyWithTenant]. *)
Class KeyWithTenant (K : Type) := { key_tenant : K → Tenant }.
#[export] Instance tident_with_tenant r T : KeyWithTenant (TIdent r T) := {| key_tenant := tident_tenant |}.

Definition into_t_ident {r} (id : DataId) (t : Tenant) : TIdent r DataId := tident_new t id.

(** [IdGenerator::generic] (app/src/id_generator.rs). *)
Definition id_generator_generic : IdGenerator := {| resource := "generic" |}.

Section name_id_value.
Context {sj : SerdeJson} {K : Type} `{!KeyCodec K, !Key K, !KeyWithTenant K}.
Context (IdRsc : TenantResource) {V : Type} `{!FromToProto V}.

Definition get_id_and_value (key : K) : Client (option (SeqV DataId * SeqV V)) :=
  seq_id ← get_pb DataId key;
  match seq_id with
  | None => mret None
  | Some seq_id =>
      seq_v ← get_pb V (into_t_ident (r := IdRsc) (data seq_id) (key_tenant key));
      match seq_v with
      | None => mret None
      | Some seq_v => mret (Some (seq_id, seq_v))
      end
  end.

Definition put_all (kvs : list (string * bytes)) : list TxnOp := (λ x, op_put x.1 x.2) <$> kvs.

(** The part of the transaction that overrides what exists, with the sequence
    number the name must have; [None] when nothing is to be overridden. *)
Definition override_txn (name_ident : K) (override_exist : bool)
    (associated_records : DataId → list (string * bytes))
    (mark_delete_records : DataId → V → list (string * bytes) + MetaError)
    (got : option (SeqV DataId * SeqV V)) : Client (TxnRequest * N + SeqV DataId) :=
  match got with
  | None => mret (inl (txn_default, 0))
  | Some (seq_id, seq_meta) =>
      if negb override_exist then mret (inr seq_id) else
      let id_ident := into_t_ident (r := IdRsc) (data seq_id) (key_tenant name_ident) in
      c ← txn_cond_eq_seq id_ident (seq seq_meta);
      o ← txn_op_del id_ident;
      let t := push_ops [o] (push_cond c txn_default) in
      let t := push_ops ((λ x, op_delete x.1) <$> associated_records (data seq_id)) t in
      match mark_delete_records (data seq_id) (data seq_meta) with
      | inr e => throw (EMeta e)
      | inl kvs => mret (inl (push_ops (put_all kvs) t, seq seq_id))
      end
  end.

(** The rest of a trial: a new id, and the transaction with the new records. *)
Definition create_with_new_id (name_ident : K) (value : V)
    (associated_records : DataId → list (string * bytes)) (t : TxnRequest) (current_id_seq : N) :
    Client (option (DataId + SeqV DataId)) :=
  idu64 ← fetch_id id_generator_generic;
  let id := {| data_id := idu64 |} in
  let id_ident := into_t_ident (r := IdRsc) id (key_tenant name_ident) in
  c ← txn_cond_eq_seq name_ident current_id_seq;
  o1 ← txn_op_put_pb name_ident id None;
  o2 ← txn_op_put_pb id_ident value None;
  '(succ, _) ← send_txn (push_ops (put_all (associated_records id)) (push_ops [o1; o2] (push_cond c t)));
  mret (if (succ : bool) then Some (inl id) else None).

Definition create_id_value (name_ident : K) (value : V) (override_exist : bool)
    (associated_records : DataId → list (string * bytes))
    (mark_delete_records : DataId → V → list (string * bytes) + MetaError) :
    Client (DataId + SeqV DataId) :=
  txn_backoff (λ _,
    get_res ← get_id_and_value name_ident;
    prepared ← override_txn name_ident override_exist associated_records mark_delete_records get_res;
    match prepared with
    | inr seq_id => mret (Some (inr seq_id))
    | inl (t, current_id_seq) => create_with_new_id name_ident value associated_records t current_id_seq
    end).

Definition remove_id_value (name_ident : K) (associated_keys : DataId → list string) :
    Client (option (SeqV DataId * SeqV V)) :=
  txn_backoff (λ _,
    get_res ← get_id_and_value name_ident;
    match get_res with
    | None => mret (Some None)
    | Some (seq_id, seq_meta) =>
        let id_ident := into_t_ident (r := IdRsc) (data seq_id) (key_tenant name_ident) in
        t ← txn_delete_exact name_ident (seq seq_id) txn_default;
        t ← txn_delete_exact id_ident (seq seq_meta) t;
        '(succ, _) ← send_txn (push_ops (op_delete <$> associated_keys (data seq_id)) t);
        mret (if (succ : bool) then Some (Some (seq_id, seq_meta)) else None)
    end).

Definition update_by_id (id_ident : TIdent IdRsc DataId) (value : V) : Client (Change V N) :=
  upsert_pb {| upb_key := id_ident; upb_seq := GE 1; upb_value := Update value; upb_value_meta := None |}.

Definition update_id_value (key : K) (value : V) : Client (option (DataId * V)) :=
  got ← get_id_and_value key;
  match got with
  | None => mret None
  | Some (seq_id, seq_meta) =>
      transition ← update_by_id (into_t_ident (data seq_id) (key_tenant key)) value;
      mret (if is_changed transition then Some (data seq_id, data seq_meta) else None)
  end.

(** The names are listed, then their values are read in one request; a name
    without a value is left out. *)
Definition list_id_value (prefix : DirName K) : Client (list (K * DataId * SeqV V)) :=
  strm ← list_pb DataId prefix;
  name_ids ← try_collect strm;
  let id_idents := (λ itm, into_t_ident (r := IdRsc) (data itm.2) (key_tenant (dir_key prefix))) <$> name_ids in
  strm ← get_pb_values V id_idents;
  seq_metas ← try_collect strm;
  mret (omap (λ x : K * SeqV DataId * option (SeqV V),
          (λ v, (x.1.1, data x.1.2, v)) <$> x.2) (zip name_ids seq_metas)).
End name_id_value.

(** ** Sequences (sequence_api_impl.rs, app/src/schema/sequence.rs) *)

Section sequence.
Context {sj : SerdeJson} {ch : Chrono} `{!ProstMessage pb_SequenceMeta}.

Record CreateSequenceReq := {
  cs_create_option : CreateOption; cs_ident : SequenceIdent;
  cs_create_on : DateTime; cs_comment : option string;
}.
Record GetSequenceNextValueReq := { gs_ident : SequenceIdent; gs_count : N }.
Record GetSequenceNextValueReply := { gr_start : N; gr_step : Z; gr_end : N }.

Definition sequence_meta_of_req (r : CreateSequenceReq) : SequenceMeta :=
  {| comment := cs_comment r; create_on := cs_create_on r; update_on := cs_create_on r;
     start := 1; step := 1; current := 1 |}.

Definition create_sequence (req : CreateSequenceReq) : Client unit :=
  reply ← upsert_pb (upb_with_seq (upb_update (cs_ident req) (sequence_meta_of_req req))
                       (match_seq_of_create_option (cs_create_option req)));
  if is_changed reply then mret tt
  else match cs_create_option req with
       | Create => throw (EApp SequenceAlreadyExists)
       | CreateIfNotExists => mret tt
       | CreateOrReplace => Done CPanic
       end.

Definition get_sequence (name_ident : SequenceIdent) : Client (option (SeqV SequenceMeta)) :=
  get_pb SequenceMeta name_ident.

(** [sequence_meta.current += count] and [update_on = Utc::now()]. *)
Definition advance_sequence (count : N) (now : DateTime) (m : SequenceMeta) : SequenceMeta :=
  {| create_on := create_on m; update_on := now; comment := comment m; start := start m;
     step := step m; current := wrap64 (current m + count) |}.

(** [utc_now i] is the time read in the [i]-th trial. *)
Definition get_sequence_next_value (utc_now : nat → DateTime) (req : GetSequenceNextValueReq) :
    Client GetSequenceNextValueReply :=
  if gs_count req =? 0 then throw (EApp WrongSequenceCount) else
  let ident := gs_ident req in
  txn_backoff (λ i,
    seq_meta ← get_pb SequenceMeta ident;
    match seq_meta with
    | None => throw (EApp UnknownSequence)
    | Some seq_meta =>
        let sequence_meta := data seq_meta in
        if u64_max - current sequence_meta <? gs_count req then throw (EApp OutofSequenceRange) else
        let updated := advance_sequence (gs_count req) (utc_now i) sequence_meta in
        c ← txn_cond_eq_seq ident (seq seq_meta);
        o ← txn_op_put_pb ident updated None;
        '(succ, _) ← send_txn (txn_new [c] [o]);
        mret (if (succ : bool) then
                Some {| gr_start := current sequence_meta; gr_step := step updated;
                        gr_end := wrapping_sub64 (current updated) 1 |}
              else None)
    end).

Definition drop_sequence (ident : SequenceIdent) : Client (option N) :=
  reply ← upsert_pb (V := SequenceMeta) (upb_delete ident);
  mret (seq <$> ch_prev reply).
End sequence.
