(* ===== verification/ClientProofs.v ===== *)
(** Clients of the in-memory meta-service: a request is a step of the abstract
    state machine, and a pool of concurrent clients keeps what each of them
    guarantees to the others. *)

From stdpp Require Import base orders sorting strings gmap numbers list relations.
From S2P Require Import Prelude BTree RustStr External ExpireKey MetaTypes Marked MapApi Level StateMap.
From S2P Require Import Txn StateMachine Applier ApplierSpec StateMachineProofs ApplierProofs ApplyProofs.
From S2P Require Import SpecFacts Replica SMV003 MemMetaProofs KVApi.
Local Open Scope N_scope.

(** ** One request *)

(** The most sequence numbers a request takes. *)
Definition req_cost {B} (req : KVReq B) : N :=
  match req with
  | ReqUpsertKV u => cmd_cost (CmdUpsertKV u)
  | ReqTransaction t => txn_cost t
  | _ => 0
  end.

Lemma item_stream_Ok {X} (f : X → StreamItem) l :
  item_stream ((λ x, Ok (f x)) <$> l) = Ok ((λ x, inl (f x)) <$> l).
Proof. induction l as [|i l IH]; [done|]. cbn in *. by rewrite IH. Qed.

Section serve.
Context {raft : OpenRaft}.
Implicit Types st : Spec.

(** The in-memory meta-service serves a request like the abstract state machine. *)
Lemma mem_serve_spec {Mp} `{!StateMap raft Mp, !StateMapLaws Mp} {B} now (req : KVReq B) (s : StateMachine Mp) :
  sm_ok s → now < u64_mod → sequence (map_sys (sm_map s)) + req_cost req + 1 < u64_mod →
  ∃ s', mem_serve now req s = (s', Ok (sp_serve now req (abs s)).2) ∧
    sm_ok s' ∧ abs s' ≡ (sp_serve now req (abs s)).1 ∧
    sequence (map_sys (sm_map s')) ≤ sequence (map_sys (sm_map s)) + req_cost req.
Proof.
  intros Hok Hnow Hroom. destruct req as [u|keys|prefix|t]; cbn [mem_serve sp_serve req_cost] in *.
  - destruct (mem_upsert_spec now u s Hok Hnow Hroom) as (s' & E & Hok' & Habs & Hle). exists s'.
    destruct (sp_upsert u _ _) as [st [p r]]. done.
  - exists s. split; [|split_and!; [done|done|lia]]. unfold mbind, M_bind, get_st, lift. rewrite get_kv_stream_spec by done.
    by rewrite (item_stream_Ok (λ k, stream_item (k, non_expired (kvv (sm_map s) !! k) now))).
  - exists s. split; [|split_and!; [done|done|lia]]. unfold mbind, M_bind, get_st, lift. rewrite api_list_kv_spec by done.
    by rewrite (item_stream_Ok (λ x : string * SeqV bytes, stream_item (x.1, Some x.2))).
  - exact (mem_transaction_spec now t s Hok Hnow Hroom).
Qed.

(** A client alone with the in-memory meta-service, all at one time. *)
Fixpoint mem_run {Mp} `{!StateMap raft Mp} {A} (now : N) (c : Client A) (s : StateMachine Mp) :
    StateMachine Mp * ClientResult A :=
  match c with
  | Done r => (s, r)
  | Call req k =>
      match mem_serve now req s with
      | (s, Ok b) => mem_run now (k (inl b)) s
      | (s, Err _) => mem_run now (k (inr ServiceError)) s
      | (s, Panic) => (s, CPanic)
      end
  end.

Lemma mem_run_bind {Mp} `{!StateMap raft Mp} {A B} now (f : A → Client B) c (s : StateMachine Mp) :
  mem_run now (client_bind f c) s = match mem_run now c s with
    | (s, COk a) => mem_run now (f a) s | (s, CErr e) => (s, CErr e) | (s, CPanic) => (s, CPanic) end.
Proof.
  revert s. induction c as [[a|e|]|C req k IH]; intros s; [done..|]. cbn [client_bind mem_run].
  by destruct (mem_serve now req s) as [s' [b|e|]].
Qed.

Lemma mem_serve_get {Mp} `{!StateMap raft Mp, !StateMapLaws Mp} now k (s : StateMachine Mp) :
  sm_ok s → mem_serve now (ReqGetKVStream [k]) s =
    (s, Ok [inl (stream_item (k, non_expired (kvv (sm_map s) !! k) now))]).
Proof.
  intros Hok. cbn [mem_serve]. unfold mbind, M_bind, get_st, lift. by rewrite get_kv_stream_spec.
Qed.
Lemma mem_serve_list {Mp} `{!StateMap raft Mp, !StateMapLaws Mp} now prefix (s : StateMachine Mp) :
  sm_ok s → mem_serve now (ReqListKV prefix) s = (s, Ok (sp_serve now (ReqListKV prefix) (abs s)).2).
Proof.
  intros Hok. cbn [mem_serve]. unfold mbind, M_bind, get_st, lift. rewrite api_list_kv_spec by done.
  by rewrite (item_stream_Ok (λ x : string * SeqV bytes, stream_item (x.1, Some x.2))).
Qed.

Lemma serve_evolves {B} now (req : KVReq B) st : now < u64_mod → evolves st (sp_serve now req st).1.
Proof.
  intros Hnow. destruct req as [u|keys|prefix|t]; cbn [sp_serve]; [|done|done|].
  - etrans; [by apply steps_evolve, (clean_steps now (cmd_ctx_from_millis now))|].
    pose proof (upsert_evolves u (cmd_ctx_from_millis now) (sp_clean now (cmd_ctx_from_millis now) st)).
    by destruct (sp_upsert u _ _) as [st' [p r]].
  - etrans; [by apply steps_evolve, (clean_steps now (cmd_ctx_from_millis now))|].
    unfold sp_txn. destruct (sp_choose _ t) as [ops path].
    pose proof (operations_steps ops (cmd_ctx_from_millis now) (sp_clean now (cmd_ctx_from_millis now) st)) as Hs.
    apply steps_evolve in Hs. by destruct (sp_operations ops _ _).
Qed.
End serve.

(** ** Pools of clients *)

Section pool.
Context {raft : OpenRaft} {Mp : Type} `{!StateMap raft Mp, !StateMapLaws Mp} {A : Type}.
Implicit Types (st : Spec) (c : Client A) (cs : list (Client A)) (s : StateMachine Mp) (T : gset N).

(** A request is served at some time, as long as sequence numbers are left. *)
Definition served {B} (req : KVReq B) (b : B) s s' : Prop :=
  ∃ now, now < u64_mod ∧ sequence (map_sys (sm_map s)) + req_cost req + 1 < u64_mod ∧
    mem_serve now req s = (s', Ok b).

(** The clients of a pool send their requests in any order; a client whose
    request or reply is lost goes on with an error.  Other requests, of the kind
    [other], come from elsewhere. *)
Inductive pool_step (other : ∀ B, KVReq B → Prop) : relation (StateMachine Mp * list (Client A)) :=
| pool_serve s cs i B (req : KVReq B) k b s' :
    cs !! i = Some (Call req k) → served req b s s' →
    pool_step other (s, cs) (s', <[i := k (inl b)]> cs)
| pool_lose_request s cs i B (req : KVReq B) k e :
    cs !! i = Some (Call req k) → pool_step other (s, cs) (s, <[i := k (inr e)]> cs)
| pool_lose_reply s cs i B (req : KVReq B) k b s' e :
    cs !! i = Some (Call req k) → served req b s s' →
    pool_step other (s, cs) (s', <[i := k (inr e)]> cs)
| pool_other s cs B (req : KVReq B) b s' :
    other B req → served req b s s' → pool_step other (s, cs) (s', cs).

(** Run the clients of a pool in the given order, all at one time. *)
Fixpoint schedule (now : N) (order : list nat) (p : StateMachine Mp * list (Client A)) :
    StateMachine Mp * list (Client A) :=
  match order with
  | [] => p
  | i :: order =>
      match p.2 !! i with
      | Some (@Call _ B req k) =>
          if sequence (map_sys (sm_map p.1)) + req_cost req + 1 <? u64_mod then
            match mem_serve now req p.1 with
            | (s, Ok b) => schedule now order (s, <[i := k (inl b)]> p.2)
            | _ => p
            end
          else p
      | _ => schedule now order p
      end
  end.

Lemma schedule_steps other now order p : now < u64_mod → rtc (pool_step other) p (schedule now order p).
Proof.
  intros Hnow. revert p. induction order as [|i order IH]; intros [s cs]; [done|]. cbn [schedule fst snd].
  destruct (cs !! i) as [[r|B req k]|] eqn:Hi; [apply IH| |apply IH].
  destruct (N.ltb_spec (sequence (map_sys (sm_map s)) + req_cost req + 1) u64_mod) as [Hroom|]; [|done].
  destruct (mem_serve now req s) as [s' [b|e|]] eqn:E; [|done|done].
  eapply rtc_l; [|apply IH]. eapply pool_serve; [exact Hi|]. by exists now.
Qed.

(** What the clients rely on and guarantee.  A client holds a set of tickets,
    sequence numbers that were granted to it alone: [rely T] is what the others
    do to a client with the tickets [T], [guar T] what such a client does.
    [post st st' a] holds of a result that the last step, from [st] to [st'],
    gives, and [owns a T] says that the tickets [T] are enough for a result. *)
Record Protocol := {
  good : Spec → Prop;
  rely : gset N → relation Spec;
  guar : gset N → relation Spec;
  post : Spec → Spec → A → Prop;
  owns : A → gset N → Prop;
}.

Class ProtocolLaws (P : Protocol) (other : ∀ B, KVReq B → Prop) : Prop := {
  rely_preorder T :: PreOrder (rely P T);
  rely_equiv T st st' : st ≡ st' → rely P T st st';
  good_proper st st' : st ≡ st' → good P st → good P st';
  (** tickets are disjoint and were granted before *)
  guar_rely T T' st st' :
    good P st → guar P T' st st' → T ## T' → (∀ n, n ∈ T → n ≤ sequence (sp_sys st)) → rely P T st st';
  other_rely T B (req : KVReq B) now st :
    other B req → Inv st → good P st → now < u64_mod → sequence (sp_sys st) + req_cost req + 1 < u64_mod →
    good P (sp_serve now req st).1 ∧ rely P T st (sp_serve now req st).1;
}.

(** The client keeps the protocol from the state [st] on, and does not panic.  A
    step may grant it the sequence numbers the step takes.  After an error the
    client keeps the protocol in any state, and an error is no result. *)
Fixpoint safe (P : Protocol) (c : Client A) T st : Prop :=
  match c with
  | Done (COk a) => owns P a T
  | Done (CErr _) => True
  | Done CPanic => False
  | @Call _ B req k =>
      (∀ e, (∀ a, k (inr e) ≠ Done (COk a)) ∧ ∀ T' st', safe P (k (inr e)) T' st') ∧
      ∀ st1 now,
      rely P T st st1 → Inv st1 → good P st1 → now < u64_mod →
      sequence (sp_sys st1) + req_cost req + 1 < u64_mod →
      let st2 := (sp_serve now req st1).1 in
      let c' := k (inl (sp_serve now req st1).2) in
      good P st2 ∧ guar P T st1 st2 ∧
      (∀ a, c' = Done (COk a) → post P st1 st2 a) ∧
      ∃ T', (∀ n, n ∈ T' → n ∈ T ∨ sequence (sp_sys st1) < n ≤ sequence (sp_sys st2)) ∧ safe P c' T' st2
  end.

(** Passing the error on. *)
Definition passes_error {B} (k : B + MetaError → Client A) : Prop := ∀ e, ∃ e', k (inr e) = Done (CErr e').
Lemma passes_error_safe P {B} (k : B + MetaError → Client A) e :
  passes_error k → (∀ a, k (inr e) ≠ Done (COk a)) ∧ ∀ T st, safe P (k (inr e)) T st.
Proof. intros Hk. by destruct (Hk e) as [e' ->]. Qed.

Lemma safe_mono P other `{!ProtocolLaws P other} c T st st' : rely P T st st' → safe P c T st → safe P c T st'.
Proof.
  intros Hr. destruct c as [[a|e|]|B req k]; [done..|]. intros [He Hs]. split; [exact He|].
  intros st1 now H1. apply Hs. by etrans.
Qed.

(** A result stays used, and a later result is apart from it. *)
Class ResultLaws (P : Protocol) (used : A → Spec → Prop) (apart : relation A) : Prop := {
  apart_sym :: Symmetric apart;
  used_rely a T st st' : rely P T st st' → used a st → used a st';
  post_used a st st' : post P st st' a → used a st';
  post_apart a a' st st' : used a st → post P st st' a' → apart a a';
}.

Definition bounded T st : Prop := ∀ n, n ∈ T → n ≤ sequence (sp_sys st).

(** The state of a pool that keeps the protocol; [Ts] are the tickets. *)
Record pool_ok (P : Protocol) (used : A → Spec → Prop) (apart : relation A) s cs (Ts : list (gset N)) : Prop := {
  pool_sm : sm_ok s;
  pool_good : good P (abs s);
  pool_safe : ∀ i c, cs !! i = Some c → ∃ T, Ts !! i = Some T ∧ safe P c T (abs s);
  pool_bounded : ∀ i T, Ts !! i = Some T → bounded T (abs s);
  pool_disjoint : ∀ i j T T', i ≠ j → Ts !! i = Some T → Ts !! j = Some T' → T ## T';
  pool_used : ∀ i a, cs !! i = Some (Done (COk a)) → used a (abs s);
  pool_apart : ∀ i j a a', i ≠ j → cs !! i = Some (Done (COk a)) → cs !! j = Some (Done (COk a')) → apart a a';
}.

Lemma pool_no_panic P used apart s cs Ts i : pool_ok P used apart s cs Ts → cs !! i ≠ Some (Done CPanic).
Proof. intros HP Hi. by destruct (pool_safe _ _ _ _ _ _ HP i _ Hi) as (T & _ & []). Qed.

Section invariant.
Context (P : Protocol) (other : ∀ B, KVReq B → Prop) `{!ProtocolLaws P other}.
Context (used : A → Spec → Prop) (apart : relation A) `{!ResultLaws P used apart}.

(** The others rely on what was done. *)
Lemma pool_frame s s' cs Ts :
  pool_ok P used apart s cs Ts → sm_ok s' → good P (abs s') → evolves (abs s) (abs s') →
  (∀ i T, Ts !! i = Some T → bounded T (abs s) → rely P T (abs s) (abs s')) →
  pool_ok P used apart s' cs Ts.
Proof.
  intros [Hsm Hg Hs Hb Hd Hu Ha] Hsm' Hg' [Hev _] Hr. split; [done|done| | |done| |done].
  - intros i c Hc. destruct (Hs i c Hc) as (T & HT & Hsafe). exists T. split; [done|].
    eapply safe_mono, Hsafe; eauto.
  - intros i T HT n Hn. specialize (Hb i T HT n Hn). lia.
  - intros i a Hi. destruct (Hs i _ Hi) as (T & HT & _). eapply used_rely; eauto.
Qed.

(** A client changes to one with other tickets. *)
Lemma pool_update s cs Ts i c' T' :
  pool_ok P used apart s cs Ts → (i < length cs)%nat → (i < length Ts)%nat →
  safe P c' T' (abs s) → bounded T' (abs s) →
  (∀ j T, j ≠ i → Ts !! j = Some T → T ## T') →
  (∀ a, c' = Done (COk a) → used a (abs s) ∧
    ∀ j a', j ≠ i → cs !! j = Some (Done (COk a')) → apart a' a) →
  pool_ok P used apart s (<[i := c']> cs) (<[i := T']> Ts).
Proof.
  intros [Hsm Hg Hs Hbs Hd Hu Ha] Hi Hi' Hsafe Hb HT Hres. split; [done|done| | | | |].
  - intros j c. destruct (decide (j = i)) as [->|Hne].
    + rewrite list_lookup_insert_eq by done. intros [= <-]. exists T'. by rewrite list_lookup_insert_eq.
    + rewrite !list_lookup_insert_ne by done. apply Hs.
  - intros j T [(_ & <- & _)|[_ ?]]%list_lookup_insert_Some; eauto.
  - intros j1 j2 T1 T2 Hne. destruct (decide (j1 = i)) as [->|H1], (decide (j2 = i)) as [->|H2]; [done|..];
      rewrite ?list_lookup_insert_eq by done; rewrite ?list_lookup_insert_ne by done.
    + intros [= <-] H. symmetry. by eapply HT.
    + intros H [= <-]. by eapply HT.
    + by apply Hd.
  - intros j a. destruct (decide (j = i)) as [->|Hne].
    + rewrite list_lookup_insert_eq by done. intros [= ->]. by apply Hres.
    + rewrite list_lookup_insert_ne by done. apply Hu.
  - intros j1 j2 a1 a2 Hne. destruct (decide (j1 = i)) as [->|H1], (decide (j2 = i)) as [->|H2]; [done|..];
      rewrite ?list_lookup_insert_eq by done; rewrite ?list_lookup_insert_ne by done.
    + intros [= ->] H. symmetry. by eapply Hres.
    + intros H [= ->]. by eapply Hres.
    + by apply Ha.
Qed.

(** A client that gets an error gives its tickets back. *)
Lemma pool_abort s cs Ts i c c' :
  pool_ok P used apart s cs Ts → cs !! i = Some c →
  (∀ a, c' ≠ Done (COk a)) → (∀ T' st', safe P c' T' st') →
  pool_ok P used apart s (<[i := c']> cs) (<[i := ∅]> Ts).
Proof.
  intros HP Hi Hc Hs. destruct (pool_safe _ _ _ _ _ _ HP i c Hi) as (T & HT & _).
  apply pool_update; [done|by eapply lookup_lt_Some..|done|by intros n ?%elem_of_empty|set_solver|by intros a ?%Hc].
Qed.

Lemma served_spec {B} (req : KVReq B) b s s' :
  sm_ok s → served req b s s' →
  ∃ now, now < u64_mod ∧ sequence (sp_sys (abs s)) + req_cost req + 1 < u64_mod ∧
    b = (sp_serve now req (abs s)).2 ∧ sm_ok s' ∧ abs s' ≡ (sp_serve now req (abs s)).1 ∧
    evolves (abs s) (abs s').
Proof.
  intros Hok (now & Hnow & Hroom & E). exists now.
  destruct (mem_serve_spec now req s Hok Hnow Hroom) as (s1 & E' & Hok' & Habs & _).
  rewrite E in E'. simplify_eq. split_and!; [done..|]. pose proof (serve_evolves now req (abs s) Hnow) as Hev.
  destruct Habs as (Hk & Hs & _). unfold evolves in *. by rewrite Hk, Hs.
Qed.

(** A request of a client is served: the client may get its reply or not. *)
Lemma pool_served s cs Ts i B (req : KVReq B) k b s' :
  pool_ok P used apart s cs Ts → cs !! i = Some (Call req k) → served req b s s' →
  (∃ Ts', pool_ok P used apart s' (<[i := k (inl b)]> cs) Ts') ∧
  (∀ e, ∃ Ts', pool_ok P used apart s' (<[i := k (inr e)]> cs) Ts') ∧ rely P ∅ (abs s) (abs s').
Proof.
  intros HP Hi Hsrv. destruct (pool_safe _ _ _ _ _ _ HP i _ Hi) as (T & HT & Hsafe).
  pose proof (pool_bounded _ _ _ _ _ _ HP i T HT) as Hb.
  pose proof (pool_sm _ _ _ _ _ _ HP) as Hok. pose proof (pool_good _ _ _ _ _ _ HP) as Hg.
  destruct (served_spec req b s s' Hok Hsrv) as (now & Hnow & Hroom & -> & Hok' & Habs & Hev).
  destruct (Hsafe) as [Hfail Hstep]. destruct (Hstep (abs s) now) as (Hg2 & Hguar & Hpost & T' & HT' & Hsafe'); [done|apply Hok|done..|].
  assert (∀ c, (∀ a, c ≠ Done (COk a)) → (∀ T' st', safe P c T' st') →
    pool_ok P used apart s' (<[i := c]> cs) (<[i := ∅]> Ts)) as HP'.
  { intros c Hc Hsc. apply (pool_frame s); [by eapply pool_abort|done|by eapply good_proper|done|].
    intros j Tj Hj Hbj. etrans; [|by apply rely_equiv]. eapply guar_rely; [done|exact Hguar| |exact Hbj].
    destruct (decide (j = i)) as [->|Hne].
    - rewrite list_lookup_insert_eq in Hj by (by eapply lookup_lt_Some). simplify_eq. apply disjoint_empty_l.
    - rewrite list_lookup_insert_ne in Hj by done. by eapply pool_disjoint. }
  split_and!; [|by intros e; exists (<[i := ∅]> Ts); apply HP'; apply Hfail|].
  2: { etrans; [|by apply rely_equiv]. eapply guar_rely; [done|exact Hguar|apply disjoint_empty_l|by intros n ?%elem_of_empty]. }
  specialize (HP' (Done (CErr ETxnRetryMaxTimes)) ltac:(done) ltac:(done)). exists (<[i := T']> Ts).
  rewrite <-(list_insert_insert_eq cs i _ (Done (CErr ETxnRetryMaxTimes))), <-(list_insert_insert_eq Ts i _ ∅).
  destruct (Habs) as (_ & Hsys & _).
  apply pool_update; [done|rewrite length_insert; by eapply lookup_lt_Some..| | | |].
  - eapply safe_mono; [done|by apply rely_equiv; symmetry|done].
  - intros n Hn. rewrite Hsys. destruct (HT' n Hn) as [Hn'|]; [|lia]. specialize (Hb n Hn').
    destruct Hev as [Hev _]. rewrite Hsys in Hev. lia.
  - intros j Tj Hne. rewrite list_lookup_insert_ne by done. intros Hj n Hn Hn'.
    destruct (HT' n Hn') as [?|[Hlt _]]; [by eapply (pool_disjoint _ _ _ _ _ _ HP j i)|].
    pose proof (pool_bounded _ _ _ _ _ _ HP j Tj Hj n Hn). lia.
  - intros a Ha. split.
    + eapply (used_rely a ∅); [by apply rely_equiv; symmetry|]. by eapply post_used, Hpost.
    + intros j a' Hne. rewrite list_lookup_insert_ne by done. intros Hj.
      exact (post_apart a' a _ _ (pool_used _ _ _ _ _ _ HP j a' Hj) (Hpost a Ha)).
Qed.

(** Every reachable pool keeps the protocol. *)
Lemma pool_reach s cs Ts s' cs' :
  pool_ok P used apart s cs Ts → rtc (pool_step other) (s, cs) (s', cs') →
  ∃ Ts', pool_ok P used apart s' cs' Ts' ∧ rely P ∅ (abs s) (abs s').
Proof.
  intros HP Hr. remember (s, cs) as p eqn:Ep. remember (s', cs') as p' eqn:Ep'.
  revert s cs Ts HP Ep. induction Hr as [p|p p1 p2 Hs _ IH]; intros s cs Ts HP ->; [by simplify_eq; exists Ts|].
  enough (∃ Ts', pool_ok P used apart p1.1 p1.2 Ts' ∧ rely P ∅ (abs s) (abs p1.1)) as (Ts1 & HP1 & Hr1).
  { destruct (IH Ep' p1.1 p1.2 Ts1 HP1) as (Ts' & HP' & Hr'); [by destruct p1|]. exists Ts'. split; [done|by etrans]. }
  inversion Hs as [? ? i B req k b s1 Hi Hsrv|? ? i B req k e Hi|? ? i B req k b s1 e Hi Hsrv|? ? B req b s1 Ho Hsrv];
    subst; cbn [fst snd].
  - destruct (pool_served s cs Ts i B req k b s1 HP Hi Hsrv) as ([Ts1 H1] & _ & H3). by exists Ts1.
  - destruct (pool_safe _ _ _ _ _ _ HP i _ Hi) as (T & _ & Hfail & _). destruct (Hfail e).
    eexists. split; [by eapply pool_abort|done].
  - destruct (pool_served s cs Ts i B req k b s1 HP Hi Hsrv) as (_ & H2 & H3). destruct (H2 e) as [Ts1 H1]. by exists Ts1.
  - exists Ts. pose proof (pool_sm _ _ _ _ _ _ HP) as Hok. pose proof (pool_good _ _ _ _ _ _ HP) as Hg.
    destruct (served_spec req b s s1 Hok Hsrv) as (now & Hnow & Hroom & _ & Hok' & Habs & Hev).
    pose proof (λ T, other_rely T B req now (abs s) Ho (ok_inv s Hok) Hg Hnow Hroom) as Hor.
    assert (∀ T, rely P T (abs s) (abs s1)) as Hr1.
    { intros T. etrans; [|by apply rely_equiv; symmetry]. by destruct (Hor T). }
    split; [|done]. apply (pool_frame s); [done|done| |done|done]. eapply good_proper; [by symmetry|]. by destruct (Hor ∅).
Qed.

(** A pool before its first step. *)
Lemma pool_start s cs :
  sm_ok s → good P (abs s) → (∀ i c, cs !! i = Some c → safe P c ∅ (abs s)) →
  (∀ i a, cs !! i = Some (Done (COk a)) → used a (abs s)) →
  (∀ i j a a', i ≠ j → cs !! i = Some (Done (COk a)) → cs !! j = Some (Done (COk a')) → apart a a') →
  pool_ok P used apart s cs (replicate (length cs) ∅).
Proof.
  clear. intros Hok Hg Hs Hu Ha. split; [done|done| | |..|done|done].
  - intros i c Hi. exists ∅. rewrite lookup_replicate_2 by (by eapply lookup_lt_Some). eauto.
  - intros i T [-> _]%lookup_replicate_1 n. set_solver.
  - intros i j T T' _ [-> _]%lookup_replicate_1 [-> _]%lookup_replicate_1. set_solver.
Qed.
End invariant.
End pool.
Arguments Protocol {_} _.
