(* ===== verification/ServeProofs.v ===== *)
(** What a request of a client does to the key-values: a value that does not
    expire stays until its key is written, a read returns it, and a transaction
    under the condition that a key has a version compares and swaps.  Then what
    a client returns whatever the replies are. *)

From stdpp Require Import base orders sorting strings gmap numbers list relations.
From S2P Require Import Prelude BTree RustStr External ExpireKey MetaTypes Marked MapApi Level StateMap.
From S2P Require Import Txn StateMachine Applier ApplierSpec StateMachineProofs ApplierProofs ApplyProofs.
From S2P Require Import SpecFacts Replica SMV003 KVApi ProtoConv MetaApi ClientProofs.
Local Open Scope N_scope.

(** ** Values that do not expire *)

Definition lasting (v : SeqV bytes) : Prop := meta_expires_at_ms_opt (meta v) = None.

Lemma lasting_expires v : lasting v → opt_expires_at_ms (meta v) = u64_max.
Proof. apply opt_expires_None. Qed.

Lemma lasting_read v now : lasting v → now < u64_mod → non_expired (Some v) now = Some v.
Proof.
  intros Hv Hnow. unfold non_expired, opt_is_expired. cbn [opt_meta mbind option_bind].
  rewrite lasting_expires by done. by destruct (N.ltb_spec u64_max now); [unfold u64_max in *; lia|].
Qed.

(** Such a value is sent as it is. *)
Lemma lasting_pb v : lasting v → SeqV_of_pb (pb_SeqV_of v) = v.
Proof. destruct v as [s [[[t|]]|] d]; cbn; intros [=]; done. Qed.

(** ** Keys a request writes *)

Definition op_writes (k : string) (op : TxnOp) : bool :=
  match op_request op with
  | Some (RPut r) => bool_decide (put_key r = k)
  | Some (RDelete r) => bool_decide (del_key r = k)
  | Some (RDeleteByPrefix r) => starts_with k (dbp_prefix r)
  | _ => false
  end.

Definition txn_ops (t : TxnRequest) : list TxnOp :=
  txn_if_then t ++ txn_else_then t ++ (txn_operations t ≫= co_operations).

Definition req_writes (k : string) {B} (req : KVReq B) : bool :=
  match req with
  | ReqUpsertKV u => bool_decide (ukey u = k)
  | ReqTransaction t => existsb (op_writes k) (txn_ops t)
  | _ => false
  end.

Section serve.
Context {raft : OpenRaft}.
Implicit Types (st : Spec) (k : string).

Lemma upsert_other u ctx st k : ukey u ≠ k → sp_kv (sp_upsert u ctx st).1 !! k = sp_kv st !! k.
Proof.
  intros Hne. unfold sp_upsert. pose proof (sp_primary_effect st u ctx) as He.
  destruct (sp_primary u ctx st) as [st' res]. cbn [fst snd] in *.
  destruct (sp_change_frame (ukey u) (sp_kv st !! ukey u) res st') as (-> & _).
  destruct He as [|d _|v _ _]; cbn; [done|by rewrite lookup_delete_ne|by rewrite lookup_insert_ne].
Qed.

Lemma delete_each_other l ctx st k :
  (∀ x, x ∈ l → x.1 ≠ k) → sp_kv (sp_delete_each l ctx st) !! k = sp_kv st !! k.
Proof.
  revert st. induction l as [|[k' v] l IH]; intros st Hl; [done|]. cbn.
  pose proof (upsert_other (upsert_delete k') ctx st k) as Hu.
  destruct (sp_upsert (upsert_delete k') ctx st) as [st' [p r]].
  etrans; [apply IH; intros; apply Hl; by right|]. destruct (sp_change_frame k' p r st') as (-> & _).
  apply Hu. exact (Hl (k', v) (list_elem_of_here _ _)).
Qed.

Lemma operation_other op ctx st k : op_writes k op = false → sp_kv (sp_operation op ctx st).1 !! k = sp_kv st !! k.
Proof.
  unfold op_writes, sp_operation. destruct (op_request op) as [[r|r|r|r]|]; [done| | | |done].
  - intros Hne%bool_decide_eq_false. pose proof (upsert_other (put_upsert r) ctx st k Hne) as Hu.
    by destruct (sp_upsert (put_upsert r) ctx st) as [? [? ?]].
  - intros Hne%bool_decide_eq_false.
    assert (ukey (delete_upsert r) ≠ k) as Hk by (unfold delete_upsert; by destruct (del_match_seq r)).
    pose proof (upsert_other (delete_upsert r) ctx st k Hk) as Hu.
    by destruct (sp_upsert (delete_upsert r) ctx st) as [? [? ?]].
  - intros Hp. apply delete_each_other. intros x. unfold sp_list. rewrite list_elem_of_filter.
    intros [Hx _] <-. congruence.
Qed.

Lemma operations_other ops ctx st k :
  existsb (op_writes k) ops = false → sp_kv (sp_operations ops ctx st).1 !! k = sp_kv st !! k.
Proof.
  revert st. induction ops as [|op ops IH]; intros st; [done|]. cbn. intros [Hop Hops]%orb_false_iff.
  pose proof (operation_other op ctx st k Hop). destruct (sp_operation op ctx st) as [st1 r].
  specialize (IH st1 Hops). destruct (sp_operations ops ctx st1) as [st2 rs]. cbn in *. congruence.
Qed.

Lemma existsb_app_false {X} (f : X → bool) l1 l2 :
  existsb f (l1 ++ l2) = false ↔ existsb f l1 = false ∧ existsb f l2 = false.
Proof. rewrite existsb_app. apply orb_false_iff. Qed.

Lemma branch_other kv k i bs j ops :
  existsb (op_writes k) (bs ≫= co_operations) = false → sp_branch kv i bs = Some (j, ops) →
  existsb (op_writes k) ops = false.
Proof.
  revert i. induction bs as [|b bs IH]; intros i; [done|]. cbn. intros [Hb Hbs]%existsb_app_false.
  destruct (match co_predicate b with Some e => sp_expression kv e | None => true end); [by intros [= <- <-]|by apply IH].
Qed.

Lemma txn_other t ctx st k :
  existsb (op_writes k) (txn_ops t) = false → sp_kv (sp_txn t ctx st).1 !! k = sp_kv st !! k.
Proof.
  unfold txn_ops. intros [H1 [H2 H3]%existsb_app_false]%existsb_app_false. unfold sp_txn.
  assert (existsb (op_writes k) (sp_choose (sp_kv st) t).1 = false) as Hc.
  { unfold sp_choose. destruct (sp_branch _ _ _) as [[i ops]|] eqn:Eb; [by eapply branch_other|].
    by destruct (forallb _ _). }
  destruct (sp_choose (sp_kv st) t) as [ops path]. pose proof (operations_other ops ctx st k Hc).
  by destruct (sp_operations ops ctx st).
Qed.

(** A value that does not expire is not cleaned. *)
Lemma clean_lasting now ctx st k v :
  Inv st → now < u64_mod → sequence (sp_sys st) + 1 < u64_mod → sp_kv st !! k = Some v → lasting v →
  sp_kv (sp_clean now ctx st) !! k = Some v.
Proof.
  intros HI Hnow Hs Hv Hl. destruct (sp_clean_spec now ctx st HI Hnow Hs) as (_ & -> & _).
  rewrite map_lookup_filter_Some. split; [done|]. cbn. rewrite lasting_expires by done. unfold u64_max. lia.
Qed.

Lemma serve_other {B} (req : KVReq B) now st k v :
  Inv st → now < u64_mod → sequence (sp_sys st) + 1 < u64_mod → req_writes k req = false →
  sp_kv st !! k = Some v → lasting v → sp_kv (sp_serve now req st).1 !! k = Some v.
Proof.
  intros HI Hnow Hs Hw Hv Hl. destruct req as [u|keys|prefix|t]; cbn [sp_serve req_writes] in *; [|done|done|].
  - apply bool_decide_eq_false in Hw. rewrite <-(clean_lasting now (cmd_ctx_from_millis now) st k v) by done.
    pose proof (upsert_other u (cmd_ctx_from_millis now) (sp_clean now (cmd_ctx_from_millis now) st) k Hw) as Hu.
    by destruct (sp_upsert u _ _) as [? [? ?]].
  - by rewrite (txn_other t), (clean_lasting now _ st k v).
Qed.

(** ** Compare and swap *)

(** The value a client puts without a time to live. *)
Definition put_value_of st (b : bytes) : SeqV bytes :=
  mk_SeqV (sequence (sp_sys st) + 1) (Some {| expire_at := None |}) b.

Lemma put_value_lasting st b : lasting (put_value_of st b).
Proof. done. Qed.

(** An update whose value has not expired. *)
Lemma upsert_write_spec k b mt ctx st :
  time_ms (sp_cursor st) ≤ opt_expires_at_ms ((λ m, to_kv_meta m ctx) <$> mt) →
  let v := mk_SeqV (sequence (sp_sys st) + 1) ((λ m, to_kv_meta m ctx) <$> mt) b in
  let r := sp_upsert {| ukey := k; useq := GE 0; uvalue := Update b; uvalue_meta := mt |} ctx st in
  sp_kv r.1 = <[k := v]> (sp_kv st) ∧ sp_sys r.1 = update_seq (sequence (sp_sys st) + 1) (sp_sys st) ∧
  sp_cursor r.1 = sp_cursor st ∧ r.2 = (sp_kv st !! k, Some v).
Proof.
  intros Hmt v r. subst r. unfold sp_upsert, sp_primary. cbn [ukey useq uvalue uvalue_meta].
  rewrite match_seq_err_ge. destruct (N.ltb_spec (opt_seq (sp_kv st !! k)) 0) as [|_]; [lia|].
  unfold sp_write. cbn [sp_set_sys sp_cursor sp_kv].
  destruct (N.ltb_spec (opt_expires_at_ms ((λ m, to_kv_meta m ctx) <$> mt)) (time_ms (sp_cursor st))) as [|_]; [lia|].
  cbn [fst snd]. destruct (sp_change_frame k (sp_kv st !! k) (Some v) (sp_set_kv (<[k:=v]> (sp_kv st))
    (sp_set_sys (update_seq (sequence (sp_sys st) + 1) (sp_sys st)) st))) as (H1 & H2 & H3 & _).
  split_and!; [exact H1|exact H2|exact H3|done].
Qed.

Lemma upsert_update_spec k b mt ctx st :
  (λ m, to_kv_meta m ctx) <$> mt = Some {| expire_at := None |} ∨ mt = None →
  let v := mk_SeqV (sequence (sp_sys st) + 1) ((λ m, to_kv_meta m ctx) <$> mt) b in
  let r := sp_upsert {| ukey := k; useq := GE 0; uvalue := Update b; uvalue_meta := mt |} ctx st in
  sp_kv r.1 = <[k := v]> (sp_kv st) ∧ sp_sys r.1 = update_seq (sequence (sp_sys st) + 1) (sp_sys st) ∧
  sp_cursor r.1 = sp_cursor st ∧ r.2 = (sp_kv st !! k, Some v).
Proof.
  intros Hmt. apply upsert_write_spec.
  assert (opt_expires_at_ms ((λ m, to_kv_meta m ctx) <$> mt) = u64_max) as ->.
  { destruct Hmt as [->| ->]; done. }
  pose proof (ek_bounds (sp_cursor st)) as [Hc _]. unfold u64_max in *. lia.
Qed.

(** An update under a condition on the version of the key. *)
Lemma serve_update now st k ms b :
  Inv st → now < u64_mod → sequence (sp_sys st) + 1 < u64_mod →
  let kv := sp_kv (sp_clean now (cmd_ctx_from_millis now) st) in
  let v := mk_SeqV (sequence (sp_sys st) + 1) None b in
  let r := sp_serve now (ReqUpsertKV {| ukey := k; useq := ms; uvalue := Update b; uvalue_meta := None |}) st in
  if match_seq_err ms (opt_seq (kv !! k))
  then r.2 = change_new (kv !! k) (kv !! k) ∧ sp_kv r.1 = kv
  else r.2 = change_new (kv !! k) (Some v) ∧ sp_kv r.1 = <[k := v]> kv ∧
       sequence (sp_sys r.1) = sequence (sp_sys st) + 1.
Proof.
  intros HI Hnow Hs kv v r. subst r. cbn [sp_serve]. set (ctx := cmd_ctx_from_millis now).
  destruct (sp_clean_spec now ctx st HI Hnow Hs) as (_ & _ & Hsys & _). fold ctx in kv.
  destruct (upsert_update_spec k b None ctx (sp_clean now ctx st) (or_intror eq_refl)) as (Hk & Hq & _ & Hr).
  rewrite Hsys in Hk, Hq, Hr. fold kv in Hk, Hr. unfold sp_upsert, sp_primary in *. cbn [ukey useq uvalue uvalue_meta] in *.
  rewrite match_seq_err_ge in Hk, Hq, Hr. fold kv in Hk, Hq, Hr |- *.
  destruct (N.ltb_spec (opt_seq (kv !! k)) 0) as [|_]; [lia|]. destruct (match_seq_err ms _).
  - cbn [fst snd]. destruct (sp_change_frame k (kv !! k) (kv !! k) (sp_clean now ctx st)) as (Hc & _). split; [done|exact Hc].
  - destruct (sp_write k b _ _) as [st' res]. cbn [fst snd] in *. injection Hr as ->. by rewrite Hq.
Qed.

Lemma cond_eq_seq_spec (kv : gmap string (SeqV bytes)) k s :
  sp_condition kv (cond_eq_seq k s) = bool_decide (opt_seq (kv !! k) = s).
Proof.
  unfold sp_condition. cbn. destruct (decide (opt_seq (kv !! k) = s)) as [->|Hne].
  - rewrite N.compare_refl, bool_decide_true; done.
  - rewrite bool_decide_false by done. destruct (N.compare_spec (opt_seq (kv !! k)) s); done.
Qed.

(** Replace the value of a key if the key has a version. *)
Lemma serve_cas now st k s b :
  Inv st → now < u64_mod → sequence (sp_sys st) + 1 < u64_mod →
  let kv := sp_kv (sp_clean now (cmd_ctx_from_millis now) st) in
  let r := sp_serve now (ReqTransaction (txn_new [cond_eq_seq k s] [put_with_ttl k b None])) st in
  reply_error r.2 = "" ∧ reply_success r.2 = bool_decide (opt_seq (kv !! k) = s) ∧
  sp_kv r.1 = if decide (opt_seq (kv !! k) = s) then <[k := put_value_of st b]> kv else kv.
Proof.
  intros HI Hnow Hs kv r. subst r. cbn [sp_serve]. set (ctx := cmd_ctx_from_millis now).
  destruct (sp_clean_spec now ctx st HI Hnow Hs) as (_ & _ & Hsys & _).
  unfold sp_txn, sp_choose. cbn [txn_new txn_operations txn_condition txn_if_then txn_else_then sp_branch forallb].
  rewrite cond_eq_seq_spec, andb_true_r. fold ctx in kv. fold kv. case_decide as Hd.
  - rewrite bool_decide_true by done. cbn [sp_operations]. unfold sp_operation. cbn [op_request put_with_ttl].
    match goal with |- context [sp_upsert ?u ctx ?st1] =>
      destruct (upsert_update_spec k b (Some {| spec_expire_at := None; spec_ttl := None |}) ctx st1 (or_introl eq_refl))
        as (Hk & _ & _ & _) end.
    rewrite Hsys in Hk. fold kv in Hk. unfold put_upsert, upsert_update, with_meta_spec. cbn -[sp_upsert sp_clean ctx].
    destruct (sp_upsert _ ctx (sp_clean now ctx st)) as [st2 [p q]]. done.
  - rewrite bool_decide_false by done. done.
Qed.
End serve.

(** ** Transactions of puts and deletes *)

(** A put without a time to live or an unconditional delete: the key and its
    new value. *)
Definition op_effect (op : TxnOp) : option (string * option bytes) :=
  match op_request op with
  | Some (RPut {| put_key := k; put_value := b; put_expire_at := None; put_ttl_ms := None |}) => Some (k, Some b)
  | Some (RDelete {| del_key := k; del_match_seq := None |}) => Some (k, None)
  | _ => None
  end.

(** What the last operation on a key writes. *)
Fixpoint last_effect (k : string) (ops : list TxnOp) : option (option bytes) :=
  match ops with
  | [] => None
  | op :: ops =>
      match last_effect k ops with
      | Some x => Some x
      | None => '(k', x) ← op_effect op; if decide (k' = k) then Some x else None
      end
  end.

Definition plain (ops : list TxnOp) : Prop := Forall (λ op, is_Some (op_effect op)) ops.

(** The key-values after the operations. *)
Definition writes_to (ops : list TxnOp) (kv kv' : gmap string (SeqV bytes)) : Prop :=
  ∀ k, match last_effect k ops with
       | None => kv' !! k = kv !! k
       | Some None => kv' !! k = None
       | Some (Some b) => ∃ v, kv' !! k = Some v ∧ lasting v ∧ data v = b
       end.

Lemma last_effect_app k ops1 ops2 :
  last_effect k (ops1 ++ ops2) =
    match last_effect k ops2 with Some x => Some x | None => last_effect k ops1 end.
Proof. induction ops1 as [|op ops1 IH]; cbn; [by destruct (last_effect k ops2)|]. rewrite IH. by destruct (last_effect k ops2). Qed.

Lemma last_effect_puts k kvs : k ∉ kvs.*1 → last_effect k (put_all kvs) = None.
Proof.
  induction kvs as [|[k' b] kvs IH]; [done|]. cbn. intros [Hne Hn]%not_elem_of_cons. fold (put_all kvs).
  rewrite IH by done. by rewrite decide_False.
Qed.
Lemma last_effect_deletes k ks : k ∉ ks → last_effect k (op_delete <$> ks) = None.
Proof.
  induction ks as [|k' ks IH]; [done|]. cbn. intros [Hne Hn]%not_elem_of_cons.
  rewrite IH by done. by rewrite decide_False.
Qed.
Lemma deletes_keys (kvs : list (string * bytes)) : (λ x, op_delete x.1) <$> kvs = op_delete <$> kvs.*1.
Proof. apply (list_fmap_compose fst op_delete). Qed.
Lemma put_all_cost kvs : ops_cost (put_all kvs) = N.of_nat (length kvs).
Proof.
  induction kvs as [|x kvs IH]; [done|]. change (ops_cost (put_all (x :: kvs))) with (1 + ops_cost (put_all kvs)).
  rewrite IH. cbn [length]. lia.
Qed.
Lemma plain_puts kvs : plain (put_all kvs).
Proof. apply Forall_fmap, Forall_true. by eexists. Qed.
Lemma plain_deletes ks : plain (op_delete <$> ks).
Proof. apply Forall_fmap, Forall_true. by eexists. Qed.

Section plain.
Context {raft : OpenRaft}.
Implicit Types (st : Spec) (k : string).

Definition positive st : Prop := ∀ k v, sp_kv st !! k = Some v → 0 < seq v.

(** An update of a key that is there. *)
Lemma upsert_present_spec k b ctx st :
  positive st →
  let r := sp_upsert {| ukey := k; useq := GE 1; uvalue := Update b; uvalue_meta := None |} ctx st in
  sp_kv r.1 = if sp_kv st !! k is Some _ then <[k := mk_SeqV (sequence (sp_sys st) + 1) None b]> (sp_kv st)
              else sp_kv st.
Proof.
  intros Hp r. subst r. destruct (sp_kv st !! k) as [v|] eqn:Hv.
  - destruct (upsert_update_spec k b None ctx st (or_intror eq_refl)) as (Hk & _). etrans; [|exact Hk].
    unfold sp_upsert, sp_primary. cbn [ukey useq uvalue uvalue_meta]. rewrite !match_seq_err_ge, Hv. cbn [opt_seq].
    specialize (Hp k v Hv). by destruct (N.ltb_spec (seq v) 1), (N.ltb_spec (seq v) 0); try lia.
  - unfold sp_upsert, sp_primary. cbn [ukey useq uvalue uvalue_meta]. rewrite Hv. cbn.
    by destruct (sp_change_frame k None None st) as (-> & _).
Qed.

Lemma inv_positive st : Inv st → positive st.
Proof. intros HI k v Hv. pose proof (seqs_bound _ _ (inv_seqs _ HI) k v Hv). lia. Qed.

Lemma upsert_delete_spec k ctx st :
  positive st → ∃ st', sp_upsert (upsert_delete k) ctx st = (st', (sp_kv st !! k, None)) ∧ sp_kv st' = delete k (sp_kv st).
Proof.
  intros Hp. unfold upsert_delete, sp_upsert, sp_primary. cbn [ukey useq uvalue uvalue_meta]. rewrite match_seq_err_ge.
  destruct (sp_kv st !! k) as [v|] eqn:Ev; cbn [opt_seq].
  - pose proof (Hp k v Ev). destruct (N.ltb_spec (seq v) 1) as [|_]; [lia|]. eexists. split; [done|].
    by destruct (sp_change_frame k (Some v) None (sp_set_kv (delete k (sp_kv st)) st)) as (-> & _).
  - eexists. split; [done|]. destruct (sp_change_frame k None None st) as (-> & _). by rewrite delete_id.
Qed.

Lemma plain_operation op ctx st k x :
  op_effect op = Some (k, x) → positive st →
  positive (sp_operation op ctx st).1 ∧
  (∀ k', k' ≠ k → sp_kv (sp_operation op ctx st).1 !! k' = sp_kv st !! k') ∧
  match x with
  | None => sp_kv (sp_operation op ctx st).1 !! k = None
  | Some b => ∃ v, sp_kv (sp_operation op ctx st).1 !! k = Some v ∧ lasting v ∧ data v = b
  end.
Proof.
  unfold op_effect, sp_operation, put_upsert, delete_upsert, with_meta_spec, upsert_update, upsert_delete.
  destruct (op_request op) as [[r|[k0 b p [e|] [t|]]|[k0 p [ms|]]|r]|]; intros [= <- <-]; intros Hp; cbn -[sp_upsert].
  - destruct (upsert_update_spec k0 b (Some {| spec_expire_at := None; spec_ttl := None |}) ctx st (or_introl eq_refl))
      as (Hk & _ & _ & _). destruct (sp_upsert _ ctx st) as [st' [q r]]. cbn [fst] in *. split_and!.
    + intros k v. rewrite Hk. intros [[_ <-]|[_ ?]]%lookup_insert_Some; [cbn; lia|by eapply Hp].
    + intros k' Hne. by rewrite Hk, lookup_insert_ne.
    + eexists. by rewrite Hk, lookup_insert_eq.
  - destruct (upsert_delete_spec k0 ctx st Hp) as (st' & E & Hk). unfold upsert_delete in E.
    rewrite E. cbn [fst]. split_and!.
    + intros k v. rewrite Hk. intros [_ ?]%lookup_delete_Some. by eapply Hp.
    + intros k' Hne. by rewrite Hk, lookup_delete_ne.
    + by rewrite Hk, lookup_delete_eq.
Qed.

Lemma plain_operations ops ctx st :
  plain ops → positive st → writes_to ops (sp_kv st) (sp_kv (sp_operations ops ctx st).1).
Proof.
  intros Hpl. revert st. induction Hpl as [|op ops [[k0 x] Hx] Hpl IH]; intros st Hp k; [done|].
  cbn [sp_operations last_effect]. destruct (plain_operation op ctx st k0 x Hx Hp) as (Hp1 & Hne & Heq).
  destruct (sp_operation op ctx st) as [st1 r1]. specialize (IH st1 Hp1 k).
  destruct (sp_operations ops ctx st1) as [st2 r2]. cbn [fst] in *.
  destruct (last_effect k ops) as [[b|]|]; [done|done|]. rewrite Hx. cbn.
  case_decide as Hd; [subst k0; rewrite IH|rewrite IH; by apply Hne].
  destruct x as [b|]; [|done]. destruct Heq as (v & Hv & Hl & Hb). eauto.
Qed.

(** A transaction under conditions on versions. *)
Lemma serve_txn now st conds ops :
  let st1 := sp_clean now (cmd_ctx_from_millis now) st in
  let r := sp_serve now (ReqTransaction (txn_new ((λ c, cond_eq_seq c.1 c.2) <$> conds) ops)) st in
  let holds := bool_decide (Forall (λ c : string * N, opt_seq (sp_kv st1 !! c.1) = c.2) conds) in
  reply_error r.2 = "" ∧ reply_success r.2 = holds ∧
  r.1 = if holds then (sp_operations ops (cmd_ctx_from_millis now) st1).1 else st1.
Proof.
  intros st1 r holds. subst r holds. cbn [sp_serve]. fold st1. unfold sp_txn, sp_choose.
  cbn [txn_new txn_operations txn_condition txn_if_then txn_else_then sp_branch].
  assert (forallb (sp_condition (sp_kv st1)) ((λ c, cond_eq_seq c.1 c.2) <$> conds) =
    bool_decide (Forall (λ c : string * N, opt_seq (sp_kv st1 !! c.1) = c.2) conds)) as ->.
  { generalize (sp_kv st1). intros kv. clear. induction conds as [|c conds IH]; [done|]. cbn [fmap list_fmap forallb].
    rewrite cond_eq_seq_spec, IH. by rewrite <-bool_decide_and, (bool_decide_ext _ _ (Forall_cons _ _ _)). }
  case_bool_decide as Hd; [|done]. by destruct (sp_operations ops _ st1) as [st2 rs].
Qed.

(** A transaction of puts and deletes. *)
Lemma serve_plain now st conds ops :
  Inv st → now < u64_mod → sequence (sp_sys st) + 1 < u64_mod → plain ops →
  let kv := sp_kv (sp_clean now (cmd_ctx_from_millis now) st) in
  let r := sp_serve now (ReqTransaction (txn_new ((λ c, cond_eq_seq c.1 c.2) <$> conds) ops)) st in
  reply_error r.2 = "" ∧
  reply_success r.2 = bool_decide (Forall (λ c : string * N, opt_seq (kv !! c.1) = c.2) conds) ∧
  (reply_success r.2 = true → writes_to ops kv (sp_kv r.1)) ∧
  (reply_success r.2 = false → r.1 = sp_clean now (cmd_ctx_from_millis now) st).
Proof.
  intros HI Hnow Hs Hpl kv r. destruct (serve_txn now st conds ops) as (He & Hsucc & Hst). fold r in He, Hsucc, Hst.
  destruct (sp_clean_spec now (cmd_ctx_from_millis now) st HI Hnow Hs) as (HI1 & _).
  fold kv in Hsucc, Hst. rewrite <-Hsucc in Hst. split_and!; [done|done| |].
  - intros E. rewrite E in Hst. rewrite Hst. by apply plain_operations, inv_positive.
  - intros E. by rewrite E in Hst.
Qed.
End plain.

(** ** Retries *)

Section trials.
Context {raft : OpenRaft} {A : Type} (P : Protocol A) (body : nat → Client (option A)).

(** A client that has sent no request yet. *)
Definition calls {X} (c : Client X) : Prop := match c with Call _ _ => True | Done _ => False end.

Lemma bind_calls {X Y} (f : X → Client Y) c : calls c → calls (client_bind f c).
Proof. by destruct c. Qed.

(** A loop of trials is safe if a trial is, whatever follows a trial that failed. *)
Lemma safe_trials n i T st :
  (∀ j, calls (body j)) →
  (∀ F j T st, (∀ a, F (Some a) = Done (COk a)) → (∀ a, F None ≠ Done (COk a)) →
    (∀ T st, safe P (F None) T st) → safe P (client_bind F (body j)) T st) →
  safe P (txn_trials n i body) T st.
Proof.
  intros Hc Hb. revert i T st. induction n as [|n IH]; intros i T st; [done|]. cbn [txn_trials].
  apply Hb; [done| |intros; apply IH]. intros a. destruct n as [|n]; [done|]. cbn [txn_trials].
  pose proof (bind_calls (λ r, match r with Some a => mret a | None => txn_trials n (S (S i)) body end) _ (Hc (S i))) as H.
  intros E. unfold mbind, Client_bind in E. by rewrite E in H.
Qed.
End trials.

Section binds.
Context {raft : OpenRaft} {A : Type} (P : Protocol A).

Lemma bind_assoc_done {X Y} (F : Y → Client A) (G : X → Client Y) c r :
  client_bind F (client_bind G c) = Done r ↔ client_bind (λ x, client_bind F (G x)) c = Done r.
Proof. by destruct c as [[]|]. Qed.

Lemma safe_assoc {X Y} (F : Y → Client A) (G : X → Client Y) c T st :
  safe P (client_bind (λ x, client_bind F (G x)) c) T st → safe P (client_bind F (client_bind G c)) T st.
Proof.
  revert T st. induction c as [[x|e|]|B req k IH]; intros T st; [done..|]. cbn.
  intros [He Hs]. split.
  { intros e. destruct (He e) as [Hd Hsafe]. split; [by intros a ?%bind_assoc_done; eapply Hd|]. intros T' st'. by apply IH. }
  intros st1 now H1 H2 H3 H4 H5. destruct (Hs st1 now H1 H2 H3 H4 H5) as (Hg & Hgu & Hp & T' & HT & Hsafe).
  split_and!; [done|done|by intros a ?%bind_assoc_done; apply Hp|]. exists T'. split; [done|]. by apply IH.
Qed.

(** A loop of trials whose result is passed on. *)
Lemma safe_bind_trials {X} (W : X → Client A) (body : nat → Client (option X)) n i T st :
  (∀ F j T st, (∀ x, F (Some x) = W x) → (∀ T st, safe P (F None) T st) → safe P (client_bind F (body j)) T st) →
  safe P (client_bind W (txn_trials n i body)) T st.
Proof.
  intros Hb. revert i T st. induction n as [|n IH]; intros i T st; [done|]. cbn [txn_trials].
  apply safe_assoc, Hb; [done|]. intros. apply IH.
Qed.
End binds.

(** ** Results whatever the replies *)

(** The client ends after at most [n] requests, with a result in [Q]. *)
Fixpoint returns {A} (Q : ClientResult A → Prop) (n : nat) (c : Client A) {struct c} : Prop :=
  match c with
  | Done r => Q r
  | Call req k => match n with O => False | S n => ∀ r, returns Q n (k r) end
  end.

(** Run a client up to its next request. *)
Ltac client_run :=
  cbn [mbind Client_bind client_bind mret Client_ret request reply_result throw key_str get_kv send_txn
       returns decode_opt option_bind fmap option_fmap option_map seq data si_value fst snd].

Lemma returns_weaken {A} (Q : ClientResult A → Prop) n m c : (n ≤ m)%nat → returns Q n c → returns Q m c.
Proof.
  revert n m. induction c as [r|B req k IH]; intros [|n] [|m] Hle; cbn; try done; try lia.
  intros H b. apply (IH b n m); [lia|done].
Qed.

Lemma returns_bind {A B} (R : ClientResult A → Prop) (Q : ClientResult B → Prop) n m (f : A → Client B) c :
  returns R n c → (∀ a, R (COk a) → returns Q m (f a)) → (∀ e, Q (CErr e)) → Q CPanic →
  returns Q (n + m) (client_bind f c).
Proof.
  intros Hc Hf He Hp. revert n Hc. induction c as [[a|e|]|C req k IH]; intros n Hc; cbn in *.
  - apply (returns_weaken _ m); [lia|exact (Hf a Hc)].
  - by destruct (n + m)%nat.
  - by destruct (n + m)%nat.
  - destruct n as [|n]; [done|]. cbn. intros b. by apply IH.
Qed.

Lemma returns_trials {A} (Q : ClientResult A → Prop) m body n i :
  (∀ j, returns (λ r, match r with COk (Some a) => Q (COk a) | _ => True end) m (body j)) →
  (∀ e, Q (CErr e)) → Q CPanic → returns Q (n * m) (txn_trials n i body).
Proof.
  intros Hb He Hp. revert i. induction n as [|n IH]; intros i; cbn [txn_trials]; [by apply He|].
  cbn [Nat.mul]. unfold mbind, Client_bind. eapply returns_bind; [apply Hb| |done..].
  intros [a|] Ha; [by destruct (n * m)%nat|apply IH].
Qed.

Lemma returns_key_str r n : returns (λ _, True) n (key_str r).
Proof. by destruct r, n. Qed.

(** The result of a client when each request has one reply. *)
Fixpoint answer {A} (reply : ∀ B, KVReq B → B) (c : Client A) : ClientResult A :=
  match c with
  | Done r => r
  | @Call _ B req k => answer reply (k (inl (reply B req)))
  end.

Lemma answer_bind {A B} reply (f : A → Client B) c :
  answer reply (client_bind f c) = match answer reply c with
    | COk a => answer reply (f a) | CErr e => CErr e | CPanic => CPanic end.
Proof. induction c as [[a|e|]|C req k IH]; [done..|]. apply IH. Qed.

(** Trials that all fail. *)
Lemma answer_trials {A} reply (body : nat → Client (option A)) n i :
  (∀ j, answer reply (body j) = COk None) → answer reply (txn_trials n i body) = CErr ETxnRetryMaxTimes.
Proof.
  intros Hb. revert i. induction n as [|n IH]; intros i; [done|]. cbn [txn_trials].
  etrans; [apply answer_bind|]. rewrite Hb. apply IH.
Qed.

(** In a pool, every client keeps to its own results. *)
Lemma pool_returns {raft : OpenRaft} {Mp} `{!StateMap raft Mp} {A} other (Q : nat → ClientResult A → Prop)
    (p p' : StateMachine Mp * list (Client A)) :
  (∀ i c, p.2 !! i = Some c → ∃ n, returns (Q i) n c) →
  rtc (pool_step other) p p' → ∀ i c, p'.2 !! i = Some c → ∃ n, returns (Q i) n c.
Proof.
  intros Hp Hr. induction Hr as [p|p p1 p2 Hs _ IH]; [done|]. apply IH. clear IH.
  destruct Hs as [s cs j B req k b s' Hj _|s cs j B req k e Hj|s cs j B req k b s' e Hj _|]; [| | |done];
    intros i c; cbn [snd]; intros [(-> & <- & _)|[_ ?]]%list_lookup_insert_Some; eauto.
  all: destruct (Hp i _ Hj) as [[|n] Hn]; [done|]; exists n; apply Hn.
Qed.
