(* ===== verification/SequenceProofs.v ===== *)
(** The clients of a sequence (sequence_api_impl.rs): what
    [get_sequence_next_value] returns whatever the service replies, and the
    protocol that concurrent calls keep. *)

From stdpp Require Import base orders sorting strings gmap numbers list relations.
From S2P Require Import Prelude BTree RustStr External ExpireKey MetaTypes Marked MapApi Level StateMap.
From S2P Require Import Txn StateMachine Applier ApplierSpec StateMachineProofs ApplierProofs ApplyProofs.
From S2P Require Import SpecFacts Replica SMV003 KeyCodec AppKeys KVApi ProtoConv MetaApi ClientProofs ServeProofs.
Local Open Scope N_scope.

Section sequence.
Context {sj : SerdeJson} {ch : Chrono} `{!ProstMessage pb_SequenceMeta}.

(** A reply is a range of as many numbers as were asked for. *)
Definition range_of (count : N) (r : GetSequenceNextValueReply) : Prop :=
  gr_end r + 1 = gr_start r + count ∧ gr_end r < u64_mod.

Lemma advance_current count now m :
  count ≠ 0 → ¬ u64_max - current m < count → current m < u64_mod →
  current (advance_sequence count now m) = current m + count ∧
  wrapping_sub64 (current m + count) 1 + 1 = current m + count ∧ current m + count < u64_mod.
Proof.
  intros Hz Hr Hc. unfold u64_max in Hr. cbn [current advance_sequence].
  assert (current m + count < u64_mod) as Hlt by lia. rewrite wrap64_small by done.
  split_and!; [done| |done]. unfold wrapping_sub64, wrap64.
  replace (current m + count + u64_mod - 1) with ((current m + count - 1) + 1 * u64_mod) by lia.
  rewrite N.Div0.mod_add, N.mod_small by lia. lia.
Qed.

Context `{!ProstLaws pb_SequenceMeta pb_sequence_fits, !ChronoLaws ch}.

(** One trial: a read and a transaction. *)
Lemma next_value_returns utc_now req :
  returns (λ r, match r with COk a => range_of (gs_count req) a | _ => True end) 120
    (get_sequence_next_value utc_now req).
Proof.
  unfold get_sequence_next_value. destruct (N.eqb_spec (gs_count req) 0) as [|Hz]; [done|].
  unfold txn_backoff. change 120%nat with (TXN_MAX_RETRY_TIMES * 2)%nat.
  apply returns_trials; [|done..]. intros j. unfold get_pb, txn_cond_eq_seq, txn_op_put_pb.
  destruct (to_string_key (gs_ident req)) as [k|e|]; [|done..]. client_run. intros [strm|e]; [|done].
  client_run. destruct strm as [|[item|e] strm]; [done| |done]. client_run.
  destruct (si_value item) as [pb|]; [|done]. client_run.
  unfold decode_seqv. destruct (decode_pb (data (SeqV_of_pb pb))) as [m|] eqn:Em; [|done]. client_run.
  pose proof (pb_decode_fits _ _ Em) as (_ & Hc & _).
  destruct (N.ltb_spec (u64_max - current m) (gs_count req)) as [|Hr]; [done|].
  destruct (encode_pb _) as [buf|]; [|done]. client_run.
  intros [reply|e]; [|done]. client_run. unfold txn_reply_to_api_result. destruct (reply_error reply); [|done]. client_run.
  destruct (reply_success reply); [|done].
  destruct (advance_current (gs_count req) (utc_now j) m Hz) as (E & Hw & Hlt); [lia|done|].
  unfold range_of. cbn [gr_end gr_start]. rewrite E. lia.
Qed.

(** There is no result without a request. *)
Lemma next_value_not_done utc_now req a : get_sequence_next_value utc_now req ≠ Done (COk a).
Proof.
  unfold get_sequence_next_value. destruct (gs_count req =? 0); [done|].
  unfold txn_backoff. change TXN_MAX_RETRY_TIMES with (S 59). generalize 59%nat as n. intros n. cbn [txn_trials]. unfold get_pb.
  by destruct (to_string_key (gs_ident req)).
Qed.

(** ** Concurrent calls *)

(** The result of a creation: what the service changed. *)
Definition create_result (o : CreateOption) (c : Change bytes N) : ClientResult unit :=
  if is_changed c then COk tt
  else match o with
       | Create => CErr (EApp SequenceAlreadyExists)
       | CreateIfNotExists => COk tt
       | CreateOrReplace => CPanic
       end.

Definition decodes (o : option (SeqV bytes)) : Prop :=
  match o with Some v => ∃ m : SequenceMeta, decode_pb (data v) = Some m | None => True end.

Lemma create_sequence_run {raft : OpenRaft} {Mp} `{!StateMap raft Mp} now req K (s s' : StateMachine Mp) b c :
  to_string_key (cs_ident req) = KOk K → encode_pb (sequence_meta_of_req req) = Some b →
  mem_serve now (ReqUpsertKV {| ukey := K; useq := match_seq_of_create_option (cs_create_option req);
                                uvalue := Update b; uvalue_meta := None |}) s = (s', Ok c) →
  decodes (ch_prev c) → decodes (ch_result c) →
  mem_run now (create_sequence req) s = (s', create_result (cs_create_option req) c).
Proof.
  intros HK Eb E Hp Hr. unfold create_sequence, upsert_pb.
  cbn [upb_key upb_seq upb_value upb_value_meta upb_with_seq upb_update]. rewrite HK.
  client_run. cbn [encode_operation]. rewrite Eb. client_run. cbn [mem_run]. rewrite E. cbn [reply_result client_bind].
  destruct c as [id p q]. cbn [ch_prev ch_result] in Hp, Hr. unfold decode_transition, create_result. cbn [ch_prev ch_result ident].
  assert (∀ o, decodes o → ∃ o' : option (SeqV SequenceMeta), decode_opt o = mret o' ∧ opt_seq o' = opt_seq o) as Hd.
  { intros [v|] Hv; [|by exists None]. destruct Hv as [m Hm]. exists (Some (mk_SeqV (seq v) (meta v) m)).
    unfold decode_opt, decode_seqv. by rewrite Hm. }
  destruct (Hd p Hp) as (p' & -> & Ep), (Hd q Hr) as (q' & -> & Eq). client_run.
  unfold is_changed. cbn [ch_prev ch_result]. rewrite Ep, Eq.
  by destruct (negb _), (cs_create_option req).
Qed.

Section protocol.
Context {raft : OpenRaft} (K : string) (first : N).
Implicit Types (st : Spec) (T : gset N).

(** The sequence stored under the key. *)
Definition sequence_at st : option SequenceMeta := v ← sp_kv st !! K; decode_pb (data v).
Definition current_at st : N := match sequence_at st with Some m => current m | None => 0 end.

Definition sequence_good st : Prop :=
  (∃ v (m : SequenceMeta), sp_kv st !! K = Some v ∧ lasting v ∧ decode_pb (data v) = Some m) ∧ first ≤ current_at st.

Definition sequence_moves st st' : Prop := evolves st st' ∧ current_at st ≤ current_at st'.

(** The range was taken between the states. *)
Definition takes st st' (r : GetSequenceNextValueReply) : Prop :=
  current_at st ≤ gr_start r ∧ gr_start r ≤ gr_end r ∧ gr_end r < current_at st' ∧ first ≤ gr_start r.
Definition taken (r : GetSequenceNextValueReply) st : Prop :=
  first ≤ gr_start r ∧ gr_start r ≤ gr_end r ∧ gr_end r < current_at st.
Definition ranges_apart (r r' : GetSequenceNextValueReply) : Prop :=
  gr_end r < gr_start r' ∨ gr_end r' < gr_start r.

Definition sequence_protocol : Protocol GetSequenceNextValueReply := {|
  good := sequence_good;
  rely _ := sequence_moves;
  guar _ := sequence_moves;
  post := takes;
  owns _ _ := True;
|}.

Definition avoids (B : Type) (req : KVReq B) : Prop := req_writes K req = false.

#[export] Instance sequence_moves_preorder : PreOrder sequence_moves.
Proof.
  split.
  - intros st. split; [done|lia].
  - intros st1 st2 st3 [E1 H1] [E2 H2]. split; [by etrans|lia].
Qed.

Lemma sequence_at_proper st st' : st ≡ st' → sequence_at st = sequence_at st'.
Proof. intros (E & _). unfold sequence_at. by rewrite E. Qed.

(** A step that leaves the key. *)
Lemma sequence_keep st st' :
  sp_kv st !! K = sp_kv st' !! K → evolves st st' → sequence_good st →
  sequence_good st' ∧ sequence_moves st st'.
Proof.
  intros E Hev [(v & m & Hv & Hl & Hm) Hf]. unfold sequence_moves, sequence_good, current_at, sequence_at in *.
  rewrite E in *. split; [|done]. eauto 10.
Qed.

#[export] Instance sequence_protocol_laws : ProtocolLaws sequence_protocol avoids.
Proof.
  split; cbn.
  - intros _. apply _.
  - intros _ st st' Hst. pose proof (sequence_at_proper _ _ Hst) as E. destruct Hst as (Hk & Hs & _).
    unfold sequence_moves, evolves, current_at. rewrite E, Hk, Hs. split; [split; [done|by left]|done].
  - intros st st' Hst [H Hf]. pose proof (sequence_at_proper _ _ Hst) as E. destruct Hst as (Hk & _).
    unfold sequence_good, current_at in *. rewrite <-E, <-Hk. done.
  - done.
  - intros _ B req now st Ha HI Hg Hnow Hroom. apply sequence_keep; [|by apply serve_evolves|done].
    destruct Hg as [(v & m & Hv & Hl & _) _]. rewrite (serve_other req now st K v HI Hnow ltac:(lia) Ha Hv Hl). done.
Qed.

#[export] Instance sequence_results : ResultLaws sequence_protocol taken ranges_apart.
Proof.
  split; cbn; unfold takes, taken, ranges_apart, sequence_moves.
  - intros r r'. tauto.
  - intros r _ st st' [_ H]. lia.
  - intros r st st'. lia.
  - intros r r' st st'. lia.
Qed.

(** The sequence after a swap of a version that a client has read. *)
Lemma sequence_swap st st1 now v m count t buf :
  count ≠ 0 → ¬ u64_max - current m < count →
  Inv st → sp_kv st !! K = Some v → decode_pb (data v) = Some m → evolves st st1 →
  Inv st1 → sequence_good st1 → now < u64_mod → sequence (sp_sys st1) + 1 < u64_mod →
  decode_pb buf = Some (advance_sequence count t m) →
  let r := sp_serve now (ReqTransaction (txn_new [cond_eq_seq K (seq v)] [put_with_ttl K buf None])) st1 in
  sequence_good r.1 ∧ sequence_moves st1 r.1 ∧ reply_error r.2 = "" ∧
  (reply_success r.2 = true → current_at st1 = current m ∧ current_at r.1 = current m + count).
Proof.
  intros Hz Hr HI Hv Hm Hev HI1 Hg1 Hnow Hs Hbuf r.
  destruct (serve_cas now st1 K (seq v) buf HI1 Hnow Hs) as (He & Hsucc & Hkv). fold r in He, Hsucc, Hkv.
  pose proof (serve_evolves now (ReqTransaction (txn_new [cond_eq_seq K (seq v)] [put_with_ttl K buf None])) st1 Hnow) as Hev1.
  fold r in Hev1. destruct (Hg1) as [(v1 & m1 & Hv1 & Hl1 & Hm1) Hf].
  pose proof (clean_lasting now (cmd_ctx_from_millis now) st1 K v1 HI1 Hnow Hs Hv1 Hl1) as Hc.
  rewrite Hc in Hsucc, Hkv. cbn [opt_seq] in Hsucc, Hkv. case_decide as Hd.
  - assert (v1 = v) as ->.
    { destruct (proj2 Hev K v1 Hv1) as [|Hlt]; [congruence|].
      pose proof (seqs_bound _ _ (inv_seqs _ HI) K v Hv). lia. }
    pose proof (pb_decode_fits _ _ Hm) as (_ & Hcm & _).
    destruct (advance_current count t m Hz Hr Hcm) as (Ea & _ & _).
    assert (current_at st1 = current m) as E1.
    { unfold current_at, sequence_at. rewrite Hv1. cbn. by rewrite Hm. }
    assert (sp_kv r.1 !! K = Some (put_value_of st1 buf)) as Hv2 by (rewrite Hkv; apply lookup_insert_eq).
    assert (current_at r.1 = current m + count) as E2.
    { unfold current_at, sequence_at. rewrite Hv2. cbn. by rewrite Hbuf, Ea. }
    split_and!; [|split; [done|lia]|done|done].
    split; [|lia]. exists (put_value_of st1 buf), (advance_sequence count t m). done.
  - destruct (sequence_keep st1 r.1) as [Hg' Hmv]; [by rewrite Hkv, Hc|done|done|].
    split_and!; [done..|]. by rewrite Hsucc, bool_decide_false.
Qed.

Lemma next_value_safe utc_now req T st :
  to_string_key (gs_ident req) = KOk K →
  safe sequence_protocol (get_sequence_next_value utc_now req) T st.
Proof.
  intros HK. unfold get_sequence_next_value. destruct (N.eqb_spec (gs_count req) 0) as [|Hz]; [done|].
  apply safe_trials; [intros i; unfold get_pb; by rewrite HK|]. clear T st. intros F i T st HF Hn HN.
  unfold get_pb, txn_cond_eq_seq, txn_op_put_pb. rewrite HK. client_run. cbn [safe].
  split; [done|]. intros st1 now _ HI1 Hg1 Hnow Hroom. cbn [sp_serve fst snd fmap list_fmap].
  destruct (Hg1) as [(v & m & Hv & Hl & Hm) Hf].
  unfold stream_item. cbn [si_value]. rewrite Hv, lasting_read by done. client_run. rewrite lasting_pb by done.
  unfold decode_seqv. rewrite Hm. client_run.
  assert (∀ c' : Client GetSequenceNextValueReply, (∀ a, c' ≠ Done (COk a)) → safe sequence_protocol c' T st1 →
    sequence_good st1 ∧ sequence_moves st1 st1 ∧ (∀ a, c' = Done (COk a) → takes st1 st1 a) ∧
    ∃ T', (∀ x, x ∈ T' → x ∈ T ∨ sequence (sp_sys st1) < x ≤ sequence (sp_sys st1)) ∧ safe sequence_protocol c' T' st1) as Hstep.
  { intros c' Hc Hs. split_and!; [done|done|by intros a ?%Hc|]. exists T. auto. }
  destruct (N.ltb_spec (u64_max - current m) (gs_count req)) as [|Hr]; [by apply Hstep|].
  pose proof (pb_decode_fits _ _ Hm) as (Hfs & Hfc & Hfp).
  destruct (advance_current (gs_count req) (utc_now i) m Hz) as (Ea & Hw & Hlt); [lia|done|].
  destruct (pb_roundtrip (advance_sequence (gs_count req) (utc_now i) m)) as (buf & Eb & Db).
  { split_and!; cbn [start step advance_sequence]; [done|by rewrite Ea|apply Hfp..]. }
  rewrite Eb. client_run. apply Hstep; [done|]. cbn [safe].
  split; [done|]. intros st2 now2 [Hev _] HI2 Hg2 Hnow2 Hroom2. cbn in Hroom2.
  destruct (sequence_swap st1 st2 now2 v m (gs_count req) (utc_now i) buf) as (Hg3 & Hmv & He & Hsucc); [done|lia|done..|lia|done|].
  set (r := sp_serve now2 _ st2) in *. client_run. unfold txn_reply_to_api_result. rewrite He. client_run.
  split_and!; [done..| |].
  - intros a. destruct (reply_success r.2); client_run; [|by intros ?%Hn].
    rewrite HF. intros [= <-]. destruct (Hsucc eq_refl) as [E1 E2]. cbn [post sequence_protocol]. unfold takes. cbn [gr_start gr_end]. rewrite wrap64_small by done. destruct Hg2 as [_ ?]. lia.
  - exists T. split; [auto|]. destruct (reply_success r.2); client_run; [by rewrite HF|apply HN].
Qed.
End protocol.
End sequence.
