(* ===== verification/IdProofs.v ===== *)
(** The [name -> id -> value] mappings (name_id_value_api.rs): the integrity of
    the mappings, and the protocol that concurrent creations, removals and
    updates keep. *)

From stdpp Require Import base orders sorting strings gmap numbers list relations.
From S2P Require Import Prelude BTree RustStr External ExpireKey MetaTypes Marked MapApi Level StateMap.
From S2P Require Import Txn StateMachine Applier ApplierSpec StateMachineProofs ApplierProofs ApplyProofs.
From S2P Require Import SpecFacts Replica SMV003 KeyCodec KeyCodecProofs AppKeys AppKeysProofs KVApi ProtoConv MetaApi ClientProofs ServeProofs.
Local Open Scope N_scope.

Section ids.
Context {sj : SerdeJson} `{!SerdeJsonLaws sj} {V : Type} `{!FromToProto V, !FromToProtoLaws V}.
(** The strings of the names, of the ids and of the id generator. *)
Context (is_name : string → Prop) (id_key : N → string) (gen : string).
Implicit Types (kv : gmap string (SeqV bytes)) (k : string) (n m : N).

(** The keys are apart. *)
Record key_spaces : Prop := {
  id_key_inj : ∀ n m, n < u64_mod → m < u64_mod → id_key n = id_key m → n = m;
  name_not_id : ∀ k n, is_name k → n < u64_mod → k ≠ id_key n;
  name_not_gen : ∀ k, is_name k → k ≠ gen;
  id_not_gen : ∀ n, n < u64_mod → id_key n ≠ gen;
}.

(** ** Integrity *)

Definition refers kv k n : Prop :=
  ∃ v, kv !! k = Some v ∧ lasting v ∧ decode_pb (data v) = Some {| data_id := n |}.
Definition has_value kv n : Prop :=
  ∃ w (x : V), kv !! id_key n = Some w ∧ lasting w ∧ decode_pb (data w) = Some x.
Definition used_id kv n : Prop := n < u64_mod ∧ is_Some (kv !! id_key n).

(** Every name refers to an id that has a value, and no two names to the same. *)
Record integrity kv : Prop := {
  name_refers : ∀ k, is_name k → is_Some (kv !! k) → ∃ n, refers kv k n ∧ has_value kv n;
  refers_inj : ∀ k k' n, is_name k → is_name k' → refers kv k n → refers kv k' n → k = k';
}.

Lemma refers_bound kv k n : refers kv k n → n < u64_mod.
Proof. intros (v & _ & _ & Hd). exact (pb_decode_fits _ _ Hd). Qed.

Lemma refers_fun kv k n m : refers kv k n → refers kv k m → n = m.
Proof. intros (v & Hv & _ & Hd) (v' & Hv' & _ & Hd'). congruence. Qed.

Lemma refers_used kv k n : integrity kv → is_name k → refers kv k n → used_id kv n.
Proof.
  intros HI Hk Hr. destruct (name_refers _ HI k Hk) as (m & Hm & w & x & Hw & _).
  { destruct Hr as (v & Hv & _). eauto. }
  rewrite (refers_fun _ _ _ _ Hr Hm). split; [by eapply refers_bound|]. eauto.
Qed.

(** A key that is left alone: it may only expire. *)
Definition stays k kv kv' : Prop :=
  kv' !! k = kv !! k ∨ (kv' !! k = None ∧ ∀ v, kv !! k = Some v → ¬ lasting v).

Lemma stays_lasting k kv kv' v : stays k kv kv' → kv !! k = Some v → lasting v → kv' !! k = Some v.
Proof. intros [->|[_ H]] Hv Hl; [done|]. by destruct (H v). Qed.
#[export] Instance stays_trans k : Transitive (stays k).
Proof.
  intros kv1 kv2 kv3 [E|[E1 Hn]] [E'|[E1' Hn']]; [left; congruence|right; by rewrite <-E|right; by rewrite E'|by right].
Qed.
Lemma stays_back k kv kv' v : stays k kv kv' → kv' !! k = Some v → kv !! k = Some v.
Proof. intros [->|[-> _]]; done. Qed.

Lemma refers_stays k kv kv' n : stays k kv kv' → refers kv k n ↔ refers kv' k n.
Proof.
  intros Hs. split; intros (v & Hv & Hl & Hd); exists v.
  - by rewrite (stays_lasting k kv kv' v).
  - by rewrite (stays_back k kv kv' v).
Qed.
Lemma has_value_stays kv kv' n : stays (id_key n) kv kv' → has_value kv n → has_value kv' n.
Proof. intros Hs (w & x & Hw & Hl & Hd). exists w, x. by rewrite (stays_lasting _ kv kv' w). Qed.

(** The name [k] referred to [old] and refers to [new]. *)
Lemma integrity_step kv kv' k old new :
  integrity kv → is_name k →
  (∀ k', is_name k' → k' ≠ k → stays k' kv kv') →
  (∀ n, n < u64_mod → old ≠ Some n → new ≠ Some n → stays (id_key n) kv kv') →
  match old with Some n => refers kv k n | None => kv !! k = None end →
  match new with Some n => refers kv' k n ∧ has_value kv' n ∧ ¬ used_id kv n | None => kv' !! k = None end →
  integrity kv' ∧ ∀ n, used_id kv' n → used_id kv n ∨ new = Some n.
Proof.
  intros HI Hk Hnames Hids Hold Hnew.
  assert (∀ k' n, is_name k' → k' ≠ k → refers kv k' n → old ≠ Some n ∧ new ≠ Some n) as Hother.
  { intros k' n Hk' Hne Hr. split.
    - intros ->. apply Hne. by apply (refers_inj _ HI k' k n).
    - intros ->. destruct Hnew as (_ & _ & Hu). apply Hu. by eapply refers_used. }
  split; [split|].
  - intros k' Hk' Hs. destruct (decide (k' = k)) as [->|Hne].
    + destruct new as [n|]; [destruct Hnew as (? & ? & _); eauto|]. destruct Hs as [? ?]. congruence.
    + assert (is_Some (kv !! k')) as Hs' by (destruct Hs as [v Hv]; exists v; by eapply stays_back, Hv; auto).
      destruct (name_refers _ HI k' Hk' Hs') as (n & Hr & Hv). exists n.
      destruct (Hother k' n Hk' Hne Hr). split.
      * apply (refers_stays k' kv kv'); auto.
      * apply (has_value_stays kv kv'); [|done]. apply Hids; [by eapply refers_bound|done..].
  - intros k1 k2 n H1 H2 Hr1 Hr2. destruct (decide (k1 = k)) as [->|N1], (decide (k2 = k)) as [->|N2]; [done|..].
    + destruct new as [m|]; [|destruct Hr1 as (v & ? & _); congruence]. destruct Hnew as (Hr & _).
      apply (refers_stays k2 kv kv') in Hr2; [|auto]. destruct (Hother k2 n H2 N2 Hr2) as [_ []].
      by rewrite (refers_fun _ _ _ _ Hr Hr1).
    + destruct new as [m|]; [|destruct Hr2 as (v & ? & _); congruence]. destruct Hnew as (Hr & _).
      apply (refers_stays k1 kv kv') in Hr1; [|auto]. destruct (Hother k1 n H1 N1 Hr1) as [_ []].
      by rewrite (refers_fun _ _ _ _ Hr Hr2).
    + apply (refers_inj _ HI k1 k2 n); [done..|by apply (refers_stays k1 kv kv'); auto|by apply (refers_stays k2 kv kv'); auto].
  - intros n [Hn [w Hw]]. destruct (decide (new = Some n)) as [|Hnn]; [by right|]. left. split; [done|].
    destruct (decide (old = Some n)) as [->|Ho].
    + by eapply refers_used.
    + exists w. by eapply stays_back, Hw; auto.
Qed.

(** Nothing is written. *)
Lemma integrity_keep kv kv' :
  integrity kv → (∀ k, is_name k → stays k kv kv') → (∀ n, n < u64_mod → stays (id_key n) kv kv') →
  integrity kv' ∧ ∀ n, used_id kv' n → used_id kv n.
Proof.
  intros HI Hnames Hids. split; [split|].
  - intros k Hk [v Hv]. destruct (name_refers _ HI k Hk) as (n & Hr & Hh); [exists v; by eapply stays_back, Hv; auto|].
    exists n. split; [by apply (refers_stays k kv kv'); auto|].
    apply (has_value_stays kv kv'); [|done]. apply Hids. by eapply refers_bound.
  - intros k k' n Hk Hk' Hr Hr'. apply (refers_inj _ HI k k' n); [done..| |].
    + apply (refers_stays k kv kv'); auto.
    + apply (refers_stays k' kv kv'); auto.
  - intros n [Hn [w Hw]]. split; [done|]. exists w. by eapply stays_back, Hw; auto.
Qed.

(** The value of an id is replaced. *)
Lemma integrity_update kv kv' n :
  key_spaces → integrity kv → n < u64_mod → is_Some (kv !! id_key n) → has_value kv' n →
  (∀ k, k ≠ id_key n → stays k kv kv') → integrity kv' ∧ ∀ m, used_id kv' m → used_id kv m.
Proof.
  intros HK HI Hn Hs Hv Hst. assert (∀ k, is_name k → stays k kv kv') as Hnames.
  { intros k Hk. apply Hst. by apply HK. }
  split; [split|].
  - intros k Hk [v Hkv]. destruct (name_refers _ HI k Hk) as (m & Hr & Hh); [exists v; by eapply stays_back, Hkv; auto|].
    exists m. split; [by apply (refers_stays k kv kv'); auto|]. destruct (decide (m = n)) as [->|Hne]; [done|].
    apply (has_value_stays kv kv'); [|done]. apply Hst. intros E. apply Hne.
    by apply (id_key_inj HK); [eapply refers_bound|..].
  - intros k k' m Hk Hk' Hr Hr'. apply (refers_inj _ HI k k' m); [done..| |].
    + apply (refers_stays k kv kv'); auto.
    + apply (refers_stays k' kv kv'); auto.
  - intros m [Hm [w Hw]]. split; [done|]. destruct (decide (id_key m = id_key n)) as [->|Hne]; [done|].
    exists w. by eapply stays_back, Hw; auto.
Qed.

(** ** Requests *)

Section protocol.
Context {raft : OpenRaft}.
Implicit Types (st : Spec) (T : gset N).

Lemma clean_stays now ctx st k :
  Inv st → now < u64_mod → sequence (sp_sys st) + 1 < u64_mod →
  stays k (sp_kv st) (sp_kv (sp_clean now ctx st)).
Proof.
  intros HI Hnow Hs. destruct (sp_clean_spec now ctx st HI Hnow Hs) as (_ & Hk & _). unfold stays. rewrite Hk.
  rewrite map_lookup_filter. destruct (sp_kv st !! k) as [v|] eqn:Hv; [|by left]. cbn.
  destruct (decide (now ≤ opt_expires_at_ms (meta v))) as [|Hn].
  - rewrite option_guard_True by done. by left.
  - rewrite option_guard_False by done. right. split; [done|]. intros v' [= <-] Hl. apply Hn.
    rewrite lasting_expires by done. unfold u64_max. lia.
Qed.

Lemma serve_stays {B} (req : KVReq B) now st k :
  Inv st → now < u64_mod → sequence (sp_sys st) + 1 < u64_mod → req_writes k req = false →
  stays k (sp_kv st) (sp_kv (sp_serve now req st).1).
Proof.
  intros HI Hnow Hs Hw. pose proof (clean_stays now (cmd_ctx_from_millis now) st k HI Hnow Hs) as Hc.
  destruct req as [u|keys|prefix|t]; cbn [sp_serve req_writes] in *; [|by left|by left|].
  - apply bool_decide_eq_false in Hw. unfold stays in *.
    pose proof (upsert_other u (cmd_ctx_from_millis now) (sp_clean now (cmd_ctx_from_millis now) st) k Hw) as Hu.
    destruct (sp_upsert u _ _) as [st' [p r]]. cbn [fst] in *. by rewrite Hu.
  - unfold stays in *. by rewrite (txn_other t).
Qed.

(** A version that was read is still the same value. *)
Lemma version_stable st st' k v v' :
  Inv st → evolves st st' → sp_kv st !! k = Some v → sp_kv st' !! k = Some v' → seq v' = seq v → v' = v.
Proof.
  intros HI [_ Hev] Hv Hv' Hs. destruct (Hev k v' Hv') as [|Hlt]; [congruence|].
  pose proof (seqs_bound _ _ (inv_seqs _ HI) k v Hv). lia.
Qed.

(** ** The protocol *)

Inductive IdResult :=
| Created (r : DataId + SeqV DataId)
| Removed (r : option (SeqV DataId * SeqV V))
| Updated (r : option (DataId * V)).

Definition ids_good st : Prop :=
  integrity (sp_kv st) ∧ ∀ n, used_id (sp_kv st) n → n ≤ sequence (sp_sys st).
Definition ids_rely T st st' : Prop :=
  evolves st st' ∧ ∀ n, n ∈ T → ¬ used_id (sp_kv st) n → ¬ used_id (sp_kv st') n.
Definition ids_guar T st st' : Prop :=
  evolves st st' ∧ ∀ n, used_id (sp_kv st') n → used_id (sp_kv st) n ∨ n ∈ T.

Definition id_protocol : Protocol IdResult := {|
  good := ids_good; rely := ids_rely; guar := ids_guar; post _ _ _ := True;
  owns r T := match r with Created (inl id) => data_id id ∈ T | _ => True end;
|}.

(** Requests of others write neither names nor ids. *)
Definition other_keys (B : Type) (req : KVReq B) : Prop :=
  (∀ k, is_name k → req_writes k req = false) ∧ (∀ n, n < u64_mod → req_writes (id_key n) req = false).

Lemma ids_keep st st' :
  ids_good st → evolves st st' → (∀ k, is_name k → stays k (sp_kv st) (sp_kv st')) →
  (∀ n, n < u64_mod → stays (id_key n) (sp_kv st) (sp_kv st')) →
  ids_good st' ∧ ∀ n, used_id (sp_kv st') n → used_id (sp_kv st) n.
Proof.
  intros [HI Hb] [Hev _] Hk Hn. destruct (integrity_keep _ _ HI Hk Hn) as [HI' Hu]. split; [|done].
  split; [done|]. intros n Hn'. specialize (Hb n (Hu n Hn')). lia.
Qed.

Lemma serve_other_keys {B} (req : KVReq B) now st :
  other_keys B req → Inv st → ids_good st → now < u64_mod → sequence (sp_sys st) + req_cost req + 1 < u64_mod →
  ids_good (sp_serve now req st).1 ∧ ∀ n, used_id (sp_kv (sp_serve now req st).1) n → used_id (sp_kv st) n.
Proof.
  intros [Hk Hn] HI Hg Hnow Hroom. apply ids_keep; [done|by apply serve_evolves|..]; intros; apply serve_stays; auto; lia.
Qed.

#[export] Instance ids_rely_preorder T : PreOrder (ids_rely T).
Proof.
  split.
  - intros st. split; [done|auto].
  - intros st1 st2 st3 [E1 H1] [E2 H2]. split; [by etrans|]. auto.
Qed.

#[export] Instance id_protocol_laws : ProtocolLaws id_protocol other_keys.
Proof.
  split; cbn.
  - apply ids_rely_preorder.
  - intros T st st' (Hk & Hs & _). unfold ids_rely, evolves. rewrite Hk, Hs. split; [split; [done|by left]|done].
  - intros st st' (Hk & Hs & _). unfold ids_good. by rewrite Hk, Hs.
  - intros T T' st st' _ [Hev Hu] Hd _. split; [done|]. intros n Hn Hnu Hn'. destruct (Hu n Hn'); set_solver.
  - intros T B req now st Ho HI Hg Hnow Hroom.
    destruct (serve_other_keys req now st Ho HI Hg Hnow Hroom) as [Hg' Hu]. split; [done|].
    split; [by apply serve_evolves|]. intros n _ Hn Hn'. auto.
Qed.

#[export] Instance id_results : ResultLaws id_protocol (λ _ _, True) (λ _ _, True).
Proof. split; done. Qed.

(** ** The steps of a client *)

Lemma id_safe_read k f T st :
  passes_error f →
  (∀ st1 now, ids_rely T st st1 → Inv st1 → ids_good st1 → now < u64_mod →
    safe id_protocol (f (inl [inl (stream_item (k, non_expired (sp_kv st1 !! k) now))])) T st1) →
  safe id_protocol (Call (ReqGetKVStream [k]) f) T st.
Proof.
  intros He Hf. split; [intros e; by apply passes_error_safe|]. intros st1 now Hr HI Hg Hnow _. cbn [sp_serve fst snd fmap list_fmap].
  split_and!; [done|split; [done|by left]|done|]. exists T. split; [by left|]. by apply Hf.
Qed.

(** The sequence number of the update is a ticket that no id uses. *)
Lemma id_safe_fetch f T st :
  key_spaces → passes_error f →
  (∀ st1 st2 n res v, ids_rely T st st1 → evolves st1 st2 → n < u64_mod → n ≤ sequence (sp_sys st2) →
    ¬ used_id (sp_kv st2) n → ch_result res = Some v → seq v = n → safe id_protocol (f (inl res)) {[n]} st2) →
  safe id_protocol (Call (ReqUpsertKV {| ukey := gen; useq := GE 0; uvalue := Update EmptyString; uvalue_meta := None |}) f) T st.
Proof.
  intros HK He Hf. split; [intros e; by apply passes_error_safe|].
  intros st1 now Hr HI Hg Hnow Hroom. set (req := ReqUpsertKV _).
  assert (other_keys _ req) as Ho.
  { split; [intros k Hk|intros n Hn]; apply bool_decide_eq_false; intros E; cbn in E.
    - by apply (name_not_gen HK k).
    - by apply (id_not_gen HK n). }
  destruct (serve_other_keys req now st1 Ho HI Hg Hnow Hroom) as [Hg2 Hu].
  pose proof (serve_evolves now req st1 Hnow) as Hev. cbn [req_cost cmd_cost uvalue req] in Hroom.
  set (n := sequence (sp_sys st1) + 1).
  assert (∃ v, ch_result (sp_serve now req st1).2 = Some v ∧ seq v = n ∧
    sequence (sp_sys (sp_serve now req st1).1) = n) as (v & Hv & Hs & Hseq).
  { pose proof (serve_update now st1 gen (GE 0) EmptyString HI Hnow ltac:(lia)) as Hu'. cbv zeta in Hu'.
    fold req in Hu'. rewrite match_seq_err_ge in Hu'. destruct (N.ltb_spec (opt_seq (sp_kv (sp_clean now (cmd_ctx_from_millis now) st1) !! gen)) 0); [lia|].
    destruct Hu' as (Hr2 & _ & Hseq). eexists. split; [by rewrite Hr2|done]. }
  split_and!; [done|by split; [|left; auto]|done|].
  exists {[n]}. split; [intros m ->%elem_of_singleton; right; lia|].
  apply (Hf st1 _ n _ v); [done|done|lia|lia| |done|done].
  intros Hn. apply Hu, Hg in Hn. lia.
Qed.

(** A transaction that keeps the integrity when its conditions hold. *)
Lemma id_safe_txn conds ops f T st :
  plain ops → passes_error f →
  (∀ st1 kv kv', ids_rely T st st1 → Inv st1 → (∀ k, stays k (sp_kv st1) kv) → integrity kv →
    Forall (λ c : string * N, opt_seq (kv !! c.1) = c.2) conds → writes_to ops kv kv' →
    integrity kv' ∧ ∀ n, used_id kv' n → used_id kv n ∨ (n ∈ T ∧ n ≤ sequence (sp_sys st))) →
  (∀ st2 reply, reply_error reply = "" → safe id_protocol (f (inl reply)) T st2) →
  safe id_protocol (Call (ReqTransaction (txn_new ((λ c, cond_eq_seq c.1 c.2) <$> conds) ops)) f) T st.
Proof.
  intros Hpl Her Hw Hf. split; [intros e; by apply passes_error_safe|].
  intros st1 now Hr HI Hg Hnow Hroom. assert (sequence (sp_sys st1) + 1 < u64_mod) as Hs by lia.
  destruct (serve_plain now st1 conds ops HI Hnow Hs Hpl) as (He & Hsucc & Htrue & Hfalse).
  set (kv := sp_kv (sp_clean now _ st1)) in *.
  pose proof (serve_evolves now (ReqTransaction (txn_new ((λ c, cond_eq_seq c.1 c.2) <$> conds) ops)) st1 Hnow) as Hev.
  set (r := sp_serve now _ st1) in *.
  assert (∀ k, stays k (sp_kv st1) kv) as Hst by (intros k; by apply clean_stays).
  destruct Hg as [HI1 Hb]. destruct (integrity_keep _ kv HI1) as [HIkv Hukv]; [auto..|].
  assert (integrity (sp_kv r.1) ∧ ∀ n, used_id (sp_kv r.1) n → used_id kv n ∨ (n ∈ T ∧ n ≤ sequence (sp_sys st))) as [HI2 Hu2].
  { destruct (reply_success r.2) eqn:Es.
    - apply (Hw st1 kv); [done..| |by apply Htrue]. symmetry in Hsucc. by apply bool_decide_eq_true in Hsucc.
    - rewrite Hfalse by done. split; [done|auto]. }
  split_and!; [|split; [done|]|done|].
  - split; [done|]. intros n [Hn|[_ Hn]]%Hu2.
    + apply Hukv, Hb in Hn. destruct Hev. lia.
    + destruct Hr as [[Hr _] _], Hev. lia.
  - intros n [Hn|[Hn _]]%Hu2; [left; auto|by right].
  - exists T. split; [by left|]. by apply Hf.
Qed.

(** ** Clients *)

Section clients.
Context {K : Type} `{!KeyCodec K, !Key K, !KeyWithTenant K} (r : TenantResource) (t : Tenant).
Context (HS : key_spaces).
Context (Hid : ∀ n, n < u64_mod → to_string_key (into_t_ident (r := r) {| data_id := n |} t) = KOk (id_key n)).
Context (Hgen : to_string_key id_generator_generic = KOk gen).

(** A name of the tenant. *)
Record name_of (name : K) k : Prop := {
  name_key : to_string_key name = KOk k;
  name_tenant : key_tenant name = t;
  name_is : is_name k;
}.

(** What a client knows of the name it has read. *)
Definition knows k (sid : SeqV DataId) st : Prop :=
  ∃ st0 v, Inv st0 ∧ evolves st0 st ∧ sp_kv st0 !! k = Some v ∧
    refers (sp_kv st0) k (data_id (data sid)) ∧ seq sid = seq v.

Lemma knows_mono k sid st st' : evolves st st' → knows k sid st → knows k sid st'.
Proof. intros Hev (st0 & v & HI & He & H). exists st0, v. split; [done|]. split; [by etrans|done]. Qed.

(** The name has still the version that was read, so it refers to the id. *)
Lemma knows_refers k sid st kv :
  knows k sid st → stays k (sp_kv st) kv → opt_seq (kv !! k) = seq sid → refers kv k (data_id (data sid)).
Proof.
  intros (st0 & v & HI & Hev & Hv & Hr & Hs) Hst Hseq.
  pose proof (seqs_bound _ _ (inv_seqs _ HI) k v Hv) as Hb.
  destruct (kv !! k) as [v'|] eqn:Hv'; cbn in Hseq; [|lia].
  assert (v' = v) as ->.
  { eapply version_stable; [exact HI|exact Hev|done|by eapply stays_back|congruence]. }
  destruct Hr as (v0 & Hv0 & Hl & Hd). rewrite Hv in Hv0. injection Hv0 as <-. by exists v.
Qed.

Lemma id_safe_lookup T st name k F :
  name_of name k →
  (∀ st1 got, ids_rely T st st1 → match got with Some (sid, _) => knows k sid st1 | None => True end →
    safe id_protocol (F got) T st1) →
  safe id_protocol (client_bind F (get_id_and_value (V := V) r name)) T st.
Proof.
  intros [Hk Ht Hn] HF. unfold get_id_and_value, get_pb. rewrite Hk, Ht. client_run.
  apply id_safe_read; [by eexists|]. client_run. intros st1 now Hr1 HI1 Hg1 Hnow. unfold stream_item. client_run.
  destruct (sp_kv st1 !! k) as [v|] eqn:Hv.
  2: { unfold non_expired. destruct (opt_is_expired None now); client_run; by apply HF. }
  destruct (name_refers _ (proj1 Hg1) k Hn) as (n & Href & _); [by rewrite Hv|].
  pose proof (refers_bound _ _ _ Href) as Hb. destruct (Href) as (v0 & Hv0 & Hl & Hd).
  rewrite Hv in Hv0. injection Hv0 as <-. rewrite lasting_read by done. client_run. rewrite lasting_pb by done.
  unfold decode_seqv at 1. rewrite Hd. client_run. rewrite Hid by done. client_run.
  apply id_safe_read; [by eexists|]. client_run. intros st2 now2 Hr2 HI2 Hg2 Hnow2. unfold stream_item. client_run.
  destruct (non_expired (sp_kv st2 !! id_key n) now2) as [w|]; client_run; [|apply HF; [by etrans|done]].
  destruct (decode_seqv (SeqV_of_pb (pb_SeqV_of w))) as [x|]; client_run; [|done].
  apply HF; [by etrans|]. exists st1, v. split_and!; [done|by destruct Hr2|done|done|done].
Qed.

(** Keys that are neither names nor ids. *)
Definition free_keys (ks : list string) : Prop :=
  (∀ k, is_name k → k ∉ ks) ∧ (∀ n, n < u64_mod → id_key n ∉ ks).

(** The operations of a creation: what was there before is deleted, the new
    records are put. *)
Definition create_ops k n b1 b2 (kvs : list (string * bytes)) (ops : list TxnOp) : list TxnOp :=
  ops ++ [put_with_ttl k b1 None; put_with_ttl (id_key n) b2 None] ++ put_all kvs.

Lemma create_integrity kv kv' k old n b1 b2 (x : V) kvs ops :
  integrity kv → is_name k → n < u64_mod → free_keys kvs.*1 → ¬ used_id kv n →
  (∀ k', is_name k' → last_effect k' ops = None) →
  (∀ m, m < u64_mod → old ≠ Some m → last_effect (id_key m) ops = None) →
  match old with Some n => refers kv k n | None => kv !! k = None end →
  decode_pb b1 = Some {| data_id := n |} → decode_pb b2 = Some x →
  writes_to (create_ops k n b1 b2 kvs ops) kv kv' →
  integrity kv' ∧ ∀ m, used_id kv' m → used_id kv m ∨ m = n.
Proof.
  intros HI Hk Hn [HA1 HA2] Hun Hnames Hids Hold Hd1 Hd2 Hw.
  assert (∀ k', k' ∉ kvs.*1 → last_effect k' (create_ops k n b1 b2 kvs ops) =
    if decide (id_key n = k') then Some (Some b2)
    else if decide (k = k') then Some (Some b1) else last_effect k' ops) as Hle.
  { intros k' Hk'. unfold create_ops. rewrite !last_effect_app, last_effect_puts by done. cbn.
    by destruct (decide (id_key n = k')), (decide (k = k')). }
  assert (id_key n ≠ k) as Hne by (intros E; by apply (name_not_id HS k n)).
  destruct (integrity_step kv kv' k old (Some n)) as [HI' Hu]; [done|done| | |done| |].
  - intros k' Hk' Hne'. specialize (Hw k'). rewrite Hle in Hw by auto.
    rewrite !decide_False in Hw by (congruence || by intros <-; eapply (name_not_id HS)).
    rewrite Hnames in Hw by done. by left.
  - intros m Hm Ho Hnm. specialize (Hw (id_key m)). rewrite Hle in Hw by auto.
    rewrite decide_False in Hw by (intros E; apply Hnm; f_equal; by apply (id_key_inj HS)).
    rewrite decide_False in Hw by (by eapply (name_not_id HS)). rewrite Hids in Hw by done. by left.
  - split_and!; [| |done].
    + specialize (Hw k). rewrite Hle, decide_False, decide_True in Hw by auto.
      destruct Hw as (v1 & Hv1 & Hl1 & Hb1). exists v1. by rewrite Hb1.
    + specialize (Hw (id_key n)). rewrite Hle, decide_True in Hw by auto.
      destruct Hw as (v2 & Hv2 & Hl2 & Hb2). exists v2, x. by rewrite Hb2.
  - split; [done|]. intros m [?|[= ->]]%Hu; auto.
Qed.

(** The second half of a creation: a transaction so far that deletes at most
    the old id, under conditions that fix what the name refers to. *)
Lemma create_finish_safe T st name k (value : V) assoc conds ops cseq old F :
  name_of name k → value_fits value → (∀ id, free_keys (assoc id).*1) → plain ops →
  (∀ k', is_name k' → last_effect k' ops = None) →
  (∀ n, n < u64_mod → old ≠ Some n → last_effect (id_key n) ops = None) →
  (∀ st1 kv, evolves st st1 → (∀ k, stays k (sp_kv st1) kv) → opt_seq (kv !! k) = cseq → integrity kv → Inv st1 →
    match old with Some n => refers kv k n | None => kv !! k = None end) →
  (∀ T st, safe id_protocol (F None) T st) →
  (∀ n T st, n ∈ T → safe id_protocol (F (Some (inl {| data_id := n |}))) T st) →
  safe id_protocol (client_bind F (create_with_new_id r name value assoc
    (txn_new ((λ c, cond_eq_seq c.1 c.2) <$> conds) ops) cseq)) T st.
Proof.
  intros [Hk Ht Hn] Hfit Hassoc Hpl Hnames Hids Hold HN HF.
  unfold create_with_new_id, fetch_id, txn_cond_eq_seq, txn_op_put_pb. rewrite Hgen, Hk, Ht. client_run.
  apply id_safe_fetch; [done|by eexists|]. client_run. intros st1 st2 n res v [Hev1 _] Hev2 Hlt Hle Hun Hres <-. rewrite Hres. client_run.
  rewrite Hid by done. destruct (pb_roundtrip {| data_id := seq v |}) as (b1 & -> & Hd1); [exact Hlt|]. client_run.
  destruct (pb_roundtrip value Hfit) as (b2 & -> & Hd2). client_run. set (kvs := assoc {| data_id := seq v |}).
  assert (push_ops (put_all kvs) (push_ops [put_with_ttl k b1 None; put_with_ttl (id_key (seq v)) b2 None]
    (push_cond (cond_eq_seq k cseq) (txn_new ((λ c, cond_eq_seq c.1 c.2) <$> conds) ops))) =
    txn_new ((λ c, cond_eq_seq c.1 c.2) <$> (conds ++ [(k, cseq)])) (create_ops k (seq v) b1 b2 kvs ops)) as ->.
  { unfold create_ops, push_ops, push_cond, txn_new. cbn. by rewrite fmap_app, <-app_assoc. }
  apply id_safe_txn.
  - apply Forall_app. split; [done|]. apply Forall_app. split; [|apply plain_puts]. repeat constructor; by eexists.
  - intros e. by eexists.
  - intros st3 kv kv' [Hev3 Hrel] HI3 Hst HI [_ [Hc _]%Forall_cons]%Forall_app Hw. cbn in Hc.
    destruct (create_integrity kv kv' k old (seq v) b1 b2 value kvs ops) as [HI' Hu]; [done|done|done|apply Hassoc| |done|done| |done|done|done|].
    + intros [_ [w Hw']]. apply (Hrel (seq v)); [set_solver|done|]. split; [done|]. exists w. by eapply stays_back.
    + apply (Hold st3 kv); [by etrans; [|etrans]|done..].
    + split; [done|]. intros m [?| ->]%Hu; [by left|right; split; [set_solver|done]].
  - intros st4 reply He. client_run. unfold txn_reply_to_api_result. rewrite He. client_run.
    destruct (reply_success reply); [apply HF; set_solver|apply HN].
Qed.

(** ** Creating *)

Lemma create_safe T st name k (value : V) override assoc mark :
  name_of name k → value_fits value → (∀ id, free_keys (assoc id).*1) →
  (∀ id x kvs, mark id x = inl kvs → free_keys kvs.*1) →
  safe id_protocol (x ← create_id_value r name value override assoc mark; mret (Created x)) T st.
Proof.
  intros Hname Hfit Hassoc Hmark. apply safe_bind_trials. clear T st. intros F j T st HF HN.
  apply safe_assoc, (id_safe_lookup T st name k); [done|]. intros st1 got [Hev _] Hgot.
  assert (∀ n T st, n ∈ T → safe id_protocol (F (Some (inl {| data_id := n |}))) T st) as HF'.
  { intros n T' st' Hn. rewrite HF. exact Hn. }
  unfold override_txn. destruct got as [[sid sx]|]; client_run.
  2: { apply (create_finish_safe T st1 name k value assoc [] [] 0 None); [done|done|done|constructor|done|done| |done|done].
       intros st2 kv _ Hst Hz HI HInv. destruct (kv !! k) as [v|] eqn:Hv; [|done].
       pose proof (seqs_bound _ _ (inv_seqs _ HInv) k v (stays_back _ _ _ _ (Hst k) Hv)). cbn in Hz. lia. }
  destruct override; cbn [negb]; [|client_run; by rewrite HF].
  destruct sid as [sq mt [n]]. assert (n < u64_mod) as Hb.
  { destruct Hgot as (st0 & v & _ & _ & _ & Hr & _). by eapply refers_bound. }
  unfold txn_cond_eq_seq, txn_op_del. rewrite (name_tenant _ _ Hname). cbn [data]. rewrite Hid by done. client_run.
  destruct (mark {| data_id := n |} (data sx)) as [kvs|e] eqn:Em; client_run; [|done].
  rewrite deletes_keys.
  apply (create_finish_safe T st1 name k value assoc [(id_key n, seq sx)]
    (op_delete (id_key n) :: (op_delete <$> (assoc {| data_id := n |}).*1) ++ put_all kvs) sq (Some n)); try done.
  - constructor; [by eexists|]. apply Forall_app. split; [apply plain_deletes|apply plain_puts].
  - intros k' Hk'. cbn. rewrite last_effect_app, last_effect_puts by (by eapply Hmark).
    rewrite last_effect_deletes by (by apply Hassoc). rewrite decide_False; [done|]. intros E. by apply (name_not_id HS k' n).
  - intros m Hm Hne. cbn. rewrite last_effect_app, last_effect_puts by (by eapply Hmark).
    rewrite last_effect_deletes by (by apply Hassoc). rewrite decide_False; [done|].
    intros E. apply Hne. f_equal. by apply (id_key_inj HS).
  - intros st2 kv Hev2 Hst Hs _ _. exact (knows_refers k _ st2 kv (knows_mono _ _ _ _ Hev2 Hgot) (Hst k) Hs).
Qed.

(** ** Removing *)

Lemma remove_safe T st name k (keys : DataId → list string) :
  name_of name k → (∀ id, free_keys (keys id)) →
  safe id_protocol (x ← remove_id_value r name keys; mret (Removed x)) T st.
Proof.
  intros Hname Hkeys. apply safe_bind_trials. clear T st. intros F j T st HF HN.
  apply safe_assoc, (id_safe_lookup T st name k); [done|]. intros st1 got [Hev _] Hgot.
  destruct got as [[sid sx]|]; client_run; [|by rewrite HF].
  destruct sid as [sq mt [n]]. assert (n < u64_mod) as Hb.
  { destruct Hgot as (st0 & v & _ & _ & _ & Hr & _). by eapply refers_bound. }
  unfold txn_delete_exact, txn_cond_eq_seq, txn_op_del. rewrite (name_tenant _ _ Hname), (name_key _ _ Hname).
  client_run. rewrite Hid by done. client_run.
  apply (id_safe_txn [(k, sq); (id_key n, seq sx)]
    (op_delete k :: op_delete (id_key n) :: (op_delete <$> keys {| data_id := n |}))).
  - do 2 (constructor; [by eexists|]). apply plain_deletes.
  - intros e. by eexists.
  - intros st2 kv kv' [Hev2 _] HI2 Hst HI [Hc _]%Forall_cons Hw. cbn in Hc.
    pose proof (knows_refers k _ st2 kv (knows_mono _ _ _ _ Hev2 Hgot) (Hst k) Hc) as Hr. cbn in Hr.
    assert (∀ k', k' ≠ id_key n → k' ∉ keys {| data_id := n |} → last_effect k'
      (op_delete k :: op_delete (id_key n) :: (op_delete <$> keys {| data_id := n |})) = if decide (k = k') then Some None else None) as Hle.
    { intros k' Hne Hk'. cbn. rewrite last_effect_deletes, decide_False by done. by destruct (decide (k = k')). }
    pose proof (name_is _ _ Hname) as Hn. destruct (Hkeys {| data_id := n |}) as [HA1 HA2].
    destruct (integrity_step kv kv' k (Some n) None) as [HI' Hu]; [done|done| | |done| |].
    + intros k' Hk' Hne. specialize (Hw k'). rewrite Hle, decide_False in Hw by (auto || by apply HS). by left.
    + intros m Hm Ho _. specialize (Hw (id_key m)).
      assert (id_key m ≠ id_key n) by (intros E; apply Ho; f_equal; symmetry; by apply (id_key_inj HS)).
      rewrite Hle, decide_False in Hw by (auto || by apply HS). by left.
    + specialize (Hw k). by rewrite Hle, decide_True in Hw by (auto || by apply HS).
    + split; [done|]. intros m [?|?]%Hu; [by left|done].
  - intros st2 reply He. client_run. unfold txn_reply_to_api_result. rewrite He. client_run.
    destruct (reply_success reply); [by rewrite HF|apply HN].
Qed.

(** ** Updating *)

Lemma update_safe T st name k (value : V) :
  name_of name k → value_fits value →
  safe id_protocol (x ← update_id_value r name value; mret (Updated x)) T st.
Proof.
  intros Hname Hfit. unfold update_id_value. apply safe_assoc, (id_safe_lookup T st name k); [done|].
  intros st1 got _ Hgot. destruct got as [[sid sx]|]; client_run; [|done].
  destruct sid as [sq mt [n]]. assert (n < u64_mod) as Hb.
  { destruct Hgot as (st0 & v & _ & _ & _ & Hr & _). by eapply refers_bound. }
  unfold update_by_id, upsert_pb. cbn [upb_key upb_seq upb_value upb_value_meta]. rewrite (name_tenant _ _ Hname).
  cbn [data]. rewrite Hid by done. client_run. cbn [encode_operation].
  destruct (pb_roundtrip value Hfit) as (b & -> & Hd). client_run.
  split; [done|]. intros st2 now _ HI Hg Hnow Hroom. set (req := ReqUpsertKV _). cbn [req_cost cmd_cost uvalue req] in Hroom.
  pose proof (serve_evolves now req st2 Hnow) as Hev. set (ctx := cmd_ctx_from_millis now).
  assert (∀ k, stays k (sp_kv st2) (sp_kv (sp_clean now ctx st2))) as Hst by (intros; apply clean_stays; done || lia).
  destruct (sp_clean_spec now ctx st2 HI Hnow) as (HIc & _); [lia|]. destruct Hg as [HI2 Hb2].
  destruct (integrity_keep _ _ HI2 (λ k _, Hst k) (λ m _, Hst (id_key m))) as [HIk Huk].
  assert (integrity (sp_kv (sp_serve now req st2).1) ∧
    ∀ m, used_id (sp_kv (sp_serve now req st2).1) m → used_id (sp_kv st2) m) as [HI3 Hu].
  { pose proof (upsert_present_spec (id_key n) b ctx (sp_clean now ctx st2) (inv_positive _ HIc)) as Hk.
    subst req. cbn [sp_serve]. fold ctx. destruct (sp_upsert _ ctx _) as [st3 [p q]]. cbn [fst] in *. rewrite Hk.
    destruct (sp_kv (sp_clean now ctx st2) !! id_key n) as [w|] eqn:Hw; [|done].
    destruct (integrity_update (sp_kv (sp_clean now ctx st2)) (<[id_key n := mk_SeqV (sequence (sp_sys (sp_clean now ctx st2)) + 1) None b]>
      (sp_kv (sp_clean now ctx st2))) n HS HIk Hb) as [H1 H2]; [by eexists| | |split; [done|auto]].
    - eexists _, value. rewrite lookup_insert_eq. done.
    - intros k' Hne. left. by rewrite lookup_insert_ne. }
  split_and!; [|split; [done|by left; auto]|done|].
  - split; [done|]. intros m Hm%Hu%Hb2. destruct Hev. lia.
  - exists T. split; [by left|]. client_run. unfold decode_transition. generalize (sp_serve now req st2).2 as reply. intros reply.
    destruct (ch_prev reply) as [p|]; [destruct (decode_seqv p) eqn:Ep|]; client_run; rewrite ?Ep; client_run; try done;
      (destruct (ch_result reply) as [q|]; [destruct (decode_seqv q) eqn:Eq|]; client_run; rewrite ?Eq; client_run; done).
Qed.
End clients.
End protocol.
End ids.

(** ** The keys of names and ids *)

Section keys.
Context {K : Type} `{!KeyCodec K, !Key K, !KeyWithTenant K, !KeyCodecLaws K} (r : TenantResource) (t : Tenant).

Definition is_name_of (k : string) : Prop :=
  ∃ name : K, key_ok name ∧ key_tenant name = t ∧ to_string_key name = KOk k.
(** The tenant is not written when the resource has none. *)
Definition id_ident (n : N) : TIdent r DataId :=
  into_t_ident {| data_id := n |} (if HAS_TENANT r then t else {| tenant := "dummy" |}).
Definition id_key_of (n : N) : string := join_with slash (full_segs (id_ident n)).
Definition generic_key : string := "__fd_id_gen/generic".

(** The names, the ids and the id generator have different prefixes. *)
Record spaces_ok : Prop := {
  name_prefix : prefix_ok (KEY_PREFIX K);
  id_prefix : prefix_ok (RSC_PREFIX r);
  prefixes_ne : KEY_PREFIX K ≠ RSC_PREFIX r;
  name_prefix_gen : KEY_PREFIX K ≠ "__fd_id_gen";
  id_prefix_gen : RSC_PREFIX r ≠ "__fd_id_gen";
  tenant_ok : str_ok (tenant t) ∧ tenant t ≠ EmptyString;
}.
Context (Hok : spaces_ok).

Lemma id_ident_ok n : n < u64_mod → key_ok (id_ident n).
Proof. intros Hn. pose proof (tenant_ok Hok). cbn. by destruct (HAS_TENANT r). Qed.

Lemma id_key_string n :
  n < u64_mod → to_string_key (into_t_ident (r := r) {| data_id := n |} t) = KOk (id_key_of n).
Proof.
  intros Hn. assert (prefix_ok (KEY_PREFIX (TIdent r DataId))) as Hp by exact (id_prefix Hok).
  unfold id_key_of. rewrite <-(to_string_key_eq Hp) by by apply id_ident_ok.
  unfold to_string_key, id_ident. cbn. unfold tident_encode. by destruct (HAS_TENANT r).
Qed.

Lemma split_id_key n : n < u64_mod → split_on slash (id_key_of n) = full_segs (id_ident n).
Proof. intros Hn. apply split_join; [done|]. apply full_segment; [apply Hok|by apply id_ident_ok]. Qed.

Lemma last_id_segs n : last (full_segs (id_ident n)) = Some (dec_string n).
Proof. unfold full_segs, id_ident. cbn [key_segs tident_codec_laws]. by destruct (HAS_TENANT r). Qed.

Lemma split_name k : is_name_of k → ∃ segs, split_on slash k = KEY_PREFIX K :: segs.
Proof.
  intros (name & Hn & _ & E). rewrite to_string_key_eq in E by (done || apply Hok). assert (k = join_with slash (full_segs name)) as -> by congruence.
  exists (key_segs name). apply (split_join (full_segs name)); [done|]. apply full_segment; [apply Hok|done].
Qed.

Lemma key_spaces_of : key_spaces is_name_of id_key_of generic_key.
Proof.
  split.
  - intros n m Hn Hm E. apply (f_equal (split_on slash)) in E. rewrite !split_id_key in E by done.
    apply (f_equal last) in E. rewrite !last_id_segs in E. apply (f_equal (λ o, o ≫= parse_u64)) in E.
    cbn [mbind option_bind] in E. rewrite !parse_u64_dec_string in E by done. congruence.
  - intros k n [segs Hs]%split_name Hn ->. rewrite split_id_key in Hs by done.
    apply (f_equal head) in Hs. injection Hs as Hp. by apply (prefixes_ne Hok).
  - intros k [segs Hs]%split_name ->. change (split_on slash generic_key) with ["__fd_id_gen"; "generic"] in Hs.
    apply (f_equal head) in Hs. injection Hs as Hp. by apply (name_prefix_gen Hok).
  - intros n Hn E. apply (f_equal (split_on slash)) in E. rewrite split_id_key in E by done.
    change (split_on slash generic_key) with ["__fd_id_gen"; "generic"] in E.
    apply (f_equal head) in E. injection E as E. by apply (id_prefix_gen Hok).
Qed.
End keys.
