(* ===== verification/KvProtocol.v ===== *)
(** Protocols that keep an invariant of the key-values: what concurrent clients need
    to show of each of their requests. *)

From stdpp Require Import base orders sorting strings gmap numbers list relations.
From S2P Require Import Prelude BTree RustStr External ExpireKey MetaTypes Marked MapApi Level StateMap.
From S2P Require Import Txn StateMachine Applier ApplierSpec StateMachineProofs ApplierProofs ApplyProofs.
From S2P Require Import SpecFacts Replica SMV003 KeyCodec AppKeys KVApi ProtoConv MetaApi ClientProofs ServeProofs IdProofs.
Local Open Scope N_scope.

Implicit Types (kv : gmap string (SeqV bytes)) (k : string).

(** The invariant [I] and the relation [R] between what a client has seen and what
    comes later depend on the keys in [D], which are never removed by expiration. *)
Class KvInvariant (D : string → Prop) (I : gmap string (SeqV bytes) → Prop)
    (R : relation (gmap string (SeqV bytes))) : Prop := {
  kv_preorder :: PreOrder R;
  kv_stays kv kv' : I kv → (∀ k, D k → stays k kv kv') → I kv' ∧ R kv kv';
}.

Section protocol.
Context {raft : OpenRaft} {A : Type} (D : string → Prop) (I : gmap string (SeqV bytes) → Prop)
  (R : relation (gmap string (SeqV bytes))) `{!KvInvariant D I R}.
Implicit Types (st : Spec) (T : gset N).

Definition kv_rely st st' : Prop := evolves st st' ∧ R (sp_kv st) (sp_kv st').

#[export] Instance kv_rely_preorder : PreOrder kv_rely.
Proof.
  split.
  - intros st. by split.
  - intros st1 st2 st3 [E1 H1] [E2 H2]. split; by etrans.
Qed.

Definition kv_protocol : Protocol A := {|
  good st := I (sp_kv st); rely _ := kv_rely; guar _ := kv_rely; post _ _ _ := True; owns _ _ := True;
|}.

(** Requests of others write none of the keys. *)
Definition avoids_keys (B : Type) (req : KVReq B) : Prop := ∀ k, D k → req_writes k req = false.

Lemma serve_avoids {B} (req : KVReq B) now st :
  avoids_keys B req → Inv st → I (sp_kv st) → now < u64_mod → sequence (sp_sys st) + req_cost req + 1 < u64_mod →
  I (sp_kv (sp_serve now req st).1) ∧ kv_rely st (sp_serve now req st).1.
Proof.
  intros Ha HI Hg Hnow Hroom. destruct (kv_stays (sp_kv st) (sp_kv (sp_serve now req st).1) Hg) as [HI' HR].
  { intros k Hk. apply serve_stays; [done..|lia|by apply Ha]. }
  split; [done|]. split; [by apply serve_evolves|done].
Qed.

#[export] Instance kv_protocol_laws : ProtocolLaws kv_protocol avoids_keys.
Proof.
  split; cbn.
  - intros _. apply _.
  - intros _ st st' (Hk & Hs & _). unfold kv_rely, evolves. rewrite Hk, Hs. split; [split; [done|by left]|done].
  - intros st st' (Hk & _). by rewrite Hk.
  - done.
  - intros _ B req now st Ha HI Hg Hnow Hroom. by apply serve_avoids.
Qed.
#[export] Instance kv_results : ResultLaws kv_protocol (λ _ _, True) (λ _ _, True).
Proof. by split. Qed.

(** A client after an error. *)
Definition recovers {B} (f : B + MetaError → Client A) : Prop :=
  ∀ e, (∀ a, f (inr e) ≠ Done (COk a)) ∧ ∀ T st, safe kv_protocol (f (inr e)) T st.

Lemma kv_safe_read k f T st :
  recovers f →
  (∀ st1 now, kv_rely st st1 → Inv st1 → I (sp_kv st1) → now < u64_mod →
    safe kv_protocol (f (inl [inl (stream_item (k, non_expired (sp_kv st1 !! k) now))])) T st1) →
  safe kv_protocol (Call (ReqGetKVStream [k]) f) T st.
Proof.
  intros He Hf. split; [exact He|]. intros st1 now Hr HI Hg Hnow _. cbn [sp_serve fst snd fmap list_fmap].
  split_and!; [done|done|done|]. exists T. split; [by left|]. by apply Hf.
Qed.

(** Updating a key of nobody: the reply has a value, whose version is an [u64]. *)
Lemma kv_safe_update k b f T st :
  ¬ D k → recovers f →
  (∀ st1 st2 res v, kv_rely st st1 → kv_rely st1 st2 → ch_result res = Some v → seq v < u64_mod →
    safe kv_protocol (f (inl res)) T st2) →
  safe kv_protocol (Call (ReqUpsertKV {| ukey := k; useq := GE 0; uvalue := Update b; uvalue_meta := None |}) f) T st.
Proof.
  intros HD He Hf. split; [exact He|]. intros st1 now Hr HI Hg Hnow Hroom. set (req := ReqUpsertKV _) in *.
  assert (avoids_keys _ req) as Ha by (intros k' Hk'; apply bool_decide_eq_false; by intros <-).
  destruct (serve_avoids req now st1 Ha HI Hg Hnow Hroom) as [Hg2 Hr2]. cbn [req_cost cmd_cost uvalue req] in Hroom.
  split_and!; [done|done|done|]. exists T. split; [by left|].
  pose proof (serve_update now st1 k (GE 0) b HI Hnow ltac:(lia)) as Hu. cbv zeta in Hu. fold req in Hu.
  rewrite match_seq_err_ge in Hu.
  destruct (N.ltb_spec (opt_seq (sp_kv (sp_clean now (cmd_ctx_from_millis now) st1) !! k)) 0); [lia|].
  destruct Hu as (Hres & _). eapply (Hf st1); [done|done|by rewrite Hres|]. cbn. lia.
Qed.

(** A transaction of puts and deletes that keeps the invariant when its conditions
    hold. *)
Lemma kv_safe_txn conds ops f T st :
  plain ops → recovers f →
  (∀ st1 kv kv', kv_rely st st1 → Inv st1 → (∀ k, stays k (sp_kv st1) kv) → I kv →
    Forall (λ c : string * N, opt_seq (kv !! c.1) = c.2) conds → writes_to ops kv kv' → I kv' ∧ R kv kv') →
  (∀ st2 reply, reply_error reply = "" → safe kv_protocol (f (inl reply)) T st2) →
  safe kv_protocol (Call (ReqTransaction (txn_new ((λ c, cond_eq_seq c.1 c.2) <$> conds) ops)) f) T st.
Proof.
  intros Hpl He Hw Hf. split; [exact He|]. intros st1 now Hr HI Hg Hnow Hroom. cbn [good kv_protocol] in Hg.
  assert (sequence (sp_sys st1) + 1 < u64_mod) as Hs by lia.
  destruct (serve_plain now st1 conds ops HI Hnow Hs Hpl) as (Her & Hsucc & Htrue & Hfalse).
  set (kv := sp_kv (sp_clean now _ st1)) in *.
  pose proof (serve_evolves now (ReqTransaction (txn_new ((λ c, cond_eq_seq c.1 c.2) <$> conds) ops)) st1 Hnow) as Hev.
  set (r := sp_serve now _ st1) in *.
  assert (∀ k, stays k (sp_kv st1) kv) as Hst by (intros k; by apply clean_stays).
  destruct (kv_stays (sp_kv st1) kv Hg) as [Hkv HR]; [auto|].
  assert (I (sp_kv r.1) ∧ R kv (sp_kv r.1)) as [HI2 HR2].
  { destruct (reply_success r.2) eqn:Es.
    - apply (Hw st1 kv); [done..| |by apply Htrue]. symmetry in Hsucc. by apply bool_decide_eq_true in Hsucc.
    - by rewrite Hfalse. }
  split_and!; [done|split; [done|by etrans]|done|]. exists T. split; [by left|]. by apply Hf.
Qed.
End protocol.

(** ** What a client knows *)

(** The key has a value of the type [V] that does not expire. *)
Definition stored {V} `{!FromToProto V} kv k (x : V) : Prop :=
  ∃ v, kv !! k = Some v ∧ lasting v ∧ decode_pb (data v) = Some x.

Section stored.
Context {V : Type} `{!FromToProto V}.
Implicit Type x : V.

Lemma stored_fun kv k x x' : stored kv k x → stored kv k x' → x = x'.
Proof. intros (v & Hv & _ & Hd) (v' & Hv' & _ & Hd'). congruence. Qed.
Lemma stored_stays kv kv' k x : stays k kv kv' → stored kv k x ↔ stored kv' k x.
Proof.
  intros Hs. split; intros (v & Hv & Hl & Hd); exists v.
  - by rewrite (stays_lasting k kv kv' v).
  - by rewrite (stays_back k kv kv' v).
Qed.
Lemma stored_some kv k x : stored kv k x → is_Some (kv !! k).
Proof. intros (v & Hv & _). eauto. Qed.
Lemma stored_written kv k v b x : kv !! k = Some v → lasting v → data v = b → decode_pb b = Some x → stored kv k x.
Proof. intros Hv Hl <- Hd. by exists v. Qed.
End stored.

(** A value with this version was there. *)
Definition versioned {raft : OpenRaft} (st : Spec) k (v : SeqV bytes) : Prop :=
  ∃ st0, Inv st0 ∧ evolves st0 st ∧ sp_kv st0 !! k = Some v.

Section versions.
Context {raft : OpenRaft}.
Implicit Type st : Spec.

Lemma versioned_mono st st' k v : evolves st st' → versioned st k v → versioned st' k v.
Proof. intros Hev (st0 & HI & He & Hv). exists st0. split; [done|]. split; [by etrans|done]. Qed.

(** If the version is the same, so is the value. *)
Lemma versioned_same st kv k v :
  versioned st k v → stays k (sp_kv st) kv → opt_seq (kv !! k) = seq v → kv !! k = Some v.
Proof.
  intros (st0 & HI & Hev & Hv) Hst Hs. pose proof (inv_positive st0 HI k v Hv) as Hp.
  destruct (kv !! k) as [v'|] eqn:Hv'; cbn in Hs; [|lia]. f_equal.
  eapply version_stable; [exact HI|exact Hev|done|by eapply stays_back|done].
Qed.
Lemma version_zero st kv k : Inv st → stays k (sp_kv st) kv → opt_seq (kv !! k) = 0 → kv !! k = None.
Proof.
  intros HI Hst Hs. destruct (kv !! k) as [v|] eqn:Hv; [|done].
  pose proof (inv_positive st HI k v (stays_back _ _ _ _ Hst Hv)). cbn in Hs. lia.
Qed.
End versions.

(** ** Reading a value *)

Section reading.
Context {raft : OpenRaft} {V : Type} `{!FromToProto V}.
Implicit Type st : Spec.

(** What a read gives: a version and its value, or nothing that lasts. *)
Definition read_at st k (o : option (SeqV V)) : Prop :=
  match o with
  | Some sv => ∃ v, sp_kv st !! k = Some v ∧ seq v = seq sv ∧ decode_pb (data v) = Some (data sv)
  | None => ∀ v, sp_kv st !! k = Some v → ¬ lasting v
  end.

(** The value that was read with its version. *)
Definition known st k (sv : SeqV V) : Prop :=
  ∃ v, versioned st k v ∧ seq v = seq sv ∧ decode_pb (data v) = Some (data sv).

Lemma read_known st st' k sv : Inv st → evolves st st' → read_at st k (Some sv) → known st' k sv.
Proof. intros HI Hev (v & Hv & Hs & Hd). exists v. split; [by exists st|done]. Qed.
Lemma known_mono st st' k sv : evolves st st' → known st k sv → known st' k sv.
Proof. intros Hev (v & Hv & H). exists v. split; [by eapply versioned_mono|done]. Qed.

(** The value was read between two states. *)
Definition read_since st st1 k (sv : SeqV V) : Prop :=
  ∃ st', evolves st st' ∧ evolves st' st1 ∧ Inv st' ∧ read_at st' k (Some sv).

Lemma read_since_known st st1 k sv : read_since st st1 k sv → known st1 k sv.
Proof. intros (st' & _ & Hev & HI & Hr). by eapply read_known. Qed.
Lemma read_since_mono st st1 st2 k sv : evolves st1 st2 → read_since st st1 k sv → read_since st st2 k sv.
Proof. intros Hev (st' & H1 & H2 & H3). exists st'. split; [done|]. split; [by etrans|done]. Qed.

(** A value that was there before and is there now was read. *)
Lemma read_since_same st st1 kv k v sv :
  versioned st k v → read_since st st1 k sv → stays k (sp_kv st1) kv → kv !! k = Some v →
  decode_pb (data v) = Some (data sv).
Proof.
  intros (st0 & HI0 & He0 & Hv0) (st' & He & He1 & HI' & w & Hw & _ & Hd) Hst Hv.
  assert (w = v) as ->; [|done]. destruct (proj2 He1 k v (stays_back _ _ _ _ Hst Hv)) as [Hv'|Hlt]; [congruence|].
  pose proof (seqs_bound _ _ (inv_seqs _ HI0) k v Hv0). destruct He0 as [? _], He as [? _]. lia.
Qed.

Lemma known_same st kv k sv :
  known st k sv → stays k (sp_kv st) kv → opt_seq (kv !! k) = seq sv →
  ∃ v, kv !! k = Some v ∧ decode_pb (data v) = Some (data sv).
Proof. intros (v & Hv & Hs & Hd) Hst Hsq. exists v. split; [|done]. eapply versioned_same; [done|done|congruence]. Qed.

Lemma stored_read (kv : gmap string (SeqV bytes)) k (x y : V) v :
  stored kv k x → kv !! k = Some v → decode_pb (data v) = Some y → x = y.
Proof. intros (w & Hw & _ & Hd) Hv Hd'. congruence. Qed.

Lemma read_decode st k now :
  now < u64_mod →
  match non_expired (sp_kv st !! k) now with
  | Some v => match decode_seqv (V := V) (SeqV_of_pb (pb_SeqV_of v)) with
              | Some sv => read_at st k (Some sv)
              | None => True
              end
  | None => read_at st k None
  end.
Proof.
  intros Hnow. destruct (sp_kv st !! k) as [v|] eqn:Hv.
  - destruct (non_expired (Some v) now) as [w|] eqn:E.
    + assert (w = v) as ->. { unfold non_expired in E. destruct (opt_is_expired _ _); congruence. }
      unfold decode_seqv. cbn [SeqV_of_pb pb_SeqV_of data pb_data]. destruct (decode_pb (data v)) as [x|] eqn:Ed; [|done].
      cbn. by exists v.
    + intros v' Hv' Hl. rewrite Hv in Hv'. injection Hv' as <-. by rewrite lasting_read in E.
  - unfold non_expired. destruct (opt_is_expired None now); intros v; by rewrite Hv.
Qed.
End reading.

Section get.
Context {raft : OpenRaft} {A : Type} (D : string → Prop) (I : gmap string (SeqV bytes) → Prop)
  (R : relation (gmap string (SeqV bytes))) `{!KvInvariant D I R}.
Context {K V : Type} `{!KeyCodec K, !Key K, !FromToProto V}.

Lemma kv_safe_get (key : K) k (F : option (SeqV V) → Client A) T (st : Spec) :
  to_string_key key = KOk k →
  (∀ st1 o, kv_rely R st st1 → Inv st1 → I (sp_kv st1) → read_at st1 k o → safe (kv_protocol I R) (F o) T st1) →
  safe (kv_protocol I R) (client_bind F (get_pb V key)) T st.
Proof.
  intros Hk HF. unfold get_pb. rewrite Hk. client_run. apply (kv_safe_read D I R); [done|].
  intros st1 now Hr HI Hg Hnow. client_run. unfold stream_item. cbn [si_value].
  pose proof (read_decode (V := V) st1 k now Hnow) as Hread.
  destruct (non_expired (sp_kv st1 !! k) now) as [v|]; client_run; [|by apply HF].
  destruct (decode_seqv (SeqV_of_pb (pb_SeqV_of v))) as [sv|]; client_run; [by apply HF|done].
Qed.
End get.
