(* ===== verification/ApiTheorems.v ===== *)
(** What the APIs over the meta-service promise to concurrent clients. *)

From stdpp Require Import base orders sorting strings gmap numbers list relations.
From S2P Require Import Prelude BTree RustStr External ExpireKey MetaTypes Marked MapApi Level StateMap.
From S2P Require Import Txn StateMachine Applier ApplierSpec StateMachineProofs ApplierProofs ApplyProofs.
From S2P Require Import SpecFacts Replica ApplierTheorems SMV003 MemMetaProofs KeyCodec AppKeys KVApi ProtoConv MetaApi.
From S2P Require Import KeyCodecProofs AppKeysProofs ClientProofs ServeProofs SequenceProofs IdProofs.
Local Open Scope N_scope.

Section sequences.
Context {raft : OpenRaft} {Mp : Type} `{!StateMap raft Mp, !StateMapLaws Mp}.
Context {sj : SerdeJson} {ch : Chrono} `{!ProstMessage pb_SequenceMeta}.
Context `{!ProstLaws pb_SequenceMeta pb_sequence_fits, !ChronoLaws ch}.
Implicit Types s : StateMachine Mp.

(** C5: Concurrent clients of a sequence never get the same number.  Any number
    of clients call [get_sequence_next_value] on one sequence, their requests
    interleave in any way with each other and with requests that do not write
    the key of the sequence, and requests or replies may be lost.  Every reply
    is a range of as many numbers as its client asked for, at or above what was
    current at the start and below what is current now, no two replies overlap,
    and no client panics. *)
Theorem sequence_ranges_disjoint utc_now ident K reqs s s' cs :
  to_string_key ident = KOk K → Forall (λ req, gs_ident req = ident) reqs →
  sm_ok s → sequence_good K (current_at K (abs s)) (abs s) →
  rtc (pool_step (avoids K)) (s, get_sequence_next_value utc_now <$> reqs) (s', cs) →
  (∀ i req r, reqs !! i = Some req → cs !! i = Some (Done (COk r)) →
    gr_end r + 1 = gr_start r + gs_count req ∧
    current_at K (abs s) ≤ gr_start r ∧ gr_end r < current_at K (abs s')) ∧
  (∀ i j r r', i ≠ j → cs !! i = Some (Done (COk r)) → cs !! j = Some (Done (COk r')) →
    gr_end r < gr_start r' ∨ gr_end r' < gr_start r) ∧
  (∀ i, cs !! i ≠ Some (Done CPanic)).
Proof.
  intros HK Hreqs Hok Hg Hr. set (P := sequence_protocol K (current_at K (abs s))).
  assert (∀ i c, (get_sequence_next_value utc_now <$> reqs) !! i = Some c →
    ∃ req, reqs !! i = Some req ∧ c = get_sequence_next_value utc_now req) as Hcs.
  { intros i c. rewrite list_lookup_fmap. intros (req & -> & ->)%fmap_Some. eauto. }
  destruct (pool_reach P (avoids K) (taken K (current_at K (abs s))) ranges_apart s
    (get_sequence_next_value utc_now <$> reqs) (replicate (length (get_sequence_next_value utc_now <$> reqs)) ∅) s' cs)
    as (Ts & HP & _); [|done|].
  { apply pool_start; [exact Hok|exact Hg| | |].
    - intros i c (req & Hi & ->)%Hcs. apply next_value_safe.
      by rewrite (proj1 (Forall_lookup _ _) Hreqs i req Hi).
    - intros i a (req & _ & E)%Hcs. by edestruct next_value_not_done.
    - intros i j a a' _ (req & _ & E)%Hcs. by edestruct next_value_not_done. }
  split_and!; [|exact (pool_apart _ _ _ _ _ _ HP)|intros i; by eapply pool_no_panic].
  intros i req r Hi Hc. destruct (pool_used _ _ _ _ _ _ HP i r Hc) as (H1 & H2 & H3).
  set (Q i r := match r, reqs !! i with COk a, Some req => range_of (gs_count req) a | _, _ => True end).
  assert (∀ j c, (get_sequence_next_value utc_now <$> reqs) !! j = Some c → ∃ n, returns (Q j) n c) as HQ.
  { intros j c (req' & Hj & ->)%Hcs. exists 120%nat. unfold Q. rewrite Hj. apply next_value_returns. }
  destruct (pool_returns (avoids K) Q (s, get_sequence_next_value utc_now <$> reqs) (s', cs) HQ Hr i _ Hc) as [n Hn].
  cbn in Hn. unfold Q in Hn. rewrite Hi in Hn. by destruct Hn.
Qed.

(** C21: [get_sequence_next_value] alone, on every branch.  A count of zero, a
    sequence that does not exist and a range past the largest [u64] are errors
    that change nothing; otherwise the first trial succeeds: the reply is the
    range from the current number on, and the stored sequence moves behind it. *)
Theorem next_value_alone utc_now now req K s :
  sm_ok s → now < u64_mod → to_string_key (gs_ident req) = KOk K →
  sequence (map_sys (sm_map s)) + 2 < u64_mod →
  let run := mem_run now (get_sequence_next_value utc_now req) s in
  let count := gs_count req in
  (count = 0 → run = (s, CErr (EApp WrongSequenceCount))) ∧
  (count ≠ 0 → kvv (sm_map s) !! K = None → run = (s, CErr (EApp UnknownSequence))) ∧
  (∀ v m, count ≠ 0 → kvv (sm_map s) !! K = Some v → lasting v → decode_pb (data v) = Some m →
    (u64_max - current m < count → run = (s, CErr (EApp OutofSequenceRange))) ∧
    (current m + count ≤ u64_max → ∃ s',
      run = (s', COk {| gr_start := current m; gr_step := step m; gr_end := current m + count - 1 |}) ∧
      sm_ok s' ∧ sequence_at K (abs s') = Some (advance_sequence count (utc_now 1%nat) m))).
Proof.
  intros Hok Hnow HK Hroom run count. subst run count. unfold get_sequence_next_value.
  destruct (N.eqb_spec (gs_count req) 0) as [Hz|Hz]; [by split_and!|].
  unfold txn_backoff. change TXN_MAX_RETRY_TIMES with (S 59). generalize 59%nat as n. intros n. cbn [txn_trials].
  match goal with |- context [txn_trials n ?i ?b] => generalize (txn_trials n i b) as rest end. intros rest.
  unfold get_pb, txn_cond_eq_seq, txn_op_put_pb. rewrite HK. client_run. cbn [mem_run].
  rewrite mem_serve_get by done. unfold stream_item. split_and!; [done| |].
  { intros _ ->. unfold non_expired. by destruct (opt_is_expired _ _). }
  intros v m _ Hv Hl Hm. rewrite Hv, lasting_read by done. client_run. rewrite lasting_pb by done.
  unfold decode_seqv. rewrite Hm. client_run. split.
  { intros Hlt. by destruct (N.ltb_spec (u64_max - current m) (gs_count req)); [|lia]. }
  intros Hle. destruct (N.ltb_spec (u64_max - current m) (gs_count req)) as [|Hr]; [lia|].
  pose proof (pb_decode_fits _ _ Hm) as (Hfs & Hfc & Hfp).
  destruct (advance_current (gs_count req) (utc_now 1%nat) m Hz) as (Ea & Hw & Hlt); [lia|done|].
  destruct (pb_roundtrip (advance_sequence (gs_count req) (utc_now 1%nat) m)) as (buf & Eb & Db).
  { split_and!; cbn [start step advance_sequence]; [done|by rewrite Ea|apply Hfp..]. }
  rewrite Eb. client_run. cbn [mem_run].
  destruct (mem_serve_spec now (ReqTransaction (txn_new [cond_eq_seq K (seq v)] [put_with_ttl K buf None])) s Hok Hnow)
    as (s' & E & Hok' & Habs & _); [change (sequence (map_sys (sm_map s)) + 1 + 1 < u64_mod); lia|]. rewrite E.
  assert (sequence (sp_sys (abs s)) + 1 < u64_mod) as Hs by (change (sequence (map_sys (sm_map s)) + 1 < u64_mod); lia).
  destruct (serve_cas now (abs s) K (seq v) buf (ok_inv s Hok) Hnow Hs) as (He & Hsucc & Hkv).
  rewrite (clean_lasting now _ (abs s) K v (ok_inv s Hok) Hnow Hs Hv Hl) in Hsucc, Hkv.
  rewrite bool_decide_true in Hsucc by done. rewrite decide_True in Hkv by done.
  client_run. unfold txn_reply_to_api_result. rewrite He, Hsucc. client_run. cbn [mem_run]. exists s'. split_and!; [|done|].
  - rewrite Ea. replace (wrapping_sub64 (current m + gs_count req) 1) with (current m + gs_count req - 1) by lia. done.
  - rewrite (sequence_at_proper _ _ _ Habs). unfold sequence_at. rewrite Hkv, lookup_insert_eq. exact Db.
Qed.

(** C20: [get_sequence_next_value] always ends.  Whatever the service replies, a
    call sends at most 120 requests, two in each of its 60 trials, and a result
    is a range of as many numbers as were asked for.  When the sequence can be
    read but every transaction is refused, the call ends with the error that the
    trials are used up. *)
Theorem next_value_terminates utc_now req :
  returns (λ r, match r with COk a => range_of (gs_count req) a | _ => True end) 120
    (get_sequence_next_value utc_now req) ∧
  (∀ (reply : ∀ B, KVReq B → B) K item rest pb m,
    to_string_key (gs_ident req) = KOk K → gs_count req ≠ 0 →
    reply _ (ReqGetKVStream [K]) = inl item :: rest → si_value item = Some pb →
    decode_pb (pb_data pb) = Some m → current m + gs_count req ≤ u64_max →
    (∀ t, reply_error (reply _ (ReqTransaction t)) = "" ∧ reply_success (reply _ (ReqTransaction t)) = false) →
    answer reply (get_sequence_next_value utc_now req) = CErr ETxnRetryMaxTimes).
Proof.
  split; [apply next_value_returns|].
  intros reply K item rest pb m HK Hz Hget Hpb Hm Hle Htxn. unfold get_sequence_next_value.
  destruct (N.eqb_spec (gs_count req) 0) as [|_]; [done|]. apply answer_trials. intros i.
  unfold get_pb, txn_cond_eq_seq, txn_op_put_pb. rewrite HK. client_run. cbn [answer].
  rewrite Hget. client_run. rewrite Hpb. client_run. unfold decode_seqv. cbn [SeqV_of_pb data]. rewrite Hm. client_run.
  destruct (N.ltb_spec (u64_max - current m) (gs_count req)) as [|Hr]; [lia|].
  pose proof (pb_decode_fits _ _ Hm) as (Hfs & Hfc & Hfp).
  destruct (advance_current (gs_count req) (utc_now i) m Hz) as (Ea & Hw & Hlt); [lia|done|].
  destruct (pb_roundtrip (advance_sequence (gs_count req) (utc_now i) m)) as (buf & Eb & Db).
  { split_and!; cbn [start step advance_sequence]; [done|by rewrite Ea|apply Hfp..]. }
  rewrite Eb. client_run. cbn [answer]. client_run. unfold txn_reply_to_api_result.
  destruct (Htxn (txn_new [cond_eq_seq K (seq (SeqV_of_pb pb))] [put_with_ttl K buf None])) as [-> ->]. done.
Qed.

(** [create_sequence] on every branch.  A sequence that does not exist is
    created with 1 as its current number, whatever the option.  If one exists,
    [Create] is an error, [CreateIfNotExists] leaves it as it is, and
    [CreateOrReplace] starts it again at 1.  The branch that the code calls
    unreachable is never taken. *)
Lemma create_sequence_branches now req K s :
  sm_ok s → now < u64_mod → to_string_key (cs_ident req) = KOk K →
  sequence (map_sys (sm_map s)) + 2 < u64_mod →
  let m := sequence_meta_of_req req in
  match kvv (sm_map s) !! K with
  | None => ∃ s', mem_run now (create_sequence req) s = (s', COk tt) ∧ sm_ok s' ∧ sequence_at K (abs s') = Some m
  | Some v => lasting v → ∀ m0 : SequenceMeta, decode_pb (data v) = Some m0 →
      ∃ s', mem_run now (create_sequence req) s =
        (s', match cs_create_option req with Create => CErr (EApp SequenceAlreadyExists) | _ => COk tt end) ∧
        sm_ok s' ∧ sequence_at K (abs s') =
          Some (match cs_create_option req with CreateOrReplace => m | _ => m0 end)
  end.
Proof.
  intros Hok Hnow HK Hroom m. destruct (pb_roundtrip m) as (b & Eb & Db); [done|].
  set (o := cs_create_option req). set (u := {| ukey := K; useq := match_seq_of_create_option o; uvalue := Update b; uvalue_meta := None |}).
  destruct (mem_serve_spec now (ReqUpsertKV u) s Hok Hnow) as (s' & E & Hok' & Habs & _);
    [change (sequence (map_sys (sm_map s)) + 1 + 1 < u64_mod); lia|].
  assert (sequence (sp_sys (abs s)) + 1 < u64_mod) as Hs by (change (sequence (map_sys (sm_map s)) + 1 < u64_mod); lia).
  pose proof (create_sequence_run now req K s s' b _ HK Eb E) as Hrun. fold o in Hrun.
  pose proof (serve_update now (abs s) K (match_seq_of_create_option o) b (ok_inv s Hok) Hnow Hs) as Hsrv.
  fold u in Hsrv. cbv zeta in Hsrv.
  assert (sequence_at K (abs s') = (v ← sp_kv (sp_serve now (ReqUpsertKV u) (abs s)).1 !! K; decode_pb (data v))) as Hat.
  { by rewrite (sequence_at_proper K _ _ Habs). }
  destruct (kvv (sm_map s) !! K) as [v|] eqn:Hv.
  - intros Hl m0 Hm0. pose proof (clean_lasting now (cmd_ctx_from_millis now) (abs s) K v (ok_inv s Hok) Hnow Hs Hv Hl) as Hc.
    rewrite Hc in Hsrv. cbn [opt_seq] in Hsrv. pose proof (seqs_bound _ _ (inv_seqs _ (ok_inv s Hok)) K v Hv) as Hb.
    exists s'. rewrite Hat. destruct o; cbn [match_seq_of_create_option] in Hsrv.
    1,2: rewrite match_seq_err_exact in Hsrv; destruct (N.eqb_spec (seq v) 0) as [|_]; [lia|];
      destruct Hsrv as [Hr Hk]; rewrite Hr in Hrun; rewrite Hk, Hc, Hrun by (by exists m0);
      unfold create_result, is_changed; cbn [ch_prev ch_result change_new opt_seq]; by rewrite N.eqb_refl.
    rewrite match_seq_err_ge in Hsrv. destruct (N.ltb_spec (seq v) 0) as [|_]; [lia|]. destruct Hsrv as (Hr & Hk & _).
    rewrite Hr in Hrun. rewrite Hk, lookup_insert_eq, Hrun; [|by exists m0|by exists m].
    unfold create_result, is_changed. cbn [ch_prev ch_result change_new opt_seq seq].
    by destruct (N.eqb_spec (seq v) (sequence (sp_sys (abs s)) + 1)) as [|_]; [lia|].
  - assert (sp_kv (sp_clean now (cmd_ctx_from_millis now) (abs s)) !! K = None) as Hc.
    { destruct (sp_clean_spec now (cmd_ctx_from_millis now) (abs s) (ok_inv s Hok) Hnow Hs) as (_ & -> & _).
      rewrite map_lookup_filter. cbn [abs sp_kv]. by rewrite Hv. }
    rewrite Hc in Hsrv. assert (match_seq_err (match_seq_of_create_option o) (opt_seq (T := bytes) None) = false) as Hm by by destruct o.
    rewrite Hm in Hsrv. destruct Hsrv as (Hr & Hk & _). rewrite Hr in Hrun. exists s'.
    rewrite Hat, Hk, lookup_insert_eq, Hrun; [|done|by exists m].
    unfold create_result, is_changed. cbn [ch_prev ch_result change_new opt_seq seq].
    by destruct (N.eqb_spec 0 (sequence (sp_sys (abs s)) + 1)) as [|_]; [lia|].
Qed.
End sequences.

Section names.
Context {raft : OpenRaft} {Mp : Type} `{!StateMap raft Mp, !StateMapLaws Mp}.
Context {sj : SerdeJson} `{!SerdeJsonLaws sj} {V : Type} `{!FromToProto V, !FromToProtoLaws V}.
Context {K : Type} `{!KeyCodec K, !Key K, !KeyWithTenant K, !KeyCodecLaws K} (r : TenantResource) (t : Tenant).
Implicit Types s : StateMachine Mp.

(** The calls of the API on the names of a tenant. *)
Inductive IdCall :=
| CallCreate (name : K) (value : V) (override_exist : bool)
    (associated_records : DataId → list (string * bytes))
    (mark_delete_records : DataId → V → list (string * bytes) + MetaError)
| CallRemove (name : K) (associated_keys : DataId → list string)
| CallUpdate (name : K) (value : V).

Definition id_client (c : IdCall) : Client (IdResult (V := V)) :=
  match c with
  | CallCreate name value override assoc mark =>
      x ← create_id_value r name value override assoc mark; mret (Created x)
  | CallRemove name keys => x ← remove_id_value r name keys; mret (Removed x)
  | CallUpdate name value => x ← update_id_value r name value; mret (Updated x)
  end.

Definition names_ok (name : K) : Prop := key_ok name ∧ key_tenant name = t.

(** The names are of the tenant, the values can be stored, and the records that
    go along have other keys. *)
Definition id_call_ok (c : IdCall) : Prop :=
  let free := free_keys (is_name_of (K := K) t) (id_key_of r t) in
  match c with
  | CallCreate name value _ assoc mark =>
      names_ok name ∧ value_fits value ∧ (∀ id, free (assoc id).*1) ∧
      (∀ id x kvs, mark id x = inl kvs → free kvs.*1)
  | CallRemove name keys => names_ok name ∧ ∀ id, free (keys id)
  | CallUpdate name value => names_ok name ∧ value_fits value
  end.

Lemma id_client_safe c T (st : Spec) :
  spaces_ok (K := K) r t → id_call_ok c →
  safe (id_protocol (V := V) (is_name_of (K := K) t) (id_key_of r t)) (id_client c) T st.
Proof.
  intros Hsp Hc. pose proof (key_spaces_of r t Hsp) as HS. pose proof (id_key_string r t Hsp) as Hid.
  assert (to_string_key id_generator_generic = KOk generic_key) as Hgen by (vm_compute; reflexivity).
  assert (∀ name : K, names_ok name → ∃ k, name_of (is_name_of (K := K) t) t name k) as Hname.
  { intros name [Hn Ht]. exists (join_with slash (full_segs name)).
    pose proof (to_string_key_eq (name_prefix _ _ Hsp) name Hn) as E. split; [done|done|]. by exists name. }
  destruct c as [name value ov assoc mark|name keys|name value]; cbn in Hc |- *.
  - destruct Hc as ([k Hk]%Hname & ? & ? & ?). by apply (create_safe _ _ generic_key r t HS Hid Hgen T st name k).
  - destruct Hc as ([k Hk]%Hname & ?). by apply (remove_safe _ _ generic_key r t HS Hid T st name k).
  - destruct Hc as ([k Hk]%Hname & ?). by apply (update_safe _ _ generic_key r t HS Hid T st name k).
Qed.

(** C6: Concurrent creations, removals and updates keep the mappings
    [name -> id -> value] whole.  Any number of clients create, override, remove
    and update names of a tenant, their requests interleave in any way with each
    other and with requests that write neither names nor ids, and requests or
    replies may be lost.  Then every name refers to an id, the id has a value
    that can be read, no two names refer to the same id, no two clients created
    the same id, and no client panics. *)
Theorem id_value_integrity calls s s' cs :
  spaces_ok (K := K) r t → Forall id_call_ok calls →
  sm_ok s → ids_good (V := V) (is_name_of (K := K) t) (id_key_of r t) (abs s) →
  rtc (pool_step (other_keys (is_name_of (K := K) t) (id_key_of r t))) (s, id_client <$> calls) (s', cs) →
  (∀ k, is_name_of (K := K) t k → is_Some (kvv (sm_map s') !! k) →
    ∃ n, refers (kvv (sm_map s')) k n ∧ has_value (V := V) (id_key_of r t) (kvv (sm_map s')) n) ∧
  (∀ k k' n, is_name_of (K := K) t k → is_name_of (K := K) t k' →
    refers (kvv (sm_map s')) k n → refers (kvv (sm_map s')) k' n → k = k') ∧
  (∀ i j id id', i ≠ j → cs !! i = Some (Done (COk (Created (inl id)))) →
    cs !! j = Some (Done (COk (Created (inl id')))) → id ≠ id') ∧
  (∀ i, cs !! i ≠ Some (Done CPanic)).
Proof.
  intros Hsp Hcalls Hok Hg Hr.
  set (isn := is_name_of (K := K) t) in *. set (P := id_protocol (V := V) isn (id_key_of r t)).
  pose proof (id_protocol_laws (V := V) isn (id_key_of r t) generic_key : ProtocolLaws P _) as HL.
  pose proof (id_results isn (id_key_of r t) : ResultLaws P _ _) as HRL.
  destruct (pool_reach P (other_keys isn (id_key_of r t)) (λ _ _, True) (λ _ _, True) s
    (id_client <$> calls) (replicate (length (id_client <$> calls)) ∅) s' cs) as (Ts & HP & _); [|done|].
  { apply pool_start; [exact Hok|exact Hg| |done|done].
    intros i c. rewrite list_lookup_fmap. intros (x & Hx & ->)%fmap_Some.
    apply id_client_safe; [done|]. exact (proj1 (Forall_lookup _ _) Hcalls i x Hx). }
  destruct (pool_good _ _ _ _ _ _ HP) as [[H1 H2] _]. split_and!; [exact H1|exact H2| |intros i; by eapply pool_no_panic].
  intros i j id id' Hne Hi Hj <-.
  destruct (pool_safe _ _ _ _ _ _ HP i _ Hi) as (T & HT & Ho), (pool_safe _ _ _ _ _ _ HP j _ Hj) as (T' & HT' & Ho').
  by apply (pool_disjoint _ _ _ _ _ _ HP i j T T' Hne HT HT' (data_id id)).
Qed.

(** A name that refers to an id without a value. *)
Definition dangling k n s : Prop :=
  refers (kvv (sm_map s)) k n ∧ kvv (sm_map s) !! id_key_of r t n = None.

(** A request that writes neither the name nor the id. *)
Lemma dangling_serve {B} (req : KVReq B) now k n s s' b :
  sm_ok s → now < u64_mod → sequence (map_sys (sm_map s)) + req_cost req + 1 < u64_mod →
  dangling k n s → req_writes k req = false → req_writes (id_key_of r t n) req = false →
  mem_serve now req s = (s', Ok b) → sm_ok s' ∧ dangling k n s' ∧ b = (sp_serve now req (abs s)).2 ∧
  abs s' ≡ (sp_serve now req (abs s)).1.
Proof.
  intros Hok Hnow Hroom [Hr Hn] Hk Hi E. destruct (mem_serve_spec now req s Hok Hnow Hroom) as (s1 & E' & Hok' & Habs & _).
  rewrite E in E'. injection E' as <- ->. split_and!; [done| |done|done].
  assert (sequence (sp_sys (abs s)) + 1 < u64_mod) as Hs by (change (sequence (map_sys (sm_map s)) + 1 < u64_mod); lia).
  pose proof (serve_stays req now (abs s) k (ok_inv s Hok) Hnow Hs Hk) as Sk.
  pose proof (serve_stays req now (abs s) _ (ok_inv s Hok) Hnow Hs Hi) as Si.
  destruct Habs as (Hkv & _). rewrite <-Hkv in Sk, Si. split.
  - by apply (refers_stays k (sp_kv (abs s)) (sp_kv (abs s'))).
  - destruct Si as [Si|[Si _]]; [etrans; [exact Si|exact Hn]|exact Si].
Qed.

(** The name is read, the value is not there. *)
Lemma dangling_lookup now name k n s :
  spaces_ok (K := K) r t → to_string_key name = KOk k → key_tenant name = t →
  sm_ok s → now < u64_mod → dangling k n s →
  mem_run now (get_id_and_value (V := V) r name) s = (s, COk None).
Proof.
  intros Hsp Hk Ht Hok Hnow [Hr Hn]. pose proof (refers_bound _ _ _ Hr) as Hb. destruct Hr as (v & Hv & Hl & Hd).
  unfold get_id_and_value, get_pb. rewrite Hk, Ht. client_run. cbn [mem_run]. rewrite mem_serve_get by done.
  unfold stream_item. rewrite Hv, lasting_read by done. client_run. rewrite lasting_pb by done.
  unfold decode_seqv. rewrite Hd. client_run. rewrite (id_key_string r t Hsp n Hb). client_run. cbn [mem_run].
  rewrite mem_serve_get, Hn by done. unfold non_expired. by destruct (opt_is_expired None now).
Qed.

(** A transaction under the condition that the name does not exist. *)
Lemma dangling_refused now k n s ops :
  sm_ok s → now < u64_mod → sequence (map_sys (sm_map s)) + ops_cost ops + 1 < u64_mod → plain ops → dangling k n s →
  ∃ s' reply, mem_serve now (ReqTransaction (txn_new [cond_eq_seq k 0] ops)) s = (s', Ok reply) ∧
    reply_error reply = "" ∧ reply_success reply = false ∧ sm_ok s' ∧ dangling k n s' ∧
    sequence (map_sys (sm_map s')) = sequence (map_sys (sm_map s)).
Proof.
  intros Hok Hnow Hroom Hpl [Hr Hn]. set (req := ReqTransaction (txn_new [cond_eq_seq k 0] ops)).
  destruct (mem_serve_spec now req s Hok Hnow) as (s' & E & Hok' & Habs & _).
  { change (req_cost req) with (ops_cost ops + 0 + 0). lia. }
  assert (sequence (sp_sys (abs s)) + 1 < u64_mod) as Hs by (change (sequence (map_sys (sm_map s)) + 1 < u64_mod); lia).
  destruct (serve_plain now (abs s) [(k, 0)] ops (ok_inv s Hok) Hnow Hs Hpl) as (He & Hsucc & _ & Hfalse).
  change (ReqTransaction _) with req in He, Hsucc, Hfalse.
  assert (reply_success (sp_serve now req (abs s)).2 = false) as Hf.
  { destruct (Hr) as (v & Hv & Hl & _). rewrite Hsucc. apply bool_decide_eq_false. intros [H _]%Forall_cons.
    cbn [fst snd] in H. rewrite (clean_lasting now _ (abs s) k v (ok_inv s Hok) Hnow Hs Hv Hl) in H.
    pose proof (inv_positive _ (ok_inv s Hok) k v Hv). cbn in H. lia. }
  exists s', (sp_serve now req (abs s)).2. rewrite (Hfalse Hf) in Habs. destruct Habs as (Hkv & Hsys & _).
  destruct (sp_clean_spec now (cmd_ctx_from_millis now) (abs s) (ok_inv s Hok) Hnow Hs) as (_ & _ & Hc & _).
  pose proof (λ k, clean_stays now (cmd_ctx_from_millis now) (abs s) k (ok_inv s Hok) Hnow Hs) as Hst.
  rewrite <-Hkv in Hst. split_and!; [exact E|exact He|exact Hf|exact Hok'| |].
  - split; [by apply (refers_stays k (sp_kv (abs s)) (sp_kv (abs s')))|].
    destruct (Hst (id_key_of r t n)) as [Si|[Si _]]; [etrans; [exact Si|exact Hn]|exact Si].
  - rewrite Hc in Hsys. exact (f_equal sequence Hsys).
Qed.

(** A trial takes a new id, and its transaction is refused. *)
Lemma dangling_new_id now name (value : V) assoc L k n s :
  spaces_ok (K := K) r t → names_ok name → to_string_key name = KOk k → value_fits value →
  (∀ id, N.of_nat (length (assoc id)) ≤ L) →
  sm_ok s → now < u64_mod → sequence (map_sys (sm_map s)) + L + 4 < u64_mod → dangling k n s →
  ∃ s', mem_run now (create_with_new_id r name value assoc txn_default 0) s = (s', COk None) ∧
    sm_ok s' ∧ dangling k n s' ∧ sequence (map_sys (sm_map s')) = sequence (map_sys (sm_map s)) + 1.
Proof.
  intros Hsp [Hno Ht] Hk Hfit HL Hok Hnow Hroom Hd. pose proof (key_spaces_of r t Hsp) as HS.
  assert (is_name_of (K := K) t k) as Hname by by exists name.
  pose proof (refers_bound _ _ _ (proj1 Hd)) as Hb.
  set (req := ReqUpsertKV {| ukey := generic_key; useq := GE 0; uvalue := Update EmptyString; uvalue_meta := None |}).
  assert (sequence (map_sys (sm_map s)) + req_cost req + 1 < u64_mod) as Hroom1 by (cbn [req_cost cmd_cost uvalue req]; lia).
  destruct (mem_serve_spec now req s Hok Hnow Hroom1) as (s1 & E1 & _).
  assert (req_writes k req = false) as Hw1.
  { apply bool_decide_eq_false. intros E. by apply (name_not_gen _ _ _ HS k). }
  assert (req_writes (id_key_of r t n) req = false) as Hw2.
  { apply bool_decide_eq_false. intros E. by apply (id_not_gen _ _ _ HS n). }
  destruct (dangling_serve req now k n s s1 _ Hok Hnow Hroom1 Hd Hw1 Hw2 E1) as (Hok1 & Hd1 & _ & Habs1).
  assert (sequence (sp_sys (abs s)) + 1 < u64_mod) as Hs by (change (sequence (map_sys (sm_map s)) + 1 < u64_mod); lia).
  pose proof (serve_update now (abs s) generic_key (GE 0) EmptyString (ok_inv s Hok) Hnow Hs) as Hu. cbv zeta in Hu.
  rewrite match_seq_err_ge in Hu. fold req in Hu.
  destruct (N.ltb_spec (opt_seq (sp_kv (sp_clean now (cmd_ctx_from_millis now) (abs s)) !! generic_key)) 0); [lia|].
  destruct Hu as (Hres & _ & Hseq). rewrite Hres in E1. set (m := sequence (sp_sys (abs s)) + 1) in *.
  assert (sequence (map_sys (sm_map s1)) = m) as Hm1 by (destruct Habs1 as (_ & Hsys & _); by rewrite <-Hseq, <-Hsys).
  assert (to_string_key id_generator_generic = KOk generic_key) as Hgen by (vm_compute; reflexivity).
  unfold create_with_new_id, fetch_id, txn_cond_eq_seq, txn_op_put_pb. rewrite Hgen, Hk, Ht. client_run. cbn [mem_run].
  fold req. rewrite E1. client_run. cbn [ch_result change_new]. client_run. fold m. rewrite (id_key_string r t Hsp m) by done.
  destruct (pb_roundtrip {| data_id := m |}) as (b1 & -> & _); [exact Hs|]. client_run.
  destruct (pb_roundtrip value Hfit) as (b2 & -> & _). client_run. cbn [mem_run].
  set (ops := [put_with_ttl k b1 None; put_with_ttl (id_key_of r t m) b2 None] ++ put_all (assoc {| data_id := m |})).
  destruct (dangling_refused now k n s1 ops) as (s2 & reply & E2 & He & Hf & Hok2 & Hd2 & Hm2); [done|done| | |done|].
  { rewrite Hm1. unfold ops. pose proof (put_all_cost (assoc {| data_id := m |})) as Hc. specialize (HL {| data_id := m |}).
    fold ops. change (ops_cost ops) with (1 + (1 + ops_cost (put_all (assoc {| data_id := m |})))). rewrite Hc.
    assert (m = sequence (map_sys (sm_map s)) + 1) as Em by done. lia. }
  { do 2 (constructor; [by eexists|]). apply plain_puts. }
  change (push_ops _ _) with (txn_new [cond_eq_seq k 0] ops). rewrite E2. client_run. unfold txn_reply_to_api_result. rewrite He, Hf.
  exists s2. split_and!; [done..|]. by rewrite Hm2, Hm1.
Qed.

(** C31: A name whose id has no value can be neither created nor overridden.  The
    documentation says that an existing name is returned as it is; but the name
    counts as existing only if its value is there, while the transaction demands
    that the name does not exist.  So every trial is refused: the call ends with
    the error that the 60 trials are used up, 60 ids are gone, and the name
    is as before. *)
Theorem dangling_name_blocks_create now name (value : V) override assoc mark L k n s :
  spaces_ok (K := K) r t → names_ok name → to_string_key name = KOk k → value_fits value →
  (∀ id, N.of_nat (length (assoc id)) ≤ L) →
  sm_ok s → now < u64_mod → sequence (map_sys (sm_map s)) + L + 64 < u64_mod → dangling k n s →
  ∃ s', mem_run now (create_id_value r name value override assoc mark) s = (s', CErr ETxnRetryMaxTimes) ∧
    sm_ok s' ∧ dangling k n s' ∧ sequence (map_sys (sm_map s')) = sequence (map_sys (sm_map s)) + 60.
Proof.
  intros Hsp Hname Hk Hfit HL Hok Hnow Hroom Hd. unfold create_id_value, txn_backoff.
  change 60 with (N.of_nat TXN_MAX_RETRY_TIMES).
  assert (sequence (map_sys (sm_map s)) + L + N.of_nat TXN_MAX_RETRY_TIMES + 4 < u64_mod) as Hroom'.
  { change (N.of_nat TXN_MAX_RETRY_TIMES) with 60. lia. }
  clear Hroom.
  generalize 1%nat as i. revert s Hok Hd Hroom'. induction TXN_MAX_RETRY_TIMES as [|j IH]; intros s Hok Hd Hroom i.
  { exists s. split_and!; [done..|]. cbn. lia. }
  cbn [txn_trials]. destruct (dangling_new_id now name value assoc L k n s) as (s1 & E1 & Hok1 & Hd1 & Hs1); [done..|lia|done|].
  destruct (IH s1 Hok1 Hd1 ltac:(lia) (S i)) as (s' & E & Hok' & Hd' & Hs').
  exists s'. split_and!; [|done|done|lia]. etrans; [apply mem_run_bind|].
  unfold mbind at 1, Client_bind at 1. rewrite mem_run_bind, (dangling_lookup now name k n s); [|done|done|apply Hname|done..].
  client_run. cbn [override_txn]. client_run. rewrite E1. exact E.
Qed.
End names.

Section streams.
Context {K V : Type} `{!KeyCodec K, !Key K, !FromToProto V}.

Lemma key_strs_answer (keys : list K) strs reply :
  Forall2 (λ k s, to_string_key k = KOk s) keys strs → answer reply (key_strs keys) = COk strs.
Proof.
  induction 1 as [|k s keys strs Hk _ IH]; [done|]. cbn [key_strs]. rewrite Hk.
  cbn [key_str mbind Client_bind client_bind mret Client_ret]. etrans; [apply answer_bind|]. by rewrite IH.
Qed.

Lemma set_received_decoded i x : set_received i (decode_item (K := K) (V := V) x) = decode_item x.
Proof.
  destruct x as [item|e]; [|done]. unfold decode_item. destruct (from_str_key _); [|done..].
  destruct (si_value item) as [pb|]; [|done]. by destruct (decode_seqv _).
Qed.

(** A stream of values that the service closes early.  [get_pb_stream_low]
    passes on what it receives, up to one item for each key, and then one error
    that the stream ended, with the number of keys and of items received.  It is
    one error, not one for each missing key: when two or more items are missing,
    the stream is shorter than the list of keys. *)
Lemma early_close_one_error (reply : ∀ B, KVReq B → B) (keys : list K) strs :
  Forall2 (λ k s, to_string_key k = KOk s) keys strs →
  let items := reply _ (ReqGetKVStream strs) in
  ∃ strm, answer reply (get_pb_stream_low (V := V) keys) = COk strm ∧
    length strm = Nat.min (length keys) (S (length items)) ∧
    (∀ i x, (i < length keys)%nat → items !! i = Some x → strm !! i = Some (decode_item x)) ∧
    ((length items < length keys)%nat →
      strm !! length items = Some (PErr (StreamReadEof (N.of_nat (length keys)) (N.of_nat (length items))))).
Proof.
  intros Hkeys items. pose proof (Forall2_length _ _ _ Hkeys) as Hlen.
  exists (fill_eof (length strs) (map decode_item items)). split_and!.
  - unfold get_pb_stream_low. etrans; [apply answer_bind|]. by rewrite (key_strs_answer _ _ reply Hkeys).
  - unfold fill_eof. rewrite length_imap, length_take, length_app, length_map. cbn. lia.
  - intros i x Hi Hx. unfold fill_eof. rewrite list_lookup_imap, lookup_take_lt, lookup_app_l by
      (rewrite ?length_map; apply lookup_lt_Some in Hx; lia).
    assert (map (decode_item (K := K) (V := V)) items !! i = Some (decode_item x)) as ->.
    { etrans; [apply list_lookup_fmap|]. exact (f_equal (fmap decode_item) Hx). }
    cbn -[decode_item]. by rewrite set_received_decoded.
  - intros Hlt. unfold fill_eof. rewrite list_lookup_imap, lookup_take_lt by lia.
    rewrite lookup_app_r by (rewrite length_map; lia). rewrite length_map, Nat.sub_diag. cbn. by rewrite Hlen.
Qed.
End streams.

(** ** Examples *)

Module ApiEx.
Import LogEx.
#[local] Existing Instances digits_json digits_json_laws text_chrono text_chrono_laws text_prost text_prost_laws.

Definition ident : SequenceIdent := tident_new {| tenant := "t" |} "s".
Definition K : string := "__fd_sequence/t/s".
Definition meta0 : SequenceMeta :=
  {| create_on := "now" : DateTime; update_on := "now" : DateTime; comment := None; start := 1; step := 1; current := 1 |}.
Definition bytes0 : bytes := default EmptyString (encode_pb meta0).

(** The empty meta-service, and one with a record. *)
Definition with_record (k : string) (b : bytes) (s : StateMachine Level) : StateMachine Level :=
  (mem_serve 1000 (ReqUpsertKV (upsert_update k b)) s).1.

Lemma with_record_ok k b s :
  sm_ok s → sequence (map_sys (sm_map s)) + 2 < u64_mod → sm_ok (with_record k b s).
Proof.
  intros Hok Hs. unfold with_record.
  destruct (mem_serve_spec 1000 (ReqUpsertKV (upsert_update k b)) s Hok eq_refl) as (s' & -> & Hok' & _); [|exact Hok'].
  change (sequence (map_sys (sm_map s)) + 1 + 1 < u64_mod). lia.
Qed.

Definition seq1 : StateMachine Level := with_record K bytes0 mem0.
Lemma seq1_ok : sm_ok seq1.
Proof. apply with_record_ok; [exact mem0_ok|reflexivity]. Qed.
Lemma ident_key : to_string_key ident = KOk K.
Proof. vm_compute. reflexivity. Qed.

Definition value1 : SeqV bytes := mk_SeqV 1 None bytes0.
Lemma seq1_value : kvv (sm_map seq1) !! K = Some value1.
Proof. vm_compute. reflexivity. Qed.
Lemma bytes0_decode : decode_pb bytes0 = Some meta0.
Proof. vm_compute. reflexivity. Qed.
Lemma seq1_good : sequence_good K (current_at K (abs seq1)) (abs seq1).
Proof. split; [|reflexivity]. exists value1, meta0. split; [exact seq1_value|]. split; [reflexivity|exact bytes0_decode]. Qed.

(** Two clients ask for three and for two numbers.  Both read the sequence before
    either writes it, so the second one has to try again. *)
Definition utc (i : nat) : DateTime := "later".
Definition req_of (n : N) : GetSequenceNextValueReq := {| gs_ident := ident; gs_count := n |}.
Definition reqs : list GetSequenceNextValueReq := [req_of 3; req_of 2].
Definition pool : StateMachine Level * list (Client GetSequenceNextValueReply) :=
  schedule 2000 [0; 1; 0; 1; 1; 1]%nat (seq1, get_sequence_next_value utc <$> reqs).

Definition result_of {A} (c : Client A) : option (ClientResult A) :=
  match c with Done r => Some r | Call _ _ => None end.
Lemma result_of_done {A} (cs : list (Client A)) i r : cs !! i ≫= result_of = Some r → cs !! i = Some (Done r).
Proof. destruct (cs !! i) as [[]|]; intros [=]; by subst. Qed.

Definition range (a b : N) : GetSequenceNextValueReply := {| gr_start := a; gr_step := 1; gr_end := b |}.
Lemma pool_results : pool.2 !! 0%nat = Some (Done (COk (range 1 3))) ∧ pool.2 !! 1%nat = Some (Done (COk (range 4 5))).
Proof. split; apply result_of_done; vm_compute; reflexivity. Qed.

Lemma sequence_ranges_disjoint_witness :
  pool.2 !! 0%nat = Some (Done (COk (range 1 3))) ∧ pool.2 !! 1%nat = Some (Done (COk (range 4 5))) ∧
  (gr_end (range 1 3) < gr_start (range 4 5) ∨ gr_end (range 4 5) < gr_start (range 1 3)).
Proof.
  destruct pool_results as [H0 H1]. split; [exact H0|]. split; [exact H1|].
  destruct (sequence_ranges_disjoint utc ident K reqs seq1 pool.1 pool.2) as (_ & H & _).
  - exact ident_key.
  - repeat constructor.
  - exact seq1_ok.
  - exact seq1_good.
  - rewrite <-surjective_pairing. apply schedule_steps. reflexivity.
  - apply (H 0%nat 1%nat); [discriminate|exact H0|exact H1].
Defined.

Lemma next_value_alone_witness :
  ∃ s', mem_run 2000 (get_sequence_next_value utc (req_of 3)) seq1 = (s', COk (range 1 3)) ∧ sm_ok s'.
Proof.
  destruct (next_value_alone utc 2000 (req_of 3) K seq1 seq1_ok eq_refl ident_key eq_refl) as (_ & _ & H).
  destruct (H value1 meta0) as [_ H']; [discriminate|exact seq1_value|reflexivity|exact bytes0_decode|].
  destruct H' as (s' & E & Hok & _); [discriminate|]. exists s'. split; [exact E|exact Hok].
Defined.

(** A service that never accepts a transaction. *)
Definition refusing (B : Type) (req : KVReq B) : B :=
  match req with
  | ReqUpsertKV _ => change_new None None
  | ReqGetKVStream _ => [inl (stream_item (K, Some value1))]
  | ReqListKV _ => []
  | ReqTransaction _ =>
      {| reply_success := false; reply_responses := []; reply_error := ""; reply_execution_path := "else" |}
  end.

Lemma next_value_terminates_witness :
  answer refusing (get_sequence_next_value utc (req_of 3)) = CErr ETxnRetryMaxTimes.
Proof.
  destruct (next_value_terminates utc (req_of 3)) as [_ H].
  apply (H refusing K (stream_item (K, Some value1)) [] (pb_SeqV_of value1) meta0).
  - exact ident_key.
  - discriminate.
  - reflexivity.
  - reflexivity.
  - exact bytes0_decode.
  - discriminate.
  - intros t. split; reflexivity.
Defined.

Definition create_req (o : CreateOption) : CreateSequenceReq :=
  {| cs_create_option := o; cs_ident := ident; cs_create_on := "now" : DateTime; cs_comment := None |}.

Lemma create_sequence_branches_witness :
  ∃ s', mem_run 2000 (create_sequence (create_req Create)) mem0 = (s', COk tt) ∧ sm_ok s'.
Proof.
  pose proof (create_sequence_branches 2000 (create_req Create) K mem0 mem0_ok eq_refl ident_key eq_refl) as H.
  assert (kvv (sm_map mem0) !! K = None) as E by reflexivity. cbv zeta in H. rewrite E in H.
  destruct H as (s' & Er & Hok & _). exists s'. split; [exact Er|exact Hok].
Defined.

(** Catalogs: two clients create the same name, the second one overrides. *)
Definition t0 : Tenant := {| tenant := "t" |}.
Definition cat : CatalogNameIdent := tident_new t0 "c".
Definition cat_key : string := "__fd_catalog/t/c".

Lemma catalog_spaces : spaces_ok (K := CatalogNameIdent) catalog_id_rsc t0.
Proof.
  assert (∀ p, bool_decide (p ≠ EmptyString) && bool_decide (split_on slash p = [p]) && is_utf8 p = true → prefix_ok p) as Hp.
  { intros p. rewrite !andb_true_iff, !bool_decide_eq_true. unfold prefix_ok, segment. tauto. }
  split; [apply Hp; vm_compute; reflexivity..|discriminate|discriminate|discriminate|].
  split; [vm_compute; reflexivity|discriminate].
Qed.

Lemma cat_ok : names_ok (K := CatalogNameIdent) t0 cat.
Proof. split; [|reflexivity]. split; [vm_compute; reflexivity|]. split; [vm_compute; reflexivity|discriminate]. Qed.
Lemma meta0_fits : value_fits meta0.
Proof. split; [reflexivity|]. split; [reflexivity|]. split; [discriminate|reflexivity]. Qed.

Definition no_records (id : DataId) : list (string * bytes) := [].
Definition no_marks (id : DataId) (m : SequenceMeta) : list (string * bytes) + MetaError := inl [].
Definition calls : list (IdCall (V := SequenceMeta) (K := CatalogNameIdent)) :=
  [CallCreate cat meta0 false no_records no_marks; CallCreate cat meta0 true no_records no_marks].

Lemma calls_ok : Forall (id_call_ok (V := SequenceMeta) catalog_id_rsc t0) calls.
Proof.
  assert (∀ P Q, free_keys P Q []) as Hf by (intros P Q; split; intros ? ?; apply not_elem_of_nil).
  assert (∀ o, id_call_ok catalog_id_rsc t0 (CallCreate cat meta0 o no_records no_marks)) as Hc.
  { intros o. split; [exact cat_ok|]. split; [exact meta0_fits|]. split; [intros id; apply Hf|].
    intros id x kvs [= <-]. apply Hf. }
  constructor; [apply Hc|]. constructor; [apply Hc|constructor].
Qed.

Lemma mem0_good : ids_good (V := SequenceMeta) (is_name_of (K := CatalogNameIdent) t0) (id_key_of catalog_id_rsc t0) (abs mem0).
Proof.
  assert (sp_kv (abs mem0) = ∅) as E0 by (vm_compute; reflexivity).
  assert (∀ k, sp_kv (abs mem0) !! k = None) as E by (intros k; rewrite E0; apply lookup_empty).
  split; [split|].
  - intros k _ [v Hv]. rewrite E in Hv. discriminate.
  - intros k k' n _ _ (v & Hv & _). rewrite E in Hv. discriminate.
  - intros n [_ [v Hv]]. rewrite E in Hv. discriminate.
Qed.

Definition id_pool : StateMachine Level * list (Client (IdResult (V := SequenceMeta))) :=
  schedule 2000 [0; 1; 0; 1; 0; 1; 1; 1; 1; 1]%nat (mem0, id_client catalog_id_rsc <$> calls).

Definition created (n : N) : ClientResult (IdResult (V := SequenceMeta)) := COk (Created (inl {| data_id := n |})).
Lemma id_pool_results : id_pool.2 !! 0%nat = Some (Done (created 1)) ∧ id_pool.2 !! 1%nat = Some (Done (created 5)).
Proof. split; apply result_of_done; vm_compute; reflexivity. Qed.

Lemma id_value_integrity_witness :
  id_pool.2 !! 0%nat = Some (Done (created 1)) ∧ id_pool.2 !! 1%nat = Some (Done (created 5)) ∧
  ∃ n, refers (kvv (sm_map id_pool.1)) cat_key n ∧
    has_value (V := SequenceMeta) (id_key_of catalog_id_rsc t0) (kvv (sm_map id_pool.1)) n.
Proof.
  destruct id_pool_results as [H0 H1]. split; [exact H0|]. split; [exact H1|].
  destruct (id_value_integrity catalog_id_rsc t0 calls mem0 id_pool.1 id_pool.2) as (H & _).
  - exact catalog_spaces.
  - exact calls_ok.
  - exact mem0_ok.
  - exact mem0_good.
  - rewrite <-surjective_pairing. apply schedule_steps. reflexivity.
  - apply H.
    + exists cat. split; [exact (proj1 cat_ok)|]. split; [reflexivity|vm_compute; reflexivity].
    + apply (bool_decide_eq_true_1 (is_Some (kvv (sm_map id_pool.1) !! cat_key))). vm_compute. reflexivity.
Defined.

(** A name that refers to the id 7, which has no value. *)
Definition dangling1 : StateMachine Level := with_record cat_key "7" mem0.
Lemma dangling1_ok : sm_ok dangling1.
Proof. apply with_record_ok; [exact mem0_ok|reflexivity]. Qed.
Lemma dangling1_dangling : dangling catalog_id_rsc t0 cat_key 7 dangling1.
Proof.
  split; [|vm_compute; reflexivity]. exists (mk_SeqV 1 None "7"). split; [vm_compute; reflexivity|].
  split; [reflexivity|vm_compute; reflexivity].
Qed.

Lemma dangling_name_blocks_create_witness :
  ∃ s', mem_run 2000 (create_id_value catalog_id_rsc cat meta0 true no_records no_marks) dangling1 =
    (s', CErr ETxnRetryMaxTimes) ∧ sm_ok s'.
Proof.
  destruct (dangling_name_blocks_create catalog_id_rsc t0 2000 cat meta0 true no_records no_marks 0 cat_key 7 dangling1)
    as (s' & E & Hok & _).
  - exact catalog_spaces.
  - exact cat_ok.
  - vm_compute. reflexivity.
  - exact meta0_fits.
  - intros id. apply N.le_refl.
  - exact dangling1_ok.
  - reflexivity.
  - reflexivity.
  - exact dangling1_dangling.
  - exists s'. split; [exact E|exact Hok].
Defined.

(** Three keys, and a service that sends one item. *)
Definition cats : list CatalogNameIdent := [cat; cat; cat].
Lemma early_close_one_error_witness :
  ∃ strm, answer refusing (get_pb_stream_low (V := SequenceMeta) cats) = COk strm ∧ length strm = 2%nat.
Proof.
  destruct (early_close_one_error (V := SequenceMeta) refusing cats [cat_key; cat_key; cat_key]) as (strm & E & Hl & _).
  - repeat constructor; vm_compute; reflexivity.
  - exists strm. split; [exact E|exact Hl].
Defined.
End ApiEx.
