(* ===== verification/Watcher.v ===== *)
(** Watchers (service/src/watcher, types/src/proto_ext/watch_ext.rs, and [watch]
    of service/src/api/grpc/grpc_service.rs): the dispatcher that sends the
    changes of the state machine to the clients that watch a range of keys. *)

From stdpp Require Import base orders sorting strings gmap numbers list.
From S2P Require Import Prelude BTree RustStr External ExpireKey MetaTypes Marked MapApi Level StateMap.
From S2P Require Import Txn StateMachine Applier SMV003.
Local Open Scope Z_scope.

(** ** Messages *)

Inductive FilterType := FilterAll | FilterUpdate | FilterDelete.

Record WatchRequest := {
  wr_key : string; wr_key_end : option string; wr_filter_type : Z; wr_initial_flush : bool;
}.

(** The accessor that [prost] generates: an unknown number is the default. *)
Definition filter_type (r : WatchRequest) : FilterType :=
  match wr_filter_type r with 1 => FilterUpdate | 2 => FilterDelete | _ => FilterAll end.

Record pb_Event := { ev_key : string; ev_current : option pb_SeqV; ev_prev : option pb_SeqV }.
Record WatchResponse := { wr_event : option pb_Event }.

(** An error is its message, as in the code. *)
Definition build_key_range (key : string) (key_end : option string) : Bounds string + string :=
  let left := Included key in
  match key_end with
  | Some key_end => if decide (key_le key_end key) then inr "empty range"%string else inl (left, Excluded key_end)
  | None => inl (left, left)
  end.

Definition key_range_of (r : WatchRequest) : Bounds string + string := build_key_range (wr_key r) (wr_key_end r).

Definition watch_response_new3 (key : string) (prev current : option (SeqV bytes)) : WatchResponse :=
  {| wr_event := Some {| ev_key := key; ev_prev := pb_SeqV_of <$> prev; ev_current := pb_SeqV_of <$> current |} |}.

Definition watch_response_new (c : Change bytes string) : option WatchResponse :=
  key ← ident c;
  Some {| wr_event := Some {| ev_key := key; ev_prev := pb_SeqV_of <$> ch_prev c;
                              ev_current := pb_SeqV_of <$> ch_result c |} |}.

(** ** Senders *)

Definition WatcherId := Z.

Record WatchDesc := { watcher_id : WatcherId; interested : FilterType; key_range : Bounds string }.

(** The sending half of a channel is the number of the channel.  Two senders
    compare by the ids of their watchers. *)
Record WatchStreamSender := { desc : WatchDesc; sender_tx : N }.

(** The channel of a watcher: what was sent to it, in order, and whether its
    receiver is gone.  A status is an error message of the stream. *)
Inductive Status := StatusInternal.
Record Channel := { ch_items : list (WatchResponse + Status); ch_closed : bool }.

(** ** The crate [span_map]

    A map from ranges of keys to sets of values; here the values are senders.
    [span_get] yields the set of a key in ascending order. *)

Class SpanMapLib := {
  SpanMap : Type;
  span_new : SpanMap;
  span_get : SpanMap → string → list WatchStreamSender;
  span_insert : Bounds string → WatchStreamSender → SpanMap → SpanMap;
  span_remove : Bounds string → WatchStreamSender → SpanMap → SpanMap;
}.

Definition sender_id (w : WatchStreamSender) : WatcherId := watcher_id (desc w).

Class SpanMapLaws (sp : SpanMapLib) : Prop := {
  span_get_new : ∀ k, span_get span_new k = [];
  span_get_sorted : ∀ m k, StronglySorted (λ w w', sender_id w < sender_id w') (span_get m k);
  (** inserting a value that is in no set *)
  span_get_insert : ∀ r v m k w, (∀ k' w', w' ∈ span_get m k' → sender_id w' ≠ sender_id v) →
    w ∈ span_get (span_insert r v m) k ↔ w ∈ span_get m k ∨ (w = v ∧ in_bounds r k);
  span_get_remove : ∀ r v m k w,
    w ∈ span_get (span_remove r v m) k ↔ w ∈ span_get m k ∧ ¬ (sender_id w = sender_id v ∧ in_bounds r k);
}.

(** ** The dispatcher *)

Definition wrap_i64 (z : Z) : Z := (z + 2 ^ 63) `mod` 2 ^ 64 - 2 ^ 63.

Record Update := { up_key : string; up_before : option (SeqV bytes); up_after : option (SeqV bytes) }.

(** The functions that are sent to the dispatcher: [add_watcher], whose result
    goes back to the caller, which is known by its channel, and
    [remove_watcher]. *)
Inductive Request :=
| ReqAddWatcher (req : WatchRequest) (tx : N)
| ReqRemoveWatcher (w : WatchStreamSender).

(** [RequestAsync] always sends a stream of key-values to a channel. *)
Inductive Command :=
| CmdUpdate (u : Update)
| CmdRequest (r : Request)
| CmdRequestAsync (tx : N) (strm : Stream (string * SeqV bytes)).

Section dispatcher.
Context {sp : SpanMapLib}.

(** The dispatcher with what it acts on: the channels, the results of the
    requests that callers wait for, and the gauge of the number of watchers. *)
Record Dispatcher := {
  watchers : SpanMap;
  current_watcher_id : WatcherId;
  channels : gmap N Channel;
  replies : gmap N (WatchStreamSender + string);
  gauge : Z;
}.

Definition set_watchers (m : SpanMap) (d : Dispatcher) : Dispatcher :=
  {| watchers := m; current_watcher_id := current_watcher_id d; channels := channels d;
     replies := replies d; gauge := gauge d |}.
Definition set_current_watcher_id (i : WatcherId) (d : Dispatcher) : Dispatcher :=
  {| watchers := watchers d; current_watcher_id := i; channels := channels d;
     replies := replies d; gauge := gauge d |}.
Definition set_channels (c : gmap N Channel) (d : Dispatcher) : Dispatcher :=
  {| watchers := watchers d; current_watcher_id := current_watcher_id d; channels := c;
     replies := replies d; gauge := gauge d |}.
Definition set_replies (r : gmap N (WatchStreamSender + string)) (d : Dispatcher) : Dispatcher :=
  {| watchers := watchers d; current_watcher_id := current_watcher_id d; channels := channels d;
     replies := r; gauge := gauge d |}.
Definition incr_watchers (n : Z) (d : Dispatcher) : Dispatcher :=
  {| watchers := watchers d; current_watcher_id := current_watcher_id d; channels := channels d;
     replies := replies d; gauge := gauge d + n |}.

Definition dispatcher_new (chs : gmap N Channel) : Dispatcher :=
  {| watchers := span_new; current_watcher_id := 1; channels := chs; replies := ∅; gauge := 0 |}.

(** [mpsc::Sender::send]: waits for room, and fails when the receiver is gone. *)
Definition channel_send (tx : N) (item : WatchResponse + Status) : M Dispatcher bool :=
  d ← get_st;
  match channels d !! tx with
  | Some c =>
      if ch_closed c then mret false else
      _ ← put_st (set_channels (<[tx := {| ch_items := ch_items c ++ [item]; ch_closed := false |}]> (channels d)) d);
      mret true
  | None => mret false
  end.

Definition sender_send (w : WatchStreamSender) (resp : WatchResponse) : M Dispatcher bool :=
  channel_send (sender_tx w) (inl resp).

(** [send_stream]: the first error ends it. *)
Fixpoint send_stream (to_tx : N) (strm : Stream (string * SeqV bytes)) : M Dispatcher unit :=
  match strm with
  | [] => mret tt
  | Ok (key, seq_v) :: strm =>
      match watch_response_new (change_with_id (change_new None (Some seq_v)) key) with
      | None => lift Panic
      | Some resp =>
          sent ← channel_send to_tx (inl resp);
          if (sent : bool) then send_stream to_tx strm else mret tt
      end
  | Err _ :: _ => _ ← channel_send to_tx (inr StatusInternal); mret tt
  | Panic :: _ => lift Panic
  end.

Definition remove_watcher (w : WatchStreamSender) : M Dispatcher unit :=
  _ ← modify (λ d, set_watchers (span_remove bounds_full w (watchers d)) d);
  modify (incr_watchers (-1)).

Definition is_interested (f : FilterType) (is_delete : bool) : bool :=
  match f with
  | FilterAll => true
  | FilterUpdate => negb is_delete
  | FilterDelete => is_delete
  end.

(** The loop of [dispatch]: the senders whose receiver is gone. *)
Fixpoint send_to (is_delete : bool) (resp : WatchResponse) (ws : list WatchStreamSender) :
    M Dispatcher (list WatchStreamSender) :=
  match ws with
  | [] => mret []
  | w :: ws =>
      if negb (is_interested (interested (desc w)) is_delete) then send_to is_delete resp ws else
      sent ← sender_send w resp;
      removed ← send_to is_delete resp ws;
      mret (if (sent : bool) then removed else w :: removed)
  end.

Definition dispatch (u : Update) : M Dispatcher unit :=
  let is_delete := is_none (up_after u) in
  let resp := watch_response_new3 (up_key u) (up_before u) (up_after u) in
  d ← get_st;
  removed ← send_to is_delete resp (span_get (watchers d) (up_key u));
  for_each removed remove_watcher.

(** The id is taken before the range is checked. *)
Definition new_watch_desc (key : string) (key_end : option string) (f : FilterType) :
    M Dispatcher (WatchDesc + string) :=
  _ ← modify (λ d, set_current_watcher_id (wrap_i64 (current_watcher_id d + 1)) d);
  d ← get_st;
  match build_key_range key key_end with
  | inr e => mret (inr e)
  | inl range => mret (inl {| watcher_id := current_watcher_id d; interested := f; key_range := range |})
  end.

Definition add_watcher (req : WatchRequest) (tx : N) : M Dispatcher (WatchStreamSender + string) :=
  r ← new_watch_desc (wr_key req) (wr_key_end req) (filter_type req);
  match r with
  | inr e => mret (inr e)
  | inl ds =>
      let stream_sender := {| desc := ds; sender_tx := tx |} in
      _ ← modify (λ d, set_watchers (span_insert (key_range ds) stream_sender (watchers d)) d);
      _ ← modify (incr_watchers 1);
      mret (inl stream_sender)
  end.

(** One round of the loop of [main]. *)
Definition handle (c : Command) : M Dispatcher unit :=
  match c with
  | CmdUpdate kv_change => dispatch kv_change
  | CmdRequest (ReqAddWatcher req tx) =>
      r ← add_watcher req tx;
      modify (λ d, set_replies (<[tx := r]> (replies d)) d)
  | CmdRequest (ReqRemoveWatcher w) => remove_watcher w
  | CmdRequestAsync tx strm => send_stream tx strm
  end.

(** [main], on the commands that are queued. *)
Definition dispatcher_main (queue : list Command) : M Dispatcher unit := for_each queue handle.
End dispatcher.

(** ** A node and its watchers *)

Section node.
Context {raft : OpenRaft} {Mp : Type} `{!StateMap raft Mp} {sp : SpanMapLib}.

(** A call of [watch], known by its channel: it waits for the result of
    [add_watcher], or it has the result and will flush, or it has returned the
    stream to the client. *)
Inductive WatchCall :=
| WatchWaiting (req : WatchRequest)
| WatchAdded (req : WatchRequest) (w : WatchStreamSender)
| WatchStreaming (req : WatchRequest) (w : WatchStreamSender)
| WatchEnded.

(** Of the fields of [MetaNode], the state machine of its store and the dispatcher,
    with [queue], the channel of the dispatcher, and the calls of [watch]. *)
Record MetaNode := {
  node_sm : StateMachine Mp;
  queue : list Command;
  dispatcher : Dispatcher;
  calls : gmap N WatchCall;
}.

Definition update_of (e : Event) : Command :=
  CmdUpdate {| up_key := e.1.1; up_before := e.1.2; up_after := e.2 |}.

(** The events that were sent between two states of the state machine. *)
Definition sent_events (s s' : StateMachine Mp) : list Event :=
  match subscriber s, subscriber s' with
  | Some l, Some l' => drop (length l) l'
  | _, _ => []
  end.

(** A change of the state machine: [DispatcherHandle::send] queues its events. *)
Definition node_write (s' : StateMachine Mp) (n : MetaNode) : MetaNode :=
  {| node_sm := s'; queue := queue n ++ (update_of <$> sent_events (node_sm n) s');
     dispatcher := dispatcher n; calls := calls n |}.

Definition node_apply (es : list RaftEntry) (n : MetaNode) : MetaNode :=
  node_write (apply_entries es (node_sm n)).1 n.

(** The first part of [watch], up to the request to the dispatcher. *)
Definition watch_begin (req : WatchRequest) (tx : N) (n : MetaNode) : MetaNode :=
  match key_range_of req with
  | inr _ => n
  | inl _ =>
      {| node_sm := node_sm n; queue := queue n ++ [CmdRequest (ReqAddWatcher req tx)];
         dispatcher := set_channels (<[tx := {| ch_items := []; ch_closed := false |}]> (channels (dispatcher n)))
           (dispatcher n);
         calls := <[tx := WatchWaiting req]> (calls n) |}
  end.

Definition set_call (tx : N) (c : WatchCall) (n : MetaNode) : MetaNode :=
  {| node_sm := node_sm n; queue := queue n; dispatcher := dispatcher n; calls := <[tx := c]> (calls n) |}.
Definition push_command (c : Command) (n : MetaNode) : MetaNode :=
  {| node_sm := node_sm n; queue := queue n ++ [c]; dispatcher := dispatcher n; calls := calls n |}.
Definition close_channel (tx : N) (n : MetaNode) : MetaNode :=
  {| node_sm := node_sm n; queue := queue n;
     dispatcher := set_channels (alter (λ c, {| ch_items := ch_items c; ch_closed := true |}) tx
       (channels (dispatcher n))) (dispatcher n);
     calls := calls n |}.

(** Dropping a [WatchStream]: its watcher is to be removed, then the receiver is
    gone. *)
Definition drop_stream (tx : N) (w : WatchStreamSender) (n : MetaNode) : MetaNode :=
  close_channel tx (push_command (CmdRequest (ReqRemoveWatcher w)) (set_call tx WatchEnded n)).

(** The reply of [add_watcher] arrives.  An error ends the call, and the receiver
    is dropped with it. *)
Definition watch_reply (tx : N) (n : MetaNode) : MetaNode :=
  match calls n !! tx, replies (dispatcher n) !! tx with
  | Some (WatchWaiting req), Some (inl w) => set_call tx (WatchAdded req w) n
  | Some (WatchWaiting req), Some (inr _) => close_channel tx (set_call tx WatchEnded n)
  | _, _ => n
  end.

(** The rest of [watch]: the flush, with the state machine locked. *)
Definition watch_flush (tx : N) (n : MetaNode) : MetaNode :=
  match calls n !! tx with
  | Some (WatchAdded req w) =>
      let streaming := set_call tx (WatchStreaming req w) n in
      match key_range_of req with
      | inl key_range =>
          if negb (wr_initial_flush req) then streaming else
          match send_range (node_sm n) key_range with
          | Ok (Some strm) => push_command (CmdRequestAsync tx strm) streaming
          | Ok None => streaming
          | _ => drop_stream tx w n
          end
      | inr _ => n
      end
  | _ => n
  end.

(** The client goes away. *)
Definition client_gone (tx : N) (n : MetaNode) : MetaNode :=
  match calls n !! tx with
  | Some (WatchStreaming _ w) | Some (WatchAdded _ w) => drop_stream tx w n
  | Some (WatchWaiting _) => close_channel tx (set_call tx WatchEnded n)
  | _ => n
  end.

(** The dispatcher takes one command; a panic stops it. *)
Definition dispatch_one (n : MetaNode) : MetaNode :=
  match queue n with
  | [] => n
  | c :: q =>
      match handle c (dispatcher n) with
      | (d, Ok _) => {| node_sm := node_sm n; queue := q; dispatcher := d; calls := calls n |}
      | _ => n
      end
  end.

(** A node starts with no watcher. *)
Definition node_new (s : StateMachine Mp) : MetaNode :=
  {| node_sm := s; queue := []; dispatcher := dispatcher_new ∅; calls := ∅ |}.
End node.
