(* ===== verification/WatcherProofs.v ===== *)
(** Watchers: what a channel will have received once the dispatcher has handled
    its queue, and the invariant of a node that relates it to the state machine. *)

From stdpp Require Import base orders sorting strings gmap numbers list relations.
From S2P Require Import Prelude BTree RustStr External ExpireKey MetaTypes Marked MapApi Level StateMap.
From S2P Require Import Txn StateMachine Applier ApplierSpec StateMachineProofs ApplierProofs ApplyProofs.
From S2P Require Import SpecFacts Replica SMV003 Watcher.

(** ** What a list of items says about a key *)

Definition says (k : string) (i : WatchResponse + Status) : option (option pb_SeqV) :=
  match i with
  | inl {| wr_event := Some ev |} => if decide (ev_key ev = k) then Some (ev_current ev) else None
  | _ => None
  end.

(** The last item about the key. *)
Fixpoint mention (k : string) (items : list (WatchResponse + Status)) : option (option pb_SeqV) :=
  match items with
  | [] => None
  | i :: items => match mention k items with Some x => Some x | None => says k i end
  end.

(** A client that keeps a copy of what it watches. *)
Definition cache_item (m : gmap string pb_SeqV) (i : WatchResponse + Status) : gmap string pb_SeqV :=
  match i with
  | inl {| wr_event := Some ev |} =>
      match ev_current ev with Some v => <[ev_key ev := v]> m | None => delete (ev_key ev) m end
  | _ => m
  end.
Definition client_cache (items : list (WatchResponse + Status)) : gmap string pb_SeqV :=
  foldl cache_item ∅ items.

Lemma mention_app k l1 l2 :
  mention k (l1 ++ l2) = match mention k l2 with Some x => Some x | None => mention k l1 end.
Proof.
  induction l1 as [|i l1 IH]; cbn; [by destruct (mention k l2)|]. rewrite IH. by destruct (mention k l2).
Qed.

Lemma cache_mention m items k :
  foldl cache_item m items !! k = match mention k items with Some x => x | None => m !! k end.
Proof.
  revert m. induction items as [|i items IH]; intros m; cbn; [done|]. rewrite IH.
  destruct (mention k items); [done|]. destruct i as [[[ev|]]|]; cbn; [|done..].
  destruct (ev_current ev); case_decide; simplify_map_eq; done.
Qed.

(** The last event about a key. *)
Fixpoint last_event (k : string) (evs : list Event) : option (option (SeqV bytes)) :=
  match evs with
  | [] => None
  | e :: evs => match last_event k evs with
                | Some x => Some x
                | None => if decide (e.1.1 = k) then Some e.2 else None
                end
  end.

Lemma replay_last evs kv k :
  replay evs kv !! k = match last_event k evs with Some x => x | None => kv !! k end.
Proof.
  revert kv. induction evs as [|[[k' p] r] evs IH]; intros kv; [done|]. cbn [replay foldl last_event].
  fold (replay evs (replay_event kv (k', p, r))). rewrite IH. destruct (last_event k evs); [done|]. cbn.
  destruct r; case_decide; simplify_map_eq; done.
Qed.

(** ** Loops *)

Lemma for_each_app {S A} (xs ys : list A) (body : A → M S unit) s s' :
  for_each xs body s = (s', Ok tt) → for_each (xs ++ ys) body s = for_each ys body s'.
Proof.
  revert s. induction xs as [|x xs IH]; intros s; cbn; [by intros [= <-]|].
  unfold mbind, M_bind. destruct (body x s) as [s1 []]; try done. apply IH.
Qed.

(** ** What the queue will bring to a channel *)

Definition flush_item (x : string * SeqV bytes) : WatchResponse + Status :=
  inl (watch_response_new3 x.1 None (Some x.2)).

(** The items of a stream, up to the first error. *)
Fixpoint stream_items (strm : Stream (string * SeqV bytes)) : list (WatchResponse + Status) :=
  match strm with
  | [] => []
  | Ok x :: strm => flush_item x :: stream_items strm
  | Err _ :: _ => [inr StatusInternal]
  | Panic :: _ => []
  end.

(** What a watcher is interested in. *)
Definition Interest : Type := FilterType * Bounds string.
Definition interest_of (req : WatchRequest) : option Interest :=
  match key_range_of req with inl r => Some (filter_type req, r) | inr _ => None end.

Definition update_items (o : option Interest) (u : Update) : list (WatchResponse + Status) :=
  match o with
  | Some (f, r) =>
      if decide (in_bounds r (up_key u)) then
        if is_interested f (is_none (up_after u)) then [inl (watch_response_new3 (up_key u) (up_before u) (up_after u))]
        else []
      else []
  | None => []
  end.

(** The interest of a channel after a command, and what the command sends to the
    channel, as long as the channel is open. *)
Definition interest_after (tx : N) (o : option Interest) (c : Command) : option Interest :=
  match c with
  | CmdRequest (ReqAddWatcher req tx') => if decide (tx' = tx) then interest_of req else o
  | _ => o
  end.
Definition command_items (tx : N) (o : option Interest) (c : Command) : list (WatchResponse + Status) :=
  match c with
  | CmdUpdate u => update_items o u
  | CmdRequestAsync tx' strm => if decide (tx' = tx) then stream_items strm else []
  | _ => []
  end.

Fixpoint expected (tx : N) (o : option Interest) (q : list Command) : list (WatchResponse + Status) :=
  match q with
  | [] => []
  | c :: q => command_items tx o c ++ expected tx (interest_after tx o c) q
  end.
Definition final_interest (tx : N) (o : option Interest) (q : list Command) : option Interest :=
  foldl (interest_after tx) o q.

Lemma expected_app tx o q1 q2 :
  expected tx o (q1 ++ q2) = expected tx o q1 ++ expected tx (final_interest tx o q1) q2.
Proof. revert o. induction q1 as [|c q1 IH]; intros o; cbn; [done|]. by rewrite IH, app_assoc. Qed.

Lemma final_interest_app tx o q1 q2 :
  final_interest tx o (q1 ++ q2) = final_interest tx (final_interest tx o q1) q2.
Proof. apply foldl_app. Qed.

Lemma final_interest_updates tx o evs : final_interest tx o (update_of <$> evs) = o.
Proof. by induction evs. Qed.

(** The events of a change, for a watcher of everything in a range. *)
Lemma mention_updates tx r evs k :
  mention k (expected tx (Some (FilterAll, r)) (update_of <$> evs)) =
  if decide (in_bounds r k) then (λ x : option (SeqV bytes), pb_SeqV_of <$> x) <$> last_event k evs else None.
Proof.
  induction evs as [|[[k' p] v] evs IH]; [cbn; by case_decide|]. rewrite fmap_cons. cbn [expected].
  rewrite mention_app. change (interest_after _ _ _) with (Some (FilterAll, r)). rewrite IH.
  cbn [last_event command_items update_of update_items up_key fst snd].
  destruct (decide (in_bounds r k)) as [Hk|Hk].
  - destruct (last_event k evs) as [x|]; [done|]. cbn. destruct (decide (k' = k)) as [->|Hne].
    + rewrite decide_True by done. cbn. by rewrite decide_True.
    + case_decide; [|done]. cbn. by rewrite decide_False.
  - case_decide as Hk'; [|done]. cbn. rewrite decide_False; [done|]. by intros ->.
Qed.

Lemma mention_flush kv r k :
  mention k (stream_items (Ok <$> range_list kv r)) =
  if decide (in_bounds r k) then Some <$> (pb_SeqV_of <$> kv !! k) else None.
Proof.
  assert (∀ l : list (string * SeqV bytes), StronglySorted klt l →
    mention k (stream_items (Ok <$> l)) = Some <$> (pb_SeqV_of <$> (list_to_map l : gmap string _) !! k)) as H.
  { induction 1 as [|[k' v] l Hl IH Hx]; [done|]. cbn [fmap list_fmap stream_items mention]. rewrite IH.
    cbn. destruct (decide (k' = k)) as [->|Hne]; simplify_map_eq; [|by destruct (list_to_map l !! k)].
    destruct (list_to_map l !! k) as [v'|] eqn:E; [|done].
    apply elem_of_list_to_map_2 in E. rewrite Forall_forall in Hx. specialize (Hx _ E).
    by destruct (irreflexivity (strict String.le) k). }
  rewrite H by apply range_list_sorted. case_decide as Hk.
  - destruct (kv !! k) as [v|] eqn:E.
    + rewrite (proj1 (elem_of_list_to_map (range_list kv r) k v (sorted_kv_NoDup_fst _ _ (range_list_sorted kv r)))); [done|].
      by apply elem_of_range_list.
    + rewrite (proj1 (not_elem_of_list_to_map (M := gmap string) _ k)); [done|].
      intros ([k1 v1] & -> & [Hin _]%elem_of_range_list)%list_elem_of_fmap. cbn in E. by rewrite E in Hin.
  - rewrite (proj1 (not_elem_of_list_to_map (M := gmap string) _ k)); [done|].
    by intros ([k1 v1] & -> & [_ Hin]%elem_of_range_list)%list_elem_of_fmap.
Qed.

(** ** The operations of the dispatcher *)

Section dispatcher.
Context {sp : SpanMapLib} `{!SpanMapLaws sp}.
Local Open Scope Z_scope.
Implicit Types d : Dispatcher.

(** A channel with more items; a closed one is as before. *)
Definition receive (items : list (WatchResponse + Status)) (c : Channel) : Channel :=
  if ch_closed c then c else {| ch_items := ch_items c ++ items; ch_closed := false |}.
Definition deliver (tx : N) (items : list (WatchResponse + Status)) d : Dispatcher :=
  set_channels (alter (receive items) tx (channels d)) d.

Definition is_open d (tx : N) : bool :=
  match channels d !! tx with Some c => negb (ch_closed c) | None => false end.

Lemma receive_nil c : receive [] c = c.
Proof. unfold receive. destruct c as [l []]; [done|]. cbn. by rewrite app_nil_r. Qed.

Lemma receive_receive l1 l2 c : receive l2 (receive l1 c) = receive (l1 ++ l2) c.
Proof. destruct c as [l []]; [done|]. unfold receive. cbn. by rewrite app_assoc. Qed.

Lemma alter_receive (m : gmap N Channel) tx l i :
  alter (receive l) tx m !! i = (if decide (i = tx) then receive l else id) <$> m !! i.
Proof.
  case_decide as E; [subst; apply lookup_alter_eq|]. rewrite lookup_alter_ne by done. by destruct (m !! i).
Qed.

Lemma set_channels_ext d m : (∀ i, channels d !! i = m !! i) → set_channels m d = d.
Proof. intros H%map_eq. subst m. by destruct d. Qed.

Lemma deliver_nil tx d : deliver tx [] d = d.
Proof.
  apply set_channels_ext. intros i. rewrite alter_receive. destruct (channels d !! i); [|done]. cbn.
  case_decide; [by rewrite receive_nil|done].
Qed.

Lemma deliver_deliver tx l1 l2 d : deliver tx l2 (deliver tx l1 d) = deliver tx (l1 ++ l2) d.
Proof.
  unfold deliver, set_channels. cbn. f_equal. apply map_eq. intros i. rewrite !alter_receive.
  destruct (channels d !! i); [|done]. cbn. case_decide; [|done]. by rewrite receive_receive.
Qed.

Lemma is_open_deliver tx tx' l d : is_open (deliver tx l d) tx' = is_open d tx'.
Proof.
  unfold is_open, deliver. cbn. rewrite alter_receive.
  case_decide; by destruct (channels d !! tx') as [[l' []]|].
Qed.

(** Nothing reaches a channel that is not open. *)
Lemma deliver_closed tx l d : is_open d tx = false → deliver tx l d = d.
Proof.
  intros Ho. apply set_channels_ext. intros i. rewrite alter_receive.
  case_decide; [subst i|]; destruct (channels d !! _) as [[l' []]|] eqn:E; try done.
  unfold is_open in Ho. by rewrite E in Ho.
Qed.

Lemma channel_send_spec tx i d : channel_send tx i d = (deliver tx [i] d, Ok (is_open d tx)).
Proof.
  destruct (is_open d tx) eqn:Ho; [|rewrite deliver_closed by done]; unfold channel_send, is_open in *; m_unfold;
    destruct (channels d !! tx) as [[l []]|] eqn:E; try done; cbn.
  unfold deliver. f_equal. f_equal. apply map_eq. intros j. rewrite alter_receive.
  case_decide; simplify_map_eq; [done|]. by destruct (channels d !! j).
Qed.

Lemma send_stream_spec tx l d :
  send_stream tx (Ok <$> l) d = (deliver tx (stream_items (Ok <$> l)) d, Ok tt).
Proof.
  revert d. induction l as [|[k v] l IH]; intros d; [by rewrite deliver_nil|].
  cbn [fmap list_fmap send_stream stream_items]. cbn [watch_response_new change_with_id change_new ident mbind option_bind].
  rewrite (M_bind_Ok _ _ _ _ _ (channel_send_spec _ _ _)).
  destruct (is_open d tx) eqn:Ho.
  - rewrite IH, deliver_deliver. done.
  - by rewrite !deliver_closed.
Qed.

(** The senders that get an update, and those of them whose receiver is gone. *)
Definition wants (b : bool) (w : WatchStreamSender) : bool := is_interested (interested (desc w)) b.
Definition deliver_all (resp : WatchResponse) (ws : list WatchStreamSender) d : Dispatcher :=
  foldl (λ d w, deliver (sender_tx w) [inl resp] d) d ws.
Definition gone d (ws : list WatchStreamSender) : list WatchStreamSender :=
  filter (λ w, is_open d (sender_tx w) = false) ws.

Lemma gone_deliver tx l d ws : gone (deliver tx l d) ws = gone d ws.
Proof. unfold gone. apply list_filter_iff. intros w. by rewrite is_open_deliver. Qed.

Lemma send_to_spec b resp ws d :
  send_to b resp ws d =
  (deliver_all resp (filter (λ w, wants b w = true) ws) d, Ok (gone d (filter (λ w, wants b w = true) ws))).
Proof.
  revert d. induction ws as [|w ws IH]; intros d; [done|]. cbn [send_to]. rewrite filter_cons.
  fold (wants b w). destruct (wants b w) eqn:Hw; cbn [negb]; [|by rewrite decide_False].
  rewrite decide_True by done. unfold sender_send.
  rewrite (M_bind_Ok _ _ _ _ _ (channel_send_spec _ _ _)), (M_bind_Ok _ _ _ _ _ (IH _)). rewrite gone_deliver.
  f_equal. unfold gone. rewrite filter_cons.
  destruct (is_open d (sender_tx w)); [by rewrite decide_False|by rewrite decide_True].
Qed.

Lemma deliver_all_channels resp ws d tx :
  NoDup (sender_tx <$> ws) →
  channels (deliver_all resp ws d) !! tx =
  receive (if decide (tx ∈ sender_tx <$> ws) then [inl resp] else []) <$> channels d !! tx.
Proof.
  revert d. induction ws as [|w ws IH]; intros d Hnd.
  { cbn. rewrite decide_False by set_solver. destruct (channels d !! tx); cbn; [by rewrite receive_nil|done]. }
  apply NoDup_cons in Hnd as [Hw Hnd]. cbn [deliver_all foldl]. fold (deliver_all resp ws (deliver (sender_tx w) [inl resp] d)).
  rewrite IH by done. unfold deliver. cbn [channels set_channels]. rewrite alter_receive.
  destruct (channels d !! tx) as [c|]; [|done]. cbn. f_equal.
  destruct (decide (tx = sender_tx w)) as [->|Hne].
  - rewrite decide_False by done. rewrite receive_nil, decide_True; [done|]. set_solver.
  - cbn. do 2 case_decide; set_solver.
Qed.

Lemma deliver_all_frame resp ws d : deliver_all resp ws d = set_channels (channels (deliver_all resp ws d)) d.
Proof.
  unfold deliver_all. revert d. induction ws as [|w ws IH]; intros d; cbn [foldl]; [by destruct d|].
  etrans; [apply IH|]. unfold deliver, set_channels. done.
Qed.

(** Removing senders: only the watchers and the gauge change. *)
Lemma remove_all_spec ws d :
  for_each ws remove_watcher d =
  (incr_watchers (- Z.of_nat (length ws))
     (set_watchers (foldl (λ m w, span_remove bounds_full w m) (watchers d) ws) d), Ok tt).
Proof.
  revert d. induction ws as [|w ws IH]; intros d; [cbn; unfold incr_watchers, set_watchers; cbn; by rewrite Z.add_0_r; destruct d|].
  cbn [for_each]. erewrite M_bind_Ok; [|done]. rewrite IH. unfold incr_watchers, set_watchers. cbn.
  do 2 f_equal. lia.
Qed.

Lemma span_remove_all ws m k w :
  w ∈ span_get (foldl (λ m w, span_remove bounds_full w m) m ws) k ↔
  w ∈ span_get m k ∧ sender_id w ∉ sender_id <$> ws.
Proof.
  revert m. induction ws as [|w' ws IH]; intros m; cbn [foldl]; [set_solver|].
  assert (in_bounds bounds_full k) by done.
  rewrite IH, span_get_remove, fmap_cons, not_elem_of_cons. tauto.
Qed.

Lemma dispatch_spec u d :
  let ws := filter (λ w, wants (is_none (up_after u)) w = true) (span_get (watchers d) (up_key u)) in
  let resp := watch_response_new3 (up_key u) (up_before u) (up_after u) in
  ∃ d', dispatch u d = (d', Ok tt) ∧ channels d' = channels (deliver_all resp ws d) ∧
    current_watcher_id d' = current_watcher_id d ∧ replies d' = replies d ∧
    gauge d' = gauge d - Z.of_nat (length (gone d ws)) ∧
    (∀ k w, w ∈ span_get (watchers d') k ↔
      w ∈ span_get (watchers d) k ∧ sender_id w ∉ sender_id <$> gone d ws).
Proof.
  intros ws resp. eexists. split_and!.
  - unfold dispatch. erewrite M_bind_Ok; [|done]. rewrite (M_bind_Ok _ _ _ _ _ (send_to_spec _ _ _ _)).
    fold ws resp. apply remove_all_spec.
  - done.
  - by rewrite deliver_all_frame.
  - by rewrite deliver_all_frame.
  - rewrite deliver_all_frame. cbn. lia.
  - intros k w. rewrite deliver_all_frame. cbn. apply span_remove_all.
Qed.
End dispatcher.

(** ** A concrete map of ranges, for examples

    The insertions and removals, the newest first. *)

Fixpoint insert_sender (v : WatchStreamSender) (l : list WatchStreamSender) : list WatchStreamSender :=
  match l with
  | [] => [v]
  | w :: l' =>
      match (sender_id v ?= sender_id w)%Z with
      | Lt => v :: l
      | Eq => l
      | Gt => w :: insert_sender v l'
      end
  end.

Fixpoint log_get (m : list (bool * Bounds string * WatchStreamSender)) (k : string) : list WatchStreamSender :=
  match m with
  | [] => []
  | (ins, r, v) :: m =>
      if decide (in_bounds r k) then
        if ins then insert_sender v (log_get m k) else filter (λ w, sender_id w ≠ sender_id v) (log_get m k)
      else log_get m k
  end.

Definition log_spans : SpanMapLib := {|
  SpanMap := list (bool * Bounds string * WatchStreamSender);
  span_new := [];
  span_get := log_get;
  span_insert r v m := (true, r, v) :: m;
  span_remove r v m := (false, r, v) :: m;
|}.

Lemma elem_of_insert_sender v l w :
  (∀ w', w' ∈ l → sender_id w' ≠ sender_id v) → w ∈ insert_sender v l ↔ w ∈ l ∨ w = v.
Proof.
  induction l as [|w' l IH]; intros Hl; cbn; [set_solver|].
  destruct (Z.compare_spec (sender_id v) (sender_id w')) as [E|E|E].
  - destruct (Hl w'); [set_solver|done].
  - set_solver.
  - rewrite !elem_of_cons, IH by set_solver. tauto.
Qed.

Lemma insert_sender_sorted v l :
  StronglySorted (λ w w', sender_id w < sender_id w')%Z l →
  StronglySorted (λ w w', sender_id w < sender_id w')%Z (insert_sender v l).
Proof.
  induction 1 as [|w l Hl IH Hw]; cbn; [by repeat constructor|].
  destruct (Z.compare_spec (sender_id v) (sender_id w)) as [E|E|E].
  - by constructor.
  - constructor; [by constructor|]. constructor; [done|]. eapply Forall_impl; [done|]. cbn. lia.
  - constructor; [done|]. clear IH Hl. induction Hw as [|w' l Hw' Hw IH]; cbn; [by repeat constructor|].
    destruct (Z.compare_spec (sender_id v) (sender_id w')); repeat constructor; done.
Qed.

Lemma sorted_filter {A} (R : relation A) (P : A → Prop) `{!∀ x, Decision (P x)} l :
  StronglySorted R l → StronglySorted R (filter P l).
Proof.
  induction 1 as [|x l _ IH Hx]; [constructor|]. rewrite filter_cons. case_decide; [|done].
  constructor; [done|]. rewrite Forall_forall in *. intros y [_ ?]%list_elem_of_filter. auto.
Qed.

Lemma log_spans_laws : SpanMapLaws log_spans.
Proof.
  split; cbn; [done| | |].
  - intros m k. induction m as [|[[[] r] v] m IH]; cbn; [constructor|..]; (case_decide; [|done]).
    + by apply insert_sender_sorted.
    + by apply sorted_filter.
  - intros r v m k w Hfresh. case_decide as Hd; [|naive_solver].
    rewrite elem_of_insert_sender by (intros w'; apply Hfresh). tauto.
  - intros r v m k w. case_decide as Hd; [|naive_solver]. rewrite list_elem_of_filter. tauto.
Qed.
