(* ===== verification/WatchNodeProofs.v ===== *)
(** A node with its watchers, in any order of events: applying log entries, calls
    of [watch], clients that go away, and the dispatcher.  The invariant says that
    what a watcher has received, with what is queued for it, agrees with the state
    machine. *)

From stdpp Require Import base orders sorting strings gmap numbers list relations.
From S2P Require Import Prelude BTree RustStr External ExpireKey MetaTypes Marked MapApi Level StateMap.
From S2P Require Import Txn StateMachine Applier ApplierSpec StateMachineProofs ApplierProofs ApplyProofs.
From S2P Require Import SpecFacts Replica SMV003 Watcher WatcherProofs.

Section node.
Context {raft : OpenRaft} {Mp : Type} `{!StateMap raft Mp, !StateMapLaws Mp}.
Context {sp : SpanMapLib} `{!SpanMapLaws sp}.
Implicit Types (n : MetaNode (Mp := Mp)) (d : Dispatcher) (reg : gset N).

Abbreviation node_kv n := (kvv (sm_map (node_sm n))).

(** ** Steps *)

(** What happens at a node.  Building a snapshot changes the map, but nothing that
    can be read.  Watcher ids are left. *)
Inductive node_step : relation (MetaNode (Mp := Mp)) :=
| step_apply n es :
    Forall entry_ok es → (sequence (map_sys (sm_map (node_sm n))) + entries_cost es + 1 < u64_mod)%N →
    node_step n (node_apply es n)
| step_maintain n s' :
    sm_ok s' → kvv (sm_map s') = node_kv n → subscriber s' = subscriber (node_sm n) →
    node_step n (node_write s' n)
| step_begin n req tx :
    calls n !! tx = None → channels (dispatcher n) !! tx = None → node_step n (watch_begin req tx n)
| step_reply n tx : node_step n (watch_reply tx n)
| step_flush n tx : node_step n (watch_flush tx n)
| step_gone n tx : node_step n (client_gone tx n)
| step_dispatch n :
    (current_watcher_id (dispatcher n) + 1 < 2 ^ 63)%Z → node_step n (dispatch_one n).

(** ** The invariant *)

(** The events that were sent before a watcher asked to be added. *)
Variable base : N → list Event.

Definition interest_in d reg (tx : N) : option Interest :=
  if decide (tx ∈ reg) then
    match replies d !! tx with
    | Some (inl w) => Some (interested (desc w), key_range (desc w))
    | _ => None
    end
  else None.

(** What a channel has received, and what is queued for it. *)
Definition inbox n reg (tx : N) (c : Channel) : list (WatchResponse + Status) :=
  ch_items c ++ expected tx (interest_in (dispatcher n) reg tx) (queue n).

Definition call_req (c : WatchCall) : option WatchRequest :=
  match c with
  | WatchWaiting req | WatchAdded req _ | WatchStreaming req _ => Some req
  | WatchEnded => None
  end.
Definition call_sender (c : WatchCall) : option WatchStreamSender :=
  match c with WatchAdded _ w | WatchStreaming _ w => Some w | _ => None end.
Definition is_streaming (c : WatchCall) : bool := match c with WatchStreaming _ _ => true | _ => false end.

(** A watcher whose channel is open.  It is registered, or will be; what it hears
    of a key is the value of the key, and after the flush it has heard of every
    key that has a value. *)
Record watch_ok n reg (tx : N) (c : Channel) (call : WatchCall) (req : WatchRequest) (r : Bounds string) : Prop := {
  wo_call : calls n !! tx = Some call;
  wo_req : call_req call = Some req;
  wo_range : key_range_of req = inl r;
  wo_interest : final_interest tx (interest_in (dispatcher n) reg tx) (queue n) = Some (filter_type req, r);
  wo_outside : ∀ k, ¬ in_bounds r k → mention k (inbox n reg tx c) = None;
  wo_seen : filter_type req = FilterAll → ∀ k x,
    mention k (inbox n reg tx c) = Some x → x = pb_SeqV_of <$> node_kv n !! k;
  wo_flushed : filter_type req = FilterAll → is_streaming call = true → wr_initial_flush req = true → ∀ k,
    in_bounds r k → mention k (inbox n reg tx c) = None → node_kv n !! k = None;
  wo_exact : wr_initial_flush req = false → ∃ evs,
    subscriber (node_sm n) = Some (base tx ++ evs) ∧
    inbox n reg tx c = expected tx (Some (filter_type req, r)) (update_of <$> evs);
}.

Definition adds (q : list Command) : list N :=
  omap (λ c, match c with CmdRequest (ReqAddWatcher _ tx) => Some tx | _ => None end) q.

(** What is known of a command in the queue. *)
Definition command_ok d (c : Command) : Prop :=
  match c with
  | CmdUpdate _ => True
  | CmdRequest (ReqAddWatcher req tx) =>
      is_Some (interest_of req) ∧ replies d !! tx = None ∧ is_Some (channels d !! tx)
  | CmdRequest (ReqRemoveWatcher w) => replies d !! sender_tx w = Some (inl w) ∧ is_open d (sender_tx w) = false
  | CmdRequestAsync tx strm => (∃ l, strm = Ok <$> l) ∧ is_Some (channels d !! tx)
  end.

(** [reg] are the channels of the registered senders. *)
Record disp_ok d reg : Prop := {
  do_watchers : ∀ k w, w ∈ span_get (watchers d) k ↔
    sender_tx w ∈ reg ∧ replies d !! sender_tx w = Some (inl w) ∧ in_bounds (key_range (desc w)) k;
  do_sender : ∀ tx w, replies d !! tx = Some (inl w) →
    sender_tx w = tx ∧ (sender_id w ≤ current_watcher_id d)%Z;
  do_inj : ∀ tx tx' w w', replies d !! tx = Some (inl w) → replies d !! tx' = Some (inl w') →
    sender_id w = sender_id w' → tx = tx';
  do_reg : ∀ tx, tx ∈ reg → ∃ w, replies d !! tx = Some (inl w);
  do_known : ∀ tx, is_Some (replies d !! tx) → is_Some (channels d !! tx);
  do_min : (1 ≤ current_watcher_id d)%Z;
}.

Record node_ok n reg : Prop := {
  no_sm : sm_ok (node_sm n);
  no_sub : is_Some (subscriber (node_sm n));
  no_disp : disp_ok (dispatcher n) reg;
  no_queue : Forall (command_ok (dispatcher n)) (queue n);
  no_adds : NoDup (adds (queue n));
  no_calls : ∀ tx call, calls n !! tx = Some call →
    is_Some (channels (dispatcher n) !! tx) ∧
    ∀ w, call_sender call = Some w → replies (dispatcher n) !! tx = Some (inl w);
  no_open : ∀ tx c, channels (dispatcher n) !! tx = Some c → ch_closed c = false →
    ∃ call req r, watch_ok n reg tx c call req r;
}.

(** ** A watcher while other things happen *)

(** A change of the state machine. *)
Lemma watch_ok_write n reg tx c call req r s' sent evs :
  watch_ok n reg tx c call req r → replay evs (node_kv n) = kvv (sm_map s') →
  subscriber (node_sm n) = Some sent → subscriber s' = Some (sent ++ evs) →
  watch_ok (node_write s' n) reg tx c call req r.
Proof.
  intros [Hc Hq Hr Hi Ho Hs Hf He] Hrep Hsub Hsub'.
  assert (sent_events (node_sm n) s' = evs) as Hev by (unfold sent_events; by rewrite Hsub, Hsub', drop_app_length).
  assert (inbox (node_write s' n) reg tx c =
    inbox n reg tx c ++ expected tx (Some (filter_type req, r)) (update_of <$> evs)) as Hin.
  { unfold inbox, node_write. cbn [queue dispatcher]. rewrite Hev, expected_app, app_assoc.
    by rewrite Hi. }
  assert (∀ k, ¬ in_bounds r k → mention k (expected tx (Some (filter_type req, r)) (update_of <$> evs)) = None) as Hout.
  { intros k Hk. clear -Hk. induction evs as [|e evs IH]; [done|]. rewrite fmap_cons. cbn [expected].
    rewrite mention_app. change (interest_after _ _ _) with (Some (filter_type req, r)). rewrite IH.
    cbn [command_items update_of update_items up_key]. case_decide as Hd; [|done]. destruct (is_interested _ _); [|done].
    cbn. rewrite decide_False; [done|]. by intros <-. }
  split; try done; unfold node_write; cbn [node_sm calls queue dispatcher].
  - rewrite Hev, final_interest_app, Hi. apply final_interest_updates.
  - intros k Hk. fold (node_write s' n). by rewrite Hin, mention_app, Hout, Ho.
  - intros Hall k x. fold (node_write s' n). rewrite Hin, mention_app, <-Hrep, replay_last.
    destruct (decide (in_bounds r k)) as [Hk|Hk]; [|by rewrite Hout, Ho].
    rewrite Hall, mention_updates, decide_True by done. destruct (last_event k evs); cbn; [by intros [= <-]|].
    by apply Hs.
  - intros Hall Hst Hfl k Hk. fold (node_write s' n). rewrite Hin, mention_app, <-Hrep, replay_last.
    rewrite Hall, mention_updates, decide_True by done. destruct (last_event k evs); cbn; [done|]. by apply Hf.
  - intros Hfl. destruct (He Hfl) as (evs0 & H1 & H2). fold (node_write s' n). exists (evs0 ++ evs).
    rewrite Hsub in H1. injection H1 as ->. rewrite Hsub', Hin, H2, fmap_app, expected_app, app_assoc.
    by rewrite final_interest_updates.
Qed.

(** What a watcher depends on. *)
Lemma watch_ok_same n n' reg reg' tx c c' call call' req r :
  watch_ok n reg tx c call req r →
  calls n' !! tx = Some call' → call_req call' = Some req →
  (is_streaming call' = true → wr_initial_flush req = true → is_streaming call = true) →
  node_sm n' = node_sm n → inbox n' reg' tx c' = inbox n reg tx c →
  final_interest tx (interest_in (dispatcher n') reg' tx) (queue n') =
    final_interest tx (interest_in (dispatcher n) reg tx) (queue n) →
  watch_ok n' reg' tx c' call' req r.
Proof.
  intros [Hc Hq Hr Hi Ho Hs Hf He] Hc' Hq' Hst Hkv Hin Hfi.
  split; [done|done|done| |..]; rewrite ?Hfi, ?Hin, ?Hkv; auto.
Qed.

(** A command that does not concern the channel is added to the queue. *)
Lemma inbox_push n n' reg tx c cmd :
  queue n' = queue n ++ [cmd] → interest_in (dispatcher n') reg tx = interest_in (dispatcher n) reg tx →
  inbox n' reg tx c = inbox n reg tx c ++
    command_items tx (final_interest tx (interest_in (dispatcher n) reg tx) (queue n)) cmd.
Proof. intros Hq Hi. unfold inbox. rewrite Hq, Hi, expected_app, app_assoc. cbn. by rewrite app_nil_r. Qed.

Lemma final_push n n' reg tx cmd :
  queue n' = queue n ++ [cmd] → interest_in (dispatcher n') reg tx = interest_in (dispatcher n) reg tx →
  final_interest tx (interest_in (dispatcher n') reg tx) (queue n') =
  interest_after tx (final_interest tx (interest_in (dispatcher n) reg tx) (queue n)) cmd.
Proof. intros Hq Hi. by rewrite Hq, Hi, final_interest_app. Qed.

(** The first command of the queue is handled. *)
Lemma watch_ok_pop n n' reg reg' tx c c' call req r cmd :
  watch_ok n reg tx c call req r →
  queue n = cmd :: queue n' → calls n' = calls n → node_sm n' = node_sm n →
  interest_in (dispatcher n') reg' tx = interest_after tx (interest_in (dispatcher n) reg tx) cmd →
  ch_items c' = ch_items c ++ command_items tx (interest_in (dispatcher n) reg tx) cmd →
  watch_ok n' reg' tx c' call req r.
Proof.
  intros Hw Hq Hc Hs Hi Hit. apply (watch_ok_same n n' reg reg' tx c c' call call req r Hw); [|by apply Hw|done|done|..].
  - rewrite Hc. apply Hw.
  - unfold inbox. rewrite Hq, Hi, Hit. cbn. by rewrite app_assoc.
  - rewrite Hq, Hi. done.
Qed.

(** ** The steps keep the invariant *)

Lemma adds_app q1 q2 : adds (q1 ++ q2) = adds q1 ++ adds q2.
Proof. apply omap_app. Qed.
Lemma adds_updates evs : adds (update_of <$> evs) = [].
Proof. by induction evs. Qed.
Lemma elem_of_adds q tx : tx ∈ adds q ↔ ∃ req, CmdRequest (ReqAddWatcher req tx) ∈ q.
Proof.
  unfold adds. rewrite list_elem_of_omap. split.
  - intros (c & Hc & E). destruct c as [|[]|]; simplify_eq. eauto.
  - intros [req Hr]. by exists (CmdRequest (ReqAddWatcher req tx)).
Qed.

Lemma node_ok_write n reg s' sent evs :
  node_ok n reg → sm_ok s' → replay evs (node_kv n) = kvv (sm_map s') →
  subscriber (node_sm n) = Some sent → subscriber s' = Some (sent ++ evs) → node_ok (node_write s' n) reg.
Proof.
  intros [Hs _ Hd Hq Ha Hc Ho] Hs' Hrep Hsub Hsub'.
  assert (sent_events (node_sm n) s' = evs) as Hev by (unfold sent_events; by rewrite Hsub, Hsub', drop_app_length).
  split; unfold node_write; cbn [node_sm queue dispatcher calls]; try done.
  - rewrite Hev. apply Forall_app. split; [done|]. apply Forall_fmap, Forall_true. done.
  - by rewrite Hev, adds_app, adds_updates, app_nil_r.
  - intros tx c H1 H2. destruct (Ho tx c H1 H2) as (call & req & r & Hw). exists call, req, r.
    by apply (watch_ok_write n reg tx c call req r s' sent evs).
Qed.

Lemma apply_events es s sent :
  sm_ok s → subscriber s = Some sent → Forall entry_ok es →
  (sequence (map_sys (sm_map s)) + entries_cost es + 1 < u64_mod)%N →
  let s' := (apply_entries es s).1 in
  ∃ evs, sm_ok s' ∧ subscriber s' = Some (sent ++ evs) ∧ replay evs (kvv (sm_map s)) = kvv (sm_map s').
Proof.
  intros Hok Hsub Hes Hs s'. destruct (apply_entries_spec es s Hok Hes Hs) as (s1 & E & Hok' & Habs & Hsub' & _).
  subst s'. rewrite E. cbn [fst]. destruct Habs as (Hkv & _ & _). cbn in Hkv.
  destruct (apply_all_events es s sent Hes Hsub) as (evs & Hev & Hrep). exists evs. by rewrite Hsub', Hkv.
Qed.

Lemma node_ok_step_write n reg n' :
  node_ok n reg →
  (∃ es, Forall entry_ok es ∧ (sequence (map_sys (sm_map (node_sm n))) + entries_cost es + 1 < u64_mod)%N ∧ n' = node_apply es n) ∨
  (∃ s', sm_ok s' ∧ kvv (sm_map s') = node_kv n ∧ subscriber s' = subscriber (node_sm n) ∧ n' = node_write s' n) →
  node_ok n' reg.
Proof.
  intros Hn [(es & Hes & Hroom & ->)|(s' & Hs' & Hkv & Hsub & ->)].
  - destruct (no_sub _ _ Hn) as [sent Hsub].
    destruct (apply_events es (node_sm n) sent (no_sm _ _ Hn) Hsub Hes Hroom) as (evs & H1 & H2 & H3).
    by apply (node_ok_write n reg _ sent evs).
  - destruct (no_sub _ _ Hn) as [sent Hsent].
    apply (node_ok_write n reg s' sent []); [done|done|by rewrite Hkv|done|by rewrite Hsub, app_nil_r].
Qed.

(** Closing a channel. *)
Definition close_all d (tx : N) : Dispatcher :=
  set_channels (alter (λ c, {| ch_items := ch_items c; ch_closed := true |}) tx (channels d)) d.

Lemma close_channels d tx i c :
  channels (close_all d tx) !! i = Some c → ch_closed c = false → i ≠ tx ∧ channels d !! i = Some c.
Proof.
  unfold close_all. cbn. destruct (decide (i = tx)) as [->|Hne].
  - rewrite lookup_alter_eq. by intros (c' & _ & ->)%fmap_Some.
  - by rewrite lookup_alter_ne.
Qed.

Lemma close_some d tx i : is_Some (channels (close_all d tx) !! i) ↔ is_Some (channels d !! i).
Proof. unfold close_all. cbn. apply lookup_alter_is_Some. Qed.

Lemma close_open d tx i : is_open d i = false → is_open (close_all d tx) i = false.
Proof.
  unfold is_open. destruct (channels (close_all d tx) !! i) as [c|] eqn:E; [|done].
  destruct (ch_closed c) eqn:Hc; [done|]. destruct (close_channels d tx i c E Hc) as [_ ->]. by rewrite Hc.
Qed.

Lemma command_ok_channels d d' cmd :
  replies d' = replies d → (∀ i, is_Some (channels d !! i) → is_Some (channels d' !! i)) →
  (∀ i, is_open d i = false → is_Some (channels d !! i) → is_open d' i = false) →
  (∀ tx w, replies d !! tx = Some (inl w) → is_Some (channels d !! tx)) →
  command_ok d cmd → command_ok d' cmd.
Proof.
  intros Hr Hc Ho Hs. destruct cmd as [|[]|]; cbn; rewrite ?Hr; [done|..].
  - intros (? & ? & ?). auto.
  - intros [H1 H2]. split; [done|]. apply Ho; [done|]. by eapply Hs.
  - intros (? & ?). auto.
Qed.

Lemma disp_ok_channels d d' reg :
  watchers d' = watchers d → replies d' = replies d → current_watcher_id d' = current_watcher_id d →
  (∀ i, is_Some (channels d !! i) → is_Some (channels d' !! i)) → disp_ok d reg → disp_ok d' reg.
Proof.
  intros Hw Hr Hi Hc [H1 H2 H3 H4 H5 H6]. split; rewrite ?Hw, ?Hr, ?Hi; auto.
Qed.

Lemma interest_in_replies d d' reg tx :
  replies d' !! tx = replies d !! tx → interest_in d' reg tx = interest_in d reg tx.
Proof. unfold interest_in. by intros ->. Qed.

Lemma close_ok n reg tx : node_ok n reg → node_ok (close_channel tx n) reg.
Proof.
  intros [Hs Hsub Hd Hq Ha Hc Ho]. split; try done; cbn [close_channel node_sm dispatcher queue calls];
    fold (close_all (dispatcher n) tx).
  - apply (disp_ok_channels (dispatcher n)); try done. intros i. by rewrite close_some.
  - eapply Forall_impl; [done|]. intros cmd. apply command_ok_channels; [done| | |].
    + intros i. by rewrite close_some.
    + intros i H _. by apply close_open.
    + intros i w H. by eapply do_known.
  - intros i call H. destruct (Hc i call H) as [H1 H2]. by rewrite close_some.
  - intros i c H Hcl. destruct (close_channels _ _ _ _ H Hcl) as [_ H'].
    destruct (Ho i c H' Hcl) as (call & req & r & Hw). exists call, req, r.
    apply (watch_ok_same n _ reg reg i c c call call req r Hw); try done; apply Hw.
Qed.

Lemma is_open_channel d tx c : channels d !! tx = Some c → ch_closed c = false → is_open d tx = true.
Proof. unfold is_open. by intros -> ->. Qed.

Lemma open_not_closed d tx c : channels d !! tx = Some c → is_open d tx = false → ch_closed c = true.
Proof. unfold is_open. intros ->. by destruct (ch_closed c). Qed.

Lemma set_call_ok n reg tx call' :
  node_ok n reg → is_Some (channels (dispatcher n) !! tx) →
  (∀ w, call_sender call' = Some w → replies (dispatcher n) !! tx = Some (inl w)) →
  (∀ c call req r, is_open (dispatcher n) tx = true → watch_ok n reg tx c call req r →
    call_req call' = Some req ∧ (is_streaming call' = true → wr_initial_flush req = true → is_streaming call = true)) →
  node_ok (set_call tx call' n) reg.
Proof.
  intros [Hs Hsub Hd Hq Ha Hc Ho] Hch Hw Hopen. split; try done; cbn [set_call node_sm dispatcher queue calls].
  - intros i call. destruct (decide (i = tx)) as [->|Hne]; simplify_map_eq; [|by apply Hc]. by intros [= <-].
  - intros i c H Hcl. destruct (Ho i c H Hcl) as (call & req & r & Hok).
    destruct (decide (i = tx)) as [->|Hne].
    + destruct (Hopen c call req r (is_open_channel _ _ _ H Hcl) Hok) as [H1 H2]. exists call', req, r.
      apply (watch_ok_same n _ reg reg tx c c call call' req r Hok); try done. cbn. by simplify_map_eq.
    + exists call, req, r. apply (watch_ok_same n _ reg reg i c c call call req r Hok); try done; [|apply Hok].
      cbn. rewrite lookup_insert_ne by done. apply Hok.
Qed.

Lemma push_ok n reg cmd :
  node_ok n reg → command_ok (dispatcher n) cmd → adds [cmd] = [] →
  (∀ tx o, is_open (dispatcher n) tx = true → command_items tx o cmd = []) →
  node_ok (push_command cmd n) reg.
Proof.
  intros [Hs Hsub Hd Hq Ha Hc Ho] Hcmd Hadd Hit. split; try done; cbn [push_command node_sm dispatcher queue calls].
  - apply Forall_app. split; [done|]. by apply Forall_singleton.
  - by rewrite adds_app, Hadd, app_nil_r.
  - intros i c H Hcl. destruct (Ho i c H Hcl) as (call & req & r & Hok). exists call, req, r.
    assert (∀ o, interest_after i o cmd = o) as Hi by by destruct cmd as [|[]|].
    apply (watch_ok_same n _ reg reg i c c call call req r Hok); try done; try apply Hok.
    + rewrite (inbox_push n (push_command cmd n) reg i c cmd), Hit, app_nil_r by (done || by eapply is_open_channel). done.
    + rewrite (final_push n (push_command cmd n) reg i cmd) by done. apply Hi.
Qed.

Lemma drop_ok n reg tx w :
  node_ok n reg → replies (dispatcher n) !! tx = Some (inl w) → node_ok (drop_stream tx w n) reg.
Proof.
  intros Hn Hw. destruct (do_sender _ _ (no_disp _ _ Hn) tx w Hw) as (Htx & _).
  pose proof (do_known _ _ (no_disp _ _ Hn) tx ltac:(by eexists)) as Hch.
  assert (is_open (close_all (dispatcher n) tx) tx = false) as Hcl.
  { unfold is_open, close_all. cbn. rewrite lookup_alter_eq. by destruct (channels (dispatcher n) !! tx). }
  change (node_ok (push_command (CmdRequest (ReqRemoveWatcher w)) (set_call tx WatchEnded (close_channel tx n))) reg).
  apply push_ok; [|cbn; rewrite Htx; by split|done|done].
  apply set_call_ok; [by apply close_ok|by apply close_some|done|].
  intros c call req r Ho. change (is_open (close_all (dispatcher n) tx) tx = true) in Ho. by rewrite Hcl in Ho.
Qed.

Lemma cancel_ok n reg tx :
  node_ok n reg → is_Some (calls n !! tx) → node_ok (close_channel tx (set_call tx WatchEnded n)) reg.
Proof.
  intros Hn [call Hc]. destruct (no_calls _ _ Hn tx call Hc) as [Hch _].
  change (node_ok (set_call tx WatchEnded (close_channel tx n)) reg).
  apply set_call_ok; [by apply close_ok|by apply close_some|done|].
  intros c call' req r Ho. change (is_open (close_all (dispatcher n) tx) tx = true) in Ho.
  unfold is_open, close_all in Ho. cbn in Ho. rewrite lookup_alter_eq in Ho. by destruct (channels (dispatcher n) !! tx).
Qed.

Lemma gone_ok n reg tx : node_ok n reg → node_ok (client_gone tx n) reg.
Proof.
  intros Hn. unfold client_gone. destruct (calls n !! tx) as [[]|] eqn:E; [by apply cancel_ok| | |done|done].
  all: apply drop_ok; [done|]; by eapply no_calls.
Qed.

Lemma reply_ok n reg tx : node_ok n reg → node_ok (watch_reply tx n) reg.
Proof.
  intros Hn. unfold watch_reply. destruct (calls n !! tx) as [[req| | |]|] eqn:E; try done.
  destruct (replies (dispatcher n) !! tx) as [[w|]|] eqn:Hr; [|by apply cancel_ok|done].
  apply set_call_ok; [done|by eapply no_calls| |].
  - by intros w' [= <-].
  - intros c call req' r _ Hok. pose proof (wo_call _ _ _ _ _ _ _ Hok) as Hcall. rewrite E in Hcall. injection Hcall as <-.
    split; [apply Hok|done].
Qed.

(** The flush: the values of the range at that moment. *)
Lemma watch_ok_flush n reg tx c call call' req r :
  watch_ok n reg tx c call req r → call_req call' = Some req → wr_initial_flush req = true →
  watch_ok (push_command (CmdRequestAsync tx (Ok <$> range_list (node_kv n) r)) (set_call tx call' n)) reg tx c call' req r.
Proof.
  intros [Hc Hq Hr Hi Ho Hs Hf He] Hq' Hfl. set (n' := push_command _ _).
  assert (inbox n' reg tx c = inbox n reg tx c ++ stream_items (Ok <$> range_list (node_kv n) r)) as Hin.
  { rewrite (inbox_push n n' reg tx c _ eq_refl eq_refl). cbn [command_items]. by rewrite decide_True. }
  split; [cbn; by simplify_map_eq|done|done| |..].
  - rewrite (final_push n n' reg tx _ eq_refl eq_refl). exact Hi.
  - intros k Hk. rewrite Hin, mention_app, mention_flush, decide_False by done. by apply Ho.
  - intros Hall k x. rewrite Hin, mention_app, mention_flush. change (node_kv n') with (node_kv n).
    case_decide; [|by apply Hs]. destruct (node_kv n !! k) as [v|] eqn:E; cbn; [by intros [= <-]|].
    intros Hx. by rewrite (Hs Hall k x Hx), E.
  - intros Hall _ _ k Hk. rewrite Hin, mention_app, mention_flush, decide_True by done.
    change (node_kv n') with (node_kv n). by destruct (node_kv n !! k).
  - by rewrite Hfl.
Qed.

Lemma key_range_good req r : key_range_of req = inl r → ¬ bad_range r ∧ in_bounds r (wr_key req).
Proof.
  unfold key_range_of, build_key_range. destruct (wr_key_end req) as [e|].
  - case_decide as Hd; [done|]. intros [= <-]. pose proof (key_not_le_lt _ _ Hd) as Hlt. split.
    + intros Hn. exact (Hn (key_lt_le _ _ Hlt)).
    + split; [exact (reflexivity (R := key_le) _)|exact Hlt].
  - intros [= <-]. pose proof (reflexivity (R := key_le) (wr_key req)) as Hle. split; [by intros []|]. by split.
Qed.

Lemma flush_ok n reg tx : node_ok n reg → node_ok (watch_flush tx n) reg.
Proof.
  intros Hn. unfold watch_flush. destruct (calls n !! tx) as [[|req w| |]|] eqn:E; try done.
  destruct (no_calls _ _ Hn tx _ E) as [Hch Hw]. specialize (Hw w eq_refl).
  destruct (key_range_of req) as [r|] eqn:Hr; [|done].
  assert (∀ c call req' r', watch_ok n reg tx c call req' r' → req' = req ∧ r' = r) as Heq.
  { intros c call req' r' Hok. pose proof (wo_call _ _ _ _ _ _ _ Hok) as H1. rewrite E in H1. injection H1 as <-.
    pose proof (wo_req _ _ _ _ _ _ _ Hok) as H2. injection H2 as <-.
    pose proof (wo_range _ _ _ _ _ _ _ Hok) as H3. rewrite Hr in H3. by injection H3 as <-. }
  destruct (wr_initial_flush req) eqn:Hfl; cbn [negb].
  2: { apply set_call_ok; [done|done|by intros w' [= <-]|].
       intros c call req' r' _ Hok. destruct (Heq _ _ _ _ Hok) as [-> ->]. split; [done|]. by rewrite Hfl. }
  unfold send_range. destruct (no_sub _ _ Hn) as [sent ->].
  rewrite (range_kv_spec _ r); [|apply Hn|by eapply key_range_good].
  cbn [mbind Outcome_bind]. destruct Hn as [Hs Hsub Hd Hq Ha Hc Ho].
  split; try done; cbn [push_command set_call node_sm dispatcher queue calls].
  - apply Forall_app. split; [done|]. apply Forall_singleton. split; [|done]. by eexists.
  - by rewrite adds_app, app_nil_r.
  - intros i call. destruct (decide (i = tx)) as [->|Hne]; simplify_map_eq; [|by apply Hc].
    intros [= <-]. split; [done|]. by intros w' [= <-].
  - intros i c H Hcl. destruct (Ho i c H Hcl) as (call & req' & r' & Hok). destruct (decide (i = tx)) as [->|Hne].
    + destruct (Heq _ _ _ _ Hok) as [-> ->]. exists (WatchStreaming req w), req, r. by apply (watch_ok_flush n reg tx c call).
    + exists call, req', r'.
      set (n' := push_command (CmdRequestAsync tx (Ok <$> range_list (node_kv n) r)) (set_call tx (WatchStreaming req w) n)).
      change (watch_ok n' reg i c call req' r').
      apply (watch_ok_same n n' reg reg i c c call call req' r' Hok); try done; [|apply Hok|..].
      * cbn. rewrite lookup_insert_ne by done. apply Hok.
      * rewrite (inbox_push n n' reg i c _ eq_refl eq_refl). cbn [command_items].
        rewrite decide_False by done. by rewrite app_nil_r.
      * by rewrite (final_push n n' reg i _ eq_refl eq_refl).
Qed.

Lemma expected_fresh d tx q :
  Forall (command_ok d) q → channels d !! tx = None → expected tx None q = [] ∧ final_interest tx None q = None.
Proof.
  intros Hq Hc. induction Hq as [|cmd q Hcmd _ IH]; [done|]. cbn [expected final_interest foldl].
  assert (interest_after tx None cmd = None ∧ command_items tx None cmd = []) as [-> ->]; [|exact IH].
  destruct cmd as [|[req tx'|]|tx' strm]; cbn; try done; (case_decide; [subst tx'|done]); cbn in Hcmd; rewrite Hc in Hcmd.
  - by destruct Hcmd as (_ & _ & []).
  - by destruct Hcmd as (_ & []).
Qed.

Lemma begin_ok n reg req tx :
  node_ok n reg → calls n !! tx = None → channels (dispatcher n) !! tx = None →
  subscriber (node_sm n) = Some (base tx) → node_ok (watch_begin req tx n) reg.
Proof.
  intros Hn Hcall Hch Hbase. unfold watch_begin. destruct (key_range_of req) as [r|] eqn:Hr; [|done].
  set (n' := {| node_sm := _ |}). destruct Hn as [Hs Hsub Hd Hq Ha Hc Ho].
  assert (replies (dispatcher n) !! tx = None) as Hrep.
  { apply eq_None_not_Some. intros Hx. apply (do_known _ _ Hd) in Hx. by rewrite Hch in Hx; destruct Hx. }
  assert (interest_in (dispatcher n) reg tx = None) as Hint by (unfold interest_in; rewrite Hrep; by case_decide).
  destruct (expected_fresh _ tx _ Hq Hch) as [Hexp Hfin].
  assert (∀ i, is_Some (channels (dispatcher n) !! i) → is_Some (channels (dispatcher n') !! i)) as Hsome.
  { intros i Hi. cbn. rewrite lookup_insert_ne; [done|]. intros ->. by rewrite Hch in Hi; destruct Hi. }
  split; cbn [node_sm queue dispatcher calls n']; [done|done|..].
  - by apply (disp_ok_channels (dispatcher n)).
  - apply Forall_app. split.
    + eapply Forall_impl; [done|]. intros cmd. apply command_ok_channels; [done|done| |].
      * intros i Hi Hx. unfold is_open in *. cbn. rewrite lookup_insert_ne; [done|]. intros ->. by rewrite Hch in Hx; destruct Hx.
      * intros i w Hx. by eapply do_known.
    + apply Forall_singleton. cbn. unfold interest_of. rewrite Hr. simplify_map_eq. by split_and!.
  - rewrite adds_app. apply NoDup_app. split_and!; [done| |cbn; apply NoDup_singleton].
    intros i [req' Hi]%elem_of_adds ->%list_elem_of_singleton.
    rewrite Forall_forall in Hq. destruct (Hq _ Hi) as (_ & _ & Hx). by rewrite Hch in Hx; destruct Hx.
  - intros i call. cbn. destruct (decide (i = tx)) as [->|Hne]; simplify_map_eq.
    + intros [= <-]. done.
    + apply Hc.
  - intros i c. cbn. destruct (decide (i = tx)) as [->|Hne]; simplify_map_eq.
    + intros [= <-] _. exists (WatchWaiting req), req, r.
      assert (inbox n' reg tx {| ch_items := []; ch_closed := false |} = []) as Hin.
      { rewrite (inbox_push n n' reg tx _ _ eq_refl eq_refl). unfold inbox. by rewrite Hint, Hexp. }
      split; [cbn; by simplify_map_eq|done|done| |by rewrite Hin..|].
      * rewrite (final_push n n' reg tx _ eq_refl eq_refl), Hint, Hfin. cbn. rewrite decide_True by done.
        unfold interest_of. by rewrite Hr.
      * intros _. exists []. by rewrite app_nil_r.
    + intros H Hcl. destruct (Ho i c H Hcl) as (call & req' & r' & Hok). exists call, req', r'.
      apply (watch_ok_same n n' reg reg i c c call call req' r' Hok); try done; [|apply Hok|..].
      * cbn. rewrite lookup_insert_ne by done. apply Hok.
      * rewrite (inbox_push n n' reg i c _ eq_refl eq_refl). by rewrite app_nil_r.
      * rewrite (final_push n n' reg i _ eq_refl eq_refl). cbn. by rewrite decide_False.
Qed.

(** ** The dispatcher *)

(** What handling a command must do to keep the invariant. *)
Record handled d d' reg reg' (cmd : Command) : Prop := {
  hd_disp : disp_ok d' reg';
  hd_replies : ∀ tx w, replies d !! tx = Some (inl w) → replies d' !! tx = Some (inl w);
  hd_known : ∀ tx, is_Some (channels d !! tx) → is_Some (channels d' !! tx);
  hd_open : ∀ tx c', channels d' !! tx = Some c' → ch_closed c' = false →
    ∃ c, channels d !! tx = Some c ∧ ch_closed c = false ∧
      ch_items c' = ch_items c ++ command_items tx (interest_in d reg tx) cmd ∧
      interest_in d' reg' tx = interest_after tx (interest_in d reg tx) cmd;
}.

Lemma handled_ok n n' reg reg' cmd :
  node_ok n reg → queue n = cmd :: queue n' → node_sm n' = node_sm n → calls n' = calls n →
  Forall (command_ok (dispatcher n')) (queue n') →
  handled (dispatcher n) (dispatcher n') reg reg' cmd → node_ok n' reg'.
Proof.
  intros [Hs Hsub Hd Hq Ha Hc Ho] Eq Es Ec Hcmds [H1 H2 H3 H4].
  split; rewrite ?Es, ?Ec; try done.
  - rewrite Eq in Ha. destruct cmd as [|[]|]; cbn in Ha; try done. by apply NoDup_cons in Ha as [].
  - intros tx call Hcall. destruct (Hc tx call Hcall) as [Hx Hw]. split; [by apply H3|]. intros w Hsd. by apply H2, Hw.
  - intros tx c' Hx Hcl. destruct (H4 tx c' Hx Hcl) as (c & Hxc & Hclc & Hit & Hint).
    destruct (Ho tx c Hxc Hclc) as (call & req & r & Hok). exists call, req, r.
    by apply (watch_ok_pop n n' reg reg' tx c c' call req r cmd Hok).
Qed.

Lemma command_ok_open d d' cmd :
  replies d' = replies d → (∀ i, is_Some (channels d !! i) → is_Some (channels d' !! i)) →
  (∀ i, is_open d' i = is_open d i) → command_ok d cmd → command_ok d' cmd.
Proof.
  intros Hr Hc Ho. destruct cmd as [|[]|]; cbn; rewrite ?Hr, ?Ho; [done|..|].
  - intros (? & ? & ?). auto.
  - done.
  - intros (? & ?). auto.
Qed.

Lemma receive_inv l c c' : receive l c = c' → ch_closed c' = false → ch_closed c = false ∧ ch_items c' = ch_items c ++ l.
Proof. unfold receive. destruct (ch_closed c) eqn:E; intros <-; [by rewrite E|done]. Qed.

Lemma stream_handled d reg tx l :
  disp_ok d reg → let items := stream_items (Ok <$> l) in
  handled d (deliver tx items d) reg reg (CmdRequestAsync tx (Ok <$> l)).
Proof.
  intros Hd items. assert (∀ i, is_Some (channels d !! i) → is_Some (channels (deliver tx items d) !! i)) as Hsome.
  { intros i Hi. unfold deliver. cbn. by apply lookup_alter_is_Some. }
  split; [by apply (disp_ok_channels d)|done|done|].
  intros i c'. unfold deliver. cbn. rewrite alter_receive. intros (c & Hc & ->)%fmap_Some. cbn [command_items].
  destruct (decide (i = tx)) as [->|Hne].
  - intros Hcl. destruct (receive_inv _ _ _ eq_refl Hcl) as [H1 H2]. exists c. rewrite decide_True by done. by split_and!.
  - intros Hcl. exists c. rewrite decide_False by done. rewrite app_nil_r. by split_and!.
Qed.

(** Registering a sender. *)
Lemma add_handled d reg req tx r :
  disp_ok d reg → key_range_of req = inl r → replies d !! tx = None → is_Some (channels d !! tx) →
  (current_watcher_id d + 1 < 2 ^ 63)%Z →
  ∃ d', handle (CmdRequest (ReqAddWatcher req tx)) d = (d', Ok tt) ∧
    handled d d' reg ({[tx]} ∪ reg) (CmdRequest (ReqAddWatcher req tx)) ∧
    channels d' = channels d ∧ (∀ i, i ≠ tx → replies d' !! i = replies d !! i) ∧
    current_watcher_id d' = (current_watcher_id d + 1)%Z.
Proof.
  intros Hd Hr Hrep Hch Hid. pose proof (do_min _ _ Hd) as Hmin.
  assert (wrap_i64 (current_watcher_id d + 1) = current_watcher_id d + 1)%Z as Hwrap.
  { unfold wrap_i64. rewrite Z.mod_small; lia. }
  set (w := {| desc := {| watcher_id := (current_watcher_id d + 1)%Z; interested := filter_type req; key_range := r |};
               sender_tx := tx |}).
  assert (∀ k w', w' ∈ span_get (watchers d) k → sender_id w' ≠ sender_id w) as Hfresh.
  { intros k w' Hw'. apply (do_watchers _ _ Hd) in Hw' as (_ & Hw' & _).
    apply (do_sender _ _ Hd) in Hw' as [_ Hle]. unfold sender_id in Hle |- *. cbn. lia. }
  exists {| watchers := span_insert r w (watchers d); current_watcher_id := (current_watcher_id d + 1)%Z;
            channels := channels d; replies := <[tx := inl w]> (replies d); gauge := (gauge d + 1)%Z |}.
  assert (key_range_of req = inl r) as Hr' by done. unfold key_range_of in Hr'. split_and!; [| |done| |done].
  - unfold handle, add_watcher, new_watch_desc. m_unfold. cbn. rewrite Hwrap, Hr'. done.
  - destruct Hd as [D1 D2 D3 D4 D5 D6]. split.
    + split; cbn [watchers replies current_watcher_id channels].
      * intros k w'. rewrite span_get_insert by done. rewrite D1. destruct (decide (sender_tx w' = tx)) as [Et|Et].
        { rewrite Et, lookup_insert_eq. split; [|intros (_ & [= <-] & ?); by right].
          intros [(_ & Hx & _)|[-> Hx]]; [congruence|]. split_and!; [set_solver|done|done]. }
        rewrite lookup_insert_ne by done. split; [intros [?|[-> ?]]; [set_solver|done]|]. set_solver.
      * intros i w' Hi. destruct (decide (i = tx)) as [->|Hne]; simplify_map_eq; [by cbn; split; [|unfold sender_id; cbn; lia]|].
        apply D2 in Hi as [? ?]. split; [done|lia].
      * intros i i' w1 w2 H1 H2 Hids. destruct (decide (i = tx)) as [->|Hne], (decide (i' = tx)) as [->|Hne']; simplify_map_eq; try done.
        -- apply D2 in H2 as [_ Hle]. unfold sender_id in *. cbn in *. lia.
        -- apply D2 in H1 as [_ Hle]. unfold sender_id in *. cbn in *. lia.
        -- by eapply D3.
      * intros i Hi. destruct (decide (i = tx)) as [->|Hne]; simplify_map_eq; [by eexists|]. apply D4. set_solver.
      * intros i. destruct (decide (i = tx)) as [->|Hne]; simplify_map_eq; [done|apply D5].
      * lia.
    + intros i w' Hi. cbn. destruct (decide (i = tx)) as [->|Hne]; simplify_map_eq; done.
    + done.
    + cbn [channels]. intros i c Hc Hcl. exists c. cbn [command_items interest_after]. rewrite app_nil_r. split_and!; [done..|].
      unfold interest_in. cbn. destruct (decide (tx = i)) as [->|Hne].
      * rewrite decide_True by set_solver. rewrite lookup_insert_eq. unfold interest_of. by rewrite Hr.
      * rewrite lookup_insert_ne by done. do 2 case_decide; set_solver.
  - intros i Hne. cbn. by rewrite lookup_insert_ne.
Qed.

(** Unregistering senders. *)
Lemma unregister_ok d d' reg ws :
  disp_ok d reg → (∀ w, w ∈ ws → replies d !! sender_tx w = Some (inl w)) →
  (∀ k w, w ∈ span_get (watchers d') k ↔ w ∈ span_get (watchers d) k ∧ sender_id w ∉ sender_id <$> ws) →
  replies d' = replies d → current_watcher_id d' = current_watcher_id d →
  (∀ i, is_Some (channels d !! i) → is_Some (channels d' !! i)) →
  disp_ok d' (reg ∖ list_to_set (sender_tx <$> ws)).
Proof.
  intros [D1 D2 D3 D4 D5 D6] Hws Hw Hr Hi Hc. split; rewrite ?Hr, ?Hi; [|done|done| |auto|done].
  - intros k w. rewrite Hw, D1, elem_of_difference, elem_of_list_to_set.
    assert (replies d !! sender_tx w = Some (inl w) → sender_id w ∈ sender_id <$> ws ↔ sender_tx w ∈ sender_tx <$> ws) as Hx.
    { intros Hx. rewrite !list_elem_of_fmap. split; intros (w' & E & Hin); exists w'; split; try done.
      - exact (D3 _ _ _ _ Hx (Hws w' Hin) E).
      - pose proof (Hws w' Hin) as Hx'. rewrite <-E, Hx in Hx'. by injection Hx' as <-. }
    tauto.
  - intros tx [Htx _]%elem_of_difference. by apply D4.
Qed.

Lemma unregister_interest d d' reg ws tx :
  replies d' = replies d → tx ∉ sender_tx <$> ws →
  interest_in d' (reg ∖ list_to_set (sender_tx <$> ws)) tx = interest_in d reg tx.
Proof.
  intros Hr Hn. unfold interest_in. rewrite Hr.
  destruct (decide (tx ∈ reg)) as [Htx|Htx].
  - rewrite decide_True; [done|]. rewrite elem_of_difference, elem_of_list_to_set. done.
  - rewrite decide_False; [done|]. rewrite elem_of_difference. tauto.
Qed.

Lemma remove_handled d reg w :
  disp_ok d reg → replies d !! sender_tx w = Some (inl w) → is_open d (sender_tx w) = false →
  let d' := incr_watchers (-1) (set_watchers (span_remove bounds_full w (watchers d)) d) in
  handled d d' reg (reg ∖ list_to_set (sender_tx <$> [w])) (CmdRequest (ReqRemoveWatcher w)).
Proof.
  intros Hd Hw Ho d'. split; [|done|done|].
  - apply (unregister_ok d); try done; [by intros w' ->%list_elem_of_singleton|].
    intros k w'. cbn -[span_remove]. assert (in_bounds bounds_full k) by done. rewrite span_get_remove, list_elem_of_singleton. tauto.
  - intros tx c Hc Hcl. exists c. cbn [command_items interest_after]. rewrite app_nil_r. split_and!; [done..|].
    apply unregister_interest; [done|]. intros ->%list_elem_of_singleton. by rewrite (is_open_channel d _ c) in Ho.
Qed.

Lemma sorted_ids_NoDup (ws : list WatchStreamSender) :
  StronglySorted (λ w w', sender_id w < sender_id w')%Z ws → NoDup (sender_id <$> ws).
Proof.
  induction 1 as [|w ws _ IH Hw]; [constructor|]. cbn. constructor; [|done].
  intros (w' & E & Hin)%list_elem_of_fmap. rewrite Forall_forall in Hw. specialize (Hw w' Hin). lia.
Qed.

(** What an update sends to a channel. *)
Lemma update_items_sent d reg u (ws : list WatchStreamSender) tx :
  (∀ w, w ∈ ws ↔ wants (is_none (up_after u)) w = true ∧ sender_tx w ∈ reg ∧
    replies d !! sender_tx w = Some (inl w) ∧ in_bounds (key_range (desc w)) (up_key u)) →
  disp_ok d reg →
  (if decide (tx ∈ sender_tx <$> ws) then [inl (watch_response_new3 (up_key u) (up_before u) (up_after u))] else []) =
  update_items (interest_in d reg tx) u.
Proof.
  intros Hws Hd. case_decide as Hin.
  - apply list_elem_of_fmap in Hin as (w & -> & (Hwant & Hreg & Hrep & Hb)%Hws).
    unfold interest_in, update_items. rewrite decide_True by done. rewrite Hrep, decide_True by done.
    unfold wants in Hwant. by rewrite Hwant.
  - unfold interest_in. destruct (decide (tx ∈ reg)) as [Hreg|]; [|done].
    destruct (do_reg _ _ Hd tx Hreg) as [w Hw]. rewrite Hw. cbn. case_decide as Hb; [|done].
    destruct (do_sender _ _ Hd tx w Hw) as [<- _]. destruct (is_interested _ _) eqn:Hi; [|done].
    destruct Hin. apply list_elem_of_fmap_2, Hws. by split_and!.
Qed.

(** Sending an update. *)
Lemma update_handled d reg u :
  disp_ok d reg →
  ∃ d' reg', dispatch u d = (d', Ok tt) ∧ handled d d' reg reg' (CmdUpdate u) ∧ replies d' = replies d ∧
    current_watcher_id d' = current_watcher_id d ∧ (∀ i, is_open d' i = is_open d i).
Proof.
  intros Hd. destruct (dispatch_spec u d) as (d' & E & Hch & Hid & Hrep & _ & Hw).
  set (ws := filter _ _) in *. set (resp := watch_response_new3 _ _ _) in *.
  assert (∀ w, w ∈ ws ↔ wants (is_none (up_after u)) w = true ∧ sender_tx w ∈ reg ∧
    replies d !! sender_tx w = Some (inl w) ∧ in_bounds (key_range (desc w)) (up_key u)) as Hws.
  { intros w. unfold ws. by rewrite list_elem_of_filter, (do_watchers _ _ Hd). }
  assert (NoDup (sender_tx <$> ws)) as Hnd.
  { apply NoDup_fmap_2_strong.
    - intros w w' (_ & _ & H1 & _)%Hws (_ & _ & H2 & _)%Hws Heq. rewrite Heq, H2 in H1. by injection H1 as <-.
    - apply NoDup_filter, (NoDup_fmap_1 sender_id), sorted_ids_NoDup, span_get_sorted. }
  assert (∀ i, channels d' !! i = receive (if decide (i ∈ sender_tx <$> ws) then [inl resp] else []) <$> channels d !! i) as Hc.
  { intros i. rewrite Hch. by apply deliver_all_channels. }
  assert (∀ i, is_open d' i = is_open d i) as Hopen.
  { intros i. unfold is_open. rewrite Hc. destruct (channels d !! i) as [[l []]|]; done. }
  exists d', (reg ∖ list_to_set (sender_tx <$> gone d ws)). split_and!; [exact E| |done|done|done].
  assert (∀ w, w ∈ gone d ws → w ∈ ws ∧ is_open d (sender_tx w) = false) as Hgone.
  { intros w. unfold gone. rewrite list_elem_of_filter. tauto. }
  split; [|by rewrite Hrep| |].
  - apply (unregister_ok d); try done; [by intros w [(_ & _ & ? & _)%Hws _]%Hgone|].
    intros i Hi. rewrite Hc. by apply fmap_is_Some.
  - intros i Hi. rewrite Hc. by apply fmap_is_Some.
  - intros i c'. rewrite Hc. intros (c & Hi & ->)%fmap_Some Hcl.
    destruct (receive_inv _ _ _ eq_refl Hcl) as [Hcl' Hit]. exists c. split_and!; [done|done| |].
    + rewrite Hit. f_equal. apply update_items_sent; [exact Hws|exact Hd].
    + apply unregister_interest; [done|]. intros (w & -> & [_ Hx]%Hgone)%list_elem_of_fmap.
      by rewrite (is_open_channel d _ c) in Hx.
Qed.

(** One command, whatever it is. *)
Lemma dispatch_ok n reg cmd q :
  node_ok n reg → queue n = cmd :: q → (current_watcher_id (dispatcher n) + 1 < 2 ^ 63)%Z →
  ∃ d reg', handle cmd (dispatcher n) = (d, Ok tt) ∧
    node_ok {| node_sm := node_sm n; queue := q; dispatcher := d; calls := calls n |} reg' ∧
    (current_watcher_id d ≤ current_watcher_id (dispatcher n) + 1)%Z.
Proof.
  intros Hn Eq Hid. pose proof (no_disp _ _ Hn) as Hd. pose proof (no_queue _ _ Hn) as Hq. rewrite Eq in Hq.
  apply Forall_cons in Hq as [Hcmd Hq].
  assert (∀ d reg', handled (dispatcher n) d reg reg' cmd → Forall (command_ok d) q →
    node_ok {| node_sm := node_sm n; queue := q; dispatcher := d; calls := calls n |} reg') as Hdone.
  { intros d reg' Hh Hall. by apply (handled_ok n _ reg reg' cmd). }
  destruct cmd as [u|[req tx|w]|tx strm]; cbn in Hcmd.
  - destruct (update_handled (dispatcher n) reg u Hd) as (d & reg' & E & Hh & Hr & Hi & Ho).
    exists d, reg'. split_and!; [exact E| |lia]. apply Hdone; [done|]. eapply Forall_impl; [done|].
    intros c. apply command_ok_open; [done|apply Hh|done].
  - destruct Hcmd as ([o Hint] & Hrep & Hch). unfold interest_of in Hint.
    destruct (key_range_of req) as [r|] eqn:Hr; [|done].
    destruct (add_handled (dispatcher n) reg req tx r Hd Hr Hrep Hch Hid) as (d & E & Hh & Hc & Hrs & Hi).
    exists d, ({[tx]} ∪ reg). split_and!; [exact E| |lia]. apply Hdone; [done|].
    pose proof (no_adds _ _ Hn) as Hadd. rewrite Eq in Hadd. apply NoDup_cons in Hadd as [Hnin _].
    apply Forall_forall. intros c Hin. rewrite Forall_forall in Hq. specialize (Hq c Hin).
    destruct c as [|[req' tx'|w]|]; cbn in *; unfold is_open in *; rewrite ?Hc; [done| | |done].
    + rewrite Hrs; [done|]. intros ->. apply Hnin, elem_of_adds. by exists req'.
    + destruct Hq as [Hw Hcl]. split; [|done]. by apply (hd_replies _ _ _ _ _ Hh).
  - destruct Hcmd as [Hw Ho]. eexists _, _. split_and!; [reflexivity| |].
    + apply Hdone; [by apply remove_handled|exact Hq].
    + cbn. lia.
  - destruct Hcmd as [[l ->] Hch]. eexists _, reg. split_and!; [apply send_stream_spec| |].
    + apply Hdone; [by apply stream_handled|]. eapply Forall_impl; [done|]. intros c. apply command_ok_open; [done| |].
      * by apply (stream_handled _ _ tx l Hd).
      * intros i. apply is_open_deliver.
    + cbn. lia.
Qed.

Lemma node_new_ok s : sm_ok s → is_Some (subscriber s) → node_ok (node_new s) ∅.
Proof.
  intros Hs Hsub. split; [done|done| |by constructor|by constructor|done|done].
  split; cbn; try done; intros *; rewrite ?span_get_new, ?lookup_empty; set_solver.
Qed.

(** The dispatcher handles the whole queue. *)
Lemma drain_ok n reg :
  node_ok n reg → (current_watcher_id (dispatcher n) + Z.of_nat (length (queue n)) + 1 < 2 ^ 63)%Z →
  ∃ d reg', dispatcher_main (queue n) (dispatcher n) = (d, Ok tt) ∧
    node_ok {| node_sm := node_sm n; queue := []; dispatcher := d; calls := calls n |} reg'.
Proof.
  remember (queue n) as q eqn:Eq. revert n reg Eq. induction q as [|cmd q IH]; intros n reg Eq Hn Hid.
  { exists (dispatcher n), reg. split; [done|]. destruct n. cbn in *. by subst. }
  cbn [length] in Hid. destruct (dispatch_ok n reg cmd q Hn (eq_sym Eq)) as (d & reg' & E & Hok & Hle); [lia|].
  destruct (IH {| node_sm := node_sm n; queue := q; dispatcher := d; calls := calls n |} reg' eq_refl Hok) as (d' & reg'' & E' & Hok'); [cbn; lia|].
  exists d', reg''. split; [|exact Hok']. unfold dispatcher_main. cbn [for_each].
  rewrite (M_bind_Ok _ _ _ _ _ E). exact E'.
Qed.

(** With an empty queue, the copy of a watcher of everything is exact. *)
Lemma watch_ok_exact n reg tx c call req r :
  watch_ok n reg tx c call req r → queue n = [] → filter_type req = FilterAll → is_streaming call = true →
  wr_initial_flush req = true →
  client_cache (ch_items c) = pb_SeqV_of <$> filter (λ x, in_bounds r x.1) (node_kv n).
Proof.
  intros [Hc Hq Hr Hi Ho Hs Hf _] Eq Hall Hst Hfl.
  assert (inbox n reg tx c = ch_items c) as Hin by (unfold inbox; by rewrite Eq, app_nil_r). rewrite Hin in *.
  apply map_eq. intros k. unfold client_cache. rewrite cache_mention, lookup_empty, lookup_fmap.
  destruct (decide (in_bounds r k)) as [Hk|Hk].
  - assert (filter (λ x, in_bounds r x.1) (node_kv n) !! k = node_kv n !! k) as ->.
    { destruct (node_kv n !! k) as [v|] eqn:E; [by apply map_lookup_filter_Some|].
      apply map_lookup_filter_None. by left. }
    destruct (mention k (ch_items c)) as [x|] eqn:E; [by apply Hs|]. by rewrite (Hf Hall Hst Hfl k Hk E).
  - rewrite (Ho k Hk). assert (filter (λ x, in_bounds r x.1) (node_kv n) !! k = None) as ->; [|done].
    apply map_lookup_filter_None. right. by intros v _ ?.
Qed.
End node.

(** ** Runs of a node *)

Section runs.
Context {raft : OpenRaft} {Mp : Type} `{!StateMap raft Mp, !StateMapLaws Mp}.
Context {sp : SpanMapLib} `{!SpanMapLaws sp}.
Implicit Types (n : MetaNode (Mp := Mp)) (base : N → list Event).

Lemma node_ok_rebase base base' n reg :
  node_ok base n reg → (∀ tx, is_Some (calls n !! tx) → base' tx = base tx) → node_ok base' n reg.
Proof.
  intros [Hs Hsub Hd Hq Ha Hc Ho] Hb. split; try done. intros tx c H Hcl.
  destruct (Ho tx c H Hcl) as (call & req & r & [H1 H2 H3 H4 H5 H6 H7 H8]). exists call, req, r.
  split; try done. rewrite Hb; [done|]. by eexists.
Qed.

(** A call goes on with its request, or ends. *)
Definition call_stays (o o' : option WatchCall) : Prop :=
  ∀ call, o = Some call → ∃ call', o' = Some call' ∧ (call_req call' = None ∨ call_req call' = call_req call).

Lemma call_stays_insert (m : gmap N WatchCall) i call' tx :
  (∀ call, m !! i = Some call → call_req call' = None ∨ call_req call' = call_req call) →
  call_stays (m !! tx) (<[i := call']> m !! tx).
Proof.
  intros H call Hc. destruct (decide (i = tx)) as [->|Hne]; simplify_map_eq; eauto.
Qed.

Lemma calls_step n n' tx : node_step n n' → call_stays (calls n !! tx) (calls n' !! tx).
Proof.
  assert (∀ o, call_stays o o) as Hrefl by (intros o call ->; eauto).
  destruct 1 as [n es|n s'|n req i Hc _|n i|n i|n i|n Hid]; try apply Hrefl.
  - unfold watch_begin. destruct (key_range_of req); [|done]. apply call_stays_insert. by rewrite Hc.
  - unfold watch_reply. destruct (calls n !! i) as [[]|] eqn:E; try done.
    destruct (replies (dispatcher n) !! i) as [[]|]; [| |done]; apply call_stays_insert; rewrite E; intros ? [= <-]; auto.
  - unfold watch_flush. destruct (calls n !! i) as [[]|] eqn:E; try done. destruct (key_range_of req); [|done].
    destruct (negb _); [|destruct (send_range _ _) as [[]| |]]; apply call_stays_insert; rewrite E; intros ? [= <-]; auto.
  - unfold client_gone. destruct (calls n !! i) as [[]|] eqn:E; try done; apply call_stays_insert; rewrite E; intros ? [= <-]; auto.
  - unfold dispatch_one. destruct (queue n) as [|cmd q]; [done|]. by destruct (handle cmd (dispatcher n)) as [d []].
Qed.

Lemma calls_run n n' tx : rtc node_step n n' → call_stays (calls n !! tx) (calls n' !! tx).
Proof.
  induction 1 as [n|n1 n2 n3 Hs _ IH]; intros call Hc; [eauto|].
  destruct (calls_step _ _ tx Hs call Hc) as (call1 & H1 & R1). destruct (IH call1 H1) as (call2 & H2 & R2).
  exists call2. split; [done|]. destruct R1 as [R1|R1], R2 as [R2|R2]; rewrite ?R1 in R2; auto.
Qed.

(** A step keeps the invariant, and where each watcher began. *)
Lemma node_step_ok base n n' reg :
  node_step n n' → node_ok base n reg →
  ∃ base' reg', node_ok base' n' reg' ∧ ∀ tx, is_Some (calls n !! tx) → base' tx = base tx.
Proof.
  intros Hs Hn. destruct Hs as [n es|n s'|n req tx Hcall Hch|n tx|n tx|n tx|n Hid].
  - exists base, reg. split; [|done]. apply (node_ok_step_write base n); [done|]. left. by exists es.
  - exists base, reg. split; [|done]. apply (node_ok_step_write base n); [done|]. right. by exists s'.
  - destruct (no_sub _ _ _ Hn) as [sent Hsub].
    set (base' i := if decide (i = tx) then sent else base i).
    assert (∀ i, is_Some (calls n !! i) → base' i = base i) as Hb.
    { intros i Hi. unfold base'. rewrite decide_False; [done|]. intros ->. by rewrite Hcall in Hi; destruct Hi. }
    exists base', reg. split; [|done]. apply begin_ok; [by apply (node_ok_rebase base)|done|done|].
    unfold base'. by rewrite decide_True.
  - exists base, reg. split; [by apply reply_ok|done].
  - exists base, reg. split; [by apply flush_ok|done].
  - exists base, reg. split; [by apply gone_ok|done].
  - unfold dispatch_one. destruct (queue n) as [|cmd q] eqn:Eq; [by exists base, reg|].
    destruct (dispatch_ok base n reg cmd q Hn Eq Hid) as (d & reg' & -> & Hok & _). by exists base, reg'.
Qed.

Lemma node_run_ok base n n' reg :
  rtc node_step n n' → node_ok base n reg →
  ∃ base' reg', node_ok base' n' reg' ∧ ∀ tx, is_Some (calls n !! tx) → base' tx = base tx.
Proof.
  intros Hs. revert base reg. induction Hs as [n|n1 n2 n3 Hs _ IH]; intros base reg Hn; [by exists base, reg|].
  destruct (node_step_ok base n1 n2 reg Hs Hn) as (base1 & reg1 & Hn1 & Hb1).
  destruct (IH base1 reg1 Hn1) as (base2 & reg2 & Hn2 & Hb2). exists base2, reg2. split; [done|].
  intros tx [call Htx]. destruct (calls_step _ _ tx Hs call Htx) as (call' & Hc & _).
  rewrite Hb2, Hb1; [done|..]; by eexists.
Qed.

(** What a client receives of an event. *)
Definition event_response (e : Event) : WatchResponse + Status :=
  inl {| wr_event := Some {| ev_key := e.1.1; ev_current := pb_SeqV_of <$> e.2; ev_prev := pb_SeqV_of <$> e.1.2 |} |}.

(** Whether a client asked for an event: it is in its range, and it is an update or
    a deletion as the client wants. *)
Definition asked_for (f : FilterType) (after : option (SeqV bytes)) : Prop :=
  match f with FilterAll => True | FilterUpdate => is_Some after | FilterDelete => after = None end.
Definition sees (f : FilterType) (r : Bounds string) (e : Event) : Prop :=
  in_bounds r e.1.1 ∧ asked_for f e.2.
#[export] Instance sees_dec f r e : Decision (sees f r e).
Proof. unfold sees. destruct f; apply _. Defined.

Lemma interested_asked f after : is_interested f (is_none after) = true ↔ asked_for f after.
Proof. destruct f, after; cbn; split; try done; eauto. Qed.

Lemma expected_events tx f r evs :
  expected tx (Some (f, r)) (update_of <$> evs) = event_response <$> filter (sees f r) evs.
Proof.
  induction evs as [|e evs IH]; [done|]. rewrite fmap_cons. cbn [expected].
  change (interest_after _ _ _) with (Some (f, r)). rewrite IH, filter_cons.
  cbn [command_items update_of update_items up_key up_after up_before].
  destruct (decide (sees f r e)) as [[Hb Hi]|Hn].
  - apply interested_asked in Hi. by rewrite decide_True, Hi.
  - unfold sees in Hn. case_decide; [|done]. destruct (is_interested _ _) eqn:Hi; [|done].
    apply interested_asked in Hi. by destruct Hn.
Qed.
End runs.
