(* ===== verification/WatchTheorems.v ===== *)
(** What watchers are promised: a client that watches a range with an initial
    flush has, once the dispatcher has caught up, an exact copy of the range; a
    client that watches without a flush gets the events of its range and type, once
    each and in order.  And two things that go wrong. *)

From stdpp Require Import base orders sorting strings gmap numbers list relations.
From S2P Require Import Prelude BTree RustStr External ExpireKey MetaTypes Marked Stack MapApi Level StateMap.
From S2P Require Import LeveledMap LeveledMapProofs RotblLib Rotbl RotblProofs Compaction CompactionProofs.
From S2P Require Import Txn StateMachine Applier ApplierSpec StateMachineProofs ApplierProofs ApplyProofs.
From S2P Require Import SpecFacts Replica ApplierTheorems SMV003 RestoreProofs SMV003Theorems.
From S2P Require Import Watcher WatcherProofs WatchNodeProofs.

Section watch.
Context {raft : OpenRaft} {Mp : Type} `{!StateMap raft Mp, !StateMapLaws Mp}.
Context {sp : SpanMapLib} `{!SpanMapLaws sp}.
Implicit Types (s : StateMachine Mp) (n : MetaNode (Mp := Mp)).

(** A node that started without watchers. *)
Definition reachable n : Prop := ∃ s, sm_ok s ∧ is_Some (subscriber s) ∧ rtc node_step (node_new s) n.

(** There are ids for the watchers that wait to be added. *)
Definition ids_left n : Prop :=
  (current_watcher_id (dispatcher n) + Z.of_nat (length (queue n)) + 1 < 2 ^ 63)%Z.

Lemma reachable_ok n : reachable n → ∃ base reg, node_ok base n reg.
Proof.
  intros (s & Hs & Hsub & Hrun).
  destruct (node_run_ok (λ _, []) _ _ ∅ Hrun (node_new_ok _ s Hs Hsub)) as (base & reg & Hn & _). eauto.
Qed.

(** A client that is still there, when the queue is empty. *)
Lemma streaming_exact base n reg tx c req w r :
  node_ok base n reg → queue n = [] → calls n !! tx = Some (WatchStreaming req w) → key_range_of req = inl r →
  filter_type req = FilterAll → wr_initial_flush req = true →
  channels (dispatcher n) !! tx = Some c → ch_closed c = false →
  client_cache (ch_items c) = pb_SeqV_of <$> filter (λ x, in_bounds r x.1) (kvv (sm_map (node_sm n))).
Proof.
  intros Hok Hq Hcall Hr Hall Hfl Hc Hcl.
  destruct (no_open _ _ _ Hok tx c Hc Hcl) as (call & req' & r' & Hw).
  pose proof (wo_call _ _ _ _ _ _ _ _ Hw) as H1. rewrite Hcall in H1. injection H1 as <-.
  pose proof (wo_req _ _ _ _ _ _ _ _ Hw) as H2. injection H2 as <-.
  pose proof (wo_range _ _ _ _ _ _ _ _ Hw) as H3. rewrite Hr in H3. injection H3 as <-.
  by apply (watch_ok_exact _ _ _ _ _ _ _ _ Hw).
Qed.

(** C11: Watchers catch up.  Whatever happened at a node, in any order (log entries
    are applied, snapshots are built, clients begin to watch, flush, go away, the
    dispatcher handles commands), the dispatcher handles the rest of its queue
    without a panic, and then every client that watches all changes of a range with
    an initial flush and is still there has been sent exactly what makes its copy
    equal to the key-values of the state machine in that range. *)
Theorem watchers_catch_up n :
  reachable n → ids_left n →
  ∃ d, dispatcher_main (queue n) (dispatcher n) = (d, Ok tt) ∧
    ∀ tx c req w r, calls n !! tx = Some (WatchStreaming req w) → key_range_of req = inl r →
      filter_type req = FilterAll → wr_initial_flush req = true →
      channels d !! tx = Some c → ch_closed c = false →
      client_cache (ch_items c) = pb_SeqV_of <$> filter (λ x, in_bounds r x.1) (kvv (sm_map (node_sm n))).
Proof.
  intros (base & reg & Hn)%reachable_ok Hid. destruct (drain_ok base n reg Hn Hid) as (d & reg' & E & Hok).
  exists d. split; [exact E|]. intros tx c req w r Hcall Hr Hall Hfl Hc Hcl.
  by apply (streaming_exact base _ reg' tx c req w r Hok).
Qed.

(** C12: Events are delivered once and in order.  A client begins to watch a range
    without an initial flush, and anything happens at the node afterwards.  When the
    dispatcher has caught up and the client is still there, it has been sent exactly
    the events of its range and of the type it asked for that were published since
    it began, in their order. *)
Theorem watch_in_order n n' req tx r :
  reachable n → key_range_of req = inl r → wr_initial_flush req = false →
  calls n !! tx = None → channels (dispatcher n) !! tx = None →
  rtc node_step (watch_begin req tx n) n' → ids_left n' →
  ∃ d, dispatcher_main (queue n') (dispatcher n') = (d, Ok tt) ∧
    ∀ c, channels d !! tx = Some c → ch_closed c = false →
      ch_items c = event_response <$> filter (sees (filter_type req) r) (sent_events (node_sm n) (node_sm n')).
Proof.
  intros (base & reg & Hn)%reachable_ok Hr Hfl Hcall Hch Hrun Hid.
  destruct (no_sub _ _ _ Hn) as [sent Hsub].
  set (base0 i := if decide (i = tx) then sent else base i).
  assert (node_ok base0 (watch_begin req tx n) reg) as Hb.
  { apply begin_ok; [|done|done|unfold base0; by rewrite decide_True].
    apply (node_ok_rebase base); [done|]. intros i Hi. unfold base0. rewrite decide_False; [done|].
    intros ->. by rewrite Hcall in Hi; destruct Hi. }
  assert (calls (watch_begin req tx n) !! tx = Some (WatchWaiting req)) as Hw.
  { unfold watch_begin. rewrite Hr. cbn. by simplify_map_eq. }
  destruct (node_run_ok base0 _ _ reg Hrun Hb) as (base' & reg' & Hn' & Hbase).
  destruct (drain_ok base' n' reg' Hn' Hid) as (d & reg'' & E & Hok). exists d. split; [exact E|].
  intros c Hc Hcl. destruct (no_open _ _ _ Hok tx c Hc Hcl) as (call & req' & r' & Ho).
  destruct (calls_run _ _ tx Hrun _ Hw) as (call' & Hcall' & Hreq).
  pose proof (wo_call _ _ _ _ _ _ _ _ Ho) as H1. cbn in H1. rewrite Hcall' in H1. injection H1 as ->.
  pose proof (wo_req _ _ _ _ _ _ _ _ Ho) as H2. destruct Hreq as [Hreq|Hreq]; rewrite H2 in Hreq; [done|].
  injection Hreq as ->. pose proof (wo_range _ _ _ _ _ _ _ _ Ho) as H3. rewrite Hr in H3. injection H3 as <-.
  destruct (wo_exact _ _ _ _ _ _ _ _ Ho Hfl) as (evs & H4 & H5). cbn in H4.
  rewrite (Hbase tx) in H4 by (rewrite Hw; by eexists).
  unfold base0 in H4. rewrite decide_True in H4 by done.
  unfold inbox in H5. cbn [queue expected] in H5. rewrite app_nil_r, expected_events in H5. rewrite H5.
  unfold sent_events. by rewrite Hsub, H4, drop_app_length.
Qed.

(** ** The gauge *)

(** The senders of a key that want an update. *)
Definition targets (d : Dispatcher) (u : Update) : list WatchStreamSender :=
  filter (λ w, wants (is_none (up_after u)) w = true) (span_get (watchers d) (up_key u)).

Lemma dispatch_quiet d u : targets d u = [] → dispatch u d = (d, Ok tt).
Proof.
  unfold targets, dispatch. intros E. erewrite M_bind_Ok; [|done].
  rewrite (M_bind_Ok _ _ _ _ _ (send_to_spec _ _ _ _)), E. done.
Qed.

Lemma dispatch_gone d u w : targets d u = [w] → is_open d (sender_tx w) = false → dispatch u d = remove_watcher w d.
Proof.
  unfold targets, dispatch. intros E Ho. erewrite M_bind_Ok; [|done].
  rewrite (M_bind_Ok _ _ _ _ _ (send_to_spec _ _ _ _)), E. cbn [deliver_all foldl]. rewrite deliver_closed by done.
  unfold gone. rewrite filter_cons, decide_True by done. done.
Qed.

(** A dispatcher with one watcher, or with none. *)
Definition only_watcher (o : option WatchStreamSender) (d : Dispatcher) : Prop :=
  ∀ k w', w' ∈ span_get (watchers d) k ↔ o = Some w' ∧ in_bounds (key_range (desc w')) k.

Lemma only_watcher_none d k : only_watcher None d → span_get (watchers d) k = [].
Proof. intros Hw. apply elem_of_nil_inv. intros w'. rewrite (Hw k w'). by intros []. Qed.

Lemma only_watcher_targets w d e :
  only_watcher (Some w) d →
  targets d {| up_key := e.1.1; up_before := e.1.2; up_after := e.2 |} =
  if decide (sees (interested (desc w)) (key_range (desc w)) e) then [w] else [].
Proof.
  intros Hw. assert (span_get (watchers d) e.1.1 = if decide (in_bounds (key_range (desc w)) e.1.1) then [w] else []) as E.
  { case_decide as Hk.
    - apply Permutation_singleton_r, NoDup_Permutation; [|apply NoDup_singleton|].
      + apply (NoDup_fmap_1 sender_id), sorted_ids_NoDup, span_get_sorted.
      + intros w'. rewrite (Hw e.1.1 w'), list_elem_of_singleton. naive_solver.
    - apply elem_of_nil_inv. intros w'. rewrite (Hw e.1.1 w'). by intros [[= <-] ?]. }
  unfold targets. cbn [up_key up_after]. rewrite E.
  destruct (decide (sees _ _ e)) as [[Hb Hi]|Hn].
  - apply interested_asked in Hi. rewrite decide_True by done. rewrite filter_cons, decide_True by done. done.
  - case_decide as Hb; [|done]. rewrite filter_cons, decide_False; [done|]. intros Hi.
    apply interested_asked in Hi. by destruct Hn.
Qed.

Lemma only_watcher_remove w d d' :
  only_watcher (Some w) d → remove_watcher w d = (d', Ok tt) → only_watcher None d'.
Proof.
  intros Hw [= <-] k w'. cbn. assert (in_bounds bounds_full k) by done.
  rewrite span_get_remove, (Hw k w'). split; [|by intros []]. intros [[[= <-] ?] Hn]. by destruct Hn.
Qed.

Lemma updates_quiet evs d : only_watcher None d → dispatcher_main (update_of <$> evs) d = (d, Ok tt).
Proof.
  intros Hw. induction evs as [|e evs IH]; [done|]. unfold dispatcher_main. cbn [fmap list_fmap for_each handle update_of].
  rewrite (M_bind_Ok _ _ _ _ _ (dispatch_quiet d _ ltac:(unfold targets; by rewrite only_watcher_none))). exact IH.
Qed.

(** The first event for the watcher finds that the receiver is gone. *)
Lemma updates_gone w evs d :
  only_watcher (Some w) d → is_open d (sender_tx w) = false →
  Exists (sees (interested (desc w)) (key_range (desc w))) evs →
  dispatcher_main (update_of <$> evs) d = remove_watcher w d.
Proof.
  intros Hw Ho He. induction evs as [|e evs IH]; [by apply Exists_nil in He|].
  pose proof (only_watcher_targets w d e Hw) as Ht. unfold dispatcher_main. cbn [fmap list_fmap for_each handle update_of].
  case_decide as Hs.
  - destruct (remove_watcher w d) as [d' []] eqn:E; try done. destruct a.
    erewrite M_bind_Ok; [|rewrite (dispatch_gone d _ w Ht Ho); exact E].
    exact (updates_quiet evs d' (only_watcher_remove w d d' Hw E)).
  - rewrite (M_bind_Ok _ _ _ _ _ (dispatch_quiet d _ Ht)). apply IH.
    apply Exists_cons in He as [?|He]; done.
Qed.

(** A node with one client, which watches without a flush. *)
Definition one_client (req : WatchRequest) s : MetaNode :=
  watch_flush 0 (watch_reply 0 (dispatch_one (watch_begin req 0 (node_new s)))).

Lemma one_client_eq req s r :
  key_range_of req = inl r → wr_initial_flush req = false →
  let w := {| desc := {| watcher_id := 2%Z; interested := filter_type req; key_range := r |}; sender_tx := 0%N |} in
  node_sm (one_client req s) = s ∧ queue (one_client req s) = [] ∧
  calls (one_client req s) !! 0%N = Some (WatchStreaming req w) ∧
  channels (dispatcher (one_client req s)) !! 0%N = Some {| ch_items := []; ch_closed := false |} ∧
  gauge (dispatcher (one_client req s)) = 1%Z ∧ only_watcher (Some w) (dispatcher (one_client req s)).
Proof.
  intros Hr Hfl w. unfold one_client, watch_begin. rewrite Hr. unfold dispatch_one, node_new, dispatcher_new.
  cbn [queue app handle dispatcher node_sm calls]. unfold add_watcher, new_watch_desc. m_unfold.
  cbn [set_channels set_current_watcher_id current_watcher_id channels watchers replies gauge].
  change (build_key_range (wr_key req) (wr_key_end req)) with (key_range_of req). rewrite Hr.
  unfold set_replies, incr_watchers, set_watchers, set_current_watcher_id, set_channels.
  cbn [watchers replies current_watcher_id channels gauge key_range]. change (wrap_i64 (1 + 1)) with 2%Z. fold w.
  unfold watch_reply. cbn [calls dispatcher replies]. rewrite !lookup_insert_eq.
  unfold watch_flush. cbn [set_call calls]. rewrite lookup_insert_eq, Hr, Hfl. cbn [negb].
  cbn [set_call node_sm queue calls dispatcher channels gauge watchers]. rewrite !lookup_insert_eq.
  split_and!; try done. intros k w'. cbn [dispatcher watchers]. rewrite span_get_insert, span_get_new.
  - split; [|intros [[= <-] ?]; by right]. by intros [?%elem_of_nil|[-> ?]].
  - intros k' w''. rewrite span_get_new. by intros ?%elem_of_nil.
Qed.

(** The only client of a node watches a range and goes away before the events of the
    range are handled. *)
Lemma gone_counted_twice s req r es :
  key_range_of req = inl r → wr_initial_flush req = false →
  let n := one_client req s in
  let n' := client_gone 0 (node_apply es n) in
  Exists (sees (filter_type req) r) (sent_events s (node_sm n')) →
  gauge (dispatcher n) = 1%Z ∧
  ∃ d, dispatcher_main (queue n') (dispatcher n') = (d, Ok tt) ∧
    (∀ k, span_get (watchers d) k = []) ∧ gauge d = (-1)%Z.
Proof.
  intros Hr Hfl n n' He. destruct (one_client_eq req s r Hr Hfl) as (Hs & Hq & Hc & Hch & Hg & Hw).
  fold n in Hs, Hq, Hc, Hch, Hg, Hw. set (w := {| sender_tx := 0%N |}) in *. split; [done|].
  assert (n' = drop_stream 0 w (node_apply es n)) as Hn' by (subst n'; unfold client_gone; cbn; by rewrite Hc).
  assert (queue n' = (update_of <$> sent_events s (node_sm n')) ++ [CmdRequest (ReqRemoveWatcher w)]) as Hq'.
  { rewrite Hn'. cbn. by rewrite Hq, Hs. }
  assert (only_watcher (Some w) (dispatcher n')) as Hw' by (rewrite Hn'; exact Hw).
  assert (is_open (dispatcher n') 0 = false) as Ho.
  { rewrite Hn'. unfold is_open. cbn. by rewrite lookup_alter_eq, Hch. }
  assert (gauge (dispatcher n') = 1%Z) as Hg' by (rewrite Hn'; exact Hg).
  destruct (remove_watcher w (dispatcher n')) as [d1 []] eqn:E1; try done. destruct a.
  pose proof (only_watcher_remove w _ d1 Hw' E1) as Hw1.
  exists (incr_watchers (-1) (set_watchers (span_remove bounds_full w (watchers d1)) d1)). split_and!.
  - rewrite Hq'. unfold dispatcher_main. rewrite (for_each_app _ _ _ _ _ (eq_trans (updates_gone w _ _ Hw' Ho He) E1)). done.
  - intros k. apply elem_of_nil_inv. intros w'. cbn. rewrite span_get_remove, only_watcher_none by done.
    by intros [?%elem_of_nil _].
  - cbn. injection E1 as <-. cbn. by rewrite Hg'.
Qed.
End watch.

(** ** Snapshots *)

Section snapshots.
Context {raft : OpenRaft} {sm : StreamMore} `{!StreamMoreLaws sm}.
Context {rb : RotblLib} `{!RotblLaws rb} {sl : SerdeLib raft} `{!SerdeLaws sl, !SerdeTotal sl}.
Context {sp : SpanMapLib} `{!SpanMapLaws sp}.

(** C36: What watchers and their gauge miss.  The gauge can count a client out twice: the
    only client of a node watches a range, log entries change a key of the range, and the
    client goes away before the dispatcher handles them; when the dispatcher has caught up
    nobody watches, but the gauge is -1, since the watcher is removed when the event cannot
    be sent, and once more when its stream is dropped.  Installing a snapshot is not seen:
    the key-values of a node that has fallen behind become those of the snapshot, but no
    event is queued, and the copy of a client that watches all changes of a range is what
    the range held before. *)
Theorem watch_gaps :
  (∀ (s : StateMachine (LeveledMap DB)) req r es, key_range_of req = inl r → wr_initial_flush req = false →
     let n := one_client req s in
     let n' := client_gone 0 (node_apply es n) in
     Exists (sees (filter_type req) r) (sent_events s (node_sm n')) →
     gauge (dispatcher n) = 1%Z ∧
     ∃ d, dispatcher_main (queue n') (dispatcher n') = (d, Ok tt) ∧
       (∀ k, span_get (watchers d) k = []) ∧ gauge d = (-1)%Z) ∧
  (∀ (leader : StateMachine (LeveledMap DB)) (n : MetaNode) uniq chan m1 c b path id db tx req w r,
     reachable n → ids_left n →
     sm_ok leader → utf8_values (sm_map leader) → snapshot_begin uniq chan (sm_map leader) = (m1, c) →
     builder_content b [] → snapshot_write c b path id = Ok db →
     last_applied (map_sys (sm_map (node_sm n))) = None ∨
       opt_log_id_leb (last_applied (map_sys (sm_map leader))) (last_applied (map_sys (sm_map (node_sm n)))) = false →
     ek_seq (expire_cursor (node_sm n)) = 0%N → (time_ms (expire_cursor (node_sm n)) ≤ time_ms (expire_cursor leader))%N →
     calls n !! tx = Some (WatchStreaming req w) → key_range_of req = inl r →
     filter_type req = FilterAll → wr_initial_flush req = true →
     let n' := node_write (install_snapshot_v003 db (node_sm n)).1 n in
     kvv (sm_map (node_sm n')) = kvv (sm_map leader) ∧
     ∃ d, dispatcher_main (queue n') (dispatcher n') = (d, Ok tt) ∧
       ∀ c, channels d !! tx = Some c → ch_closed c = false →
         client_cache (ch_items c) = pb_SeqV_of <$> filter (λ x, in_bounds r x.1) (kvv (sm_map (node_sm n)))).
Proof.
  split; [exact gone_counted_twice|].
  intros leader n uniq chan m1 c b path id db tx req w r (base & reg & Hn)%reachable_ok Hid Hok Hutf Hb Hbuild Hw Hla Hcs Hct Hcall Hr Hall Hfl n'.
  destruct (install_snapshot_spec leader (node_sm n) _ _ _ _ _ _ _ _ Hok Hutf Hb Hbuild Hw Hla Hcs Hct)
    as (s' & E & _ & Hkv & _).
  assert (subscriber s' = subscriber (node_sm n)) as Hsub.
  { revert E. unfold install_snapshot_v003. m_unfold. destruct (_ && _); by intros [= <-]. }
  assert (queue n' = queue n) as Hq.
  { unfold n', node_write. rewrite E. cbn. unfold sent_events. rewrite Hsub.
    destruct (subscriber (node_sm n)); [rewrite drop_all|]; apply app_nil_r. }
  split; [unfold n'; by rewrite E|]. destruct (drain_ok base n reg Hn Hid) as (d & reg' & Ed & Hd).
  exists d. rewrite Hq. split; [exact Ed|]. intros ch Hc Hcl. by apply (streaming_exact base _ reg' tx ch req w r Hd).
Qed.
End snapshots.

(** ** Examples *)

Module WatchEx.
Import LogEx.
#[local] Existing Instances log_spans log_spans_laws.

Definition watch_all : WatchRequest :=
  {| wr_key := "a"; wr_key_end := Some "z"; wr_filter_type := 0; wr_initial_flush := true |}.
Definition watch_deletes : WatchRequest :=
  {| wr_key := "a"; wr_key_end := None; wr_filter_type := 2; wr_initial_flush := false |}.

(** One client has its stream before the first entry is applied and one flushes
    after it; the second entry is still in the queue. *)
Definition start (req : WatchRequest) (tx : N) (n : MetaNode (Mp := LeveledMap DB)) : MetaNode :=
  watch_flush tx (watch_reply tx (dispatch_one (watch_begin req tx n))).
Definition node1 : MetaNode := node_apply (take 1 es) (start watch_all 0 (node_new s0)).
Definition node2 : MetaNode := dispatch_one (dispatch_one node1).
Definition node3 : MetaNode := node_apply (drop 1 es) (start watch_all 1 node2).

Lemma start_run req tx (n : MetaNode (Mp := LeveledMap DB)) :
  calls n !! tx = None → channels (dispatcher n) !! tx = None →
  (current_watcher_id (dispatcher (watch_begin req tx n)) + 1 < 2 ^ 63)%Z → rtc node_step n (start req tx n).
Proof.
  intros H1 H2 H3. eapply rtc_l; [by apply step_begin|]. eapply rtc_l; [by apply step_dispatch|].
  eapply rtc_l; [apply step_reply|]. apply rtc_once, step_flush.
Qed.

Lemma node1_run : rtc node_step (node_new s0) node1.
Proof.
  etrans; [apply (start_run watch_all 0); vm_compute; reflexivity|].
  apply rtc_once, step_apply; [repeat constructor|vm_compute; reflexivity].
Qed.

Lemma node3_run : rtc node_step (node_new s0) node3.
Proof.
  etrans; [exact node1_run|]. eapply rtc_l; [apply step_dispatch; vm_compute; reflexivity|].
  eapply rtc_l; [apply step_dispatch; vm_compute; reflexivity|].
  etrans; [apply (start_run watch_all 1); vm_compute; reflexivity|].
  apply rtc_once, step_apply; [repeat constructor|vm_compute; reflexivity].
Qed.

Lemma node3_reachable : reachable node3.
Proof. exists s0. split; [exact s0_ok|]. split; [by eexists|exact node3_run]. Qed.

Lemma watchers_catch_up_witness :
  ∃ d, dispatcher_main (queue node3) (dispatcher node3) = (d, Ok tt) ∧
    ∀ c, channels d !! 1%N = Some c → ch_closed c = false →
      client_cache (ch_items c) =
        pb_SeqV_of <$> filter (λ x, in_bounds (Included "a", Excluded "z") x.1) (kvv (sm_map (node_sm node3))).
Proof.
  destruct (watchers_catch_up node3 node3_reachable) as (d & E & H); [vm_compute; reflexivity|].
  exists d. split; [exact E|]. intros c. apply (H 1%N c watch_all
    {| desc := {| watcher_id := 3%Z; interested := FilterAll; key_range := (Included "a", Excluded "z") |}; sender_tx := 1%N |}).
  - vm_compute. reflexivity.
  - vm_compute. reflexivity.
  - reflexivity.
  - reflexivity.
Defined.

(** The key expires with the second entry. *)
Definition node4 : MetaNode := node_apply es (watch_begin watch_deletes 0 (node_new s0)).

Lemma watch_in_order_witness :
  ∃ d, dispatcher_main (queue node4) (dispatcher node4) = (d, Ok tt) ∧
    ∀ c, channels d !! 0%N = Some c → ch_closed c = false → length (ch_items c) = 1%nat.
Proof.
  destruct (watch_in_order (node_new s0) node4 watch_deletes 0 (Included "a", Included "a")) as (d & E & H).
  - exists s0. split; [exact s0_ok|]. split; [by eexists|apply rtc_refl].
  - reflexivity.
  - reflexivity.
  - reflexivity.
  - reflexivity.
  - apply rtc_once, step_apply; [exact es_ok|vm_compute; reflexivity].
  - vm_compute. reflexivity.
  - exists d. split; [exact E|]. intros c Hc Hcl. rewrite (H c Hc Hcl). vm_compute. reflexivity.
Defined.

Definition watch_quiet : WatchRequest :=
  {| wr_key := "a"; wr_key_end := Some "z"; wr_filter_type := 0; wr_initial_flush := false |}.
Definition node5 : MetaNode := client_gone 0 (node_apply es (one_client watch_quiet s0)).

(** The node has no data; the snapshot has the key [b]. *)
Definition node6 : MetaNode := start watch_all 0 (node_new s0).

Lemma watch_gaps_witness :
  (gauge (dispatcher (one_client watch_quiet s0)) = 1%Z ∧
  ∃ d, dispatcher_main (queue node5) (dispatcher node5) = (d, Ok tt) ∧ gauge d = (-1)%Z) ∧
  ∃ d, dispatcher_main (queue (node_write (install_snapshot_v003 SmEx.table (node_sm node6)).1 node6)) (dispatcher node6) =
      (d, Ok tt) ∧
    ∀ c, channels d !! 0%N = Some c → ch_closed c = false → client_cache (ch_items c) = ∅.
Proof.
  destruct watch_gaps as [Hgauge Hsnap]. split.
  - destruct (Hgauge s0 watch_quiet (Included "a", Excluded "z") es) as (H1 & d & E & _ & H2).
    + reflexivity.
    + reflexivity.
    + apply (bool_decide_unpack _). vm_compute. exact I.
    + split; [exact H1|]. exists d. split; [exact E|exact H2].
  - destruct (Hsnap s1 node6 1%N 0%nat (snapshot_begin 1 0 (sm_map s1)).1 SmEx.compactor [] "path" "id" SmEx.table
      0%N watch_all {| desc := {| watcher_id := 2%Z; interested := FilterAll; key_range := (Included "a", Excluded "z") |};
                     sender_tx := 0%N |} (Included "a", Excluded "z")) as (_ & d & E & H).
    + exists s0. split; [exact s0_ok|]. split; [by eexists|]. apply start_run; vm_compute; reflexivity.
    + vm_compute. reflexivity.
    + exact s1_ok.
    + exact SmEx.s1_utf8.
    + apply surjective_pairing.
    + reflexivity.
    + exact SmEx.table_eq.
    + left. vm_compute. reflexivity.
    + vm_compute. reflexivity.
    + vm_compute. discriminate.
    + vm_compute. reflexivity.
    + reflexivity.
    + reflexivity.
    + reflexivity.
    + exists d. split; [exact E|]. intros c Hc Hcl. rewrite (H c Hc Hcl). vm_compute. reflexivity.
Defined.
End WatchEx.
