(* ===== verification/DatabaseTypes.v ===== *)
(** The records of databases (app/src/schema/database.rs, app/src/tenant_key/raw.rs)
    and their conversion to messages (proto-conv/src). *)

From stdpp Require Import base countable strings gmap numbers list.
From S2P Require Import Prelude RustStr MetaTypes KeyCodec KeyCodecProofs AppKeys ProtoConv.
Local Open Scope N_scope.

(** ** Data *)

Section data.
Context {ch : Chrono}.

Record DatabaseMeta := {
  dm_engine : string; dm_engine_options : gmap string string; dm_options : gmap string string;
  dm_created_on : DateTime; dm_updated_on : DateTime; dm_comment : string;
  dm_drop_on : option DateTime; dm_gc_in_progress : bool;
}.

Definition set_drop_on (t : option DateTime) (m : DatabaseMeta) : DatabaseMeta :=
  {| dm_engine := dm_engine m; dm_engine_options := dm_engine_options m; dm_options := dm_options m;
     dm_created_on := dm_created_on m; dm_updated_on := dm_updated_on m; dm_comment := dm_comment m;
     dm_drop_on := t; dm_gc_in_progress := dm_gc_in_progress m |}.

(** The ids that a name has had, the last one is the newest. *)
Record DbIdList := { id_list : list N }.
Definition db_id_list_new : DbIdList := {| id_list := [] |}.
Definition db_id_list_append (id : N) (l : DbIdList) : DbIdList := {| id_list := id_list l ++ [id] |}.
Definition db_id_list_pop (l : DbIdList) : DbIdList := {| id_list := removelast (id_list l) |}.
Definition db_id_list_last (l : DbIdList) : option N := last (id_list l).

Inductive ShareDbId := ShareUsage (id : N) | ShareReference (id : N).
End data.

(** A [TIdent] stored as a value. *)
Record TIdentRaw (r : TenantResource) := { raw_tenant : string; raw_name : string }.
Arguments raw_tenant {_} _.
Arguments raw_name {_} _.
Definition tident_raw_of {r} (i : TIdent r string) : TIdentRaw r :=
  {| raw_tenant := tenant (tident_tenant i); raw_name := tident_name i |}.
Abbreviation DatabaseNameIdentRaw := (TIdentRaw database_name_rsc).

(** ** Messages (protos/proto/tenant.proto, database.proto) *)

Record pb_TIdent := { ti_ver : N; ti_min_reader_ver : N; ti_tenant : string; ti_name : string }.

(** [ShareUsageDbId] and [ShareReferenceDbId] have the same fields. *)
Record pb_ShareId := { sh_ver : N; sh_min_reader_ver : N; sh_id : N }.
Inductive pb_DbId := PbUsage (u : pb_ShareId) | PbReference (r : pb_ShareId).
Record pb_ShareDbId := { sh_db_id : option pb_DbId }.

Record pb_DatabaseMeta := {
  pd_ver : N; pd_min_reader_ver : N;
  pd_engine : string; pd_engine_options : gmap string string; pd_options : gmap string string;
  pd_created_on : string; pd_updated_on : string; pd_comment : string; pd_drop_on : option string;
  pd_gc_in_progress : bool; pd_shared_by : list N; pd_from_share : option pb_TIdent;
  pd_using_share_endpoint : option string; pd_from_share_db_id : option pb_ShareDbId;
}.

Record pb_DbIdList := { pl_ver : N; pl_min_reader_ver : N; pl_ids : list N }.

(** ** Conversions *)

Section conversions.
Context {ch : Chrono}.

Definition drop_on_from_pb (o : option string) : option (option DateTime) :=
  match o with
  | Some drop_on => t ← datetime_from_str drop_on; Some (Some t)
  | None => Some None
  end.

Definition database_from_pb (p : pb_DatabaseMeta) : option DatabaseMeta :=
  _ ← reader_check_msg (pd_ver p) (pd_min_reader_ver p);
  created_on ← datetime_from_str (pd_created_on p);
  updated_on ← datetime_from_str (pd_updated_on p);
  drop_on ← drop_on_from_pb (pd_drop_on p);
  Some {| dm_engine := pd_engine p; dm_engine_options := pd_engine_options p; dm_options := pd_options p;
          dm_created_on := created_on; dm_updated_on := updated_on; dm_drop_on := drop_on;
          dm_gc_in_progress := pd_gc_in_progress p; dm_comment := pd_comment p |}.

Definition database_to_pb (m : DatabaseMeta) : option pb_DatabaseMeta :=
  Some {| pd_ver := VER; pd_min_reader_ver := MIN_READER_VER; pd_engine := dm_engine m;
          pd_engine_options := dm_engine_options m; pd_options := dm_options m;
          pd_created_on := datetime_to_string (dm_created_on m);
          pd_updated_on := datetime_to_string (dm_updated_on m);
          pd_drop_on := datetime_to_string <$> dm_drop_on m;
          pd_gc_in_progress := dm_gc_in_progress m; pd_comment := dm_comment m;
          pd_shared_by := []; pd_from_share := None; pd_using_share_endpoint := None;
          pd_from_share_db_id := None |}.

Definition share_db_id_from_pb (p : pb_ShareDbId) : option ShareDbId :=
  match sh_db_id p with
  | Some (PbUsage u) => Some (ShareUsage (sh_id u))
  | Some (PbReference r) => Some (ShareReference (sh_id r))
  | None => None
  end.
Definition share_db_id_to_pb (s : ShareDbId) : option pb_ShareDbId :=
  let with_id id := {| sh_ver := VER; sh_min_reader_ver := MIN_READER_VER; sh_id := id |} in
  match s with
  | ShareUsage id => Some {| sh_db_id := Some (PbUsage (with_id id)) |}
  | ShareReference id => Some {| sh_db_id := Some (PbReference (with_id id)) |}
  end.

Definition db_id_list_from_pb (p : pb_DbIdList) : option DbIdList :=
  _ ← reader_check_msg (pl_ver p) (pl_min_reader_ver p); Some {| id_list := pl_ids p |}.
Definition db_id_list_to_pb (l : DbIdList) : option pb_DbIdList :=
  Some {| pl_ver := VER; pl_min_reader_ver := MIN_READER_VER; pl_ids := id_list l |}.

Definition tident_raw_from_pb {r} (p : pb_TIdent) : option (TIdentRaw r) :=
  _ ← reader_check_msg (ti_ver p) (ti_min_reader_ver p);
  Some {| raw_tenant := ti_tenant p; raw_name := ti_name p |}.
Definition tident_raw_to_pb {r} (i : TIdentRaw r) : option pb_TIdent :=
  Some {| ti_ver := VER; ti_min_reader_ver := MIN_READER_VER; ti_tenant := raw_tenant i; ti_name := raw_name i |}.

#[export] Instance database_proto `{!ProstMessage pb_DatabaseMeta} : FromToProto DatabaseMeta :=
  {| PB := pb_DatabaseMeta; from_pb := database_from_pb; to_pb := database_to_pb |}.
#[export] Instance share_db_id_proto `{!ProstMessage pb_ShareDbId} : FromToProto ShareDbId :=
  {| PB := pb_ShareDbId; from_pb := share_db_id_from_pb; to_pb := share_db_id_to_pb |}.
#[export] Instance db_id_list_proto `{!ProstMessage pb_DbIdList} : FromToProto DbIdList :=
  {| PB := pb_DbIdList; from_pb := db_id_list_from_pb; to_pb := db_id_list_to_pb |}.
#[export] Instance tident_raw_proto r `{!ProstMessage pb_TIdent} : FromToProto (TIdentRaw r) :=
  {| PB := pb_TIdent; from_pb := tident_raw_from_pb; to_pb := tident_raw_to_pb |}.

(** The message of [Id<DatabaseId>] (app/src/primitive.rs) is the id in JSON, of at
    most 64 bytes. *)
#[export] Instance database_id_prost {sj : SerdeJson} : ProstMessage DatabaseId := {|
  prost_encode id := Some (json_of_u64 (did_db_id id));
  prost_decode b :=
    if 64 <? N.of_nat (String.length b) then None
    else id ← json_to_u64 b; Some {| did_db_id := id |};
|}.
#[export] Instance database_id_proto {sj : SerdeJson} : FromToProto DatabaseId :=
  {| PB := DatabaseId; from_pb p := Some p; to_pb id := Some id |}.
End conversions.

(** ** Laws *)

(** The integers of the messages fit in a [u64]. *)
Definition pb_tident_fits (p : pb_TIdent) : Prop := ti_ver p < u64_mod ∧ ti_min_reader_ver p < u64_mod.
Definition pb_share_id_fits (s : pb_ShareId) : Prop :=
  sh_ver s < u64_mod ∧ sh_min_reader_ver s < u64_mod ∧ sh_id s < u64_mod.
Definition pb_share_db_id_fits (p : pb_ShareDbId) : Prop :=
  match sh_db_id p with Some (PbUsage s) | Some (PbReference s) => pb_share_id_fits s | None => True end.
Definition pb_database_fits (p : pb_DatabaseMeta) : Prop :=
  pd_ver p < u64_mod ∧ pd_min_reader_ver p < u64_mod ∧ Forall (λ n, n < u64_mod) (pd_shared_by p) ∧
  match pd_from_share p with Some t => pb_tident_fits t | None => True end ∧
  match pd_from_share_db_id p with Some s => pb_share_db_id_fits s | None => True end.
Definition pb_db_id_list_fits (p : pb_DbIdList) : Prop :=
  pl_ver p < u64_mod ∧ pl_min_reader_ver p < u64_mod ∧ Forall (λ n, n < u64_mod) (pl_ids p).

Section laws.
Context {ch : Chrono} `{!ChronoLaws ch}.

(** A value is stored as a message that fits, and converts back. *)
Lemma proto_roundtrip {T} `{!FromToProto T} (fits : PB → Prop) `{!ProstLaws PB fits} (v : T) p :
  to_pb v = Some p → fits p → from_pb p = Some v → ∃ b, encode_pb v = Some b ∧ decode_pb b = Some v.
Proof.
  intros Hto Hp Hfrom. destruct (prost_roundtrip p Hp) as (b & Hb & Hd). exists b.
  unfold encode_pb, decode_pb. by rewrite Hto, Hd.
Qed.

#[export, refine] Instance database_proto_laws `{!ProstMessage pb_DatabaseMeta, !ProstLaws pb_DatabaseMeta pb_database_fits} :
    FromToProtoLaws DatabaseMeta := {| value_fits _ := True |}.
Proof.
  - intros m _. eapply (proto_roundtrip (FromToProto0 := database_proto) pb_database_fits); [done| |].
    + split_and!; done.
    + unfold from_pb, database_proto, database_from_pb. cbn. rewrite !datetime_roundtrip. cbn.
      destruct m as [? ? ? ? ? ? [t|] ?]; cbn; rewrite ?datetime_roundtrip; done.
  - done.
Defined.

#[export, refine] Instance db_id_list_proto_laws `{!ProstMessage pb_DbIdList, !ProstLaws pb_DbIdList pb_db_id_list_fits} :
    FromToProtoLaws DbIdList := {| value_fits l := Forall (λ n, n < u64_mod) (id_list l) |}.
Proof.
  - intros [l] Hl. by eapply (proto_roundtrip (FromToProto0 := db_id_list_proto) pb_db_id_list_fits).
  - intros b l (p & Hp & Hl)%bind_Some. apply (prost_decode_fits (fits := pb_db_id_list_fits)) in Hp as (_ & _ & Hf).
    apply bind_Some in Hl as (_ & _ & [= <-]). exact Hf.
Defined.

#[export, refine] Instance tident_raw_proto_laws r `{!ProstMessage pb_TIdent, !ProstLaws pb_TIdent pb_tident_fits} :
    FromToProtoLaws (TIdentRaw r) := {| value_fits _ := True |}.
Proof.
  - intros [t n] _. by eapply (proto_roundtrip (FromToProto0 := tident_raw_proto r) pb_tident_fits).
  - done.
Defined.

#[export, refine] Instance database_id_proto_laws {sj : SerdeJson} `{!SerdeJsonLaws sj} :
    FromToProtoLaws DatabaseId := {| value_fits id := did_db_id id < u64_mod |}.
Proof.
  - intros [n] Hn. exists (dec_string n). unfold encode_pb, decode_pb. cbn -[N.ltb dec_string].
    rewrite json_of_u64_dec by done. split; [done|]. by rewrite dec_string_short, json_u64_roundtrip.
  - intros b id (p & Hp & [= <-])%bind_Some. cbn in Hp. destruct (64 <? _); [done|].
    apply bind_Some in Hp as (n & Hn & [= <-]). by apply json_to_u64_fits in Hn.
Defined.
End laws.

(** ** Concrete messages, for examples

    A field is the bits of its code as a text, a message is its fields separated by
    slashes. *)

Fixpoint bits (p : positive) : string :=
  match p with
  | xH => EmptyString
  | xO p => String (byte 48) (bits p)
  | xI p => String (byte 49) (bits p)
  end.
Fixpoint of_bits (s : string) : positive :=
  match s with
  | EmptyString => xH
  | String a s => if decide (a = byte 48) then xO (of_bits s) else xI (of_bits s)
  end.

Definition field `{Countable A} (x : A) : string := bits (encode x).
Definition of_field `{Countable A} (s : string) : option A := decode (of_bits s).

Lemma field_roundtrip `{Countable A} (x : A) : of_field (field x) = Some x.
Proof.
  unfold of_field, field. assert (∀ p, of_bits (bits p) = p) as ->; [|apply decode_encode].
  induction p as [p IH|p IH|]; cbn; [by rewrite decide_False, IH|by rewrite decide_True, IH|done].
Qed.
Lemma field_segment `{Countable A} (x : A) : segment (field x).
Proof. unfold field. induction (encode x); [by apply segment_cons..|done]. Qed.

#[export] Instance pb_TIdent_eq_dec : EqDecision pb_TIdent.
Proof. solve_decision. Defined.
#[export] Instance pb_ShareId_eq_dec : EqDecision pb_ShareId.
Proof. solve_decision. Defined.
#[export] Instance pb_DbId_eq_dec : EqDecision pb_DbId.
Proof. solve_decision. Defined.
#[export] Instance pb_ShareDbId_eq_dec : EqDecision pb_ShareDbId.
Proof. solve_decision. Defined.

#[export, refine] Instance pb_TIdent_countable : Countable pb_TIdent :=
  inj_countable' (λ p, (ti_ver p, ti_min_reader_ver p, ti_tenant p, ti_name p))
    (λ x, {| ti_ver := x.1.1.1; ti_min_reader_ver := x.1.1.2; ti_tenant := x.1.2; ti_name := x.2 |}) _.
Proof. by intros []. Defined.
#[export, refine] Instance pb_ShareId_countable : Countable pb_ShareId :=
  inj_countable' (λ p, (sh_ver p, sh_min_reader_ver p, sh_id p))
    (λ x, {| sh_ver := x.1.1; sh_min_reader_ver := x.1.2; sh_id := x.2 |}) _.
Proof. by intros []. Defined.
#[export, refine] Instance pb_DbId_countable : Countable pb_DbId :=
  inj_countable' (λ p, match p with PbUsage s => inl s | PbReference s => inr s end)
    (λ x, match x with inl s => PbUsage s | inr s => PbReference s end) _.
Proof. by intros []. Defined.
#[export, refine] Instance pb_ShareDbId_countable : Countable pb_ShareDbId :=
  inj_countable' sh_db_id (λ x, {| sh_db_id := x |}) _.
Proof. by intros []. Defined.

(** A decoder that refuses messages that do not fit. *)
Definition fitting {A} (fits : A → Prop) `{!∀ p, Decision (fits p)} (o : option A) : option A :=
  p ← o; if decide (fits p) then Some p else None.

#[export] Instance pb_tident_fits_dec p : Decision (pb_tident_fits p).
Proof. unfold pb_tident_fits. apply _. Defined.
#[export] Instance pb_share_db_id_fits_dec p : Decision (pb_share_db_id_fits p).
Proof. unfold pb_share_db_id_fits, pb_share_id_fits. destruct (sh_db_id p) as [[]|]; apply _. Defined.
#[export] Instance pb_database_fits_dec p : Decision (pb_database_fits p).
Proof. unfold pb_database_fits. destruct (pd_from_share p), (pd_from_share_db_id p); apply _. Defined.
#[export] Instance pb_db_id_list_fits_dec p : Decision (pb_db_id_list_fits p).
Proof. unfold pb_db_id_list_fits. apply _. Defined.

Definition database_segs (p : pb_DatabaseMeta) : list string :=
  [field (pd_ver p); field (pd_min_reader_ver p); field (pd_engine p); field (pd_engine_options p);
   field (pd_options p); field (pd_created_on p); field (pd_updated_on p); field (pd_comment p);
   field (pd_drop_on p); field (pd_gc_in_progress p); field (pd_shared_by p); field (pd_from_share p);
   field (pd_using_share_endpoint p); field (pd_from_share_db_id p)].
Definition database_of_segs (l : list string) : option pb_DatabaseMeta :=
  match l with
  | [a; b; c; d; e; f; g; h; i; j; k; l; m; n] =>
      ver ← of_field a; min_ver ← of_field b; engine ← of_field c; engine_options ← of_field d;
      options ← of_field e; created_on ← of_field f; updated_on ← of_field g; comment ← of_field h;
      drop_on ← of_field i; gc ← of_field j; shared_by ← of_field k; from_share ← of_field l;
      endpoint ← of_field m; share ← of_field n;
      Some {| pd_ver := ver; pd_min_reader_ver := min_ver; pd_engine := engine;
              pd_engine_options := engine_options; pd_options := options; pd_created_on := created_on;
              pd_updated_on := updated_on; pd_comment := comment; pd_drop_on := drop_on;
              pd_gc_in_progress := gc; pd_shared_by := shared_by; pd_from_share := from_share;
              pd_using_share_endpoint := endpoint; pd_from_share_db_id := share |}
  | _ => None
  end.

Definition text_database : ProstMessage pb_DatabaseMeta := {|
  prost_encode p := Some (join_with slash (database_segs p));
  prost_decode b := fitting pb_database_fits (database_of_segs (split_on slash b));
|}.
Definition text_db_id_list : ProstMessage pb_DbIdList := {|
  prost_encode p := Some (field (pl_ver p, pl_min_reader_ver p, pl_ids p));
  prost_decode b := fitting pb_db_id_list_fits ('(v, m, l) ← of_field b;
    Some {| pl_ver := v; pl_min_reader_ver := m; pl_ids := l |});
|}.
Definition text_tident : ProstMessage pb_TIdent := {|
  prost_encode p := Some (field p); prost_decode b := fitting pb_tident_fits (of_field b);
|}.

Lemma fitting_laws {PB} `{!ProstMessage PB} (fits : PB → Prop) `{!∀ p, Decision (fits p)} (dec : bytes → option PB) :
  (∀ b, prost_decode b = fitting fits (dec b)) →
  (∀ p, ∃ b, prost_encode p = Some b ∧ dec b = Some p) → ProstLaws PB fits.
Proof.
  intros Hdec Henc. split.
  - intros p Hp. destruct (Henc p) as (b & Hb & Hd). exists b. split; [done|]. rewrite Hdec, Hd. cbn.
    by rewrite decide_True.
  - intros b p. rewrite Hdec. intros (q & _ & Hq)%bind_Some. by case_decide; simplify_eq.
Qed.

Lemma text_database_laws : ProstLaws (ProstMessage0 := text_database) pb_DatabaseMeta pb_database_fits.
Proof.
  apply (fitting_laws (ProstMessage0 := text_database) pb_database_fits (λ b, database_of_segs (split_on slash b))); [done|].
  intros p. eexists. split; [done|]. rewrite split_join; [|done|].
  - unfold database_segs, database_of_segs. rewrite !field_roundtrip. by destruct p.
  - unfold database_segs. repeat (constructor; [apply field_segment|]). constructor.
Qed.
Lemma text_db_id_list_laws : ProstLaws (ProstMessage0 := text_db_id_list) pb_DbIdList pb_db_id_list_fits.
Proof.
  eapply (fitting_laws (ProstMessage0 := text_db_id_list) pb_db_id_list_fits); [done|].
  intros p. eexists. split; [done|]. cbn beta. rewrite field_roundtrip. by destruct p.
Qed.
Lemma text_tident_laws : ProstLaws (ProstMessage0 := text_tident) pb_TIdent pb_tident_fits.
Proof.
  apply (fitting_laws (ProstMessage0 := text_tident) pb_tident_fits of_field); [done|].
  intros p. eexists. split; [done|]. apply field_roundtrip.
Qed.
