(* ===== verification/Database.v ===== *)
(** Databases (the operations on databases of api/src/schema_api_impl.rs, and their
    helpers in util.rs).  Every operation is a client of the KV API. *)

From stdpp Require Import base strings gmap numbers list.
From S2P Require Import Prelude BTree RustStr MetaTypes Txn SMV003 KeyCodec AppKeys KVApi ProtoConv MetaApi DatabaseTypes.
Local Open Scope N_scope.

(** ** Helpers (util.rs) *)

Section util.
Context {sj : SerdeJson}.

(** [serde_json] does not fail on a [u64]. *)
Definition serialize_u64 (value : N) : bytes := json_of_u64 value.

Definition serialize_struct `{!FromToProto V} (value : V) : Client bytes :=
  match encode_pb value with
  | Some buf => mret buf
  | None => throw (EMeta InvalidArgument)
  end.

Definition txn_cond_seq `{!KeyCodec K, !Key K} (key : K) (op : ConditionResult) (s : N) : Client TxnCondition :=
  k ← key_str (to_string_key key); mret (cond_match_seq k op s).

Definition txn_op_put `{!KeyCodec K, !Key K} (key : K) (value : bytes) : Client TxnOp :=
  k ← key_str (to_string_key key); mret (op_put k value).

(** [condition.extend]. *)
Definition push_conds (cs : list TxnCondition) (t : TxnRequest) : TxnRequest :=
  {| txn_operations := txn_operations t; txn_condition := txn_condition t ++ cs;
     txn_if_then := txn_if_then t; txn_else_then := txn_else_then t |}.

Definition db_has_to_exist (s : N) : Client unit := if s =? 0 then throw (EApp UnknownDatabase) else mret tt.
Definition db_id_has_to_exist (s : N) : Client unit := if s =? 0 then throw (EApp UnknownDatabaseId) else mret tt.
Definition db_has_to_not_exist (s : N) : Client unit :=
  if s =? 0 then mret tt else throw (EApp DatabaseAlreadyExists).
End util.

(** [IdGenerator::database_id] (app/src/id_generator.rs). *)
Definition id_generator_database_id : IdGenerator := {| resource := "database_id" |}.

(** [chrono]: the order of times, subtraction, which panics on overflow, and the
    latest time. *)
Class ChronoOrder (ch : Chrono) := {
  datetime_ltb : DateTime → DateTime → bool;
  datetime_minus_secs : DateTime → N → option DateTime;
  MAX_UTC : DateTime;
}.

(** ** Requests and replies (app/src/schema/database.rs) *)

Section requests.
Context {ch : Chrono}.

Record DatabaseInfo := {
  di_database_id : DatabaseId; di_name_ident : DatabaseNameIdent; di_meta : SeqV DatabaseMeta;
}.
Record CreateDatabaseReq := {
  cd_create_option : CreateOption; cd_name_ident : DatabaseNameIdent; cd_meta : DatabaseMeta;
}.
Record DropDatabaseReq := { dd_if_exists : bool; dd_name_ident : DatabaseNameIdent }.
Record UndropDatabaseReq := { ud_name_ident : DatabaseNameIdent }.
Record RenameDatabaseReq := {
  rd_if_exists : bool; rd_name_ident : DatabaseNameIdent; rd_new_db_name : string;
}.
End requests.

Section schema_api.
Context {sj : SerdeJson} {ch : Chrono}.
Context `{!ProstMessage pb_DatabaseMeta, !ProstMessage pb_DbIdList, !ProstMessage pb_TIdent}.

(** The list of the ids of a name. *)
Definition history_ident (name : DatabaseNameIdent) : DatabaseIdHistoryIdent :=
  tident_new (tident_tenant name) (tident_name name).

(** ** Reading *)

Definition get_db_id_or_err (name_key : DatabaseNameIdent) : Client (SeqV DatabaseId) :=
  seq_db_id ← get_pb DatabaseId name_key;
  match seq_db_id with
  | None => throw (EApp UnknownDatabase)
  | Some seq_db_id => mret seq_db_id
  end.

Definition get_db_or_err (name_key : DatabaseNameIdent) : Client (SeqV DatabaseId * SeqV DatabaseMeta) :=
  seq_db_id ← get_pb DatabaseId name_key;
  match seq_db_id with
  | None => throw (EApp UnknownDatabase)
  | Some seq_db_id =>
      seq_db_meta ← get_pb DatabaseMeta (data seq_db_id);
      match seq_db_meta with
      | None => throw (EApp UnknownDatabase)
      | Some seq_db_meta => mret (seq_db_id, seq_db_meta)
      end
  end.

Definition get_db_by_id_or_err (db_id : N) : Client (N * DatabaseMeta) :=
  '(db_meta_seq, db_meta) ← get_pb_seq_and_value {| did_db_id := db_id |};
  _ ← db_id_has_to_exist db_meta_seq;
  match db_meta with
  | Some db_meta => mret (db_meta_seq, db_meta)
  | None => Done CPanic
  end.

Definition get_database (name_key : DatabaseNameIdent) : Client DatabaseInfo :=
  '(seq_db_id, db_meta) ← get_db_or_err name_key;
  mret {| di_database_id := data seq_db_id; di_name_ident := name_key; di_meta := db_meta |}.

(** A name whose database is gone is left out. *)
Definition list_databases (t : Tenant) : Client (list DatabaseInfo) :=
  let name_key : DatabaseNameIdent := tident_new t "dummy" in
  name_seq_ids ← list_pb_vec (dir_name_new name_key);
  let id_idents := (λ x, data x.2) <$> name_seq_ids in
  id_metas ← get_pb_values_vec id_idents;
  mret (omap (λ x : DatabaseNameIdent * SeqV DatabaseId * option (SeqV DatabaseMeta),
          (λ seq_meta, {| di_database_id := data x.1.2; di_name_ident := x.1.1; di_meta := seq_meta |}) <$> x.2)
        (zip name_seq_ids id_metas)).

(** ** Writing

    [now] and [utc_now i] are the times read by the call, in its [i]-th trial. *)

(** The part of a transaction that drops a database, and the id of the database, 0
    if there is none. *)
Definition drop_database_meta (now : DateTime) (tenant_dbname : DatabaseNameIdent) (if_exists drop_name_key : bool)
    (t : TxnRequest) : Client (N * TxnRequest) :=
  res ← try_client (get_db_or_err tenant_dbname);
  match res with
  | inr (EApp UnknownDatabase) => if if_exists then mret (0, t) else throw (EApp UnknownDatabase)
  | inr e => throw e
  | inl (seq_db_id, db_meta) =>
      t ← (if drop_name_key then
             c ← txn_cond_seq tenant_dbname CEq (seq seq_db_id);
             o ← txn_op_del tenant_dbname;
             mret (push_ops [o] (push_cond c t))
           else mret t);
      let db_id_key := data seq_db_id in
      if negb (is_none (dm_drop_on (data db_meta))) then throw (EApp DropDbWithDropTime) else
      let dropped := set_drop_on (Some now) (data db_meta) in
      c ← txn_cond_seq db_id_key CEq (seq db_meta);
      let t := push_cond c t in
      v ← serialize_struct dropped;
      o ← txn_op_put db_id_key v;
      let t := push_ops [o] t in
      let dbid_idlist := history_ident tenant_dbname in
      '(db_id_list_seq, db_id_list_opt) ← get_pb_seq_and_value dbid_idlist;
      t ← (if (db_id_list_seq =? 0) || is_none (db_id_list_opt : option DbIdList) then
             let db_id_list := db_id_list_append (did_db_id db_id_key) db_id_list_new in
             c ← txn_cond_seq dbid_idlist CEq db_id_list_seq;
             v ← serialize_struct db_id_list;
             o ← txn_op_put dbid_idlist v;
             mret (push_ops [o] (push_cond c t))
           else mret t);
      mret (did_db_id db_id_key, t)
  end.

(** The rest of a trial of [create_database]: a new id, and the transaction with the
    records of the database. *)
Definition create_with_db_id (req : CreateDatabaseReq) (curr_seq : N) (t : TxnRequest) :
    Client (option DatabaseId) :=
  let name_key := cd_name_ident req in
  let dbid_idlist := history_ident name_key in
  seq_db_id_list ← get_pb DbIdList dbid_idlist;
  let db_id_list_seq := opt_seq seq_db_id_list in
  let db_id_list := default db_id_list_new (opt_value seq_db_id_list) in
  db_id ← fetch_id id_generator_database_id;
  let id_key := {| did_db_id := db_id |} in
  let id_to_name_key := {| ditn_db_id := db_id |} in
  let db_id_list := db_id_list_append db_id db_id_list in
  c1 ← txn_cond_seq name_key CEq curr_seq;
  c2 ← txn_cond_seq id_to_name_key CEq 0;
  c3 ← txn_cond_seq dbid_idlist CEq db_id_list_seq;
  o1 ← txn_op_put name_key (serialize_u64 db_id);
  v2 ← serialize_struct (cd_meta req);
  o2 ← txn_op_put id_key v2;
  v3 ← serialize_struct db_id_list;
  o3 ← txn_op_put dbid_idlist v3;
  v4 ← serialize_struct (tident_raw_of name_key);
  o4 ← txn_op_put id_to_name_key v4;
  '(succ, _) ← send_txn (push_ops [o1; o2; o3; o4] (push_conds [c1; c2; c3] t));
  mret (if (succ : bool) then Some id_key else None).

Definition create_database (utc_now : nat → DateTime) (req : CreateDatabaseReq) : Client DatabaseId :=
  let name_key := cd_name_ident req in
  if negb (is_none (dm_drop_on (cd_meta req))) then throw (EApp CreateDatabaseWithDropTime) else
  txn_backoff (λ i,
    curr_seq_db_id ← get_pb DatabaseId name_key;
    match curr_seq_db_id with
    | None => create_with_db_id req 0 txn_default
    | Some curr =>
        match cd_create_option req with
        | Create => throw (EApp DatabaseAlreadyExists)
        | CreateIfNotExists => mret (Some (data curr))
        | CreateOrReplace =>
            '(_, t) ← drop_database_meta (utc_now i) name_key false false txn_default;
            create_with_db_id req (seq curr) t
        end
    end).

Definition drop_database (utc_now : nat → DateTime) (req : DropDatabaseReq) : Client N :=
  txn_backoff (λ i,
    '(db_id, t) ← drop_database_meta (utc_now i) (dd_name_ident req) (dd_if_exists req) true txn_default;
    '(succ, _) ← send_txn t;
    mret (if (succ : bool) then Some db_id else None)).

(** Any error of the first read counts as the absence of the database. *)
Definition undrop_database (req : UndropDatabaseReq) : Client unit :=
  let name_key := ud_name_ident req in
  txn_backoff (λ _,
    res ← try_client (get_db_or_err name_key);
    match res with
    | inl _ => throw (EApp DatabaseAlreadyExists)
    | inr _ =>
        let dbid_idlist := history_ident name_key in
        seq_db_id_list ← get_pb DbIdList dbid_idlist;
        match seq_db_id_list with
        | None => throw (EApp UndropDbHasNoHistory)
        | Some seq_db_id_list =>
            match db_id_list_last (data seq_db_id_list) with
            | None => throw (EApp UndropDbHasNoHistory)
            | Some db_id =>
                let dbid := {| did_db_id := db_id |} in
                seq_meta ← get_pb DatabaseMeta dbid;
                match opt_value seq_meta with
                | None => Done CPanic
                | Some db_meta =>
                    if is_none (dm_drop_on db_meta) then throw (EApp UndropDbWithNoDropTime) else
                    let db_meta := set_drop_on None db_meta in
                    c1 ← txn_cond_seq name_key CEq 0;
                    c2 ← txn_cond_seq dbid_idlist CEq (seq seq_db_id_list);
                    c3 ← txn_cond_seq dbid CEq (opt_seq seq_meta);
                    o1 ← txn_op_put name_key (serialize_u64 db_id);
                    v2 ← serialize_struct db_meta;
                    o2 ← txn_op_put dbid v2;
                    '(succ, _) ← send_txn (txn_new [c1; c2; c3] [o1; o2]);
                    mret (if (succ : bool) then Some tt else None)
                end
            end
        end
    end).

Definition rename_database (req : RenameDatabaseReq) : Client unit :=
  let tenant_dbname := rd_name_ident req in
  let tenant_newdbname : DatabaseNameIdent := tident_new (tident_tenant tenant_dbname) (rd_new_db_name req) in
  txn_backoff (λ _,
    old_seq_db_id ← get_pb DatabaseId tenant_dbname;
    match old_seq_db_id with
    | None =>
        if rd_if_exists req then mret (Some tt) else
        _ ← db_has_to_exist 0;
        Done CPanic
    | Some old_seq_db_id =>
        let old_db_id := data old_seq_db_id in
        old_seq_db_meta ← get_pb DatabaseMeta old_db_id;
        _ ← db_has_to_exist (opt_seq old_seq_db_meta);
        new_seq_db_id ← get_pb DatabaseId tenant_newdbname;
        _ ← db_has_to_not_exist (opt_seq new_seq_db_id);
        let db_id_key := {| ditn_db_id := did_db_id old_db_id |} in
        seq_db_name ← get_pb DatabaseNameIdentRaw db_id_key;
        let dbid_idlist := history_ident tenant_dbname in
        seq_db_id_list ← get_pb DbIdList dbid_idlist;
        let db_id_list := default (db_id_list_append (did_db_id old_db_id) db_id_list_new) (opt_value seq_db_id_list) in
        match db_id_list_last db_id_list with
        | None => throw (EApp DatabaseAlreadyExists)
        | Some last_db_id =>
            if negb (last_db_id =? did_db_id old_db_id) then throw (EApp DatabaseAlreadyExists) else
            let new_dbid_idlist := history_ident tenant_newdbname in
            seq_idlist ← get_pb DbIdList new_dbid_idlist;
            let new_db_id_list := default db_id_list_new (opt_value seq_idlist) in
            let db_id_list := db_id_list_pop db_id_list in
            let new_db_id_list := db_id_list_append (did_db_id old_db_id) new_db_id_list in
            c1 ← txn_cond_seq tenant_dbname CEq (seq old_seq_db_id);
            c2 ← txn_cond_seq db_id_key CEq (opt_seq seq_db_name);
            c3 ← txn_cond_seq tenant_newdbname CEq 0;
            c4 ← txn_cond_seq dbid_idlist CEq (opt_seq seq_db_id_list);
            c5 ← txn_cond_seq new_dbid_idlist CEq (opt_seq seq_idlist);
            o1 ← txn_op_del tenant_dbname;
            o2 ← txn_op_put tenant_newdbname (serialize_u64 (did_db_id old_db_id));
            v3 ← serialize_struct new_db_id_list;
            o3 ← txn_op_put new_dbid_idlist v3;
            v4 ← serialize_struct db_id_list;
            o4 ← txn_op_put dbid_idlist v4;
            v5 ← serialize_struct (tident_raw_of tenant_newdbname);
            o5 ← txn_op_put db_id_key v5;
            '(succ, _) ← send_txn (txn_new [c1; c2; c3; c4; c5] [o1; o2; o3; o4; o5]);
            mret (if (succ : bool) then Some tt else None)
        end
    end).

Context `{!ChronoOrder ch}.

Definition DEFAULT_DATA_RETENTION_SECONDS : N := 24 * 60 * 60.

Definition get_retention_boundary (now : DateTime) : option DateTime :=
  datetime_minus_secs now DEFAULT_DATA_RETENTION_SECONDS.

Definition is_drop_time_retainable (drop_on : option DateTime) (now : DateTime) : option bool :=
  retention_boundary ← get_retention_boundary now;
  Some (datetime_ltb retention_boundary (default MAX_UTC drop_on)).

(** The databases of one list of ids. *)
Definition history_of_list (ident : DatabaseIdHistoryIdent) (l : DbIdList) (dbs : gmap N DatabaseInfo) :
    Client (gmap N DatabaseInfo) :=
  id_metas ← get_pb_vec ((λ db_id, {| did_db_id := db_id |}) <$> id_list l);
  mret (foldl (λ dbs (x : DatabaseId * option (SeqV DatabaseMeta)),
          match x.2 with
          | None => dbs
          | Some db_meta =>
              <[did_db_id x.1 := {| di_database_id := x.1;
                                    di_name_ident := tident_new (tident_tenant ident) (tident_name ident);
                                    di_meta := db_meta |}]> dbs
          end) dbs id_metas).

Fixpoint history_of_lists (ls : list (DatabaseIdHistoryIdent * SeqV DbIdList)) (dbs : gmap N DatabaseInfo) :
    Client (gmap N DatabaseInfo) :=
  match ls with
  | [] => mret dbs
  | (ident, l) :: ls => dbs ← history_of_list ident (data l) dbs; history_of_lists ls dbs
  end.

(** The filter of the databases that are retained. *)
Fixpoint filter_retainable (include_non_retainable : bool) (now : DateTime) (dbs : list DatabaseInfo) :
    Client (list DatabaseInfo) :=
  match dbs with
  | [] => mret []
  | x :: dbs =>
      keep ← (if include_non_retainable then mret true
              else match is_drop_time_retainable (dm_drop_on (data (di_meta x))) now with
                   | Some b => mret b
                   | None => Done CPanic
                   end);
      rest ← filter_retainable include_non_retainable now dbs;
      mret (if (keep : bool) then x :: rest else rest)
  end.

Definition get_tenant_history_databases (now : DateTime) (t : Tenant) (include_non_retainable : bool) :
    Client (list DatabaseInfo) :=
  let name_ident : DatabaseIdHistoryIdent := tident_new t "dummy" in
  name_idlists ← list_pb_vec (dir_name_new name_ident);
  dbs ← history_of_lists name_idlists ∅;
  list_dbs ← list_databases t;
  let dbs := foldl (λ dbs x, match dbs !! did_db_id (di_database_id x) with
                             | Some _ => dbs
                             | None => <[did_db_id (di_database_id x) := x]> dbs
                             end) dbs list_dbs in
  filter_retainable include_non_retainable now (snd <$> btree_iter dbs).
End schema_api.
