(* ===== verification/DatabaseProofs.v ===== *)
(** The integrity of the records of databases, and that the operations of
    [Database] keep it. *)

From stdpp Require Import base orders sorting strings gmap numbers list relations.
From S2P Require Import Prelude BTree RustStr External ExpireKey MetaTypes Marked MapApi Level StateMap.
From S2P Require Import Txn StateMachine Applier ApplierSpec StateMachineProofs ApplierProofs ApplyProofs.
From S2P Require Import SpecFacts Replica SMV003 KeyCodec KeyCodecProofs AppKeys AppKeysProofs KVApi ProtoConv MetaApi.
From S2P Require Import ClientProofs ServeProofs IdProofs KvProtocol DatabaseTypes Database.
Local Open Scope N_scope.

(** ** Keys *)

#[export] Instance database_name_eq_dec : EqDecision DatabaseNameIdent.
Proof. intros [[t1] n1] [[t2] n2]. refine (cast_if_and (decide (t1 = t2)) (decide (n1 = n2))); congruence. Defined.

Inductive DbKey := KName (a : DatabaseNameIdent) | KList (a : DatabaseNameIdent) | KMeta (n : N) | KBack (n : N).
#[export] Instance DbKey_eq_dec : EqDecision DbKey.
Proof. solve_decision. Defined.

Definition db_key_ok (x : DbKey) : Prop :=
  match x with KName a | KList a => key_ok a | KMeta n | KBack n => n < u64_mod end.

Definition key_of (x : DbKey) : string :=
  join_with slash (match x with
    | KName a => full_segs a
    | KList a => full_segs (history_ident a)
    | KMeta n => full_segs {| did_db_id := n |}
    | KBack n => full_segs {| ditn_db_id := n |}
    end).
Definition database_gen : string := "__fd_id_gen/database_id".

Lemma db_prefix_ok :
  prefix_ok (KEY_PREFIX DatabaseNameIdent) ∧ prefix_ok (KEY_PREFIX DatabaseIdHistoryIdent) ∧
  prefix_ok (KEY_PREFIX DatabaseId) ∧ prefix_ok (KEY_PREFIX DatabaseIdToName).
Proof. split_and!; (split; [done|]; by vm_compute). Qed.

Lemma name_string a : key_ok a → to_string_key a = KOk (key_of (KName a)).
Proof. apply to_string_key_eq, db_prefix_ok. Qed.
Lemma list_string a : key_ok a → to_string_key (history_ident a) = KOk (key_of (KList a)).
Proof. intros Ha. apply (to_string_key_eq (K := DatabaseIdHistoryIdent)); [apply db_prefix_ok|exact Ha]. Qed.
Lemma meta_string n : n < u64_mod → to_string_key {| did_db_id := n |} = KOk (key_of (KMeta n)).
Proof. intros Hn. apply (to_string_key_eq (K := DatabaseId)); [apply db_prefix_ok|exact Hn]. Qed.
Lemma back_string n : n < u64_mod → to_string_key {| ditn_db_id := n |} = KOk (key_of (KBack n)).
Proof. intros Hn. apply (to_string_key_eq (K := DatabaseIdToName)); [apply db_prefix_ok|exact Hn]. Qed.

(** The first segment of a key is its prefix. *)
Definition prefix_of (x : DbKey) : string :=
  match x with
  | KName _ => KEY_PREFIX DatabaseNameIdent
  | KList _ => KEY_PREFIX DatabaseIdHistoryIdent
  | KMeta _ => KEY_PREFIX DatabaseId
  | KBack _ => KEY_PREFIX DatabaseIdToName
  end.
Lemma key_of_head x : db_key_ok x → head (split_on slash (key_of x)) = Some (prefix_of x).
Proof.
  intros Hx. destruct db_prefix_ok as (H1 & H2 & H3 & H4). unfold key_of. rewrite split_join; [by destruct x|by destruct x|].
  destruct x; (apply full_segment; [done|exact Hx]).
Qed.

Lemma key_of_inj x y : db_key_ok x → db_key_ok y → key_of x = key_of y → x = y.
Proof.
  intros Hx Hy E. destruct db_prefix_ok as (H1 & H2 & H3 & H4).
  pose proof (f_equal (λ k, head (split_on slash k)) E) as Eh. cbn beta in Eh. rewrite !key_of_head in Eh by done.
  destruct x as [a|a|n|n], y as [b|b|m|m]; try discriminate Eh; unfold key_of in E.
  - apply (f_equal (from_str_key (K := DatabaseNameIdent))) in E. rewrite !from_str_key_eq in E by done. congruence.
  - apply (f_equal (from_str_key (K := DatabaseIdHistoryIdent))) in E.
    rewrite !(from_str_key_eq (K := DatabaseIdHistoryIdent)) in E by done. destruct a as [[]], b as [[]]. unfold history_ident, tident_new in E. cbn in E. congruence.
  - apply (f_equal (from_str_key (K := DatabaseId))) in E. rewrite !(from_str_key_eq (K := DatabaseId)) in E by done. congruence.
  - apply (f_equal (from_str_key (K := DatabaseIdToName))) in E.
    rewrite !(from_str_key_eq (K := DatabaseIdToName)) in E by done. congruence.
Qed.

(** The keys of databases; the key of the id generator is not one of them. *)
Definition is_db_key (k : string) : Prop := ∃ x, db_key_ok x ∧ k = key_of x.
Lemma is_db_key_of x : db_key_ok x → is_db_key (key_of x).
Proof. by exists x. Qed.
Lemma gen_not_db_key : ¬ is_db_key database_gen.
Proof. intros (x & Hx & E). apply key_of_head in Hx. rewrite <-E in Hx. by destruct x. Qed.
Lemma gen_string : to_string_key id_generator_database_id = KOk database_gen.
Proof. vm_compute. reflexivity. Qed.

(** ** Integrity *)

Section integrity.
Context {sj : SerdeJson} `{!SerdeJsonLaws sj} {ch : Chrono} `{!ChronoLaws ch}.
Context `{!ProstMessage pb_DatabaseMeta, !ProstLaws pb_DatabaseMeta pb_database_fits}.
Context `{!ProstMessage pb_DbIdList, !ProstLaws pb_DbIdList pb_db_id_list_fits}.
Context `{!ProstMessage pb_TIdent, !ProstLaws pb_TIdent pb_tident_fits}.
Implicit Types (kv : gmap string (SeqV bytes)) (a b : DatabaseNameIdent) (n : N) (o : option N) (l : list N).

(** The records of the name [a]: [o] is the database of the name, and [l] are the
    databases it has had.  Each of them has its record, knows its name, and is
    dropped unless it is the database of the name. *)
Record entry kv a o l : Prop := {
  entry_name : match o with
    | Some n => stored kv (key_of (KName a)) {| did_db_id := n |} ∧ last l = Some n
    | None => kv !! key_of (KName a) = None
    end;
  entry_list : stored kv (key_of (KList a)) {| id_list := l |} ∨ (kv !! key_of (KList a) = None ∧ l = []);
  entry_nodup : NoDup l;
  entry_ids : ∀ n, n ∈ l → ∃ m : DatabaseMeta, stored kv (key_of (KMeta n)) m ∧
    stored kv (key_of (KBack n)) (tident_raw_of a) ∧ (dm_drop_on m = None ↔ o = Some n);
}.

Definition databases kv : Prop := ∀ a, key_ok a → ∃ o l, entry kv a o l.

(** The database is in the list of a name. *)
Definition listed kv n : Prop := ∃ a o l, key_ok a ∧ entry kv a o l ∧ n ∈ l.
Definition keeps_listed kv kv' : Prop := ∀ n, listed kv n → listed kv' n.

Lemma raw_inj a b : tident_raw_of a = tident_raw_of b → a = b.
Proof. destruct a as [[]], b as [[]]. unfold tident_raw_of. cbn. congruence. Qed.

Lemma entry_id_fits kv a o l n : entry kv a o l → n ∈ l → n < u64_mod.
Proof.
  intros He Hn. destruct (entry_list _ _ _ _ He) as [(v & _ & _ & Hd)|[_ ->]]; [|by apply elem_of_nil in Hn].
  apply pb_decode_fits in Hd. by apply (proj1 (Forall_forall _ _) Hd).
Qed.

Lemma entry_last kv a o l n : entry kv a o l → o = Some n → n ∈ l ∧ last l = Some n.
Proof. intros He ->. destruct (entry_name _ _ _ _ He) as [_ Hl]. split; [by apply last_Some_elem_of|done]. Qed.

Lemma absent_stays kv kv' k : stays k kv kv' → kv !! k = None → kv' !! k = None.
Proof. intros [->|[-> _]]; done. Qed.

Lemma entry_stays kv kv' a o l :
  stays (key_of (KName a)) kv kv' → stays (key_of (KList a)) kv kv' →
  (∀ n, n ∈ l → stays (key_of (KMeta n)) kv kv' ∧ stays (key_of (KBack n)) kv kv') →
  entry kv a o l → entry kv' a o l.
Proof.
  intros Hn Hl Hi [H1 H2 H3 H4]. split; [| |done|].
  - destruct o as [n|]; [|by eapply absent_stays]. destruct H1. split; [by apply (stored_stays kv)|done].
  - destruct H2 as [H2|[H2 ->]]; [left; by apply (stored_stays kv)|right; split; [by eapply absent_stays|done]].
  - intros n Hin. destruct (H4 n Hin) as (m & Hm & Hb & Hd), (Hi n Hin). exists m.
    split_and!; [by apply (stored_stays kv)|by apply (stored_stays kv)|apply Hd..].
Qed.

(** Databases [ids] of the names [touched], or new ones, are changed. *)
Lemma databases_step kv kv' (touched : list DatabaseNameIdent) (ids : list N) :
  databases kv →
  (∀ a, key_ok a → a ∉ touched → stays (key_of (KName a)) kv kv' ∧ stays (key_of (KList a)) kv kv') →
  (∀ n, n < u64_mod → n ∉ ids → stays (key_of (KMeta n)) kv kv' ∧ stays (key_of (KBack n)) kv kv') →
  (∀ n a, n ∈ ids → a ∉ touched → ¬ stored kv (key_of (KBack n)) (tident_raw_of a)) →
  (∀ a, a ∈ touched → key_ok a → ∃ o l, entry kv' a o l) →
  (∀ a o l n, a ∈ touched → key_ok a → entry kv a o l → n ∈ l → listed kv' n) →
  databases kv' ∧ keeps_listed kv kv'.
Proof.
  intros HD Hnames Hids Hown Hnew Hlisted.
  assert (∀ a o l, key_ok a → a ∉ touched → entry kv a o l → entry kv' a o l) as Hkeep.
  { intros a o l Ha Hn He. destruct (Hnames a Ha Hn). apply (entry_stays kv); [done..| |done].
    intros n Hin. apply Hids; [by eapply entry_id_fits|]. intros Hin'.
    destruct (entry_ids _ _ _ _ He n Hin) as (m & _ & Hb & _). by apply (Hown n a). }
  split.
  - intros a Ha. destruct (decide (a ∈ touched)) as [Hin|Hn]; [by apply Hnew|].
    destruct (HD a Ha) as (o & l & He). exists o, l. by apply Hkeep.
  - intros n (a & o & l & Ha & He & Hn). destruct (decide (a ∈ touched)) as [Hin|Hnt]; [by eapply Hlisted|].
    exists a, o, l. split_and!; [done|by apply Hkeep|done].
Qed.

#[export] Instance databases_invariant : KvInvariant is_db_key databases keeps_listed.
Proof.
  split.
  - split; [by intros kv n|]. intros kv1 kv2 kv3 H1 H2 n Hn. by apply H2, H1.
  - intros kv kv' HD Hst. apply (databases_step kv kv' [] []); [done|..].
    + intros a Ha _. split; by apply Hst, is_db_key_of.
    + intros n Hn _. split; by apply Hst, is_db_key_of.
    + by intros n a ?%elem_of_nil.
    + by intros a ?%elem_of_nil.
    + by intros a o l n ?%elem_of_nil.
Qed.

(** ** The changes of the operations *)

(** Only the keys [xs] change. *)
Definition same_but (xs : list DbKey) kv kv' : Prop :=
  ∀ y, db_key_ok y → y ∉ xs → kv' !! key_of y = kv !! key_of y.

Lemma same_stays xs kv kv' y : same_but xs kv kv' → db_key_ok y → y ∉ xs → stays (key_of y) kv kv'.
Proof. intros Hs Hy Hn. left. by apply Hs. Qed.

(** The ids of a name that are not touched. *)
Lemma same_ids xs kv kv' a o l n :
  same_but xs kv kv' → entry kv a o l → n ∈ l → KMeta n ∉ xs → KBack n ∉ xs →
  ∃ m : DatabaseMeta, stored kv' (key_of (KMeta n)) m ∧ stored kv' (key_of (KBack n)) (tident_raw_of a) ∧
    (dm_drop_on m = None ↔ o = Some n).
Proof.
  intros Hs He Hn Hm Hb. pose proof (entry_id_fits _ _ _ _ _ He Hn) as Hf.
  destruct (entry_ids _ _ _ _ He n Hn) as (m & H1 & H2 & H3). exists m.
  split_and!; [apply (stored_stays kv); [by eapply same_stays|done]..|done].
Qed.

(** An id belongs to one name. *)
Lemma entry_owner kv a b o l n :
  entry kv a o l → n ∈ l → stored kv (key_of (KBack n)) (tident_raw_of b) → a = b.
Proof.
  intros He Hn Hb. destruct (entry_ids _ _ _ _ He n Hn) as (m & _ & Ha & _).
  by apply raw_inj, (stored_fun kv (key_of (KBack n))).
Qed.

Lemma entry_fun kv a o l o' l' : entry kv a o l → entry kv a o' l' → o = o' ∧ l = l'.
Proof.
  intros [H1 H2 _ _] [H1' H2' _ _]. split.
  - destruct o as [n|], o' as [n'|]; [|destruct H1 as [[]%stored_some _]; congruence|destruct H1' as [[]%stored_some _]; congruence|done].
    destruct H1 as [H1 _], H1' as [H1' _]. pose proof (stored_fun _ _ _ _ H1 H1') as E. congruence.
  - destruct H2 as [H2|[H2 ->]], H2' as [H2'|[H2' ->]]; [|apply stored_some in H2 as []; congruence|apply stored_some in H2' as []; congruence|done].
    pose proof (stored_fun _ _ _ _ H2 H2') as E. congruence.
Qed.

(** A new database [n] for the name [a]; the one it had is dropped. *)
Lemma create_step kv kv' a o l n (m : DatabaseMeta) :
  databases kv → key_ok a → entry kv a o l → n < u64_mod → kv !! key_of (KBack n) = None → dm_drop_on m = None →
  same_but ([KName a; KList a; KMeta n; KBack n] ++ (KMeta <$> option_list o)) kv kv' →
  stored kv' (key_of (KName a)) {| did_db_id := n |} → stored kv' (key_of (KList a)) {| id_list := l ++ [n] |} →
  stored kv' (key_of (KMeta n)) m → stored kv' (key_of (KBack n)) (tident_raw_of a) →
  (∀ x, o = Some x → ∃ m' : DatabaseMeta, stored kv' (key_of (KMeta x)) m' ∧ dm_drop_on m' ≠ None) →
  entry kv' a (Some n) (l ++ [n]) ∧ databases kv' ∧ keeps_listed kv kv'.
Proof.
  intros HD Ha He Hn Hnb Hm Hs Hname Hlist Hmeta Hback Hold.
  assert (n ∉ l) as Hnl.
  { intros Hin. destruct (entry_ids _ _ _ _ He n Hin) as (m0 & _ & Hb & _). apply stored_some in Hb as []. congruence. }
  assert (entry kv' a (Some n) (l ++ [n])) as He'.
  { split; [by rewrite last_snoc|by left|apply NoDup_app; split_and!; [apply He|set_solver|apply NoDup_singleton]|].
    intros x [Hx|Hx]%elem_of_app; [|apply list_elem_of_singleton in Hx as ->; by exists m].
    assert (x ≠ n) as Hxn by congruence. destruct (decide (o = Some x)) as [->|Ho].
    - destruct (Hold x eq_refl) as (m' & Hm' & Hd'). exists m'. split_and!; [done| |split; [done|congruence]].
      destruct (entry_ids _ _ _ _ He x Hx) as (m0 & _ & Hb & _). apply (stored_stays kv); [|done].
      eapply same_stays; [done|by eapply entry_id_fits|]. set_solver.
    - destruct (same_ids _ _ _ _ _ _ x Hs He Hx) as (m0 & H1 & H2 & H3).
      + destruct o as [y|]; set_solver.
      + destruct o as [y|]; set_solver.
      + exists m0. split_and!; [done|done|split; [by intros ?%H3|congruence]]. }
  split; [done|]. apply (databases_step kv kv' [a] (n :: option_list o)); [done|..].
  - intros b Hb Hne. split; (eapply same_stays; [done|done|destruct o; set_solver]).
  - intros x Hx Hne. split; (eapply same_stays; [done|done|destruct o; set_solver]).
  - intros x b Hx Hne Hb. apply Hne, list_elem_of_singleton. apply elem_of_cons in Hx as [->|Hx].
    + apply stored_some in Hb as []. congruence.
    + destruct o as [y|]; cbn in Hx; [apply list_elem_of_singleton in Hx as ->|by apply elem_of_nil in Hx].
      symmetry. eapply entry_owner; [exact He| |exact Hb]. by eapply entry_last.
  - intros b ->%list_elem_of_singleton _. eauto.
  - intros b o' l' x ->%list_elem_of_singleton _ Hb Hx. destruct (entry_fun _ _ _ _ _ _ He Hb) as [_ <-].
    exists a, (Some n), (l ++ [n]). split_and!; [done|done|set_solver].
Qed.

(** The last database of a name becomes its database, or is dropped. *)
Lemma current_step kv kv' a o o' l n (m : DatabaseMeta) :
  databases kv → key_ok a → entry kv a o l → last l = Some n →
  o = None ∨ o = Some n → o' = None ∨ o' = Some n → same_but [KName a; KMeta n] kv kv' →
  match o' with Some _ => stored kv' (key_of (KName a)) {| did_db_id := n |} | None => kv' !! key_of (KName a) = None end →
  stored kv' (key_of (KMeta n)) m → (dm_drop_on m = None ↔ o' = Some n) →
  entry kv' a o' l ∧ databases kv' ∧ keeps_listed kv kv'.
Proof.
  intros HD Ha He Hl Ho Ho' Hs Hname Hmeta Hd. assert (n ∈ l) as Hn by by apply last_Some_elem_of.
  assert (entry kv' a o' l) as He'.
  { split; [by destruct Ho' as [->| ->]| |apply He|].
    - destruct (entry_list _ _ _ _ He) as [Hli|[_ ->]]; [|done]. left.
      apply (stored_stays kv); [|done]. eapply same_stays; [done|done|set_solver].
    - intros x Hx. destruct (decide (x = n)) as [->|Hne].
      + exists m. destruct (entry_ids _ _ _ _ He n Hn) as (m0 & _ & Hb & _). split_and!; [done| |done].
        apply (stored_stays kv); [|done]. eapply same_stays; [done|by eapply entry_id_fits|set_solver].
      + destruct (same_ids _ _ _ _ _ _ x Hs He Hx) as (m0 & H1 & H2 & H3); [set_solver..|].
        exists m0. split_and!; [done|done|]. rewrite H3. destruct Ho as [->| ->], Ho' as [->| ->]; split; congruence. }
  split; [done|]. apply (databases_step kv kv' [a] [n]); [done|..].
  - intros b Hb Hne. split; (eapply same_stays; [done|done|set_solver]).
  - intros x Hx Hne. split; (eapply same_stays; [done|done|set_solver]).
  - intros x b ->%list_elem_of_singleton Hne Hb. apply Hne, list_elem_of_singleton. symmetry.
    by eapply entry_owner; [exact He| |exact Hb].
  - intros b ->%list_elem_of_singleton _. eauto.
  - intros b o1 l1 x ->%list_elem_of_singleton _ Hb Hx. destruct (entry_fun _ _ _ _ _ _ He Hb) as [_ <-].
    by exists a, o', l.
Qed.

(** The database [n] of the name [a] moves to the name [b]. *)
Lemma rename_step kv kv' a b l lb n :
  databases kv → key_ok a → key_ok b → entry kv a (Some n) (l ++ [n]) → entry kv b None lb →
  same_but [KName a; KName b; KList a; KList b; KBack n] kv kv' →
  kv' !! key_of (KName a) = None → stored kv' (key_of (KName b)) {| did_db_id := n |} →
  stored kv' (key_of (KList a)) {| id_list := l |} → stored kv' (key_of (KList b)) {| id_list := lb ++ [n] |} →
  stored kv' (key_of (KBack n)) (tident_raw_of b) →
  (entry kv' a None l ∧ entry kv' b (Some n) (lb ++ [n])) ∧ databases kv' ∧ keeps_listed kv kv'.
Proof.
  intros HD Ha Hb Hea Heb Hs Hna Hnb Hla Hlb Hback.
  assert (a ≠ b) as Hab.
  { intros <-. destruct (entry_fun _ _ _ _ _ _ Hea Heb). congruence. }
  assert (n ∈ l ++ [n]) as Hin by set_solver.
  pose proof (entry_nodup _ _ _ _ Hea) as (Hnd & Hdis & _)%NoDup_app.
  assert (n ∉ l) as Hnl by set_solver.
  assert (n ∉ lb) as Hnlb.
  { intros Hx. destruct (entry_ids _ _ _ _ Hea n Hin) as (m & _ & H & _). apply Hab. symmetry.
    by eapply entry_owner; [exact Heb| |exact H]. }
  assert (entry kv' a None l) as Hea'.
  { split; [done|by left|done|]. intros x Hx. assert (x ≠ n) by congruence.
    destruct (same_ids _ _ _ _ _ _ x Hs Hea) as (m & H1 & H2 & H3); [set_solver..|].
    exists m. split_and!; [done|done|]. rewrite H3. split; congruence. }
  assert (entry kv' b (Some n) (lb ++ [n])) as Heb'.
  { split; [by rewrite last_snoc|by left|apply NoDup_app; split_and!; [apply Heb|set_solver|apply NoDup_singleton]|].
    intros x [Hx|Hx]%elem_of_app.
    - assert (x ≠ n) by congruence. destruct (same_ids _ _ _ _ _ _ x Hs Heb) as (m & H1 & H2 & H3); [set_solver..|].
      exists m. split_and!; [done|done|]. rewrite H3. split; congruence.
    - apply list_elem_of_singleton in Hx as ->. destruct (entry_ids _ _ _ _ Hea n Hin) as (m & H1 & _ & H3).
      exists m. split_and!; [|done|done]. apply (stored_stays kv); [|done].
      eapply same_stays; [done|exact (entry_id_fits _ _ _ _ _ Hea Hin)|set_solver]. }
  split; [done|]. apply (databases_step kv kv' [a; b] [n]); [done|..].
  - intros c Hc Hne. split; (eapply same_stays; [done|done|set_solver]).
  - intros x Hx Hne. split; (eapply same_stays; [done|done|set_solver]).
  - intros x c ->%list_elem_of_singleton Hne Hc. apply Hne.
    rewrite <-(entry_owner _ a c _ _ _ Hea Hin Hc). set_solver.
  - intros c [->|[->|[]%elem_of_nil]%elem_of_cons]%elem_of_cons _; eauto.
  - assert (∀ x, x ∈ l ++ [n] ∨ x ∈ lb → listed kv' x) as Hlisted.
    { intros x Hx. destruct (decide (x ∈ l)); [by exists a, None, l|].
      exists b, (Some n), (lb ++ [n]). split_and!; [done|done|set_solver]. }
    intros c o1 l1 x [->|[->|[]%elem_of_nil]%elem_of_cons]%elem_of_cons _ Hc Hx; apply Hlisted.
    + destruct (entry_fun _ _ _ _ _ _ Hea Hc) as [_ <-]. by left.
    + destruct (entry_fun _ _ _ _ _ _ Heb Hc) as [_ <-]. by right.
Qed.
End integrity.
