(* ===== verification/DatabaseCalls.v ===== *)
(** Concurrent calls of the operations on databases keep the integrity of the
    records. *)

From stdpp Require Import base orders sorting strings gmap numbers list relations.
From S2P Require Import Prelude BTree RustStr External ExpireKey MetaTypes Marked MapApi Level StateMap.
From S2P Require Import Txn StateMachine Applier ApplierSpec StateMachineProofs ApplierProofs ApplyProofs.
From S2P Require Import SpecFacts Replica SMV003 KeyCodec KeyCodecProofs AppKeys AppKeysProofs KVApi ProtoConv MetaApi.
From S2P Require Import ClientProofs ServeProofs IdProofs KvProtocol DatabaseTypes Database DatabaseProofs.
Local Open Scope N_scope.

(** ** Transactions on the keys of databases *)

Definition db_op (e : DbKey * option bytes) : TxnOp :=
  match e.2 with Some b => op_put (key_of e.1) b | None => op_delete (key_of e.1) end.
Definition db_cond (c : DbKey * N) : TxnCondition := cond_eq_seq (key_of c.1) c.2.
Definition db_txn (cs : list (DbKey * N)) (es : list (DbKey * option bytes)) : TxnRequest :=
  txn_new (db_cond <$> cs) (db_op <$> es).

Fixpoint effect_at (x : DbKey) (es : list (DbKey * option bytes)) : option (option bytes) :=
  match es with
  | [] => None
  | (y, b) :: es => match effect_at x es with Some e => Some e | None => if decide (y = x) then Some b else None end
  end.

Lemma effect_last x es :
  db_key_ok x → Forall (λ e, db_key_ok e.1) es → last_effect (key_of x) (db_op <$> es) = effect_at x es.
Proof.
  intros Hx. induction 1 as [|[y b] es Hy _ IH]; [done|]. cbn [fmap list_fmap last_effect effect_at]. rewrite IH.
  destruct (effect_at x es); [done|].
  assert (op_effect (db_op (y, b)) = Some (key_of y, b)) as -> by by destruct b.
  cbn. destruct (decide (y = x)) as [->|Hne]; [by rewrite decide_True|].
  rewrite decide_False; [done|]. intros E. by apply Hne, key_of_inj.
Qed.

Lemma db_op_plain es : plain (db_op <$> es).
Proof. apply Forall_fmap, Forall_true. intros [y []]; by eexists. Qed.

(** What the transaction leaves under the key [x]. *)
Definition written (es : list (DbKey * option bytes)) (kv kv' : gmap string (SeqV bytes)) (x : DbKey) : Prop :=
  match effect_at x es with
  | Some (Some b) => ∃ v, kv' !! key_of x = Some v ∧ lasting v ∧ data v = b
  | Some None => kv' !! key_of x = None
  | None => kv' !! key_of x = kv !! key_of x
  end.

Lemma written_to es kv kv' x :
  Forall (λ e, db_key_ok e.1) es → writes_to (db_op <$> es) kv kv' → db_key_ok x → written es kv kv' x.
Proof. intros Hes Hw Hx. unfold written. rewrite <-effect_last by done. exact (Hw (key_of x)). Qed.

Lemma effect_none x es : x ∉ es.*1 → effect_at x es = None.
Proof.
  induction es as [|[y b] es IH]; [done|]. cbn. intros [Hne Hn]%not_elem_of_cons. rewrite IH by done.
  by rewrite decide_False.
Qed.

(** A put and a deletion that no later operation undoes. *)
Lemma written_put {V} `{!FromToProto V} es1 es2 kv kv' x b (y : V) :
  written (es1 ++ (x, Some b) :: es2) kv kv' x → x ∉ es2.*1 → decode_pb b = Some y → stored kv' (key_of x) y.
Proof.
  assert (∀ es, x ∉ es2.*1 → effect_at x (es ++ (x, Some b) :: es2) = Some (Some b)) as He.
  { intros es Hn. induction es as [|[z c] es IH]; cbn; [|by rewrite IH]. by rewrite effect_none, decide_True. }
  unfold written. intros Hw Hn Hd. rewrite He in Hw by done. destruct Hw as (v & Hv & Hl & Hb).
  by eapply stored_written.
Qed.
Lemma written_delete es1 es2 kv kv' x :
  written (es1 ++ (x, None) :: es2) kv kv' x → x ∉ es2.*1 → kv' !! key_of x = None.
Proof.
  assert (∀ es, x ∉ es2.*1 → effect_at x (es ++ (x, None) :: es2) = Some None) as He.
  { intros es Hn. induction es as [|[z c] es IH]; cbn; [|by rewrite IH]. by rewrite effect_none, decide_True. }
  unfold written. intros Hw Hn. by rewrite He in Hw.
Qed.
Lemma written_same es kv kv' : (∀ x, db_key_ok x → written es kv kv' x) → same_but es.*1 kv kv'.
Proof. intros Hw x Hx Hn. specialize (Hw x Hx). unfold written in Hw. by rewrite effect_none in Hw. Qed.

(** The keys of a list of operations. *)
Ltac keys_ok := repeat (apply Forall_cons; split; [done|]); by apply Forall_nil.

(** Run a client up to the transaction it sends. *)
Ltac client_binds := cbn [mbind Client_bind client_bind mret Client_ret key_str request reply_result].

Section calls.
Context {raft : OpenRaft} {sj : SerdeJson} `{!SerdeJsonLaws sj} {ch : Chrono} `{!ChronoLaws ch}.
Context `{!ProstMessage pb_DatabaseMeta, !ProstLaws pb_DatabaseMeta pb_database_fits}.
Context `{!ProstMessage pb_DbIdList, !ProstLaws pb_DbIdList pb_db_id_list_fits}.
Context `{!ProstMessage pb_TIdent, !ProstLaws pb_TIdent pb_tident_fits}.
Implicit Types (kv : gmap string (SeqV bytes)) (a : DatabaseNameIdent) (st : Spec) (T : gset N).

Lemma meta_roundtrip (m : DatabaseMeta) : ∃ x, encode_pb m = Some x ∧ decode_pb x = Some m.
Proof. by apply pb_roundtrip. Qed.
Lemma raw_roundtrip a : ∃ x, encode_pb (tident_raw_of a) = Some x ∧ decode_pb x = Some (tident_raw_of a).
Proof. by apply pb_roundtrip. Qed.
Lemma list_roundtrip l : Forall (λ n, n < u64_mod) (id_list l) → ∃ x, encode_pb l = Some x ∧ decode_pb x = Some l.
Proof. intros Hl. by apply pb_roundtrip. Qed.
Lemma id_decode n : n < u64_mod → decode_pb (serialize_u64 n) = Some {| did_db_id := n |}.
Proof.
  intros Hn. destruct (pb_roundtrip {| did_db_id := n |}) as (x & Hx & Hd); [done|]. by injection Hx as <-.
Qed.

Inductive DbResult := DbCreated (id : DatabaseId) | DbDropped (id : N) | DbUndropped | DbRenamed.

Definition db_protocol : Protocol DbResult := kv_protocol databases keeps_listed.
Abbreviation db_rely := (kv_rely keeps_listed).
Abbreviation db_safe := (safe db_protocol).

Lemma db_safe_txn cs es (f : TxnReply + MetaError → Client DbResult) T st :
  Forall (λ e, db_key_ok e.1) es → recovers databases keeps_listed f →
  (∀ st1 kv kv', db_rely st st1 → Inv st1 → (∀ k, stays k (sp_kv st1) kv) → databases kv →
    Forall (λ c, opt_seq (kv !! key_of c.1) = c.2) cs → (∀ x, db_key_ok x → written es kv kv' x) →
    databases kv' ∧ keeps_listed kv kv') →
  (∀ st2 reply, reply_error reply = "" → db_safe (f (inl reply)) T st2) →
  db_safe (Call (ReqTransaction (db_txn cs es)) f) T st.
Proof.
  intros Hes He Hw Hf.
  assert (db_txn cs es = txn_new ((λ c, cond_eq_seq c.1 c.2) <$> ((λ c, (key_of c.1, c.2)) <$> cs)) (db_op <$> es)) as ->.
  { unfold db_txn. by rewrite <-list_fmap_compose. }
  apply (kv_safe_txn is_db_key databases keeps_listed); [apply db_op_plain|done| |done].
  intros st1 kv kv' Hr HI Hst HD Hc Hwr. apply (Hw st1 kv kv'); [done..| |].
  - by apply Forall_fmap in Hc.
  - intros x Hx. by apply written_to.
Qed.

(** ** What the versions in a transaction say *)

Lemma versions_name st kv a o l (sid : SeqV DatabaseId) :
  known st (key_of (KName a)) sid → (∀ k, stays k (sp_kv st) kv) → entry kv a o l →
  opt_seq (kv !! key_of (KName a)) = seq sid → o = Some (did_db_id (data sid)).
Proof.
  intros Hk Hst He Hs. destruct (known_same _ _ _ _ Hk (Hst _) Hs) as (v & Hv & Hd).
  destruct o as [n|]; [|pose proof (entry_name _ _ _ _ He); congruence].
  destruct (entry_name _ _ _ _ He) as [Hn _]. pose proof (stored_read _ _ _ _ _ Hn Hv Hd) as <-. done.
Qed.
Lemma versions_no_name st kv a o l :
  Inv st → (∀ k, stays k (sp_kv st) kv) → entry kv a o l → opt_seq (kv !! key_of (KName a)) = 0 → o = None.
Proof.
  intros HI Hst He Hs. apply (version_zero st) in Hs; [|done..]. destruct o as [n|]; [|done].
  destruct (entry_name _ _ _ _ He) as [[]%stored_some _]. congruence.
Qed.

(** The list as it was read, empty if there was none. *)
Definition known_list st a (o : option (SeqV DbIdList)) : Prop :=
  match o with Some sl => known st (key_of (KList a)) sl | None => True end.
Lemma known_list_mono st st' a o : evolves st st' → known_list st a o → known_list st' a o.
Proof. intros Hev. destruct o; [by apply known_mono|done]. Qed.
Lemma read_known_list st a o : Inv st → read_at st (key_of (KList a)) o → known_list st a o.
Proof. intros HI Ho. destruct o as [sl|]; [|done]. by eapply read_known. Qed.

Lemma versions_list st kv a o l (ol : option (SeqV DbIdList)) :
  Inv st → known_list st a ol → (∀ k, stays k (sp_kv st) kv) → entry kv a o l →
  opt_seq (kv !! key_of (KList a)) = opt_seq ol → id_list (default db_id_list_new (opt_value ol)) = l.
Proof.
  intros HI Hk Hst He Hs. destruct ol as [sl|].
  - destruct (known_same _ _ _ _ Hk (Hst _) Hs) as (v & Hv & Hd).
    destruct (entry_list _ _ _ _ He) as [Hl|[? _]]; [|congruence].
    cbn. by rewrite <-(stored_read _ _ _ _ _ Hl Hv Hd).
  - apply (version_zero st) in Hs; [|done..].
    destruct (entry_list _ _ _ _ He) as [[]%stored_some|[_ ->]]; [congruence|done].
Qed.

(** The record of a database in a list. *)
Lemma versions_meta st kv a o l n (sm : SeqV DatabaseMeta) :
  known st (key_of (KMeta n)) sm → (∀ k, stays k (sp_kv st) kv) → entry kv a o l → n ∈ l →
  opt_seq (kv !! key_of (KMeta n)) = seq sm → dm_drop_on (data sm) = None ↔ o = Some n.
Proof.
  intros Hk Hst He Hn Hs. destruct (known_same _ _ _ _ Hk (Hst _) Hs) as (v & Hv & Hd).
  destruct (entry_ids _ _ _ _ He n Hn) as (m & Hm & _ & Hdrop). by rewrite <-(stored_read _ _ _ _ _ Hm Hv Hd).
Qed.

(** ** Looking a database up *)

Lemma db_safe_lookup a (G : SeqV DatabaseId * SeqV DatabaseMeta + ApiError → Client DbResult) T st :
  key_ok a →
  (∀ e, (∀ x, G (inr e) ≠ Done (COk x)) ∧ ∀ T st, db_safe (G (inr e)) T st) →
  (∀ st1 sid sm, db_rely st st1 → did_db_id (data sid) < u64_mod → read_since st st1 (key_of (KName a)) sid →
    known st1 (key_of (KMeta (did_db_id (data sid)))) sm → db_safe (G (inl (sid, sm))) T st1) →
  db_safe (client_bind G (try_client (get_db_or_err a))) T st.
Proof.
  intros Ha He HG. unfold get_db_or_err, get_pb. rewrite (name_string a Ha). client_run. cbn [try_client]. client_run.
  apply (kv_safe_read is_db_key databases keeps_listed); [intros e; apply He|].
  intros st1 now1 Hr1 HI1 HD1 Hnow1. client_run. unfold stream_item. cbn [si_value].
  pose proof (read_decode (V := DatabaseId) st1 (key_of (KName a)) now1 Hnow1) as Hread1.
  destruct (non_expired _ now1) as [v|]; client_run; cbn [try_client]; client_run; [|apply He].
  destruct (decode_seqv (SeqV_of_pb (pb_SeqV_of v))) as [[sq mt [n]]|]; client_run; cbn [try_client]; client_run; [|apply He].
  assert (n < u64_mod) as Hn.
  { destruct Hread1 as (w & _ & _ & Hd). exact (pb_decode_fits _ _ Hd). }
  rewrite (meta_string n Hn). client_run. cbn [try_client]. client_run.
  apply (kv_safe_read is_db_key databases keeps_listed); [intros e; apply He|].
  intros st2 now2 Hr2 HI2 HD2 Hnow2. client_run. unfold stream_item. cbn [si_value].
  pose proof (read_decode (V := DatabaseMeta) st2 (key_of (KMeta n)) now2 Hnow2) as Hread2.
  destruct (non_expired _ now2) as [w|]; client_run; cbn [try_client]; client_run; [|apply He].
  destruct (decode_seqv (SeqV_of_pb (pb_SeqV_of w))) as [sm|]; client_run; cbn [try_client]; client_run; [|apply He].
  apply HG; [by etrans|done| |].
  - exists st1. split_and!; [apply Hr1|apply Hr2|done|exact Hread1].
  - exact (read_known st2 st2 _ _ HI2 (reflexivity _) Hread2).
Qed.

(** ** Dropping *)

(** The conditions and operations of [drop_database_meta]; [extra] is a new list of
    ids, if there was none. *)
Definition drop_conds a (drop_name : bool) (sid : SeqV DatabaseId) (sm : SeqV DatabaseMeta) (extra : option bytes) :
    list (DbKey * N) :=
  (if drop_name then [(KName a, seq sid)] else []) ++ (KMeta (did_db_id (data sid)), seq sm) ::
  match extra with Some _ => [(KList a, 0)] | None => [] end.
Definition drop_effects a (drop_name : bool) (sid : SeqV DatabaseId) (bm : bytes) (extra : option bytes) :
    list (DbKey * option bytes) :=
  (if drop_name then [(KName a, None)] else []) ++ (KMeta (did_db_id (data sid)), Some bm) ::
  match extra with Some bl => [(KList a, Some bl)] | None => [] end.

Lemma drop_meta_safe now a if_exists drop_name (G : N * TxnRequest → Client DbResult) T st :
  key_ok a →
  (if_exists = true → (∀ x, G (0, txn_default) ≠ Done (COk x)) ∧ ∀ T st, db_safe (G (0, txn_default)) T st) →
  (∀ st1 sid sm bm extra, db_rely st st1 → did_db_id (data sid) < u64_mod → read_since st st1 (key_of (KName a)) sid →
    known st1 (key_of (KMeta (did_db_id (data sid)))) sm → dm_drop_on (data sm) = None →
    decode_pb bm = Some (set_drop_on (Some now) (data sm)) →
    db_safe (G (did_db_id (data sid), db_txn (drop_conds a drop_name sid sm extra) (drop_effects a drop_name sid bm extra))) T st1) →
  db_safe (client_bind G (drop_database_meta now a if_exists drop_name txn_default)) T st.
Proof.
  intros Ha HE HG. unfold drop_database_meta. apply safe_assoc, db_safe_lookup; [done| |].
  { intros e. destruct e as [e| |[]|e]; try done. destruct if_exists; [by apply HE|done]. }
  intros st1 [sq mt [n]] sm Hr Hn Hsid Hsm. cbn [data did_db_id seq] in *.
  assert (∃ t, (if drop_name then
      c ← txn_cond_seq a CEq sq; o ← txn_op_del a; mret (push_ops [o] (push_cond c txn_default))
    else mret txn_default) = mret t ∧ t = db_txn (if drop_name then [(KName a, sq)] else [])
      (if drop_name then [(KName a, None)] else [])) as (t & -> & ->).
  { destruct drop_name; [|by eexists]. unfold txn_cond_seq, txn_op_del. rewrite (name_string a Ha). by eexists. }
  client_run. destruct (dm_drop_on (data sm)) as [d|] eqn:Ed; cbn [is_none negb]; [done|].
  unfold txn_cond_seq, txn_op_put, serialize_struct. rewrite (meta_string n Hn). client_run.
  destruct (meta_roundtrip (set_drop_on (Some now) (data sm))) as (bm & -> & Hbm). client_run.
  unfold get_pb_seq_and_value. do 2 apply safe_assoc.
  apply (kv_safe_get is_db_key databases keeps_listed _ _ _ _ _ (list_string a Ha)).
  intros st2 o Hr2 HI2 HD2 Ho. client_run. destruct o as [sl|]; cbn [opt_value fmap option_fmap option_map is_none opt_seq].
  - destruct (N.eqb_spec (seq sl) 0) as [Hz|_].
    { destruct Ho as (v & Hv & Hs & _). pose proof (inv_positive st2 HI2 _ v Hv). lia. }
    cbn [orb]. client_run. specialize (HG st2 (mk_SeqV sq mt {| did_db_id := n |}) sm bm None).
    destruct Hr2 as [Hev2 ?]. assert (db_rely st1 st2) by done.
    destruct drop_name; apply HG; (done || by etrans || by eapply known_mono || by eapply read_since_mono).
  - cbn [N.eqb orb]. rewrite (list_string a Ha). client_run.
    destruct (encode_pb (db_id_list_append n db_id_list_new)) as [bl|]; client_run; [|done].
    specialize (HG st2 (mk_SeqV sq mt {| did_db_id := n |}) sm bm (Some bl)).
    destruct Hr2 as [Hev2 ?]. assert (db_rely st1 st2) by done.
    destruct drop_name; apply HG; (done || by etrans || by eapply known_mono || by eapply read_since_mono).
Qed.

(** The end of a trial: a transaction that keeps the integrity. *)
Lemma txn_finish_safe {X} (F : option X → Client DbResult) (x : X) cs es T st :
  (∀ T st, db_safe (F (Some x)) T st) → (∀ T st, db_safe (F None) T st) → Forall (λ e, db_key_ok e.1) es →
  (∀ st1 kv kv', db_rely st st1 → Inv st1 → (∀ k, stays k (sp_kv st1) kv) → databases kv →
    Forall (λ c, opt_seq (kv !! key_of c.1) = c.2) cs → (∀ x, db_key_ok x → written es kv kv' x) →
    databases kv' ∧ keeps_listed kv kv') →
  db_safe (client_bind F ('(succ, _) ← send_txn (db_txn cs es); mret (if (succ : bool) then Some x else None))) T st.
Proof.
  intros HS HN Hes Hw. client_run. apply db_safe_txn; [done|intros e; by split|done|].
  intros st2 reply He. client_run. unfold txn_reply_to_api_result. rewrite He. client_run.
  by destruct (reply_success reply).
Qed.

(** A transaction that does nothing. *)
Lemma written_nothing kv kv' :
  databases kv → (∀ x, db_key_ok x → written [] kv kv' x) → databases kv' ∧ keeps_listed kv kv'.
Proof. intros HD Hw. apply (kv_stays (D := is_db_key)); [done|]. intros k (x & Hx & ->). left. exact (Hw x Hx). Qed.

(** The two records that dropping and undropping write. *)
Lemma drop_written kv kv' a l n (m : DatabaseMeta) bm :
  databases kv → key_ok a → n < u64_mod → entry kv a (Some n) l → decode_pb bm = Some m → dm_drop_on m ≠ None →
  (∀ x, db_key_ok x → written [(KName a, None); (KMeta n, Some bm)] kv kv' x) →
  (entry kv' a None l ∧ stored kv' (key_of (KMeta n)) m) ∧ databases kv' ∧ keeps_listed kv kv'.
Proof.
  intros HD Ha Hn He Hbm Hm Hw. destruct (entry_last _ _ _ _ n He eq_refl) as [_ Hlast].
  assert (stored kv' (key_of (KMeta n)) m) as Hmeta.
  { apply (written_put [(KName a, None)] [] kv kv' (KMeta n) bm); [by apply Hw|apply not_elem_of_nil|exact Hbm]. }
  destruct (current_step kv kv' a (Some n) None l n m) as (He' & H);
    [done..|by right|by left|exact (written_same _ _ _ Hw)| |done|by split|by split].
  apply (written_delete [] [(KMeta n, Some bm)] kv kv' (KName a)); [by apply Hw|]. cbn. set_solver.
Qed.
Lemma undrop_written kv kv' a l n (m : DatabaseMeta) bm :
  databases kv → key_ok a → n < u64_mod → entry kv a None l → last l = Some n → decode_pb bm = Some m → dm_drop_on m = None →
  (∀ x, db_key_ok x → written [(KName a, Some (serialize_u64 n)); (KMeta n, Some bm)] kv kv' x) →
  (entry kv' a (Some n) l ∧ stored kv' (key_of (KMeta n)) m) ∧ databases kv' ∧ keeps_listed kv kv'.
Proof.
  intros HD Ha Hn He Hlast Hbm Hm Hw. assert (stored kv' (key_of (KMeta n)) m) as Hmeta.
  { apply (written_put [(KName a, Some (serialize_u64 n))] [] kv kv' (KMeta n) bm); [by apply Hw|apply not_elem_of_nil|exact Hbm]. }
  destruct (current_step kv kv' a None (Some n) l n m) as (He' & H);
    [done..|by left|by right|exact (written_same _ _ _ Hw)| |done|by split|by split].
  apply (written_put [] [(KMeta n, Some bm)] kv kv' (KName a) (serialize_u64 n)); [by apply Hw|cbn; set_solver|].
  by apply id_decode.
Qed.

Lemma dropped_step kv kv' st a sid sm bm extra now :
  databases kv → key_ok a → Inv st → (∀ k, stays k (sp_kv st) kv) →
  known st (key_of (KName a)) sid → known st (key_of (KMeta (did_db_id (data sid)))) sm →
  decode_pb bm = Some (set_drop_on (Some now) (data sm)) →
  Forall (λ c, opt_seq (kv !! key_of c.1) = c.2) (drop_conds a true sid sm extra) →
  (∀ x, db_key_ok x → written (drop_effects a true sid bm extra) kv kv' x) →
  databases kv' ∧ keeps_listed kv kv'.
Proof.
  intros HD Ha HI Hst Hsid Hsm Hbm Hc Hw. destruct (HD a Ha) as (o & l & He).
  apply Forall_cons in Hc as [Hname [Hmeta Hextra]%Forall_cons]. cbn [fst snd] in *.
  pose proof (versions_name _ _ _ _ _ _ Hsid Hst He Hname) as ->. set (n := did_db_id (data sid)) in *.
  destruct (entry_last _ _ _ _ n He eq_refl) as [Hin Hlast]. pose proof (entry_id_fits _ _ _ _ _ He Hin) as Hn.
  destruct extra as [bl|].
  { apply Forall_cons in Hextra as [Hz _]. cbn [fst snd] in Hz.
    pose proof (versions_list st kv a _ l None HI I Hst He Hz) as <-. by apply elem_of_nil in Hin. }
  by eapply drop_written.
Qed.

Lemma drop_safe utc_now req T st :
  key_ok (dd_name_ident req) → db_safe (x ← drop_database utc_now req; mret (DbDropped x)) T st.
Proof.
  intros Ha. apply safe_bind_trials. clear T st. intros F j T st HF HN. apply safe_assoc, drop_meta_safe; [done| |].
  - intros _. split; [done|]. clear T st. intros T st.
    apply (txn_finish_safe F 0 [] []); [by intros; rewrite HF|done|done|].
    intros st1 kv kv' _ _ _ HD _ Hw. by apply written_nothing.
  - intros st1 sid sm bm extra Hr Hn Hsid Hsm Hd Hbm. cbn beta iota.
    apply txn_finish_safe; [by intros; rewrite HF|done| |].
    + destruct extra; keys_ok.
    + intros st2 kv kv' [Hev _] HI Hst HD Hc Hw.
      apply read_since_known in Hsid. by eapply dropped_step; [..|eapply known_mono|eapply known_mono| | |].
Qed.

(** ** Undropping *)

(** The last database of a list that was read. *)
Lemma read_last st a (sl : SeqV DbIdList) n :
  databases (sp_kv st) → key_ok a → read_at st (key_of (KList a)) (Some sl) → db_id_list_last (data sl) = Some n →
  n < u64_mod ∧ listed (sp_kv st) n.
Proof.
  intros HD Ha (v & Hv & _ & Hd) Hl. destruct (HD a Ha) as (o & l & He).
  destruct (entry_list _ _ _ _ He) as [Hst|[? _]]; [|congruence].
  rewrite <-(stored_read _ _ _ _ _ Hst Hv Hd) in Hl. apply last_Some_elem_of in Hl.
  split; [by eapply entry_id_fits|]. by exists a, o, l.
Qed.

(** A database in a list has its record. *)
Lemma read_listed st n (o : option (SeqV DatabaseMeta)) :
  databases (sp_kv st) → listed (sp_kv st) n → read_at st (key_of (KMeta n)) o → is_Some o.
Proof.
  intros HD (a & oa & l & Ha & He & Hn) Hr. destruct o as [sm|]; [by eexists|].
  destruct (entry_ids _ _ _ _ He n Hn) as (m & (v & Hv & Hl & _) & _). by destruct (Hr v Hv).
Qed.

Lemma undropped_step kv kv' st a (sl : SeqV DbIdList) n (m : DatabaseMeta) bm :
  databases kv → key_ok a → Inv st → (∀ k, stays k (sp_kv st) kv) →
  known st (key_of (KList a)) sl → db_id_list_last (data sl) = Some n → n < u64_mod →
  decode_pb bm = Some (set_drop_on None m) →
  opt_seq (kv !! key_of (KName a)) = 0 → opt_seq (kv !! key_of (KList a)) = seq sl →
  (∀ x, db_key_ok x → written [(KName a, Some (serialize_u64 n)); (KMeta n, Some bm)] kv kv' x) →
  databases kv' ∧ keeps_listed kv kv'.
Proof.
  intros HD Ha HI Hst Hsl Hlast Hn Hbm Hc1 Hc2 Hw. destruct (HD a Ha) as (o & l & He).
  pose proof (versions_no_name _ _ _ _ _ HI Hst He Hc1) as ->.
  pose proof (versions_list st kv a None l (Some sl) HI Hsl Hst He Hc2) as Hl. cbn in Hl. subst l.
  by eapply undrop_written.
Qed.

Lemma undrop_safe req T st :
  key_ok (ud_name_ident req) → db_safe (_ ← undrop_database req; mret DbUndropped) T st.
Proof.
  intros Ha. apply safe_bind_trials. clear T st. intros F j T st HF HN. apply safe_assoc, db_safe_lookup; [done| |done].
  intros e. split.
  { intros x. unfold get_pb. rewrite (list_string _ Ha). by client_run. }
  clear T st. intros T st. set (a := ud_name_ident req) in *. apply safe_assoc.
  apply (kv_safe_get is_db_key databases keeps_listed _ _ _ _ _ (list_string a Ha)).
  intros st1 ol Hr1 HI1 HD1 Hol. destruct ol as [sl|]; [|done].
  destruct (db_id_list_last (data sl)) as [n|] eqn:Hlast; [|done].
  destruct (read_last st1 a sl n HD1 Ha Hol Hlast) as [Hn Hlisted]. apply safe_assoc.
  apply (kv_safe_get is_db_key databases keeps_listed _ _ _ _ _ (meta_string n Hn)).
  intros st2 om Hr2 HI2 HD2 Hom. destruct (read_listed st2 n om HD2) as [sm ->]; [by apply Hr2|done|].
  cbn [opt_value fmap option_fmap option_map]. destruct (dm_drop_on (data sm)) eqn:Ed; cbn [is_none]; [|done].
  unfold txn_cond_seq, txn_op_put, serialize_struct. rewrite (name_string a Ha), (list_string a Ha), (meta_string n Hn).
  destruct (meta_roundtrip (set_drop_on None (data sm))) as (bm & -> & Hbm).
  apply (txn_finish_safe F tt [(KName a, 0); (KList a, seq sl); (KMeta n, seq sm)]
    [(KName a, Some (serialize_u64 n)); (KMeta n, Some bm)]); [by intros; rewrite HF|done|keys_ok|].
  intros st3 kv kv' [Hev3 _] HI3 Hst HD [Hc1 [Hc2 _]%Forall_cons]%Forall_cons Hw.
  eapply undropped_step; [done|done|done|done| |done|done|done|done|done|done].
  eapply read_known; [exact HI1| |exact Hol]. etrans; [apply Hr2|done].
Qed.

(** ** Creating *)

(** The operations that drop the database that the name had. *)
Definition old_effects (o : option N) (es : list (DbKey * option bytes)) : Prop :=
  match o with
  | None => es = []
  | Some x => ∃ bm (m : DatabaseMeta), es = [(KMeta x, Some bm)] ∧ decode_pb bm = Some m ∧ dm_drop_on m ≠ None
  end.

Lemma created_step kv kv' a o l n (m : DatabaseMeta) es0 b2 b3 b4 :
  databases kv → key_ok a → n < u64_mod → entry kv a o l → old_effects o es0 →
  kv !! key_of (KBack n) = None → dm_drop_on m = None → decode_pb b2 = Some m →
  decode_pb b3 = Some {| id_list := l ++ [n] |} → decode_pb b4 = Some (tident_raw_of a) →
  (∀ x, db_key_ok x → written (es0 ++ [(KName a, Some (serialize_u64 n)); (KMeta n, Some b2); (KList a, Some b3);
    (KBack n, Some b4)]) kv kv' x) →
  entry kv' a (Some n) (l ++ [n]) ∧ databases kv' ∧ keeps_listed kv kv'.
Proof.
  intros HD Ha Hn He Hold Hback Hm Hb2 Hb3 Hb4 Hw.
  assert (∀ x, o = Some x → x ≠ n ∧ x < u64_mod) as Hx.
  { intros x Ho. destruct (entry_last _ _ _ _ x He Ho) as [Hin _]. split; [|by eapply entry_id_fits].
    intros ->. destruct (entry_ids _ _ _ _ He n Hin) as (? & _ & []%stored_some & _). congruence. }
  apply (create_step kv kv' a o l n m); [done..| | | | | |].
  - intros y Hy Hny. apply (written_same _ _ _ Hw y Hy). rewrite fmap_app. cbn.
    destruct o as [x|]; [destruct Hold as (bm & m' & -> & _)|cbn in Hold; subst es0]; set_solver.
  - eapply (written_put es0 [_; _; _] kv kv' (KName a)); [by apply (Hw (KName a))|set_solver|by apply id_decode].
  - eapply (written_put (es0 ++ [_; _]) [_] kv kv' (KList a)); [rewrite <-app_assoc; by apply (Hw (KList a))|set_solver|done].
  - eapply (written_put (es0 ++ [_]) [_; _] kv kv' (KMeta n)); [rewrite <-app_assoc; by apply (Hw (KMeta n))|set_solver|done].
  - eapply (written_put (es0 ++ [_; _; _]) [] kv kv' (KBack n)); [rewrite <-app_assoc; by apply (Hw (KBack n))|set_solver|done].
  - intros x ->. destruct Hold as (bm & m' & -> & Hd & Hm'), (Hx x eq_refl). exists m'. split; [|done].
    eapply (written_put [] [_; _; _; _] kv kv' (KMeta x)); [by apply (Hw (KMeta x))|set_solver|done].
Qed.

Lemma create_rest_safe req curr_seq cs0 es0 (F : option DatabaseId → Client DbResult) T st :
  let a := cd_name_ident req in
  key_ok a → dm_drop_on (cd_meta req) = None → Forall (λ e, db_key_ok e.1) es0 →
  (∀ st1 kv, db_rely st st1 → Inv st1 → (∀ k, stays k (sp_kv st1) kv) → databases kv →
    Forall (λ c, opt_seq (kv !! key_of c.1) = c.2) cs0 → opt_seq (kv !! key_of (KName a)) = curr_seq →
    ∃ o l, entry kv a o l ∧ old_effects o es0) →
  (∀ id T st, db_safe (F (Some id)) T st) → (∀ T st, db_safe (F None) T st) →
  db_safe (client_bind F (create_with_db_id req curr_seq (db_txn cs0 es0))) T st.
Proof.
  intros a Ha Hm Hes0 Hold HS HN. unfold create_with_db_id. fold a. apply safe_assoc.
  apply (kv_safe_get is_db_key databases keeps_listed _ _ _ _ _ (list_string a Ha)).
  intros st1 ol Hr1 HI1 HD1 Hol. apply (read_known_list st1 a ol HI1) in Hol.
  unfold fetch_id. rewrite gen_string. client_binds.
  apply (kv_safe_update is_db_key databases keeps_listed); [exact gen_not_db_key|done|].
  intros st2 st3 res v Hr2 Hr3 Hres Hn. client_binds. rewrite Hres. client_binds. set (n := seq v) in *.
  set (l := default db_id_list_new (opt_value ol)).
  assert (Forall (λ n, n < u64_mod) (id_list l)) as Hl.
  { unfold l. destruct ol as [sl|]; [|constructor]. destruct Hol as (w & _ & _ & Hd). exact (pb_decode_fits _ _ Hd). }
  unfold txn_cond_seq, txn_op_put, serialize_struct.
  rewrite (name_string a Ha), (list_string a Ha), (meta_string n Hn), (back_string n Hn). client_binds.
  destruct (meta_roundtrip (cd_meta req)) as (b2 & -> & Hb2), (raw_roundtrip a) as (b4 & -> & Hb4). client_binds.
  destruct (list_roundtrip (db_id_list_append n l)) as (b3 & -> & Hb3).
  { apply Forall_app. split; [done|by repeat constructor]. }
  client_binds.
  match goal with |- context [send_txn ?t] => assert (t =
    db_txn (cs0 ++ [(KName a, curr_seq); (KBack n, 0); (KList a, opt_seq ol)])
      (es0 ++ [(KName a, Some (serialize_u64 n)); (KMeta n, Some b2); (KList a, Some b3); (KBack n, Some b4)])) as -> end.
  { unfold db_txn. by rewrite !fmap_app. }
  apply txn_finish_safe; [done|done|apply Forall_app; split; [done|keys_ok]|].
  intros st4 kv kv' Hr4 HI4 Hst HD [Hc0 Hc]%Forall_app Hw.
  apply Forall_cons in Hc as [Hc1 [Hc2 [Hc3 _]%Forall_cons]%Forall_cons]. cbn [fst snd] in *.
  assert (db_rely st1 st4) as Hr by (etrans; [exact Hr2|]; by etrans).
  destruct (Hold st4 kv) as (o & lo & He & Ho); [by etrans|done..|].
  pose proof (versions_list st4 kv a o lo ol HI4 (known_list_mono _ _ _ _ (proj1 Hr) Hol) Hst He Hc3) as Hlo.
  apply (version_zero st4) in Hc2; [|done..]. fold l in Hlo. subst lo.
  eapply proj2. by eapply created_step.
Qed.

(** What is dropped when a database is replaced: the one that the name has, although
    it was read twice. *)
Lemma replaced_effects st st1 st2 kv a (curr sid : SeqV DatabaseId) (sm : SeqV DatabaseMeta) bm extra now :
  databases kv → key_ok a → Inv st → Inv st2 → evolves st1 st2 → (∀ k, stays k (sp_kv st2) kv) →
  read_at st (key_of (KName a)) (Some curr) → read_since st st1 (key_of (KName a)) sid →
  decode_pb bm = Some (set_drop_on (Some now) (data sm)) →
  Forall (λ c, opt_seq (kv !! key_of c.1) = c.2) (drop_conds a false sid sm extra) →
  opt_seq (kv !! key_of (KName a)) = seq curr →
  ∃ o l, entry kv a o l ∧ old_effects o (drop_effects a false sid bm extra).
Proof.
  intros HD Ha HI HI2 Hev Hst Hcurr Hsid Hbm Hc Hname. destruct (HD a Ha) as (o & l & He). exists o, l. split; [done|].
  destruct (Hsid) as (st' & Hev1 & Hev2 & _). assert (evolves st st2) as Hev3 by (etrans; [exact Hev1|]; by etrans).
  pose proof (read_known _ _ _ _ HI Hev3 Hcurr) as Hk. pose proof (versions_name _ _ _ _ _ _ Hk Hst He Hname) as ->.
  destruct (known_same _ _ _ _ Hk (Hst _) Hname) as (v & Hv & Hd).
  assert (versioned st (key_of (KName a)) v) as Hver.
  { destruct Hcurr as (w & Hw & Hsw & _). exists st. split; [done|]. split; [done|].
    assert (versioned st2 (key_of (KName a)) w) as Hvw by by exists st.
    assert (opt_seq (kv !! key_of (KName a)) = seq w) as E by congruence.
    rewrite (versioned_same _ _ _ _ Hvw (Hst _) E) in Hv. congruence. }
  pose proof (read_since_same _ _ _ _ _ _ Hver (read_since_mono _ _ _ _ _ Hev Hsid) (Hst _) Hv) as Hd'.
  assert (data curr = data sid) as E by congruence. destruct extra as [bl|].
  - apply Forall_cons in Hc as [_ [Hz _]%Forall_cons]. cbn [fst snd] in Hz.
    pose proof (versions_list st2 kv a _ l None HI2 I Hst He Hz) as <-.
    destruct (entry_last _ _ _ _ _ He eq_refl) as [Hin _]. by apply elem_of_nil in Hin.
  - rewrite E. exists bm, (set_drop_on (Some now) (data sm)). done.
Qed.

Lemma create_database_safe utc_now req T st :
  key_ok (cd_name_ident req) → db_safe (x ← create_database utc_now req; mret (DbCreated x)) T st.
Proof.
  intros Ha. unfold create_database. destruct (dm_drop_on (cd_meta req)) eqn:Hm; cbn [is_none negb]; [done|].
  apply safe_bind_trials. clear T st. intros F j T st HF HN. set (a := cd_name_ident req) in *. apply safe_assoc.
  apply (kv_safe_get is_db_key databases keeps_listed _ _ _ _ _ (name_string a Ha)).
  intros st1 o Hr1 HI1 HD1 Ho.
  assert (∀ id T st, db_safe (F (Some id)) T st) as HS by (intros; by rewrite HF).
  destruct o as [curr|].
  - destruct (cd_create_option req); [done|client_binds; apply HS|]. apply safe_assoc, drop_meta_safe; [done|done|].
    intros st2 sid sm bm extra Hr2 Hn Hsid Hsm _ Hbm. cbn beta iota. apply create_rest_safe; [done|done| | |done|done].
    + destruct extra; keys_ok.
    + intros st3 kv Hr3 HI3 Hst HD Hc Hname. by eapply (replaced_effects st1 st2 st3); [..|apply Hr3| | | | | |].
  - apply (create_rest_safe req 0 [] []); [done|done|keys_ok| |done|done].
    intros st2 kv Hr2 HI2 Hst HD _ Hz. destruct (HD a Ha) as (o & l & He). exists o, l. split; [done|].
    by rewrite (versions_no_name _ _ _ _ _ HI2 Hst He Hz).
Qed.

(** ** Renaming *)

Lemma renamed_step kv kv' a (b : DatabaseNameIdent) n l lb b3 b4 b5 :
  databases kv → key_ok a → key_ok b → n < u64_mod → entry kv a (Some n) (l ++ [n]) → entry kv b None lb →
  decode_pb b3 = Some {| id_list := lb ++ [n] |} → decode_pb b4 = Some {| id_list := l |} →
  decode_pb b5 = Some (tident_raw_of b) →
  (∀ x, db_key_ok x → written [(KName a, None); (KName b, Some (serialize_u64 n)); (KList b, Some b3);
    (KList a, Some b4); (KBack n, Some b5)] kv kv' x) →
  (entry kv' a None l ∧ entry kv' b (Some n) (lb ++ [n])) ∧ databases kv' ∧ keeps_listed kv kv'.
Proof.
  intros HD Ha Hb Hn Hea Heb H3 H4 H5 Hw.
  assert (a ≠ b) as Hab by (intros <-; destruct (entry_fun _ _ _ _ _ _ Hea Heb); congruence).
  apply (rename_step kv kv' a b l lb n); [done..| | | | | |].
  - intros y Hy Hny. apply (written_same _ _ _ Hw y Hy). cbn. set_solver.
  - eapply (written_delete [] [_; _; _; _]); [by apply (Hw (KName a))|set_solver].
  - eapply (written_put [_] [_; _; _]); [by apply (Hw (KName b))|set_solver|by apply id_decode].
  - eapply (written_put [_; _; _] [_]); [by apply (Hw (KList a))|set_solver|done].
  - eapply (written_put [_; _] [_; _]); [by apply (Hw (KList b))|set_solver|done].
  - eapply (written_put [_; _; _; _] []); [by apply (Hw (KBack n))|set_solver|done].
Qed.

Definition new_name (req : RenameDatabaseReq) : DatabaseNameIdent :=
  tident_new (tident_tenant (rd_name_ident req)) (rd_new_db_name req).

Lemma pop_last l n : db_id_list_last l = Some n → id_list l = id_list (db_id_list_pop l) ++ [n].
Proof.
  destruct l as [l]. cbn. intros [l' ->]%last_Some. by rewrite removelast_app, app_nil_r.
Qed.
Lemma known_list_fits st a ol d :
  known_list st a ol → Forall (λ n, n < u64_mod) (id_list d) → Forall (λ n, n < u64_mod) (id_list (default d (opt_value ol))).
Proof. intros Hk Hd. destruct ol as [sl|]; [|done]. destruct Hk as (w & _ & _ & Hw). exact (pb_decode_fits _ _ Hw). Qed.

(** What the conditions of the transaction say. *)
Lemma rename_versions st kv a (b : DatabaseNameIdent) (sid : SeqV DatabaseId) ol olb d :
  databases kv → key_ok a → key_ok b → Inv st → (∀ k, stays k (sp_kv st) kv) →
  known st (key_of (KName a)) sid → known_list st a ol → known_list st b olb →
  opt_seq (kv !! key_of (KName a)) = seq sid → opt_seq (kv !! key_of (KName b)) = 0 →
  opt_seq (kv !! key_of (KList a)) = opt_seq ol → opt_seq (kv !! key_of (KList b)) = opt_seq olb →
  entry kv a (Some (did_db_id (data sid))) (id_list (default d (opt_value ol))) ∧
  entry kv b None (id_list (default db_id_list_new (opt_value olb))).
Proof.
  intros HD Ha Hb HI Hst Hsid Hol Holb H1 H2 H3 H4.
  destruct (HD a Ha) as (o & l & Hea), (HD b Hb) as (ob & lb & Heb).
  pose proof (versions_name _ _ _ _ _ _ Hsid Hst Hea H1) as ->. pose proof (versions_no_name _ _ _ _ _ HI Hst Heb H2) as ->.
  rewrite (versions_list _ _ _ _ _ _ HI Holb Hst Heb H4). split; [|done].
  pose proof (versions_list _ _ _ _ _ _ HI Hol Hst Hea H3) as E. destruct ol as [sl|]; [cbn in *; by rewrite E|].
  destruct (entry_last _ _ _ _ _ Hea eq_refl) as [Hin _]. cbn in E. subst l. by apply elem_of_nil in Hin.
Qed.

Lemma rename_safe req T st :
  key_ok (rd_name_ident req) → key_ok (new_name req) → db_safe (_ ← rename_database req; mret DbRenamed) T st.
Proof.
  intros Ha Hb. apply safe_bind_trials. clear T st. intros F j T st HF HN.
  set (a := rd_name_ident req) in *. set (b := new_name req) in *. apply safe_assoc.
  apply (kv_safe_get is_db_key databases keeps_listed _ _ _ _ _ (name_string a Ha)).
  intros st1 oid Hr1 HI1 HD1 Hid. destruct oid as [sid|]; [|destruct (rd_if_exists req); client_binds; by rewrite ?HF].
  destruct sid as [sq mt [n]]. cbn [data did_db_id seq].
  assert (n < u64_mod) as Hn by (destruct Hid as (w & _ & _ & Hd); exact (pb_decode_fits _ _ Hd)). apply safe_assoc.
  apply (kv_safe_get is_db_key databases keeps_listed _ _ _ _ _ (meta_string n Hn)).
  intros st2 om Hr2 HI2 HD2 _. unfold db_has_to_exist. destruct (opt_seq om =? 0); [done|]. client_binds. apply safe_assoc.
  apply (kv_safe_get is_db_key databases keeps_listed _ _ _ _ _ (name_string b Hb)).
  intros st3 onew Hr3 HI3 HD3 _. unfold db_has_to_not_exist. destruct (opt_seq onew =? 0); [|done]. client_binds. apply safe_assoc.
  apply (kv_safe_get is_db_key databases keeps_listed _ _ _ _ _ (back_string n Hn)).
  intros st4 oback Hr4 HI4 HD4 _. apply safe_assoc.
  apply (kv_safe_get is_db_key databases keeps_listed _ _ _ _ _ (list_string a Ha)).
  intros st5 ol Hr5 HI5 HD5 Hol. apply (read_known_list st5 a ol HI5) in Hol.
  set (l := default _ (opt_value ol)). destruct (db_id_list_last l) as [n'|] eqn:Hlast; [|done].
  destruct (N.eqb_spec n' n) as [->|]; cbn [negb]; [|done]. apply safe_assoc.
  apply (kv_safe_get is_db_key databases keeps_listed _ _ _ _ _ (list_string b Hb)).
  intros st6 olb Hr6 HI6 HD6 Holb. apply (read_known_list st6 b olb HI6) in Holb. set (lb := default _ (opt_value olb)).
  assert (Forall (λ n, n < u64_mod) (id_list lb)) as Hlb by (by apply (known_list_fits st6 b)).
  assert (Forall (λ n, n < u64_mod) (id_list l)) as Hl.
  { apply (known_list_fits st5 a); [done|]. by repeat constructor. }
  pose proof (pop_last _ _ Hlast) as Hpop.
  unfold txn_cond_seq, txn_op_put, txn_op_del, serialize_struct.
  change (tident_new (tident_tenant a) (rd_new_db_name req)) with b.
  rewrite (name_string a Ha), (name_string b Hb), (list_string a Ha), (list_string b Hb), (back_string n Hn). client_binds.
  destruct (list_roundtrip (db_id_list_append n lb)) as (b3 & -> & Hb3); [by apply Forall_app; repeat constructor|]. client_binds.
  destruct (list_roundtrip (db_id_list_pop l)) as (b4 & -> & Hb4); [rewrite Hpop in Hl; by apply Forall_app in Hl as [? _]|]. client_binds.
  destruct (raw_roundtrip b) as (b5 & -> & Hb5). client_binds.
  apply (txn_finish_safe F tt [(KName a, sq); (KBack n, opt_seq oback); (KName b, 0); (KList a, opt_seq ol); (KList b, opt_seq olb)]
    [(KName a, None); (KName b, Some (serialize_u64 n)); (KList b, Some b3); (KList a, Some b4); (KBack n, Some b5)]);
    [by intros; rewrite HF|done|keys_ok|].
  intros st7 kv kv' Hr7 HI7 Hst HD Hc Hw.
  apply Forall_cons in Hc as [Hc1 [_ [Hc3 [Hc4 [Hc5 _]%Forall_cons]%Forall_cons]%Forall_cons]%Forall_cons]. cbn [fst snd] in *.
  assert (db_rely st1 st7) as Hr17 by (do 5 (etrans; [done|]); done).
  assert (evolves st5 st7) as Hr57 by (etrans; [apply Hr6|apply Hr7]).
  destruct (rename_versions st7 kv a b {| seq := sq; meta := mt; data := {| did_db_id := n |} |} ol olb
    (db_id_list_append n db_id_list_new)) as [Hea Heb]; [done..| | | |done|done|done|done|].
  - exact (read_known _ _ _ _ HI1 (proj1 Hr17) Hid).
  - exact (known_list_mono _ _ _ _ Hr57 Hol).
  - exact (known_list_mono _ _ _ _ (proj1 Hr7) Holb).
  - fold l lb in Hea, Heb. rewrite Hpop in Hea.
    by eapply (renamed_step kv kv' a b n (id_list (db_id_list_pop l)) (id_list lb)); [..|destruct l| |].
Qed.
End calls.
