(* ===== verification/DatabaseRuns.v ===== *)
(** What the operations on databases do when no other client disturbs them. *)

From stdpp Require Import base orders sorting strings gmap numbers list relations.
From S2P Require Import Prelude BTree RustStr External ExpireKey MetaTypes Marked MapApi Level StateMap.
From S2P Require Import Txn StateMachine Applier ApplierSpec StateMachineProofs ApplierProofs ApplyProofs.
From S2P Require Import SpecFacts Replica SMV003 KeyCodec KeyCodecProofs AppKeys AppKeysProofs KVApi ProtoConv MetaApi.
From S2P Require Import ClientProofs ServeProofs IdProofs KvProtocol DatabaseTypes Database DatabaseProofs DatabaseCalls.
Local Open Scope N_scope.

Section runs.
Context {raft : OpenRaft} {Mp : Type} `{!StateMap raft Mp, !StateMapLaws Mp} (now : N) (Hnow : now < u64_mod).
Implicit Types s : StateMachine Mp.

Lemma run_step {A B} (f : A → Client B) c s s' x :
  mem_run now c s = (s', COk x) → mem_run now (client_bind f c) s = mem_run now (f x) s'.
Proof. intros E. by rewrite mem_run_bind, E. Qed.
Lemma run_stop {A B} (f : A → Client B) c s s' e :
  mem_run now c s = (s', CErr e) → mem_run now (client_bind f c) s = (s', CErr e).
Proof. intros E. by rewrite mem_run_bind, E. Qed.

Lemma run_try {A} (c : Client A) s :
  mem_run now (try_client c) s = ((mem_run now c s).1, match (mem_run now c s).2 with
    | COk x => COk (inl x) | CErr e => COk (inr e) | CPanic => CPanic end).
Proof.
  revert s. induction c as [[x|e|]|B req k IH]; intros s; [done..|]. cbn [try_client mem_run].
  by destruct (mem_serve now req s) as [s' [b|e|]].
Qed.
Lemma run_try_step {A B} (f : A + ApiError → Client B) c s s' x :
  mem_run now c s = (s', COk x) → mem_run now (client_bind f (try_client c)) s = mem_run now (f (inl x)) s'.
Proof. intros E. by rewrite mem_run_bind, run_try, E. Qed.
Lemma run_try_stop {A B} (f : A + ApiError → Client B) c s s' e :
  mem_run now c s = (s', CErr e) → mem_run now (client_bind f (try_client c)) s = mem_run now (f (inr e)) s'.
Proof. intros E. by rewrite mem_run_bind, run_try, E. Qed.

(** The first trial decides. *)
Lemma run_trial {A} (body : nat → Client (option A)) s s' x :
  mem_run now (body 1%nat) s = (s', COk (Some x)) → mem_run now (txn_backoff body) s = (s', COk x).
Proof. intros E. etrans; [apply mem_run_bind|]. by rewrite E. Qed.
Lemma run_trial_err {A} (body : nat → Client (option A)) s s' e :
  mem_run now (body 1%nat) s = (s', CErr e) → mem_run now (txn_backoff body) s = (s', CErr e).
Proof. intros E. etrans; [apply mem_run_bind|]. by rewrite E. Qed.
Lemma run_trial_panic {A} (body : nat → Client (option A)) s s' :
  mem_run now (body 1%nat) s = (s', CPanic) → mem_run now (txn_backoff body) s = (s', CPanic).
Proof. intros E. etrans; [apply mem_run_bind|]. by rewrite E. Qed.

(** A version that the conditions of a transaction can rely on. *)
Definition at_version (kv : gmap string (SeqV bytes)) k (n : N) : Prop :=
  (∃ v, kv !! k = Some v ∧ lasting v ∧ seq v = n) ∨ (kv !! k = None ∧ n = 0).

Lemma at_version_mono kv kv' k n : stays k kv kv' → at_version kv k n → at_version kv' k n.
Proof.
  intros Hst [(v & Hv & Hl & <-)|[Hv ->]].
  - left. exists v. split; [exact (stays_lasting _ _ _ _ Hst Hv Hl)|done].
  - right. split; [by apply (absent_stays kv)|done].
Qed.
Lemma at_version_stays kv kv' k n : stays k kv kv' → at_version kv k n → opt_seq (kv' !! k) = n.
Proof.
  intros Hst [(v & Hv & Hl & <-)|[Hv ->]].
  - by rewrite (stays_lasting _ _ _ _ Hst Hv Hl).
  - by rewrite (absent_stays _ _ _ Hst Hv).
Qed.

(** Reading. *)
Lemma run_get {K V} `{!KeyCodec K, !Key K, !FromToProto V} (key : K) k (x : V) s :
  sm_ok s → to_string_key key = KOk k → stored (kvv (sm_map s)) k x →
  ∃ sv, mem_run now (get_pb V key) s = (s, COk (Some sv)) ∧ data sv = x ∧
    at_version (kvv (sm_map s)) k (seq sv) ∧ seq sv ≠ 0.
Proof.
  intros Hok Hk (v & Hv & Hl & Hd). unfold get_pb. rewrite Hk. client_run. cbn [mem_run]. rewrite mem_serve_get by done.
  client_run. unfold stream_item. cbn [si_value]. rewrite Hv, lasting_read by done. client_run. rewrite lasting_pb by done.
  unfold decode_seqv. rewrite Hd. client_run. cbn [mem_run]. eexists. split_and!; [done|done|left; by exists v|].
  pose proof (inv_positive _ (ok_inv s Hok) k v Hv). cbn. lia.
Qed.
Lemma run_get_none {K} V `{!KeyCodec K, !Key K, !FromToProto V} (key : K) k s :
  sm_ok s → to_string_key key = KOk k → kvv (sm_map s) !! k = None →
  mem_run now (get_pb V key) s = (s, COk None).
Proof.
  intros Hok Hk Hv. unfold get_pb. rewrite Hk. client_run. cbn [mem_run]. rewrite mem_serve_get by done.
  client_run. unfold stream_item. cbn [si_value]. rewrite Hv. unfold non_expired. by destruct (opt_is_expired None now).
Qed.

Lemma db_ops_cost es : ops_cost (db_op <$> es) ≤ N.of_nat (length es).
Proof.
  induction es as [|[x [b|]] es IH]; [done|..]; cbn [fmap list_fmap length].
  - change (ops_cost (db_op (x, Some b) :: (db_op <$> es))) with (1 + ops_cost (db_op <$> es)). lia.
  - change (ops_cost (db_op (x, None) :: (db_op <$> es))) with (0 + ops_cost (db_op <$> es)). lia.
Qed.

(** A transaction whose conditions hold. *)
Lemma run_txn {sj : SerdeJson} cs es s :
  sm_ok s → sequence (map_sys (sm_map s)) + N.of_nat (length es) + 2 < u64_mod →
  Forall (λ e, db_key_ok e.1) es → Forall (λ c, at_version (kvv (sm_map s)) (key_of c.1) c.2) cs →
  ∃ s' rs kv, mem_run now (send_txn (db_txn cs es)) s = (s', COk (true, rs)) ∧ sm_ok s' ∧
    sequence (map_sys (sm_map s')) ≤ sequence (map_sys (sm_map s)) + N.of_nat (length es) ∧
    (∀ k, stays k (kvv (sm_map s)) kv) ∧ ∀ x, db_key_ok x → written es kv (kvv (sm_map s')) x.
Proof.
  intros Hok Hroom Hes Hcs. set (conds := (λ c : DbKey * N, (key_of c.1, c.2)) <$> cs).
  assert (db_txn cs es = txn_new ((λ c, cond_eq_seq c.1 c.2) <$> conds) (db_op <$> es)) as E.
  { unfold db_txn, conds. by rewrite <-list_fmap_compose. }
  pose proof (db_ops_cost es) as Hcost. set (req := ReqTransaction (txn_new ((λ c, cond_eq_seq c.1 c.2) <$> conds) (db_op <$> es))).
  destruct (mem_serve_spec now req s Hok Hnow) as (s' & Es & Hok' & Habs & Hle).
  { change (req_cost req) with (ops_cost (db_op <$> es) + 0 + 0). lia. }
  assert (sequence (sp_sys (abs s)) + 1 < u64_mod) as Hs by (change (sequence (map_sys (sm_map s)) + 1 < u64_mod); lia).
  destruct (serve_plain now (abs s) conds (db_op <$> es) (ok_inv s Hok) Hnow Hs (db_op_plain es)) as (He & Hsucc & Htrue & _).
  fold req in He, Hsucc, Htrue. set (kv := sp_kv (sp_clean now _ (abs s))) in *.
  assert (∀ k, stays k (kvv (sm_map s)) kv) as Hst by (intros k; by apply (clean_stays now (cmd_ctx_from_millis now) (abs s) k (ok_inv s Hok))).
  rewrite bool_decide_true in Hsucc.
  2: { apply Forall_fmap. eapply Forall_impl; [exact Hcs|]. intros c Hc. cbn. by eapply at_version_stays. }
  exists s', (reply_responses (sp_serve now req (abs s)).2), kv. split_and!; [|done| |done|].
  - rewrite E. unfold send_txn. client_run. cbn [mem_run]. fold req. rewrite Es. client_run. unfold txn_reply_to_api_result.
    by rewrite He, Hsucc.
  - change (req_cost req) with (ops_cost (db_op <$> es) + 0 + 0) in Hle. lia.
  - intros x Hx. destruct Habs as (Hkv & _). change (kvv (sm_map s')) with (sp_kv (abs s')). rewrite Hkv.
    apply written_to; [done|by apply Htrue|done].
Qed.

(** A new id. *)
Lemma run_fetch_id s :
  sm_ok s → sequence (map_sys (sm_map s)) + 2 < u64_mod →
  ∃ s', mem_run now (fetch_id id_generator_database_id) s = (s', COk (sequence (map_sys (sm_map s)) + 1)) ∧ sm_ok s' ∧
    sequence (map_sys (sm_map s')) = sequence (map_sys (sm_map s)) + 1 ∧
    ∀ x, db_key_ok x → stays (key_of x) (kvv (sm_map s)) (kvv (sm_map s')).
Proof.
  intros Hok Hroom. set (req := ReqUpsertKV {| ukey := database_gen; useq := GE 0; uvalue := Update EmptyString; uvalue_meta := None |}).
  destruct (mem_serve_spec now req s Hok Hnow) as (s' & E & Hok' & (Hkv & Hsys & _) & _); [cbn [req_cost cmd_cost uvalue req]; lia|].
  assert (sequence (sp_sys (abs s)) + 1 < u64_mod) as Hs by (change (sequence (map_sys (sm_map s)) + 1 < u64_mod); lia).
  pose proof (serve_update now (abs s) database_gen (GE 0) EmptyString (ok_inv s Hok) Hnow Hs) as Hu. cbv zeta in Hu.
  rewrite match_seq_err_ge in Hu. fold req in Hu. set (kv := sp_kv (sp_clean now _ (abs s))) in *.
  destruct (N.ltb_spec (opt_seq (kv !! database_gen)) 0); [lia|]. destruct Hu as (Hr & Hk & Hq).
  exists s'. split_and!; [|done| |].
  - unfold fetch_id. rewrite gen_string. client_run. cbn [mem_run]. fold req. rewrite E, Hr. by client_run.
  - change (sequence (sp_sys (abs s')) = sequence (sp_sys (abs s)) + 1). by rewrite Hsys.
  - intros x Hx. change (kvv (sm_map s')) with (sp_kv (abs s')). rewrite Hkv, Hk.
    assert (key_of x ≠ database_gen) as Hne by (intros E'; apply gen_not_db_key; rewrite <-E'; by apply is_db_key_of).
    pose proof (clean_stays now (cmd_ctx_from_millis now) (abs s) (key_of x) (ok_inv s Hok) Hnow Hs) as Hst. fold kv in Hst.
    unfold stays in *. by rewrite lookup_insert_ne.
Qed.
End runs.

Section operations.
Context {raft : OpenRaft} {Mp : Type} `{!StateMap raft Mp, !StateMapLaws Mp} (now : N) (Hnow : now < u64_mod).
Context {sj : SerdeJson} `{!SerdeJsonLaws sj} {ch : Chrono} `{!ChronoLaws ch}.
Context `{!ProstMessage pb_DatabaseMeta, !ProstLaws pb_DatabaseMeta pb_database_fits}.
Context `{!ProstMessage pb_DbIdList, !ProstLaws pb_DbIdList pb_db_id_list_fits}.
Context `{!ProstMessage pb_TIdent, !ProstLaws pb_TIdent pb_tident_fits}.
Implicit Types (s : StateMachine Mp) (a : DatabaseNameIdent) (m : DatabaseMeta) (n : N) (l : list N).

Abbreviation kvs s := (kvv (sm_map s)).
Abbreviation next s := (sequence (map_sys (sm_map s)) + 1).

(** The name [a] has the database [n] with the record [m]. *)
Definition has_database kv a n m : Prop :=
  stored kv (key_of (KName a)) {| did_db_id := n |} ∧ n < u64_mod ∧ stored kv (key_of (KMeta n)) m.
Definition has_ids kv a l : Prop :=
  stored kv (key_of (KList a)) {| id_list := l |} ∨ (kv !! key_of (KList a) = None ∧ l = []).

Lemma run_lookup s a n m :
  sm_ok s → key_ok a → has_database (kvs s) a n m →
  ∃ sid sm, mem_run now (get_db_or_err a) s = (s, COk (sid, sm)) ∧ data sid = {| did_db_id := n |} ∧ data sm = m ∧
    at_version (kvs s) (key_of (KName a)) (seq sid) ∧ at_version (kvs s) (key_of (KMeta n)) (seq sm).
Proof.
  intros Hok Ha (Hname & Hn & Hmeta). unfold get_db_or_err.
  destruct (run_get now Hnow a _ _ s Hok (name_string a Ha) Hname) as (sid & E1 & Hsid & Hv1 & _).
  destruct (run_get now Hnow {| did_db_id := n |} _ _ s Hok (meta_string n Hn) Hmeta) as (sm & E2 & Hsm & Hv2 & _).
  exists sid, sm. split_and!; [|done..]. etrans; [exact (run_step _ _ _ _ _ _ E1)|]. cbn beta iota. rewrite Hsid.
  exact (run_step _ _ _ _ _ _ E2).
Qed.
Lemma run_lookup_none s a :
  sm_ok s → key_ok a → kvs s !! key_of (KName a) = None →
  mem_run now (get_db_or_err a) s = (s, CErr (EApp UnknownDatabase)).
Proof.
  intros Hok Ha Hname. unfold get_db_or_err.
  exact (run_step _ _ _ _ _ _ (run_get_none now DatabaseId a _ s Hok (name_string a Ha) Hname)).
Qed.

Lemma run_list s a l :
  sm_ok s → key_ok a → has_ids (kvs s) a l →
  ∃ ol, mem_run now (get_pb DbIdList (history_ident a)) s = (s, COk ol) ∧
    default db_id_list_new (opt_value ol) = {| id_list := l |} ∧ at_version (kvs s) (key_of (KList a)) (opt_seq ol) ∧
    match ol with Some sl => seq sl ≠ 0 ∧ is_Some (kvs s !! key_of (KList a)) | None => kvs s !! key_of (KList a) = None end.
Proof.
  intros Hok Ha [Hl|[Hl ->]].
  - destruct (run_get now Hnow (history_ident a) _ _ s Hok (list_string a Ha) Hl) as (sl & E & Hd & Hv & Hz).
    exists (Some sl). split_and!; [done|exact Hd|done|done|exact (stored_some _ _ _ Hl)].
  - exists None. split_and!; [by apply (run_get_none now DbIdList _ _ s Hok (list_string a Ha))|done|by right|done].
Qed.

(** Dropping alone: [extra] is a new list, if the name has none. *)
Lemma run_drop_meta t_now a if_exists drop_name n m l s :
  sm_ok s → key_ok a → has_database (kvs s) a n m → has_ids (kvs s) a l → dm_drop_on m = None →
  ∃ sid sm bm extra, mem_run now (drop_database_meta t_now a if_exists drop_name txn_default) s =
      (s, COk (n, db_txn (drop_conds a drop_name sid sm extra) (drop_effects a drop_name sid bm extra))) ∧
    data sid = {| did_db_id := n |} ∧ decode_pb bm = Some (set_drop_on (Some t_now) m) ∧
    Forall (λ c, at_version (kvs s) (key_of c.1) c.2) (drop_conds a true sid sm extra) ∧
    (is_Some extra ↔ kvs s !! key_of (KList a) = None).
Proof.
  intros Hok Ha Hdb Hids Hd. pose proof Hdb as (_ & Hn & _).
  destruct (run_lookup s a n m Hok Ha Hdb) as ([sq mt d] & sm & E & Esid & Hsm & Hv1 & Hv2). cbn [data seq] in *. subst d m.
  destruct (meta_roundtrip (set_drop_on (Some t_now) (data sm))) as (bm & Eb & Hbm).
  destruct (list_roundtrip (db_id_list_append n db_id_list_new)) as (bl & El & _); [by repeat constructor|].
  destruct (run_list s a l Hok Ha Hids) as (ol & Eol & _ & Hv3 & Hol).
  exists (mk_SeqV sq mt {| did_db_id := n |}), sm, bm, (match ol with Some _ => None | None => Some bl end).
  split_and!; [|done|done| |].
  - unfold drop_database_meta. etrans; [exact (run_try_step _ _ _ _ _ _ E)|]. cbn beta iota.
    unfold txn_cond_seq, txn_op_del, txn_op_put, serialize_struct, get_pb_seq_and_value. cbn [data seq did_db_id].
    rewrite (name_string a Ha), (meta_string n Hn), Hd, Eb. cbn [is_none negb].
    destruct drop_name; client_binds; (etrans; [apply mem_run_bind|]); rewrite mem_run_bind, Eol; cbn [mem_run mret Client_ret];
      (destruct ol as [sl|]; cbn [opt_value opt_seq fmap option_fmap option_map is_none mem_run mret Client_ret];
       [destruct (N.eqb_spec (seq sl) 0); [tauto|done]|rewrite (list_string a Ha), El; done]).
  - destruct ol; repeat (apply Forall_cons; split; [done|]); by apply Forall_nil.
  - destruct ol as [sl|]; [split; [by intros []|]|by split]. destruct Hol as [_ [v Hv]]. congruence.
Qed.

Lemma entry_database kv a n l :
  entry kv a (Some n) l → ∃ m, has_database kv a n m ∧ dm_drop_on m = None ∧ n ∈ l ∧ last l = Some n.
Proof.
  intros He. destruct (entry_last _ _ _ _ n He eq_refl) as [Hin Hl].
  destruct (entry_ids _ _ _ _ He n Hin) as (m & Hm & _ & Hd). exists m.
  split_and!; [split_and!; [apply (entry_name _ _ _ _ He)|by eapply entry_id_fits|done]|by apply Hd|done..].
Qed.

(** The entries after the cleaning of expired keys. *)
Lemma stays_entries kv kv' :
  databases kv → (∀ k, stays k kv kv') → databases kv' ∧ ∀ a o l, entry kv a o l → entry kv' a o l.
Proof.
  intros HD Hst. split; [by apply (kv_stays (D := is_db_key) (I := databases) (R := keeps_listed) kv kv')|]. intros a o l. by apply entry_stays.
Qed.

(** ** Dropping and undropping *)

Lemma run_drop utc_now req n m l s :
  let a := dd_name_ident req in
  sm_ok s → sequence (map_sys (sm_map s)) + 5 < u64_mod → key_ok a → databases (kvs s) →
  entry (kvs s) a (Some n) l → stored (kvs s) (key_of (KMeta n)) m →
  ∃ s', mem_run now (drop_database utc_now req) s = (s', COk n) ∧ sm_ok s' ∧
    sequence (map_sys (sm_map s')) ≤ sequence (map_sys (sm_map s)) + 2 ∧
    databases (kvs s') ∧ entry (kvs s') a None l ∧
    stored (kvs s') (key_of (KMeta n)) (set_drop_on (Some (utc_now 1%nat)) m).
Proof.
  intros a Hok Hroom Ha HD He Hm. destruct (entry_database _ _ _ _ He) as (m0 & Hdb & Hd & Hin & Hlast).
  pose proof (stored_fun _ _ _ _ (proj2 (proj2 Hdb)) Hm) as ->. pose proof (proj1 (proj2 Hdb)) as Hn.
  destruct (run_drop_meta (utc_now 1%nat) a (dd_if_exists req) true n m l s) as (sid & sm & bm & extra & E & Hsid & Hbm & Hv & Hex);
    [done|done|done|by apply He|done|]. destruct sid as [sq mt d]. cbn [data] in Hsid. subst d.
  set (sid := mk_SeqV sq mt {| did_db_id := n |}) in *.
  assert (extra = None) as ->.
  { destruct extra as [bl|]; [|done]. assert (kvs s !! key_of (KList a) = None) as Hl by (apply Hex; by eexists).
    destruct (entry_list _ _ _ _ He) as [[]%stored_some|[_ ->]]; [congruence|by apply elem_of_nil in Hin]. }
  destruct (run_txn now Hnow (drop_conds a true sid sm None) (drop_effects a true sid bm None) s Hok) as (s' & rs & kv & E' & Hok' & Hle & Hst & Hw);
    [cbn [drop_effects length app]; lia|keys_ok|exact Hv|].
  destruct (stays_entries _ kv HD Hst) as [HD1 He1]. cbn [drop_effects app data did_db_id sid] in Hw.
  destruct (drop_written kv (kvs s') a l n (set_drop_on (Some (utc_now 1%nat)) m) bm) as ((He' & Hm') & HD' & _);
    [exact HD1|exact Ha|exact Hn|exact (He1 _ _ _ He)|exact Hbm|done|exact Hw|].
  exists s'. split_and!; [|exact Hok'|exact Hle|exact HD'|exact He'|exact Hm'].
  apply run_trial. etrans; [exact (run_step _ _ _ _ _ _ E)|]. exact (run_step _ _ _ _ _ _ E').
Qed.

Lemma run_undrop req n m l s :
  let a := ud_name_ident req in
  sm_ok s → sequence (map_sys (sm_map s)) + 5 < u64_mod → key_ok a → databases (kvs s) →
  entry (kvs s) a None l → last l = Some n → stored (kvs s) (key_of (KMeta n)) m →
  ∃ s', mem_run now (undrop_database req) s = (s', COk tt) ∧ sm_ok s' ∧
    databases (kvs s') ∧ entry (kvs s') a (Some n) l ∧ stored (kvs s') (key_of (KMeta n)) (set_drop_on None m).
Proof.
  intros a Hok Hroom Ha HD He Hlast Hm. assert (n ∈ l) as Hin by by apply last_Some_elem_of.
  pose proof (entry_id_fits _ _ _ _ _ He Hin) as Hn. pose proof (entry_name _ _ _ _ He) as Hname.
  destruct (entry_ids _ _ _ _ He n Hin) as (m0 & Hm0 & _ & Hd). pose proof (stored_fun _ _ _ _ Hm0 Hm) as ->.
  assert (is_none (dm_drop_on m) = false) as Hdrop by (destruct (dm_drop_on m) eqn:Ed; [done|by apply proj1 in Hd; discriminate Hd]).
  destruct (entry_list _ _ _ _ He) as [Hl|[_ ->]]; [|done].
  destruct (run_get now Hnow (history_ident a) _ _ s Hok (list_string a Ha) Hl) as (sl & E1 & Hsl & Hv1 & _).
  destruct (run_get now Hnow {| did_db_id := n |} _ _ s Hok (meta_string n Hn) Hm) as (sm & E2 & Hsm & Hv2 & _).
  destruct (meta_roundtrip (set_drop_on None m)) as (bm & Eb & Hbm).
  destruct (run_txn now Hnow [(KName a, 0); (KList a, seq sl); (KMeta n, seq sm)]
    [(KName a, Some (serialize_u64 n)); (KMeta n, Some bm)] s Hok) as (s' & rs & kv & E3 & Hok' & _ & Hst & Hw);
    [cbn [length]; lia|keys_ok|repeat (apply Forall_cons; split; [first [by right|done]|]); by apply Forall_nil|].
  destruct (stays_entries _ kv HD Hst) as [HD1 He1].
  destruct (undrop_written kv (kvs s') a l n (set_drop_on None m) bm) as ((He' & Hm') & HD' & _);
    [exact HD1|exact Ha|exact Hn|exact (He1 _ _ _ He)|exact Hlast|exact Hbm|done|exact Hw|].
  exists s'. split_and!; [|exact Hok'|exact HD'|exact He'|exact Hm'].
  apply run_trial. fold a. etrans; [exact (run_try_stop _ _ _ _ _ _ (run_lookup_none s a Hok Ha Hname))|]. cbn beta iota.
  etrans; [exact (run_step _ _ _ _ _ _ E1)|]. cbn beta iota. rewrite Hsl. unfold db_id_list_last. cbn [id_list]. rewrite Hlast.
  etrans; [exact (run_step _ _ _ _ _ _ E2)|]. cbn [opt_value opt_seq fmap option_fmap option_map]. rewrite Hsm, Hdrop.
  unfold txn_cond_seq, txn_op_put, serialize_struct. rewrite (name_string a Ha), (list_string a Ha), (meta_string n Hn), Eb.
  client_binds. exact (run_step _ _ _ _ _ _ E3).
Qed.

(** ** Creating *)

(** The records of a new database, after the operations [es0]. *)
Definition create_effects a n (es0 : list (DbKey * option bytes)) b2 b3 b4 : list (DbKey * option bytes) :=
  es0 ++ [(KName a, Some (serialize_u64 n)); (KMeta n, Some b2); (KList a, Some b3); (KBack n, Some b4)].

Lemma run_create_rest req curr_seq cs0 es0 l s :
  let a := cd_name_ident req in
  let n := sequence (map_sys (sm_map s)) + 1 in
  sm_ok s → sequence (map_sys (sm_map s)) + N.of_nat (length es0) + 10 < u64_mod → key_ok a →
  Forall (λ e, db_key_ok e.1) es0 → Forall (λ c, db_key_ok c.1 ∧ at_version (kvs s) (key_of c.1) c.2) cs0 →
  at_version (kvs s) (key_of (KName a)) curr_seq → kvs s !! key_of (KBack n) = None →
  has_ids (kvs s) a l → Forall (λ n, n < u64_mod) l →
  ∃ s' kv b2 b3 b4, mem_run now (create_with_db_id req curr_seq (db_txn cs0 es0)) s = (s', COk (Some {| did_db_id := n |})) ∧
    sm_ok s' ∧ (∀ x, db_key_ok x → stays (key_of x) (kvs s) kv) ∧
    (decode_pb b2 = Some (cd_meta req) ∧ decode_pb b3 = Some {| id_list := l ++ [n] |} ∧
     decode_pb b4 = Some (tident_raw_of a)) ∧
    ∀ x, db_key_ok x → written (create_effects a n es0 b2 b3 b4) kv (kvs s') x.
Proof.
  intros a n Hok Hroom Ha Hes0 Hcs0 Hname Hback Hids Hl.
  destruct (run_list s a l Hok Ha Hids) as (ol & E1 & Hol & Hv1 & _).
  destruct (run_fetch_id now Hnow s Hok) as (s1 & E2 & Hok1 & Hseq & Hst1); [lia|]. fold n in E2, Hseq.
  assert (n < u64_mod) as Hn by lia.
  destruct (meta_roundtrip (cd_meta req)) as (b2 & E3 & Hb2), (raw_roundtrip a) as (b4 & E5 & Hb4).
  destruct (list_roundtrip (db_id_list_append n {| id_list := l |})) as (b3 & E4 & Hb3).
  { apply Forall_app. split; [done|by repeat constructor]. }
  destruct (run_txn now Hnow (cs0 ++ [(KName a, curr_seq); (KBack n, 0); (KList a, opt_seq ol)])
    (create_effects a n es0 b2 b3 b4) s1 Hok1) as (s' & rs & kv & E6 & Hok' & _ & Hst & Hw).
  { unfold create_effects. rewrite length_app. cbn [length]. lia. }
  { apply Forall_app. split; [done|keys_ok]. }
  { apply Forall_app. split.
    - eapply Forall_impl; [exact Hcs0|]. intros c [Hc Hv]. by eapply at_version_mono; [apply Hst1|].
    - repeat (apply Forall_cons; split; [eapply at_version_mono; [by apply Hst1|first [done|by right]]|]). by apply Forall_nil. }
  exists s', kv, b2, b3, b4. split_and!; [|done| |done..].
  - unfold create_with_db_id. fold a. etrans; [exact (run_step _ _ _ _ _ _ E1)|]. cbn beta iota zeta. rewrite Hol.
    etrans; [exact (run_step _ _ _ _ _ _ E2)|]. cbn beta iota zeta.
    unfold txn_cond_seq, txn_op_put, serialize_struct.
    rewrite (name_string a Ha), (list_string a Ha), (meta_string n Hn), (back_string n Hn), E3, E4, E5. client_binds.
    unfold db_txn, create_effects in E6. rewrite !fmap_app in E6. exact (run_step _ _ _ _ _ _ E6).
  - intros x Hx. by etrans; [apply Hst1|apply Hst].
Qed.

(** A new database for a name, with the operations [es0] that drop its old one. *)
Lemma run_created req curr_seq cs0 es0 o l s :
  let a := cd_name_ident req in
  let n := sequence (map_sys (sm_map s)) + 1 in
  sm_ok s → sequence (map_sys (sm_map s)) + 15 < u64_mod → key_ok a → databases (kvs s) → entry (kvs s) a o l →
  old_effects o es0 → Forall (λ c, db_key_ok c.1 ∧ at_version (kvs s) (key_of c.1) c.2) cs0 →
  at_version (kvs s) (key_of (KName a)) curr_seq → kvs s !! key_of (KBack n) = None → dm_drop_on (cd_meta req) = None →
  ∃ s', mem_run now (create_with_db_id req curr_seq (db_txn cs0 es0)) s = (s', COk (Some {| did_db_id := n |})) ∧
    sm_ok s' ∧ databases (kvs s') ∧ entry (kvs s') a (Some n) (l ++ [n]) ∧
    stored (kvs s') (key_of (KMeta n)) (cd_meta req) ∧
    ∀ x bm m, es0 = [(KMeta x, Some bm)] → o = Some x → decode_pb bm = Some m → stored (kvs s') (key_of (KMeta x)) m.
Proof.
  intros a n Hok Hroom Ha HD He Hold Hcs Hname Hback Hm.
  assert (∀ x, x ∈ l → x < u64_mod) as Hl by (intros x; by eapply entry_id_fits).
  destruct (run_create_rest req curr_seq cs0 es0 l s) as (s' & kv & b2 & b3 & b4 & E & Hok' & Hst & (Hb2 & Hb3 & Hb4) & Hw);
    [done| |done| |done..|by apply He|by apply Forall_forall|].
  { destruct o as [x|]; [destruct Hold as (bm & m & -> & _)|cbn in Hold; subst es0]; cbn [length]; lia. }
  { destruct o as [x|]; [destruct Hold as (bm & m & -> & _)|cbn in Hold; subst es0; constructor].
    apply Forall_singleton, Hl. by eapply entry_last. }
  fold a n in E, Hw, Hb3, Hb4. assert (n < u64_mod) as Hn by lia.
  destruct (kv_stays (D := is_db_key) (I := databases) (R := keeps_listed) (kvs s) kv HD) as [HD1 _].
  { intros k (x & Hx & ->). by apply Hst. }
  assert (entry kv a o l) as He1.
  { apply (entry_stays (kvs s)); [by apply Hst..| |done]. intros x Hx. by split; apply Hst, Hl. }
  assert (kv !! key_of (KBack n) = None) as Hback1 by (eapply absent_stays; [by apply Hst|done]).
  destruct (created_step kv (kvs s') a o l n (cd_meta req) es0 b2 b3 b4) as (He' & HD' & _); [done..|].
  exists s'. split_and!; [done..| |].
  - eapply (written_put (es0 ++ [_]) [_; _] kv _ (KMeta n)); [rewrite <-app_assoc; by apply (Hw (KMeta n))| |done].
    cbn. by rewrite !elem_of_cons, elem_of_nil; intros [?|[?|[]]].
  - intros x bm m -> Ho Hbm. destruct (entry_last _ _ _ _ x He Ho) as [Hin _].
    assert (x ≠ n) as Hne.
    { intros ->. destruct (entry_ids _ _ _ _ He n Hin) as (? & _ & []%stored_some & _). congruence. }
    eapply (written_put [] [_; _; _; _] kv _ (KMeta x)); [by apply (Hw (KMeta x)), Hl| |done].
    cbn. rewrite !elem_of_cons, elem_of_nil. by intros [?|[[=]|[?|[?|[]]]]].
Qed.

(** ** Reading and renaming *)

Lemma run_get_database s a n m :
  sm_ok s → key_ok a → has_database (kvs s) a n m →
  ∃ info, mem_run now (get_database a) s = (s, COk info) ∧ di_database_id info = {| did_db_id := n |} ∧
    di_name_ident info = a ∧ data (di_meta info) = m.
Proof.
  intros Hok Ha Hdb. destruct (run_lookup s a n m Hok Ha Hdb) as (sid & sm & E & Hsid & Hsm & _).
  eexists. split; [exact (run_step _ _ _ _ _ _ E)|done].
Qed.

(** The transaction of [rename_database]. *)
Lemma run_rename_txn a (b : DatabaseNameIdent) n l lb q1 q2 q4 q5 b3 b4 b5 s :
  sm_ok s → sequence (map_sys (sm_map s)) + 10 < u64_mod → key_ok a → key_ok b → n < u64_mod → databases (kvs s) →
  entry (kvs s) a (Some n) (l ++ [n]) → entry (kvs s) b None lb →
  at_version (kvs s) (key_of (KName a)) q1 → at_version (kvs s) (key_of (KBack n)) q2 →
  at_version (kvs s) (key_of (KList a)) q4 → at_version (kvs s) (key_of (KList b)) q5 →
  decode_pb b3 = Some {| id_list := lb ++ [n] |} → decode_pb b4 = Some {| id_list := l |} → decode_pb b5 = Some (tident_raw_of b) →
  ∃ s' rs, mem_run now (send_txn (db_txn [(KName a, q1); (KBack n, q2); (KName b, 0); (KList a, q4); (KList b, q5)]
      [(KName a, None); (KName b, Some (serialize_u64 n)); (KList b, Some b3); (KList a, Some b4); (KBack n, Some b5)])) s =
      (s', COk (true, rs)) ∧ sm_ok s' ∧
    sequence (map_sys (sm_map s')) ≤ sequence (map_sys (sm_map s)) + 5 ∧ databases (kvs s') ∧
    entry (kvs s') a None l ∧ entry (kvs s') b (Some n) (lb ++ [n]).
Proof.
  intros Hok Hroom Ha Hb Hn HD Hea Heb Hv1 Hv2 Hv4 Hv5 Hb3 Hb4 Hb5. pose proof (entry_name _ _ _ _ Heb) as Hnew.
  destruct (run_txn now Hnow [(KName a, q1); (KBack n, q2); (KName b, 0); (KList a, q4); (KList b, q5)]
    [(KName a, None); (KName b, Some (serialize_u64 n)); (KList b, Some b3); (KList a, Some b4); (KBack n, Some b5)] s Hok)
    as (s' & rs & kv & E & Hok' & Hle & Hst & Hw);
    [cbn [length]; lia|keys_ok|repeat (apply Forall_cons; split; [first [done|by right]|]); by apply Forall_nil|].
  destruct (stays_entries _ kv HD Hst) as [HD1 He1].
  destruct (renamed_step kv (kvs s') a b n l lb b3 b4 b5) as ((Hea' & Heb') & HD' & _);
    [exact HD1|exact Ha|exact Hb|exact Hn|by apply He1|by apply He1|exact Hb3|exact Hb4|exact Hb5|exact Hw|].
  exists s', rs. split_and!; [exact E|exact Hok'|exact Hle|exact HD'|exact Hea'|exact Heb'].
Qed.

Lemma run_rename req n l lb s :
  let a := rd_name_ident req in
  let b := new_name req in
  sm_ok s → sequence (map_sys (sm_map s)) + 10 < u64_mod → key_ok a → key_ok b → databases (kvs s) →
  entry (kvs s) a (Some n) (l ++ [n]) → entry (kvs s) b None lb →
  ∃ s', mem_run now (rename_database req) s = (s', COk tt) ∧ sm_ok s' ∧
    sequence (map_sys (sm_map s')) ≤ sequence (map_sys (sm_map s)) + 5 ∧ databases (kvs s') ∧
    entry (kvs s') a None l ∧ entry (kvs s') b (Some n) (lb ++ [n]).
Proof.
  intros a b Hok Hroom Ha Hb HD Hea Heb. destruct (entry_database _ _ _ _ Hea) as (m & (Hname & Hn & Hm) & _ & Hin & _).
  destruct (entry_ids _ _ _ _ Hea n Hin) as (_ & _ & Hback & _). pose proof (entry_name _ _ _ _ Heb) as Hnew.
  assert (∀ x, x ∈ l → x < u64_mod) as Hl by (intros x Hx; eapply entry_id_fits; [exact Hea|set_solver]).
  assert (∀ x, x ∈ lb → x < u64_mod) as Hlb by (intros x; by eapply entry_id_fits).
  destruct (run_get now Hnow a _ _ s Hok (name_string a Ha) Hname) as (sid & E1 & Hsid & Hv1 & _).
  destruct (run_get now Hnow {| did_db_id := n |} _ _ s Hok (meta_string n Hn) Hm) as (sm & E2 & _ & _ & Hz2).
  pose proof (run_get_none now DatabaseId b _ s Hok (name_string b Hb) Hnew) as E3.
  destruct (run_get now Hnow {| ditn_db_id := n |} _ _ s Hok (back_string n Hn) Hback) as (sb & E4 & _ & Hv4 & _).
  destruct (run_list s a (l ++ [n]) Hok Ha (entry_list _ _ _ _ Hea)) as (ol & E5 & Hol & Hv5 & Hol').
  destruct (run_list s b lb Hok Hb (entry_list _ _ _ _ Heb)) as (olb & E6 & Holb & Hv6 & _).
  destruct (list_roundtrip (db_id_list_append n {| id_list := lb |})) as (b3 & Eb3 & Hb3);
    [apply Forall_app; split; [by apply Forall_forall|by repeat constructor]|].
  destruct (list_roundtrip {| id_list := l |}) as (b4 & Eb4 & Hb4); [by apply Forall_forall|].
  destruct (raw_roundtrip b) as (b5 & Eb5 & Hb5).
  destruct ol as [sl|]; [|by injection Hol as Hol; destruct l]. cbn [opt_value opt_seq default fmap option_fmap option_map] in Hol, Hv5.
  destruct (run_rename_txn a b n l lb (seq sid) (seq sb) (seq sl) (opt_seq olb) b3 b4 b5 s)
    as (s' & rs & E7 & H); [done..|]. exists s'. split; [|exact H].
  apply run_trial. fold a. change (tident_new (tident_tenant a) (rd_new_db_name req)) with b.
  etrans; [exact (run_step _ _ _ _ _ _ E1)|]. cbn beta iota zeta. rewrite Hsid.
  etrans; [exact (run_step _ _ _ _ _ _ E2)|]. cbn [opt_seq did_db_id]. unfold db_has_to_exist.
  destruct (N.eqb_spec (seq sm) 0) as [|_]; [done|]. client_binds.
  etrans; [exact (run_step _ _ _ _ _ _ E3)|]. cbn [opt_seq did_db_id]. unfold db_has_to_not_exist. cbn [N.eqb]. client_binds.
  etrans; [exact (run_step _ _ _ _ _ _ E4)|]. cbn [opt_seq did_db_id].
  etrans; [exact (run_step _ _ _ _ _ _ E5)|]. cbn [opt_seq opt_value default fmap option_fmap option_map]. rewrite Hol.
  unfold db_id_list_last, db_id_list_pop. cbn [id_list]. rewrite last_snoc, N.eqb_refl, removelast_app, app_nil_r by done. cbn [negb].
  etrans; [exact (run_step _ _ _ _ _ _ E6)|]. cbn beta iota zeta. rewrite Holb.
  unfold txn_cond_seq, txn_op_put, txn_op_del, serialize_struct.
  rewrite (name_string a Ha), (name_string b Hb), (list_string a Ha), (list_string b Hb), (back_string n Hn), Eb3, Eb4, Eb5.
  client_binds. exact (run_step _ _ _ _ _ _ E7).
Qed.
End operations.
