(* ===== verification/DatabaseTheorems.v ===== *)
(** What the schema API promises about databases: concurrent calls keep their
    records whole, and what each call does on its own. *)

From stdpp Require Import base orders sorting strings gmap numbers list relations.
From S2P Require Import Prelude BTree RustStr External ExpireKey MetaTypes Marked MapApi Level StateMap.
From S2P Require Import Txn StateMachine Applier ApplierSpec StateMachineProofs ApplierProofs ApplyProofs.
From S2P Require Import SpecFacts Replica ApplierTheorems SMV003 KeyCodec KeyCodecProofs AppKeys AppKeysProofs.
From S2P Require Import KVApi ProtoConv MetaApi ClientProofs ServeProofs IdProofs KvProtocol ApiTheorems.
From S2P Require Import DatabaseTypes Database DatabaseProofs DatabaseCalls DatabaseRuns.
Local Open Scope N_scope.

Section databases.
Context {raft : OpenRaft} {Mp : Type} `{!StateMap raft Mp, !StateMapLaws Mp}.
Context {sj : SerdeJson} `{!SerdeJsonLaws sj} {ch : Chrono} `{!ChronoLaws ch}.
Context `{!ProstMessage pb_DatabaseMeta, !ProstLaws pb_DatabaseMeta pb_database_fits}.
Context `{!ProstMessage pb_DbIdList, !ProstLaws pb_DbIdList pb_db_id_list_fits}.
Context `{!ProstMessage pb_TIdent, !ProstLaws pb_TIdent pb_tident_fits}.
Implicit Types (s : StateMachine Mp) (a b : DatabaseNameIdent) (n : N) (l : list N).

Abbreviation kvs s := (kvv (sm_map s)).

(** ** Concurrent calls *)

Inductive DbCall :=
  | CallCreate (req : CreateDatabaseReq)
  | CallDrop (req : DropDatabaseReq)
  | CallUndrop (req : UndropDatabaseReq)
  | CallRename (req : RenameDatabaseReq).

(** A call; [utc_now] are the times it reads. *)
Definition db_client (utc_now : nat → DateTime) (c : DbCall) : Client DbResult :=
  match c with
  | CallCreate req => x ← create_database utc_now req; mret (DbCreated x)
  | CallDrop req => x ← drop_database utc_now req; mret (DbDropped x)
  | CallUndrop req => _ ← undrop_database req; mret DbUndropped
  | CallRename req => _ ← rename_database req; mret DbRenamed
  end.

(** The names of a call have keys. *)
Definition db_call_ok (c : DbCall) : Prop :=
  match c with
  | CallCreate req => key_ok (cd_name_ident req)
  | CallDrop req => key_ok (dd_name_ident req)
  | CallUndrop req => key_ok (ud_name_ident req)
  | CallRename req => key_ok (rd_name_ident req) ∧ key_ok (new_name req)
  end.

Lemma db_client_safe utc_now c T st : db_call_ok c → safe db_protocol (db_client utc_now c) T st.
Proof.
  destruct c as [req|req|req|req]; cbn [db_call_ok db_client].
  - apply create_database_safe.
  - apply drop_safe.
  - apply undrop_safe.
  - intros []. by apply rename_safe.
Qed.

(** What any run of concurrent calls keeps. *)
Lemma db_run utc_now calls s s' cs :
  Forall db_call_ok calls → sm_ok s → databases (kvs s) →
  rtc (pool_step (avoids_keys is_db_key)) (s, db_client utc_now <$> calls) (s', cs) →
  databases (kvs s') ∧ keeps_listed (kvs s) (kvs s') ∧ ∀ i, cs !! i ≠ Some (Done CPanic).
Proof.
  intros Hcalls Hok HD Hr.
  pose proof (kv_protocol_laws is_db_key databases keeps_listed : ProtocolLaws db_protocol _) as HL.
  pose proof (kv_results databases keeps_listed : ResultLaws db_protocol _ _) as HRL.
  destruct (pool_reach db_protocol (avoids_keys is_db_key) (λ _ _, True) (λ _ _, True) s
    (db_client utc_now <$> calls) (replicate (length (db_client utc_now <$> calls)) ∅) s' cs) as (Ts & HP & Hrel); [|done|].
  { apply pool_start; [exact Hok|exact HD| |done|done].
    intros i c. rewrite list_lookup_fmap. intros (x & Hx & ->)%fmap_Some.
    apply db_client_safe. exact (proj1 (Forall_lookup _ _) Hcalls i x Hx). }
  split_and!; [exact (pool_good _ _ _ _ _ _ HP)|apply Hrel|intros i; by eapply pool_no_panic].
Qed.

(** C7: Concurrent calls keep the records of databases whole.  Any number of
    clients create, replace, drop, undrop and rename databases, their requests
    interleave in any way with each other and with requests that do not write
    the keys of databases, and requests or replies may be lost.  Then every name
    has a well-formed entry: its database, if it has one, is the last of its
    list; every database of the list has its record and knows its name, and is
    marked as dropped exactly when it is not the database of the name.  No
    database is lost from the lists, and no two names share one. *)
Theorem databases_integrity utc_now calls s s' cs :
  Forall db_call_ok calls → sm_ok s → databases (kvs s) →
  rtc (pool_step (avoids_keys is_db_key)) (s, db_client utc_now <$> calls) (s', cs) →
  (∀ a, key_ok a → ∃ o l, entry (kvs s') a o l) ∧
  (∀ n, listed (kvs s) n → listed (kvs s') n) ∧
  (∀ a b o o' l l' n, key_ok a → key_ok b → entry (kvs s') a o l → entry (kvs s') b o' l' → n ∈ l → n ∈ l' → a = b).
Proof.
  intros Hcalls Hok HD Hr. destruct (db_run utc_now calls s s' cs Hcalls Hok HD Hr) as (HD' & Hl & _).
  split_and!; [exact HD'|exact Hl|]. intros a b o o' l l' n Ha Hb Ea Eb Hn Hn'.
  destruct (entry_ids _ _ _ _ Eb n Hn') as (m & _ & Hback & _). by eapply entry_owner.
Qed.

(** C8: The records of databases are well typed in every run of concurrent calls,
    and no call panics.  What is under the key of a name decodes to an id of a
    database that has its record, and what is under the key of a list decodes
    to ids of databases with their records and their names: so neither the
    [unwrap] of [undrop_database] nor the [unreachable] of [rename_database]
    can fail. *)
Theorem database_records_typed utc_now calls s s' cs :
  Forall db_call_ok calls → sm_ok s → databases (kvs s) →
  rtc (pool_step (avoids_keys is_db_key)) (s, db_client utc_now <$> calls) (s', cs) →
  (∀ i, cs !! i ≠ Some (Done CPanic)) ∧
  ∀ a v, key_ok a →
    (kvs s' !! key_of (KName a) = Some v →
      ∃ (id : DatabaseId) (m : DatabaseMeta), decode_pb (data v) = Some id ∧ stored (kvs s') (key_of (KMeta (did_db_id id))) m) ∧
    (kvs s' !! key_of (KList a) = Some v →
      ∃ l : DbIdList, decode_pb (data v) = Some l ∧
        Forall (λ n, (∃ m : DatabaseMeta, stored (kvs s') (key_of (KMeta n)) m) ∧
                     (∃ r : DatabaseNameIdentRaw, stored (kvs s') (key_of (KBack n)) r)) (id_list l)).
Proof.
  intros Hcalls Hok HD Hr. destruct (db_run utc_now calls s s' cs Hcalls Hok HD Hr) as (HD' & _ & Hp).
  split; [exact Hp|]. intros a v Ha. destruct (HD' a Ha) as (o & l & He). split; intros Hv.
  - destruct o as [n|]; [|pose proof (entry_name _ _ _ _ He); congruence].
    destruct (entry_database _ _ _ _ He) as (m & ((v' & Hv' & _ & Hd) & _ & Hm) & _).
    rewrite Hv in Hv'. injection Hv' as <-. by eexists _, m.
  - destruct (entry_list _ _ _ _ He) as [(v' & Hv' & _ & Hd)|[? _]]; [|congruence].
    rewrite Hv in Hv'. injection Hv' as <-. eexists. split; [exact Hd|]. apply Forall_forall. intros n Hn.
    destruct (entry_ids _ _ _ _ He n Hn) as (m & Hm & Hb & _). eauto.
Qed.

(** ** Calls on their own *)

(** C26: Undoing a drop and a rename.  When no other call disturbs them,
    [drop_database] answers the id of the database, leaves its name free, keeps
    its list, and marks the record with the time of the drop; then
    [undrop_database] gives the name the same id and the same record again, and
    [get_database] answers them.  [rename_database] moves the database to the
    list of the new name, and renaming it back restores both names. *)
Theorem database_roundtrips now utc_now dreq ureq rreq rreq' n l lb (m : DatabaseMeta) s :
  let a := dd_name_ident dreq in
  let b := new_name rreq in
  now < u64_mod → ud_name_ident ureq = a → rd_name_ident rreq = a → rd_name_ident rreq' = b → new_name rreq' = a →
  key_ok a → key_ok b → sm_ok s → sequence (map_sys (sm_map s)) + 20 < u64_mod →
  databases (kvs s) → entry (kvs s) a (Some n) (l ++ [n]) → entry (kvs s) b None lb → stored (kvs s) (key_of (KMeta n)) m →
  (∃ s1 s2 info, mem_run now (drop_database utc_now dreq) s = (s1, COk n) ∧
    (entry (kvs s1) a None (l ++ [n]) ∧ stored (kvs s1) (key_of (KMeta n)) (set_drop_on (Some (utc_now 1%nat)) m)) ∧
    mem_run now (undrop_database ureq) s1 = (s2, COk tt) ∧ (entry (kvs s2) a (Some n) (l ++ [n]) ∧ databases (kvs s2)) ∧
    mem_run now (get_database a) s2 = (s2, COk info) ∧ di_database_id info = {| did_db_id := n |} ∧ data (di_meta info) = m) ∧
  (∃ s1 s2, mem_run now (rename_database rreq) s = (s1, COk tt) ∧
    (entry (kvs s1) a None l ∧ entry (kvs s1) b (Some n) (lb ++ [n])) ∧
    mem_run now (rename_database rreq') s1 = (s2, COk tt) ∧
    (entry (kvs s2) a (Some n) (l ++ [n]) ∧ entry (kvs s2) b None lb ∧ databases (kvs s2))).
Proof.
  intros a b Hnow Hu Hr Hrb Hra Ha Hb Hok Hroom HD He Heb Hm. split.
  - destruct (entry_database _ _ _ _ He) as (m0 & (_ & Hn & Hm0) & Hd & _ & Hlast). pose proof (stored_fun _ _ _ _ Hm0 Hm) as ->.
    destruct (run_drop now Hnow utc_now dreq n m (l ++ [n]) s Hok) as (s1 & E1 & Hok1 & Hle & HD1 & He1 & Hm1); [lia|done..|].
    fold a in He1. pose proof Ha as Ha'. rewrite <-Hu in Ha', He1.
    destruct (run_undrop now Hnow ureq n _ (l ++ [n]) s1 Hok1 ltac:(lia) Ha' HD1 He1 Hlast Hm1) as (s2 & E2 & Hok2 & HD2 & He2 & Hm2).
    assert (set_drop_on None (set_drop_on (Some (utc_now 1%nat)) m) = m) as Em.
    { destruct m. cbn in Hd. unfold set_drop_on. cbn. by rewrite Hd. }
    rewrite Em in Hm2. rewrite Hu in *.
    destruct (run_get_database now Hnow s2 a n m Hok2 Ha) as (info & E3 & Hid & _ & Him).
    { split_and!; [apply (entry_name _ _ _ _ He2)|done|done]. }
    by exists s1, s2, info.
  - rewrite <-Hr in Ha, He |- *.
    destruct (run_rename now Hnow rreq n l lb s) as (s1 & E1 & Hok1 & Hle & HD1 & He1 & Heb1); [done|lia|done..|].
    assert (new_name rreq' = rd_name_ident rreq) as Hy by by rewrite Hra, Hr.
    destruct (run_rename now Hnow rreq' n lb l s1) as (s2 & E2 & _ & _ & HD2 & Heb2 & He2);
      rewrite ?Hrb, ?Hy in *; [done|lia|done..|]. by exists s1, s2.
Qed.

(** A database for a name that has none. *)
Lemma run_create_new now utc_now req l s :
  let a := cd_name_ident req in
  let n := sequence (map_sys (sm_map s)) + 1 in
  now < u64_mod → sm_ok s → sequence (map_sys (sm_map s)) + 15 < u64_mod → key_ok a → databases (kvs s) →
  entry (kvs s) a None l → kvs s !! key_of (KBack n) = None → dm_drop_on (cd_meta req) = None →
  ∃ s', mem_run now (create_database utc_now req) s = (s', COk {| did_db_id := n |}) ∧ sm_ok s' ∧
    databases (kvs s') ∧ entry (kvs s') a (Some n) (l ++ [n]) ∧ stored (kvs s') (key_of (KMeta n)) (cd_meta req).
Proof.
  intros a n Hnow Hok Hroom Ha HD He Hback Hd. pose proof (entry_name _ _ _ _ He) as Hname.
  destruct (run_created now Hnow req 0 [] [] None l s) as (s' & E & Hok' & HD' & He' & Hmn & _);
    [done|done|done|done|done|done|by apply Forall_nil|by right|done|done|].
  exists s'. split_and!; [|done..]. unfold create_database. rewrite Hd. apply run_trial. fold a.
  etrans; [exact (run_step _ _ _ _ _ _ (run_get_none now DatabaseId a _ s Hok (name_string a Ha) Hname))|]. exact E.
Qed.

(** The part of [create_database] that replaces a database, on its own. *)
Lemma run_replace now utc_now req x l s (m : DatabaseMeta) :
  let a := cd_name_ident req in
  let n := sequence (map_sys (sm_map s)) + 1 in
  now < u64_mod → sm_ok s → sequence (map_sys (sm_map s)) + 15 < u64_mod → key_ok a → databases (kvs s) →
  entry (kvs s) a (Some x) l → stored (kvs s) (key_of (KMeta x)) m →
  kvs s !! key_of (KBack n) = None → dm_drop_on (cd_meta req) = None → cd_create_option req = CreateOrReplace →
  ∃ s', mem_run now (create_database utc_now req) s = (s', COk {| did_db_id := n |}) ∧
    databases (kvs s') ∧ entry (kvs s') a (Some n) (l ++ [n]) ∧ stored (kvs s') (key_of (KMeta n)) (cd_meta req) ∧
    stored (kvs s') (key_of (KMeta x)) (set_drop_on (Some (utc_now 1%nat)) m).
Proof.
  intros a n Hnow Hok Hroom Ha HD He Hm Hback Hd Hopt.
  destruct (entry_database _ _ _ _ He) as (m0 & Hdb & Hd0 & Hin & _). pose proof Hdb as (Hname & Hx & Hm0).
  pose proof (stored_fun _ _ _ _ Hm0 Hm) as ->.
  destruct (run_get now Hnow a _ _ s Hok (name_string a Ha) Hname) as (curr & E1 & _ & Hv1 & _).
  destruct (run_drop_meta now Hnow (utc_now 1%nat) a false false x m l s) as (sid & sm & bm & extra & E2 & Hsid & Hbm & Hv & Hex);
    [done|done|done|by apply He|done|].
  assert (extra = None) as ->.
  { destruct extra as [bl|]; [|done]. assert (kvs s !! key_of (KList a) = None) as Hl by (apply Hex; by eexists).
    destruct (entry_list _ _ _ _ He) as [[]%stored_some|[_ ->]]; [congruence|by apply elem_of_nil in Hin]. }
  destruct sid as [sq mt d]. cbn [data] in Hsid. subst d. set (sid := mk_SeqV sq mt {| did_db_id := x |}) in *.
  apply Forall_cons in Hv as [_ Hv].
  destruct (run_created now Hnow req (seq curr) (drop_conds a false sid sm None) (drop_effects a false sid bm None) (Some x) l s)
    as (s' & E3 & _ & HD' & He' & Hmn & Hmx);
    [done|done|done|done|done| | |done|done|done|].
  { by exists bm, (set_drop_on (Some (utc_now 1%nat)) m). }
  { apply Forall_singleton. split; [exact Hx|]. by apply (proj1 (Forall_singleton _ _)) in Hv. }
  exists s'. split_and!; [|exact HD'|exact He'|exact Hmn|].
  - unfold create_database. rewrite Hd. apply run_trial. fold a. etrans; [exact (run_step _ _ _ _ _ _ E1)|]. cbn beta iota.
    rewrite Hopt. etrans; [exact (run_step _ _ _ _ _ _ E2)|]. exact E3.
  - by eapply Hmx; [|done|exact Hbm].
Qed.

(** C22: [create_database] on every branch, when no other call disturbs it.  A
    record with a drop time is refused.  For a name that has a database,
    [Create] is refused, [CreateIfNotExists] answers that database, and neither
    changes anything; [CreateOrReplace] marks it as dropped.  In the other
    cases the database is new: its id is the next sequence number, it is the
    database of the name and the last of its list, and has the given record. *)
Theorem create_database_branches now utc_now req o l s :
  let a := cd_name_ident req in
  let n := sequence (map_sys (sm_map s)) + 1 in
  now < u64_mod → sm_ok s → sequence (map_sys (sm_map s)) + 15 < u64_mod → key_ok a → databases (kvs s) →
  entry (kvs s) a o l → kvs s !! key_of (KBack n) = None →
  match dm_drop_on (cd_meta req), o, cd_create_option req with
  | Some _, _, _ => mem_run now (create_database utc_now req) s = (s, CErr (EApp CreateDatabaseWithDropTime))
  | None, Some _, Create => mem_run now (create_database utc_now req) s = (s, CErr (EApp DatabaseAlreadyExists))
  | None, Some x, CreateIfNotExists => mem_run now (create_database utc_now req) s = (s, COk {| did_db_id := x |})
  | None, _, _ => ∃ s', mem_run now (create_database utc_now req) s = (s', COk {| did_db_id := n |}) ∧
      databases (kvs s') ∧ entry (kvs s') a (Some n) (l ++ [n]) ∧ stored (kvs s') (key_of (KMeta n)) (cd_meta req) ∧
      ∀ x m, o = Some x → stored (kvs s) (key_of (KMeta x)) m →
        stored (kvs s') (key_of (KMeta x)) (set_drop_on (Some (utc_now 1%nat)) m)
  end.
Proof.
  intros a n Hnow Hok Hroom Ha HD He Hback. destruct (dm_drop_on (cd_meta req)) eqn:Hd.
  { unfold create_database. by rewrite Hd. }
  destruct o as [x|].
  - destruct (entry_database _ _ _ _ He) as (m & (Hname & Hx & Hm) & _).
    destruct (run_get now Hnow a _ _ s Hok (name_string a Ha) Hname) as (curr & E1 & Ecurr & _).
    destruct (cd_create_option req) eqn:Hopt.
    + unfold create_database. rewrite Hd. apply run_trial_err.
      fold a. etrans; [exact (run_step _ _ _ _ _ _ E1)|]. cbn beta iota. by rewrite Hopt.
    + unfold create_database. rewrite Hd. apply run_trial. fold a.
      etrans; [exact (run_step _ _ _ _ _ _ E1)|]. cbn beta iota. by rewrite Hopt, Ecurr.
    + destruct (run_replace now utc_now req x l s m) as (s' & E & HD' & He' & Hmn & Hmx); [done..|].
      exists s'. split_and!; [exact E|exact HD'|exact He'|exact Hmn|].
      intros x' m' [= <-] Hm'. by rewrite <-(stored_fun _ _ _ _ Hm Hm').
  - destruct (run_create_new now utc_now req l s) as (s' & E & _ & HD' & He' & Hmn); [done..|].
    destruct (cd_create_option req); by exists s'.
Qed.

(** C32: What the calls on databases lose or do not check.  Replacing a database that
    has no list of ids, as databases that are older than the lists have none: the
    transaction of [create_database] puts the list with the old id, and then the list
    with the new id alone under the same key, so that the old database is marked as
    dropped and in no list, and can be neither undropped nor listed in the history.
    [undrop_database] restores a database whose purge has begun ([gc_in_progress]) like
    any other, and it stays marked; and when the record of the last database of the list
    is gone, the call panics. *)
Theorem database_history_gaps now a s (m : DatabaseMeta) :
  let n := sequence (map_sys (sm_map s)) + 1 in
  now < u64_mod → key_ok a → sm_ok s → sequence (map_sys (sm_map s)) + 15 < u64_mod →
  (∀ utc_now req x, cd_name_ident req = a → cd_create_option req = CreateOrReplace → dm_drop_on (cd_meta req) = None →
     stored (kvs s) (key_of (KName a)) {| did_db_id := x |} → x < n → stored (kvs s) (key_of (KMeta x)) m → dm_drop_on m = None →
     kvs s !! key_of (KList a) = None → kvs s !! key_of (KBack n) = None →
     ∃ s', mem_run now (create_database utc_now req) s = (s', COk {| did_db_id := n |}) ∧
       stored (kvs s') (key_of (KName a)) {| did_db_id := n |} ∧ stored (kvs s') (key_of (KList a)) {| id_list := [n] |} ∧
       stored (kvs s') (key_of (KMeta x)) (set_drop_on (Some (utc_now 1%nat)) m)) ∧
  (∀ req x l, ud_name_ident req = a → last l = Some x →
     (databases (kvs s) → entry (kvs s) a None l → stored (kvs s) (key_of (KMeta x)) m → dm_gc_in_progress m = true →
       ∃ s' m', mem_run now (undrop_database req) s = (s', COk tt) ∧ entry (kvs s') a (Some x) l ∧
         stored (kvs s') (key_of (KMeta x)) m' ∧ dm_gc_in_progress m' = true ∧ dm_drop_on m' = None) ∧
     (kvs s !! key_of (KName a) = None → stored (kvs s) (key_of (KList a)) {| id_list := l |} → x < u64_mod →
       kvs s !! key_of (KMeta x) = None → mem_run now (undrop_database req) s = (s, CPanic))).
Proof.
  intros n Hnow Ha Hok Hroom. split.
  - intros utc_now req x Hreq Hopt Hd Hname Hlt Hm Hd0 Hlist Hback. subst a. set (a := cd_name_ident req) in *.
    assert (x < u64_mod) as Hx by lia.
    assert (n < u64_mod) as Hn by lia.
    assert (has_ids (kvs s) a []) as Hids by by right.
    destruct (run_get now Hnow a _ _ s Hok (name_string a Ha) Hname) as (curr & E1 & _ & Hv1 & _).
    destruct (run_drop_meta now Hnow (utc_now 1%nat) a false false x m [] s) as (sid & sm & bm & extra & E2 & Hsid & Hbm & Hv & Hex);
      [done..|]. destruct (proj2 Hex Hlist) as [bl ->].
    destruct sid as [sq mt d]. cbn [data] in Hsid. subst d. set (sid := mk_SeqV sq mt {| did_db_id := x |}) in *.
    apply Forall_cons in Hv as [_ [Hv2 [Hv3 _]%Forall_cons]%Forall_cons].
    destruct (run_create_rest now Hnow req (seq curr) (drop_conds a false sid sm (Some bl)) (drop_effects a false sid bm (Some bl)) [] s)
      as (s' & kv & b2 & b3 & b4 & E3 & _ & _ & (_ & Hb3 & _) & Hw); [done| |done|keys_ok| |done|done|done|by apply Forall_nil|].
    { cbn [drop_effects length app]. lia. }
    { repeat (apply Forall_cons; split; [done|]). by apply Forall_nil. }
    fold a n in E3, Hw, Hb3. exists s'. split_and!.
    * unfold create_database. rewrite Hd. apply run_trial. fold a. etrans; [exact (run_step _ _ _ _ _ _ E1)|]. cbn beta iota.
      rewrite Hopt. etrans; [exact (run_step _ _ _ _ _ _ E2)|]. exact E3.
    * eapply (written_put [_; _] [_; _; _] kv _ (KName a)); [exact (Hw (KName a) Ha)| |by apply id_decode].
      cbn. rewrite !elem_of_cons, elem_of_nil. by intros [?|[?|[?|[]]]].
    * eapply (written_put [_; _; _; _] [_] kv _ (KList a)); [exact (Hw (KList a) Ha)| |exact Hb3].
      cbn. rewrite !elem_of_cons, elem_of_nil. by intros [?|[]].
    * eapply (written_put [] [_; _; _; _; _] kv _ (KMeta x)); [exact (Hw (KMeta x) Hx)| |exact Hbm].
      cbn. rewrite !elem_of_cons, elem_of_nil. intros [?|[?|[[=]|[?|[?|[]]]]]]; try done. lia.
  - intros req x l <- Hlast. set (a := ud_name_ident req) in *.
    assert (sequence (map_sys (sm_map s)) + 5 < u64_mod) as Hroom' by lia. split.
    * intros HD He Hm Hgc. destruct (run_undrop now Hnow req x m l s) as (s' & E & _ & _ & He' & Hm'); [done..|].
      by exists s', (set_drop_on None m).
    * intros Hname Hl Hx Hm. apply run_trial_panic. fold a.
      etrans; [exact (run_try_stop _ _ _ _ _ _ (run_lookup_none now s a Hok Ha Hname))|]. cbn beta iota.
      destruct (run_get now Hnow (history_ident a) _ _ s Hok (list_string a Ha) Hl) as (sl & E1 & Hsl & _).
      etrans; [exact (run_step _ _ _ _ _ _ E1)|]. cbn beta iota. rewrite Hsl. unfold db_id_list_last. cbn [id_list]. rewrite Hlast.
      exact (run_step _ _ _ _ _ _ (run_get_none now DatabaseMeta {| did_db_id := x |} _ s Hok (meta_string x Hx) Hm)).
Qed.

End databases.

(** ** Examples *)

Module DbEx.
Import LogEx.
#[local] Existing Instances digits_json digits_json_laws text_chrono text_chrono_laws.
#[local] Existing Instances text_database text_database_laws text_db_id_list text_db_id_list_laws.
#[local] Existing Instances text_tident text_tident_laws.

Definition name (d : string) : DatabaseNameIdent := tident_new {| tenant := "t" |} d.
Definition meta1 (gc : bool) : DatabaseMeta :=
  {| dm_engine := "e"; dm_engine_options := ∅; dm_options := ∅; dm_created_on := "now" : DateTime;
     dm_updated_on := "now" : DateTime; dm_comment := ""; dm_drop_on := None; dm_gc_in_progress := gc |}.
Definition utc (i : nat) : DateTime := "later".
Definition create (gc : bool) (o : CreateOption) : CreateDatabaseReq :=
  {| cd_create_option := o; cd_name_ident := name "a"; cd_meta := meta1 gc |}.
Definition drop : DropDatabaseReq := {| dd_if_exists := false; dd_name_ident := name "a" |}.
Definition undrop : UndropDatabaseReq := {| ud_name_ident := name "a" |}.
Definition rename : RenameDatabaseReq := {| rd_if_exists := false; rd_name_ident := name "a"; rd_new_db_name := "b" |}.

Lemma a_ok : key_ok (name "a").
Proof. vm_compute. repeat split; discriminate. Qed.
Lemma b_ok : key_ok (new_name rename).
Proof. vm_compute. repeat split; discriminate. Qed.

Lemma empty_databases : databases (kvv (sm_map mem0)).
Proof. intros a Ha. exists None, []. split; [reflexivity|by right|constructor|by intros n ?%elem_of_nil]. Qed.
Lemma empty_entry : DatabaseProofs.entry (kvv (sm_map mem0)) (name "a") None [].
Proof. split; [reflexivity|by right|constructor|by intros n ?%elem_of_nil]. Qed.

(** The meta-service with the database 1 under the name [a]. *)
Definition db1 (gc : bool) : StateMachine Level := (mem_run 1000 (create_database utc (create gc Create)) mem0).1.

Lemma db1_facts gc :
  sm_ok (db1 gc) ∧ databases (kvv (sm_map (db1 gc))) ∧ DatabaseProofs.entry (kvv (sm_map (db1 gc))) (name "a") (Some 1) [1] ∧
  stored (kvv (sm_map (db1 gc))) (key_of (KMeta 1)) (meta1 gc).
Proof.
  destruct (run_create_new 1000 utc (create gc Create) [] mem0) as (s' & E & H);
    [done|exact mem0_ok|done|exact a_ok|exact empty_databases|exact empty_entry|reflexivity|done|].
  unfold db1. rewrite E. exact H.
Qed.

(** Three clients: one replaces the database, one renames it, one drops it.  All
    read the name before one of them writes. *)
Definition calls : list DbCall := [CallCreate (create false CreateOrReplace); CallRename rename; CallDrop drop].
Definition order : list nat :=
  [0; 1; 2; 0; 1; 2; 0; 1; 2; 0; 1; 2; 0; 1; 2; 0; 1; 2; 0; 1; 2; 0; 1; 2; 0; 0; 0; 0; 0; 0]%nat.
Definition pool : StateMachine Level * list (Client DbResult) :=
  schedule 2000 order (db1 false, db_client utc <$> calls).
Lemma db_calls_ok : Forall db_call_ok calls.
Proof. pose proof a_ok. pose proof b_ok. keys_ok. Qed.
Lemma db_pool_results : ApiEx.result_of <$> pool.2 = [
  Some (COk (DbCreated {| did_db_id := 8 |})); Some (CErr (EApp UnknownDatabase)); Some (COk (DbDropped 1))].
Proof. vm_compute. reflexivity. Qed.

Lemma databases_integrity_witness :
  (∃ o l, DatabaseProofs.entry (kvv (sm_map pool.1)) (name "a") o l) ∧ listed (kvv (sm_map pool.1)) 1.
Proof.
  destruct (db1_facts false) as (Hok & HD & He & _).
  destruct (databases_integrity utc calls (db1 false) pool.1 pool.2) as (H1 & H2 & _).
  - exact db_calls_ok.
  - exact Hok.
  - exact HD.
  - rewrite <-surjective_pairing. apply schedule_steps. reflexivity.
  - split; [exact (H1 _ a_ok)|]. apply H2. exists (name "a"), (Some 1), [1]. split_and!; [exact a_ok|exact He|by left].
Defined.

Lemma database_records_typed_witness :
  pool.2 !! 0%nat ≠ Some (Done CPanic) ∧ pool.2 !! 1%nat ≠ Some (Done CPanic) ∧ pool.2 !! 2%nat ≠ Some (Done CPanic).
Proof.
  destruct (db1_facts false) as (Hok & HD & _).
  destruct (database_records_typed utc calls (db1 false) pool.1 pool.2) as [H _].
  - exact db_calls_ok.
  - exact Hok.
  - exact HD.
  - rewrite <-surjective_pairing. apply schedule_steps. reflexivity.
  - split; [exact (H 0%nat)|]. split; [exact (H 1%nat)|exact (H 2%nat)].
Defined.

Definition rename_back : RenameDatabaseReq := {| rd_if_exists := false; rd_name_ident := name "b"; rd_new_db_name := "a" |}.
Lemma database_roundtrips_witness :
  ∃ s1 s2, mem_run 2000 (rename_database rename) (db1 false) = (s1, COk tt) ∧
    mem_run 2000 (rename_database rename_back) s1 = (s2, COk tt) ∧
    DatabaseProofs.entry (kvv (sm_map s2)) (name "a") (Some 1) [1].
Proof.
  destruct (db1_facts false) as (Hok & HD & He & Hm).
  assert (DatabaseProofs.entry (kvv (sm_map (db1 false))) (name "b") None []) as Heb.
  { split; [vm_compute; reflexivity|right; split; [vm_compute; reflexivity|reflexivity]|constructor|by intros n ?%elem_of_nil]. }
  destruct (database_roundtrips 2000 utc drop undrop rename rename_back 1 [] [] (meta1 false) (db1 false))
    as [_ (s1 & s2 & E1 & _ & E2 & H & _)];
    [done|done|done|done|done|exact a_ok|exact b_ok|exact Hok|vm_compute; reflexivity|exact HD|exact He|exact Heb|exact Hm|].
  exists s1, s2. split; [exact E1|]. split; [exact E2|exact H].
Defined.

Lemma create_database_branches_witness :
  ∃ s', mem_run 2000 (create_database utc (create false CreateOrReplace)) (db1 false) = (s', COk {| did_db_id := 6 |}) ∧
    DatabaseProofs.entry (kvv (sm_map s')) (name "a") (Some 6) [1; 6].
Proof.
  destruct (db1_facts false) as (Hok & HD & He & _).
  destruct (create_database_branches 2000 utc (create false CreateOrReplace) (Some 1) [1] (db1 false)) as (s' & E & _ & H & _);
    [done|exact Hok|vm_compute; reflexivity|exact a_ok|exact HD|exact He|vm_compute; reflexivity|].
  exists s'. split; [exact E|exact H].
Defined.

(** A database whose purge has begun, dropped. *)
Definition gc1 : StateMachine Level := (mem_run 1500 (drop_database utc drop) (db1 true)).1.
Lemma gc1_facts :
  sm_ok gc1 ∧ databases (kvv (sm_map gc1)) ∧ DatabaseProofs.entry (kvv (sm_map gc1)) (name "a") None [1] ∧
  stored (kvv (sm_map gc1)) (key_of (KMeta 1)) (set_drop_on (Some (utc 1%nat)) (meta1 true)).
Proof.
  destruct (db1_facts true) as (Hok & HD & He & Hm).
  destruct (run_drop 1500 eq_refl utc drop 1 (meta1 true) [1] (db1 true)) as (s' & E & Hok' & _ & HD' & He' & Hm');
    [exact Hok|vm_compute; reflexivity|exact a_ok|exact HD|exact He|exact Hm|].
  unfold gc1. rewrite E. split_and!; [exact Hok'|exact HD'|exact He'|exact Hm'].
Qed.

(** A database without a list. *)
Definition old1 : StateMachine Level :=
  ApiEx.with_record (key_of (KName (name "a"))) (serialize_u64 1)
    (ApiEx.with_record (key_of (KMeta 1)) (default EmptyString (encode_pb (meta1 false))) mem0).
Lemma old1_ok : sm_ok old1.
Proof. apply ApiEx.with_record_ok; [|reflexivity]. apply ApiEx.with_record_ok; [exact mem0_ok|reflexivity]. Qed.

Lemma database_history_gaps_witness :
  (∃ s', mem_run 2000 (create_database utc (create false CreateOrReplace)) old1 = (s', COk {| did_db_id := 3 |}) ∧
    stored (kvv (sm_map s')) (key_of (KList (name "a"))) {| id_list := [3] |}) ∧
  ∃ s' m', mem_run 2000 (undrop_database undrop) gc1 = (s', COk tt) ∧
    stored (kvv (sm_map s')) (key_of (KMeta 1)) m' ∧ dm_gc_in_progress m' = true.
Proof.
  split.
  - destruct (database_history_gaps 2000 (name "a") old1 (meta1 false) ltac:(done) a_ok old1_ok ltac:(vm_compute; reflexivity)) as [H _].
    destruct (H utc (create false CreateOrReplace) 1) as (s' & E & _ & Hl & _).
    1-3: done.
    + eexists. split; [vm_compute; reflexivity|]. split; vm_compute; reflexivity.
    + vm_compute. reflexivity.
    + eexists. split; [vm_compute; reflexivity|]. split; vm_compute; reflexivity.
    + done.
    + vm_compute. reflexivity.
    + vm_compute. reflexivity.
    + exists s'. split; [exact E|exact Hl].
  - destruct gc1_facts as (Hok & HD & He & Hm).
    destruct (database_history_gaps 2000 (name "a") gc1 (set_drop_on (Some (utc 1%nat)) (meta1 true)) ltac:(done) a_ok Hok
      ltac:(vm_compute; reflexivity)) as [_ H].
    destruct (H undrop 1 [1] eq_refl eq_refl) as [H1 _]. destruct (H1 HD He Hm eq_refl) as (s' & m' & E & _ & Hm' & Hgc & _).
    exists s', m'. split; [exact E|]. split; [exact Hm'|exact Hgc].
Defined.

End DbEx.
