(* ===== verification/ClockPool.v ===== *)
(** Pools of clients under a common clock: every request is served at a time that is
    not before the times of the requests before it.  What the clients guarantee to
    each other can then speak about expiration. *)

From stdpp Require Import base orders sorting strings gmap numbers list relations.
From S2P Require Import Prelude BTree RustStr External ExpireKey MetaTypes Marked MapApi Level StateMap.
From S2P Require Import Txn StateMachine Applier ApplierSpec StateMachineProofs ApplierProofs ApplyProofs.
From S2P Require Import SpecFacts Replica SMV003 MemMetaProofs KVApi KeyCodec ProtoConv MetaApi ClientProofs.
Local Open Scope N_scope.

Section clock.
Context {raft : OpenRaft} {Mp : Type} `{!StateMap raft Mp, !StateMapLaws Mp} {A : Type}.
Implicit Types (cs : list (Client A)) (s : StateMachine Mp) (t now : N).

Definition served_at now {B} (req : KVReq B) (b : B) s s' : Prop :=
  now < u64_mod ∧ sequence (map_sys (sm_map s)) + req_cost req + 1 < u64_mod ∧ mem_serve now req s = (s', Ok b).

Inductive clock_step (other : ∀ B, KVReq B → Prop) : relation (N * StateMachine Mp * list (Client A)) :=
| clock_serve t now s cs i B (req : KVReq B) k b s' :
    cs !! i = Some (Call req k) → t ≤ now → served_at now req b s s' →
    clock_step other (t, s, cs) (now, s', <[i := k (inl b)]> cs)
| clock_lose_request t s cs i B (req : KVReq B) k e :
    cs !! i = Some (Call req k) → clock_step other (t, s, cs) (t, s, <[i := k (inr e)]> cs)
| clock_lose_reply t now s cs i B (req : KVReq B) k b s' e :
    cs !! i = Some (Call req k) → t ≤ now → served_at now req b s s' →
    clock_step other (t, s, cs) (now, s', <[i := k (inr e)]> cs)
| clock_other t now s cs B (req : KVReq B) b s' :
    other B req → t ≤ now → served_at now req b s s' → clock_step other (t, s, cs) (now, s', cs).

(** Run the clients of a pool in the given order, each request at its time. *)
Fixpoint clock_schedule (order : list (N * nat)) (p : N * StateMachine Mp * list (Client A)) :
    N * StateMachine Mp * list (Client A) :=
  match order with
  | [] => p
  | (now, i) :: order =>
      match p.2 !! i with
      | Some (@Call _ B req k) =>
          if (p.1.1 <=? now) && (now <? u64_mod) && (sequence (map_sys (sm_map p.1.2)) + req_cost req + 1 <? u64_mod) then
            match mem_serve now req p.1.2 with
            | (s, Ok b) => clock_schedule order (now, s, <[i := k (inl b)]> p.2)
            | _ => p
            end
          else p
      | _ => clock_schedule order p
      end
  end.

Lemma clock_schedule_steps other order p : rtc (clock_step other) p (clock_schedule order p).
Proof.
  revert p. induction order as [|[now i] order IH]; intros [[t s] cs]; [done|]. cbn [clock_schedule fst snd].
  destruct (cs !! i) as [[r|B req k]|] eqn:Hi; [apply IH| |apply IH].
  destruct (_ && _ && _) eqn:Hg; [|done]. apply andb_prop in Hg as [[Ht Hnow]%andb_prop Hroom].
  destruct (mem_serve now req s) as [s' [b|e|]] eqn:E; [|done|done].
  apply N.leb_le in Ht. apply N.ltb_lt in Hnow, Hroom. eapply rtc_l; [|apply IH]. by eapply clock_serve.
Qed.
End clock.

(** ** A client of a pool that takes its steps without the others *)

(** The requests of the client cost at most [n], whatever the replies are. *)
Fixpoint client_costs {B} (c : Client B) (n : N) : Prop :=
  match c with
  | Done _ => True
  | Call req k => req_cost req ≤ n ∧ ∀ r, client_costs (k r) (n - req_cost req)
  end.

Lemma client_costs_mono {B} (c : Client B) n n' : client_costs c n → n ≤ n' → client_costs c n'.
Proof.
  revert n n'. induction c as [r|X req k IH]; intros n n' Hc Hn; [done|]. destruct Hc as [H1 H2]. split; [lia|].
  intros r. eapply IH; [apply H2|lia].
Qed.
Lemma client_costs_bind {B C} (f : B → Client C) c n n' :
  client_costs c n → (∀ x, client_costs (f x) n') → client_costs (client_bind f c) (n + n').
Proof.
  intros Hc Hf. revert n Hc. induction c as [[x|e|]|X req k IH]; intros n Hc; [|done|done|].
  - eapply client_costs_mono; [apply Hf|lia].
  - destruct Hc as [H1 H2]. split; [lia|]. intros r. replace (n + n' - req_cost req) with (n - req_cost req + n') by lia.
    by apply IH.
Qed.

(** [K] is the rest of the client around [c]. *)
Lemma clock_run {raft : OpenRaft} {Mp : Type} `{!StateMap raft Mp, !StateMapLaws Mp} {A B} other (K : Client B → Client A)
    now t (s s' : StateMachine Mp) cs i c n x :
  (∀ X (req : KVReq X) k, K (Call req k) = Call req (λ r, K (k r))) →
  sm_ok s → client_costs c n → sequence (map_sys (sm_map s)) + n + 1 < u64_mod → now < u64_mod → t ≤ now →
  cs !! i = Some (K c) → mem_run now c s = (s', COk x) →
  (∃ t', t' ≤ now ∧ rtc (clock_step other) (t, s, cs) (t', s', <[i := K (Done (COk x))]> cs)) ∧
  sequence (map_sys (sm_map s')) ≤ sequence (map_sys (sm_map s)) + n.
Proof.
  intros HK Hok Hc Hroom Hnow Ht Hi E. revert t s cs n Hok Hc Hroom Ht Hi E.
  induction c as [r|X req k IH]; intros t s cs n Hok Hc Hroom Ht Hi E.
  - injection E as <- ->. split; [|lia]. exists t. split; [done|]. by rewrite list_insert_id.
  - destruct Hc as [Hn Hk]. destruct (mem_serve_spec now req s Hok Hnow) as (s1 & Es & Hok1 & _ & Hseq); [lia|].
    cbn [mem_run] in E. rewrite Es in E. set (b := (sp_serve now req (abs s)).2) in *. rewrite HK in Hi.
    destruct (IH (inl b) now s1 (<[i := K (k (inl b))]> cs) (n - req_cost req)) as [(t' & Ht' & Hrun) Hle].
    + done.
    + apply Hk.
    + lia.
    + done.
    + apply list_lookup_insert_eq. by eapply lookup_lt_Some.
    + exact E.
    + split; [|lia]. exists t'. split; [done|]. rewrite list_insert_insert_eq in Hrun. eapply rtc_l; [|exact Hrun].
      apply (clock_serve other t now s cs i X req (λ r, K (k r)) b s1); [exact Hi|done|]. split_and!; [done|lia|exact Es].
Qed.

Lemma run_cost {raft : OpenRaft} {Mp : Type} `{!StateMap raft Mp, !StateMapLaws Mp} {B} now (s s' : StateMachine Mp) (c : Client B) n x :
  sm_ok s → client_costs c n → sequence (map_sys (sm_map s)) + n + 1 < u64_mod → now < u64_mod → mem_run now c s = (s', COk x) →
  sequence (map_sys (sm_map s')) ≤ sequence (map_sys (sm_map s)) + n.
Proof. intros H1 H2 H3 H4 E. by apply (clock_run (λ _ _, False) id now now s s' [c] 0%nat c n x). Qed.

(** ** Protocols with a clock

    A state is a time and a state of the meta-service.  [clevel] is a number that
    only grows; a step of a client may grant it the numbers by which the level
    grows, as tickets of its own. *)
Section protocol.
Context {raft : OpenRaft}.
Implicit Types (st : Spec) (T : gset N) (t now : N) (w : N * Spec).

Record ClockProtocol := {
  cgood : N * Spec → Prop;
  crely : relation (N * Spec);
  clevel : Spec → N;
}.

Class ClockLaws (P : ClockProtocol) (other : ∀ B, KVReq B → Prop) : Prop := {
  crely_preorder :: PreOrder (crely P);
  crely_equiv t st st' : st ≡ st' → crely P (t, st) (t, st');
  cgood_proper t st st' : st ≡ st' → cgood P (t, st) → cgood P (t, st');
  crely_level w w' : crely P w w' → clevel P w.2 ≤ clevel P w'.2;
  other_clock B (req : KVReq B) t now st :
    other B req → Inv st → cgood P (t, st) → t ≤ now → now < u64_mod → sequence (sp_sys st) + req_cost req + 1 < u64_mod →
    cgood P (now, (sp_serve now req st).1) ∧ crely P (t, st) (now, (sp_serve now req st).1);
}.

(** What a client has established when it returns, with its tickets; the others do
    not destroy it. *)
Definition Post (A : Type) := A → gset N → N * Spec → Prop.
Definition stable {A} (P : ClockProtocol) (Q : Post A) : Prop := ∀ a T w w', crely P w w' → Q a T w → Q a T w'.

(** The client keeps the protocol from [w] on, does not panic, and establishes [Q]. *)
Fixpoint csafe {A} (P : ClockProtocol) (Q : Post A) (c : Client A) T (w : N * Spec) : Prop :=
  match c with
  | Done (COk a) => Q a T w
  | Done (CErr _) => True
  | Done CPanic => False
  | @Call _ B req k =>
      (∀ e T' w', csafe P Q (k (inr e)) T' w') ∧
      ∀ t st now,
      crely P w (t, st) → Inv st → cgood P (t, st) → t ≤ now → now < u64_mod →
      sequence (sp_sys st) + req_cost req + 1 < u64_mod →
      let st' := (sp_serve now req st).1 in
      cgood P (now, st') ∧ crely P (t, st) (now, st') ∧
      ∃ T', (∀ n, n ∈ T' → n ∈ T ∨ clevel P st < n ≤ clevel P st') ∧
        csafe P Q (k (inl (sp_serve now req st).2)) T' (now, st')
  end.

Section rules.
Context (P : ClockProtocol).

(** The same request, and a continuation that is safe when the other one is. *)
Lemma csafe_call {A A' B} (Q : Post A) (Q' : Post A') (req : KVReq B) k k' T w :
  csafe P Q (Call req k) T w → (∀ r T w, csafe P Q (k r) T w → csafe P Q' (k' r) T w) → csafe P Q' (Call req k') T w.
Proof.
  intros [He Hs] Hk. split; [intros; by apply Hk|]. intros t st now H1 H2 H3 H4 H5 H6.
  destruct (Hs t st now H1 H2 H3 H4 H5 H6) as (? & ? & T' & HT & Hk'). split_and!; [done|done|]. exists T'.
  split; [done|]. by apply Hk.
Qed.

Lemma csafe_bind {A B} (Q : Post A) (Q' : Post B) (f : A → Client B) c T w :
  csafe P Q c T w → (∀ a T w, Q a T w → csafe P Q' (f a) T w) → csafe P Q' (client_bind f c) T w.
Proof.
  intros Hc Hf. revert T w Hc. induction c as [[a|e|]|B' req k IH]; intros T w Hc; [by apply Hf|done|done|].
  exact (csafe_call _ _ _ _ _ _ _ Hc IH).
Qed.

(** A client that handles the errors of another. *)
Lemma csafe_try {A} (c : Client A) T w :
  csafe P (λ _ _ _, True) c T w → csafe P (λ _ _ _, True) (try_client c) T w.
Proof.
  revert T w. induction c as [[a|e|]|B req k IH]; intros T w Hc; [done|done|done|].
  exact (csafe_call _ _ _ _ _ _ _ Hc IH).
Qed.

Lemma csafe_post {A} (Q Q' : Post A) c T w : csafe P Q c T w → (∀ a T w, Q a T w → Q' a T w) → csafe P Q' c T w.
Proof.
  intros Hc HQ. revert T w Hc. induction c as [[a|e|]|B req k IH]; intros T w Hc; [by apply HQ|done|done|].
  exact (csafe_call _ _ _ _ _ _ _ Hc IH).
Qed.

(** A loop of trials keeps [J] until a trial returns. *)
Lemma csafe_trials {A} (J : gset N → N * Spec → Prop) (Q : Post A) n i (body : nat → Client (option A)) T w :
  (∀ i T w, J T w → csafe P (λ o T w, match o with Some a => Q a T w | None => J T w end) (body i) T w) →
  J T w → csafe P Q (txn_trials n i body) T w.
Proof.
  intros Hb. revert i T w. induction n as [|n IH]; intros i T w HJ; [done|]. cbn [txn_trials].
  eapply csafe_bind; [by apply Hb|]. intros [a|] T' w' H; [done|by apply IH].
Qed.
End rules.
End protocol.

(** ** Pools *)

Section pool.
Context {raft : OpenRaft} {Mp : Type} `{!StateMap raft Mp, !StateMapLaws Mp} {A : Type}.
Implicit Types (st : Spec) (c : Client A) (cs : list (Client A)) (s : StateMachine Mp) (T : gset N) (t now : N).

(** The state of a pool that keeps the protocol. *)
Record clock_ok (P : ClockProtocol) (Q : Post A) t s cs (Ts : list (gset N)) : Prop := {
  clock_sm : sm_ok s;
  clock_good : cgood P (t, abs s);
  clock_safe : ∀ i c, cs !! i = Some c → ∃ T, Ts !! i = Some T ∧ csafe P Q c T (t, abs s);
  clock_bounded : ∀ i T n, Ts !! i = Some T → n ∈ T → n ≤ clevel P (abs s);
  clock_disjoint : ∀ i j T T', i ≠ j → Ts !! i = Some T → Ts !! j = Some T' → T ## T';
}.

Lemma clock_no_panic P Q t s cs Ts i : clock_ok P Q t s cs Ts → cs !! i ≠ Some (Done CPanic).
Proof. intros HP Hi. by destruct (clock_safe _ _ _ _ _ _ HP i _ Hi) as (T & _ & []). Qed.

Section invariant.
Context (P : ClockProtocol) (Q : Post A) (other : ∀ B, KVReq B → Prop) `{!ClockLaws P other} (HQ : stable P Q).

Lemma csafe_mono c T w w' : crely P w w' → csafe P Q c T w → csafe P Q c T w'.
Proof.
  intros Hr. destruct c as [[a|e|]|B req k]; [by eapply HQ|done|done|].
  intros [He Hs]. split; [exact He|]. intros t st now H1. apply Hs. by etrans.
Qed.

Lemma clock_frame t t' s s' cs Ts :
  clock_ok P Q t s cs Ts → sm_ok s' → cgood P (t', abs s') → crely P (t, abs s) (t', abs s') → clock_ok P Q t' s' cs Ts.
Proof.
  intros [Hsm Hg Hs Hb Hd] Hsm' Hg' Hr. split; [done|done| | |done].
  - intros i c Hc. destruct (Hs i c Hc) as (T & HT & Hsafe). exists T. split; [done|]. by eapply csafe_mono.
  - intros i T n HT Hn. specialize (Hb i T n HT Hn). pose proof (crely_level _ _ Hr). cbn in *. lia.
Qed.

Lemma clock_update t s cs Ts i c c' T' :
  clock_ok P Q t s cs Ts → cs !! i = Some c → csafe P Q c' T' (t, abs s) → (∀ n, n ∈ T' → n ≤ clevel P (abs s)) →
  (∀ j T, j ≠ i → Ts !! j = Some T → T ## T') → clock_ok P Q t s (<[i := c']> cs) (<[i := T']> Ts).
Proof.
  intros [Hsm Hg Hs Hb Hd] Hi Hsafe Hb' HT'. destruct (Hs i c Hi) as (T & HT & _).
  apply lookup_lt_Some in Hi, HT. split; [done|done| | |].
  - intros j c1 [(-> & <- & _)|[Hne Hc1]]%list_lookup_insert_Some; [exists T'; by rewrite list_lookup_insert_eq|].
    rewrite list_lookup_insert_ne by done. by apply Hs.
  - intros j T1 n [(-> & <- & _)|[_ HT1]]%list_lookup_insert_Some; [apply Hb'|by eapply Hb].
  - intros j1 j2 T1 T2 Hne [(-> & <- & _)|[H1 E1]]%list_lookup_insert_Some [(-> & <- & _)|[H2 E2]]%list_lookup_insert_Some.
    + done.
    + symmetry. by eapply HT'.
    + by eapply HT'.
    + exact (Hd j1 j2 T1 T2 Hne E1 E2).
Qed.

Lemma served_at_spec now {B} (req : KVReq B) b s s' :
  sm_ok s → served_at now req b s s' →
  now < u64_mod ∧ sequence (sp_sys (abs s)) + req_cost req + 1 < u64_mod ∧ b = (sp_serve now req (abs s)).2 ∧ sm_ok s' ∧
  (sp_serve now req (abs s)).1 ≡ abs s'.
Proof.
  intros Hok (Hnow & Hroom & E). destruct (mem_serve_spec now req s Hok Hnow Hroom) as (s1 & E' & Hok' & Habs & _).
  rewrite E in E'. by simplify_eq.
Qed.

Lemma clock_served t now s cs Ts i B (req : KVReq B) k b s' :
  clock_ok P Q t s cs Ts → cs !! i = Some (Call req k) → t ≤ now → served_at now req b s s' →
  (∃ Ts', clock_ok P Q now s' (<[i := k (inl b)]> cs) Ts') ∧ (∀ e, ∃ Ts', clock_ok P Q now s' (<[i := k (inr e)]> cs) Ts').
Proof.
  intros HP Hi Ht Hsrv. pose proof (clock_sm _ _ _ _ _ _ HP) as Hok. pose proof (clock_good _ _ _ _ _ _ HP) as Hg.
  destruct (served_at_spec now req b s s' Hok Hsrv) as (Hnow & Hroom & -> & Hok' & Habs).
  destruct (clock_safe _ _ _ _ _ _ HP i _ Hi) as (T & HT & Hfail & Hstep).
  destruct (Hstep t (abs s) now) as (Hg2 & Hr2 & T' & HT' & Hsafe'); [done|apply Hok|done..|].
  assert (clock_ok P Q now s' cs Ts) as HP'.
  { apply (clock_frame t now s); [done|done|by eapply cgood_proper|]. etrans; [exact Hr2|by apply crely_equiv]. }
  assert (clevel P (sp_serve now req (abs s)).1 ≤ clevel P (abs s')) as Hlevel.
  { exact (crely_level _ _ (crely_equiv now _ _ Habs)). }
  split.
  - exists (<[i := T']> Ts). eapply clock_update; [done|done| | |].
    + eapply csafe_mono; [by apply crely_equiv|done].
    + intros n Hn. destruct (HT' n Hn) as [Hn'|[_ ?]]; [by eapply (clock_bounded _ _ _ _ _ _ HP' i T)|lia].
    + intros j Tj Hne Hj n Hn Hn'. destruct (HT' n Hn') as [Hn2|[Hlt _]].
      * by eapply (clock_disjoint _ _ _ _ _ _ HP j i).
      * pose proof (clock_bounded _ _ _ _ _ _ HP j Tj n Hj Hn). lia.
  - intros e. exists (<[i := ∅]> Ts). eapply clock_update; [done|done|apply Hfail|set_solver|set_solver].
Qed.

(** Every reachable pool keeps the protocol. *)
Lemma clock_reach t s cs Ts t' s' cs' :
  clock_ok P Q t s cs Ts → rtc (clock_step other) (t, s, cs) (t', s', cs') → ∃ Ts', clock_ok P Q t' s' cs' Ts'.
Proof.
  intros HP Hr. remember (t, s, cs) as p eqn:Ep. remember (t', s', cs') as p' eqn:Ep'.
  revert t s cs Ts HP Ep. induction Hr as [p|p p1 p2 Hs _ IH]; intros t s cs Ts HP ->; [simplify_eq; by exists Ts|].
  enough (∃ Ts1, clock_ok P Q p1.1.1 p1.1.2 p1.2 Ts1) as [Ts1 HP1].
  { apply (IH Ep' p1.1.1 p1.1.2 p1.2 Ts1 HP1). by destruct p1 as [[]]. }
  inversion Hs as [? now ? ? i B req k b s1 Hi Ht Hsrv|? ? ? i B req k e Hi|? now ? ? i B req k b s1 e Hi Ht Hsrv|
    ? now ? ? B req b s1 Ho Ht Hsrv]; subst; cbn [fst snd].
  - by destruct (clock_served t now s cs Ts i B req k b s1 HP Hi Ht Hsrv) as [? _].
  - destruct (clock_safe _ _ _ _ _ _ HP i _ Hi) as (T & _ & Hfail & _). exists (<[i := ∅]> Ts).
    eapply clock_update; [done|done|apply Hfail|set_solver|set_solver].
  - destruct (clock_served t now s cs Ts i B req k b s1 HP Hi Ht Hsrv) as [_ ?]. auto.
  - exists Ts. pose proof (clock_sm _ _ _ _ _ _ HP) as Hok. pose proof (clock_good _ _ _ _ _ _ HP) as Hg.
    destruct (served_at_spec now req b s s1 Hok Hsrv) as (Hnow & Hroom & _ & Hok' & Habs).
    destruct (other_clock B req t now (abs s) Ho (ok_inv s Hok) Hg Ht Hnow Hroom) as [Hg2 Hr2].
    apply (clock_frame t now s); [done|done|by eapply cgood_proper|]. etrans; [exact Hr2|by apply crely_equiv].
Qed.

Lemma clock_start t s cs :
  sm_ok s → cgood P (t, abs s) → (∀ i c, cs !! i = Some c → csafe P Q c ∅ (t, abs s)) →
  clock_ok P Q t s cs (replicate (length cs) ∅).
Proof.
  clear ClockLaws0 other HQ. intros Hok Hg Hs. split; [done|done| | |].
  - intros i c Hi. exists ∅. rewrite lookup_replicate_2 by (by eapply lookup_lt_Some). eauto.
  - intros i T n [-> _]%lookup_replicate_1. set_solver.
  - intros i j T T' _ [-> _]%lookup_replicate_1 [-> _]%lookup_replicate_1. set_solver.
Qed.
End invariant.
End pool.
