(* ===== verification/LockTypes.v ===== *)
(** Locks of tables (app/src/schema/lock.rs, table_lock_ident.rs): the records, the
    requests, and the conversion to messages (proto-conv/src). *)

From stdpp Require Import base countable strings gmap numbers list.
From S2P Require Import Prelude RustStr MetaTypes KeyCodec KeyCodecProofs AppKeys AppKeysProofs ProtoConv DatabaseTypes.
Local Open Scope N_scope.

(** ** Data *)

Inductive LockType := TABLE.

(** [LockType as i32] and [FromPrimitive]. *)
Definition lock_type_as_i32 (t : LockType) : Z := match t with TABLE => 0%Z end.
Definition lock_type_from_i32 (n : Z) : option LockType := if Z.eqb n 0 then Some TABLE else None.

Definition table_lock_ident_new (t : Tenant) (table_id revision : N) : TableLockIdent :=
  tident_new t {| rev_table_id := table_id; revision := revision |}.
Definition table_lock_ident_table_id (i : TableLockIdent) : N := rev_table_id (tident_name i).
Definition table_lock_ident_revision (i : TableLockIdent) : N := revision (tident_name i).

Inductive LockKey := LockKey_Table (tenant : Tenant) (table_id : N).

Definition get_table_id (k : LockKey) : N := match k with LockKey_Table _ table_id => table_id end.
Definition get_tenant (k : LockKey) : Tenant := match k with LockKey_Table tenant _ => tenant end.
Definition get_extra_info (k : LockKey) : gmap string string := match k with LockKey_Table _ _ => ∅ end.
Definition lock_type (k : LockKey) : LockType := match k with LockKey_Table _ _ => TABLE end.
Definition gen_prefix (k : LockKey) : DirName TableLockIdent :=
  match k with LockKey_Table tenant table_id => dir_name_new (table_lock_ident_new tenant table_id 0) end.
Definition gen_key (k : LockKey) (revision : N) : TableLockIdent :=
  match k with LockKey_Table tenant table_id => table_lock_ident_new tenant table_id revision end.

#[export] Instance LockKey_eq_dec : EqDecision LockKey.
Proof. intros [[t] n] [[t'] n']. refine (cast_if_and (decide (t = t')) (decide (n = n'))); congruence. Defined.

Section data.
Context {ch : Chrono}.

Record LockMeta := {
  lm_user : string; lm_node : string; lm_query_id : string;
  lm_created_on : DateTime; lm_acquired_on : option DateTime; lm_lock_type : LockType;
  lm_extra_info : gmap string string;
}.
Definition set_acquired_on (t : option DateTime) (m : LockMeta) : LockMeta :=
  {| lm_user := lm_user m; lm_node := lm_node m; lm_query_id := lm_query_id m;
     lm_created_on := lm_created_on m; lm_acquired_on := t; lm_lock_type := lm_lock_type m;
     lm_extra_info := lm_extra_info m |}.

Record LockInfo := { li_table_id : N; li_revision : N; li_meta : LockMeta }.
End data.

(** ** Requests; a time to live is in milliseconds *)

Record ListLocksReq := { prefixes : list (DirName TableLockIdent) }.
Definition list_locks_req_create (t : Tenant) : ListLocksReq :=
  {| prefixes := [{| dir_key := table_lock_ident_new t 0 0; dir_level := 2 |}] |}.
Definition list_locks_req_create_with_table_ids (t : Tenant) (table_ids : list N) : ListLocksReq :=
  {| prefixes := (λ table_id, dir_name_new (table_lock_ident_new t table_id 0)) <$> table_ids |}.

Record ListLockRevReq := { llr_lock_key : LockKey }.
Record CreateLockRevReq := {
  clr_lock_key : LockKey; clr_ttl : N; clr_user : string; clr_node : string; clr_query_id : string;
}.
Record ExtendLockRevReq := { elr_lock_key : LockKey; elr_ttl : N; elr_revision : N; elr_acquire_lock : bool }.
Record DeleteLockRevReq := { dlr_lock_key : LockKey; dlr_revision : N }.

(** ** Messages (protos/proto/lock.proto) *)

Record pb_LockKeyTable := { pk_table_id : N; pk_tenant : string }.
Record pb_LockKey := { pk_ver : N; pk_min_reader_ver : N; pk_key : option pb_LockKeyTable }.

Record pb_LockMeta := {
  pm_ver : N; pm_min_reader_ver : N; pm_user : string; pm_node : string; pm_query_id : string;
  pm_created_on : string; pm_acquired_on : option string; pm_lock_type : Z;
  pm_extra_info : gmap string string;
}.

(** ** Conversions *)

(** [NonEmptyString::new] fails on the empty string. *)
Definition lock_key_from_pb (p : pb_LockKey) : option LockKey :=
  _ ← reader_check_msg (pk_ver p) (pk_min_reader_ver p);
  match pk_key p with
  | Some t => if decide (pk_tenant t = EmptyString) then None
              else Some (LockKey_Table {| tenant := pk_tenant t |} (pk_table_id t))
  | None => None
  end.
Definition lock_key_to_pb (k : LockKey) : option pb_LockKey :=
  let key := match k with
             | LockKey_Table t table_id => Some {| pk_table_id := table_id; pk_tenant := tenant t |}
             end in
  Some {| pk_ver := VER; pk_min_reader_ver := MIN_READER_VER; pk_key := key |}.

Section conversions.
Context {ch : Chrono}.

Definition lock_meta_from_pb (p : pb_LockMeta) : option LockMeta :=
  _ ← reader_check_msg (pm_ver p) (pm_min_reader_ver p);
  created_on ← datetime_from_str (pm_created_on p);
  acquired_on ← match pm_acquired_on p with
                | Some acquired_on => t ← datetime_from_str acquired_on; Some (Some t)
                | None => Some None
                end;
  lock_type ← lock_type_from_i32 (pm_lock_type p);
  Some {| lm_user := pm_user p; lm_node := pm_node p; lm_query_id := pm_query_id p;
          lm_created_on := created_on; lm_acquired_on := acquired_on; lm_lock_type := lock_type;
          lm_extra_info := pm_extra_info p |}.

Definition lock_meta_to_pb (m : LockMeta) : option pb_LockMeta :=
  Some {| pm_ver := VER; pm_min_reader_ver := MIN_READER_VER; pm_user := lm_user m; pm_node := lm_node m;
          pm_query_id := lm_query_id m; pm_created_on := datetime_to_string (lm_created_on m);
          pm_acquired_on := datetime_to_string <$> lm_acquired_on m;
          pm_lock_type := lock_type_as_i32 (lm_lock_type m); pm_extra_info := lm_extra_info m |}.

#[export] Instance lock_key_proto `{!ProstMessage pb_LockKey} : FromToProto LockKey :=
  {| PB := pb_LockKey; from_pb := lock_key_from_pb; to_pb := lock_key_to_pb |}.
#[export] Instance lock_meta_proto `{!ProstMessage pb_LockMeta} : FromToProto LockMeta :=
  {| PB := pb_LockMeta; from_pb := lock_meta_from_pb; to_pb := lock_meta_to_pb |}.
End conversions.

(** ** Laws *)

(** The integers of the messages fit in their types. *)
Definition pb_lock_key_fits (p : pb_LockKey) : Prop :=
  pk_ver p < u64_mod ∧ pk_min_reader_ver p < u64_mod ∧
  match pk_key p with Some t => pk_table_id t < u64_mod | None => True end.
Definition pb_lock_meta_fits (p : pb_LockMeta) : Prop :=
  pm_ver p < u64_mod ∧ pm_min_reader_ver p < u64_mod ∧ (-2147483648 ≤ pm_lock_type p < 2147483648)%Z.

(** The key of a lock of a table: a tenant has a name, an id is an [u64]. *)
Definition lock_key_ok (k : LockKey) : Prop := key_ok (get_tenant k) ∧ id_ok (get_table_id k).

Section laws.
Context {ch : Chrono} `{!ChronoLaws ch}.

#[export, refine] Instance lock_meta_proto_laws `{!ProstMessage pb_LockMeta, !ProstLaws pb_LockMeta pb_lock_meta_fits} :
    FromToProtoLaws LockMeta := {| value_fits _ := True |}.
Proof.
  - intros m _. eapply (proto_roundtrip (FromToProto0 := lock_meta_proto) pb_lock_meta_fits); [done| |].
    + destruct m as [? ? ? ? ? [] ?]. by split_and!.
    + unfold from_pb, lock_meta_proto, lock_meta_from_pb. cbn. rewrite datetime_roundtrip. cbn.
      destruct m as [? ? ? ? [t|] [] ?]; cbn; rewrite ?datetime_roundtrip; done.
  - done.
Defined.

#[export, refine] Instance lock_key_proto_laws `{!ProstMessage pb_LockKey, !ProstLaws pb_LockKey pb_lock_key_fits} :
    FromToProtoLaws LockKey := {| value_fits k := tenant (get_tenant k) ≠ EmptyString ∧ id_ok (get_table_id k) |}.
Proof.
  - intros [[t] n] [Ht Hn]. eapply (proto_roundtrip (FromToProto0 := lock_key_proto) pb_lock_key_fits); [done| |].
    + by split_and!.
    + unfold from_pb, lock_key_proto, lock_key_from_pb. cbn. by rewrite decide_False.
  - intros b k (p & Hp & Hk)%bind_Some. apply (prost_decode_fits (fits := pb_lock_key_fits)) in Hp as (_ & _ & Hf).
    apply bind_Some in Hk as (_ & _ & Hk). cbn in *. destruct (pk_key p) as [t|]; [|done]. case_decide; [done|].
    by injection Hk as <-.
Defined.
End laws.

(** ** Concrete messages, for examples *)

#[export] Instance pb_lock_meta_fits_dec p : Decision (pb_lock_meta_fits p).
Proof. unfold pb_lock_meta_fits. apply _. Defined.

Definition text_lock_meta : ProstMessage pb_LockMeta := {|
  prost_encode p := Some (join_with slash
    [field (pm_ver p); field (pm_min_reader_ver p); field (pm_user p); field (pm_node p); field (pm_query_id p);
     field (pm_created_on p); field (pm_acquired_on p); field (pm_lock_type p); field (pm_extra_info p)]);
  prost_decode b := fitting pb_lock_meta_fits
    match split_on slash b with
    | [a; b; c; d; e; f; g; h; i] =>
        ver ← of_field a; min_ver ← of_field b; user ← of_field c; node ← of_field d; query_id ← of_field e;
        created_on ← of_field f; acquired_on ← of_field g; lock_type ← of_field h; extra_info ← of_field i;
        Some {| pm_ver := ver; pm_min_reader_ver := min_ver; pm_user := user; pm_node := node;
                pm_query_id := query_id; pm_created_on := created_on; pm_acquired_on := acquired_on;
                pm_lock_type := lock_type; pm_extra_info := extra_info |}
    | _ => None
    end;
|}.

Lemma text_lock_meta_laws : ProstLaws (ProstMessage0 := text_lock_meta) pb_LockMeta pb_lock_meta_fits.
Proof.
  eapply (fitting_laws (ProstMessage0 := text_lock_meta) pb_lock_meta_fits); [done|].
  intros p. eexists. split; [done|]. cbn beta. rewrite split_join; [|done|].
  - rewrite !field_roundtrip. by destruct p.
  - repeat (constructor; [apply field_segment|]). constructor.
Qed.
