(* ===== verification/Lock.v ===== *)
(** Locks of tables: the operations on revisions (api/src/schema_api_impl.rs), the
    holder of a lock and the manager of the locks of a query service
    (query/service/src/locks).  Every operation on the meta-service is a client of
    the KV API. *)

From stdpp Require Import base sorting strings gmap numbers list.
From S2P Require Import Prelude RustStr MetaTypes Txn SMV003 KeyCodec AppKeys KVApi ProtoConv MetaApi.
From S2P Require Import Database LockTypes.
Local Open Scope N_scope.

(** [IdGenerator::table_lock_id] (app/src/id_generator.rs). *)
Definition id_generator_table_lock_id : IdGenerator := {| resource := "table_lock_id" |}.

(** ** Revisions (schema_api_impl.rs)

    [utc_now] is the time read by a call, in its [i]-th trial. *)
Section schema_api.
Context {sj : SerdeJson} {ch : Chrono} `{!ProstMessage pb_LockMeta}.

Definition list_lock_revisions (req : ListLockRevReq) : Client (list (N * LockMeta)) :=
  strm ← list_pb LockMeta (gen_prefix (llr_lock_key req));
  try_collect (map (pitem_map (λ itm, (table_lock_ident_revision itm.1, data itm.2))) strm).

Definition create_lock_revision (utc_now : nat → DateTime) (req : CreateLockRevReq) : Client N :=
  let lock_key := clr_lock_key req in
  txn_backoff (λ i,
    current_rev ← get_seq id_generator_table_lock_id;
    let revision := wrap64 (current_rev + 1) in
    let key := gen_key lock_key revision in
    let lock_meta := {| lm_user := clr_user req; lm_node := clr_node req; lm_query_id := clr_query_id req;
                        lm_created_on := utc_now i; lm_acquired_on := None;
                        lm_lock_type := lock_type lock_key; lm_extra_info := get_extra_info lock_key |} in
    c1 ← txn_cond_seq id_generator_table_lock_id CEq current_rev;
    c2 ← txn_cond_seq key CEq 0;
    o1 ← txn_op_put id_generator_table_lock_id EmptyString;
    o2 ← txn_op_put_pb key lock_meta (Some (clr_ttl req));
    '(succ, _) ← send_txn (txn_new [c1; c2] [o1; o2]);
    mret (if (succ : bool) then Some revision else None)).

Definition extend_lock_revision (utc_now : DateTime) (req : ExtendLockRevReq) : Client unit :=
  let key := gen_key (elr_lock_key req) (elr_revision req) in
  r ← crud_update_existing key
        (λ lock_meta, Some (if elr_acquire_lock req then set_acquired_on (Some utc_now) lock_meta else lock_meta,
                            Some (elr_ttl req)))
        (inr TableLockExpired);
  match r with inl _ => mret tt | inr e => throw (EApp e) end.

(** The error of [crud_remove] is a unit, and [unwrap] panics on it. *)
Definition delete_lock_revision (req : DeleteLockRevReq) : Client unit :=
  r ← crud_remove (V := LockMeta) (E := unit) (gen_key (dlr_lock_key req) (dlr_revision req)) (inl tt);
  match r with inl _ => mret tt | inr _ => Done CPanic end.

Fixpoint list_locks_in (dirs : list (DirName TableLockIdent)) (reply : list LockInfo) : Client (list LockInfo) :=
  match dirs with
  | [] => mret reply
  | dir :: dirs =>
      strm ← list_pb LockMeta dir;
      locks ← try_collect (map (pitem_map (λ itm,
        {| li_table_id := table_lock_ident_table_id itm.1; li_revision := table_lock_ident_revision itm.1;
           li_meta := data itm.2 |})) strm);
      list_locks_in dirs (reply ++ locks)
  end.
Definition list_locks (req : ListLocksReq) : Client (list LockInfo) := list_locks_in (prefixes req) [].

(** ** The holder of a lock (lock_holder.rs) *)

(** What a round of waiting for the lock sees: the time since the start, and what
    became of the watch of the revision before it. *)
Inductive WatchResult := WatchFailed | WatchEnded | WatchTimeout.
Record Round := { elapsed : N; watched : WatchResult; round_now : DateTime }.

(** [Iterator::position]. *)
Definition position (x : N) (l : list N) : option nat := fst <$> list_find (x =.) l.

(** The time [last_now] is read by the last round, whose time since the start has
    reached the timeout. *)
Section acquire.
Context (lock_key : LockKey) (ttl : N) (should_retry : bool) (acquire_timeout : N) (revision : N).

Fixpoint acquire_loop (rounds : list Round) (last_now : DateTime) : Client N :=
  revs ← list_lock_revisions {| llr_lock_key := lock_key |};
  let rev_list := merge_sort N.le revs.*1 in
  match position revision rev_list with
  | None => throw (EApp TableLockExpired)
  | Some O =>
      let utc_now := match rounds with r :: _ => round_now r | [] => last_now end in
      _ ← extend_lock_revision utc_now {| elr_lock_key := lock_key; elr_revision := revision; elr_ttl := ttl;
                                           elr_acquire_lock := true |};
      mret revision
  | Some (S prev) =>
      match rounds with
      | [] => throw (EQuery TableAlreadyLocked)
      | r :: rounds =>
          if negb should_retry || (acquire_timeout <=? elapsed r) then throw (EQuery TableAlreadyLocked)
          else
            match rev_list !! prev with
            | None => Done CPanic
            | Some prev_revision =>
                let watch_delete_ident := table_lock_ident_new (get_tenant lock_key) (get_table_id lock_key) prev_revision in
                _ ← key_str (to_string_key watch_delete_ident);
                match watched r with
                | WatchFailed => throw (EMeta ServiceError)
                | w =>
                    lock_meta ← get_pb LockMeta watch_delete_ident;
                    match lock_meta, w with
                    | Some _, WatchTimeout => throw (EQuery TableAlreadyLocked)
                    | _, _ => acquire_loop rounds last_now
                    end
                end
            end
      end
  end.
End acquire.

(** Twice a duration panics if it is more than [u64::MAX] seconds. *)
Definition duration_doubles (d : N) : bool := 2 * d <? 1000 * u64_mod.

(** [start] creates the revision; the task it spawns is [lock_task], another client,
    which pauses between one and two thirds of [ttl]. *)
Definition start (utc_now : nat → DateTime) (req : CreateLockRevReq) : Client N :=
  if duration_doubles (clr_ttl req) then create_lock_revision utc_now req else Done CPanic.

Definition try_acquire_lock (utc_now : nat → DateTime) (req : CreateLockRevReq) (should_retry : bool)
    (acquire_timeout : N) (rounds : list Round) (last_now : DateTime) : Client N :=
  revision ← start utc_now req;
  acquire_loop (clr_lock_key req) (clr_ttl req) should_retry acquire_timeout revision rounds last_now.

(** What follows a failed attempt: the pause of the backoff, the shutdown of the
    holder during it, or the end of the attempts. *)
Inductive Pause := Slept | Shutdown | NoMoreBackoff.

(** An attempt is made with its time and what follows it when it fails; there are no
    more attempts when the shutdown flag is set. *)
Fixpoint try_extend_lock (req : ExtendLockRevReq) (attempts : list (DateTime * Pause)) : Client unit :=
  match attempts with
  | [] => mret tt
  | (utc_now, pause) :: attempts =>
      r ← try_client (extend_lock_revision utc_now req);
      match r with
      | inl _ => mret tt
      | inr (EApp TableLockExpired) => throw (EApp TableLockExpired)
      | inr _ =>
          match pause with
          | Slept => try_extend_lock req attempts
          | Shutdown => mret tt
          | NoMoreBackoff => throw (EQuery OCCRetryFailure)
          end
      end
  end.

(** The backoff gives [n] pauses. *)
Fixpoint try_delete_lock (req : DeleteLockRevReq) (n : nat) : Client unit :=
  r ← try_client (delete_lock_revision req);
  match r with
  | inl _ => mret tt
  | inr _ => match n with S n => try_delete_lock req n | O => throw (EQuery OCCRetryFailure) end
  end.

(** The task of a lock: extend the revision after every pause, until the shutdown,
    and delete it. *)
Fixpoint lock_task (lock_key : LockKey) (ttl revision : N) (rounds : list (list (DateTime * Pause))) (n : nat) :
    Client unit :=
  match rounds with
  | [] => try_delete_lock {| dlr_lock_key := lock_key; dlr_revision := revision |} n
  | attempts :: rounds =>
      _ ← try_extend_lock {| elr_lock_key := lock_key; elr_revision := revision; elr_ttl := ttl;
                             elr_acquire_lock := false |} attempts;
      lock_task lock_key ttl revision rounds n
  end.
End schema_api.

(** ** The manager of the locks (lock_manager.rs) *)

(** A holder is its shutdown flag. *)
Record LockHolder := { shutdown_flag : bool }.
Definition lock_holder_default : LockHolder := {| shutdown_flag := false |}.
Definition shutdown (h : LockHolder) : LockHolder := {| shutdown_flag := true |}.

(** [tx] holds the revisions that are sent to the task of the manager. *)
Record LockManager := { active_locks : gmap N LockHolder; tx : list N }.
Definition lock_manager_init : LockManager := {| active_locks := ∅; tx := [] |}.

(** The assertion that the revision is new panics. *)
Definition insert_lock (revision : N) (h : LockHolder) (m : LockManager) : Outcome LockManager :=
  match active_locks m !! revision with
  | Some _ => Panic
  | None => Ok {| active_locks := <[revision := h]> (active_locks m); tx := tx m |}
  end.

(** Dropping a guard. *)
Definition unlock (revision : N) (m : LockManager) : LockManager :=
  {| active_locks := active_locks m; tx := tx m ++ [revision] |}.

(** The task of the manager receives a revision; the holder it shuts down, if any. *)
Definition manager_recv (m : LockManager) : LockManager * option LockHolder :=
  match tx m with
  | [] => (m, None)
  | revision :: rest =>
      ({| active_locks := delete revision (active_locks m); tx := rest |},
       shutdown <$> active_locks m !! revision)
  end.

(** [try_lock] with the result of a new holder, which is registered or shut down. *)
Definition try_lock_result (r : N + ApiError) (m : LockManager) : Outcome (LockManager * LockHolder * (N + ApiError)) :=
  let lock_holder := lock_holder_default in
  match r with
  | inl revision => m' ← insert_lock revision lock_holder m; Ok (m', lock_holder, inl revision)
  | inr err => Ok (m, shutdown lock_holder, inr err)
  end.
