(* ===== verification/LockProofs.v ===== *)
(** Locks of tables: the keys of the revisions, and the protocol that concurrent
    holders of locks keep. *)

From stdpp Require Import base orders sorting strings gmap numbers list relations.
From S2P Require Import Prelude BTree RustStr External ExpireKey MetaTypes Marked MapApi Level StateMap.
From S2P Require Import Txn StateMachine Applier ApplierSpec StateMachineProofs ApplierProofs ApplyProofs.
From S2P Require Import SpecFacts Replica ApplierTheorems SMV003 KeyCodec KeyCodecProofs AppKeys AppKeysProofs KeyTheorems KVApi ProtoConv MetaApi.
From S2P Require Import ClientProofs ServeProofs IdProofs Database ClockPool LockTypes Lock.
Local Open Scope N_scope.

Implicit Types (k : LockKey) (r n t now : N) (s : string) (kv : gmap string (SeqV bytes)).

(** ** Keys *)

Definition gen_str : string := "__fd_id_gen/table_lock_id".
Definition lock_str k r : string := join_with slash (full_segs (gen_key k r)).
Definition lock_dir : string := "__fd_table_lock/".
Definition lock_like s : Prop := starts_with s lock_dir = true.

Lemma lock_prefix_ok : prefix_ok (KEY_PREFIX TableLockIdent).
Proof. split_and!; done || reflexivity. Qed.

Lemma gen_key_ok k r : lock_key_ok k → id_ok r → key_ok (gen_key k r).
Proof. destruct k as [t n]. intros [Ht Hn] Hr. split; [by split|exact Ht]. Qed.

Lemma lock_gen_string : to_string_key id_generator_table_lock_id = KOk gen_str.
Proof. reflexivity. Qed.
Lemma lock_string k r : lock_key_ok k → id_ok r → to_string_key (gen_key k r) = KOk (lock_str k r).
Proof. intros Hk Hr. apply to_string_key_eq; [apply lock_prefix_ok|by apply gen_key_ok]. Qed.
Lemma lock_parse k r : lock_key_ok k → id_ok r → from_str_key (lock_str k r) = KOk (gen_key k r).
Proof. intros Hk Hr. apply from_str_key_eq; [apply lock_prefix_ok|by apply gen_key_ok]. Qed.

Lemma lock_str_inj k r k' r' :
  lock_key_ok k → id_ok r → lock_key_ok k' → id_ok r' → lock_str k r = lock_str k' r' → k = k' ∧ r = r'.
Proof.
  intros Hk Hr Hk' Hr' E. pose proof (lock_parse k r Hk Hr) as H. rewrite E, lock_parse in H by done.
  destruct k, k'. by simplify_eq/=.
Qed.

Lemma lock_str_segs k r :
  lock_str k r = "__fd_table_lock" +:+ String slash (join_with slash
    [escape (tenant (get_tenant k)); dec_string (get_table_id k); dec_string r]).
Proof. destruct k. unfold lock_str, full_segs. apply join_cons. Qed.

Lemma lock_str_like k r : lock_like (lock_str k r).
Proof.
  unfold lock_like. rewrite starts_with_iff. eexists. rewrite lock_str_segs. unfold lock_dir.
  change "__fd_table_lock/" with ("__fd_table_lock" +:+ String slash EmptyString).
  by rewrite <-str_app_assoc.
Qed.

Lemma gen_not_lock : ¬ lock_like gen_str.
Proof. by vm_compute. Qed.
Lemma lock_not_gen s : lock_like s → s ≠ gen_str.
Proof. intros Hs ->. by apply gen_not_lock. Qed.

(** The directory of a lock, and the revisions in it. *)
Definition rev_dir k : string := join_with slash (take 3 (full_segs (gen_key k 0))) +:+ "/".

Lemma rev_dir_string k : lock_key_ok k → dir_name_with_slash (gen_prefix k) = KOk (rev_dir k).
Proof.
  intros Hk. destruct k as [t n]. unfold dir_name_with_slash. cbn [gen_prefix].
  unfold dir_name_new. rewrite dir_to_string_key_eq; [done|apply lock_prefix_ok|by apply (gen_key_ok (LockKey_Table t n) 0)|done|cbn; lia].
Qed.

Lemma rev_in_dir k r : starts_with (lock_str k r) (rev_dir k) = true.
Proof.
  rewrite starts_with_iff. exists (dec_string r). destruct k as [t n]. unfold rev_dir, lock_str, full_segs.
  cbn -[dec_string escape KEY_PREFIX]. by repeat (rewrite <-str_app_assoc || rewrite str_app_cons).
Qed.
Lemma dir_is_lock k s : starts_with s (rev_dir k) = true → lock_like s.
Proof.
  unfold lock_like. rewrite !starts_with_iff. intros [x ->]. destruct k as [t n]. unfold rev_dir, full_segs.
  cbn -[dec_string escape]. eexists. unfold lock_dir.
  change "__fd_table_lock/" with ("__fd_table_lock" +:+ String slash EmptyString). by rewrite <-!str_app_assoc.
Qed.

(** The directory of a lock has the revisions of this lock. *)
Lemma dir_exact k k' r : lock_key_ok k → lock_key_ok k' → id_ok r → starts_with (lock_str k' r) (rev_dir k) = true → k' = k.
Proof.
  intros Hk Hk' Hr Hs.
  destruct (dir_listing_exact (gen_key k 0) (gen_key k' r) 1) as (d & x & Hd & Hx & Hiff);
    [apply lock_prefix_ok|by apply gen_key_ok|by apply gen_key_ok|done|destruct k; cbn; lia|].
  assert (KOk d = KOk (rev_dir k)) as [= ->] by (rewrite <-Hd, <-(rev_dir_string k Hk); by destruct k).
  rewrite lock_string in Hx by done. injection Hx as <-. apply Hiff in Hs as [Hs _].
  apply (lock_str_inj k' r k r Hk' Hr Hk Hr). rewrite !lock_str_segs.
  destruct k as [t n], k' as [t' n']. cbn -[dec_string escape] in Hs. injection Hs as E1 E2.
  cbn [get_tenant get_table_id]. by rewrite E1, E2.
Qed.

#[global] Opaque lock_str rev_dir.

(** ** The protocol *)

Section protocol.
Context {raft : OpenRaft}.
Implicit Types (st : Spec) (w : N * Spec).

(** The last revision that can have been given out. *)
Definition lock_level st : N := opt_seq (sp_kv st !! gen_str).

(** The generator does not expire, and the keys of locks are those of revisions that
    were given out. *)
Record lock_good w : Prop := {
  gen_lasts : ∀ v, sp_kv w.2 !! gen_str = Some v → lasting v;
  locks_named : ∀ s, lock_like s → is_Some (sp_kv w.2 !! s) →
    ∃ k r, lock_key_ok k ∧ id_ok r ∧ r ≤ lock_level w.2 ∧ s = lock_str k r;
}.

(** A revision that was given out is not created again, and changes only while it
    has not expired. *)
Record lock_rely w w' : Prop := {
  rely_time : w.1 ≤ w'.1;
  rely_gen : lock_level w.2 ≤ lock_level w'.2;
  rely_kept : ∀ k r v', lock_key_ok k → r ≤ lock_level w.2 → sp_kv w'.2 !! lock_str k r = Some v' →
    ∃ v, sp_kv w.2 !! lock_str k r = Some v ∧ (v' = v ∨ w.1 ≤ opt_expires_at_ms (meta v));
}.

Definition lock_protocol : ClockProtocol := {| cgood := lock_good; crely := lock_rely; clevel := lock_level |}.

#[export] Instance lock_rely_preorder : PreOrder lock_rely.
Proof.
  split.
  - intros w. split; [done|done|]. intros k r v' _ _ Hv. eauto.
  - intros [t1 st1] [t2 st2] [t3 st3] [T1 G1 K1] [T2 G2 K2]. cbn in *. split; cbn; [lia|lia|].
    intros k r v3 Hk Hr Hv3. destruct (K2 k r v3 Hk ltac:(lia) Hv3) as (v2 & Hv2 & H2).
    destruct (K1 k r v2 Hk Hr Hv2) as (v1 & Hv1 & H1). exists v1. split; [done|].
    destruct H1 as [->|H1]; [|by right]. destruct H2 as [->|H2]; [by left|right; lia].
Qed.

(** Others write neither the generator nor keys of locks. *)
Definition avoids_locks (B : Type) (req : KVReq B) : Prop :=
  ∀ s, s = gen_str ∨ lock_like s → req_writes s req = false.

Lemma lock_good_kv t t' st st' : sp_kv st = sp_kv st' → lock_good (t, st) → lock_good (t', st').
Proof. intros Hk [Hl Hn]. unfold lock_level in *. split; cbn in *; unfold lock_level; by rewrite <-Hk. Qed.

Lemma gen_clean t now ctx st :
  lock_good (t, st) → Inv st → now < u64_mod → sequence (sp_sys st) + 1 < u64_mod →
  sp_kv (sp_clean now ctx st) !! gen_str = sp_kv st !! gen_str.
Proof.
  intros Hg HI Hnow Hs. destruct (sp_kv st !! gen_str) as [v|] eqn:Hv.
  - apply clean_lasting; [done..|by apply (gen_lasts _ Hg)].
  - destruct (sp_kv (sp_clean now ctx st) !! gen_str) as [v|] eqn:E; [|done].
    pose proof (stays_back _ _ _ _ (clean_stays now ctx st gen_str HI Hnow Hs) E). congruence.
Qed.

(** The next revision is free. *)
Lemma next_revision_free w k r : lock_good w → lock_key_ok k → id_ok r → lock_level w.2 < r → sp_kv w.2 !! lock_str k r = None.
Proof.
  intros Hg Hk Hr Hlt. apply eq_None_not_Some. intros Hv.
  destruct (locks_named _ Hg (lock_str k r) (lock_str_like k r) Hv) as (k' & r' & Hk' & Hr' & Hle & E).
  destruct (lock_str_inj k r k' r' Hk Hr Hk' Hr' E) as [_ ->]. lia.
Qed.

(** What a write may do: it keeps revisions that have not expired, and creates new
    ones. *)
Lemma lock_write t now st st' :
  lock_good (t, st) → Inv st → t ≤ now → now < u64_mod → sequence (sp_sys st) + 1 < u64_mod →
  let kv := sp_kv (sp_clean now (cmd_ctx_from_millis now) st) in
  (sp_kv st' !! gen_str = kv !! gen_str ∨
   ∃ v, sp_kv st' !! gen_str = Some v ∧ lasting v ∧ lock_level st ≤ seq v) →
  (∀ s, lock_like s → is_Some (sp_kv st' !! s) → is_Some (kv !! s) ∨
    ∃ k r, lock_key_ok k ∧ id_ok r ∧ s = lock_str k r ∧ lock_level st < r ≤ lock_level st') →
  lock_good (now, st') ∧ lock_rely (t, st) (now, st').
Proof.
  intros [Hl Hn] HI Ht Hnow Hs kv Hgen Hlocks.
  assert (kv !! gen_str = sp_kv st !! gen_str) as Hg by (by apply (gen_clean t)).
  assert (∀ s v, kv !! s = Some v → sp_kv st !! s = Some v ∧ now ≤ opt_expires_at_ms (meta v)) as Hkv.
  { intros s v. unfold kv. destruct (sp_clean_spec now (cmd_ctx_from_millis now) st HI Hnow Hs) as (_ & -> & _).
    by rewrite map_lookup_filter_Some. }
  assert (lock_level st ≤ lock_level st') as Hlevel.
  { unfold lock_level in *. destruct Hgen as [-> |(v & -> & _ & ?)]; [by rewrite Hg|done]. }
  split; split; cbn [fst snd].
  - intros v Hv. destruct Hgen as [E|(v' & E & ? & _)]; [|congruence]. apply Hl. cbn. congruence.
  - intros s Hs' Hv. destruct (Hlocks s Hs' Hv) as [[v Hv1]|(k & r & ? & ? & ? & _ & ?)].
    + destruct (Hkv s v Hv1), (Hn s Hs') as (k & r & ? & ? & ? & ?); [by eauto|]. cbn in *. exists k, r. split_and!; [done..|lia|done].
    + exists k, r. by split_and!.
  - done.
  - done.
  - intros k r v' Hk Hr Hv'. destruct (Hlocks (lock_str k r)) as [[v Hv]|(k2 & r2 & Hk2 & Hr2 & E & Hlt & _)]; [apply lock_str_like|by eauto| |].
    + destruct (Hkv _ _ Hv) as [Hv0 He]. exists v. split; [done|right; lia].
    + assert (id_ok r) as Hr1. { unfold id_ok in *. lia. }
      destruct (lock_str_inj k r k2 r2 Hk Hr1 Hk2 Hr2 E) as [_ ->]. lia.
Qed.

Lemma lock_stays t now st st' :
  lock_good (t, st) → t ≤ now → (∀ s, s = gen_str ∨ lock_like s → stays s (sp_kv st) (sp_kv st')) →
  lock_good (now, st') ∧ lock_rely (t, st) (now, st').
Proof.
  intros [Hl Hn] Ht Hst.
  assert (sp_kv st' !! gen_str = sp_kv st !! gen_str) as Hg.
  { destruct (Hst gen_str (or_introl eq_refl)) as [|[-> Hno]]; [done|].
    destruct (sp_kv st !! gen_str) as [v|] eqn:Hv; [|done]. by destruct (Hno v eq_refl (Hl v Hv)). }
  assert (∀ s v, lock_like s → sp_kv st' !! s = Some v → sp_kv st !! s = Some v) as Hb.
  { intros s v Hs. eapply stays_back. auto. }
  split; split; cbn [fst snd].
  - rewrite Hg. apply Hl.
  - intros s Hs [v Hv]. unfold lock_level. rewrite Hg. apply Hn; [done|]. exists v. by apply Hb.
  - done.
  - unfold lock_level. by rewrite Hg.
  - intros k r v' _ _ Hv'. exists v'. split; [apply Hb; [apply lock_str_like|done]|by left].
Qed.

#[export] Instance lock_laws : ClockLaws lock_protocol avoids_locks.
Proof.
  split; cbn.
  - apply _.
  - intros t st st' (Hk & _). unfold lock_level. split; cbn; [done| |]; unfold lock_level; rewrite <-Hk; eauto.
  - intros t st st' (Hk & _). by apply lock_good_kv.
  - intros w w' Hr. apply Hr.
  - intros B req t now st Ho HI Hg Ht Hnow Hroom.
    assert (∀ s, s = gen_str ∨ lock_like s → stays s (sp_kv st) (sp_kv (sp_serve now req st).1)) as Hst.
    { intros s Hs. apply serve_stays; [done..|lia|by apply Ho]. }
    by apply lock_stays.
Qed.

(** ** Listing *)

(** The revisions of the lock that have not expired. *)
Definition live_at t st k r : Prop :=
  ∃ v, sp_kv st !! lock_str k r = Some v ∧ t ≤ opt_expires_at_ms (meta v).

Lemma listed_items now st k x :
  lock_good (now, st) → lock_key_ok k →
  x ∈ sp_list (filter (λ x, seqv_is_expired x.2 now = false) (sp_kv st)) (rev_dir k) ↔
  ∃ r v, x = (lock_str k r, v) ∧ id_ok r ∧ sp_kv st !! lock_str k r = Some v ∧ now ≤ opt_expires_at_ms (meta v).
Proof.
  intros Hg Hk. destruct x as [s v]. rewrite elem_of_sp_list, map_lookup_filter_Some. cbn. unfold seqv_is_expired.
  rewrite N.ltb_ge. split.
  - intros [[Hv Hexp] Hd]. destruct (locks_named _ Hg s) as (k' & r & Hk' & Hr & _ & ->); [by eapply dir_is_lock|by eauto|].
    pose proof (dir_exact k k' r Hk Hk' Hr Hd) as ->. exists r, v. by split_and!.
  - intros (r & v' & [= -> ->] & Hr & Hv & Hexp). split_and!; [done..|apply rev_in_dir].
Qed.
End protocol.

Section items.
Context {raft : OpenRaft} {ch : Chrono} `{!ProstMessage pb_LockMeta}.
Implicit Type st : Spec.

Lemma collect_cases {X} (strm : list (PbItem X)) :
  PPanic ∉ strm →
  (∃ l, try_collect strm = Done (COk l) ∧ strm = PItem <$> l) ∨ ∃ e e', try_collect strm = Done (CErr e) ∧ PErr e' ∈ strm.
Proof.
  induction strm as [|[x|e|] strm IH]; [left; by exists []| | |set_solver].
  - intros [_ Hn]%not_elem_of_cons. destruct (IH Hn) as [(l & E & ->)|(e & e' & E & He)].
    + left. exists (x :: l). cbn. by rewrite E.
    + right. exists e, e'. cbn. rewrite E. split; [done|by right].
  - right. eexists _, e. split; [done|by left].
Qed.

(** An item of the stream as [list_lock_revisions] collects it. *)
Definition lock_item (x : string * SeqV bytes) : PbItem (N * LockMeta) :=
  pitem_map (λ itm, (table_lock_ident_revision itm.1, data itm.2)) (decode_non_empty_item (inl (stream_item (x.1, Some x.2)))).

Lemma lock_item_eq k r v :
  lock_key_ok k → id_ok r →
  lock_item (lock_str k r, v) = match decode_pb (data v) with Some m => PItem (r, m) | None => PErr PbDecodeError end.
Proof.
  intros Hk Hr. unfold lock_item, decode_non_empty_item, stream_item. cbn [si_key si_value fst snd fmap option_fmap option_map].
  rewrite lock_parse by done. unfold decode_seqv. cbn [SeqV_of_pb pb_SeqV_of data pb_data].
  destruct (decode_pb (data v)) as [m|]; [|done]. by destruct k.
Qed.

Lemma list_reply now st k :
  lock_good (now, st) → lock_key_ok k →
  let strm := lock_item <$> sp_list (filter (λ x, seqv_is_expired x.2 now = false) (sp_kv st)) (rev_dir k) in
  (∃ l, try_collect strm = Done (COk l) ∧ ∀ r, r ∈ l.*1 ↔ id_ok r ∧ live_at now st k r) ∨
  ∃ e r v, try_collect strm = Done (CErr e) ∧ sp_kv st !! lock_str k r = Some v ∧ decode_pb (T := LockMeta) (data v) = None.
Proof.
  intros Hg Hk strm.
  assert (∀ i, i ∈ strm ↔ ∃ r v, id_ok r ∧ sp_kv st !! lock_str k r = Some v ∧ now ≤ opt_expires_at_ms (meta v) ∧
    i = match decode_pb (data v) with Some m => PItem (r, m) | None => PErr PbDecodeError end) as Hstrm.
  { intros i. unfold strm. rewrite list_elem_of_fmap. setoid_rewrite listed_items; [|done..]. split.
    - intros (x & -> & r & v & -> & Hr & ? & ?). exists r, v. by rewrite lock_item_eq.
    - intros (r & v & Hr & ? & ? & ->). exists (lock_str k r, v). rewrite lock_item_eq by done. eauto 10. }
  destruct (collect_cases strm) as [(l & -> & Hl)|(e & e' & -> & He)].
  - intros (r & v & _ & _ & _ & E)%Hstrm. by destruct (decode_pb (data v)).
  - left. exists l. split; [done|]. intros r. rewrite Hl in Hstrm. rewrite list_elem_of_fmap. split.
    + intros ([r' m] & -> & Hin). assert (PItem (r', m) ∈ PItem <$> l) as Hi by by apply list_elem_of_fmap_2.
      apply Hstrm in Hi as (r & v & Hr & Hv & Hexp & E). destruct (decode_pb (data v)); simplify_eq.
      split; [done|by exists v].
    + intros [Hr (v & Hv & Hexp)].
      assert (match decode_pb (data v) with Some m => PItem (r, m) | None => PErr PbDecodeError end ∈ PItem <$> l) as Hi.
      { apply Hstrm. by exists r, v. }
      apply list_elem_of_fmap in Hi as (x & Ex & Hx). destruct (decode_pb (data v)) as [l0|]; [|done]. injection Ex as <-. by exists (r, l0).
  - right. apply Hstrm in He as (r & v & _ & Hv & _ & E). exists e, r, v. split_and!; [done|done|].
    by destruct (decode_pb (data v)).
Qed.
End items.
