(* ===== verification/LockCalls.v ===== *)
(** Concurrent calls of the operations on locks keep the protocol, and a lock that
    is acquired comes before all others that have not expired. *)

From stdpp Require Import base orders sorting strings gmap numbers list relations.
From S2P Require Import Prelude BTree RustStr External ExpireKey MetaTypes Marked MapApi Level StateMap.
From S2P Require Import Txn StateMachine Applier ApplierSpec StateMachineProofs ApplierProofs ApplyProofs ApplierTheorems.
From S2P Require Import SpecFacts Replica SMV003 MemMetaProofs KeyCodec KeyCodecProofs AppKeys KVApi ProtoConv MetaApi.
From S2P Require Import ClientProofs ServeProofs IdProofs Database ClockPool LockTypes Lock LockProofs.
Local Open Scope N_scope.

Implicit Types (k : LockKey) (r n t now : N) (s : string) (kv : gmap string (SeqV bytes)).

Section calls.
Context {raft : OpenRaft} {sj : SerdeJson} {ch : Chrono} `{!ProstMessage pb_LockMeta}.
Implicit Types (st : Spec) (w : N * Spec) (T : gset N).

Abbreviation lsafe := (csafe lock_protocol).

(** The others have made their steps, and the tickets are the same. *)
Definition later T w {A} (R : A → N * Spec → Prop) : Post A := λ a T' w', T' = T ∧ lock_rely w w' ∧ R a w'.

(** ** Requests *)

Lemma lsafe_read {A B} (req : KVReq B) (Q : Post A) F T w :
  (∀ now st, (sp_serve now req st).1 = st) →
  (∀ e T' w', lsafe Q (F (inr e)) T' w') →
  (∀ now st, lock_rely w (now, st) → lock_good (now, st) → Inv st → now < u64_mod → sequence (sp_sys st) + 1 < u64_mod →
    lsafe Q (F (inl (sp_serve now req st).2)) T (now, st)) →
  lsafe Q (Call req F) T w.
Proof.
  intros Hrd He Hf. split; [exact He|]. intros t st now Hr HI Hg Ht Hnow Hroom. cbv zeta. cbn [cgood crely clevel lock_protocol] in *.
  rewrite Hrd. destruct (lock_stays t now st st Hg Ht) as [Hg' Hr']; [by left|].
  split_and!; [done|done|]. exists T. split; [by left|]. apply Hf; [by etrans|done|done|done|lia].
Qed.

Lemma lsafe_write {A B} (req : KVReq B) (Q : Post A) F T w :
  (∀ e T' w', lsafe Q (F (inr e)) T' w') →
  (∀ t now st, lock_rely w (t, st) → lock_good (t, st) → Inv st → t ≤ now → now < u64_mod →
    sequence (sp_sys st) + req_cost req + 1 < u64_mod →
    (lock_good (now, (sp_serve now req st).1) ∧ lock_rely (t, st) (now, (sp_serve now req st).1)) ∧
    (lock_rely w (now, (sp_serve now req st).1) → ∃ T', (∀ n, n ∈ T' → n ∈ T ∨ lock_level st < n ≤ lock_level (sp_serve now req st).1) ∧
      lsafe Q (F (inl (sp_serve now req st).2)) T' (now, (sp_serve now req st).1))) →
  lsafe Q (Call req F) T w.
Proof.
  intros He Hf. split; [exact He|]. intros t st now Hr HI Hg Ht Hnow Hroom. cbv zeta. cbn [cgood crely clevel lock_protocol] in *.
  destruct (Hf t now st Hr Hg HI Ht Hnow Hroom) as [[Hg' Hr'] Hk]. split_and!; [done|done|]. apply Hk. by etrans.
Qed.

(** ** The list of the revisions *)

Lemma position_lookup r (l : list N) i : position r l = Some i → l !! i = Some r.
Proof. unfold position. intros ([j x] & Hf & [= <-])%fmap_Some. by apply list_find_Some in Hf as (Hx & <- & _). Qed.

Lemma position_before r (l : list N) i :
  StronglySorted N.le l → position r l = Some (S i) → ∃ y, l !! i = Some y ∧ y ≤ r.
Proof.
  intros Hs Hp%position_lookup. revert i Hp. induction Hs as [|x l Hs IH Hx]; intros i Hp; [done|].
  destruct i as [|i]; [|by apply IH]. exists x. split; [done|]. rewrite Forall_forall in Hx.
  apply Hx. by eapply list_elem_of_lookup_2.
Qed.

(** ** Reading *)

(** The next revision is an [u64]. *)
Lemma get_seq_safe T w : lsafe (later T w (λ c _, c + 1 < u64_mod)) (get_seq id_generator_table_lock_id) T w.
Proof.
  unfold get_seq. rewrite lock_gen_string. client_run. apply lsafe_read; [done..|].
  intros now st Hr Hg HI Hnow Hs. cbn [sp_serve snd fmap list_fmap]. client_run. unfold stream_item. cbn [si_value snd].
  split_and!; [done|done|]. unfold non_expired. destruct (opt_is_expired _ _); cbn; [done|].
  destruct (sp_kv st !! gen_str) as [v|] eqn:Hv; cbn; [|done].
  pose proof (seqs_bound _ _ (inv_seqs _ HI) _ _ Hv). lia.
Qed.

Lemma get_lock_safe k r T w :
  lock_key_ok k → id_ok r →
  lsafe (later T w (λ o _, ∀ sv, o = Some sv → 0 < seq sv)) (get_pb LockMeta (gen_key k r)) T w.
Proof.
  intros Hk Hr. unfold get_pb. rewrite lock_string by done. client_run. apply lsafe_read; [done..|].
  intros now st Hr' Hg HI Hnow Hs. cbn [sp_serve snd fmap list_fmap]. client_run. unfold stream_item. cbn [si_value snd].
  destruct (non_expired (sp_kv st !! lock_str k r) now) as [v|] eqn:E; client_run; [|by split_and!].
  unfold decode_seqv. cbn [SeqV_of_pb pb_SeqV_of data seq pb_data pb_seq].
  destruct (decode_pb (data v)) as [m|]; client_run; [|done]. split_and!; [done|done|].
  intros sv [= <-]. cbn. eapply (inv_positive st HI (lock_str k r)). revert E. unfold non_expired.
  by destruct (opt_is_expired _ _).
Qed.

(** ** Listing *)

Lemma list_safe k T w :
  lock_key_ok k →
  lsafe (later T w (λ l w', ∀ r, id_ok r → live_at w'.1 w'.2 k r → r ∈ l.*1)) (list_lock_revisions {| llr_lock_key := k |}) T w.
Proof.
  intros Hk. unfold list_lock_revisions, list_pb. cbn [llr_lock_key]. rewrite rev_dir_string by done. client_run.
  apply lsafe_read; [done..|]. intros now st Hr Hg HI Hnow Hs. client_run. cbn [sp_serve snd].
  rewrite <-(list_fmap_compose _ decode_non_empty_item), <-(list_fmap_compose _ (pitem_map _)).
  change (pitem_map _ ∘ _) with lock_item.
  destruct (list_reply now st k Hg Hk) as [(l & -> & Hl)|(e & r & v & -> & _)]; [|done].
  split_and!; [done|done|]. intros r Hr' Hlive. by apply Hl.
Qed.

(** ** Writing *)

Lemma operations_two o o' ctx st :
  (sp_operations [o; o'] ctx st).1 = (sp_operation o' ctx (sp_operation o ctx st).1).1.
Proof. cbn [sp_operations]. destruct (sp_operation o ctx st) as [st1 rs]. cbn [fst]. by destruct (sp_operation o' ctx st1). Qed.

Lemma op_put_spec s b ctx st :
  let st' := (sp_operation (op_put s b) ctx st).1 in
  sp_kv st' = <[s := put_value_of st b]> (sp_kv st) ∧ sp_cursor st' = sp_cursor st ∧
  sequence (sp_sys st') = sequence (sp_sys st) + 1.
Proof.
  destruct (upsert_update_spec s b (Some {| spec_expire_at := None; spec_ttl := None |}) ctx st (or_introl eq_refl))
    as (Hk & Hq & Hc & _). unfold sp_operation, put_upsert, upsert_update, with_meta_spec. cbn -[sp_upsert].
  destruct (sp_upsert _ ctx st) as [st1 [p q]]. cbn [fst snd] in *. by rewrite Hq.
Qed.

Lemma put_gen_spec ctx st o :
  op_writes gen_str o = false →
  ∃ v, sp_kv (sp_operations [op_put gen_str ""; o] ctx st).1 !! gen_str = Some v ∧ lasting v ∧
    seq v = sequence (sp_sys st) + 1 ∧
  ∀ s, s ≠ gen_str → op_writes s o = false → sp_kv (sp_operations [op_put gen_str ""; o] ctx st).1 !! s = sp_kv st !! s.
Proof.
  intros Ho. rewrite operations_two. destruct (op_put_spec gen_str "" ctx st) as (Hk & _).
  eexists. rewrite operation_other, Hk, lookup_insert_eq by done. split_and!; [done|done|done|].
  intros s Hne Hs. by rewrite operation_other, Hk, lookup_insert_ne.
Qed.

Lemma put_lock_writes k r b ttl s : op_writes s (put_with_ttl (lock_str k r) b ttl) = bool_decide (lock_str k r = s).
Proof. done. Qed.
Lemma put_lock_not_gen k r b ttl : op_writes gen_str (put_with_ttl (lock_str k r) b ttl) = false.
Proof. rewrite put_lock_writes. apply bool_decide_eq_false. apply lock_not_gen, lock_str_like. Qed.

(** The transaction of [create_lock_revision]. *)
Lemma serve_create t now st k c b ttl :
  lock_good (t, st) → Inv st → t ≤ now → now < u64_mod → sequence (sp_sys st) + 1 < u64_mod → lock_key_ok k → id_ok (c + 1) →
  let r := sp_serve now (ReqTransaction (txn_new [cond_eq_seq gen_str c; cond_eq_seq (lock_str k (c + 1)) 0]
             [op_put gen_str ""; put_with_ttl (lock_str k (c + 1)) b ttl])) st in
  reply_error r.2 = "" ∧ (lock_good (now, r.1) ∧ lock_rely (t, st) (now, r.1)) ∧
  (reply_success r.2 = true → lock_level st < c + 1 ≤ lock_level r.1).
Proof.
  intros Hg HI Ht Hnow Hs Hk Hc r. pose proof (serve_txn now st [(gen_str, c); (lock_str k (c + 1), 0)]
    [op_put gen_str ""; put_with_ttl (lock_str k (c + 1)) b ttl]) as H. cbv zeta in H. cbn [fmap list_fmap fst snd] in H.
  fold r in H. destruct H as (He & Hsucc & Hst). split; [done|]. rewrite Hsucc. set (st1 := sp_clean now _ st) in *.
  destruct (sp_clean_spec now (cmd_ctx_from_millis now) st HI Hnow Hs) as (HI1 & _ & Hsys & _). fold st1 in HI1, Hsys.
  case_bool_decide as Hd; rewrite Hst; clear Hst.
  - apply Forall_cons in Hd as [Hgen _]. cbn [fst snd] in Hgen.
    destruct (put_gen_spec (cmd_ctx_from_millis now) st1 (put_with_ttl (lock_str k (c + 1)) b ttl)) as (v & Hv & Hl & Hq & Ho);
      [apply put_lock_not_gen|].
    destruct (lock_stays t now st st1 Hg Ht) as [_ [_ Hlv _]]; [intros s _; by apply clean_stays|]. cbn [snd] in Hlv.
    assert (lock_level st ≤ c ∧ c < seq v) as [Hc1 Hc2].
    { unfold lock_level in Hlv. fold (lock_level st) in Hlv. rewrite Hgen in Hlv. split; [done|]. rewrite Hq, <-Hgen.
      destruct (sp_kv st1 !! gen_str) as [v1|] eqn:Hv1; cbn; [|lia].
      pose proof (seqs_bound _ _ (inv_seqs _ HI1) _ _ Hv1). lia. }
    split; [|intros _; unfold lock_level at 2; rewrite Hv; cbn; lia].
    apply lock_write; [done..| |].
    + right. exists v. split_and!; [done|done|lia].
    + intros s Hlike Hs'. destruct (decide (s = lock_str k (c + 1))) as [->|Hne].
      * right. exists k, (c + 1). unfold lock_level at 2. rewrite Hv. cbn. split_and!; [done..|lia|lia].
      * left. fold st1. rewrite Ho in Hs'; [done|by apply lock_not_gen|].
        rewrite put_lock_writes. apply bool_decide_eq_false. congruence.
  - split; [|done]. apply lock_write; [done..|by left|by left].
Qed.

Definition has_revision T w r : Prop := r ∈ T ∧ r ≤ lock_level w.2 ∧ id_ok r.

Lemma create_lock_safe utc_now req T w :
  lock_key_ok (clr_lock_key req) → lsafe (λ r T' w', has_revision T' w' r) (create_lock_revision utc_now req) T w.
Proof.
  intros Hk. apply (csafe_trials _ (λ _ _, True)); [|done]. clear T w. intros i T w _.
  eapply csafe_bind; [apply get_seq_safe|]. intros c T' w' (-> & _ & Hc).
  rewrite wrap64_small by done. unfold txn_cond_seq, txn_op_put, txn_op_put_pb. rewrite lock_gen_string, lock_string by done.
  client_run. destruct (encode_pb _) as [b|]; client_run; [|done]. apply lsafe_write; [done|].
  intros t now st Hr Hg HI Ht Hnow Hroom.
  destruct (serve_create t now st (clr_lock_key req) c b (Some (clr_ttl req))) as (He & Hgr & Hlv); [done..|lia|done|done|].
  split; [exact Hgr|]. intros _. client_run. unfold txn_reply_to_api_result. set (rp := (sp_serve now _ st).2) in *.
  change (reply_error rp = "") in He. rewrite He. client_run. destruct (reply_success rp).
  - exists {[ c + 1 ]}. split; [intros n ->%elem_of_singleton; right; by apply Hlv|].
    split_and!; [set_solver|by apply Hlv|done].
  - exists T. split; [by left|done].
Qed.

(** The transaction of [extend_lock_revision]. *)
Lemma serve_extend t now st k r q b ttl :
  lock_good (t, st) → Inv st → t ≤ now → now < u64_mod → sequence (sp_sys st) + 1 < u64_mod → 0 < q →
  let x := sp_serve now (ReqTransaction (txn_new [cond_eq_seq (lock_str k r) q] [put_with_ttl (lock_str k r) b ttl])) st in
  reply_error x.2 = "" ∧ lock_good (now, x.1) ∧ lock_rely (t, st) (now, x.1).
Proof.
  intros Hg HI Ht Hnow Hs Hq x. pose proof (serve_txn now st [(lock_str k r, q)] [put_with_ttl (lock_str k r) b ttl]) as H.
  cbv zeta in H. cbn [fmap list_fmap fst snd] in H. fold x in H. destruct H as (He & _ & Hst). split; [done|].
  rewrite Hst. clear Hst. case_bool_decide as Hd; [|apply lock_write; [done..|by left|by left]].
  apply Forall_cons in Hd as [Hv _]. cbn [fst snd] in Hv. set (st1 := sp_clean now _ st) in *.
  pose proof (operations_other [put_with_ttl (lock_str k r) b ttl] (cmd_ctx_from_millis now) st1) as Ho.
  cbn [existsb] in Ho. apply lock_write; [done..| |]; fold st1.
  - left. apply Ho. by rewrite put_lock_not_gen.
  - intros s Hlike Hs'. left. destruct (decide (s = lock_str k r)) as [->|Hne].
    + destruct (sp_kv st1 !! lock_str k r); [by eauto|]. cbn in Hv. lia.
    + rewrite Ho in Hs'; [done|]. rewrite put_lock_writes, orb_false_r. apply bool_decide_eq_false. congruence.
Qed.

Lemma extend_safe utc_now req T w :
  lock_key_ok (elr_lock_key req) → id_ok (elr_revision req) →
  lsafe (later T w (λ _ _, True)) (extend_lock_revision utc_now req) T w.
Proof.
  intros Hk Hr. unfold extend_lock_revision. eapply (csafe_bind _ (later T w (λ _ _, True))).
  2: { intros [[]|e] T' w' H; [done|done]. }
  apply (csafe_trials _ (λ T' w', T' = T ∧ lock_rely w w')); [|done]. intros _ T' w1 [-> Hr1].
  eapply csafe_bind; [by apply get_lock_safe|]. intros o T' w2 (-> & Hr2 & Ho).
  assert (lock_rely w w2) as Hr02 by (by etrans). destruct o as [sv|]; unfold opt_value; cbn [opt_seq]; client_run; [|done].
  specialize (Ho sv eq_refl). unfold txn_cond_eq_seq, txn_op_put_pb. rewrite lock_string by done. client_run.
  destruct (encode_pb _) as [b|]; client_run; [|done]. apply lsafe_write; [done|].
  intros t now st Hrt Hg HI Ht Hnow Hroom.
  destruct (serve_extend t now st (elr_lock_key req) (elr_revision req) (seq sv) b (Some (elr_ttl req)))
    as (He & Hgr); [done..|lia|done|].
  split; [exact Hgr|]. intros Hrw. client_run. unfold txn_reply_to_api_result. set (rp := (sp_serve now _ st).2) in *.
  change (reply_error rp = "") in He. rewrite He. client_run. exists T. split; [by left|].
  assert (lock_rely w (now, (sp_serve now (ReqTransaction (txn_new [cond_eq_seq (lock_str (elr_lock_key req) (elr_revision req)) (seq sv)]
    [put_with_ttl (lock_str (elr_lock_key req) (elr_revision req)) b (Some (elr_ttl req))])) st).1)) by (by etrans).
  by destruct (reply_success rp).
Qed.

Lemma serve_delete now s st :
  let st1 := sp_clean now (cmd_ctx_from_millis now) st in
  let st' := (sp_serve now (ReqUpsertKV (upsert_delete s)) st).1 in
  (∀ s', s' ≠ s → sp_kv st' !! s' = sp_kv st1 !! s') ∧ (is_Some (sp_kv st' !! s) → is_Some (sp_kv st1 !! s)).
Proof.
  intros st1 st'. subst st'. cbn [sp_serve]. fold st1. set (ctx := cmd_ctx_from_millis now).
  pose proof (λ s', upsert_other (upsert_delete s) ctx st1 s') as Ho.
  assert (is_Some (sp_kv (sp_upsert (upsert_delete s) ctx st1).1 !! s) → is_Some (sp_kv st1 !! s)) as Hs.
  { unfold sp_upsert, sp_primary, upsert_delete. cbn [ukey useq uvalue uvalue_meta].
    destruct (match_seq_err _ _); cbn [fst]; rewrite (proj1 (sp_change_frame _ _ _ _)); [done|]. cbn.
    rewrite lookup_delete_eq. by intros [? ?]. }
  destruct (sp_upsert (upsert_delete s) ctx st1) as [st2 [p q]]. cbn [fst] in *. split; [|done].
  intros s' Hne. apply Ho. by intros <-.
Qed.

Lemma decode_transition_cases (c : Change bytes N) :
  (∃ x, decode_transition (V := LockMeta) c = Done (COk x)) ∨ ∃ e, decode_transition (V := LockMeta) c = Done (CErr e).
Proof.
  unfold decode_transition, decode_opt. destruct (ch_prev c) as [v|], (ch_result c) as [v'|]; client_run;
    repeat match goal with |- context [decode_seqv ?v] => destruct (decode_seqv v) end; client_run; eauto.
Qed.

Lemma delete_safe req T w :
  lock_key_ok (dlr_lock_key req) → id_ok (dlr_revision req) → lsafe (later T w (λ _ _, True)) (delete_lock_revision req) T w.
Proof.
  intros Hk Hr. unfold delete_lock_revision. eapply (csafe_bind _ (later T w (λ x _, x = inl ()))).
  2: { by intros [[]|e] T' w' (? & ? & [=]). }
  unfold crud_remove, upsert_pb. cbn [upb_key upb_delete upb_seq upb_value_meta].
  rewrite lock_string by done. client_run. apply lsafe_write; [done|]. intros t now st Hrt Hg HI Ht Hnow Hroom.
  set (s := lock_str _ _) in *. assert (lock_like s) as Hlike by apply lock_str_like.
  destruct (serve_delete now s st) as [Ho Hs]. change (ReqUpsertKV _) with (ReqUpsertKV (upsert_delete s)). split.
  - apply lock_write; [done..|lia|left; apply Ho; intros E; by apply (lock_not_gen s)|].
    intros s' _ Hs'. left. destruct (decide (s' = s)) as [->|Hne]; [by apply Hs|by rewrite <-Ho].
  - intros Hrw. exists T. split; [by left|]. client_run.
    destruct (decode_transition_cases (sp_serve now (ReqUpsertKV (upsert_delete s)) st).2) as [[x ->]|[e ->]]; client_run; [|done].
    split_and!; [done|done|]. by destruct (is_changed x).
Qed.

(** ** Acquiring *)

(** The lock has a revision, and none before it that has not expired. *)
Definition acquired k r T w : Prop :=
  has_revision T w r ∧ ∀ r' v, r' < r → sp_kv w.2 !! lock_str k r' = Some v → opt_expires_at_ms (meta v) < w.1.

Lemma has_revision_mono r T w w' : lock_rely w w' → has_revision T w r → has_revision T w' r.
Proof. intros [_ Hg _] (? & ? & ?). split_and!; [done|lia|done]. Qed.

Lemma acquired_mono k r T w w' : lock_key_ok k → lock_rely w w' → acquired k r T w → acquired k r T w'.
Proof.
  intros Hk Hr [Hrev Hf]. split; [by eapply has_revision_mono|]. destruct Hr as [Ht Hg Hkept].
  intros r' v' Hlt Hv'. destruct Hrev as (_ & Hle & _).
  destruct (Hkept k r' v' Hk ltac:(lia) Hv') as (v & Hv & H). specialize (Hf r' v Hlt Hv). destruct H as [->|H]; lia.
Qed.

(** The first revision of the list. *)
Lemma front_acquired k r T w (l : list N) :
  has_revision T w r → (∀ r', id_ok r' → live_at w.1 w.2 k r' → r' ∈ l) →
  position r (merge_sort N.le l) = Some O → acquired k r T w.
Proof.
  intros Hrev Hl Hp. split; [done|]. intros r' v Hlt Hv. destruct Hrev as (_ & _ & Hr).
  apply N.nle_gt. intros Hexp. assert (r' ∈ merge_sort N.le l) as Hin.
  { rewrite merge_sort_Permutation. apply Hl; [unfold id_ok in *; lia|]. by exists v. }
  pose proof (position_lookup _ _ _ Hp) as H0. pose proof (StronglySorted_merge_sort N.le l) as Hs.
  destruct (merge_sort N.le l) as [|x l']; [done|]. injection H0 as ->.
  apply StronglySorted_cons in Hs as [Hs _]. rewrite Forall_forall in Hs.
  apply elem_of_cons in Hin as [->|Hin]; [lia|]. specialize (Hs r' Hin). lia.
Qed.

Lemma acquire_loop_safe k ttl should_retry acquire_timeout r rounds last_now T w :
  lock_key_ok k → has_revision T w r →
  lsafe (λ r' T' w', r' = r ∧ acquired k r T' w') (acquire_loop k ttl should_retry acquire_timeout r rounds last_now) T w.
Proof.
  intros Hk. revert T w. induction rounds as [|rd rounds IH]; intros T w Hrev.
  all: cbn [acquire_loop]; eapply csafe_bind; [by apply list_safe|]; intros l T' w1 (-> & Hr1 & Hl).
  all: pose proof (has_revision_mono _ _ _ _ Hr1 Hrev) as Hrev1.
  all: destruct (position r (merge_sort N.le l.*1)) as [[|prev]|] eqn:Hp; [| |done].
  1, 3: eapply csafe_bind; [apply extend_safe; [done|apply Hrev]|]; intros [] T' w2 (-> & Hr2 & _).
  1, 2: split; [done|]; eapply acquired_mono; [done|exact Hr2|by eapply front_acquired].
  - done.
  - destruct (_ || _); [done|].
    destruct (position_before r (merge_sort N.le l.*1) prev) as (y & Hy & Hle); [apply StronglySorted_merge_sort; apply _|done|].
    rewrite Hy. assert (id_ok y) as Hyok. { destruct Hrev as (_ & _ & ?). unfold id_ok in *. lia. }
    pose proof (lock_string k y Hk Hyok) as Hstr. destruct k as [tn n]. cbn [get_tenant get_table_id gen_key] in *.
    rewrite Hstr. client_run.
    assert (lsafe (λ r' T' w', r' = r ∧ acquired (LockKey_Table tn n) r T' w')
      (client_bind (λ o, match o, watched rd with
        | Some _, WatchTimeout => throw (EQuery TableAlreadyLocked)
        | _, _ => acquire_loop (LockKey_Table tn n) ttl should_retry acquire_timeout r rounds last_now
        end) (get_pb LockMeta (gen_key (LockKey_Table tn n) y))) T w1) as Hrest.
    { eapply csafe_bind; [by apply get_lock_safe|]. intros o T' w2 (-> & Hr2 & _).
      assert (has_revision T w2 r) by (by eapply has_revision_mono). destruct o, (watched rd); try done; by apply IH. }
    destruct (watched rd); [done|exact Hrest|exact Hrest].
Qed.

Lemma try_acquire_safe utc_now req should_retry acquire_timeout rounds last_now T w :
  lock_key_ok (clr_lock_key req) → duration_doubles (clr_ttl req) = true →
  lsafe (λ r T' w', acquired (clr_lock_key req) r T' w')
    (try_acquire_lock utc_now req should_retry acquire_timeout rounds last_now) T w.
Proof.
  intros Hk Hd. eapply csafe_bind; [unfold start; rewrite Hd; by apply create_lock_safe|]. intros r T' w' Hrev.
  eapply csafe_post; [by apply acquire_loop_safe|]. by intros r' T2 w2 [-> ?].
Qed.

(** ** The task of a lock *)

Lemma try_extend_safe req attempts T w :
  lock_key_ok (elr_lock_key req) → id_ok (elr_revision req) → lsafe (λ _ _ _, True) (try_extend_lock req attempts) T w.
Proof.
  intros Hk Hr. revert T w. induction attempts as [|[utc_now pause] attempts IH]; intros T w; [done|]. cbn [try_extend_lock].
  eapply csafe_bind; [apply csafe_try; eapply csafe_post; [by apply extend_safe|done]|].
  intros [[]|[e| |[]|e]] T' w' _; try done; destruct pause; try done; apply IH.
Qed.

Lemma try_delete_safe req (n : nat) T w :
  lock_key_ok (dlr_lock_key req) → id_ok (dlr_revision req) → lsafe (λ _ _ _, True) (try_delete_lock req n) T w.
Proof.
  intros Hk Hr. revert T w. induction n as [|n IH]; intros T w; cbn [try_delete_lock].
  all: eapply csafe_bind; [apply csafe_try; eapply csafe_post; [by apply delete_safe|done]|].
  all: intros [[]|e] T' w' _; first [done|apply IH].
Qed.

Lemma lock_task_safe k ttl r rounds (n : nat) T w :
  lock_key_ok k → id_ok r → lsafe (λ _ _ _, True) (lock_task k ttl r rounds n) T w.
Proof.
  intros Hk Hr. revert T w. induction rounds as [|attempts rounds IH]; intros T w; cbn [lock_task].
  - by apply try_delete_safe.
  - eapply csafe_bind; [by apply try_extend_safe|]. intros [] T' w' _. apply IH.
Qed.
End calls.

(** ** Calls *)

(** What the sessions and their tasks do with locks: acquire one, keep one until the
    shutdown, and list the revisions of one. *)
Section pool.
Context {raft : OpenRaft} {sj : SerdeJson} {ch : Chrono} `{!ProstMessage pb_LockMeta}.

Inductive LockCall :=
| CallAcquire (utc_now : nat → DateTime) (req : CreateLockRevReq) (should_retry : bool) (acquire_timeout : N)
    (rounds : list Round) (last_now : DateTime)
| CallTask (k : LockKey) (ttl revision : N) (rounds : list (list (DateTime * Pause))) (n : nat)
| CallList (req : ListLockRevReq).

Inductive LockResult := Acquired (k : LockKey) (revision : N) | Released | Listed (l : list (N * LockMeta)).

Definition lock_client (c : LockCall) : Client LockResult :=
  match c with
  | CallAcquire utc_now req should_retry acquire_timeout rounds last_now =>
      r ← try_acquire_lock utc_now req should_retry acquire_timeout rounds last_now;
      mret (Acquired (clr_lock_key req) r)
  | CallTask k ttl revision rounds n => _ ← lock_task k ttl revision rounds n; mret Released
  | CallList req => l ← list_lock_revisions req; mret (Listed l)
  end.

Definition lock_call_ok (c : LockCall) : Prop :=
  match c with
  | CallAcquire _ req _ _ _ _ => lock_key_ok (clr_lock_key req) ∧ duration_doubles (clr_ttl req) = true
  | CallTask k _ revision _ _ => lock_key_ok k ∧ id_ok revision
  | CallList req => lock_key_ok (llr_lock_key req)
  end.

Definition lock_post : Post LockResult := λ x T w,
  match x with Acquired k r => lock_key_ok k ∧ acquired k r T w | _ => True end.

Lemma lock_post_stable : stable lock_protocol lock_post.
Proof.
  intros [k r| |] T w w' Hr; [|done|done]. intros [Hk Ha]. split; [done|]. by eapply acquired_mono.
Qed.

Lemma lock_client_safe c T (w : N * Spec) : lock_call_ok c → csafe lock_protocol lock_post (lock_client c) T w.
Proof.
  destruct c as [utc_now req sr at_ rounds ln|k ttl r rounds n|req]; intros Hc; cbn [lock_client].
  - destruct Hc as [Hk Hd]. eapply csafe_bind; [by apply try_acquire_safe|]. by intros r T' w' Ha.
  - destruct Hc as [Hk Hr]. eapply csafe_bind; [by apply lock_task_safe|done].
  - destruct req as [k]. eapply csafe_bind; [by apply list_safe|done].
Qed.

(** A pool of such clients, and requests of others that leave the locks alone. *)
Lemma lock_pool {Mp} `{!StateMap raft Mp, !StateMapLaws Mp} (calls : list LockCall) t (s : StateMachine Mp) t' (s' : StateMachine Mp) cs :
  sm_ok s → lock_good (t, abs s) → Forall lock_call_ok calls →
  rtc (clock_step avoids_locks) (t, s, lock_client <$> calls) (t', s', cs) →
  ∃ Ts, clock_ok lock_protocol lock_post t' s' cs Ts.
Proof.
  intros Hok Hg Hc Hr. eapply (clock_reach lock_protocol lock_post avoids_locks lock_post_stable); [|exact Hr].
  apply clock_start; [done|done|]. intros i c. rewrite list_lookup_fmap. intros (x & Hx & ->)%fmap_Some.
  apply lock_client_safe. by eapply Forall_lookup_1.
Qed.
End pool.
