(* ===== verification/LockRuns.v ===== *)
(** What the operations on locks do when no other client disturbs them. *)

From stdpp Require Import base orders sorting strings gmap numbers list relations.
From S2P Require Import Prelude BTree RustStr External ExpireKey MetaTypes Marked MapApi Level StateMap.
From S2P Require Import Txn StateMachine Applier ApplierSpec StateMachineProofs ApplierProofs ApplyProofs.
From S2P Require Import SpecFacts Replica SMV003 MemMetaProofs KeyCodec KeyCodecProofs AppKeys KVApi ProtoConv MetaApi.
From S2P Require Import ClientProofs ServeProofs IdProofs KvProtocol Database DatabaseCalls DatabaseRuns ClockPool LockTypes Lock LockProofs LockCalls.
Local Open Scope N_scope.

Implicit Types (k : LockKey) (r n ttl : N) (kv : gmap string (SeqV bytes)).

(** ** Expiration *)

(** The expiration time of a revision: whole seconds. *)
Definition lock_until (now ttl : N) : N := (now + ttl) / 1000 * 1000.

Lemma lock_until_bounds now ttl : now + ttl < lock_until now ttl + 1000 ∧ lock_until now ttl ≤ now + ttl.
Proof.
  unfold lock_until. pose proof (N.div_mod (now + ttl) 1000 ltac:(done)). pose proof (N.mod_lt (now + ttl) 1000 ltac:(done)).
  set (q := (now + ttl) / 1000) in *. set (m := (now + ttl) mod 1000) in *. clearbody q m. lia.
Qed.

Section spec.
Context {raft : OpenRaft} (now : N) (Hnow : now < u64_mod).
Implicit Types (st : Spec) (s : string) (b : bytes).
Let ctx := cmd_ctx_from_millis now.

Lemma clean_cursor_le st :
  Inv st → sequence (sp_sys st) + 1 < u64_mod → time_ms (sp_cursor st) ≤ now → time_ms (sp_cursor (sp_clean now ctx st)) ≤ now.
Proof.
  intros HI Hs Hc. unfold sp_clean. destruct (now =? 0); [done|].
  destruct (sp_delete_all ctx (sp_expired now st) st HI Hs (sp_expired_live now st HI Hnow)) as (_ & _ & _ & Hcur & _).
  set (st' := foldl _ st (sp_expired now st)) in *. rewrite Hcur.
  destruct (N.ltb_spec now (time_ms (sp_cursor st))) as [|_]; [lia|]. cbn. by rewrite time_ms_new.
Qed.

(** A put with a time to live of at least a second. *)
Lemma put_ttl_spec s b ttl st :
  time_ms (sp_cursor st) ≤ now → 1000 ≤ ttl → now + ttl < u64_mod →
  let st' := (sp_operation (put_with_ttl s b (Some ttl)) ctx st).1 in
  ∃ v, sp_kv st' = <[s := v]> (sp_kv st) ∧ sp_cursor st' = sp_cursor st ∧ data v = b ∧
    opt_expires_at_ms (meta v) = lock_until now ttl.
Proof.
  intros Hc Httl Hfit st'. subst st'. pose proof (lock_until_bounds now ttl) as [Hb1 Hb2].
  set (mt := {| spec_expire_at := None; spec_ttl := Some (interval_from_millis (wrap64 ttl)) |}).
  assert (expires_at_ms (to_kv_meta mt ctx) = lock_until now ttl) as He.
  { unfold mt, to_kv_meta, expires_at_ms, lock_until in *. cbn [spec_ttl new_expire expire_at].
    rewrite (wrap64_small ttl) by lia. unfold time_seconds, interval_seconds.
    change (millis (time (time_add _ _))) with (sat_add64 now ttl). unfold sat_add64.
    rewrite N.min_l by (unfold u64_max; lia). by rewrite wrap64_small by lia. }
  destruct (upsert_write_spec s b (Some mt) ctx st) as (Hk & _ & Hcur & _).
  { change (time_ms (sp_cursor st) ≤ expires_at_ms (to_kv_meta mt ctx)). rewrite He. lia. }
  exists (mk_SeqV (sequence (sp_sys st) + 1) (Some (to_kv_meta mt ctx)) b).
  unfold sp_operation, put_with_ttl, put_upsert, upsert_update, with_meta_spec. cbn -[sp_upsert wrap64]. fold mt.
  destruct (sp_upsert _ ctx st) as [st1 [p q]]. by split_and!.
Qed.
End spec.

(** ** Calls *)

Section runs.
Context {raft : OpenRaft} {Mp : Type} `{!StateMap raft Mp, !StateMapLaws Mp} (now : N) (Hnow : now < u64_mod).
Context {sj : SerdeJson} {ch : Chrono} `{!ChronoLaws ch}.
Context `{!ProstMessage pb_LockMeta, !ProstLaws pb_LockMeta pb_lock_meta_fits}.
Implicit Types (s : StateMachine Mp) (st : Spec).

Abbreviation kvs s := (kvv (sm_map s)).

(** A state in which the locks can be used at this time. *)
Record lock_ready s : Prop := {
  ready_ok : sm_ok s;
  ready_good : lock_good (now, abs s);
  ready_cursor : time_ms (expire_cursor s) ≤ now;
}.

Lemma run_send t s :
  sm_ok s → sequence (map_sys (sm_map s)) + req_cost (ReqTransaction t) + 1 < u64_mod →
  let r := sp_serve now (ReqTransaction t) (abs s) in
  reply_error r.2 = "" →
  ∃ s' rs, mem_run now (send_txn t) s = (s', COk (reply_success r.2, rs)) ∧ sm_ok s' ∧ kvs s' = sp_kv r.1 ∧
    expire_cursor s' = sp_cursor r.1 ∧
    sequence (map_sys (sm_map s')) ≤ sequence (map_sys (sm_map s)) + req_cost (ReqTransaction t).
Proof.
  intros Hok Hroom r He. destruct (mem_serve_spec now (ReqTransaction t) s Hok Hnow Hroom) as (s' & E & Hok' & (Hkv & _ & Hcur) & Hle).
  exists s', (reply_responses r.2). split_and!; [|done|exact Hkv|exact Hcur|done].
  unfold send_txn. client_run. cbn [mem_run]. rewrite E. client_run. fold r. unfold txn_reply_to_api_result. by rewrite He.
Qed.

(** A key of a lock that is left alone: it is removed if it has expired. *)
Definition kept (kv kv' : gmap string (SeqV bytes)) (x : string) : Prop :=
  ∀ v, kv' !! x = Some v ↔ kv !! x = Some v ∧ now ≤ opt_expires_at_ms (meta v).

Lemma clean_kept s x :
  sm_ok s → sequence (map_sys (sm_map s)) + 1 < u64_mod →
  kept (kvs s) (sp_kv (sp_clean now (cmd_ctx_from_millis now) (abs s))) x.
Proof.
  intros Hok Hs v. destruct (sp_clean_spec now (cmd_ctx_from_millis now) (abs s) (ok_inv s Hok) Hnow Hs) as (_ & -> & _).
  by rewrite map_lookup_filter_Some.
Qed.

Lemma run_get_gen s :
  lock_ready s → mem_run now (get_seq id_generator_table_lock_id) s = (s, COk (lock_level (abs s))).
Proof.
  intros [Hok Hg _]. unfold get_seq. rewrite lock_gen_string. client_run. cbn [mem_run]. rewrite mem_serve_get by done. client_run.
  unfold stream_item. cbn [si_value snd]. unfold lock_level. change (sp_kv (abs s)) with (kvs s).
  destruct (kvs s !! gen_str) as [v|] eqn:Hv.
  - assert (lasting v) as Hl by (by apply (gen_lasts _ Hg)). rewrite lasting_read by done. client_run. by rewrite lasting_pb.
  - unfold non_expired. by destruct (opt_is_expired None now).
Qed.

Lemma level_bound s : sm_ok s → lock_level (abs s) ≤ sequence (map_sys (sm_map s)).
Proof.
  intros Hok. unfold lock_level. destruct (sp_kv (abs s) !! gen_str) as [v|] eqn:Hv; cbn; [|lia].
  by pose proof (seqs_bound _ _ (inv_seqs _ (ok_inv s Hok)) _ _ Hv) as [_ ?].
Qed.

Lemma create_served k b ttl s :
  lock_ready s → sequence (map_sys (sm_map s)) + 4 < u64_mod → lock_key_ok k → 1000 ≤ ttl → now + ttl < u64_mod →
  let r := lock_level (abs s) + 1 in
  let x := sp_serve now (ReqTransaction (txn_new [cond_eq_seq gen_str (lock_level (abs s)); cond_eq_seq (lock_str k r) 0]
             [op_put gen_str ""; put_with_ttl (lock_str k r) b (Some ttl)])) (abs s) in
  reply_error x.2 = "" ∧ reply_success x.2 = true ∧ lock_good (now, x.1) ∧ time_ms (sp_cursor x.1) ≤ now ∧
  ∃ v, sp_kv x.1 !! lock_str k r = Some v ∧ data v = b ∧ opt_expires_at_ms (meta v) = lock_until now ttl ∧
    ∀ y, lock_like y → y ≠ lock_str k r → kept (kvs s) (sp_kv x.1) y.
Proof.
  intros [Hok Hg Hcur] Hroom Hk Httl Hfit r x. pose proof (level_bound s Hok) as Hle.
  assert (id_ok r) as Hr by (unfold id_ok, r; lia).
  assert (sequence (sp_sys (abs s)) + 1 < u64_mod) as Hs by (change (sequence (map_sys (sm_map s)) + 1 < u64_mod); lia).
  destruct (serve_create now now (abs s) k (lock_level (abs s)) b (Some ttl) Hg (ok_inv s Hok) ltac:(lia) Hnow Hs Hk Hr)
    as (He & [Hg' _] & _). fold r x in He, Hg'.
  pose proof (serve_txn now (abs s) [(gen_str, lock_level (abs s)); (lock_str k r, 0)]
    [op_put gen_str ""; put_with_ttl (lock_str k r) b (Some ttl)]) as H. cbv zeta in H. cbn [fmap list_fmap fst snd] in H.
  fold x in H. destruct H as (_ & Hsucc & Hst). set (st1 := sp_clean now _ (abs s)) in *.
  pose proof (λ y, clean_kept s y Hok ltac:(lia)) as Hkept. fold st1 in Hkept.
  assert (kvs s !! lock_str k r = None) as Hfree.
  { apply (next_revision_free (now, abs s)); [done..|]. cbn. unfold r. lia. }
  rewrite bool_decide_true in Hsucc, Hst.
  2, 3: repeat constructor; cbn [fst snd].
  2, 4: unfold st1; by rewrite (gen_clean now) by (apply Hg || apply Hok || done).
  2, 3: destruct (sp_kv st1 !! lock_str k r) as [v|] eqn:E; [|done];
    apply Hkept in E as [E _]; by rewrite Hfree in E.
  split_and!; [done..|rewrite Hst, operations_two|rewrite Hst, operations_two].
  all: destruct (op_put_spec gen_str "" (cmd_ctx_from_millis now) st1) as (Hk1 & Hc1 & _).
  all: assert (time_ms (sp_cursor st1) ≤ now) as Hcl by (apply clean_cursor_le; [done|apply (ok_inv s Hok)|done|done]).
  all: destruct (put_ttl_spec now Hnow (lock_str k r) b ttl (sp_operation (op_put gen_str "") (cmd_ctx_from_millis now) st1).1)
    as (v & Hk2 & Hc2 & Hb & Hexp); [by rewrite Hc1|done..|].
  - by rewrite Hc2, Hc1.
  - exists v. rewrite Hk2, lookup_insert_eq. split_and!; [done..|]. intros y Hy Hne w.
    rewrite lookup_insert_ne, Hk1, lookup_insert_ne by (done || by apply not_eq_sym, lock_not_gen). apply Hkept.
Qed.

Lemma run_create utc_now k ttl user node query_id s :
  lock_ready s → sequence (map_sys (sm_map s)) + 4 < u64_mod → lock_key_ok k → 1000 ≤ ttl → now + ttl < u64_mod →
  let r := lock_level (abs s) + 1 in
  ∃ s' v, mem_run now (create_lock_revision utc_now {| clr_lock_key := k; clr_ttl := ttl; clr_user := user;
        clr_node := node; clr_query_id := query_id |}) s = (s', COk r) ∧
    lock_ready s' ∧ sequence (map_sys (sm_map s')) ≤ sequence (map_sys (sm_map s)) + 2 ∧
    kvs s' !! lock_str k r = Some v ∧ opt_expires_at_ms (meta v) = lock_until now ttl ∧
    decode_pb (data v) = Some {| lm_user := user; lm_node := node; lm_query_id := query_id; lm_created_on := utc_now 1%nat;
      lm_acquired_on := None; lm_lock_type := TABLE; lm_extra_info := ∅ |} ∧
    ∀ x, lock_like x → x ≠ lock_str k r → kept (kvs s) (kvs s') x.
Proof.
  intros Hready Hroom Hk Httl Hfit r. pose proof (ready_ok s Hready) as Hok. pose proof (ready_good s Hready) as Hg.
  pose proof (level_bound s Hok) as Hle. assert (id_ok r) as Hr by (unfold id_ok, r; lia).
  set (m := {| lm_user := user; lm_node := node; lm_query_id := query_id; lm_created_on := utc_now 1%nat;
      lm_acquired_on := None; lm_lock_type := TABLE; lm_extra_info := ∅ |}).
  destruct (pb_roundtrip m) as (b & Hb & Hd); [done|].
  destruct (create_served k b ttl s Hready Hroom Hk Httl Hfit) as (He & Hsucc & Hg' & Hc' & v & Hv & Hdata & Hexp & Hkept).
  fold r in He, Hsucc, Hg', Hc', Hv, Hkept. set (t := txn_new _ _) in *.
  destruct (run_send t s Hok) as (s' & rs & E & Hok' & Hkv & Hcur & Hseq); [change (req_cost (ReqTransaction t)) with 2; lia|done|].
  exists s', v. rewrite Hkv, Hdata. split_and!; [|split; [done| |by rewrite Hcur]|exact Hseq|done..].
  - unfold create_lock_revision. apply run_trial. etrans; [apply (run_step _ _ _ _ _ _ (run_get_gen s Hready))|]. cbn beta.
    rewrite wrap64_small by done. fold r. unfold txn_cond_seq, txn_op_put, txn_op_put_pb. cbn [clr_lock_key clr_ttl].
    rewrite lock_gen_string, lock_string by done. client_binds.
    assert (lock_type k = TABLE ∧ get_extra_info k = ∅) as [-> ->] by by destruct k.
    change (encode_pb _) with (encode_pb m). rewrite Hb. client_binds. etrans; [apply (run_step _ _ _ _ _ _ E)|]. by rewrite Hsucc.
  - by eapply lock_good_kv.
Qed.

(** ** Extending *)

Lemma run_get_live k r v m s :
  lock_ready s → lock_key_ok k → id_ok r → kvs s !! lock_str k r = Some v → now ≤ opt_expires_at_ms (meta v) →
  decode_pb (data v) = Some m →
  ∃ sv, mem_run now (get_pb LockMeta (gen_key k r)) s = (s, COk (Some sv)) ∧ data sv = m ∧ seq sv = seq v.
Proof.
  intros [Hok _ _] Hk Hr Hv Hexp Hd. unfold get_pb. rewrite lock_string by done. client_run. cbn [mem_run].
  rewrite mem_serve_get by done. client_run. unfold stream_item. cbn [si_value snd]. rewrite Hv. unfold non_expired, opt_is_expired.
  change (opt_meta (Some v)) with (meta v). destruct (N.ltb_spec (opt_expires_at_ms (meta v)) now) as [|_]; [lia|]. client_run.
  unfold decode_seqv. cbn [SeqV_of_pb pb_SeqV_of data seq pb_data pb_seq]. rewrite Hd. by eexists.
Qed.
Lemma run_get_dead k r s :
  lock_ready s → lock_key_ok k → id_ok r → ¬ live_at now (abs s) k r →
  mem_run now (get_pb LockMeta (gen_key k r)) s = (s, COk None).
Proof.
  intros [Hok _ _] Hk Hr Hdead. unfold get_pb. rewrite lock_string by done. client_run. cbn [mem_run].
  rewrite mem_serve_get by done. client_run. unfold stream_item. cbn [si_value snd].
  assert (non_expired (kvs s !! lock_str k r) now = None) as ->; [|done]. unfold non_expired, opt_is_expired.
  destruct (kvs s !! lock_str k r) as [v|] eqn:Hv; [|by destruct (_ <? _)]. change (opt_meta (Some v)) with (meta v).
  destruct (N.ltb_spec (opt_expires_at_ms (meta v)) now) as [|Hle]; [done|]. destruct Hdead. by exists v.
Qed.

Lemma extend_served k r v b ttl s :
  lock_ready s → sequence (map_sys (sm_map s)) + 4 < u64_mod → 1000 ≤ ttl → now + ttl < u64_mod →
  kvs s !! lock_str k r = Some v → now ≤ opt_expires_at_ms (meta v) →
  let x := sp_serve now (ReqTransaction (txn_new [cond_eq_seq (lock_str k r) (seq v)]
             [put_with_ttl (lock_str k r) b (Some ttl)])) (abs s) in
  reply_error x.2 = "" ∧ reply_success x.2 = true ∧ lock_good (now, x.1) ∧ time_ms (sp_cursor x.1) ≤ now ∧
  ∃ v', sp_kv x.1 !! lock_str k r = Some v' ∧ data v' = b ∧ opt_expires_at_ms (meta v') = lock_until now ttl ∧
    ∀ y, y ≠ lock_str k r → kept (kvs s) (sp_kv x.1) y.
Proof.
  intros [Hok Hg Hcur] Hroom Httl Hfit Hv Hexp x.
  assert (sequence (sp_sys (abs s)) + 1 < u64_mod) as Hs by (change (sequence (map_sys (sm_map s)) + 1 < u64_mod); lia).
  pose proof (inv_positive (abs s) (ok_inv s Hok) _ v Hv) as Hpos.
  destruct (serve_extend now now (abs s) k r (seq v) b (Some ttl) Hg (ok_inv s Hok) ltac:(lia) Hnow Hs Hpos)
    as (He & Hg' & _). fold x in He, Hg'.
  pose proof (serve_txn now (abs s) [(lock_str k r, seq v)] [put_with_ttl (lock_str k r) b (Some ttl)]) as H.
  cbv zeta in H. cbn [fmap list_fmap fst snd] in H. fold x in H. destruct H as (_ & Hsucc & Hst).
  set (st1 := sp_clean now _ (abs s)) in *. pose proof (λ y, clean_kept s y Hok ltac:(lia)) as Hkept. fold st1 in Hkept.
  assert (sp_kv st1 !! lock_str k r = Some v) as Hv1 by (by apply Hkept).
  rewrite bool_decide_true in Hsucc, Hst by (repeat constructor; cbn; by rewrite Hv1).
  assert (time_ms (sp_cursor st1) ≤ now) as Hcl by (apply clean_cursor_le; [done|apply (ok_inv s Hok)|done|done]).
  destruct (put_ttl_spec now Hnow (lock_str k r) b ttl st1) as (v' & Hk2 & Hc2 & Hb & Hexp'); [done..|].
  assert (x.1 = (sp_operation (put_with_ttl (lock_str k r) b (Some ttl)) (cmd_ctx_from_millis now) st1).1) as Hx.
  { rewrite Hst. cbn [sp_operations]. by destruct (sp_operation _ _ st1). }
  split_and!; [done..|by rewrite Hx, Hc2|]. exists v'. rewrite Hx, Hk2, lookup_insert_eq. split_and!; [done..|].
  intros y Hne w. rewrite lookup_insert_ne by done. apply Hkept.
Qed.

Lemma run_extend utc_now k r ttl acquire_lock v m s :
  lock_ready s → sequence (map_sys (sm_map s)) + 4 < u64_mod → lock_key_ok k → id_ok r → 1000 ≤ ttl → now + ttl < u64_mod →
  kvs s !! lock_str k r = Some v → now ≤ opt_expires_at_ms (meta v) → decode_pb (data v) = Some m →
  ∃ s' v', mem_run now (extend_lock_revision utc_now {| elr_lock_key := k; elr_ttl := ttl; elr_revision := r;
        elr_acquire_lock := acquire_lock |}) s = (s', COk tt) ∧
    lock_ready s' ∧ kvs s' !! lock_str k r = Some v' ∧ opt_expires_at_ms (meta v') = lock_until now ttl ∧
    decode_pb (data v') = Some (if acquire_lock then set_acquired_on (Some utc_now) m else m) ∧
    ∀ y, y ≠ lock_str k r → kept (kvs s) (kvs s') y.
Proof.
  intros Hready Hroom Hk Hr Httl Hfit Hv Hexp Hd.
  destruct (run_get_live k r v m s) as (sv & Eg & Hm & Hq); [done..|].
  destruct (pb_roundtrip (if acquire_lock then set_acquired_on (Some utc_now) m else m)) as (b & Hb & Hd'); [done|].
  destruct (extend_served k r v b ttl s) as (He & Hsucc & Hg' & Hc' & v' & Hv' & Hdata & Hexp' & Hkept); [done..|].
  set (t := txn_new _ _) in *. pose proof (ready_ok s Hready) as Hok.
  destruct (run_send t s Hok) as (s' & rs & E & Hok' & Hkv & Hcur & _); [change (req_cost (ReqTransaction t)) with 1; lia|done|].
  exists s', v'. rewrite Hkv, Hdata. split_and!; [|split; [done|by eapply lock_good_kv|by rewrite Hcur]|done..].
  unfold extend_lock_revision, crud_update_existing. cbn [elr_lock_key elr_revision elr_acquire_lock elr_ttl].
  etrans; [apply (run_step _ _ _ _ s' (inl tt))|done]. apply run_trial. etrans; [apply (run_step _ _ _ _ _ _ Eg)|].
  unfold opt_value. cbn [fmap option_fmap option_map opt_seq]. unfold txn_cond_eq_seq, txn_op_put_pb.
  rewrite lock_string by done. client_binds. rewrite Hm, Hb, Hq. client_binds.
  etrans; [apply (run_step _ _ _ _ _ _ E)|]. by rewrite Hsucc.
Qed.

Lemma run_extend_dead utc_now k r ttl acquire_lock s :
  lock_ready s → lock_key_ok k → id_ok r → ¬ live_at now (abs s) k r →
  mem_run now (extend_lock_revision utc_now {| elr_lock_key := k; elr_ttl := ttl; elr_revision := r;
    elr_acquire_lock := acquire_lock |}) s = (s, CErr (EApp TableLockExpired)).
Proof.
  intros Hready Hk Hr Hdead. unfold extend_lock_revision, crud_update_existing. cbn [elr_lock_key elr_revision].
  etrans; [apply (run_step _ _ _ _ s (inr TableLockExpired))|done]. apply run_trial.
  etrans; [apply (run_step _ _ _ _ _ _ (run_get_dead k r s Hready Hk Hr Hdead))|done].
Qed.

(** ** Deleting *)

Definition readable k s : Prop :=
  ∀ r v, kvs s !! lock_str k r = Some v → is_Some (decode_pb (T := LockMeta) (data v)).

Lemma run_delete k r s :
  lock_ready s → sequence (map_sys (sm_map s)) + 4 < u64_mod → lock_key_ok k → id_ok r → readable k s →
  ∃ s', mem_run now (delete_lock_revision {| dlr_lock_key := k; dlr_revision := r |}) s = (s', COk tt) ∧ sm_ok s' ∧
    kvs s' !! lock_str k r = None ∧ ∀ y, y ≠ lock_str k r → kept (kvs s) (kvs s') y.
Proof.
  intros [Hok Hg Hcur] Hroom Hk Hr Hread. set (y := lock_str k r). set (req := ReqUpsertKV (upsert_delete y)).
  destruct (mem_serve_spec now req s Hok Hnow) as (s' & E & Hok' & (Hkv & _) & _); [cbn; lia|]. change (sp_kv (abs s')) with (kvs s') in Hkv.
  pose proof (λ z, clean_kept s z Hok ltac:(lia)) as Hkept. set (st1 := sp_clean now _ (abs s)) in *.
  set (ctx := cmd_ctx_from_millis now) in *.
  assert (sp_kv (sp_serve now req (abs s)).1 = delete y (sp_kv st1) ∧
    (sp_serve now req (abs s)).2 = change_new (sp_kv st1 !! y) None) as [Hk1 Hrep].
  { destruct (sp_clean_spec now ctx (abs s) (ok_inv s Hok) Hnow) as (HI1 & _); [change (sequence (map_sys (sm_map s)) + 1 < u64_mod); lia|].
    destruct (upsert_delete_spec y ctx st1 (inv_positive _ HI1)) as (st2 & E2 & Hk2).
    cbn [sp_serve req]. fold ctx. fold st1. by rewrite E2. }
  exists s'. rewrite Hkv, Hk1, lookup_delete_eq. split_and!; [|done|done|].
  - unfold delete_lock_revision, crud_remove, upsert_pb. cbn [dlr_lock_key dlr_revision upb_key upb_delete upb_seq upb_value_meta].
    rewrite lock_string by done. cbn [upb_value upb_delete encode_operation]. client_run. cbn [mem_run]. fold y.
    change (ReqUpsertKV _) with req. rewrite E, Hrep. client_run.
    unfold decode_transition, change_new. cbn [ch_prev ch_result]. destruct (sp_kv st1 !! y) as [v|] eqn:Hv; client_run; [|done].
    apply Hkept in Hv as [Hv _]. destruct (Hread r v Hv) as [m Hm]. unfold decode_seqv. cbn [SeqV_of_pb pb_SeqV_of data]. rewrite Hm. client_run.
    by destruct (is_changed _).
  - intros z Hne w. rewrite lookup_delete_ne by done. apply Hkept.
Qed.

(** ** Listing *)

Lemma run_list_locks k s :
  lock_ready s → lock_key_ok k → readable k s →
  ∃ l, mem_run now (list_lock_revisions {| llr_lock_key := k |}) s = (s, COk l) ∧
    ∀ r, r ∈ l.*1 ↔ id_ok r ∧ live_at now (abs s) k r.
Proof.
  intros [Hok Hg _] Hk Hread. unfold list_lock_revisions, list_pb. cbn [llr_lock_key]. rewrite rev_dir_string by done. client_run.
  cbn [mem_run]. rewrite mem_serve_list by done. client_run. cbn [sp_serve snd].
  rewrite <-(list_fmap_compose _ decode_non_empty_item), <-(list_fmap_compose _ (pitem_map _)).
  change (pitem_map _ ∘ _) with lock_item.
  destruct (list_reply now (abs s) k Hg Hk) as [(l & -> & Hl)|(e & r & v & _ & Hv & Hd)]; [by exists l|].
  destruct (Hread r v Hv) as [m Hm]. congruence.
Qed.

(** ** Acquiring *)

Lemma position_elem r (l : list N) : r ∈ l → is_Some (position r l).
Proof. intros Hr. apply fmap_is_Some. destruct (list_find_elem_of (r =.) l r Hr eq_refl) as [p ->]. eauto. Qed.

(** The position among the revisions that have not expired. *)
Lemma position_front r (l : list N) :
  (∀ r', r' ∈ l ↔ r' = r) → position r (merge_sort N.le l) = Some O.
Proof.
  intros Hl. destruct (position_elem r (merge_sort N.le l)) as [i Hi]; [rewrite merge_sort_Permutation; by apply Hl|].
  rewrite Hi. f_equal. assert (∀ x, x ∈ merge_sort N.le l → x = r) as Hall.
  { intros x. rewrite merge_sort_Permutation. apply Hl. }
  unfold position in Hi. destruct (merge_sort N.le l) as [|x l']; [done|]. cbn in Hi.
  rewrite decide_True in Hi by (symmetry; apply Hall; left). by injection Hi.
Qed.
Lemma position_behind r r' (l : list N) :
  r ∈ l → r' ∈ l → r' < r → ∃ p, position r (merge_sort N.le l) = Some (S p).
Proof.
  intros Hr Hr' Hlt. destruct (position_elem r (merge_sort N.le l)) as [[|p] Hp]; [by rewrite merge_sort_Permutation| |by eauto].
  apply position_lookup in Hp. rewrite <-(merge_sort_Permutation N.le l) in Hr'.
  pose proof (StronglySorted_merge_sort N.le l) as Hs. destruct (merge_sort N.le l) as [|x l']; [done|]. injection Hp as ->.
  apply StronglySorted_cons in Hs as [Hs _]. rewrite Forall_forall in Hs.
  apply elem_of_cons in Hr' as [->|Hin]; [lia|]. specialize (Hs r' Hin). lia.
Qed.

(** A new revision that has not expired joins the others. *)
Lemma live_created k r s s' v :
  lock_key_ok k → id_ok r → kvs s' !! lock_str k r = Some v → now ≤ opt_expires_at_ms (meta v) →
  (∀ x, lock_like x → x ≠ lock_str k r → kept (kvs s) (kvs s') x) →
  ∀ r', id_ok r' → live_at now (abs s') k r' ↔ r' = r ∨ live_at now (abs s) k r'.
Proof.
  intros Hk Hr Hv Hexp Hkept r' Hr'. destruct (decide (r' = r)) as [->|Hne].
  { split; [by left|]. intros _. by exists v. }
  assert (kept (kvs s) (kvs s') (lock_str k r')) as Hx.
  { apply Hkept; [apply lock_str_like|]. intros E. by destruct (lock_str_inj k r' k r Hk Hr' Hk Hr E). }
  split; [intros (w & [Hw Hw']%Hx & _); right; by exists w|]. intros [|(w & Hw & Hw')]; [done|]. exists w.
  split; [by apply Hx|done].
Qed.

Lemma readable_created k r s s' v (m : LockMeta) :
  kvs s' !! lock_str k r = Some v → decode_pb (data v) = Some m →
  (∀ x, lock_like x → x ≠ lock_str k r → kept (kvs s) (kvs s') x) → readable k s → readable k s'.
Proof.
  intros Hv Hd Hkept Hread r' w Hw. destruct (decide (lock_str k r' = lock_str k r)) as [E|Hne].
  - rewrite E, Hv in Hw. injection Hw as <-. eauto.
  - apply Hkept in Hw as [Hw _]; [|apply lock_str_like|done]. by eapply Hread.
Qed.

(** The first list that a holder reads has its new revision and the others. *)
Lemma run_enter utc_now k ttl user node query_id s :
  lock_ready s → sequence (map_sys (sm_map s)) + 8 < u64_mod → lock_key_ok k → 1000 ≤ ttl → now + ttl < u64_mod →
  readable k s →
  let r := lock_level (abs s) + 1 in
  ∃ s' v l, mem_run now (start utc_now {| clr_lock_key := k; clr_ttl := ttl; clr_user := user;
        clr_node := node; clr_query_id := query_id |}) s = (s', COk r) ∧
    mem_run now (list_lock_revisions {| llr_lock_key := k |}) s' = (s', COk l) ∧
    (∀ r', r' ∈ l.*1 ↔ r' = r ∨ id_ok r' ∧ live_at now (abs s) k r') ∧
    lock_ready s' ∧ id_ok r ∧ sequence (map_sys (sm_map s')) ≤ sequence (map_sys (sm_map s)) + 2 ∧
    kvs s' !! lock_str k r = Some v ∧ now ≤ opt_expires_at_ms (meta v) ∧
    decode_pb (data v) = Some {| lm_user := user; lm_node := node; lm_query_id := query_id; lm_created_on := utc_now 1%nat;
      lm_acquired_on := None; lm_lock_type := TABLE; lm_extra_info := ∅ |}.
Proof.
  intros Hready Hroom Hk Httl Hfit Hread r. pose proof (level_bound s (ready_ok s Hready)) as Hle.
  assert (id_ok r) as Hr by (unfold id_ok, r; lia).
  destruct (run_create utc_now k ttl user node query_id s) as (s' & v & E & Hready' & Hseq & Hv & Hexp & Hd & Hkept); [done|lia|done..|].
  fold r in E, Hv, Hkept. pose proof (lock_until_bounds now ttl) as [Hu _].
  assert (now ≤ opt_expires_at_ms (meta v)) as Hlive by (rewrite Hexp; lia).
  destruct (run_list_locks k s' Hready' Hk) as (l & El & Hl); [by eapply readable_created|].
  exists s', v, l. split_and!; [|done| |done..].
  - unfold start, duration_doubles. cbn [clr_ttl]. destruct (N.ltb_spec (2 * ttl) (1000 * u64_mod)); [done|lia].
  - intros r'. rewrite Hl. split.
    + intros [Hr' [->|?]%(live_created k r s s' v Hk Hr Hv Hlive Hkept r' Hr')]; [by left|by right].
    + intros [->|[Hr' ?]]; (split; [done|]); apply (live_created k r s s' v); auto.
Qed.

Lemma run_acquire_free utc_now k ttl user node query_id should_retry acquire_timeout rounds last_now s :
  lock_ready s → sequence (map_sys (sm_map s)) + 8 < u64_mod → lock_key_ok k → 1000 ≤ ttl → now + ttl < u64_mod →
  readable k s → (∀ r, ¬ live_at now (abs s) k r) →
  let r := lock_level (abs s) + 1 in
  ∃ s' v, mem_run now (try_acquire_lock utc_now {| clr_lock_key := k; clr_ttl := ttl; clr_user := user;
        clr_node := node; clr_query_id := query_id |} should_retry acquire_timeout rounds last_now) s = (s', COk r) ∧
    kvs s' !! lock_str k r = Some v ∧ opt_expires_at_ms (meta v) = lock_until now ttl ∧
    decode_pb (data v) = Some {| lm_user := user; lm_node := node; lm_query_id := query_id; lm_created_on := utc_now 1%nat;
      lm_acquired_on := Some (match rounds with rd :: _ => round_now rd | [] => last_now end);
      lm_lock_type := TABLE; lm_extra_info := ∅ |}.
Proof.
  intros Hready Hroom Hk Httl Hfit Hread Hfree r.
  destruct (run_enter utc_now k ttl user node query_id s) as (s' & v & l & E & El & Hl & Hready' & Hr & Hseq & Hv & Hexp & Hd); [done..|].
  fold r in E, Hl, Hv, Hr. assert (position r (merge_sort N.le l.*1) = Some O) as Hp.
  { apply position_front. intros r'. rewrite Hl. split; [|by left]. intros [|[_ ?]]; [done|]. by destruct (Hfree r'). }
  destruct (run_extend (match rounds with rd :: _ => round_now rd | [] => last_now end) k r ttl true v _ s' Hready' ltac:(lia) Hk Hr Httl Hfit Hv Hexp Hd)
    as (s2 & v2 & E2 & _ & Hv2 & Hexp2 & Hd2 & _).
  exists s2, v2. split_and!; [|done..]. unfold try_acquire_lock. etrans; [apply (run_step _ _ _ _ _ _ E)|].
  destruct rounds as [|rd rounds]; cbn [acquire_loop clr_lock_key clr_ttl];
    (etrans; [apply (run_step _ _ _ _ _ _ El)|]); cbv beta zeta; rewrite Hp; by etrans; [apply (run_step _ _ _ _ _ _ E2)|].
Qed.

Lemma run_acquire_busy utc_now k ttl user node query_id acquire_timeout rounds last_now s r0 :
  lock_ready s → sequence (map_sys (sm_map s)) + 8 < u64_mod → lock_key_ok k → 1000 ≤ ttl → now + ttl < u64_mod →
  readable k s → id_ok r0 → live_at now (abs s) k r0 →
  (mem_run now (try_acquire_lock utc_now {| clr_lock_key := k; clr_ttl := ttl; clr_user := user;
    clr_node := node; clr_query_id := query_id |} false acquire_timeout rounds last_now) s).2 = CErr (EQuery TableAlreadyLocked).
Proof.
  intros Hready Hroom Hk Httl Hfit Hread Hr0 Hlive.
  destruct (run_enter utc_now k ttl user node query_id s) as (s' & v & l & E & El & Hl & Hready' & Hr & Hseq & Hv & Hexp & Hd); [done..|].
  set (r := lock_level (abs s) + 1) in *.
  destruct (position_behind r r0 l.*1) as [p Hp]; [by apply Hl; left|by apply Hl; right| |].
  { destruct Hlive as (w & Hw & _). apply N.nle_gt. intros Hge.
    assert (sp_kv (abs s) !! lock_str k r0 = None); [|congruence].
    apply (next_revision_free (now, abs s) k r0 (ready_good s Hready) Hk Hr0). unfold r in Hge. cbn. lia. }
  unfold try_acquire_lock. rewrite (run_step _ _ _ _ _ _ E).
  destruct rounds as [|rd rounds]; cbn [acquire_loop clr_lock_key clr_ttl];
    rewrite (run_step _ _ _ _ _ _ El); cbv beta zeta; by rewrite Hp.
Qed.
End runs.
