(* ===== verification/LockTheorems.v ===== *)
(** What the locks of tables promise: at most one session holds a lock, and what each
    call does on its own. *)

From stdpp Require Import base orders sorting strings gmap numbers list relations.
From S2P Require Import Prelude BTree RustStr External ExpireKey MetaTypes Marked MapApi Level StateMap.
From S2P Require Import Txn StateMachine Applier ApplierSpec StateMachineProofs ApplierProofs ApplyProofs.
From S2P Require Import SpecFacts Replica ApplierTheorems SMV003 MemMetaProofs KeyCodec KeyCodecProofs AppKeys AppKeysProofs.
From S2P Require Import KVApi ProtoConv MetaApi ClientProofs ServeProofs IdProofs ApiTheorems DatabaseTypes.
From S2P Require Import ClockPool LockTypes Lock LockProofs LockCalls LockRuns.
Local Open Scope N_scope.

(** ** The manager of the locks *)

(** What happens in a manager: a call of [try_lock] ends, a guard is dropped, the
    task of the manager receives a revision. *)
Inductive ManagerEvent := MLocked (r : N + ApiError) | MUnlock (r : N) | MRecv.

Definition manager_event (e : ManagerEvent) (m : LockManager) : Outcome LockManager :=
  match e with
  | MLocked r => '(m, _, _) ← try_lock_result r m; Ok m
  | MUnlock r => Ok (unlock r m)
  | MRecv => Ok (manager_recv m).1
  end.
Fixpoint manager_run (es : list ManagerEvent) (m : LockManager) : Outcome LockManager :=
  match es with
  | [] => Ok m
  | e :: es => m ← manager_event e m; manager_run es m
  end.

(** The revisions that were locked. *)
Definition locked (es : list ManagerEvent) : list N :=
  omap (λ e, match e with MLocked (inl r) => Some r | _ => None end) es.

Lemma manager_runs es m :
  NoDup (locked es) → (∀ r, r ∈ locked es → active_locks m !! r = None) → ∃ m', manager_run es m = Ok m'.
Proof.
  revert m. induction es as [|e es IH]; intros m Hnd Hm; [by eexists|]. cbn [manager_run].
  destruct e as [[r|err]|r|]; cbn [manager_event try_lock_result locked omap list_omap] in *.
  - apply NoDup_cons in Hnd as [Hr Hnd]. unfold insert_lock. rewrite Hm by by left. cbn. apply IH; [done|].
    intros r' Hr'. cbn. rewrite lookup_insert_ne by (intros ->; done). apply Hm. by right.
  - by apply IH.
  - by apply IH.
  - apply IH; [done|]. intros r Hr. unfold manager_recv. destruct (tx m) as [|r' rest]; cbn; [by apply Hm|].
    apply lookup_delete_None. right. by apply Hm.
Qed.

Section locks.
Context {raft : OpenRaft} {Mp : Type} `{!StateMap raft Mp, !StateMapLaws Mp}.
Context {sj : SerdeJson} {ch : Chrono} `{!ProstMessage pb_LockMeta}.
Implicit Types (s : StateMachine Mp) (k : LockKey) (r t ttl : N).

Abbreviation kvs s := (kvv (sm_map s)).

(** C9: At most one session holds the lock of a table.  Sessions acquire locks,
    tasks extend and delete revisions, others list revisions, in any order; their
    requests and replies may be lost, and other requests that leave the locks
    alone happen in between.  The times of the requests do not go back, and twice the
    time to live of each lock is at most [u64::MAX] seconds.  When two
    sessions have acquired the lock of a table, they have different revisions, of
    which at most one has not expired.  No call panics, and neither does a manager
    that registers the revisions that were acquired, in any order with the
    unlocking. *)
Theorem lock_mutual_exclusion (calls : list LockCall) t s t' s' cs :
  Forall lock_call_ok calls → sm_ok s → lock_good (t, abs s) →
  rtc (clock_step avoids_locks) (t, s, lock_client <$> calls) (t', s', cs) →
  (∀ i j k1 k2 r1 r2, i ≠ j →
    cs !! i = Some (Done (COk (Acquired k1 r1))) → cs !! j = Some (Done (COk (Acquired k2 r2))) →
    r1 ≠ r2 ∧ ∀ v1 v2, k1 = k2 →
      kvs s' !! lock_str k1 r1 = Some v1 → kvs s' !! lock_str k2 r2 = Some v2 →
      seqv_is_expired v1 t' = true ∨ seqv_is_expired v2 t' = true) ∧
  (∀ i, cs !! i ≠ Some (Done CPanic)) ∧
  ∀ holders es, NoDup holders →
    Forall2 (λ i r, ∃ k, cs !! i = Some (Done (COk (Acquired k r)))) holders (locked es) →
    ∃ m, manager_run es lock_manager_init = Ok m.
Proof.
  intros Hc Hok Hg Hr. destruct (lock_pool calls t s t' s' cs Hok Hg Hc Hr) as [Ts HP].
  assert (∀ i j k1 k2 r1 r2, i ≠ j →
    cs !! i = Some (Done (COk (Acquired k1 r1))) → cs !! j = Some (Done (COk (Acquired k2 r2))) → r1 ≠ r2) as Hne.
  { intros i j k1 k2 r1 r2 Hij Hi Hj ->. destruct (clock_safe _ _ _ _ _ _ HP i _ Hi) as (T1 & HT1 & _ & (Hr1 & _) & _).
    destruct (clock_safe _ _ _ _ _ _ HP j _ Hj) as (T2 & HT2 & _ & (Hr2 & _) & _).
    by eapply (clock_disjoint _ _ _ _ _ _ HP i j T1 T2). }
  split_and!.
  - intros i j k1 k2 r1 r2 Hij Hi Hj. split; [by eapply Hne|]. intros v1 v2 -> Hv1 Hv2. unfold seqv_is_expired.
    destruct (clock_safe _ _ _ _ _ _ HP i _ Hi) as (T1 & _ & _ & _ & Hf1).
    destruct (clock_safe _ _ _ _ _ _ HP j _ Hj) as (T2 & _ & _ & _ & Hf2).
    pose proof (Hne i j _ _ _ _ Hij Hi Hj) as Hr12. rewrite !N.ltb_lt.
    destruct (N.lt_total r1 r2) as [Hlt|[|Hlt]]; [left; by apply (Hf2 r1)|done|right; by apply (Hf1 r2)].
  - intros i. exact (clock_no_panic _ _ _ _ _ _ i HP).
  - intros holders es Hnd Hall. apply manager_runs; [|done]. apply NoDup_alt. intros a b r Ha Hb.
    destruct (Forall2_lookup_r _ _ _ _ _ Hall Ha) as (i & Hi & k & Hki).
    destruct (Forall2_lookup_r _ _ _ _ _ Hall Hb) as (j & Hj & k' & Hkj).
    destruct (decide (i = j)) as [->|Hij]; [by eapply NoDup_lookup|]. by destruct (Hne i j k k' r r Hij Hki Hkj).
Qed.

(** C23: What the calls do when no other client disturbs them.  [create_lock_revision]
    gives the next revision.  [extend_lock_revision] sets the expiration of a revision
    that has not expired, and the time of its acquisition when asked to; for others it
    is [TableLockExpired].  [delete_lock_revision] removes the revision.
    [try_acquire_lock], with a time to live of at least a second, acquires a lock of
    which no revision has not expired; otherwise, without a retry, it is
    [TableAlreadyLocked].  It panics if twice the time to live
    is more than [u64::MAX] seconds.  A revision expires at the last whole second that
    is not after its time to live: up to a second earlier. *)
Theorem lock_calls_alone `{!ChronoLaws ch, !ProstLaws pb_LockMeta pb_lock_meta_fits}
    now req s should_retry acquire_timeout rounds utc_now last_now :
  let k := clr_lock_key req in
  let ttl := clr_ttl req in
  let next := lock_level (abs s) + 1 in
  let live r v := kvs s !! lock_str k r = Some v ∧ seqv_is_expired v now = false in
  let record acquired_on := {| lm_user := clr_user req; lm_node := clr_node req; lm_query_id := clr_query_id req;
    lm_created_on := utc_now 1%nat; lm_acquired_on := acquired_on; lm_lock_type := TABLE; lm_extra_info := ∅ |} in
  let has s' r (m : LockMeta) := ∃ v, kvs s' !! lock_str k r = Some v ∧ decode_pb (data v) = Some m ∧
    opt_expires_at_ms (meta v) ≤ now + ttl < opt_expires_at_ms (meta v) + 1000 in
  now < u64_mod → lock_ready now s → readable k s → sequence (map_sys (sm_map s)) + 8 < u64_mod → lock_key_ok k →
  (1000 ≤ ttl → now + ttl < u64_mod →
    (∃ s', mem_run now (create_lock_revision utc_now req) s = (s', COk next) ∧ has s' next (record None)) ∧
    (∀ r v m acquire_lock, id_ok r → live r v → decode_pb (data v) = Some m →
      ∃ s', mem_run now (extend_lock_revision last_now {| elr_lock_key := k; elr_ttl := ttl; elr_revision := r;
          elr_acquire_lock := acquire_lock |}) s = (s', COk tt) ∧
        has s' r (if acquire_lock then set_acquired_on (Some last_now) m else m)) ∧
    ((∀ r v, ¬ live r v) →
      ∃ s', mem_run now (try_acquire_lock utc_now req should_retry acquire_timeout [] last_now) s = (s', COk next) ∧
        has s' next (record (Some last_now))) ∧
    (∀ r v, id_ok r → live r v →
      (mem_run now (try_acquire_lock utc_now req false acquire_timeout rounds last_now) s).2 = CErr (EQuery TableAlreadyLocked))) ∧
  (∀ r acquire_lock, id_ok r → (∀ v, ¬ live r v) →
    mem_run now (extend_lock_revision last_now {| elr_lock_key := k; elr_ttl := ttl; elr_revision := r;
      elr_acquire_lock := acquire_lock |}) s = (s, CErr (EApp TableLockExpired))) ∧
  (∀ r, id_ok r → ∃ s', mem_run now (delete_lock_revision {| dlr_lock_key := k; dlr_revision := r |}) s = (s', COk tt) ∧
    kvs s' !! lock_str k r = None) ∧
  (1000 * u64_mod ≤ 2 * ttl →
    mem_run now (try_acquire_lock utc_now req should_retry acquire_timeout rounds last_now) s = (s, CPanic)).
Proof.
  destruct req as [k ttl user node query_id]. intros k' ttl' next live record has Hnow Hready Hread Hroom Hk.
  change k' with k in *. change ttl' with ttl in *. clear k' ttl'.
  assert (∀ r v, live r v ↔ kvs s !! lock_str k r = Some v ∧ now ≤ opt_expires_at_ms (meta v)) as Hlive.
  { intros r v. unfold live, seqv_is_expired. by rewrite N.ltb_ge. }
  pose proof (lock_until_bounds now ttl) as Hu. split_and!.
  - intros Httl Hfit. split_and!.
    + destruct (run_create now Hnow utc_now k ttl user node query_id s) as (s' & v & E & _ & _ & Hv & Hexp & Hd & _); [done|lia|done..|].
      exists s'. split; [exact E|]. exists v. rewrite Hexp. split_and!; [done|done|lia|lia].
    + intros r v m acquire_lock Hr [Hv Hexp]%Hlive Hd.
      destruct (run_extend now Hnow last_now k r ttl acquire_lock v m s) as (s' & v' & E & _ & Hv' & Hexp' & Hd' & _); [done|lia|done..|].
      exists s'. split; [exact E|]. exists v'. rewrite Hexp'. split_and!; [done|done|lia|lia].
    + intros Hfree. destruct (run_acquire_free now Hnow utc_now k ttl user node query_id should_retry acquire_timeout [] last_now s)
        as (s' & v & E & Hv & Hexp & Hd); [done..| |].
      { intros r (v & Hv & Hexp). by apply (Hfree r v), Hlive. }
      exists s'. split; [exact E|]. exists v. rewrite Hexp. split_and!; [done|done|lia|lia].
    + intros r v Hr [Hv Hexp]%Hlive. apply (run_acquire_busy now Hnow utc_now k ttl user node query_id _ _ _ _ r); [done..|by exists v].
  - intros r acquire_lock Hr Hdead. apply run_extend_dead; [done..|]. intros (v & Hv & Hexp). by apply (Hdead v), Hlive.
  - intros r Hr. destruct (run_delete now Hnow k r s) as (s' & E & _ & Hv & _); [done|lia|done..|]. by exists s'.
  - intros Hbig. unfold try_acquire_lock, start, duration_doubles. cbn [clr_ttl].
    destruct (N.ltb_spec (2 * ttl) (1000 * u64_mod)); [lia|done].
Qed.
End locks.

(** ** Examples *)

Module LockEx.
Import LogEx.
#[local] Existing Instances digits_json digits_json_laws text_chrono text_chrono_laws text_lock_meta text_lock_meta_laws.

Definition key : LockKey := LockKey_Table {| tenant := "t" |} 5.
Definition utc (i : nat) : DateTime := "now".
Definition create (ttl : N) : CreateLockRevReq :=
  {| clr_lock_key := key; clr_ttl := ttl; clr_user := "u"; clr_node := "n"; clr_query_id := "q" |}.

Lemma key_is_ok : lock_key_ok key.
Proof. vm_compute. repeat split; discriminate. Qed.
Lemma no_locks t : lock_good (t, abs mem0).
Proof. split; [done|]. by intros x _ [? ?]. Qed.

(** Two sessions acquire the lock: the first one for two seconds, and its task does
    not run; the second one waits, and reads the list again at the time 4000. *)
Definition round1 : Round := {| elapsed := 10; watched := WatchEnded; round_now := "now" : DateTime |}.
Definition calls : list LockCall := [
  CallAcquire utc (create 2000) true 30000 [round1] ("now" : DateTime);
  CallAcquire utc (create 30000) true 30000 [round1; round1] ("now" : DateTime);
  CallTask key 2000 1 [] 0].
Definition order : list (N * nat) :=
  ((λ i, (1000, i)) <$> [0; 1; 0; 0; 0; 0; 1; 1; 1; 1; 1]%nat) ++ ((λ i, (4000, i)) <$> [1; 1; 1; 1; 1]%nat).
Definition pool : N * StateMachine Level * list (Client LockResult) :=
  clock_schedule order (0, mem0, lock_client <$> calls).

Lemma lock_mutual_exclusion_witness :
  pool.2 !! 0%nat = Some (Done (COk (Acquired key 1))) ∧ pool.2 !! 1%nat = Some (Done (COk (Acquired key 2))) ∧
  1 ≠ 2 ∧ pool.2 !! 2%nat ≠ Some (Done CPanic) ∧
  ∃ m, manager_run [MLocked (inl 1); MUnlock 1; MRecv; MLocked (inl 2)] lock_manager_init = Ok m.
Proof.
  assert (pool.2 !! 0%nat = Some (Done (COk (Acquired key 1)))) as H0 by (vm_compute; reflexivity).
  assert (pool.2 !! 1%nat = Some (Done (COk (Acquired key 2)))) as H1 by (vm_compute; reflexivity).
  destruct (lock_mutual_exclusion calls 0 mem0 pool.1.1 pool.1.2 pool.2) as (Hx & Hp & Hm).
  - repeat (apply Forall_cons; split; [split; [exact key_is_ok|reflexivity]|]). by apply Forall_nil.
  - exact mem0_ok.
  - apply no_locks.
  - rewrite <-!surjective_pairing. apply clock_schedule_steps.
  - split; [exact H0|]. split; [exact H1|].
    destruct (Hx 0%nat 1%nat key key 1 2 ltac:(discriminate) H0 H1) as [Hne _]. split; [exact Hne|]. split; [exact (Hp 2%nat)|].
    apply (Hm [0; 1]%nat).
    + apply NoDup_cons. split; [by intros ?%list_elem_of_singleton|apply NoDup_singleton].
    + apply Forall2_cons. split; [by exists key|]. apply Forall2_cons. split; [by exists key|constructor].
Defined.

Lemma lock_calls_alone_witness :
  ∃ s', mem_run 1000 (try_acquire_lock utc (create 2000) true 30000 [] (utc 9)) mem0 = (s', COk 1) ∧
    ∃ v, kvv (sm_map s') !! lock_str key 1 = Some v ∧ opt_expires_at_ms (meta v) ≤ 3000 < opt_expires_at_ms (meta v) + 1000.
Proof.
  destruct (lock_calls_alone 1000 (create 2000) mem0 true 30000 [] utc (utc 9)) as [H _].
  - reflexivity.
  - split; [exact mem0_ok|apply no_locks|]. vm_compute. discriminate.
  - by intros r v.
  - reflexivity.
  - exact key_is_ok.
  - destruct H as (_ & _ & H & _); [discriminate|reflexivity|].
    destruct H as (s' & E & v & Hv & _ & Hexp); [by intros r v [? _]|]. exists s'. split; [exact E|]. exists v. by split.
Defined.
End LockEx.
