(* ===== verification/Grants.v ===== *)
(** Privileges (app/src/principal: user_privilege.rs, user_grant.rs): the types of
    privileges and their sets, the objects they are granted on, and the grants of a
    user or a role. *)

From stdpp Require Import base countable strings gmap numbers list.
From S2P Require Import Prelude RustStr MetaTypes AppKeys.
Local Open Scope N_scope.

(** ** Libraries *)

(** [enumflags2]: sets of the values of an enum [T], whose discriminants are
    [disc].  [flags_has] is [contains] of one value; [flags_collect] is
    [FromIterator]. *)
Class EnumFlags (T : Type) (disc : T → N) := {
  BitFlags : Type;
  flags_eq_dec :: EqDecision BitFlags;
  flags_empty : BitFlags;
  flags_of : T → BitFlags;
  flags_or : BitFlags → BitFlags → BitFlags;
  flags_contains : BitFlags → BitFlags → bool;
  flags_iter : BitFlags → list T;
  flags_collect : list T → BitFlags;
  flags_bits : BitFlags → N;
  flags_from_bits_truncate : N → BitFlags;
}.
Definition flags_has {T disc} `{!EnumFlags T disc} (a : BitFlags) (p : T) : bool := flags_contains a (flags_of p).

(** What its documentation says: the sets with their bits. *)
Class EnumFlagsLaws (T : Type) (disc : T → N) `{!EnumFlags T disc} : Prop := {
  flags_ext (a b : BitFlags) : (∀ p, flags_has a p = flags_has b p) → a = b;
  flags_contains_spec (a b : BitFlags) :
    flags_contains a b = true ↔ ∀ p, flags_has b p = true → flags_has a p = true;
  has_empty p : flags_has flags_empty p = false;
  has_of p q : flags_has (flags_of p) q = true ↔ p = q;
  has_or a b p : flags_has (flags_or a b) p = flags_has a p || flags_has b p;
  flags_iter_spec a p : p ∈ flags_iter a ↔ flags_has a p = true;
  has_collect l p : flags_has (flags_collect l) p = true ↔ p ∈ l;
  bits_has a p : flags_has a p = true ↔ N.land (flags_bits a) (disc p) = disc p;
  bits_fits a : flags_bits a < u64_mod;
  bits_roundtrip a : flags_from_bits_truncate (flags_bits a) = a;
}.

(** The order in which a hash set is iterated is unspecified. *)
Class HashOrder := { hash_iter : gset string → list string }.
Class HashOrderLaws (h : HashOrder) : Prop := { hash_iter_elements : ∀ X, hash_iter X ≡ₚ elements X }.

(** ** Privileges (user_privilege.rs) *)

Inductive UserPrivilegeType :=
| Priv_Usage | Priv_Select | Priv_Insert | Priv_Update | Priv_Delete | Priv_Create | Priv_Drop | Priv_Alter
| Priv_Super | Priv_CreateUser | Priv_CreateRole | Priv_Grant | Priv_CreateStage | Priv_DropRole | Priv_DropUser
| Priv_CreateDataMask | Priv_Ownership | Priv_Read | Priv_Write | Priv_CreateDatabase | Priv_CreateWarehouse
| Priv_Set.

#[export] Instance UserPrivilegeType_eq_dec : EqDecision UserPrivilegeType.
Proof. solve_decision. Defined.

(** The discriminants, [1 << shift]. *)
Definition privilege_shift (p : UserPrivilegeType) : N :=
  match p with
  | Priv_Usage => 0 | Priv_Select => 2 | Priv_Insert => 3 | Priv_Update => 5 | Priv_Delete => 6
  | Priv_Create => 1 | Priv_Drop => 7 | Priv_Alter => 8 | Priv_Super => 9 | Priv_CreateUser => 10
  | Priv_CreateRole => 11 | Priv_Grant => 12 | Priv_CreateStage => 13 | Priv_DropRole => 14
  | Priv_DropUser => 15 | Priv_CreateDataMask => 16 | Priv_Ownership => 17 | Priv_Read => 18
  | Priv_Write => 19 | Priv_CreateDatabase => 20 | Priv_CreateWarehouse => 21 | Priv_Set => 4
  end.
Definition privilege_value (p : UserPrivilegeType) : N := N.shiftl 1 (privilege_shift p).

Abbreviation PrivilegeFlags := (EnumFlags UserPrivilegeType privilege_value).

(** ** Objects (user_grant.rs) *)

Inductive GrantObject :=
| Grant_Global
| Grant_Database (cat db : string)
| Grant_DatabaseById (cat : string) (db : N)
| Grant_Table (cat db table : string)
| Grant_TableById (cat : string) (db table : N)
| Grant_UDF (udf : string)
| Grant_Stage (stage : string)
| Grant_Warehouse (w : string).

#[export] Instance GrantObject_eq_dec : EqDecision GrantObject.
Proof. solve_decision. Defined.

(** [GrantObject::contains]. *)
Definition object_contains (self object : GrantObject) : bool :=
  match self, object with
  | Grant_Global, _ => true
  | Grant_Database _ _, Grant_Global => false
  | Grant_Database lcat ldb, Grant_Database rcat rdb => bool_decide (lcat = rcat) && bool_decide (ldb = rdb)
  | Grant_DatabaseById lcat ldb, Grant_DatabaseById rcat rdb => bool_decide (lcat = rcat) && (ldb =? rdb)
  | Grant_DatabaseById lcat ldb, Grant_TableById rcat rdb _ => bool_decide (lcat = rcat) && (ldb =? rdb)
  | Grant_Database lcat ldb, Grant_Table rcat rdb _ => bool_decide (lcat = rcat) && bool_decide (ldb = rdb)
  | Grant_Table lcat lhs_db lhs_table, Grant_Table rcat rhs_db rhs_table =>
      bool_decide (lcat = rcat) && bool_decide (lhs_db = rhs_db) && bool_decide (lhs_table = rhs_table)
  | Grant_TableById lcat lhs_db lhs_table, Grant_TableById rcat rhs_db rhs_table =>
      bool_decide (lcat = rcat) && (lhs_db =? rhs_db) && (lhs_table =? rhs_table)
  | Grant_Table _ _ _, _ => false
  | Grant_Stage lstage, Grant_Stage rstage => bool_decide (lstage = rstage)
  | Grant_UDF udf, Grant_UDF rudf => bool_decide (udf = rudf)
  | Grant_Warehouse w, Grant_Warehouse rw => bool_decide (w = rw)
  | _, _ => false
  end.

Definition object_catalog (o : GrantObject) : option string :=
  match o with
  | Grant_Global | Grant_Stage _ | Grant_UDF _ | Grant_Warehouse _ => None
  | Grant_Database cat _ | Grant_DatabaseById cat _ => Some cat
  | Grant_Table cat _ _ | Grant_TableById cat _ _ => Some cat
  end.

(** [convert_to_grant_obj] (role_mgr.rs). *)
Definition convert_to_grant_obj (owner_obj : OwnershipObject) : GrantObject :=
  match owner_obj with
  | OwnDatabase catalog_name db_id => Grant_DatabaseById catalog_name db_id
  | OwnTable catalog_name db_id table_id => Grant_TableById catalog_name db_id table_id
  | OwnStage name => Grant_Stage name
  | OwnUDF name => Grant_UDF name
  | OwnWarehouse id => Grant_Warehouse id
  end.

Section grants.
Context {fl : PrivilegeFlags} {ho : HashOrder}.

(** A [UserPrivilegeSet] is its flags. *)
Abbreviation UserPrivilegeSet := BitFlags.

(** [make_bitflags!]. *)
Definition make_bitflags (l : list UserPrivilegeType) : BitFlags := foldr (λ p a, flags_or (flags_of p) a) flags_empty l.

Definition ALL_PRIVILEGES : BitFlags := make_bitflags
  [Priv_Create; Priv_Select; Priv_Insert; Priv_Update; Priv_Delete; Priv_Drop; Priv_Alter; Priv_Super;
   Priv_CreateUser; Priv_DropUser; Priv_CreateRole; Priv_DropRole; Priv_Grant; Priv_CreateStage; Priv_Set;
   Priv_CreateDataMask; Priv_Ownership; Priv_Read; Priv_Write; Priv_CreateDatabase; Priv_CreateWarehouse].

Definition available_privileges_on_table (available_ownership : bool) : UserPrivilegeSet :=
  let tab_privs := make_bitflags
    [Priv_Create; Priv_Update; Priv_Select; Priv_Insert; Priv_Delete; Priv_Drop; Priv_Alter; Priv_Grant] in
  if available_ownership then flags_or tab_privs (make_bitflags [Priv_Ownership]) else tab_privs.
Definition available_privileges_on_database (available_ownership : bool) : UserPrivilegeSet :=
  available_privileges_on_table available_ownership.
Definition available_privileges_on_stage (available_ownership : bool) : UserPrivilegeSet :=
  if available_ownership then make_bitflags [Priv_Read; Priv_Write; Priv_Ownership]
  else make_bitflags [Priv_Read; Priv_Write].
Definition available_privileges_on_warehouse (available_ownership : bool) : UserPrivilegeSet :=
  if available_ownership then make_bitflags [Priv_Usage; Priv_Ownership] else make_bitflags [Priv_Usage].
Definition available_privileges_on_udf (available_ownership : bool) : UserPrivilegeSet :=
  if available_ownership then make_bitflags [Priv_Usage; Priv_Ownership] else make_bitflags [Priv_Usage].
Definition available_privileges_on_global : UserPrivilegeSet :=
  let database_privs := available_privileges_on_database false in
  let stage_privs_without_ownership := available_privileges_on_stage false in
  let udf_privs_without_ownership := available_privileges_on_udf false in
  let wh_privs_without_ownership := available_privileges_on_warehouse false in
  let privs := make_bitflags
    [Priv_Usage; Priv_Super; Priv_CreateUser; Priv_DropUser; Priv_CreateRole; Priv_DropRole; Priv_CreateDatabase;
     Priv_Grant; Priv_CreateDataMask; Priv_CreateWarehouse] in
  flags_or (flags_or (flags_or (flags_or database_privs privs) stage_privs_without_ownership)
    wh_privs_without_ownership) udf_privs_without_ownership.

(** [GrantObject::available_privileges]. *)
Definition available_privileges (o : GrantObject) (available_ownership : bool) : UserPrivilegeSet :=
  match o with
  | Grant_Global => available_privileges_on_global
  | Grant_Database _ _ | Grant_DatabaseById _ _ => available_privileges_on_database available_ownership
  | Grant_Table _ _ _ | Grant_TableById _ _ _ => available_privileges_on_table available_ownership
  | Grant_UDF _ => available_privileges_on_udf available_ownership
  | Grant_Stage _ => available_privileges_on_stage available_ownership
  | Grant_Warehouse _ => available_privileges_on_warehouse available_ownership
  end.

(** ** Entries *)

Record GrantEntry := { ge_object : GrantObject; ge_privileges : BitFlags }.

#[export] Instance GrantEntry_eq_dec : EqDecision GrantEntry.
Proof.
  intros [o a] [o' a']. refine (cast_if_and (decide (o = o')) (decide (a = a'))); congruence.
Defined.

Definition entry_verify_privilege (e : GrantEntry) (object : GrantObject) (privilege : UserPrivilegeType) : bool :=
  if negb (object_contains (ge_object e) object) then false
  else flags_contains (ge_privileges e) (flags_of privilege).
Definition matches_entry (e : GrantEntry) (object : GrantObject) : bool := bool_decide (ge_object e = object).
Definition has_all_available_privileges (e : GrantEntry) : bool :=
  flags_contains (ge_privileges e) (available_privileges (ge_object e) false).

(** ** Sets of grants *)

Record UserGrantSet := { gs_entries : list GrantEntry; gs_roles : gset string }.
Definition grant_set_empty : UserGrantSet := {| gs_entries := []; gs_roles := ∅ |}.

(** [roles]: the set as a vector. *)
Definition roles (s : UserGrantSet) : list string := hash_iter (gs_roles s).

Definition grant_role (role : string) (s : UserGrantSet) : UserGrantSet :=
  {| gs_entries := gs_entries s; gs_roles := {[role]} ∪ gs_roles s |}.
Definition revoke_role (role : string) (s : UserGrantSet) : UserGrantSet :=
  {| gs_entries := gs_entries s; gs_roles := gs_roles s ∖ {[role]} |}.

Definition verify_privilege (s : UserGrantSet) (object : GrantObject) (privilege : UserPrivilegeType) : bool :=
  existsb (λ e, entry_verify_privilege e object privilege) (gs_entries s).

(** The loop over the entries, and whether one changed. *)
Fixpoint grant_entries (object : GrantObject) (privileges : BitFlags) (entries : list GrantEntry)
    (new_entries : list GrantEntry) (changed : bool) : list GrantEntry * bool :=
  match entries with
  | [] => (new_entries, changed)
  | entry :: entries =>
      if matches_entry entry object then
        let entry := {| ge_object := ge_object entry; ge_privileges := flags_or (ge_privileges entry) privileges |} in
        grant_entries object privileges entries (new_entries ++ [entry]) true
      else grant_entries object privileges entries (new_entries ++ [entry]) changed
  end.
Definition grant_privileges (object : GrantObject) (privileges : UserPrivilegeSet) (s : UserGrantSet) : UserGrantSet :=
  let '(new_entries, changed) := grant_entries object privileges (gs_entries s) [] false in
  let new_entries := if (changed : bool) then new_entries
    else new_entries ++ [{| ge_object := object; ge_privileges := privileges |}] in
  {| gs_entries := new_entries; gs_roles := gs_roles s |}.

Definition revoke_entry (object : GrantObject) (privileges : BitFlags) (e : GrantEntry) : GrantEntry :=
  if matches_entry e object then
    {| ge_object := ge_object e;
       ge_privileges := flags_collect (filter (λ p, flags_has privileges p = false) (flags_iter (ge_privileges e))) |}
  else e.
Definition revoke_privileges (object : GrantObject) (privileges : UserPrivilegeSet) (s : UserGrantSet) : UserGrantSet :=
  {| gs_entries := filter (λ e, ge_privileges e ≠ flags_empty) (revoke_entry object privileges <$> gs_entries s);
     gs_roles := gs_roles s |}.

(** [BitOrAssign]. *)
Definition grant_set_or (s other : UserGrantSet) : UserGrantSet :=
  let s := foldl (λ s entry, grant_privileges (ge_object entry) (ge_privileges entry) s) s (gs_entries other) in
  foldl (λ s role, grant_role role s) s (roles other).
End grants.
