(* ===== verification/GrantProofs.v ===== *)
(** Privileges: what a set of grants gives, and how granting, revoking and merging
    change it. *)

From stdpp Require Import base countable strings gmap numbers list.
From S2P Require Import Prelude RustStr MetaTypes AppKeys Grants.
Local Open Scope N_scope.

(** ** Objects *)

Ltac contains_cases :=
  repeat match goal with
  | H : context [bool_decide _] |- _ => rewrite bool_decide_spec in H
  | H : is_true (_ && _) |- _ => apply andb_prop in H as [??]
  | H : Is_true (_ && _) |- _ => apply andb_prop_elim in H as [??]
  | H : Is_true (bool_decide _) |- _ => apply bool_decide_spec in H
  | H : Is_true (_ =? _) |- _ => apply Is_true_true, N.eqb_eq in H
  end.

Definition contains (o o' : GrantObject) : Prop := object_contains o o'.

#[export] Instance contains_partial_order : PartialOrder contains.
Proof.
  split; [split|].
  - intros []; unfold contains; cbn; rewrite ?bool_decide_true, ?N.eqb_refl by done; done.
  - intros [] [] []; unfold contains; cbn; intros; try done; contains_cases; subst;
      rewrite ?bool_decide_true, ?N.eqb_refl by done; done.
  - intros [] []; unfold contains; cbn; intros; try done; contains_cases; by subst.
Qed.

Section grants.
Context {fl : PrivilegeFlags} `{!EnumFlagsLaws UserPrivilegeType privilege_value} {ho : HashOrder} `{!HashOrderLaws ho}.
Implicit Types (s : UserGrantSet) (e : GrantEntry) (o : GrantObject) (p : UserPrivilegeType) (a b : BitFlags).

Lemma has_make l p : flags_has (make_bitflags l) p = true ↔ p ∈ l.
Proof.
  induction l as [|q l IH]; cbn; [by rewrite has_empty, elem_of_nil|].
  rewrite has_or, orb_true_iff, has_of, elem_of_cons, IH. naive_solver.
Qed.

Lemma has_filter a b p :
  flags_has (flags_collect (filter (λ p, flags_has b p = false) (flags_iter a))) p = true ↔
  flags_has a p = true ∧ flags_has b p = false.
Proof. rewrite has_collect, list_elem_of_filter, flags_iter_spec. tauto. Qed.

(** ** What is granted *)

(** The privilege is granted on the object itself. *)
Definition granted s o p : Prop := ∃ e, e ∈ gs_entries s ∧ ge_object e = o ∧ flags_has (ge_privileges e) p = true.

(** Every object has one entry. *)
Definition grants_ok s : Prop := NoDup (ge_object <$> gs_entries s).

Lemma verify_spec s o p : verify_privilege s o p = true ↔ ∃ o', contains o' o ∧ granted s o' p.
Proof.
  unfold verify_privilege. rewrite existsb_exists. setoid_rewrite <-list_elem_of_In. split.
  - intros (e & He & Hv). exists (ge_object e). unfold entry_verify_privilege in Hv.
    destruct (object_contains (ge_object e) o) eqn:E; [|done]. split; [by apply Is_true_true|]. by exists e.
  - intros (o' & Hc & e & He & <- & Hp). exists e. split; [done|]. unfold entry_verify_privilege.
    unfold contains in Hc. apply Is_true_true in Hc. by rewrite Hc.
Qed.

(** *** Granting *)

Definition granted_entry o a e : GrantEntry :=
  if matches_entry e o then {| ge_object := ge_object e; ge_privileges := flags_or (ge_privileges e) a |} else e.

Lemma grant_entries_eq o a l acc ch :
  grant_entries o a l acc ch = (acc ++ (granted_entry o a <$> l), ch || existsb (λ e, matches_entry e o) l).
Proof.
  revert acc ch. induction l as [|e l IH]; intros acc ch; cbn; [by rewrite app_nil_r, orb_false_r|].
  unfold granted_entry at 1. destruct (matches_entry e o); rewrite IH, <-app_assoc; cbn; by rewrite ?orb_true_r.
Qed.

Lemma matches_object e o : matches_entry e o = true ↔ ge_object e = o.
Proof. unfold matches_entry. by rewrite bool_decide_eq_true. Qed.
Lemma granted_entry_object o a e : ge_object (granted_entry o a e) = ge_object e.
Proof. unfold granted_entry. by destruct (matches_entry e o). Qed.

Lemma no_match (l : list GrantEntry) o : existsb (λ e, matches_entry e o) l = false ↔ o ∉ ge_object <$> l.
Proof.
  induction l as [|e l IH]; cbn; [split; [intros _; apply not_elem_of_nil|done]|].
  rewrite orb_false_iff, IH, not_elem_of_cons. unfold matches_entry. rewrite bool_decide_eq_false. naive_solver.
Qed.

Lemma granted_entry_map o a (l : list GrantEntry) o' p :
  (∃ e, e ∈ granted_entry o a <$> l ∧ ge_object e = o' ∧ flags_has (ge_privileges e) p = true) ↔
  (∃ e, e ∈ l ∧ ge_object e = o' ∧ flags_has (ge_privileges e) p = true) ∨
  (o ∈ ge_object <$> l ∧ o' = o ∧ flags_has a p = true).
Proof.
  setoid_rewrite list_elem_of_fmap. split.
  - intros (e & (e' & -> & He') & Ho & Hp). rewrite granted_entry_object in Ho. unfold granted_entry in Hp.
    destruct (matches_entry e' o) eqn:E; [|left; by exists e'].
    apply matches_object in E. cbn in Hp. rewrite has_or, orb_true_iff in Hp. destruct Hp as [Hp|Hp]; [left; by exists e'|].
    right. split; [by exists e'|]. by subst.
  - intros [(e & He & Ho & Hp)|((e & He & Hin) & -> & Hp)]; exists (granted_entry o a e);
      rewrite granted_entry_object; (split; [by exists e|]).
    + split; [done|]. unfold granted_entry. destruct (matches_entry e o); [|done]. cbn. by rewrite has_or, Hp.
    + split; [done|]. unfold granted_entry. rewrite (proj2 (matches_object e o)) by done. cbn. by rewrite has_or, Hp, orb_true_r.
Qed.

Lemma granted_grant o a s o' p :
  granted (grant_privileges o a s) o' p ↔ granted s o' p ∨ (o' = o ∧ flags_has a p = true).
Proof.
  unfold granted, grant_privileges. rewrite grant_entries_eq. cbn [orb app].
  destruct (existsb _ _) eqn:E; cbn [gs_entries].
  - rewrite granted_entry_map. assert (o ∈ ge_object <$> gs_entries s); [|tauto].
    destruct (decide (o ∈ ge_object <$> gs_entries s)) as [|Hn]; [done|]. apply no_match in Hn. congruence.
  - apply no_match in E. setoid_rewrite elem_of_app. setoid_rewrite list_elem_of_singleton.
    pose proof (granted_entry_map o a (gs_entries s) o' p) as Hmap. split.
    + intros (e & [He| ->] & Ho & Hp); [|right; by subst]. left. destruct Hmap as [[?|[? _]] _]; [by exists e|done|done].
    + intros [H|[-> Hp]]; [|by eexists; split; [right|]].
      destruct Hmap as [_ (e & He & H')]; [by left|]. exists e. by split; [left|].
Qed.

Lemma grants_ok_grant o a s : grants_ok s → grants_ok (grant_privileges o a s).
Proof.
  unfold grants_ok, grant_privileges. rewrite grant_entries_eq. cbn [orb app].
  assert (ge_object <$> (granted_entry o a <$> gs_entries s) = ge_object <$> gs_entries s) as Hobj.
  { rewrite <-list_fmap_compose. apply list_fmap_ext. intros ? e _. apply granted_entry_object. }
  destruct (existsb _ _) eqn:E; cbn [gs_entries]; [by rewrite Hobj|]. apply no_match in E. intros Hs.
  rewrite fmap_app, Hobj. apply NoDup_app. split; [done|]. split; [|apply NoDup_singleton].
  intros o' Ho' Hin. cbn in Hin. apply list_elem_of_singleton in Hin as ->. done.
Qed.

(** *** Revoking *)

Lemma NoDup_fmap_filter {X Y} (f : X → Y) (P : X → Prop) `{!∀ x, Decision (P x)} (l : list X) :
  NoDup (f <$> l) → NoDup (f <$> filter P l).
Proof.
  induction l as [|x l IH]; [done|]. rewrite filter_cons. cbn. intros [Hx Hl]%NoDup_cons. destruct (decide (P x)); [|by apply IH].
  cbn. apply NoDup_cons. split; [|by apply IH]. intros (y & Hy & Hin)%list_elem_of_fmap. apply Hx.
  apply list_elem_of_fmap. exists y. split; [done|]. by apply list_elem_of_filter in Hin as [_ ?].
Qed.

Lemma revoke_entry_object o a e : ge_object (revoke_entry o a e) = ge_object e.
Proof. unfold revoke_entry. by destruct (matches_entry e o). Qed.

Lemma granted_revoke o a s o' p :
  granted (revoke_privileges o a s) o' p ↔ granted s o' p ∧ ¬ (o' = o ∧ flags_has a p = true).
Proof.
  unfold granted, revoke_privileges. cbn [gs_entries]. setoid_rewrite list_elem_of_filter.
  setoid_rewrite list_elem_of_fmap. split.
  - intros (e & [_ (e' & -> & He')] & Ho & Hp). rewrite revoke_entry_object in Ho. unfold revoke_entry in Hp.
    destruct (matches_entry e' o) eqn:E.
    + apply has_filter in Hp as [Hp Hn]. split; [by exists e'|]. intros [_ Ha]. congruence.
    + split; [by exists e'|]. intros [-> _]. apply matches_object in Ho. congruence.
  - intros [(e & He & Ho & Hp) Hn]. assert (flags_has (ge_privileges (revoke_entry o a e)) p = true) as Hp'.
    { unfold revoke_entry. destruct (matches_entry e o) eqn:E; [|done]. apply matches_object in E. cbn.
      apply has_filter. split; [done|]. destruct (flags_has a p) eqn:Ea; [|done]. exfalso. apply Hn. split; [congruence|done]. }
    exists (revoke_entry o a e). split; [split; [|by exists e]|by rewrite revoke_entry_object].
    intros H. rewrite H, has_empty in Hp'. done.
Qed.

Lemma grants_ok_revoke o a s : grants_ok s → grants_ok (revoke_privileges o a s).
Proof.
  unfold grants_ok, revoke_privileges. cbn [gs_entries]. intros Hs.
  assert (ge_object <$> (revoke_entry o a <$> gs_entries s) = ge_object <$> gs_entries s) as Hobj.
  { rewrite <-list_fmap_compose. apply list_fmap_ext. intros ? e _. apply revoke_entry_object. }
  rewrite <-Hobj in Hs. by apply NoDup_fmap_filter.
Qed.

(** *** Merging *)

Lemma or_entries (l : list GrantEntry) s :
  let s' := foldl (λ s e, grant_privileges (ge_object e) (ge_privileges e) s) s l in
  gs_roles s' = gs_roles s ∧ (grants_ok s → grants_ok s') ∧
  ∀ o p, granted s' o p ↔ granted s o p ∨ ∃ e, e ∈ l ∧ ge_object e = o ∧ flags_has (ge_privileges e) p = true.
Proof.
  revert s. induction l as [|e l IH]; intros s; cbn [foldl].
  - split_and!; [done|done|]. intros o p. set_solver.
  - destruct (IH (grant_privileges (ge_object e) (ge_privileges e) s)) as (Hr & Hok & Hg). cbv zeta in *. split_and!.
    + rewrite Hr. unfold grant_privileges. by destruct (grant_entries _ _ _ _ _).
    + intros Hs. by apply Hok, grants_ok_grant.
    + intros o p. rewrite Hg, granted_grant. setoid_rewrite elem_of_cons. naive_solver.
Qed.

Lemma or_roles (l : list string) s :
  let s' := foldl (λ s r, grant_role r s) s l in
  gs_entries s' = gs_entries s ∧ gs_roles s' = gs_roles s ∪ list_to_set l.
Proof.
  revert s. induction l as [|r l IH]; intros s; cbn [foldl list_to_set]; [split; [done|set_solver]|].
  destruct (IH (grant_role r s)) as [He Hr]. cbv zeta in *. rewrite He, Hr. cbn [grant_role gs_roles gs_entries].
  split; [done|set_solver].
Qed.

Lemma elem_of_roles s r : r ∈ roles s ↔ r ∈ gs_roles s.
Proof. unfold roles. by rewrite hash_iter_elements, elem_of_elements. Qed.

Lemma or_spec s s' :
  gs_roles (grant_set_or s s') = gs_roles s ∪ gs_roles s' ∧ (grants_ok s → grants_ok (grant_set_or s s')) ∧
  ∀ o p, granted (grant_set_or s s') o p ↔ granted s o p ∨ granted s' o p.
Proof.
  destruct (or_entries (gs_entries s') s) as (Hr & Hok & Hg). unfold grant_set_or.
  destruct (or_roles (roles s') (foldl (λ s e, grant_privileges (ge_object e) (ge_privileges e) s) s (gs_entries s')))
    as [He Hr']. cbv zeta in *. split_and!.
  - rewrite Hr', Hr. f_equal. apply set_eq. intros r. by rewrite elem_of_list_to_set, elem_of_roles.
  - intros Hs. unfold grants_ok. rewrite He. by apply Hok.
  - intros o p. rewrite <-Hg. unfold granted. by rewrite He.
Qed.

(** ** Available privileges *)

(** A larger object has the privileges of the smaller ones. *)
Lemma available_mono o o' p :
  contains o o' → flags_has (available_privileges o' false) p = true → flags_has (available_privileges o false) p = true.
Proof.
  unfold contains. destruct o, o'; cbn; intros Hc; try done; intros Hp; try exact Hp;
    unfold available_privileges_on_global; rewrite !has_or, !orb_true_iff; tauto.
Qed.
End grants.

(** ** Concrete libraries, for examples

    A set of flags is a number of 64 bits with the bits of the discriminants. *)

Module BitSet.
Definition all : list UserPrivilegeType :=
  [Priv_Usage; Priv_Select; Priv_Insert; Priv_Update; Priv_Delete; Priv_Create; Priv_Drop; Priv_Alter; Priv_Super;
   Priv_CreateUser; Priv_CreateRole; Priv_Grant; Priv_CreateStage; Priv_DropRole; Priv_DropUser; Priv_CreateDataMask;
   Priv_Ownership; Priv_Read; Priv_Write; Priv_CreateDatabase; Priv_CreateWarehouse; Priv_Set].
Definition mask : N := foldr (λ p, N.lor (privilege_value p)) 0 all.
Definition valid (n : N) : Prop := N.land n mask = n.
#[export] Instance valid_dec n : Decision (valid n).
Proof. unfold valid. apply _. Defined.

Definition trunc (n : N) : dsig valid := dexist (N.land n mask) (eq_trans (eq_sym (N.land_assoc n mask mask)) (f_equal (N.land n) (N.land_diag mask))).

Lemma testbit_value p i : N.testbit (privilege_value p) i = bool_decide (i = privilege_shift p).
Proof.
  unfold privilege_value. rewrite N.shiftl_1_l, N.pow2_bits_eqb. apply eq_bool_prop_intro.
  rewrite bool_decide_spec, Is_true_true, N.eqb_eq. naive_solver.
Qed.
Lemma all_spec p : p ∈ all.
Proof. apply (bool_decide_unpack _). by destruct p. Qed.
Lemma mask_bit i : N.testbit mask i = true ↔ ∃ p, privilege_shift p = i.
Proof.
  transitivity (∃ p, p ∈ all ∧ privilege_shift p = i); [|pose proof all_spec; naive_solver].
  unfold mask. generalize all as l. induction l as [|p l IH]; cbn [foldr].
  - rewrite N.bits_0. split; [done|]. by intros (? & ?%elem_of_nil & _).
  - rewrite N.lor_spec, orb_true_iff, testbit_value, bool_decide_eq_true, IH. setoid_rewrite elem_of_cons. naive_solver.
Qed.
Lemma shift_inj p q : privilege_shift p = privilege_shift q → p = q.
Proof. by destruct p, q. Qed.

Definition bit (a : dsig valid) p : bool := N.testbit (`a) (privilege_shift p).

Lemma bit_ext a b : (∀ p, bit a p = bit b p) → a = b.
Proof.
  intros H. apply dsig_eq. apply N.bits_inj. intros i.
  pose proof (proj2_dsig a) as Ha. pose proof (proj2_dsig b) as Hb. rewrite <-Ha, <-Hb, !N.land_spec.
  destruct (N.testbit mask i) eqn:Ei; [|by rewrite !andb_false_r]. apply mask_bit in Ei as [p <-]. pose proof (H p) as Hp. unfold bit in Hp. by rewrite Hp.
Qed.
Lemma bit_trunc n p : bit (trunc n) p = N.testbit n (privilege_shift p).
Proof. unfold bit, trunc. cbn. rewrite N.land_spec, (proj2 (mask_bit _)), andb_true_r; [done|by exists p]. Qed.

#[export] Instance flags : PrivilegeFlags := {|
  BitFlags := dsig valid;
  flags_empty := trunc 0;
  flags_of p := trunc (privilege_value p);
  flags_or a b := trunc (N.lor (`a) (`b));
  flags_contains a b := N.land (`a) (`b) =? `b;
  flags_iter a := filter (λ p, bit a p = true) all;
  flags_collect l := trunc (foldr (λ p, N.lor (privilege_value p)) 0 l);
  flags_bits a := `a;
  flags_from_bits_truncate := trunc;
|}.

Lemma land_sub n m : N.land n m = m ↔ ∀ i, N.testbit m i = true → N.testbit n i = true.
Proof.
  split.
  - intros <- i. rewrite N.land_spec. by intros [? _]%andb_prop.
  - intros H. apply N.bits_inj. intros i. rewrite N.land_spec. destruct (N.testbit m i) eqn:E; [|apply andb_false_r].
    by rewrite H.
Qed.
Lemma has_bit a p : flags_has a p = bit a p.
Proof.
  apply eq_bool_prop_intro. rewrite !Is_true_true. unfold flags_has. cbn. rewrite N.eqb_eq, land_sub.
  setoid_rewrite N.land_spec. setoid_rewrite testbit_value. split.
  - intros H. apply H. rewrite bool_decide_true by done. apply (proj2 (mask_bit _)). by exists p.
  - intros H i [->%bool_decide_eq_true _]%andb_prop. exact H.
Qed.
Lemma contains_bits a b : flags_contains a b = true ↔ ∀ p, bit b p = true → bit a p = true.
Proof.
  cbn. rewrite N.eqb_eq, land_sub. split; [intros H p; apply H|]. intros H i Hi.
  assert (N.testbit mask i = true) as [p <-]%mask_bit; [|by apply H].
  pose proof (proj2_dsig b) as Hb. rewrite <-Hb, N.land_spec in Hi. by apply andb_prop in Hi as [_ ?].
Qed.

Lemma collect_bit l p : N.testbit (foldr (λ p, N.lor (privilege_value p)) 0 l) (privilege_shift p) = true ↔ p ∈ l.
Proof.
  induction l as [|q l IH]; cbn [foldr].
  - rewrite N.bits_0. split; [done|]. by intros ?%elem_of_nil.
  - rewrite N.lor_spec, orb_true_iff, testbit_value, bool_decide_eq_true, IH, elem_of_cons.
    pose proof (shift_inj p q). naive_solver.
Qed.

#[export] Instance flags_laws : EnumFlagsLaws UserPrivilegeType privilege_value.
Proof.
  split; try setoid_rewrite has_bit.
  - apply bit_ext.
  - apply contains_bits.
  - intros p. apply (bit_trunc 0).
  - intros p q. cbn [flags_of flags]. rewrite bit_trunc, testbit_value, bool_decide_eq_true. pose proof (shift_inj q p). naive_solver.
  - intros a b p. cbn [flags_or flags]. by rewrite bit_trunc, N.lor_spec.
  - intros a p. cbn [flags_iter flags]. rewrite list_elem_of_filter. pose proof (all_spec p). tauto.
  - intros l p. cbn [flags_collect flags]. rewrite bit_trunc. apply collect_bit.
  - intros a p. cbn [flags_bits flags]. rewrite land_sub. setoid_rewrite testbit_value. split.
    + by intros H i ->%bool_decide_eq_true.
    + intros H. apply H. by apply bool_decide_eq_true.
  - intros a. cbn [flags_bits flags]. pose proof (proj2_dsig a) as Ha. rewrite <-Ha.
    apply N.le_lt_trans with mask; [apply N.ldiff_le|done]. apply N.bits_inj. intros i.
    rewrite N.ldiff_spec, N.land_spec, N.bits_0. by destruct (N.testbit mask i), (N.testbit _ i).
  - intros a. apply dsig_eq. exact (proj2_dsig a).
Qed.
End BitSet.

Definition elements_order : HashOrder := {| hash_iter := elements |}.
Lemma elements_order_laws : HashOrderLaws elements_order.
Proof. by split. Qed.
