(* ===== verification/RoleTypes.v ===== *)
(** Roles and owners (app/src/principal: role_info.rs, ownership_info.rs): the
    records, and their conversion to messages (proto-conv/src). *)

From stdpp Require Import base countable strings gmap numbers list.
From S2P Require Import Prelude RustStr MetaTypes KeyCodec KeyCodecProofs AppKeys ProtoConv DatabaseTypes Grants GrantProofs.
Local Open Scope N_scope.

(** [DateTime::<Utc>::default]. *)
Class ChronoDefault (ch : Chrono) := { datetime_default : DateTime }.

(** ** Data *)

Section data.
Context {ch : Chrono} {fl : PrivilegeFlags}.

Record RoleInfo := {
  ri_name : string; ri_grants : UserGrantSet; ri_created_on : DateTime; ri_update_on : DateTime;
}.
(** [now] is the time of [Utc::now]. *)
Definition role_info_new (now : DateTime) (name : string) : RoleInfo :=
  {| ri_name := name; ri_grants := grant_set_empty; ri_created_on := now; ri_update_on := now |}.
Definition identity (r : RoleInfo) : string := ri_name r.
Definition update_role_time (now : DateTime) (r : RoleInfo) : RoleInfo :=
  {| ri_name := ri_name r; ri_grants := ri_grants r; ri_created_on := ri_created_on r; ri_update_on := now |}.
Definition map_grants (f : UserGrantSet → UserGrantSet) (r : RoleInfo) : RoleInfo :=
  {| ri_name := ri_name r; ri_grants := f (ri_grants r); ri_created_on := ri_created_on r; ri_update_on := ri_update_on r |}.
End data.

#[export] Instance OwnershipObject_eq_dec : EqDecision OwnershipObject.
Proof. solve_decision. Defined.
#[export, refine] Instance OwnershipObject_countable : Countable OwnershipObject :=
  inj_countable' (λ o, match o with
      | OwnDatabase c d => (0, c, [d]) | OwnTable c d t => (1, c, [d; t]) | OwnUDF u => (2, u, [])
      | OwnStage u => (3, u, []) | OwnWarehouse u => (4, u, [])
      end : N * string * list N)
    (λ x, match x with
      | (0, c, [d]) => OwnDatabase c d | (1, c, [d; t]) => OwnTable c d t | (2, u, _) => OwnUDF u
      | (3, u, _) => OwnStage u | (_, u, _) => OwnWarehouse u
      end) _.
Proof. by intros []. Defined.

Record OwnershipInfo := { oi_object : OwnershipObject; oi_role : string }.

(** ** Messages (protos/proto/user.proto, role.proto, ownership.proto) *)

(** [grant_object::Object] and [ownership_object::Object]; the messages of the
    variants are their fields. *)
Inductive pb_GrantObjectKind :=
| PbGrantGlobal
| PbGrantDatabase (catalog db : string)
| PbGrantTable (catalog db table : string)
| PbGrantUdf (udf : string)
| PbGrantStage (stage : string)
| PbGrantDatabaseId (catalog : string) (db : N)
| PbGrantTableId (catalog : string) (db table : N)
| PbGrantWarehouse (warehouse : string).
Record pb_GrantObject := { go_ver : N; go_min_reader_ver : N; go_object : option pb_GrantObjectKind }.
Record pb_GrantEntry := { pe_ver : N; pe_min_reader_ver : N; pe_object : option pb_GrantObject; pe_privileges : N }.
Record pb_UserGrantSet := {
  pg_ver : N; pg_min_reader_ver : N; pg_entries : list pb_GrantEntry; pg_roles : gmap string bool;
}.
Record pb_RoleInfo := {
  pr_ver : N; pr_min_reader_ver : N; pr_name : string; pr_grants : option pb_UserGrantSet;
  pr_created_on : option string; pr_update_on : option string;
}.

Inductive pb_OwnershipKind :=
| PbOwnDatabase (catalog : string) (db : N)
| PbOwnTable (catalog : string) (db table : N)
| PbOwnUdf (udf : string)
| PbOwnStage (stage : string)
| PbOwnWarehouse (id : string).
Record pb_OwnershipObject := { po_ver : N; po_min_reader_ver : N; po_object : option pb_OwnershipKind }.
Record pb_OwnershipInfo := {
  pw_ver : N; pw_min_reader_ver : N; pw_role : string; pw_object : option pb_OwnershipObject;
}.

(** ** Conversions *)

Definition grant_object_from_pb (p : pb_GrantObject) : option GrantObject :=
  _ ← reader_check_msg (go_ver p) (go_min_reader_ver p);
  object ← go_object p;
  Some match object with
  | PbGrantGlobal => Grant_Global
  | PbGrantDatabase catalog db => Grant_Database catalog db
  | PbGrantDatabaseId catalog db => Grant_DatabaseById catalog db
  | PbGrantTable catalog db table => Grant_Table catalog db table
  | PbGrantTableId catalog db table => Grant_TableById catalog db table
  | PbGrantUdf udf => Grant_UDF udf
  | PbGrantStage stage => Grant_Stage stage
  | PbGrantWarehouse warehouse => Grant_Warehouse warehouse
  end.
Definition grant_object_to_pb (o : GrantObject) : option pb_GrantObject :=
  let object := match o with
    | Grant_Global => Some PbGrantGlobal
    | Grant_Database catalog db => Some (PbGrantDatabase catalog db)
    | Grant_DatabaseById catalog db => Some (PbGrantDatabaseId catalog db)
    | Grant_Table catalog db table => Some (PbGrantTable catalog db table)
    | Grant_TableById catalog db table => Some (PbGrantTableId catalog db table)
    | Grant_UDF udf => Some (PbGrantUdf udf)
    | Grant_Stage stage => Some (PbGrantStage stage)
    | Grant_Warehouse w => Some (PbGrantWarehouse w)
    end in
  Some {| go_ver := VER; go_min_reader_ver := MIN_READER_VER; go_object := object |}.

Definition ownership_object_from_pb (p : pb_OwnershipObject) : option OwnershipObject :=
  _ ← reader_check_msg (po_ver p) (po_min_reader_ver p);
  object ← po_object p;
  Some match object with
  | PbOwnDatabase catalog db => OwnDatabase catalog db
  | PbOwnTable catalog db table => OwnTable catalog db table
  | PbOwnUdf udf => OwnUDF udf
  | PbOwnStage stage => OwnStage stage
  | PbOwnWarehouse id => OwnWarehouse id
  end.
Definition ownership_object_to_pb (o : OwnershipObject) : option pb_OwnershipObject :=
  let object := match o with
    | OwnDatabase catalog_name db_id => Some (PbOwnDatabase catalog_name db_id)
    | OwnTable catalog_name db_id table_id => Some (PbOwnTable catalog_name db_id table_id)
    | OwnUDF name => Some (PbOwnUdf name)
    | OwnStage name => Some (PbOwnStage name)
    | OwnWarehouse id => Some (PbOwnWarehouse id)
    end in
  Some {| po_ver := VER; po_min_reader_ver := MIN_READER_VER; po_object := object |}.

Definition ownership_info_from_pb (p : pb_OwnershipInfo) : option OwnershipInfo :=
  _ ← reader_check_msg (pw_ver p) (pw_min_reader_ver p);
  po ← pw_object p;
  object ← ownership_object_from_pb po;
  Some {| oi_role := pw_role p; oi_object := object |}.
Definition ownership_info_to_pb (i : OwnershipInfo) : option pb_OwnershipInfo :=
  object ← ownership_object_to_pb (oi_object i);
  Some {| pw_ver := VER; pw_min_reader_ver := MIN_READER_VER; pw_role := oi_role i; pw_object := Some object |}.

Section conversions.
Context {ch : Chrono} {cd : ChronoDefault ch} {fl : PrivilegeFlags} {ho : HashOrder}.

Definition grant_entry_from_pb (p : pb_GrantEntry) : option GrantEntry :=
  _ ← reader_check_msg (pe_ver p) (pe_min_reader_ver p);
  let privileges := flags_from_bits_truncate (pe_privileges p) in
  po ← pe_object p;
  object ← grant_object_from_pb po;
  Some {| ge_object := object; ge_privileges := privileges |}.
Definition grant_entry_to_pb (e : GrantEntry) : option pb_GrantEntry :=
  object ← grant_object_to_pb (ge_object e);
  Some {| pe_ver := VER; pe_min_reader_ver := MIN_READER_VER; pe_object := Some object;
          pe_privileges := flags_bits (ge_privileges e) |}.

Definition grant_set_from_pb (p : pb_UserGrantSet) : option UserGrantSet :=
  _ ← reader_check_msg (pg_ver p) (pg_min_reader_ver p);
  entries ← mapM grant_entry_from_pb (pg_entries p);
  let roles := dom (pg_roles p) in
  Some {| gs_entries := entries; gs_roles := roles |}.
Definition grant_set_to_pb (s : UserGrantSet) : option pb_UserGrantSet :=
  entries ← mapM grant_entry_to_pb (gs_entries s);
  let roles := foldl (λ m role, <[role := true]> m) ∅ (roles s) in
  Some {| pg_ver := VER; pg_min_reader_ver := MIN_READER_VER; pg_entries := entries; pg_roles := roles |}.

(** Grants that do not convert are no grants. *)
Definition role_info_from_pb (p : pb_RoleInfo) : option RoleInfo :=
  _ ← reader_check_msg (pr_ver p) (pr_min_reader_ver p);
  let grants := match pr_grants p with
    | Some grants => default grant_set_empty (grant_set_from_pb grants)
    | None => grant_set_empty
    end in
  created_on ← match pr_created_on p with Some c => datetime_from_str c | None => Some datetime_default end;
  update_on ← match pr_update_on p with Some c => datetime_from_str c | None => Some datetime_default end;
  Some {| ri_name := pr_name p; ri_grants := grants; ri_created_on := created_on; ri_update_on := update_on |}.
Definition role_info_to_pb (r : RoleInfo) : option pb_RoleInfo :=
  grants ← grant_set_to_pb (ri_grants r);
  Some {| pr_ver := VER; pr_min_reader_ver := MIN_READER_VER; pr_name := ri_name r; pr_grants := Some grants;
          pr_created_on := Some (datetime_to_string (ri_created_on r));
          pr_update_on := Some (datetime_to_string (ri_update_on r)) |}.

#[export] Instance role_info_proto `{!ProstMessage pb_RoleInfo} : FromToProto RoleInfo :=
  {| PB := pb_RoleInfo; from_pb := role_info_from_pb; to_pb := role_info_to_pb |}.
#[export] Instance ownership_info_proto `{!ProstMessage pb_OwnershipInfo} : FromToProto OwnershipInfo :=
  {| PB := pb_OwnershipInfo; from_pb := ownership_info_from_pb; to_pb := ownership_info_to_pb |}.
End conversions.

(** ** Laws *)

(** The integers of the messages fit in a [u64]. *)
Definition u64s (l : list N) : Prop := Forall (λ n, n < u64_mod) l.

Definition pb_grant_object_ids (k : pb_GrantObjectKind) : list N :=
  match k with PbGrantDatabaseId _ db => [db] | PbGrantTableId _ db table => [db; table] | _ => [] end.
Definition pb_ownership_ids (k : pb_OwnershipKind) : list N :=
  match k with PbOwnDatabase _ db => [db] | PbOwnTable _ db table => [db; table] | _ => [] end.

Definition pb_grant_entry_ids (p : pb_GrantEntry) : list N :=
  pe_ver p :: pe_min_reader_ver p :: pe_privileges p ::
  match pe_object p with
  | Some o => go_ver o :: go_min_reader_ver o :: match go_object o with Some k => pb_grant_object_ids k | None => [] end
  | None => []
  end.
Definition pb_role_ids (p : pb_RoleInfo) : list N :=
  pr_ver p :: pr_min_reader_ver p ::
  match pr_grants p with
  | Some g => pg_ver g :: pg_min_reader_ver g :: (pg_entries g ≫= pb_grant_entry_ids)
  | None => []
  end.
Definition pb_ownership_info_ids (p : pb_OwnershipInfo) : list N :=
  pw_ver p :: pw_min_reader_ver p ::
  match pw_object p with
  | Some o => po_ver o :: po_min_reader_ver o :: match po_object o with Some k => pb_ownership_ids k | None => [] end
  | None => []
  end.
Definition pb_role_fits (p : pb_RoleInfo) : Prop := u64s (pb_role_ids p).
Definition pb_ownership_info_fits (p : pb_OwnershipInfo) : Prop := u64s (pb_ownership_info_ids p).

(** The ids of an object. *)
Definition grant_object_ids (o : GrantObject) : list N :=
  match o with Grant_DatabaseById _ db => [db] | Grant_TableById _ db table => [db; table] | _ => [] end.
Definition ownership_ids (o : OwnershipObject) : list N :=
  match o with OwnDatabase _ db => [db] | OwnTable _ db table => [db; table] | _ => [] end.

Section laws.
Context {ch : Chrono} `{!ChronoLaws ch} {cd : ChronoDefault ch}.
Context {fl : PrivilegeFlags} `{!EnumFlagsLaws UserPrivilegeType privilege_value} {ho : HashOrder} `{!HashOrderLaws ho}.

Definition grants_fit (s : UserGrantSet) : Prop := Forall (λ e, u64s (grant_object_ids (ge_object e))) (gs_entries s).
Definition role_fits (r : RoleInfo) : Prop := grants_fit (ri_grants r).

Lemma grant_object_roundtrip o : ∃ p, grant_object_to_pb o = Some p ∧ grant_object_from_pb p = Some o ∧
  ∃ k, go_object p = Some k ∧ go_ver p = VER ∧ go_min_reader_ver p = MIN_READER_VER ∧ pb_grant_object_ids k = grant_object_ids o.
Proof. destruct o; eexists; (split; [done|]); (split; [done|]); eexists; done. Qed.

Lemma grant_entry_roundtrip e :
  u64s (grant_object_ids (ge_object e)) →
  ∃ p, grant_entry_to_pb e = Some p ∧ grant_entry_from_pb p = Some e ∧ u64s (pb_grant_entry_ids p).
Proof.
  intros He. unfold grant_entry_to_pb, grant_entry_from_pb.
  destruct (grant_object_roundtrip (ge_object e)) as (p & Hto & Hfrom & k & Hk & Hv & Hm & Hids).
  rewrite Hto. eexists. split; [done|]. cbn [pe_ver pe_min_reader_ver pe_object pe_privileges pb_grant_entry_ids mbind option_bind].
  split; [|unfold pb_grant_entry_ids; cbn; rewrite Hk, Hv, Hm, Hids; repeat (apply Forall_cons; split; [by (apply bits_fits || done)|]); done].
  rewrite Hfrom. cbn. rewrite bits_roundtrip. by destruct e.
Qed.

Lemma entries_roundtrip l :
  Forall (λ e, u64s (grant_object_ids (ge_object e))) l →
  ∃ ps, mapM grant_entry_to_pb l = Some ps ∧ mapM grant_entry_from_pb ps = Some l ∧ u64s (ps ≫= pb_grant_entry_ids).
Proof.
  induction 1 as [|e l He _ (ps & H1 & H2 & H3)]; [exists []; split_and!; [done|done|constructor]|].
  destruct (grant_entry_roundtrip e He) as (p & Hp1 & Hp2 & Hp3). exists (p :: ps).
  cbn -[grant_entry_to_pb grant_entry_from_pb pb_grant_entry_ids]. rewrite Hp1, Hp2. cbn -[grant_entry_to_pb grant_entry_from_pb pb_grant_entry_ids].
  rewrite H1, H2. split_and!; [done|done|]. by apply Forall_app.
Qed.

Lemma roles_map_dom (l : list string) (m : gmap string bool) :
  dom (foldl (λ m role, <[role := true]> m) m l) = dom m ∪ list_to_set l.
Proof.
  revert m. induction l as [|r l IH]; intros m; cbn; [set_solver|]. rewrite IH, dom_insert_L. set_solver.
Qed.

Lemma grant_set_roundtrip s :
  grants_fit s → ∃ p, grant_set_to_pb s = Some p ∧ grant_set_from_pb p = Some s ∧
    pg_ver p = VER ∧ pg_min_reader_ver p = MIN_READER_VER ∧ u64s (pg_entries p ≫= pb_grant_entry_ids).
Proof.
  intros (ps & H1 & H2 & H3)%entries_roundtrip. unfold grant_set_to_pb, grant_set_from_pb. rewrite H1. cbn [mbind option_bind].
  eexists. split; [done|]. split; [|done]. cbn [pg_ver pg_min_reader_ver pg_entries pg_roles]. rewrite H2. cbn.
  rewrite roles_map_dom. f_equal. destruct s as [es rs]. cbn. f_equal. apply set_eq. intros r.
  rewrite elem_of_union, elem_of_list_to_set, elem_of_roles, dom_empty_L. set_solver.
Qed.

Lemma grant_entry_decoded p e : grant_entry_from_pb p = Some e → u64s (pb_grant_entry_ids p) → u64s (grant_object_ids (ge_object e)).
Proof.
  unfold grant_entry_from_pb, grant_object_from_pb, pb_grant_entry_ids. intros He Hp.
  apply bind_Some in He as (_ & _ & He). apply bind_Some in He as (po & Hpo & He).
  apply bind_Some in He as (o & (_ & _ & Ho)%bind_Some & [= <-]). apply bind_Some in Ho as (k & Hk & [= <-]).
  rewrite Hpo, Hk in Hp. do 5 apply Forall_cons_1 in Hp as [_ Hp]. by destruct k.
Qed.
Lemma entries_decoded ps l :
  mapM grant_entry_from_pb ps = Some l → u64s (ps ≫= pb_grant_entry_ids) →
  Forall (λ e, u64s (grant_object_ids (ge_object e))) l.
Proof.
  revert l. induction ps as [|p ps IH]; intros l; cbn -[grant_entry_from_pb pb_grant_entry_ids]; [intros [= <-] _; constructor|].
  intros (e & He & (r & Hr & [= <-])%bind_Some)%bind_Some [Hp Hps]%Forall_app.
  constructor; [by eapply grant_entry_decoded|by apply IH].
Qed.

#[export, refine] Instance role_info_proto_laws `{!ProstMessage pb_RoleInfo, !ProstLaws pb_RoleInfo pb_role_fits} :
    FromToProtoLaws RoleInfo := {| value_fits := role_fits |}.
Proof.
  - intros r (p & H1 & H2 & Hv & Hm & H3)%grant_set_roundtrip.
    eapply (proto_roundtrip (FromToProto0 := role_info_proto) pb_role_fits).
    + unfold to_pb, role_info_proto, role_info_to_pb. rewrite H1. done.
    + unfold pb_role_fits, pb_role_ids. cbn. rewrite Hv, Hm. by repeat (apply Forall_cons; split; [done|]).
    + unfold from_pb, role_info_proto, role_info_from_pb. cbn. rewrite !datetime_roundtrip, H2. cbn. by destruct r.
  - intros b r (p & Hp & Hr)%bind_Some. apply (prost_decode_fits (fits := pb_role_fits)) in Hp.
    cbn [from_pb role_info_proto] in Hr. unfold role_info_from_pb in Hr. repeat (apply bind_Some in Hr as (? & _ & Hr)).
    injection Hr as <-. unfold pb_role_fits, pb_role_ids, role_fits in *. cbn [ri_grants].
    do 2 apply Forall_cons_1 in Hp as [_ Hp]. destruct (pr_grants p) as [g|]; [|by apply Forall_nil].
    destruct (grant_set_from_pb g) as [s|] eqn:Eg; [|by apply Forall_nil]. cbn.
    do 2 apply Forall_cons_1 in Hp as [_ Hp]. apply bind_Some in Eg as (_ & _ & Eg).
    apply bind_Some in Eg as (l & Hl & [= <-]). by eapply entries_decoded.
Defined.

#[export, refine] Instance ownership_info_proto_laws
    `{!ProstMessage pb_OwnershipInfo, !ProstLaws pb_OwnershipInfo pb_ownership_info_fits} :
    FromToProtoLaws OwnershipInfo := {| value_fits i := u64s (ownership_ids (oi_object i)) |}.
Proof.
  - intros [o r] Ho. eapply (proto_roundtrip (FromToProto0 := ownership_info_proto) pb_ownership_info_fits); [done| |].
    + unfold pb_ownership_info_fits, pb_ownership_info_ids. cbn.
      repeat (apply Forall_cons; split; [done|]). by destruct o.
    + by destruct o.
  - intros b i (p & Hp & Hi)%bind_Some. apply (prost_decode_fits (fits := pb_ownership_info_fits)) in Hp.
    apply bind_Some in Hi as (_ & _ & Hi). apply bind_Some in Hi as (po & Hpo & Hi).
    apply bind_Some in Hi as (o & (_ & _ & (k & Hk & [= <-])%bind_Some)%bind_Some & [= <-]).
    unfold pb_ownership_info_fits, pb_ownership_info_ids in Hp. rewrite Hpo, Hk in Hp.
    do 4 apply Forall_cons_1 in Hp as [_ Hp]. by destruct k.
Defined.
End laws.

(** ** Concrete messages, for examples *)

#[export] Instance pb_GrantObjectKind_eq_dec : EqDecision pb_GrantObjectKind.
Proof. solve_decision. Defined.
#[export] Instance pb_GrantObject_eq_dec : EqDecision pb_GrantObject.
Proof. solve_decision. Defined.
#[export] Instance pb_GrantEntry_eq_dec : EqDecision pb_GrantEntry.
Proof. solve_decision. Defined.
#[export] Instance pb_UserGrantSet_eq_dec : EqDecision pb_UserGrantSet.
Proof. solve_decision. Defined.
#[export] Instance pb_OwnershipKind_eq_dec : EqDecision pb_OwnershipKind.
Proof. solve_decision. Defined.
#[export] Instance pb_OwnershipObject_eq_dec : EqDecision pb_OwnershipObject.
Proof. solve_decision. Defined.

#[export, refine] Instance pb_GrantObjectKind_countable : Countable pb_GrantObjectKind :=
  inj_countable' (λ k, match k with
      | PbGrantGlobal => (0, [], []) | PbGrantDatabase c d => (1, [c; d], []) | PbGrantTable c d t => (2, [c; d; t], [])
      | PbGrantUdf u => (3, [u], []) | PbGrantStage u => (4, [u], []) | PbGrantDatabaseId c d => (5, [c], [d])
      | PbGrantTableId c d t => (6, [c], [d; t]) | PbGrantWarehouse u => (7, [u], [])
      end : N * list string * list N)
    (λ x, match x with
      | (1, [c; d], []) => PbGrantDatabase c d | (2, [c; d; t], []) => PbGrantTable c d t
      | (3, [u], []) => PbGrantUdf u | (4, [u], []) => PbGrantStage u | (5, [c], [d]) => PbGrantDatabaseId c d
      | (6, [c], [d; t]) => PbGrantTableId c d t | (7, [u], []) => PbGrantWarehouse u | _ => PbGrantGlobal
      end) _.
Proof. by intros []. Defined.
#[export, refine] Instance pb_GrantObject_countable : Countable pb_GrantObject :=
  inj_countable' (λ p, (go_ver p, go_min_reader_ver p, go_object p))
    (λ x, {| go_ver := x.1.1; go_min_reader_ver := x.1.2; go_object := x.2 |}) _.
Proof. by intros []. Defined.
#[export, refine] Instance pb_GrantEntry_countable : Countable pb_GrantEntry :=
  inj_countable' (λ p, (pe_ver p, pe_min_reader_ver p, pe_object p, pe_privileges p))
    (λ x, {| pe_ver := x.1.1.1; pe_min_reader_ver := x.1.1.2; pe_object := x.1.2; pe_privileges := x.2 |}) _.
Proof. by intros []. Defined.
#[export, refine] Instance pb_UserGrantSet_countable : Countable pb_UserGrantSet :=
  inj_countable' (λ p, (pg_ver p, pg_min_reader_ver p, pg_entries p, pg_roles p))
    (λ x, {| pg_ver := x.1.1.1; pg_min_reader_ver := x.1.1.2; pg_entries := x.1.2; pg_roles := x.2 |}) _.
Proof. by intros []. Defined.
#[export, refine] Instance pb_OwnershipKind_countable : Countable pb_OwnershipKind :=
  inj_countable' (λ k, match k with
      | PbOwnDatabase c d => (0, c, [d]) | PbOwnTable c d t => (1, c, [d; t]) | PbOwnUdf u => (2, u, [])
      | PbOwnStage u => (3, u, []) | PbOwnWarehouse u => (4, u, [])
      end : N * string * list N)
    (λ x, match x with
      | (0, c, [d]) => PbOwnDatabase c d | (1, c, [d; t]) => PbOwnTable c d t | (2, u, _) => PbOwnUdf u
      | (3, u, _) => PbOwnStage u | (_, u, _) => PbOwnWarehouse u
      end) _.
Proof. by intros []. Defined.
#[export, refine] Instance pb_OwnershipObject_countable : Countable pb_OwnershipObject :=
  inj_countable' (λ p, (po_ver p, po_min_reader_ver p, po_object p))
    (λ x, {| po_ver := x.1.1; po_min_reader_ver := x.1.2; po_object := x.2 |}) _.
Proof. by intros []. Defined.

#[export] Instance pb_role_fits_dec p : Decision (pb_role_fits p).
Proof. unfold pb_role_fits, u64s. apply _. Defined.
#[export] Instance pb_ownership_info_fits_dec p : Decision (pb_ownership_info_fits p).
Proof. unfold pb_ownership_info_fits, u64s. apply _. Defined.

Definition text_role : ProstMessage pb_RoleInfo := {|
  prost_encode p := Some (field (pr_ver p, pr_min_reader_ver p, pr_name p, pr_grants p, pr_created_on p, pr_update_on p));
  prost_decode b := fitting pb_role_fits ('(v, m, n, g, c, u) ← of_field b;
    Some {| pr_ver := v; pr_min_reader_ver := m; pr_name := n; pr_grants := g; pr_created_on := c; pr_update_on := u |});
|}.
Definition text_ownership : ProstMessage pb_OwnershipInfo := {|
  prost_encode p := Some (field (pw_ver p, pw_min_reader_ver p, pw_role p, pw_object p));
  prost_decode b := fitting pb_ownership_info_fits ('(v, m, r, o) ← of_field b;
    Some {| pw_ver := v; pw_min_reader_ver := m; pw_role := r; pw_object := o |});
|}.

Lemma text_role_laws : ProstLaws (ProstMessage0 := text_role) pb_RoleInfo pb_role_fits.
Proof.
  eapply (fitting_laws (ProstMessage0 := text_role) pb_role_fits); [done|].
  intros p. eexists. split; [done|]. cbn beta. rewrite field_roundtrip. by destruct p.
Qed.
Lemma text_ownership_laws : ProstLaws (ProstMessage0 := text_ownership) pb_OwnershipInfo pb_ownership_info_fits.
Proof.
  eapply (fitting_laws (ProstMessage0 := text_ownership) pb_ownership_info_fits); [done|].
  intros p. eexists. split; [done|]. cbn beta. rewrite field_roundtrip. by destruct p.
Qed.
