(* ===== verification/Roles.v ===== *)
(** Roles and owners of objects (query/management/src/role/role_mgr.rs and serde,
    query/users/src/role_mgr.rs and role_util.rs): the manager that stores them, the
    operations of the provider, and the roles that a role contains. *)

From stdpp Require Import base sorting strings gmap numbers list.
From S2P Require Import Prelude BTree RustStr MetaTypes Txn SMV003 KeyCodec AppKeys KVApi ProtoConv MetaApi Database.
From S2P Require Import Grants RoleTypes.
Local Open Scope N_scope.

(** [serde_json::from_slice]. *)
Class JsonDecode (T : Type) := { json_decode : bytes → option T }.

Definition or_throw {A} (r : A + ApiError) : Client A := match r with inl a => mret a | inr e => throw e end.

(** ** Upgrading stored values (serde/quota.rs, serde/pb_serde.rs) *)

(** The number of upgrades that are left; [None] when they are used up.  The target
    is only logged. *)
Record Quota := { q_state : option N }.
Definition quota_new_limit (limit : N) : Quota := {| q_state := if limit =? 0 then None else Some limit |}.
Definition is_used_up (q : Quota) : bool := is_none (q_state q).
Definition quota_decrement (q : Quota) : Quota :=
  let q := match q_state q with Some n => {| q_state := Some (n - 1) |} | None => q end in
  if decide (q_state q = Some 0) then {| q_state := None |} else q.

Section serde.
Context {T : Type} `{!FromToProto T}.

Definition serialize_struct (v : T) : Client bytes :=
  match encode_pb v with Some b => mret b | None => throw (EQuery IllegalUserInfoFormat) end.

(** The quota is changed whether there is an error or not. *)
Definition check_and_upgrade_to_pb `{!JsonDecode T} (q : Quota) (key : string) (seq_value : SeqV bytes) :
    Client (Quota * (SeqV T + ApiError)) :=
  match decode_pb (data seq_value) with
  | Some v => mret (q, inl (seqv_new (seq seq_value) v))
  | None =>
      match json_decode (data seq_value) with
      | None => mret (q, inr (EMeta InvalidReply))
      | Some v =>
          if is_used_up q then mret (q, inl (seqv_new (seq seq_value) v)) else
          let q := quota_decrement q in
          match encode_pb v with
          | None => mret (q, inr (EMeta InvalidArgument))
          | Some value =>
              res ← try_client (request (ReqUpsertKV
                {| ukey := key; useq := Exact (seq seq_value); uvalue := Update value; uvalue_meta := None |}));
              mret (q, match res with
                | inr e => inr e
                | inl res =>
                    inl (seqv_new (if is_changed res then opt_seq (ch_result res) else seq seq_value) v)
                end)
          end
      end
  end.
End serde.

(** ** Keys *)

Definition BUILTIN_ROLE_ACCOUNT_ADMIN : string := "account_admin".
Definition BUILTIN_ROLE_PUBLIC : string := "public".
Definition ROLE_TXN_MAX_RETRY_TIMES : nat := 60.

(** [KeyWithTenant::tenant_prefix] (app/src/key_with_tenant.rs). *)
Definition tenant_prefix {K} `{!KeyCodec K, !Key K, !KeyWithTenant K} (k : K) : KeyResult string :=
  builder_done (push_raw EmptyString (push_str (tenant (key_tenant k)) (key_builder_prefixed (KEY_PREFIX K)))).

Record RoleMgr := { rm_tenant : Tenant; rm_upgrade_to_pb : bool }.

Definition ownership_object_ident (m : RoleMgr) (object : OwnershipObject) : TenantOwnershipObjectIdent :=
  tident_new (rm_tenant m) object.
Definition ownership_object_prefix (m : RoleMgr) : KeyResult string :=
  tenant_prefix (ownership_object_ident m (OwnUDF "dummy")).
Definition role_ident (m : RoleMgr) (role : string) : RoleIdent := tident_new (rm_tenant m) role.
Definition role_prefix (m : RoleMgr) : KeyResult string := tenant_prefix (role_ident m "dummy").
Definition quota (upgrade_to_pb : bool) : Quota := quota_new_limit (if upgrade_to_pb then 10 else 0).

(** ** The role manager

    A time [now] is that of [Utc::now]. *)

Section role_mgr.
Context {sj : SerdeJson} {ch : Chrono} {cd : ChronoDefault ch} {fl : PrivilegeFlags} {ho : HashOrder}.
Context `{!ProstMessage pb_RoleInfo, !ProstMessage pb_OwnershipInfo, !JsonDecode RoleInfo, !JsonDecode OwnershipInfo}.
Implicit Types m : RoleMgr.

Definition upsert_role_info m (role_info : RoleInfo) (s : MatchSeq) : Client N :=
  key ← key_str (to_string_key (role_ident m (identity role_info)));
  value ← serialize_struct role_info;
  res ← request (ReqUpsertKV {| ukey := key; useq := s; uvalue := Update value; uvalue_meta := None |});
  match ch_result res with
  | Some v => mret (seq v)
  | None => throw (EQuery UnknownRole)
  end.

Definition add_role m (role_info : RoleInfo) : Client N :=
  key ← key_str (to_string_key (role_ident m (identity role_info)));
  value ← serialize_struct role_info;
  res ← request (ReqUpsertKV {| ukey := key; useq := Exact 0; uvalue := Update value; uvalue_meta := None |});
  match added_seq_or_else res with
  | inl res_seq => mret res_seq
  | inr _ => throw (EQuery RoleAlreadyExists)
  end.

(** The sequence number is the one that was read. *)
Definition get_role m (role : string) (s : MatchSeq) : Client (SeqV RoleInfo) :=
  key ← key_str (to_string_key (role_ident m role));
  res ← get_kv key;
  match res with
  | None => throw (EQuery UnknownRole)
  | Some seq_value =>
      match match_seq s (seq seq_value) with
      | inr _ => throw (EQuery UnknownRole)
      | inl _ =>
          '(_, r) ← check_and_upgrade_to_pb (T := RoleInfo) (quota (rm_upgrade_to_pb m)) key seq_value;
          u ← or_throw r;
          mret (seqv_new (seq seq_value) (data u))
      end
  end.

Fixpoint upgrade_roles (q : Quota) (values : list (string * SeqV bytes)) : Client (list (SeqV RoleInfo)) :=
  match values with
  | [] => mret []
  | (key, val) :: values =>
      '(q, r) ← check_and_upgrade_to_pb q key val;
      u ← or_throw r;
      l ← upgrade_roles q values;
      mret (u :: l)
  end.
Definition get_raw_meta_roles m : Client (list (string * SeqV bytes)) :=
  p ← key_str (role_prefix m); prefix_list_kv p.
Definition get_meta_roles m : Client (list (SeqV RoleInfo)) :=
  values ← get_raw_meta_roles m; upgrade_roles (quota (rm_upgrade_to_pb m)) values.

(** A value with an error is left out. *)
Fixpoint upgrade_owners (q : Quota) (values : list (string * SeqV bytes)) : Client (list (SeqV OwnershipInfo)) :=
  match values with
  | [] => mret []
  | (key, val) :: values =>
      '(q, r) ← check_and_upgrade_to_pb q key val;
      l ← upgrade_owners q values;
      mret (match r with inl u => u :: l | inr _ => l end)
  end.
Definition get_ownerships m : Client (list (SeqV OwnershipInfo)) :=
  p ← key_str (ownership_object_prefix m);
  values ← prefix_list_kv p;
  upgrade_owners (quota (rm_upgrade_to_pb m)) values.

Definition update_role_with m (role : string) (s : MatchSeq) (f : RoleInfo → RoleInfo) : Client (option N) :=
  v ← get_role m role s;
  let role_info := f (data v) in
  s ← upsert_role_info m role_info (Exact (seq v));
  mret (Some s).

(** The loop over the owners: whether there is something to transfer, the
    conditions and the operations. *)
Fixpoint transfer_owners m (role : string) (owns : list (SeqV OwnershipInfo)) (need_transfer : bool)
    (condition : list TxnCondition) (if_then : list TxnOp) : Client (bool * list TxnCondition * list TxnOp) :=
  match owns with
  | [] => mret (need_transfer, condition, if_then)
  | own :: owns =>
      if decide (oi_role (data own) = role) then
        let object := oi_object (data own) in
        let owner_key := ownership_object_ident m object in
        owner_value ← serialize_struct {| oi_object := object; oi_role := BUILTIN_ROLE_ACCOUNT_ADMIN |};
        c ← txn_cond_seq owner_key CEq (seq own);
        o ← txn_op_put owner_key owner_value;
        transfer_owners m role owns true (condition ++ [c]) (if_then ++ [o])
      else transfer_owners m role owns need_transfer condition if_then
  end.
Definition transfer_ownership_to_admin m (role : string) : Client unit :=
  txn_backoff (λ _,
    seq_owns ← get_ownerships m;
    '(need_transfer, condition, if_then) ← transfer_owners m role seq_owns false [] [];
    if (need_transfer : bool) then
      '(succ, _) ← send_txn (txn_new condition if_then);
      mret (if (succ : bool) then Some tt else None)
    else mret (Some tt)).

Definition get_ownership m (object : OwnershipObject) : Client (option OwnershipInfo) :=
  key ← key_str (to_string_key (ownership_object_ident m object));
  res ← get_kv key;
  match res with
  | None => mret None
  | Some seq_value =>
      '(_, r) ← check_and_upgrade_to_pb (T := OwnershipInfo) (quota (rm_upgrade_to_pb m)) key seq_value;
      seq_val ← or_throw r;
      mret (Some (data seq_val))
  end.

(** [make_bitflags!(UserPrivilegeType::{ Ownership })]. *)
Definition OWNERSHIP : BitFlags := make_bitflags [Priv_Ownership].

Definition grant_ownership m (now : nat → DateTime) (object : OwnershipObject) (new_role : string) : Client unit :=
  txn_trials ROLE_TXN_MAX_RETRY_TIMES 1 (λ retry,
    owner ← get_ownership m object;
    let old_role := oi_role <$> owner in
    let grant_object := convert_to_grant_obj object in
    let owner_key := ownership_object_ident m object in
    owner_value ← serialize_struct {| oi_object := object; oi_role := new_role |};
    put ← txn_op_put owner_key owner_value;
    '(condition, if_then) ←
      match old_role with
      | None => mret ([], [put])
      | Some old_role =>
          r ← try_client (get_role m old_role (GE 1));
          match r with
          | inr _ => mret ([], [put])
          | inl seqv =>
              let old_key := role_ident m old_role in
              let old_role_info :=
                update_role_time (now retry) (map_grants (revoke_privileges grant_object OWNERSHIP) (data seqv)) in
              c ← txn_cond_seq old_key CEq (seq seqv);
              value ← serialize_struct old_role_info;
              o ← txn_op_put old_key value;
              mret ([c], [put; o])
          end
      end;
    '(succ, _) ← send_txn (txn_new condition if_then);
    mret (if (succ : bool) then Some tt else None)).

Definition revoke_ownership m (now : nat → DateTime) (object : OwnershipObject) : Client unit :=
  txn_trials ROLE_TXN_MAX_RETRY_TIMES 1 (λ retry,
    owner ← get_ownership m object;
    let role := oi_role <$> owner in
    let owner_key := ownership_object_ident m object in
    del ← txn_op_del owner_key;
    '(condition, if_then) ←
      match role with
      | None => mret ([], [del])
      | Some role =>
          r ← try_client (get_role m role (GE 1));
          match r with
          | inr _ => mret ([], [del])
          | inl seqv =>
              let old_key := role_ident m role in
              let grant_object := convert_to_grant_obj object in
              if verify_privilege (ri_grants (data seqv)) grant_object Priv_Ownership then
                let old_role_info :=
                  update_role_time (now retry) (map_grants (revoke_privileges grant_object OWNERSHIP) (data seqv)) in
                c ← txn_cond_seq old_key CEq (seq seqv);
                value ← serialize_struct old_role_info;
                o ← txn_op_put old_key value;
                mret ([c], [del; o])
              else mret ([], [del])
          end
      end;
    '(succ, _) ← send_txn (txn_new condition if_then);
    mret (if (succ : bool) then Some tt else None)).

Definition drop_role m (role : string) (s : MatchSeq) : Client unit :=
  key ← key_str (to_string_key (role_ident m role));
  res ← request (ReqUpsertKV {| ukey := key; useq := s; uvalue := Delete; uvalue_meta := None |});
  match removed_or_else res with
  | inl _ => mret tt
  | inr _ => throw (EQuery UnknownRole)
  end.

(** ** The roles that roles contain (role_util.rs) *)

Fixpoint related_loop (fuel : nat) (cache : gmap string RoleInfo) (visited : gset string) (q : list string)
    (result : list RoleInfo) : list RoleInfo :=
  match fuel, q with
  | S fuel, role_identity :: q =>
      if decide (role_identity ∈ visited) then related_loop fuel cache visited q result else
      let visited := {[role_identity]} ∪ visited in
      match cache !! role_identity with
      | None => related_loop fuel cache visited q result
      | Some role => related_loop fuel cache visited (q ++ roles (ri_grants role)) (result ++ [role])
      end
  | _, _ => result
  end.
(** Every turn of the loop takes a name from the queue, and a role adds its roles to
    the queue once. *)
Definition related_fuel (cache : gmap string RoleInfo) (q : list string) : nat :=
  length q + sum_list ((λ x, length (roles (ri_grants x.2))) <$> map_to_list cache).

Definition find_all_related_roles (cache : gmap string RoleInfo) (role_identities : list string) : list RoleInfo :=
  if decide (BUILTIN_ROLE_ACCOUNT_ADMIN ∈ role_identities) then omap (λ k, cache !! k) (hash_iter (dom cache))
  else
    let role_identities := role_identities ++ [BUILTIN_ROLE_PUBLIC] in
    related_loop (related_fuel cache role_identities) cache ∅ role_identities [].

(** ** The provider (query/users/src/role_mgr.rs)

    The manager [m] is [role_api]. *)

Definition builtin_roles (now : DateTime) : gmap string RoleInfo :=
  let account_admin := role_info_new now BUILTIN_ROLE_ACCOUNT_ADMIN in
  let account_admin := map_grants (grant_privileges Grant_Global available_privileges_on_global) account_admin in
  <[BUILTIN_ROLE_ACCOUNT_ADMIN := account_admin]> ∅.

Definition provider_get_role m (now : DateTime) (role : string) : Client RoleInfo :=
  match builtin_roles now !! role with
  | Some role_info => mret role_info
  | None => v ← get_role m role (GE 0); mret (data v)
  end.

Definition name_le (a b : RoleInfo) : Prop := String.leb (ri_name a) (ri_name b) = true.
#[export] Instance name_le_dec : RelDecision name_le := λ a b, decide (String.leb (ri_name a) (ri_name b) = true).

Definition get_roles m (now : DateTime) : Client (list RoleInfo) :=
  seq_roles ← get_meta_roles m;
  let roles := filter (λ r, builtin_roles now !! ri_name r = None) (data <$> seq_roles) in
  let roles := roles ++ omap (λ k, builtin_roles now !! k) (hash_iter (dom (builtin_roles now))) in
  mret (merge_sort name_le roles).

Definition exists_role m (now : DateTime) (role : string) : Client bool :=
  r ← try_client (provider_get_role m now role);
  match r with
  | inl _ => mret true
  | inr (EQuery UnknownRole) => mret false
  | inr e => throw e
  end.

Definition provider_add_role m (now : DateTime) (role_info : RoleInfo) (if_not_exists : bool) : Client N :=
  e ← (if if_not_exists then exists_role m now (ri_name role_info) else mret false);
  if (e : bool) then mret 0 else
  res ← try_client (add_role m role_info);
  match res with
  | inl res => mret res
  | inr (EQuery RoleAlreadyExists) => if if_not_exists then mret 0 else throw (EQuery RoleAlreadyExists)
  | inr e => throw e
  end.

Definition grant_ownership_to_role m (now : DateTime) (time : nat → DateTime) (object : OwnershipObject)
    (new_role : string) : Client unit :=
  _ ← provider_get_role m now new_role; grant_ownership m time object new_role.

Definition provider_get_ownership m (now : DateTime) (object : OwnershipObject) : Client (option OwnershipInfo) :=
  ownership ← get_ownership m object;
  match ownership with
  | None => mret None
  | Some owner =>
      e ← exists_role m now (oi_role owner);
      mret (Some (if (e : bool) then owner
                  else {| oi_role := BUILTIN_ROLE_ACCOUNT_ADMIN; oi_object := object |}))
  end.

Definition provider_get_ownerships m : Client (gmap OwnershipObject string) :=
  seq_owns ← get_ownerships m;
  mret (foldl (λ owners r, <[oi_object (data r) := oi_role (data r)]> owners) ∅ seq_owns).

Definition grant_privileges_to_role m (now : DateTime) (role : string) (object : GrantObject) (privileges : BitFlags) :
    Client (option N) :=
  update_role_with m role (GE 1) (λ ri, map_grants (grant_privileges object privileges) (update_role_time now ri)).

Definition revoke_privileges_from_role m (now : DateTime) (role : string) (object : GrantObject) (privileges : BitFlags) :
    Client (option N) :=
  update_role_with m role (GE 1) (λ ri, map_grants (revoke_privileges object privileges) (update_role_time now ri)).

(** The roles are collected into a hash map by their names. *)
Definition find_related_roles m (now : DateTime) (role_identities : list string) : Client (list RoleInfo) :=
  rs ← get_roles m now;
  let tenant_roles_map := foldl (λ cache r, <[identity r := r]> cache) ∅ rs in
  mret (find_all_related_roles tenant_roles_map role_identities).

Definition grant_role_to_role m (now time : DateTime) (target_role grant : string) : Client (option N) :=
  related_roles ← find_related_roles m now [grant];
  if existsb (λ r, bool_decide (identity r = target_role)) related_roles then throw (EQuery InvalidRole)
  else update_role_with m target_role (GE 1) (λ ri, map_grants (grant_role grant) (update_role_time time ri)).

Definition revoke_role_from_role m (now : DateTime) (role revoked : string) : Client (option N) :=
  update_role_with m role (GE 1) (λ ri, map_grants (revoke_role revoked) (update_role_time now ri)).

Definition provider_drop_role m (role : string) (if_exists : bool) : Client unit :=
  _ ← transfer_ownership_to_admin m role;
  res ← try_client (drop_role m role (GE 1));
  match res with
  | inl _ => mret tt
  | inr (EQuery UnknownRole) => if if_exists then mret tt else throw (EQuery UnknownRole)
  | inr e => throw e
  end.
End role_mgr.
