(* ===== verification/RelatedProofs.v ===== *)
(** The roles that roles contain: [find_all_related_roles] returns the roles that can
    be reached, each once. *)

From stdpp Require Import base sorting strings gmap numbers list relations.
From S2P Require Import Prelude BTree RustStr MetaTypes KVApi ProtoConv MetaApi Grants GrantProofs RoleTypes Roles.
Local Open Scope nat_scope.

Section related.
Context {ch : Chrono} {fl : PrivilegeFlags} {ho : HashOrder} `{!HashOrderLaws ho}.
Implicit Types (cache : gmap string RoleInfo) (visited : gset string) (q ids : list string) (a b r : string).

(** A role was granted another. *)
Definition role_edge cache a b : Prop := ∃ ri, cache !! a = Some ri ∧ b ∈ gs_roles (ri_grants ri).
Definition role_reaches cache ids b : Prop := ∃ a, a ∈ ids ∧ rtc (role_edge cache) a b.

(** The roles in the order of the names [ks]. *)
Definition lists_roles cache (ks : list string) (l : list RoleInfo) : Prop :=
  NoDup ks ∧ Forall2 (λ k ri, cache !! k = Some ri) ks l.

(** *** The fuel *)

Definition role_weight (x : string * RoleInfo) : nat := length (roles (ri_grants x.2)).
Definition pending cache visited : nat :=
  sum_list (role_weight <$> map_to_list (filter (λ x, x.1 ∉ visited) cache)).

Lemma sum_list_perm (l l' : list nat) : l ≡ₚ l' → sum_list l = sum_list l'.
Proof. induction 1; cbn; lia. Qed.

Lemma pending_visit cache visited r :
  r ∉ visited →
  pending cache visited = pending cache ({[r]} ∪ visited) +
    match cache !! r with Some ri => length (roles (ri_grants ri)) | None => 0 end.
Proof.
  intros Hr. unfold pending. destruct (cache !! r) as [ri|] eqn:E.
  - assert (filter (λ x, x.1 ∉ visited) cache = <[r := ri]> (filter (λ x, x.1 ∉ {[r]} ∪ visited) cache)) as ->.
    { apply map_eq. intros k. destruct (decide (k = r)) as [->|Hne].
      - rewrite lookup_insert_eq. by apply map_lookup_filter_Some.
      - rewrite lookup_insert_ne by done. apply option_eq. intros x. rewrite !map_lookup_filter_Some. set_solver. }
    rewrite (sum_list_perm _ (role_weight <$> ((r, ri) :: map_to_list (filter (λ x, x.1 ∉ {[r]} ∪ visited) cache)))).
    + cbn. unfold role_weight at 1. cbn. lia.
    + apply fmap_Permutation, map_to_list_insert. apply map_lookup_filter_None. right. intros x _. set_solver.
  - rewrite Nat.add_0_r. do 3 f_equal. apply map_eq. intros k. apply option_eq. intros x.
    rewrite !map_lookup_filter_Some. cbn. split; [|set_solver]. intros [Hk Hv]. split; [done|]. set_solver.
Qed.

Lemma pending_fuel cache : pending cache ∅ = sum_list (role_weight <$> map_to_list cache).
Proof.
  unfold pending. do 3 f_equal. apply map_filter_id. intros k x _. set_solver.
Qed.

(** *** The loop *)

(** What was visited, and what is still in the queue. *)
Record visits cache ids visited q (result : list RoleInfo) : Prop := {
  visits_result : ∃ ks, lists_roles cache ks result ∧ ∀ k, k ∈ ks ↔ k ∈ visited ∧ is_Some (cache !! k);
  visits_start : ∀ a, a ∈ ids → a ∈ visited ∨ a ∈ q;
  visits_closed : ∀ a b, a ∈ visited → role_edge cache a b → b ∈ visited ∨ b ∈ q;
  visits_sound : ∀ a, a ∈ visited ∨ a ∈ q → role_reaches cache ids a;
}.

Lemma visits_skip cache ids visited r q result :
  r ∈ visited → visits cache ids visited (r :: q) result → visits cache ids visited q result.
Proof. intros Hr [H1 H2 H3 H4]. split; [done|set_solver..]. Qed.

Lemma visits_missing cache ids visited r q result :
  cache !! r = None → visits cache ids visited (r :: q) result → visits cache ids ({[r]} ∪ visited) q result.
Proof.
  intros Hr [(ks & Hks & Hk) H2 H3 H4]. split; [|set_solver| |set_solver].
  - exists ks. split; [done|]. intros k. rewrite Hk, elem_of_union, elem_of_singleton. split; [tauto|].
    intros [[->|?] [x Hx]]; [congruence|]. split; [done|by exists x].
  - intros a b [->%elem_of_singleton|Ha]%elem_of_union Hab; [|set_solver]. destruct Hab as (ri & Hri & _). congruence.
Qed.

Lemma visits_role cache ids visited r q result ri :
  r ∉ visited → cache !! r = Some ri → visits cache ids visited (r :: q) result →
  visits cache ids ({[r]} ∪ visited) (q ++ roles (ri_grants ri)) (result ++ [ri]).
Proof.
  intros Hn Hr [(ks & [Hnd Hks] & Hk) H2 H3 H4]. split.
  - exists (ks ++ [r]). split; [split|].
    + apply NoDup_app. split; [done|]. split; [|apply NoDup_singleton]. intros k Hin ->%list_elem_of_singleton.
      by apply Hk in Hin as [? _].
    + apply Forall2_app; [done|]. by repeat constructor.
    + intros k. rewrite elem_of_app, list_elem_of_singleton, Hk, elem_of_union, elem_of_singleton.
      split; [intros [?| ->]; [tauto|]; eauto|naive_solver].
  - set_solver.
  - intros a b [->%elem_of_singleton|Ha]%elem_of_union Hab; [|specialize (H3 a b Ha Hab); set_solver].
    destruct Hab as (ri' & Hri & Hb). simplify_eq. right. apply elem_of_app. right. by apply elem_of_roles.
  - intros a. rewrite elem_of_union, elem_of_app, elem_of_singleton, elem_of_roles.
    intros [[->|Ha]|[Ha|Ha]]; [apply H4; set_solver..|].
    destruct (H4 r) as (a0 & Ha0 & Hreach); [set_solver|]. exists a0. split; [done|]. eapply rtc_r; [done|]. by exists ri.
Qed.

Lemma visits_done cache ids visited result :
  visits cache ids visited [] result →
  ∃ ks, lists_roles cache ks result ∧ ∀ k, k ∈ ks ↔ is_Some (cache !! k) ∧ role_reaches cache ids k.
Proof.
  intros [(ks & Hks & Hk) H2 H3 H4]. exists ks. split; [done|]. intros k. rewrite Hk.
  assert (k ∈ visited ↔ role_reaches cache ids k); [|tauto]. split; [intros; apply H4; by left|].
  intros (a & Ha & Hr). assert (a ∈ visited) as Hv by (destruct (H2 a Ha); set_solver). clear Ha.
  induction Hr as [|a b c Hab _ IH]; [done|]. apply IH. destruct (H3 a b Hv Hab); set_solver.
Qed.

Lemma related_loop_spec cache ids n visited q result :
  length q + pending cache visited ≤ n → visits cache ids visited q result →
  ∃ ks, lists_roles cache ks (related_loop n cache visited q result) ∧
    ∀ k, k ∈ ks ↔ is_Some (cache !! k) ∧ role_reaches cache ids k.
Proof.
  revert visited q result. induction n as [|n IH]; intros visited [|r q] result Hn Hv; cbn in Hn |- *;
    try (by eapply visits_done); [lia|].
  case_decide as Hr; [apply IH; [lia|by eapply visits_skip]|].
  pose proof (pending_visit cache visited r Hr) as Hp. destruct (cache !! r) as [ri|] eqn:E.
  - apply IH; [rewrite length_app; lia|by apply visits_role].
  - apply IH; [lia|by apply visits_missing].
Qed.

(** More fuel changes nothing. *)
Lemma related_loop_fuel cache n n' visited q result :
  length q + pending cache visited ≤ n → length q + pending cache visited ≤ n' →
  related_loop n cache visited q result = related_loop n' cache visited q result.
Proof.
  revert n' visited q result. induction n as [|n IH]; intros [|n'] visited [|r q] result Hn Hn'; cbn in *; try lia; try done.
  case_decide as Hr; [apply IH; lia|].
  pose proof (pending_visit cache visited r Hr) as Hp. destruct (cache !! r) as [ri|] eqn:E;
    apply IH; rewrite ?length_app; lia.
Qed.

Lemma related_fuel_enough cache q : length q + pending cache ∅ ≤ related_fuel cache q.
Proof. rewrite pending_fuel. done. Qed.

Lemma all_roles_listed cache :
  lists_roles cache (hash_iter (dom cache)) (omap (λ k, cache !! k) (hash_iter (dom cache))).
Proof.
  pose proof (hash_iter_elements (dom cache)) as Hp. split; [rewrite Hp; apply NoDup_elements|].
  assert (∀ k, k ∈ hash_iter (dom cache) → k ∈ dom cache) as Hin.
  { intros k. by rewrite Hp, elem_of_elements. }
  clear Hp. induction (hash_iter (dom cache)) as [|k l IH]; [constructor|].
  destruct (cache !! k) as [ri|] eqn:E.
  - cbn. rewrite E. constructor; [done|]. apply IH. intros k' Hk'. apply Hin. by right.
  - exfalso. apply not_elem_of_dom in E. apply E, Hin. by left.
Qed.

Lemma related_roles_spec cache ids :
  ∃ ks, lists_roles cache ks (find_all_related_roles cache ids) ∧
    ∀ k, k ∈ ks ↔ is_Some (cache !! k) ∧
      (BUILTIN_ROLE_ACCOUNT_ADMIN ∈ ids ∨ role_reaches cache (ids ++ [BUILTIN_ROLE_PUBLIC]) k).
Proof.
  unfold find_all_related_roles. case_decide as Hadmin.
  - exists (hash_iter (dom cache)). split; [apply all_roles_listed|]. intros k.
    rewrite hash_iter_elements, elem_of_elements, elem_of_dom. tauto.
  - destruct (related_loop_spec cache (ids ++ [BUILTIN_ROLE_PUBLIC]) (related_fuel cache (ids ++ [BUILTIN_ROLE_PUBLIC])) ∅
      (ids ++ [BUILTIN_ROLE_PUBLIC]) []) as (ks & Hks & Hk).
    + apply related_fuel_enough.
    + split; [|set_solver|set_solver|].
      * exists []. split; [by repeat constructor|]. set_solver.
      * intros a [?|Ha]; [set_solver|]. by exists a.
    + exists ks. split; [done|]. intros k. rewrite Hk. tauto.
Qed.
End related.
