(* ===== verification/KvClock.v ===== *)
(** Protocols that keep an invariant of the key-values, for clients that go on after
    an error: what each request of such a client has to show. *)

From stdpp Require Import base orders sorting strings gmap numbers list relations.
From S2P Require Import Prelude BTree RustStr External ExpireKey MetaTypes Marked MapApi Level StateMap.
From S2P Require Import Txn StateMachine Applier ApplierSpec StateMachineProofs ApplierProofs ApplyProofs.
From S2P Require Import SpecFacts Replica SMV003 KeyCodec AppKeys KVApi ProtoConv MetaApi ClientProofs ServeProofs IdProofs KvProtocol ClockPool.
Local Open Scope N_scope.

Implicit Types (kv : gmap string (SeqV bytes)) (k : string).

Section protocol.
Context {raft : OpenRaft} (D : string → Prop) (I : gmap string (SeqV bytes) → Prop)
  (R : relation (gmap string (SeqV bytes))) `{!KvInvariant D I R}.
Implicit Types (st : Spec) (T : gset N) (w : N * Spec).

Definition kv_clock : ClockProtocol := {|
  cgood w := I (sp_kv w.2); crely w w' := kv_rely R w.2 w'.2; clevel _ := 0;
|}.

#[export] Instance kv_clock_laws : ClockLaws kv_clock (avoids_keys D).
Proof.
  split; cbn.
  - split; [intros w; exact (reflexivity (R := kv_rely R) w.2)|]. intros w1 w2 w3 H1 H2. exact (transitivity (R := kv_rely R) H1 H2).
  - intros _ st st' (Hk & Hs & _). unfold kv_rely, evolves. rewrite Hk, Hs. split; [split; [done|by left]|done].
  - intros _ st st' (Hk & _). by rewrite Hk.
  - done.
  - intros B req _ now st Ha HI Hg _ Hnow Hroom. by apply (serve_avoids D).
Qed.

Abbreviation ksafe := (csafe kv_clock).

(** A request and what it may change; nothing is known after an error. *)
Lemma ksafe_call {A B} (Q : Post A) (req : KVReq B) f T w :
  (∀ e T' w', ksafe Q (f (inr e)) T' w') →
  (∀ st now, kv_rely R w.2 st → Inv st → I (sp_kv st) → now < u64_mod → sequence (sp_sys st) + req_cost req + 1 < u64_mod →
    let st' := (sp_serve now req st).1 in
    (I (sp_kv st') ∧ R (sp_kv st) (sp_kv st')) ∧
    (kv_rely R st st' → ksafe Q (f (inl (sp_serve now req st).2)) T (now, st'))) →
  ksafe Q (Call req f) T w.
Proof.
  intros He Hf. split; [exact He|]. intros t st now Hr HI Hg Ht Hnow Hroom. cbn in Hr, Hg.
  destruct (Hf st now Hr HI Hg Hnow Hroom) as [[Hg' HR] Hs].
  assert (kv_rely R st (sp_serve now req st).1) as Hr' by (split; [by apply serve_evolves|done]).
  split_and!; [done|done|]. exists T. split; [by left|]. by apply Hs.
Qed.

(** ** Reading *)

(** What was read with its version. *)
Definition seen st k (v : SeqV bytes) : Prop :=
  ∃ v0, versioned st k v0 ∧ seq v0 = seq v ∧ data v0 = data v.

Lemma seen_mono st st' k v : evolves st st' → seen st k v → seen st' k v.
Proof. intros He (v0 & Hv & H). exists v0. split; [by eapply versioned_mono|done]. Qed.

Lemma seen_now st k v0 : Inv st → sp_kv st !! k = Some v0 → seen st k (SeqV_of_pb (pb_SeqV_of v0)).
Proof. intros HI Hv. exists v0. split; [exists st; split_and!; [done|by split; [|left]|done]|done]. Qed.

(** A version that was seen and is there now. *)
Lemma seen_same st kv k v :
  seen st k v → stays k (sp_kv st) kv → opt_seq (kv !! k) = seq v →
  ∃ v0, kv !! k = Some v0 ∧ seq v0 = seq v ∧ data v0 = data v.
Proof.
  intros (v0 & Hv & Hs & Hd) Hst Hsq. exists v0. split; [|done]. eapply versioned_same; [done|done|congruence].
Qed.

Lemma ksafe_read {A} (Q : Post A) k (F : option (SeqV bytes) → Client A) T w :
  (∀ st1 now o, kv_rely R w.2 st1 → I (sp_kv st1) →
    (∀ v, o = Some v → seen st1 k v ∧ ∃ v0, sp_kv st1 !! k = Some v0 ∧ data v0 = data v) → ksafe Q (F o) T (now, st1)) →
  ksafe Q (client_bind F (get_kv k)) T w.
Proof.
  intros HF. client_run. apply ksafe_call; [done|]. intros st now Hr HI Hg Hnow _. cbn [sp_serve fst snd fmap list_fmap].
  split; [split; [done|apply kv_preorder]|]. intros _. client_run. apply HF; [done|done|].
  intros v Hv. unfold stream_item in Hv. cbn [si_value] in Hv. apply fmap_Some in Hv as (p & Hp & ->).
  apply fmap_Some in Hp as (v0 & Hv0 & ->). cbn [snd] in Hv0. unfold non_expired in Hv0.
  destruct (opt_is_expired _ _); [done|]. split; [by apply seen_now|by exists v0].
Qed.

Lemma collect_list (l : list (string * SeqV bytes)) :
  collect_items (λ item, match si_value item with
      | Some v => mret (si_key item, SeqV_of_pb v) | None => Done CPanic end)
    ((λ x : string * SeqV bytes, inl (stream_item (x.1, Some x.2))) <$> l) =
  mret ((λ x, (x.1, SeqV_of_pb (pb_SeqV_of x.2))) <$> l).
Proof. induction l as [|[x v] l IH]; [done|]. cbn in *. by rewrite IH. Qed.

(** Every key that a list has was seen. *)
Definition all_seen st (l : list (string * SeqV bytes)) : Prop := Forall (λ x, seen st x.1 x.2) l.

Lemma all_seen_mono st st' l : evolves st st' → all_seen st l → all_seen st' l.
Proof. intros He Hl. apply (Forall_impl _ _ _ Hl). intros x. by apply seen_mono. Qed.

Lemma ksafe_list {A} (Q : Post A) p (F : list (string * SeqV bytes) → Client A) T w :
  (∀ st1 now l, kv_rely R w.2 st1 → I (sp_kv st1) → all_seen st1 l →
    Forall (λ x, starts_with x.1 p = true ∧ is_Some (sp_kv st1 !! x.1)) l → ksafe Q (F l) T (now, st1)) →
  ksafe Q (client_bind F (prefix_list_kv p)) T w.
Proof.
  intros HF. unfold prefix_list_kv. client_run. apply ksafe_call; [done|]. intros st now Hr HI Hg Hnow _.
  cbn [sp_serve fst snd]. split; [split; [done|apply kv_preorder]|]. intros _. client_run. rewrite collect_list. client_run.
  assert (∀ x v, (x, v) ∈ sp_list (filter (λ x, seqv_is_expired x.2 now = false) (sp_kv st)) p →
    starts_with x p = true ∧ sp_kv st !! x = Some v) as Hl.
  { intros x v. unfold sp_list. rewrite list_elem_of_filter, elem_of_btree_iter, map_lookup_filter_Some. tauto. }
  apply HF; [done|done|..]; apply Forall_fmap, Forall_forall; intros [x v] [Hx Hv]%Hl; cbn; [by apply seen_now|by split; [|exists v]].
Qed.

(** ** Writing *)

(** What leaves the keys alone. *)
Lemma untouched kv kv' : I kv → (∀ k, D k → kv' !! k = kv !! k) → I kv' ∧ R kv kv'.
Proof. intros HI H. apply kv_stays; [done|]. intros k Hk. left. by apply H. Qed.

Lemma ksafe_update {A} (Q : Post A) k ms b f T w :
  (∀ e T' w', ksafe Q (f (inr e)) T' w') →
  (∀ st kv v, kv_rely R w.2 st → Inv st → (∀ k, stays k (sp_kv st) kv) → I kv →
    match_seq_err ms (opt_seq (kv !! k)) = false → lasting v → data v = b → I (<[k := v]> kv) ∧ R kv (<[k := v]> kv)) →
  (∀ st now res, kv_rely R w.2 st → ksafe Q (f (inl res)) T (now, st)) →
  ksafe Q (Call (ReqUpsertKV {| ukey := k; useq := ms; uvalue := Update b; uvalue_meta := None |}) f) T w.
Proof.
  intros He Hw Hf. apply ksafe_call; [exact He|]. intros st now Hr HI Hg Hnow Hroom. cbn [req_cost cmd_cost uvalue] in Hroom.
  assert (sequence (sp_sys st) + 1 < u64_mod) as Hs by lia.
  pose proof (serve_update now st k ms b HI Hnow Hs) as Hu. cbv zeta in Hu. set (r := sp_serve now _ st) in *.
  set (kv := sp_kv (sp_clean now _ st)) in *.
  assert (∀ k, stays k (sp_kv st) kv) as Hst by (intros k'; by apply clean_stays).
  destruct (kv_stays (sp_kv st) kv Hg) as [Hkv HR]; [auto|]. split.
  - destruct (match_seq_err ms _) eqn:E; [by destruct Hu as [_ ->]|]. destruct Hu as (_ & -> & _).
    destruct (Hw st kv (mk_SeqV (sequence (sp_sys st) + 1) None b)) as [H1 H2]; [done..|]. split; [done|by etrans].
  - intros Hr'. apply Hf. by etrans.
Qed.

Lemma ksafe_delete {A} (Q : Post A) k f T w :
  (∀ e T' w', ksafe Q (f (inr e)) T' w') →
  (∀ st kv, kv_rely R w.2 st → Inv st → (∀ k, stays k (sp_kv st) kv) → I kv → I (delete k kv) ∧ R kv (delete k kv)) →
  (∀ st now res, kv_rely R w.2 st → ksafe Q (f (inl res)) T (now, st)) →
  ksafe Q (Call (ReqUpsertKV (upsert_delete k)) f) T w.
Proof.
  intros He Hw Hf. apply ksafe_call; [exact He|]. intros st now Hr HI Hg Hnow Hroom.
  assert (sequence (sp_sys st) + 1 < u64_mod) as Hs by lia.
  destruct (sp_clean_spec now (cmd_ctx_from_millis now) st HI Hnow Hs) as (HI1 & _).
  destruct (upsert_delete_spec k (cmd_ctx_from_millis now) _ (inv_positive _ HI1)) as (st' & E & Hk).
  set (kv := sp_kv (sp_clean now _ st)) in *.
  assert (∀ k, stays k (sp_kv st) kv) as Hst by (intros k'; by apply clean_stays).
  destruct (kv_stays (sp_kv st) kv Hg) as [Hkv HR]; [auto|]. split; [|intros Hr'; apply Hf; by etrans].
  cbn [sp_serve]. rewrite E. cbn [fst]. rewrite Hk. destruct (Hw st kv) as [H1 H2]; [done..|]. split; [done|by etrans].
Qed.

Lemma ksafe_txn {A} {sj : SerdeJson} (Q : Post A) conds ops (F : bool * list TxnOpResponse → Client A) T w :
  plain ops →
  (∀ st kv kv', kv_rely R w.2 st → Inv st → (∀ k, stays k (sp_kv st) kv) → I kv →
    Forall (λ c : string * N, opt_seq (kv !! c.1) = c.2) conds → writes_to ops kv kv' → I kv' ∧ R kv kv') →
  (∀ st now x, kv_rely R w.2 st → ksafe Q (F x) T (now, st)) →
  ksafe Q (client_bind F (send_txn (txn_new ((λ c, cond_eq_seq c.1 c.2) <$> conds) ops))) T w.
Proof.
  intros Hpl Hw Hf. client_run. apply ksafe_call; [done|]. intros st now Hr HI Hg Hnow Hroom.
  assert (sequence (sp_sys st) + 1 < u64_mod) as Hs by lia.
  destruct (serve_plain now st conds ops HI Hnow Hs Hpl) as (Her & Hsucc & Htrue & Hfalse).
  set (kv := sp_kv (sp_clean now _ st)) in *. set (r := sp_serve now _ st) in *.
  assert (∀ k, stays k (sp_kv st) kv) as Hst by (intros k; by apply clean_stays).
  destruct (kv_stays (sp_kv st) kv Hg) as [Hkv HR]; [auto|]. split.
  - assert (I (sp_kv r.1) ∧ R kv (sp_kv r.1)) as [HI2 HR2]; [|split; [done|by etrans]].
    destruct (reply_success r.2) eqn:Es; [|rewrite Hfalse by done; split; [done|apply kv_preorder]].
    apply (Hw st kv); [done..| |by apply Htrue]. symmetry in Hsucc. by apply bool_decide_eq_true in Hsucc.
  - intros Hr'. client_run. unfold txn_reply_to_api_result. rewrite Her. client_run. apply Hf. by etrans.
Qed.
End protocol.

(** Handling the errors of a client that establishes [Q]. *)
Lemma csafe_try_post {raft : OpenRaft} {A} (P : ClockProtocol) (Q : Post A) (c : Client A) T w :
  csafe P Q c T w → csafe P (λ r T w, match r with inl a => Q a T w | inr _ => True end) (try_client c) T w.
Proof.
  revert T w. induction c as [[a|e|]|B req k IH]; intros T w Hc; [done|done|done|].
  exact (csafe_call _ _ _ _ _ _ _ _ Hc IH).
Qed.
