(* ===== verification/RoleProofs.v ===== *)
(** Roles: their keys, the roles that a state has, and the protocol that concurrent
    calls keep. *)

From stdpp Require Import base orders sorting strings gmap numbers list relations.
From S2P Require Import Prelude BTree RustStr External ExpireKey MetaTypes Marked MapApi Level StateMap.
From S2P Require Import Txn StateMachine Applier ApplierSpec StateMachineProofs ApplierProofs ApplyProofs.
From S2P Require Import SpecFacts Replica SMV003 KeyCodec KeyCodecProofs AppKeys AppKeysProofs KVApi ProtoConv MetaApi.
From S2P Require Import ClientProofs ServeProofs IdProofs KvProtocol Database ClockPool KvClock Grants GrantProofs RoleTypes Roles.
Local Open Scope N_scope.

Implicit Types (kv : gmap string (SeqV bytes)) (tn : Tenant) (r x : string) (o : OwnershipObject).

(** ** Keys *)

Definition role_str tn r : string := join_with slash ["__fd_roles"; escape (tenant tn); escape r].
Definition role_dir tn : string := join_with slash ["__fd_roles"; escape (tenant tn); ""].
Definition owner_str tn o : string := join_with slash ("__fd_object_owners" :: escape (tenant tn) :: ownership_segs o).
Definition owner_dir tn : string := join_with slash ["__fd_object_owners"; escape (tenant tn); ""].
Definition in_roles tn x : Prop := starts_with x (role_dir tn) = true.

Lemma builder_segs p segs :
  prefix_ok p → Forall (λ s, is_utf8 s = true) segs →
  builder_done (push_all segs (key_builder_prefixed p)) = KOk (join_with slash (p :: segs)).
Proof.
  intros (Hne & _ & Hu) Hs. unfold builder_done. rewrite push_all_buf by done.
  cbn [key_builder_prefixed push_raw key_builder_new buf]. rewrite from_utf8_Some; [done|]. apply join_utf8. by constructor.
Qed.

Lemma role_prefix_ok : prefix_ok "__fd_roles".
Proof. split_and!; done || reflexivity. Qed.
Lemma owner_prefix_ok : prefix_ok "__fd_object_owners".
Proof. split_and!; done || reflexivity. Qed.

Lemma role_string m r : to_string_key (role_ident m r) = KOk (role_str (rm_tenant m) r).
Proof.
  apply (builder_segs "__fd_roles" [_; _]); [apply role_prefix_ok|]. repeat constructor; auto with datafuse.
Qed.
Lemma role_prefix_string m : role_prefix m = KOk (role_dir (rm_tenant m)).
Proof.
  apply (builder_segs "__fd_roles" [_; _]); [apply role_prefix_ok|]. repeat constructor; auto with datafuse.
Qed.
Lemma owner_string m o : to_string_key (ownership_object_ident m o) = KOk (owner_str (rm_tenant m) o).
Proof.
  unfold owner_str. rewrite <-(builder_segs "__fd_object_owners"); [|apply owner_prefix_ok|].
  - unfold to_string_key. cbn [encode_key tident_codec]. unfold tident_encode. cbn [HAS_TENANT tenant_ownership_object_rsc tident_name tident_tenant ownership_object_ident tident_new].
    cbn [encode_key ownership_codec]. by rewrite ownership_encode_segs.
  - constructor; [apply escape_utf8|]. destruct o; cbn -[escape dec_string]; try case_decide; repeat constructor; auto with datafuse.
Qed.
Lemma owner_prefix_string m : ownership_object_prefix m = KOk (owner_dir (rm_tenant m)).
Proof.
  apply (builder_segs "__fd_object_owners" [_; _]); [apply owner_prefix_ok|]. repeat constructor; auto with datafuse.
Qed.

Lemma role_str_dir tn r : role_str tn r = role_dir tn +:+ escape r.
Proof. unfold role_str, role_dir. rewrite !join_cons. by repeat (rewrite <-str_app_assoc || rewrite str_app_cons). Qed.

Lemma escape_inj x y : escape x = escape y → x = y.
Proof. intros E. pose proof (unescape_go_escape x) as H. rewrite E, unescape_go_escape in H. by injection H. Qed.
Lemma role_str_inj tn r r' : role_str tn r = role_str tn r' → r = r'.
Proof.
  intros E. apply (f_equal (split_on slash)) in E. unfold role_str in E. rewrite !split_join in E.
  - injection E as E. by apply escape_inj.
  - done.
  - repeat constructor; apply escape_segment.
  - done.
  - repeat constructor; apply escape_segment.
Qed.

Lemma role_str_in tn r : in_roles tn (role_str tn r).
Proof. unfold in_roles. rewrite starts_with_iff. exists (escape r). apply role_str_dir. Qed.

(** The keys of owners are not keys of roles. *)
Lemma owner_not_role tn tn' x : starts_with x (owner_dir tn') = true → ¬ in_roles tn x.
Proof.
  unfold in_roles. rewrite !starts_with_iff. intros [y ->] [z E]. unfold owner_dir, role_dir in E. rewrite !join_cons in E. done.
Qed.
Lemma owner_str_in tn o : starts_with (owner_str tn o) (owner_dir tn) = true.
Proof.
  rewrite starts_with_iff. exists (join_with slash (ownership_segs o)). unfold owner_str, owner_dir.
  destruct (ownership_segs o) as [|y l] eqn:E; [destruct o; cbn in E; try case_decide; done|].
  rewrite !join_cons. by repeat (rewrite <-str_app_assoc || rewrite str_app_cons).
Qed.

#[global] Opaque role_str role_dir owner_str owner_dir.

(** ** Roles *)

(** [serde_json] gives values whose integers fit. *)
Class JsonDecodeLaws (T : Type) `{!FromToProto T, !FromToProtoLaws T, !JsonDecode T} : Prop := {
  json_decode_fits : ∀ b (v : T), json_decode b = Some v → value_fits v;
}.

Section roles.
Context {raft : OpenRaft} {ch : Chrono} `{!ChronoLaws ch} {cd : ChronoDefault ch}.
Context {fl : PrivilegeFlags} `{!EnumFlagsLaws UserPrivilegeType privilege_value} {ho : HashOrder} `{!HashOrderLaws ho}.
Context `{!ProstMessage pb_RoleInfo, !ProstLaws pb_RoleInfo pb_role_fits}.
Context {jr : JsonDecode RoleInfo} `{!JsonDecodeLaws RoleInfo}.
Context (tn : Tenant).
Implicit Types (ri : RoleInfo) (v : SeqV bytes).

(** The role of some bytes: a message, or JSON. *)
Definition read_role (b : bytes) : option RoleInfo :=
  match decode_pb b with Some ri => Some ri | None => json_decode b end.
Definition role_at kv r : option RoleInfo := v ← kv !! role_str tn r; read_role (data v).

Lemma read_role_fits b ri : read_role b = Some ri → role_fits ri.
Proof.
  unfold read_role. destruct (decode_pb b) as [ri'|] eqn:E; intros H; [|exact (json_decode_fits b ri H)].
  injection H as ->. exact (pb_decode_fits b ri E).
Qed.
Lemma read_encoded ri : role_fits ri → ∃ b, encode_pb ri = Some b ∧ read_role b = Some ri.
Proof. intros Hf. destruct (pb_roundtrip (FromToProtoLaws := role_info_proto_laws) ri Hf) as (b & Hb & Hd). exists b. split; [done|]. unfold read_role. by rewrite Hd. Qed.

(** The keys of roles have roles of this name, which do not expire. *)
Definition roles_ok kv : Prop :=
  ∀ x v, in_roles tn x → kv !! x = Some v →
    lasting v ∧ ∃ ri, read_role (data v) = Some ri ∧ x = role_str tn (ri_name ri).

Lemma roles_ok_name kv r v ri :
  roles_ok kv → kv !! role_str tn r = Some v → read_role (data v) = Some ri → ri_name ri = r.
Proof.
  intros Hok Hv Hd. destruct (Hok _ v (role_str_in tn r) Hv) as (_ & ri' & Hd' & E). apply role_str_inj in E.
  congruence.
Qed.

Lemma role_at_stays kv kv' r : roles_ok kv → stays (role_str tn r) kv kv' → role_at kv' r = role_at kv r.
Proof.
  intros Hok Hst. unfold role_at. destruct (kv !! role_str tn r) as [v|] eqn:Hv.
  - by rewrite (stays_lasting _ _ _ _ Hst Hv) by apply (Hok _ v (role_str_in tn r) Hv).
  - destruct Hst as [->|[-> _]]; [by rewrite Hv|done].
Qed.
Lemma roles_ok_stays kv kv' : roles_ok kv → (∀ x, in_roles tn x → stays x kv kv') → roles_ok kv'.
Proof. intros Hok Hst x v Hx Hv. apply (Hok x v Hx). by apply (stays_back x kv kv'); [apply Hst|]. Qed.

Lemma role_at_put kv r v ri r' :
  read_role (data v) = Some ri → role_at (<[role_str tn r := v]> kv) r' = if decide (r' = r) then Some ri else role_at kv r'.
Proof.
  intros Hd. unfold role_at. case_decide as E.
  - subst r'. by rewrite lookup_insert_eq.
  - rewrite lookup_insert_ne; [done|]. by intros ->%role_str_inj.
Qed.
Lemma role_at_delete kv r r' : role_at (delete (role_str tn r) kv) r' = if decide (r' = r) then None else role_at kv r'.
Proof.
  unfold role_at. case_decide as E.
  - subst r'. by rewrite lookup_delete_eq.
  - rewrite lookup_delete_ne; [done|]. by intros ->%role_str_inj.
Qed.

Lemma roles_ok_put kv r v ri :
  roles_ok kv → lasting v → read_role (data v) = Some ri → ri_name ri = r → roles_ok (<[role_str tn r := v]> kv).
Proof.
  intros Hok Hl Hd Hn x v' Hx [[<- <-]|[_ Hv']]%lookup_insert_Some; [|by apply Hok]. split; [done|]. exists ri. by rewrite Hn.
Qed.
Lemma roles_ok_delete kv x : roles_ok kv → roles_ok (delete x kv).
Proof. intros Hok x' v Hx [_ Hv]%lookup_delete_Some. by apply Hok. Qed.

(** ** The protocol *)

(** [effects r] is what the calls do to the role [r] in one step. *)
Context (effects : string → relation (option RoleInfo)).

Definition role_rely kv kv' : Prop := ∀ r, rtc (effects r) (role_at kv r) (role_at kv' r).
Definition role_inv kv0 kv : Prop := roles_ok kv ∧ role_rely kv0 kv.

#[export] Instance role_rely_preorder : PreOrder role_rely.
Proof.
  split; [by intros kv r|]. intros kv1 kv2 kv3 H1 H2 r. etrans; [apply H1|apply H2].
Qed.

#[export] Instance role_invariant kv0 : KvInvariant (in_roles tn) (role_inv kv0) role_rely.
Proof.
  split; [apply _|]. intros kv kv' [Hok H0] Hst.
  assert (role_rely kv kv') as Hr.
  { intros r. rewrite (role_at_stays kv kv' r); [done|done|]. apply Hst, role_str_in. }
  split; [|done]. split; [by eapply roles_ok_stays|by etrans].
Qed.

(** Writing a role. *)
Lemma role_put_ok kv0 kv r v ri :
  role_inv kv0 kv → lasting v → read_role (data v) = Some ri → ri_name ri = r →
  rtc (effects r) (role_at kv r) (Some ri) →
  role_inv kv0 (<[role_str tn r := v]> kv) ∧ role_rely kv (<[role_str tn r := v]> kv).
Proof.
  intros [Hok H0] Hl Hd Hn He. assert (role_rely kv (<[role_str tn r := v]> kv)) as Hr.
  { intros r'. rewrite (role_at_put kv r v ri) by done. by case_decide as E; [subst r'|]. }
  split; [|done]. split; [by eapply roles_ok_put|by etrans].
Qed.
Lemma role_delete_ok kv0 kv r :
  role_inv kv0 kv → rtc (effects r) (role_at kv r) None →
  role_inv kv0 (delete (role_str tn r) kv) ∧ role_rely kv (delete (role_str tn r) kv).
Proof.
  intros [Hok H0] He. assert (role_rely kv (delete (role_str tn r) kv)) as Hr.
  { intros r'. rewrite role_at_delete. by case_decide as E; [subst r'|]. }
  split; [|done]. split; [by eapply roles_ok_delete|by etrans].
Qed.
End roles.
