(* ===== verification/RoleCalls.v ===== *)
(** Concurrent calls on roles keep the protocol: each call changes a role in one step,
    or not at all. *)

From stdpp Require Import base orders sorting strings gmap numbers list relations.
From S2P Require Import Prelude BTree RustStr External ExpireKey MetaTypes Marked MapApi Level StateMap.
From S2P Require Import Txn StateMachine Applier ApplierSpec StateMachineProofs ApplierProofs ApplyProofs.
From S2P Require Import SpecFacts Replica SMV003 KeyCodec KeyCodecProofs AppKeys AppKeysProofs KVApi ProtoConv MetaApi.
From S2P Require Import ClientProofs ServeProofs IdProofs KvProtocol Database DatabaseCalls ClockPool KvClock Grants GrantProofs RoleTypes Roles RoleProofs.
Local Open Scope N_scope.

Implicit Types (kv : gmap string (SeqV bytes)) (m : RoleMgr) (r x : string) (v : SeqV bytes).

(** ** Changes of roles that keep their integers in range *)

Section fits.
Context {ch : Chrono} {fl : PrivilegeFlags} `{!EnumFlagsLaws UserPrivilegeType privilege_value}.
Implicit Types (ri : RoleInfo) (s : UserGrantSet).

Lemma grants_fit_grant o a s : u64s (grant_object_ids o) → grants_fit s → grants_fit (grant_privileges o a s).
Proof.
  unfold grants_fit, grant_privileges. rewrite grant_entries_eq. intros Ho Hs. cbn [orb app].
  assert (Forall (λ e, u64s (grant_object_ids (ge_object e))) (granted_entry o a <$> gs_entries s)) as Hm.
  { apply Forall_fmap. apply (Forall_impl _ _ _ Hs). intros e. cbn. by rewrite granted_entry_object. }
  destruct (existsb _ _); cbn [gs_entries]; [done|]. apply Forall_app. split; [done|]. by apply Forall_singleton.
Qed.
Lemma grants_fit_revoke o a s : grants_fit s → grants_fit (revoke_privileges o a s).
Proof.
  unfold grants_fit, revoke_privileges. cbn [gs_entries]. rewrite !Forall_forall. intros Hs e.
  intros [_ (e' & -> & He')%list_elem_of_fmap]%list_elem_of_filter. rewrite revoke_entry_object. by apply Hs.
Qed.

(** The change keeps the name and the range of the integers. *)
Definition keeps (f : RoleInfo → RoleInfo) : Prop := ∀ ri, ri_name (f ri) = ri_name ri ∧ (role_fits ri → role_fits (f ri)).
End fits.

Section calls.
Context {raft : OpenRaft} {sj : SerdeJson} {ch : Chrono} `{!ChronoLaws ch} {cd : ChronoDefault ch}.
Context {fl : PrivilegeFlags} `{!EnumFlagsLaws UserPrivilegeType privilege_value} {ho : HashOrder} `{!HashOrderLaws ho}.
Context `{!ProstMessage pb_RoleInfo, !ProstLaws pb_RoleInfo pb_role_fits, !ProstMessage pb_OwnershipInfo}.
Context {jr : JsonDecode RoleInfo} `{!JsonDecodeLaws RoleInfo} {jo : JsonDecode OwnershipInfo}.
Context (tn : Tenant) (effects : string → relation (option RoleInfo)) (kv0 : gmap string (SeqV bytes)).
Implicit Types (ri : RoleInfo) (T : gset N) (w : N * Spec) (st : Spec).

Abbreviation rely := (kv_rely (role_rely tn effects)).
Abbreviation inv := (role_inv tn effects kv0).
Abbreviation protocol := (kv_clock inv (role_rely tn effects)).
Abbreviation rsafe := (csafe protocol).
Abbreviation D := (in_roles tn).

(** ** Reading *)

(** What is known of a value that was seen, in a later state of the role. *)
Lemma seen_role st kv r v ri :
  seen st (role_str tn r) v → (∀ x, stays x (sp_kv st) kv) → opt_seq (kv !! role_str tn r) = seq v →
  read_role (data v) = Some ri → role_at tn kv r = Some ri.
Proof.
  intros Hs Hst Hsq Hd. destruct (seen_same st kv _ v Hs (Hst _) Hsq) as (v0 & Hv0 & _ & Hd0).
  unfold role_at. rewrite Hv0. cbn. by rewrite Hd0.
Qed.

(** Upgrading the bytes of a role keeps the role. *)
Lemma upgrade_safe (q : Quota) r v T w :
  seen w.2 (role_str tn r) v →
  rsafe (λ res _ w', match res.2 with inl u => rely w.2 w'.2 ∧ read_role (data v) = Some (data u) | inr _ => True end)
    (check_and_upgrade_to_pb q (role_str tn r) v) T w.
Proof.
  intros Hseen. unfold check_and_upgrade_to_pb.
  assert (read_role (data v) = match decode_pb (data v) with Some ri => Some ri | None => json_decode (data v) end) as Hread by done.
  destruct (decode_pb (data v)) as [ri|] eqn:Ed; [by split|].
  destruct (json_decode (data v)) as [ri|] eqn:Ej; [|done]. destruct (is_used_up q); [by split|].
  assert (role_fits ri) as Hfit by (eapply read_role_fits; exact Hread).
  destruct (read_encoded ri Hfit) as (b & Hb & Hrb). rewrite Hb. cbn [try_client request reply_result mbind Client_bind client_bind].
  apply (ksafe_update D inv (role_rely tn effects)); [done| |by intros st now res Hr; split].
  intros st kv v' Hr HI Hst [Hok H0] Hm Hl Hdata. cbn in Hm. unfold match_seq_err, match_seq in Hm.
  destruct (N.eqb_spec (opt_seq (kv !! role_str tn r)) (seq v)) as [Hsq|]; [|done].
  assert (seen st (role_str tn r) v) as Hseen' by (eapply seen_mono; [apply Hr|done]).
  pose proof (seen_role st kv r v ri Hseen' Hst Hsq Hread) as Hat.
  destruct (seen_same st kv _ v Hseen' (Hst _) Hsq) as (v0 & Hv0 & _ & Hd0).
  eapply role_put_ok; [done|done|by rewrite Hdata| |by rewrite Hat].
  eapply roles_ok_name; [done|exact Hv0|by rewrite Hd0].
Qed.

(** Upgrading other values. *)
Lemma upgrade_other_safe {V} `{!FromToProto V, !JsonDecode V} q x v T w :
  ¬ D x → rsafe (λ _ _ _, True) (check_and_upgrade_to_pb (T := V) q x v) T w.
Proof.
  intros Hx. unfold check_and_upgrade_to_pb. destruct (decode_pb (data v)); [done|].
  destruct (json_decode (data v)) as [y|]; [|done]. destruct (is_used_up q); [done|]. destruct (encode_pb y); [|done].
  cbn [try_client request reply_result mbind Client_bind client_bind].
  apply (ksafe_update D inv (role_rely tn effects)); [done| |done]. intros st kv v' _ _ _ Hinv _ _ _.
  apply (untouched D inv (role_rely tn effects)); [done|]. intros k Hk. apply lookup_insert_ne. by intros ->.
Qed.

(** A role that was read, with its version. *)
Definition knows_role r (sv : SeqV RoleInfo) st : Prop :=
  ri_name (data sv) = r ∧ ∃ v, seen st (role_str tn r) v ∧ seq v = seq sv ∧ read_role (data v) = Some (data sv).

Lemma get_role_safe m r ms T w :
  rm_tenant m = tn → rsafe (λ sv _ w', knows_role r sv w'.2) (get_role m r ms) T w.
Proof.
  intros Hm. unfold get_role. rewrite role_string, Hm. client_binds.
  apply (ksafe_read D inv (role_rely tn effects)). intros st now [v|] Hr [Hok _] Hv; [|done].
  destruct (match_seq ms (seq v)) as [[]|c]; [|done]. destruct (Hv v eq_refl) as [Hseen (v0 & Hv0 & Hd0)].
  eapply csafe_bind; [by apply upgrade_safe|]. intros [q [u|e]] T' w' Hu; [|done]. destruct Hu as [Hr' Hread]. cbn [snd] in *.
  split; cbn [data seqv_new seq]; [eapply roles_ok_name; [done|exact Hv0|by rewrite Hd0]|]. exists v.
  split; [|done]. eapply seen_mono; [apply Hr'|done].
Qed.

Lemma upgrade_roles_safe q l T w :
  all_seen w.2 l → Forall (λ x : string * SeqV bytes, ∃ r, x.1 = role_str tn r) l → rsafe (λ _ _ _, True) (upgrade_roles q l) T w.
Proof.
  intros Hl Hs. revert q T w Hl. induction Hs as [|[x v] l [r Hx] _ IH]; intros q T w Hl; [done|]. cbn [fst] in Hx. subst x.
  apply Forall_cons in Hl as [Hv Hl]. cbn [upgrade_roles]. eapply csafe_bind; [by apply upgrade_safe|].
  intros [q' [u|e]] T' w' Hu; [|done]. destruct Hu as [Hr _]. cbn [or_throw]. client_binds.
  eapply csafe_bind; [apply IH; eapply all_seen_mono; [apply Hr|done]|done].
Qed.

Lemma get_meta_roles_safe m T w : rm_tenant m = tn → rsafe (λ _ _ _, True) (get_meta_roles m) T w.
Proof.
  intros Hm. unfold get_meta_roles, get_raw_meta_roles. rewrite role_prefix_string, Hm. client_binds.
  apply (ksafe_list D inv (role_rely tn effects)). intros st now l Hr [Hok _] Hseen Hl. apply upgrade_roles_safe; [done|].
  apply (Forall_impl _ _ _ Hl). intros [x v] [Hx [v0 Hv0]]. destruct (Hok x v0 Hx Hv0) as (_ & ri & _ & E). by exists (ri_name ri).
Qed.

Lemma upgrade_owners_safe q l T w :
  Forall (λ x : string * SeqV bytes, ¬ D x.1) l → rsafe (λ _ _ _, True) (upgrade_owners q l) T w.
Proof.
  intros Hl. revert q T w. induction Hl as [|[x v] l Hx _ IH]; intros q T w; [done|]. cbn [upgrade_owners].
  eapply csafe_bind; [by apply upgrade_other_safe|]. intros [q' u] T' w' _. eapply csafe_bind; [apply IH|done].
Qed.

Lemma get_ownerships_safe m T w : rm_tenant m = tn → rsafe (λ _ _ _, True) (get_ownerships m) T w.
Proof.
  intros Hm. unfold get_ownerships. rewrite owner_prefix_string, Hm. client_binds.
  apply (ksafe_list D inv (role_rely tn effects)). intros st now l Hr _ _ Hl. apply upgrade_owners_safe.
  apply (Forall_impl _ _ _ Hl). intros [x v] [Hx _]. by eapply owner_not_role.
Qed.

Lemma get_ownership_safe m o T w : rm_tenant m = tn → rsafe (λ _ _ _, True) (get_ownership m o) T w.
Proof.
  intros Hm. unfold get_ownership. rewrite owner_string, Hm. client_binds.
  apply (ksafe_read D inv (role_rely tn effects)). intros st now [v|] Hr _ _; [|done].
  eapply csafe_bind; [apply upgrade_other_safe, (owner_not_role tn tn), owner_str_in|]. by intros [q [u|e]] T' w' _.
Qed.

(** ** Writing *)

(** Writing a role whose version was read. *)
Lemma upsert_role_safe m r sv ri T w :
  rm_tenant m = tn → knows_role r sv w.2 → ri_name ri = r → role_fits ri →
  rtc (effects r) (Some (data sv)) (Some ri) → rsafe (λ _ _ _, True) (upsert_role_info m ri (Exact (seq sv))) T w.
Proof.
  intros Hm [Hn (v & Hseen & Hsq & Hread)] Hname Hfit He. unfold upsert_role_info, serialize_struct, identity.
  rewrite role_string, Hm, Hname. destruct (read_encoded ri Hfit) as (b & -> & Hb). client_binds.
  apply (ksafe_update D inv (role_rely tn effects)); [done| |].
  2: { intros st now res _. client_binds. by destruct (ch_result res). }
  intros st kv v' Hr HI Hst Hinv Hms Hl Hdata. unfold match_seq_err, match_seq in Hms.
  destruct (N.eqb_spec (opt_seq (kv !! role_str tn r)) (seq sv)) as [Hq|]; [|done].
  apply role_put_ok with ri; [done|done|by rewrite Hdata|done|].
  rewrite (seen_role st kv r v (data sv)); [done|eapply seen_mono; [apply Hr|done]|done|congruence|done].
Qed.

Lemma update_role_safe m r ms f T w :
  rm_tenant m = tn → keeps f → (∀ ri, effects r (Some ri) (Some (f ri))) →
  rsafe (λ _ _ _, True) (update_role_with m r ms f) T w.
Proof.
  intros Hm Hf He. unfold update_role_with. eapply csafe_bind; [by apply get_role_safe|].
  intros sv T' w' Hk. eapply csafe_bind; [|done]. destruct (Hk) as [Hn (v & _ & _ & Hread)].
  destruct (Hf (data sv)) as [Hname Hfit]. apply (upsert_role_safe m r sv); [done|done|congruence|by eapply Hfit, read_role_fits|].
  by apply rtc_once.
Qed.

Lemma add_role_safe m ri T w :
  rm_tenant m = tn → role_fits ri → effects (ri_name ri) None (Some ri) → rsafe (λ _ _ _, True) (add_role m ri) T w.
Proof.
  intros Hm Hfit He. unfold add_role, serialize_struct, identity. rewrite role_string, Hm.
  destruct (read_encoded ri Hfit) as (b & -> & Hb). client_binds.
  apply (ksafe_update D inv (role_rely tn effects)); [done| |].
  2: { intros st now res _. client_binds. by destruct (added_seq_or_else res). }
  intros st kv v Hr HI Hst Hinv Hms Hl Hdata. unfold match_seq_err, match_seq in Hms.
  destruct (N.eqb_spec (opt_seq (kv !! role_str tn (ri_name ri))) 0) as [Hq|]; [|done].
  apply role_put_ok with ri; [done|done|by rewrite Hdata|done|].
  unfold role_at. rewrite (version_zero st kv _ HI (Hst _) Hq). by apply rtc_once.
Qed.

Lemma drop_role_safe m r T w :
  rm_tenant m = tn → (∀ ri, effects r (Some ri) None) → rsafe (λ _ _ _, True) (drop_role m r (GE 1)) T w.
Proof.
  intros Hm He. unfold drop_role. rewrite role_string, Hm. client_binds.
  apply (ksafe_delete D inv (role_rely tn effects)); [done| |].
  2: { intros st now res _. client_binds. by destruct (removed_or_else res). }
  intros st kv _ _ _ Hinv. apply role_delete_ok; [done|]. unfold role_at.
  destruct (kv !! role_str tn r) as [v|] eqn:Hv; [|done]. cbn. destruct Hinv as [Hok _].
  destruct (Hok _ v (role_str_in tn r) Hv) as (_ & ri & -> & _). by apply rtc_once.
Qed.
(** ** Owners *)

Definition eq_conds (cs : list (string * N)) : list TxnCondition := (λ c, cond_eq_seq c.1 c.2) <$> cs.

(** Transactions that write only keys of owners. *)
Definition owner_puts (es : list (string * bytes)) : Prop := Forall (λ e, ¬ D e.1) es.

Lemma owner_key_free o : ¬ D (owner_str tn o).
Proof. apply (owner_not_role tn tn), owner_str_in. Qed.

Lemma transfer_owners_done m role owns nt cs es :
  rm_tenant m = tn → owner_puts es →
  (∃ nt' cs' es', transfer_owners m role owns nt (eq_conds cs) (put_all es) =
     mret (nt', eq_conds cs', put_all es') ∧ owner_puts es') ∨
  ∃ e, transfer_owners m role owns nt (eq_conds cs) (put_all es) = throw e.
Proof.
  intros Hm. revert nt cs es. induction owns as [|own owns IH]; intros nt cs es Hes; cbn [transfer_owners].
  { left. by eexists _, _, _. }
  case_decide; [|by apply IH]. unfold serialize_struct. destruct (encode_pb _) as [b|]; [|right; by eexists].
  unfold txn_cond_seq, txn_op_put. rewrite owner_string, Hm. client_binds.
  destruct (IH true (cs ++ [(owner_str tn (oi_object (data own)), seq own)])
    (es ++ [(owner_str tn (oi_object (data own)), b)])) as [H'|H'].
  { apply Forall_app. split; [done|]. apply Forall_singleton. apply owner_key_free. }
  all: unfold eq_conds, put_all in H'; rewrite !fmap_app in H'; (left; exact H') || (right; exact H').
Qed.

Lemma puts_untouched es kv kv' : owner_puts es → inv kv → writes_to (put_all es) kv kv' → inv kv' ∧ role_rely tn effects kv kv'.
Proof.
  intros Hes Hinv Hw. apply (untouched D inv (role_rely tn effects)); [done|]. intros k Hk. specialize (Hw k).
  rewrite last_effect_puts in Hw; [done|]. intros (e & -> & He)%list_elem_of_fmap.
  by apply (proj1 (Forall_forall _ _) Hes e He).
Qed.

Lemma transfer_safe m role T w : rm_tenant m = tn → rsafe (λ _ _ _, True) (transfer_ownership_to_admin m role) T w.
Proof.
  intros Hm. apply (csafe_trials _ (λ _ _, True)); [|done]. intros i T1 w1 _. eapply csafe_bind; [by apply get_ownerships_safe|].
  intros owns T2 w2 _. destruct (transfer_owners_done m role owns false [] [] Hm) as [(nt & cs & es & E & Hes)|[e E]]; [constructor| |].
  all: change (eq_conds []) with (@nil TxnCondition) in E; change (put_all []) with (@nil TxnOp) in E; rewrite E; client_binds.
  2: done.
  destruct nt; [|done]. apply (ksafe_txn D inv (role_rely tn effects)); [apply plain_puts| |].
  - intros st kv kv' _ _ _ Hinv _. by apply puts_untouched.
  - by intros st now [[] ?] _.
Qed.

(** The old owner of an object loses the privilege. *)
Definition disowned (now : nat → DateTime) o (i : nat) ri : RoleInfo :=
  update_role_time (now i) (map_grants (revoke_privileges (convert_to_grant_obj o) OWNERSHIP) ri).

Lemma disowned_keeps now o i : keeps (disowned now o i).
Proof. intros ri. split; [done|]. apply grants_fit_revoke. Qed.

(** A transaction that writes the owner, and the old owner under its version. *)
Lemma disown_txn_safe {A} (Q : Post A) now o i r sv op0 y b (F : bool * list TxnOpResponse → Client A) T w :
  knows_role r sv w.2 → op_effect op0 = Some (owner_str tn o, y) → encode_pb (disowned now o i (data sv)) = Some b →
  (∀ ri, effects r (Some ri) (Some (disowned now o i ri))) →
  (∀ st now res, rsafe Q (F res) T (now, st)) →
  rsafe Q (client_bind F (send_txn (txn_new [cond_eq_seq (role_str tn r) (seq sv)] [op0; op_put (role_str tn r) b]))) T w.
Proof.
  intros [Hn (v & Hseen & Hsq & Hread)] Hop Hb He HF.
  apply (ksafe_txn D inv (role_rely tn effects) Q [(role_str tn r, seq sv)]); [by repeat (constructor; [by eexists|])| |by intros; apply HF].
  intros st kv kv' Hr HI Hst Hinv Hc Hw. apply Forall_cons_1 in Hc as [Hc _]. cbn [fst snd] in Hc.
  assert (role_fits (disowned now o i (data sv))) as Hfit.
  { by eapply disowned_keeps, read_role_fits. }
  destruct (read_encoded _ Hfit) as (b' & Hb' & Hrb). rewrite Hb in Hb'. injection Hb' as <-.
  pose proof (Hw (role_str tn r)) as Hv'. cbn in Hv'. rewrite decide_True in Hv' by done. destruct Hv' as (v' & Hv' & Hl & Hdata).
  destruct (role_put_ok tn effects kv0 kv r v' (disowned now o i (data sv))) as [Hinv1 Hr1]; [done|done|by rewrite Hdata|done| |].
  { rewrite (seen_role st kv r v (data sv)); [by apply rtc_once|eapply seen_mono; [apply Hr|done]|done|congruence|done]. }
  destruct (untouched D inv (role_rely tn effects) (<[role_str tn r := v']> kv) kv') as [Hinv2 Hr2]; [done| |split; [done|by etrans]].
  intros k Hk. destruct (decide (role_str tn r = k)) as [<-|Hne]; [by rewrite lookup_insert_eq|].
  rewrite lookup_insert_ne by done. specialize (Hw k). cbn in Hw. rewrite decide_False in Hw by done. rewrite Hop in Hw. cbn in Hw.
  rewrite decide_False in Hw; [done|]. intros <-. by apply (owner_key_free o).
Qed.

(** A transaction that writes the owner. *)
Lemma own_txn_safe {A} (Q : Post A) o op0 y (F : bool * list TxnOpResponse → Client A) T w :
  op_effect op0 = Some (owner_str tn o, y) → (∀ st now res, rsafe Q (F res) T (now, st)) →
  rsafe Q (client_bind F (send_txn (txn_new [] [op0]))) T w.
Proof.
  intros Hop HF. apply (ksafe_txn D inv (role_rely tn effects) Q []); [by repeat (constructor; [by eexists|])| |by intros; apply HF].
  intros st kv kv' _ _ _ Hinv _ Hw. apply (untouched D inv (role_rely tn effects)); [done|]. intros k Hk. specialize (Hw k).
  cbn in Hw. rewrite Hop in Hw. cbn in Hw. rewrite decide_False in Hw; [done|]. intros <-. by apply (owner_key_free o).
Qed.

(** What the transaction of [grant_ownership] and [revoke_ownership] is made of. *)
Definition own_txn now o i (op0 : TxnOp) (x : list TxnCondition * list TxnOp) w : Prop :=
  x = ([], [op0]) ∨
  ∃ r sv b, knows_role r sv w.2 ∧ encode_pb (disowned now o i (data sv)) = Some b ∧
    x = ([cond_eq_seq (role_str tn r) (seq sv)], [op0; op_put (role_str tn r) b]).

Lemma own_finish_safe now o i op0 y (x : list TxnCondition * list TxnOp) T w :
  (∀ r i ri, effects r (Some ri) (Some (disowned now o i ri))) → op_effect op0 = Some (owner_str tn o, y) →
  own_txn now o i op0 x w →
  rsafe (λ a _ _, match a with Some _ => True | None => True end)
    (client_bind (λ '(succ, _), mret (if (succ : bool) then Some tt else None)) (send_txn (txn_new x.1 x.2))) T w.
Proof.
  intros He Hop [->|(r & sv & b & Hk & Hb & ->)]; cbn [fst snd].
  - eapply (own_txn_safe _ o); [done|by intros st t [[] ?]].
  - eapply disown_txn_safe; [done|done|done|auto|by intros st t [[] ?]].
Qed.

Lemma grant_ownership_safe m now o new_role T w :
  rm_tenant m = tn → (∀ r i ri, effects r (Some ri) (Some (disowned now o i ri))) →
  rsafe (λ _ _ _, True) (grant_ownership m now o new_role) T w.
Proof.
  intros Hm He. apply (csafe_trials _ (λ _ _, True)); [|done]. intros i T1 w1 _.
  eapply csafe_bind; [by apply get_ownership_safe|]. intros owner T2 w2 _. unfold serialize_struct.
  destruct (encode_pb {| oi_object := o; oi_role := new_role |}) as [b0|]; [|done].
  unfold txn_op_put, txn_cond_seq. rewrite owner_string, Hm. client_binds. set (op0 := op_put (owner_str tn o) b0).
  eapply (csafe_bind _ (λ ops _ w, own_txn now o i op0 ops w)).
  2: { intros [cs ops] T3 w3 Hx. by apply (own_finish_safe now o i op0 (Some b0) (cs, ops)). }
  destruct owner as [owner|]; client_binds; [|by left]. eapply csafe_bind; [by apply csafe_try_post, get_role_safe|].
  intros [sv|e] T3 w3 Hk; [|by left]. rewrite role_string, Hm. client_binds.
  destruct (encode_pb (update_role_time _ _)) as [b|] eqn:Eb; client_binds; [|done]. right. by exists (oi_role owner), sv, b.
Qed.

Lemma revoke_ownership_safe m now o T w :
  rm_tenant m = tn → (∀ r i ri, effects r (Some ri) (Some (disowned now o i ri))) →
  rsafe (λ _ _ _, True) (revoke_ownership m now o) T w.
Proof.
  intros Hm He. apply (csafe_trials _ (λ _ _, True)); [|done]. intros i T1 w1 _.
  eapply csafe_bind; [by apply get_ownership_safe|]. intros owner T2 w2 _.
  unfold txn_op_put, txn_op_del, txn_cond_seq, serialize_struct. rewrite owner_string, Hm. client_binds.
  set (op0 := op_delete (owner_str tn o)).
  eapply (csafe_bind _ (λ ops _ w, own_txn now o i op0 ops w)).
  2: { intros [cs ops] T3 w3 Hx. by apply (own_finish_safe now o i op0 None (cs, ops)). }
  destruct owner as [owner|]; client_binds; [|by left]. eapply csafe_bind; [by apply csafe_try_post, get_role_safe|].
  intros [sv|e] T3 w3 Hk; [|by left]. destruct (verify_privilege _ _ _); [|by left]. rewrite role_string, Hm. client_binds.
  destruct (encode_pb (update_role_time _ _)) as [b|] eqn:Eb; client_binds; [|done]. right. by exists (oi_role owner), sv, b.
Qed.
(** ** The provider *)

Lemma provider_get_safe m now r T w : rm_tenant m = tn → rsafe (λ _ _ _, True) (provider_get_role m now r) T w.
Proof.
  intros Hm. unfold provider_get_role. destruct (builtin_roles now !! r); [done|].
  eapply csafe_bind; [by apply get_role_safe|done].
Qed.
Lemma get_roles_safe m now T w : rm_tenant m = tn → rsafe (λ _ _ _, True) (get_roles m now) T w.
Proof. intros Hm. eapply csafe_bind; [by apply get_meta_roles_safe|done]. Qed.
Lemma exists_safe m now r T w : rm_tenant m = tn → rsafe (λ _ _ _, True) (exists_role m now r) T w.
Proof.
  intros Hm. eapply csafe_bind; [by apply csafe_try, provider_get_safe|]. by intros [ri|[e| |e|[]]] T' w' _.
Qed.

Lemma provider_add_safe m now ri b T w :
  rm_tenant m = tn → role_fits ri → effects (ri_name ri) None (Some ri) →
  rsafe (λ _ _ _, True) (provider_add_role m now ri b) T w.
Proof.
  intros Hm Hfit He. unfold provider_add_role. eapply (csafe_bind _ (λ _ _ _, True)).
  { destruct b; [by apply exists_safe|done]. }
  intros [] T' w' _; [done|]. eapply csafe_bind; [by apply csafe_try, add_role_safe|].
  intros [n|[e| |e|[]]] T2 w2 _; try done. by destruct b.
Qed.
Lemma provider_drop_safe m r b T w :
  rm_tenant m = tn → (∀ ri, effects r (Some ri) None) → rsafe (λ _ _ _, True) (provider_drop_role m r b) T w.
Proof.
  intros Hm He. eapply csafe_bind; [by apply transfer_safe|]. intros [] T1 w1 _.
  eapply csafe_bind; [by apply csafe_try, drop_role_safe|]. intros [[]|[e| |e|[]]] T2 w2 _; try done. by destruct b.
Qed.
Lemma provider_get_ownership_safe m now o T w : rm_tenant m = tn → rsafe (λ _ _ _, True) (provider_get_ownership m now o) T w.
Proof.
  intros Hm. eapply csafe_bind; [by apply get_ownership_safe|]. intros [owner|] T1 w1 _; [|done].
  eapply csafe_bind; [by apply exists_safe|done].
Qed.
Lemma grant_role_safe m now time target grant T w :
  rm_tenant m = tn → (∀ ri, effects target (Some ri) (Some (map_grants (grant_role grant) (update_role_time time ri)))) →
  rsafe (λ _ _ _, True) (grant_role_to_role m now time target grant) T w.
Proof.
  intros Hm He. unfold grant_role_to_role. eapply (csafe_bind _ (λ _ _ _, True)).
  - eapply csafe_bind; [by apply get_roles_safe|done].
  - intros rs T1 w1 _. destruct (existsb _ _); [done|]. by apply update_role_safe.
Qed.
End calls.

(** ** Calls and what they do to a role *)

Section role_call.
Context {sj : SerdeJson} {ch : Chrono} {cd : ChronoDefault ch} {fl : PrivilegeFlags} {ho : HashOrder}.
Context `{!ProstMessage pb_RoleInfo, !ProstMessage pb_OwnershipInfo, !JsonDecode RoleInfo, !JsonDecode OwnershipInfo}.

Inductive RoleCall :=
| CallAddRole (now : DateTime) (role_info : RoleInfo) (if_not_exists : bool)
| CallDropRole (role : string) (if_exists : bool)
| CallGrantPrivileges (now : DateTime) (role : string) (object : GrantObject) (privileges : BitFlags)
| CallRevokePrivileges (now : DateTime) (role : string) (object : GrantObject) (privileges : BitFlags)
| CallGrantRole (now time : DateTime) (target_role grant : string)
| CallRevokeRole (now : DateTime) (role revoked : string)
| CallGrantOwnership (now : DateTime) (time : nat → DateTime) (object : OwnershipObject) (new_role : string)
| CallRevokeOwnership (time : nat → DateTime) (object : OwnershipObject)
| CallGetRole (now : DateTime) (role : string)
| CallGetRoles (now : DateTime)
| CallGetOwnership (now : DateTime) (object : OwnershipObject)
| CallGetOwnerships.

(** The call, without its result. *)
Definition role_call m (c : RoleCall) : Client unit :=
  match c with
  | CallAddRole now ri b => _ ← provider_add_role m now ri b; mret tt
  | CallDropRole r b => provider_drop_role m r b
  | CallGrantPrivileges now r o a => _ ← grant_privileges_to_role m now r o a; mret tt
  | CallRevokePrivileges now r o a => _ ← revoke_privileges_from_role m now r o a; mret tt
  | CallGrantRole now time target grant => _ ← grant_role_to_role m now time target grant; mret tt
  | CallRevokeRole now r revoked => _ ← revoke_role_from_role m now r revoked; mret tt
  | CallGrantOwnership now time o r => grant_ownership_to_role m now time o r
  | CallRevokeOwnership time o => revoke_ownership m time o
  | CallGetRole now r => _ ← provider_get_role m now r; mret tt
  | CallGetRoles now => _ ← get_roles m now; mret tt
  | CallGetOwnership now o => _ ← provider_get_ownership m now o; mret tt
  | CallGetOwnerships => _ ← provider_get_ownerships m; mret tt
  end.

(** The integers of the arguments fit. *)
Definition call_fits (c : RoleCall) : Prop :=
  match c with
  | CallAddRole _ ri _ => role_fits ri
  | CallGrantPrivileges _ _ o _ => u64s (grant_object_ids o)
  | _ => True
  end.

(** What the call does to the role [r]; the owner of an object may be any role. *)
Definition call_effect (c : RoleCall) r (x y : option RoleInfo) : Prop :=
  match c with
  | CallAddRole _ ri _ => r = ri_name ri ∧ x = None ∧ y = Some ri
  | CallDropRole r' _ => r = r' ∧ is_Some x ∧ y = None
  | CallGrantPrivileges now r' o a =>
      r = r' ∧ ∃ ri, x = Some ri ∧ y = Some (map_grants (grant_privileges o a) (update_role_time now ri))
  | CallRevokePrivileges now r' o a =>
      r = r' ∧ ∃ ri, x = Some ri ∧ y = Some (map_grants (revoke_privileges o a) (update_role_time now ri))
  | CallGrantRole _ time target grant =>
      r = target ∧ ∃ ri, x = Some ri ∧ y = Some (map_grants (grant_role grant) (update_role_time time ri))
  | CallRevokeRole now r' revoked =>
      r = r' ∧ ∃ ri, x = Some ri ∧ y = Some (map_grants (revoke_role revoked) (update_role_time now ri))
  | CallGrantOwnership _ time o _ | CallRevokeOwnership time o =>
      ∃ i ri, x = Some ri ∧ y = Some (disowned time o i ri)
  | _ => False
  end.
End role_call.

Section role_calls.
Context {raft : OpenRaft} {sj : SerdeJson} {ch : Chrono} `{!ChronoLaws ch} {cd : ChronoDefault ch}.
Context {fl : PrivilegeFlags} `{!EnumFlagsLaws UserPrivilegeType privilege_value} {ho : HashOrder} `{!HashOrderLaws ho}.
Context `{!ProstMessage pb_RoleInfo, !ProstLaws pb_RoleInfo pb_role_fits, !ProstMessage pb_OwnershipInfo}.
Context {jr : JsonDecode RoleInfo} `{!JsonDecodeLaws RoleInfo} {jo : JsonDecode OwnershipInfo}.

Lemma role_call_safe tn effects kv0 m c T w :
  rm_tenant m = tn → call_fits c → (∀ r a b, call_effect c r a b → effects r a b) →
  csafe (kv_clock (role_inv tn effects kv0) (role_rely tn effects)) (λ _ _ _, True) (role_call m c) T w.
Proof.
  intros Hm Hfit He. destruct c; cbn [role_call call_effect call_fits] in *.
  - eapply csafe_bind; [apply provider_add_safe; [done..|by apply He]|done].
  - apply provider_drop_safe; [done|]. intros ri. apply He. by split_and!.
  - eapply csafe_bind; [apply update_role_safe; [done| |]|done].
    + intros ri. split; [done|]. by apply grants_fit_grant.
    + intros ri. apply He. split; [done|by eexists].
  - eapply csafe_bind; [apply update_role_safe; [done| |]|done].
    + intros ri. split; [done|]. apply grants_fit_revoke.
    + intros ri. apply He. split; [done|by eexists].
  - eapply csafe_bind; [apply grant_role_safe; [done|]|done]. intros ri. apply He. split; [done|by eexists].
  - eapply csafe_bind; [apply update_role_safe; [done|done|]|done]. intros ri. apply He. split; [done|by eexists].
  - eapply csafe_bind; [by apply provider_get_safe|]. intros ri T1 w1 _. apply grant_ownership_safe; [done|].
    intros r i ri'. apply He. by exists i, ri'.
  - apply revoke_ownership_safe; [done|]. intros r i ri. apply He. by exists i, ri.
  - eapply csafe_bind; [by apply provider_get_safe|done].
  - eapply csafe_bind; [by apply get_roles_safe|done].
  - eapply csafe_bind; [by apply provider_get_ownership_safe|done].
  - eapply (csafe_bind _ (λ _ _ _, True)); [|done]. eapply csafe_bind; [by apply get_ownerships_safe|done].
Qed.
End role_calls.
