(* ===== verification/RoleRuns.v ===== *)
(** What the operations on roles do when no other client disturbs them. *)

From stdpp Require Import base orders sorting strings gmap numbers list relations.
From S2P Require Import Prelude BTree RustStr External ExpireKey MetaTypes Marked MapApi Level StateMap.
From S2P Require Import Txn StateMachine Applier ApplierSpec StateMachineProofs ApplierProofs ApplyProofs.
From S2P Require Import SpecFacts Replica SMV003 MemMetaProofs KeyCodec KeyCodecProofs AppKeys AppKeysProofs KVApi ProtoConv MetaApi.
From S2P Require Import ClientProofs ServeProofs IdProofs KvProtocol Database DatabaseCalls DatabaseRuns ClockPool KvClock.
From S2P Require Import Grants GrantProofs RoleTypes Roles RelatedProofs RoleProofs RoleCalls.
Local Open Scope N_scope.

Implicit Types (kv : gmap string (SeqV bytes)) (m : RoleMgr) (r x : string) (v : SeqV bytes).

(** ** Collecting roles by their names *)

Section collect.
Context {ch : Chrono} {fl : PrivilegeFlags}.
Implicit Types (ri : RoleInfo) (l : list RoleInfo).

Definition collect l : gmap string RoleInfo := foldl (λ cache ri, <[identity ri := ri]> cache) ∅ l.

Lemma collect_from l (cache : gmap string RoleInfo) r ri :
  NoDup (ri_name <$> l) →
  (foldl (λ cache ri, <[identity ri := ri]> cache) cache l) !! r = Some ri ↔
  (ri ∈ l ∧ ri_name ri = r) ∨ (¬ r ∈ ri_name <$> l ∧ cache !! r = Some ri).
Proof.
  revert cache. induction l as [|a l IH]; intros cache Hnd; cbn [foldl]; [set_solver|].
  cbn in Hnd. apply NoDup_cons in Hnd as [Ha Hnd]. rewrite (IH _ Hnd). unfold identity. cbn [fmap list_fmap].
  rewrite !elem_of_cons. destruct (decide (ri_name a = r)) as [<-|Hne].
  - rewrite lookup_insert_eq. split; [naive_solver|]. intros [[[->|Hin] Hn]|[Hn _]]; [by right|by left|tauto].
  - rewrite lookup_insert_ne by done. naive_solver.
Qed.
Lemma collect_lookup l r ri : NoDup (ri_name <$> l) → collect l !! r = Some ri ↔ ri ∈ l ∧ ri_name ri = r.
Proof. intros Hnd. unfold collect. rewrite collect_from by done. rewrite lookup_empty. naive_solver. Qed.
End collect.

Section runs.
Context {raft : OpenRaft} {Mp : Type} `{!StateMap raft Mp, !StateMapLaws Mp} (now : N) (Hnow : now < u64_mod).
Context {sj : SerdeJson} {ch : Chrono} `{!ChronoLaws ch} {cd : ChronoDefault ch}.
Context {fl : PrivilegeFlags} `{!EnumFlagsLaws UserPrivilegeType privilege_value} {ho : HashOrder} `{!HashOrderLaws ho}.
Context `{!ProstMessage pb_RoleInfo, !ProstLaws pb_RoleInfo pb_role_fits, !ProstMessage pb_OwnershipInfo}.
Context {jr : JsonDecode RoleInfo} `{!JsonDecodeLaws RoleInfo} {jo : JsonDecode OwnershipInfo}.
Context (m : RoleMgr).
Implicit Types (s : StateMachine Mp) (ri : RoleInfo).

Abbreviation kvs s := (kvv (sm_map s)).
Abbreviation tn := (rm_tenant m).

(** ** Reading *)

(** No value has to be upgraded. *)
Definition upgraded kv : Prop :=
  ∀ x v, in_roles tn x → kv !! x = Some v → rm_upgrade_to_pb m = false ∨ is_Some (decode_pb (T := RoleInfo) (data v)).

Lemma check_upgraded q x v ri :
  read_role (data v) = Some ri → is_used_up q = true ∨ is_Some (decode_pb (T := RoleInfo) (data v)) →
  check_and_upgrade_to_pb q x v = mret (q, inl (seqv_new (seq v) ri)).
Proof.
  unfold read_role, check_and_upgrade_to_pb. destruct (decode_pb (data v)) as [ri'|]; [by intros [= ->]|].
  intros -> [->|[? [=]]]. done.
Qed.
Lemma quota_upgraded v :
  rm_upgrade_to_pb m = false ∨ is_Some (decode_pb (T := RoleInfo) (data v)) →
  is_used_up (quota (rm_upgrade_to_pb m)) = true ∨ is_Some (decode_pb (T := RoleInfo) (data v)).
Proof. intros [->|?]; [by left|by right]. Qed.

Lemma run_read_key x s :
  sm_ok s → (∀ v, kvs s !! x = Some v → lasting v) → mem_run now (get_kv x) s = (s, COk (kvs s !! x)).
Proof.
  intros Hok Hl. client_run. cbn [mem_run]. rewrite mem_serve_get by done. client_run. unfold stream_item. cbn [si_value snd].
  destruct (kvs s !! x) as [v|] eqn:Hv.
  - specialize (Hl v eq_refl). rewrite lasting_read by done. client_run. by rewrite lasting_pb.
  - unfold non_expired. by destruct (opt_is_expired None now).
Qed.

Lemma run_get_role r ms v ri s :
  sm_ok s → roles_ok tn (kvs s) → upgraded (kvs s) → kvs s !! role_str tn r = Some v → read_role (data v) = Some ri →
  match_seq_err ms (seq v) = false → mem_run now (get_role m r ms) s = (s, COk (seqv_new (seq v) ri)).
Proof.
  intros Hok Hr Hu Hv Hd Hms. unfold get_role. rewrite role_string. client_binds.
  etrans; [apply (run_step _ _ _ _ _ _ (run_read_key (role_str tn r) s Hok (λ v Hv, proj1 (Hr _ v (role_str_in tn r) Hv))))|].
  rewrite Hv. unfold match_seq_err in Hms. destruct (match_seq ms (seq v)); [|done].
  rewrite (check_upgraded _ _ v ri Hd); [done|]. by apply quota_upgraded, (Hu _ _ (role_str_in tn r) Hv).
Qed.
Lemma run_get_role_none r ms s :
  sm_ok s → kvs s !! role_str tn r = None → mem_run now (get_role m r ms) s = (s, CErr (EQuery UnknownRole)).
Proof.
  intros Hok Hv. unfold get_role. rewrite role_string. client_binds.
  etrans; [apply (run_step _ _ _ s s None); etrans; [apply run_read_key; [done|by rewrite Hv]|by rewrite Hv]|done].
Qed.

(** *** All roles *)

Lemma Forall_choice {X Y} (P : X → Y → Prop) (l : list X) : Forall (λ a, ∃ b, P a b) l → ∃ k, Forall2 P l k.
Proof. induction 1 as [|a l [b Hb] _ [k Hk]]; [by exists []|]. exists (b :: k). by constructor. Qed.

Lemma upgrade_roles_list (q : Quota) (l : list (string * SeqV bytes)) (ris : list RoleInfo) :
  Forall2 (λ e ri, read_role (data e.2) = Some ri ∧
    (is_used_up q = true ∨ is_Some (decode_pb (T := RoleInfo) (data e.2)))) l ris →
  upgrade_roles q l = mret ((λ e, seqv_new (seq e.1.2) e.2) <$> zip l ris).
Proof.
  induction 1 as [|[x v] ri l ris [Hd Hq] _ IH]; [done|]. cbn [upgrade_roles]. rewrite (check_upgraded q x v ri Hd Hq).
  client_binds. cbn [or_throw]. client_binds. by rewrite IH.
Qed.

(** The stored roles, in the order of their keys. *)
Lemma run_meta_roles s :
  sm_ok s → roles_ok tn (kvs s) → upgraded (kvs s) →
  ∃ us, mem_run now (get_meta_roles m) s = (s, COk us) ∧ NoDup (ri_name <$> (data <$> us)) ∧
    ∀ ri, ri ∈ data <$> us ↔ role_at tn (kvs s) (ri_name ri) = Some ri.
Proof.
  intros Hok Hr Hu. unfold get_meta_roles, get_raw_meta_roles, prefix_list_kv. rewrite role_prefix_string. client_run.
  cbn [mem_run]. rewrite mem_serve_list by done. client_run. cbn [sp_serve snd]. rewrite collect_list. client_run.
  set (l := sp_list _ _).
  assert (∀ x v, (x, v) ∈ l ↔ in_roles tn x ∧ kvs s !! x = Some v) as Hl.
  { intros x v. unfold l, sp_list. rewrite list_elem_of_filter, elem_of_btree_iter, map_lookup_filter_Some. cbn.
    split; [tauto|]. intros [Hx Hv]. split_and!; [done..|]. destruct (Hr x v Hx Hv) as [Hlast _]. unfold seqv_is_expired.
    rewrite lasting_expires by done. apply N.ltb_ge. unfold u64_max. lia. }
  assert (NoDup l.*1) as Hnd.
  { apply NoDup_fmap_filter. unfold btree_iter. rewrite merge_sort_Permutation. apply NoDup_fst_map_to_list. }
  assert ((λ e, (e.1, SeqV_of_pb (pb_SeqV_of e.2))) <$> l = l) as ->.
  { rewrite <-(list_fmap_id l) at 2. apply list_fmap_ext. intros i [x v] Hi%list_elem_of_lookup_2. apply Hl in Hi as [Hx Hv].
    cbn. rewrite lasting_pb; [done|]. by apply (Hr x v). }
  destruct (Forall_choice (λ (e : string * SeqV bytes) ri, (read_role (data e.2) = Some ri ∧
      (is_used_up (quota (rm_upgrade_to_pb m)) = true ∨ is_Some (decode_pb (T := RoleInfo) (data e.2)))) ∧
      e.1 = role_str tn (ri_name ri)) l) as [ris Hris].
  { apply Forall_forall. intros [x v] [Hx Hv]%Hl. destruct (Hr x v Hx Hv) as (_ & ri & Hd & ->). exists ri. cbn.
    split; [|done]. split; [done|]. by eapply quota_upgraded, Hu. }
  rewrite (upgrade_roles_list _ l ris) by (eapply Forall2_impl; [exact Hris|by intros ? ? [? _]]). client_binds. cbn [mem_run].
  eexists. split; [done|].
  assert (data <$> ((λ e, seqv_new (seq e.1.2) e.2) <$> zip l ris) = ris) as ->.
  { rewrite <-list_fmap_compose. rewrite <-(snd_zip l ris) at 2 by (apply Forall2_length in Hris; lia). done. }
  assert (l.*1 = role_str tn <$> (ri_name <$> ris)) as Hkeys.
  { clear -Hris. induction Hris as [|[x v] ri l ris [_ E] _ IH]; [done|]. cbn in *. by rewrite E, IH. }
  rewrite Hkeys in Hnd. split; [by apply NoDup_fmap_1 in Hnd|]. intros ri. split.
  - intros Hin. apply list_elem_of_lookup_1 in Hin as [i Hi]. destruct (Forall2_lookup_r _ _ _ _ _ Hris Hi) as ([x v] & He & [Hd _] & Hx).
    apply list_elem_of_lookup_2, Hl in He as [_ Hv]. cbn in Hd, Hx. subst x. unfold role_at. by rewrite Hv.
  - unfold role_at. intros (v & Hv & Hd)%bind_Some. assert ((role_str tn (ri_name ri), v) ∈ l) as [i Hi]%list_elem_of_lookup_1.
    { apply Hl. split; [apply role_str_in|done]. }
    destruct (Forall2_lookup_l _ _ _ _ _ Hris Hi) as (ri' & Hri' & [Hd' _] & _). cbn in Hd'. simplify_eq. by eapply list_elem_of_lookup_2.
Qed.
(** The roles that [find_related_roles] searches: those that are stored, and the built-in
    role in place of a stored one. *)
Definition is_cache (t : DateTime) kv (cache : gmap string RoleInfo) : Prop :=
  ∀ r, cache !! r = if decide (r = BUILTIN_ROLE_ACCOUNT_ADMIN) then builtin_roles t !! r else role_at tn kv r.

Lemma builtin_lookup t r : builtin_roles t !! r = None ↔ r ≠ BUILTIN_ROLE_ACCOUNT_ADMIN.
Proof.
  unfold builtin_roles. destruct (decide (r = BUILTIN_ROLE_ACCOUNT_ADMIN)) as [->|Hne].
  - by rewrite lookup_insert_eq.
  - by rewrite lookup_insert_ne, lookup_empty.
Qed.
Lemma builtin_listed t :
  ∃ admin, builtin_roles t !! BUILTIN_ROLE_ACCOUNT_ADMIN = Some admin ∧ ri_name admin = BUILTIN_ROLE_ACCOUNT_ADMIN ∧
    omap (λ k, builtin_roles t !! k) (hash_iter (dom (builtin_roles t))) = [admin].
Proof.
  unfold builtin_roles. set (admin := map_grants _ _). exists admin. split; [apply lookup_insert_eq|]. split; [done|].
  assert (hash_iter (dom (<[BUILTIN_ROLE_ACCOUNT_ADMIN := admin]> (∅ : gmap string RoleInfo))) = [BUILTIN_ROLE_ACCOUNT_ADMIN]) as ->.
  { apply Permutation_singleton_r. rewrite hash_iter_elements, dom_insert_L, dom_empty_L, union_empty_r_L. by rewrite elements_singleton. }
  cbn. by rewrite lookup_insert_eq.
Qed.

Lemma run_find_related t ids s :
  sm_ok s → roles_ok tn (kvs s) → upgraded (kvs s) →
  ∃ cache, is_cache t (kvs s) cache ∧
    mem_run now (find_related_roles m t ids) s = (s, COk (find_all_related_roles cache ids)).
Proof.
  intros Hok Hr Hu. destruct (run_meta_roles s Hok Hr Hu) as (us & Erun & Hnd & Hus).
  destruct (builtin_listed t) as (admin & Hadmin & Hname & Hlist).
  set (l := merge_sort name_le (filter (λ ri, builtin_roles t !! ri_name ri = None) (data <$> us) ++ [admin])).
  exists (collect l). split.
  2: { unfold find_related_roles, get_roles. rewrite mem_run_bind. etrans; [|done]. rewrite mem_run_bind, Erun, Hlist. done. }
  assert (l ≡ₚ filter (λ ri, builtin_roles t !! ri_name ri = None) (data <$> us) ++ [admin]) as Hperm by apply merge_sort_Permutation.
  assert (NoDup (ri_name <$> l)) as Hndl.
  { rewrite Hperm, fmap_app. apply NoDup_app. split; [by apply NoDup_fmap_filter|]. split; [|apply NoDup_singleton].
    intros r (ri & -> & [Hb _]%list_elem_of_filter)%list_elem_of_fmap Hin. cbn in Hin. apply list_elem_of_singleton in Hin.
    apply builtin_lookup in Hb. congruence. }
  intros r. apply option_eq. intros ri. rewrite collect_lookup by done.
  rewrite Hperm, elem_of_app, list_elem_of_filter, list_elem_of_singleton, Hus, builtin_lookup. case_decide as E.
  - subst r. rewrite Hadmin. split; [|intros [= <-]; split; [by right|done]]. by intros [[[? _]| ->] Hn].
  - split; [intros [[[_ H]| ->] Hn]; congruence|]. intros H. assert (ri_name ri = r) as Hn; [|by rewrite Hn; split; [left|]].
    unfold role_at in H. apply bind_Some in H as (v & Hv & Hd). by eapply roles_ok_name.
Qed.

(** ** Writing *)

(** The key-values at the time of a write: what does not expire is there. *)
Lemma clean_roles s :
  sm_ok s → sequence (map_sys (sm_map s)) + 1 < u64_mod →
  ∀ x, stays x (kvs s) (sp_kv (sp_clean now (cmd_ctx_from_millis now) (abs s))).
Proof. intros Hok Hs x. exact (clean_stays now _ (abs s) x (ok_inv s Hok) Hnow Hs). Qed.

Lemma run_upsert_role ri n v s :
  sm_ok s → roles_ok tn (kvs s) → role_fits ri → sequence (map_sys (sm_map s)) + 2 < u64_mod →
  kvs s !! role_str tn (ri_name ri) = Some v →
  ∃ s', mem_run now (upsert_role_info m ri (Exact n)) s =
      (s', COk (if n =? seq v then sequence (map_sys (sm_map s)) + 1 else seq v)) ∧ sm_ok s' ∧ roles_ok tn (kvs s') ∧
    ∀ r, role_at tn (kvs s') r = if n =? seq v then if decide (r = ri_name ri) then Some ri else role_at tn (kvs s) r
                                 else role_at tn (kvs s) r.
Proof.
  intros Hok Hr Hfit Hroom Hv. destruct (read_encoded ri Hfit) as (b & Hb & Hrb). set (x := role_str tn (ri_name ri)) in *.
  set (req := ReqUpsertKV {| ukey := x; useq := Exact n; uvalue := Update b; uvalue_meta := None |}).
  destruct (mem_serve_spec now req s Hok Hnow) as (s' & E & Hok' & (Hkv & _) & _); [cbn; lia|]. change (sp_kv (abs s')) with (kvs s') in Hkv.
  pose proof (serve_update now (abs s) x (Exact n) b (ok_inv s Hok) Hnow ltac:(change (sequence (map_sys (sm_map s)) + 1 < u64_mod); lia)) as Hs.
  cbv zeta in Hs. fold req in Hs. pose proof (clean_roles s Hok ltac:(lia)) as Hst. set (kv := sp_kv (sp_clean now _ (abs s))) in *.
  assert (lasting v) as Hl by (by apply (Hr _ v (role_str_in tn _) Hv)).
  rewrite (stays_lasting _ _ _ _ (Hst x) Hv Hl) in Hs. cbn [opt_seq] in Hs. unfold match_seq_err, match_seq in Hs.
  assert (roles_ok tn kv) as Hrk by (eapply roles_ok_stays; [exact Hr|auto]).
  assert (∀ r, role_at tn kv r = role_at tn (kvs s) r) as Hat by (intros r; by apply role_at_stays).
  rewrite (N.eqb_sym n). exists s'. destruct (N.eqb_spec (seq v) n) as [Hq|Hq].
  - destruct Hs as (Hrep & Hk & _). rewrite Hkv, Hk. split_and!; [|done|by eapply roles_ok_put|].
    + unfold upsert_role_info, serialize_struct, identity. rewrite role_string, Hb. client_run. fold x. fold req. cbn [mem_run]. by rewrite E, Hrep.
    + intros r. rewrite (role_at_put tn kv (ri_name ri) _ ri) by done. by rewrite Hat.
  - destruct Hs as (Hrep & Hk). rewrite Hkv, Hk. split_and!; [|done|done|done].
    unfold upsert_role_info, serialize_struct, identity. rewrite role_string, Hb. client_run. fold x. fold req. cbn [mem_run]. by rewrite E, Hrep.
Qed.

(** An update of a role that nobody disturbs. *)
Lemma run_update_role r f ri s :
  sm_ok s → roles_ok tn (kvs s) → upgraded (kvs s) → sequence (map_sys (sm_map s)) + 2 < u64_mod → keeps f →
  role_at tn (kvs s) r = Some ri →
  ∃ s' n, mem_run now (update_role_with m r (GE 1) f) s = (s', COk (Some n)) ∧ sm_ok s' ∧ roles_ok tn (kvs s') ∧
    ∀ r', role_at tn (kvs s') r' = if decide (r' = r) then Some (f ri) else role_at tn (kvs s) r'.
Proof.
  intros Hok Hr Hu Hroom Hf Hat. unfold role_at in Hat. apply bind_Some in Hat as (v & Hv & Hd).
  pose proof (roles_ok_name tn _ _ _ _ Hr Hv Hd) as Hn. destruct (Hf ri) as [Hfn Hff].
  destruct (run_upsert_role (f ri) (seq v) v s) as (s' & E & Hok' & Hr' & Hat'); [done|done|by eapply Hff, read_role_fits|done|by rewrite Hfn, Hn|].
  rewrite N.eqb_refl in E, Hat'. eexists s', _. split_and!; [|done|done|by rewrite Hfn, Hn in Hat'].
  assert (match_seq_err (GE 1) (seq v) = false) as Hms.
  { rewrite match_seq_err_ge. apply N.ltb_ge. pose proof (inv_positive _ (ok_inv s Hok) _ v Hv). lia. }
  unfold update_role_with. etrans; [apply (run_step _ _ _ _ _ _ (run_get_role r (GE 1) v ri s Hok Hr Hu Hv Hd Hms))|].
  cbn [data seq seqv_new]. etrans; [apply (run_step _ _ _ _ _ _ E)|done].
Qed.
(** An update of a role that is stored as JSON, by a manager that upgrades: the upgrade
    takes the version that the update then expects. *)
Lemma run_update_json r f v ri s :
  sm_ok s → roles_ok tn (kvs s) → rm_upgrade_to_pb m = true → sequence (map_sys (sm_map s)) + 3 < u64_mod → keeps f →
  kvs s !! role_str tn r = Some v → decode_pb (T := RoleInfo) (data v) = None → json_decode (data v) = Some ri →
  ∃ s' n, mem_run now (update_role_with m r (GE 1) f) s = (s', COk (Some n)) ∧ sm_ok s' ∧ roles_ok tn (kvs s') ∧
    ∀ r', role_at tn (kvs s') r' = role_at tn (kvs s) r'.
Proof.
  intros Hok Hr Hup Hroom Hf Hv Hdec Hj. assert (read_role (data v) = Some ri) as Hd by (unfold read_role; by rewrite Hdec).
  pose proof (roles_ok_name tn _ _ _ _ Hr Hv Hd) as Hn. destruct (Hf ri) as [Hfn Hff].
  assert (role_fits ri) as Hfit by (by eapply read_role_fits). destruct (read_encoded ri Hfit) as (b & Hb & Hrb).
  set (x := role_str tn r) in *. set (req := ReqUpsertKV {| ukey := x; useq := Exact (seq v); uvalue := Update b; uvalue_meta := None |}).
  destruct (mem_serve_spec now req s Hok Hnow) as (s1 & E & Hok1 & (Hkv & _) & Hseq); [cbn; lia|].
  change (sp_kv (abs s1)) with (kvs s1) in Hkv. change (req_cost req) with 1 in Hseq.
  pose proof (serve_update now (abs s) x (Exact (seq v)) b (ok_inv s Hok) Hnow ltac:(change (sequence (map_sys (sm_map s)) + 1 < u64_mod); lia)) as Hs.
  cbv zeta in Hs. fold req in Hs. pose proof (clean_roles s Hok ltac:(lia)) as Hst. set (kv := sp_kv (sp_clean now _ (abs s))) in *.
  assert (lasting v) as Hl by (by apply (Hr _ v (role_str_in tn _) Hv)).
  rewrite (stays_lasting _ _ _ _ (Hst x) Hv Hl) in Hs. cbn [opt_seq] in Hs. unfold match_seq_err, match_seq in Hs. rewrite N.eqb_refl in Hs.
  destruct Hs as (Hrep & Hk & _). rewrite Hk in Hkv. set (v1 := mk_SeqV _ None b) in *.
  assert (roles_ok tn (kvs s1)) as Hr1 by (rewrite Hkv; eapply roles_ok_put; [eapply roles_ok_stays; [exact Hr|auto]|done|done|done]).
  assert (∀ r', role_at tn (kvs s1) r' = role_at tn (kvs s) r') as Hat.
  { intros r'. rewrite Hkv, (role_at_put tn kv r v1 ri) by done. rewrite (role_at_stays tn (kvs s) kv) by auto.
    case_decide as Er; [|done]. subst r'. unfold role_at. fold x. by rewrite Hv. }
  destruct (run_upsert_role (f ri) (seq v) v1 s1) as (s2 & E2 & Hok2 & Hr2 & Hat2); [done|done|by apply Hff|lia| |].
  { rewrite Hfn, Hn, Hkv. apply lookup_insert_eq. }
  assert ((seq v =? seq v1) = false) as Hq.
  { apply N.eqb_neq. cbn. pose proof (seqs_bound _ _ (inv_seqs _ (ok_inv s Hok)) _ _ Hv) as [_ H].
    change (sequence (sp_sys (abs s))) with (sequence (map_sys (sm_map s))) in *. lia. }
  rewrite Hq in E2, Hat2. exists s2, (seq v1). split_and!; [|done|done|intros r'; by rewrite Hat2].
  assert (mem_run now (get_role m r (GE 1)) s = (s1, COk (seqv_new (seq v) ri))) as Eget.
  { unfold get_role. rewrite role_string. client_binds.
    etrans; [apply (run_step _ _ _ _ _ _ (run_read_key x s Hok (λ v Hv, proj1 (Hr _ v (role_str_in tn r) Hv))))|].
    rewrite Hv. unfold match_seq. pose proof (inv_positive _ (ok_inv s Hok) _ v Hv) as Hpos.
    destruct (N.leb_spec 1 (seq v)) as [_|]; [|lia]. unfold check_and_upgrade_to_pb. rewrite Hdec, Hj, Hb, Hup.
    change (is_used_up (quota true)) with false. cbn [try_client request reply_result mbind Client_bind client_bind].
    fold x req. cbn [mem_run]. by rewrite E, Hrep. }
  unfold update_role_with. etrans; [apply (run_step _ _ _ _ _ _ Eget)|]. cbn [data seq seqv_new].
  etrans; [apply (run_step _ _ _ _ _ _ E2)|done].
Qed.
End runs.
