(* ===== verification/RoleGraph.v ===== *)
(** The graph of the roles that were granted to roles: what grants and other calls
    add to it, and that it stays without cycles. *)

From stdpp Require Import base orders sorting strings gmap numbers list relations.
From S2P Require Import Prelude BTree RustStr External ExpireKey MetaTypes Marked MapApi Level StateMap.
From S2P Require Import Txn StateMachine Applier ApplierSpec StateMachineProofs ApplierProofs ApplyProofs.
From S2P Require Import SpecFacts Replica SMV003 MemMetaProofs KeyCodec KeyCodecProofs AppKeys AppKeysProofs KVApi ProtoConv MetaApi.
From S2P Require Import ClientProofs ServeProofs IdProofs KvProtocol Database DatabaseCalls DatabaseRuns ClockPool KvClock.
From S2P Require Import Grants GrantProofs RoleTypes Roles RelatedProofs RoleProofs RoleCalls RoleRuns.
Local Open Scope N_scope.

Implicit Types (kv : gmap string (SeqV bytes)) (m : RoleMgr) (r : string).

(** ** Relations without cycles *)

Section acyclic.
Context {A : Type}.
Implicit Types (R : relation A) (a b c x y : A).

Definition acyclic R : Prop := ∀ a, ¬ tc R a a.

Lemma acyclic_mono R R' : (∀ a b, R' a b → R a b) → acyclic R → acyclic R'.
Proof.
  intros H Hac a Hc. apply (Hac a). clear Hac. assert (∀ a b, tc R' a b → tc R a b) as Htc; [|by apply Htc].
  induction 1 as [b c Hbc|b c d Hbc _ IH]; [by apply tc_once, H|]. eapply tc_l; [by apply H|done].
Qed.

(** Paths that may use the new edge from [x] to [y]. *)
Lemma rtc_edge R R' x y a b :
  (∀ a b, R' a b → R a b ∨ (a = x ∧ b = y)) → rtc R' a b → rtc R a b ∨ (rtc R a x ∧ rtc R y b).
Proof.
  intros H. induction 1 as [a|a b c Hab _ [IH|[IH1 IH2]]]; [by left|..]; destruct (H a b Hab) as [Hr|[-> ->]].
  - left. by eapply rtc_l.
  - right. split; [done|done].
  - right. split; [by eapply rtc_l|done].
  - right. split; [done|done].
Qed.

Lemma acyclic_edge R R' x y :
  (∀ a b, R' a b → R a b ∨ (a = x ∧ b = y)) → ¬ rtc R y x → acyclic R → acyclic R'.
Proof.
  intros H Hn Hac a Hc. assert (∀ a c, tc R' a c → ∃ b, R' a b ∧ rtc R' b c) as Hsplit.
  { intros b c [b' c' Hbc|b' c' d Hbc Hcd]; [by exists c'|]. exists c'. split; [done|]. by apply tc_rtc. }
  destruct (Hsplit a a Hc) as (b & Hab & Hba).
  destruct (H a b Hab) as [Hr|[Ea Eb]], (rtc_edge R R' x y b _ H Hba) as [H'|[H1 H2]].
  - apply (Hac a). by eapply tc_rtc_r; [apply tc_once|].
  - apply Hn. etrans; [exact H2|]. by eapply rtc_l.
  - by subst.
  - by subst.
Qed.
End acyclic.

Section graph.
Context {ch : Chrono} {cd : ChronoDefault ch} {fl : PrivilegeFlags} {ho : HashOrder} `{!ProstMessage pb_RoleInfo} {jr : JsonDecode RoleInfo}.
Context (tn : Tenant).
Implicit Types (ri : RoleInfo).

(** The role [a] was granted the role [b].  The built-in role is not a stored one. *)
Definition granted_role kv (a b : string) : Prop :=
  a ≠ BUILTIN_ROLE_ACCOUNT_ADMIN ∧ ∃ ri, role_at tn kv a = Some ri ∧ b ∈ gs_roles (ri_grants ri).

Definition role_acyclic kv : Prop := acyclic (granted_role kv).

(** The calls that grant no role. *)
Definition grants_no_role (c : RoleCall) : Prop :=
  match c with
  | CallGrantRole _ _ _ _ => False
  | CallAddRole _ ri _ => gs_roles (ri_grants ri) = ∅
  | _ => True
  end.

(** A role that has no more roles than before. *)
Definition fewer_roles (x y : option RoleInfo) : Prop :=
  ∀ ri', y = Some ri' → gs_roles (ri_grants ri') = ∅ ∨
    ∃ ri, x = Some ri ∧ gs_roles (ri_grants ri') ⊆ gs_roles (ri_grants ri).

#[export] Instance fewer_roles_preorder : PreOrder fewer_roles.
Proof.
  split.
  - intros x ri ->. right. by exists ri.
  - intros x y z H1 H2 ri3 ->. destruct (H2 ri3 eq_refl) as [?|(ri2 & -> & Hs)]; [by left|].
    destruct (H1 ri2 eq_refl) as [He|(ri1 & -> & Hs')]; [left; set_solver|]. right. exists ri1. split; [done|set_solver].
Qed.

Lemma effect_fewer c r x y : grants_no_role c → call_effect c r x y → fewer_roles x y.
Proof.
  destruct c; cbn; intros Hc; try done.
  - intros (_ & -> & ->) ri [= <-]. by left.
  - intros (_ & _ & ->) ri [=].
  - intros (_ & ri & -> & ->) ri' [= <-]. right. exists ri. split; [done|]. unfold map_grants, grant_privileges. cbn. by destruct (grant_entries _ _ _ _ _).
  - intros (_ & ri & -> & ->) ri' [= <-]. right. exists ri. split; [done|]. done.
  - intros (_ & ri & -> & ->) ri' [= <-]. right. exists ri. split; [done|]. cbn. set_solver.
  - intros (i & ri & -> & ->) ri' [= <-]. right. by exists ri.
  - intros (i & ri & -> & ->) ri' [= <-]. right. by exists ri.
Qed.

Lemma fewer_acyclic kv kv' :
  (∀ r, fewer_roles (role_at tn kv r) (role_at tn kv' r)) → role_acyclic kv → role_acyclic kv'.
Proof.
  intros H. apply acyclic_mono. intros a b (Ha & ri' & Hri' & Hb). split; [done|].
  destruct (H a ri' Hri') as [He|(ri & Hri & Hs)]; [set_solver|]. exists ri. split; [done|set_solver].
Qed.
End graph.

(** ** Granting a role to a role *)

Section grant.
Context {raft : OpenRaft} {Mp : Type} `{!StateMap raft Mp, !StateMapLaws Mp} (now : N) (Hnow : now < u64_mod).
Context {sj : SerdeJson} {ch : Chrono} `{!ChronoLaws ch} {cd : ChronoDefault ch}.
Context {fl : PrivilegeFlags} `{!EnumFlagsLaws UserPrivilegeType privilege_value} {ho : HashOrder} `{!HashOrderLaws ho}.
Context `{!ProstMessage pb_RoleInfo, !ProstLaws pb_RoleInfo pb_role_fits}.
Context {jr : JsonDecode RoleInfo} `{!JsonDecodeLaws RoleInfo}.
Context (m : RoleMgr).
Implicit Types (s : StateMachine Mp) (ri : RoleInfo).

Abbreviation kvs s := (kvv (sm_map s)).
Abbreviation tn := (rm_tenant m).

Lemma cache_edge t kv cache a b : is_cache m t kv cache → role_edge cache a b ↔ granted_role tn kv a b.
Proof.
  intros Hc. unfold role_edge, granted_role. rewrite Hc. case_decide as E; [|naive_solver]. subst a.
  split; [|naive_solver]. intros (ri & Hri & Hb). unfold builtin_roles in Hri. rewrite lookup_insert_eq in Hri.
  injection Hri as <-. cbn in Hb. set_solver.
Qed.

(** What is contained in a role: everything in the built-in role, and [public] in every
    role. *)
Definition contains_role kv (a b : string) : Prop :=
  (b = BUILTIN_ROLE_ACCOUNT_ADMIN ∨ is_Some (role_at tn kv b)) ∧
  (a = BUILTIN_ROLE_ACCOUNT_ADMIN ∨ rtc (granted_role tn kv) a b ∨ rtc (granted_role tn kv) BUILTIN_ROLE_PUBLIC b).

Lemma cache_name t kv cache k ri : roles_ok tn kv → is_cache m t kv cache → cache !! k = Some ri → ri_name ri = k.
Proof.
  intros Hok Hc. rewrite Hc. case_decide as E.
  - subst k. unfold builtin_roles. rewrite lookup_insert_eq. by intros [= <-].
  - unfold role_at. intros (v & Hv & Hd)%bind_Some. by eapply roles_ok_name.
Qed.

Lemma related_contains t kv cache target grant :
  roles_ok tn kv → is_cache m t kv cache →
  existsb (λ ri, bool_decide (identity ri = target)) (find_all_related_roles cache [grant]) = true ↔
  contains_role kv grant target.
Proof.
  intros Hok Hc. destruct (related_roles_spec cache [grant]) as (ks & [_ Hks] & Hk).
  transitivity (target ∈ ks).
  - rewrite existsb_exists. setoid_rewrite <-list_elem_of_In. setoid_rewrite bool_decide_eq_true. split.
    + intros (ri & [i Hi]%list_elem_of_lookup_1 & <-). destruct (Forall2_lookup_r _ _ _ _ _ Hks Hi) as (k & Hki & Hl).
      unfold identity. rewrite (cache_name t kv cache k ri) by done. by eapply list_elem_of_lookup_2.
    + intros [i Hi]%list_elem_of_lookup_1. destruct (Forall2_lookup_l _ _ _ _ _ Hks Hi) as (ri & Hri & Hl).
      exists ri. split; [by eapply list_elem_of_lookup_2|]. by eapply cache_name.
  - rewrite Hk. unfold contains_role, role_reaches.
    assert (is_Some (cache !! target) ↔ target = BUILTIN_ROLE_ACCOUNT_ADMIN ∨ is_Some (role_at tn kv target)) as ->.
    { rewrite Hc. case_decide as E; [|tauto]. subst target. unfold builtin_roles. rewrite lookup_insert_eq. split; [by left|by eexists]. }
    assert (∀ a b, rtc (role_edge cache) a b ↔ rtc (granted_role tn kv) a b) as Hrtc.
    { intros a b. split; apply rtc_subrel; intros ? ?; by rewrite cache_edge. }
    setoid_rewrite Hrtc. setoid_rewrite elem_of_app. setoid_rewrite list_elem_of_singleton.
    rewrite (eq_comm grant). naive_solver.
Qed.

Definition with_role (time : DateTime) (grant : string) ri : RoleInfo := map_grants (grant_role grant) (update_role_time time ri).

Lemma run_grant_role t time target grant s :
  sm_ok s → roles_ok tn (kvs s) → upgraded m (kvs s) → sequence (map_sys (sm_map s)) + 2 < u64_mod →
  ∃ s' res, mem_run now (grant_role_to_role m t time target grant) s = (s', res) ∧ sm_ok s' ∧ roles_ok tn (kvs s') ∧
    ((contains_role (kvs s) grant target ∧ s' = s ∧ res = CErr (EQuery InvalidRole)) ∨
     (¬ contains_role (kvs s) grant target ∧ role_at tn (kvs s) target = None ∧ s' = s ∧ res = CErr (EQuery UnknownRole)) ∨
     (¬ contains_role (kvs s) grant target ∧ ∃ ri n, role_at tn (kvs s) target = Some ri ∧ res = COk (Some n) ∧
        ∀ r, role_at tn (kvs s') r = if decide (r = target) then Some (with_role time grant ri) else role_at tn (kvs s) r)).
Proof.
  intros Hok Hr Hu Hroom. destruct (run_find_related now Hnow m t [grant] s Hok Hr Hu) as (cache & Hc & E).
  pose proof (related_contains t (kvs s) cache target grant Hr Hc) as Hrel.
  assert (mem_run now (grant_role_to_role m t time target grant) s =
    mem_run now (if existsb (λ ri, bool_decide (identity ri = target)) (find_all_related_roles cache [grant]) then throw (EQuery InvalidRole)
      else update_role_with m target (GE 1) (with_role time grant)) s) as ->.
  { exact (run_step now _ _ _ _ _ E). }
  destruct (existsb _ _).
  - exists s. eexists. split_and!; [done..|]. left. split; [by apply Hrel|done].
  - assert (¬ contains_role (kvs s) grant target) as Hn by (intros H; by apply Hrel in H).
    destruct (role_at tn (kvs s) target) as [ri|] eqn:Hat.
    + destruct (run_update_role now Hnow m target (with_role time grant) ri s) as (s' & n & E' & Hok' & Hr' & Hat'); [done..|].
      exists s', (COk (Some n)). split_and!; [done..|]. right. right. split; [done|]. by exists ri, n.
    + exists s. eexists. split_and!; [|done|done|right; left; by split_and!].
      assert (kvs s !! role_str tn target = None) as Hnone.
      { unfold role_at in Hat. destruct (kvs s !! role_str tn target) as [v|] eqn:Hv; [|done].
        destruct (Hr _ v (role_str_in tn target) Hv) as (_ & ri & Hd & _). cbn in Hat. congruence. }
      unfold update_role_with. etrans; [apply (run_stop now _ _ _ _ _ (run_get_role_none now Hnow m target (GE 1) s Hok Hnone))|done].
Qed.

(** A grant that succeeds closes no cycle. *)
Lemma grant_acyclic kv kv' time target grant ri :
  role_acyclic tn kv → ¬ contains_role kv grant target → role_at tn kv target = Some ri →
  (∀ r, role_at tn kv' r = if decide (r = target) then Some (with_role time grant ri) else role_at tn kv r) →
  role_acyclic tn kv'.
Proof.
  intros Hac Hn Hat Hat'. eapply (acyclic_edge _ _ target grant); [| |exact Hac].
  - intros a b (Ha & ri' & Hri' & Hb). rewrite Hat' in Hri'. case_decide as E.
    + subst a. injection Hri' as <-. cbn in Hb. apply elem_of_union in Hb as [->%elem_of_singleton|Hb]; [by right|].
      left. split; [done|]. by exists ri.
    + left. split; [done|]. by exists ri'.
  - intros Hr. apply Hn. split; [right; by exists ri|by right; left].
Qed.
End grant.
