(* ===== verification/RoleRace.v ===== *)
(** Two calls that grant two roles to each other: what their requests cost, and the
    schedule in which both succeed. *)

From stdpp Require Import base orders sorting strings gmap numbers list relations.
From S2P Require Import Prelude BTree RustStr External ExpireKey MetaTypes Marked MapApi Level StateMap.
From S2P Require Import Txn StateMachine Applier ApplierSpec StateMachineProofs ApplierProofs ApplyProofs.
From S2P Require Import SpecFacts Replica SMV003 MemMetaProofs KeyCodec KeyCodecProofs AppKeys AppKeysProofs.
From S2P Require Import KVApi ProtoConv MetaApi ClientProofs ServeProofs DatabaseTypes Database DatabaseRuns ClockPool.
From S2P Require Import Grants GrantProofs RoleTypes Roles RelatedProofs RoleProofs RoleCalls RoleRuns RoleGraph.
Local Open Scope N_scope.

Section race.
Context {raft : OpenRaft} {Mp : Type} `{!StateMap raft Mp, !StateMapLaws Mp} (now : N) (Hnow : now < u64_mod).
Context {sj : SerdeJson} {ch : Chrono} `{!ChronoLaws ch} {cd : ChronoDefault ch}.
Context {fl : PrivilegeFlags} `{!EnumFlagsLaws UserPrivilegeType privilege_value} {ho : HashOrder} `{!HashOrderLaws ho}.
Context `{!ProstMessage pb_RoleInfo, !ProstLaws pb_RoleInfo pb_role_fits, !ProstMessage pb_OwnershipInfo}.
Context {jr : JsonDecode RoleInfo} `{!JsonDecodeLaws RoleInfo} {jo : JsonDecode OwnershipInfo}.
Context (m : RoleMgr) (Hup : rm_upgrade_to_pb m = false).
Implicit Types (s : StateMachine Mp) (ri : RoleInfo).

Abbreviation kvs s := (kvv (sm_map s)).
Abbreviation tn := (rm_tenant m).

(** ** The cost of the calls, for a manager that does not upgrade roles *)

Lemma costs_bind0 {A B} (f : A → Client B) c n :
  client_costs c 0 → (∀ x, client_costs (f x) n) → client_costs (client_bind f c) n.
Proof. intros Hc Hf. rewrite <-(N.add_0_l n). by apply client_costs_bind. Qed.
Lemma costs_bind1 {A B} (f : A → Client B) c n :
  client_costs c n → (∀ x, client_costs (f x) 0) → client_costs (client_bind f c) n.
Proof. intros Hc Hf. rewrite <-(N.add_0_r n). by apply client_costs_bind. Qed.

Lemma costs_key_str r : client_costs (key_str r) 0.
Proof. by destruct r. Qed.
Lemma costs_items {A} (f : StreamItem → Client A) strm : (∀ x, client_costs (f x) 0) → client_costs (collect_items f strm) 0.
Proof.
  intros Hf. induction strm as [|[item|e] strm IH]; [done| |done]. apply costs_bind0; [apply Hf|]. intros x. by apply costs_bind0.
Qed.
Lemma check_used_up q key v : is_used_up q = true → ∃ r, check_and_upgrade_to_pb (T := RoleInfo) q key v = Done (COk (q, r)).
Proof.
  intros Hq. unfold check_and_upgrade_to_pb. rewrite Hq. destruct (decode_pb _); [by eexists|]. destruct (json_decode _); by eexists.
Qed.
Lemma costs_upgrade q l : is_used_up q = true → client_costs (upgrade_roles q l) 0.
Proof.
  intros Hq. induction l as [|[key v] l IH]; [done|]. cbn [upgrade_roles].
  destruct (check_used_up q key v Hq) as [[u|e] ->]; [|done]. exact (costs_bind0 (λ l, mret (u :: l)) _ 0 IH (λ _, I)).
Qed.
Lemma costs_find_related t ids : client_costs (find_related_roles m t ids) 0.
Proof.
  do 2 (apply costs_bind0; [|done]). apply costs_bind0.
  - apply costs_bind0; [apply costs_key_str|]. intros p. split; [done|]. intros [strm|e]; [|done].
    apply costs_items. intros item. by destruct (si_value item).
  - intros l. apply costs_upgrade. by rewrite Hup.
Qed.
Lemma costs_update r f : client_costs (update_role_with m r (GE 1) f) 1.
Proof.
  apply costs_bind0.
  - apply costs_bind0; [apply costs_key_str|]. intros key. apply costs_bind0.
    + split; [done|]. intros [[|[item|e] strm]|e]; done.
    + intros [v|]; [|done]. destruct (match_seq _ _) as [[]|]; [|done].
      destruct (check_used_up (quota (rm_upgrade_to_pb m)) key v) as [[u|e] ->]; [by rewrite Hup|done|done].
  - intros v. apply costs_bind1; [|done]. apply costs_bind0; [apply costs_key_str|]. intros key. apply costs_bind0.
    + unfold serialize_struct. by destruct (encode_pb _).
    + intros value. apply costs_bind1; [by split; [|intros [x|e]]|]. intros res. by destruct (ch_result res).
Qed.

Lemma costs_grant t time target grant : client_costs (grant_role_to_role m t time target grant) 1.
Proof. apply costs_bind0; [apply costs_find_related|]. intros rs. destruct (existsb _ _); [done|apply costs_update]. Qed.

Lemma not_upgrading kv : upgraded m kv.
Proof. by left. Qed.

(** ** The schedule *)

Lemma with_role_has time grant ri : grant ∈ gs_roles (ri_grants (with_role time grant ri)).
Proof. change (grant ∈ {[grant]} ∪ gs_roles (ri_grants ri)). by apply elem_of_union_l, elem_of_singleton. Qed.

Lemma contains_distinct kv a b :
  is_Some (role_at tn kv b) → ¬ contains_role m kv a b → a ≠ b ∧ a ≠ BUILTIN_ROLE_ACCOUNT_ADMIN.
Proof.
  intros Hb Hn. split; intros ->; apply Hn; (split; [by right|]); [|by left]. right. left. done.
Qed.

Lemma run_grant_alone t time a b ra s :
  sm_ok s → roles_ok tn (kvs s) → sequence (map_sys (sm_map s)) + 2 < u64_mod →
  role_at tn (kvs s) a = Some ra → ¬ contains_role m (kvs s) b a →
  ∃ s' n, mem_run now (grant_role_to_role m t time a b) s = (s', COk (Some n)) ∧ sm_ok s' ∧ roles_ok tn (kvs s') ∧
    sequence (map_sys (sm_map s')) ≤ sequence (map_sys (sm_map s)) + 1 ∧
    ∀ r, role_at tn (kvs s') r = if decide (r = a) then Some (with_role time b ra) else role_at tn (kvs s) r.
Proof.
  intros Hok Hr Hroom Ha Hn.
  destruct (run_grant_role now Hnow m t time a b s Hok Hr (not_upgrading _) Hroom) as (s' & res & E & Hok' & Hr' & H).
  destruct H as [(? & _)|[(_ & ? & _)|(_ & ri & n & Hri & -> & Hat)]]; [done|congruence|].
  rewrite Ha in Hri. injection Hri as <-. exists s', n. split_and!; [done..| |done].
  eapply (run_cost now); [done|apply costs_grant|lia|done|exact E].
Qed.

(** The check of a grant, with the roles of [s], in a pool. *)
Lemma pool_check other t time target grant s cs i :
  sm_ok s → roles_ok tn (kvs s) → sequence (map_sys (sm_map s)) + 1 < u64_mod → ¬ contains_role m (kvs s) grant target →
  cs !! i = Some (role_call m (CallGrantRole t time target grant)) →
  ∀ t0, t0 ≤ now → ∃ t1, t1 ≤ now ∧ rtc (clock_step other) (t0, s, cs)
    (t1, s, <[i := client_bind (λ _, mret tt) (update_role_with m target (GE 1) (with_role time grant))]> cs).
Proof.
  intros Hok Hr Hroom Hn Hi t0 Ht0.
  destruct (run_find_related now Hnow m t [grant] s Hok Hr (not_upgrading _)) as (cache & Hc & E).
  pose proof (related_contains now Hnow m t (kvs s) cache target grant Hr Hc) as Hrel.
  set (F := λ rs, if existsb (λ r, bool_decide (identity r = target)) rs then throw (EQuery InvalidRole)
    else update_role_with m target (GE 1) (with_role time grant)).
  destruct (clock_run other (λ c, client_bind (λ _ : option N, mret tt) (client_bind F c)) now t0 s s cs i
    (find_related_roles m t [grant]) 0 (find_all_related_roles cache [grant])) as [(t1 & Ht1 & Hrun) _];
    [done|done|apply costs_find_related|lia|done|done|exact Hi|exact E|].
  exists t1. split; [done|]. cbn [client_bind] in Hrun. unfold F in Hrun. destruct (existsb _ _); [|exact Hrun].
  destruct Hn. by apply Hrel.
Qed.

(** Its write. *)
Lemma pool_write other t0 target f ri s cs i :
  sm_ok s → roles_ok tn (kvs s) → sequence (map_sys (sm_map s)) + 2 < u64_mod → keeps f → role_at tn (kvs s) target = Some ri →
  cs !! i = Some (client_bind (λ _, mret tt) (update_role_with m target (GE 1) f)) → t0 ≤ now →
  ∃ t1 s', t1 ≤ now ∧ rtc (clock_step other) (t0, s, cs) (t1, s', <[i := Done (COk tt)]> cs) ∧
    sm_ok s' ∧ roles_ok tn (kvs s') ∧ sequence (map_sys (sm_map s')) ≤ sequence (map_sys (sm_map s)) + 1 ∧
    ∀ r, role_at tn (kvs s') r = if decide (r = target) then Some (f ri) else role_at tn (kvs s) r.
Proof.
  intros Hok Hr Hroom Hf Hat Hi Ht0.
  destruct (run_update_role now Hnow m target f ri s Hok Hr (not_upgrading _) Hroom Hf Hat) as (s' & n & E & Hok' & Hr' & Hat').
  destruct (clock_run other (client_bind (λ _ : option N, mret tt)) now t0 s s' cs i (update_role_with m target (GE 1) f) 1 (Some n))
    as [(t1 & Ht1 & Hrun) Hle]; [done|done|apply costs_update|lia|done|done|exact Hi|exact E|].
  by exists t1, s'.
Qed.

Lemma pool_race other t time a b ra rb s :
  sm_ok s → roles_ok tn (kvs s) → sequence (map_sys (sm_map s)) + 3 < u64_mod →
  role_at tn (kvs s) a = Some ra → role_at tn (kvs s) b = Some rb → a ≠ b →
  ¬ contains_role m (kvs s) a b → ¬ contains_role m (kvs s) b a →
  ∃ t' s', rtc (clock_step other)
      (now, s, [role_call m (CallGrantRole t time a b); role_call m (CallGrantRole t time b a)])
      (t', s', [Done (COk tt); Done (COk tt)]) ∧ roles_ok tn (kvs s') ∧
    role_at tn (kvs s') a = Some (with_role time b ra) ∧ role_at tn (kvs s') b = Some (with_role time a rb).
Proof.
  intros Hok Hr Hroom Ha Hb Hab Hnab Hnba. set (done := Done (COk tt) : Client unit).
  set (c a b := role_call m (CallGrantRole t time a b)).
  set (w a b := client_bind (λ _, mret tt) (update_role_with m a (GE 1) (with_role time b)) : Client unit).
  destruct (pool_check other t time a b s [c a b; c b a] 0 Hok Hr ltac:(lia) Hnba eq_refl now (N.le_refl _)) as (t1 & Ht1 & R1).
  destruct (pool_check other t time b a s [w a b; c b a] 1 Hok Hr ltac:(lia) Hnab eq_refl t1 Ht1) as (t2 & Ht2 & R2).
  destruct (pool_write other t2 a (with_role time b) ra s [w a b; w b a] 0 Hok Hr ltac:(lia) ltac:(done) Ha eq_refl Ht2)
    as (t3 & s3 & Ht3 & R3 & Hok3 & Hr3 & Hle3 & Hat3).
  assert (role_at tn (kvs s3) b = Some rb) as Hb3 by (by rewrite Hat3, decide_False).
  destruct (pool_write other t3 b (with_role time a) rb s3 [done; w b a] 1 Hok3 Hr3 ltac:(lia) ltac:(done) Hb3 eq_refl Ht3)
    as (t4 & s4 & _ & R4 & _ & Hr4 & _ & Hat4).
  exists t4, s4. split_and!; [|done| |].
  - etrans; [exact R1|]. etrans; [exact R2|]. etrans; [exact R3|exact R4].
  - rewrite Hat4, decide_False, Hat3, decide_True by done. done.
  - by rewrite Hat4, decide_True.
Qed.
End race.
