(* ===== verification/RoleTheorems.v ===== *)
(** What privileges and roles promise: what a set of grants gives, what a role
    contains, and what calls on roles do to each other. *)

From stdpp Require Import base orders sorting strings gmap numbers list relations.
From S2P Require Import Prelude BTree RustStr External ExpireKey MetaTypes Marked MapApi Level StateMap.
From S2P Require Import Txn StateMachine Applier ApplierSpec StateMachineProofs ApplierProofs ApplyProofs.
From S2P Require Import SpecFacts Replica ApplierTheorems SMV003 MemMetaProofs KeyCodec KeyCodecProofs AppKeys AppKeysProofs.
From S2P Require Import KVApi ProtoConv MetaApi ClientProofs ServeProofs IdProofs KvProtocol ApiTheorems DatabaseTypes Database ClockPool KvClock.
From S2P Require Import Grants GrantProofs RoleTypes Roles RelatedProofs RoleProofs RoleCalls RoleRuns RoleGraph RoleRace.
Local Open Scope N_scope.

(** ** Privileges *)

(** C17: A set of grants implements a relation between objects and privileges.
    Granting adds the privileges on the object and nothing else; revoking removes
    them from this object only, so that a privilege on a larger object remains;
    merging is the union, of the roles too.  A privilege is verified on an object
    exactly when it is granted on an object that contains it.  Every object keeps one
    entry.  Containment is a partial order, and a larger object has all the
    privileges, other than ownership, that are available on the smaller ones. *)
Theorem grant_set_refines {fl : PrivilegeFlags} `{!EnumFlagsLaws UserPrivilegeType privilege_value} {ho : HashOrder} `{!HashOrderLaws ho}
    (s : UserGrantSet) (o : GrantObject) (a : BitFlags) :
  (∀ o' p, granted (grant_privileges o a s) o' p ↔ granted s o' p ∨ (o' = o ∧ flags_has a p = true)) ∧
  (∀ o' p, granted (revoke_privileges o a s) o' p ↔ granted s o' p ∧ ¬ (o' = o ∧ flags_has a p = true)) ∧
  (∀ s', gs_roles (grant_set_or s s') = gs_roles s ∪ gs_roles s' ∧
     ∀ o' p, granted (grant_set_or s s') o' p ↔ granted s o' p ∨ granted s' o' p) ∧
  (∀ o' p, verify_privilege s o' p = true ↔ ∃ o'', contains o'' o' ∧ granted s o'' p) ∧
  (grants_ok s → grants_ok (grant_privileges o a s) ∧ grants_ok (revoke_privileges o a s) ∧
     ∀ s', grants_ok (grant_set_or s s')) ∧
  PartialOrder contains ∧
  (∀ o1 o2 p, contains o1 o2 → flags_has (available_privileges o2 false) p = true →
     flags_has (available_privileges o1 false) p = true).
Proof.
  split_and!.
  - apply granted_grant.
  - apply granted_revoke.
  - intros s'. destruct (or_spec s s') as (Hr & _ & Hg). by split.
  - apply verify_spec.
  - intros Hs. split_and!; [by apply grants_ok_grant|by apply grants_ok_revoke|]. intros s'. by apply or_spec.
  - apply _.
  - apply available_mono.
Qed.

(** ** Roles *)

(** C25: [find_all_related_roles] returns the roles that can be reached, each once.
    They are the roles of the cache that can be reached from the given names and
    from [public] over granted roles, in whatever order a hash set is iterated and
    with cycles too; for the built-in role they are all roles.  The loop ends: with
    more turns its result is the same. *)
Theorem related_roles_closure {ch : Chrono} {fl : PrivilegeFlags} {ho : HashOrder} `{!HashOrderLaws ho}
    (cache : gmap string RoleInfo) (ids : list string) :
  (∃ ks, NoDup ks ∧ Forall2 (λ k ri, cache !! k = Some ri) ks (find_all_related_roles cache ids) ∧
     ∀ k, k ∈ ks ↔ is_Some (cache !! k) ∧
       (BUILTIN_ROLE_ACCOUNT_ADMIN ∈ ids ∨
        ∃ a, (a ∈ ids ∨ a = BUILTIN_ROLE_PUBLIC) ∧ rtc (role_edge cache) a k)) ∧
  (∀ n q, (related_fuel cache q ≤ n)%nat → related_loop n cache ∅ q [] = related_loop (related_fuel cache q) cache ∅ q []).
Proof.
  split.
  - destruct (related_roles_spec cache ids) as (ks & [Hnd Hks] & Hk). exists ks. split_and!; [done|done|].
    intros k. rewrite Hk. unfold role_reaches. setoid_rewrite elem_of_app. by setoid_rewrite list_elem_of_singleton.
  - intros n q Hn. pose proof (related_fuel_enough cache q). apply related_loop_fuel; lia.
Qed.

Section concurrent.
Context {raft : OpenRaft} {Mp : Type} `{!StateMap raft Mp, !StateMapLaws Mp}.
Context {sj : SerdeJson} {ch : Chrono} `{!ChronoLaws ch} {cd : ChronoDefault ch}.
Context {fl : PrivilegeFlags} `{!EnumFlagsLaws UserPrivilegeType privilege_value} {ho : HashOrder} `{!HashOrderLaws ho}.
Context `{!ProstMessage pb_RoleInfo, !ProstLaws pb_RoleInfo pb_role_fits, !ProstMessage pb_OwnershipInfo}.
Context {jr : JsonDecode RoleInfo} `{!JsonDecodeLaws RoleInfo} {jo : JsonDecode OwnershipInfo}.
Implicit Types (s : StateMachine Mp) (calls : list (RoleMgr * RoleCall)) (cs : list (Client unit)).

Abbreviation kvs s := (kvv (sm_map s)).

Definition role_clients calls : list (Client unit) := (λ x, role_call x.1 x.2) <$> calls.

(** Calls of one tenant. *)
Definition calls_of (tn : Tenant) calls : Prop := Forall (λ x, rm_tenant x.1 = tn ∧ call_fits x.2) calls.

(** A change of the role [r] by one of the calls. *)
Definition changed_by calls (r : string) (x y : option RoleInfo) : Prop := ∃ c, c ∈ calls ∧ call_effect c.2 r x y.

Lemma role_pool tn calls t s t' s' cs' :
  calls_of tn calls → sm_ok s → roles_ok tn (kvs s) →
  rtc (clock_step (avoids_keys (in_roles tn))) (t, s, role_clients calls) (t', s', cs') →
  sm_ok s' ∧ roles_ok tn (kvs s') ∧ (∀ i, cs' !! i ≠ Some (Done CPanic)) ∧
  ∀ r, rtc (changed_by calls r) (role_at tn (kvs s) r) (role_at tn (kvs s') r).
Proof.
  intros Hcalls Hok Hr Hrun. set (P := kv_clock (role_inv tn (changed_by calls) (kvs s)) (role_rely tn (changed_by calls))).
  assert (clock_ok P (λ _ _ _, True) t s (role_clients calls) (replicate (length (role_clients calls)) ∅)) as Hstart.
  { apply clock_start; [done|by split; [|intros r]|]. intros i c. unfold role_clients. rewrite list_lookup_fmap.
    intros ([m k] & Hi & ->)%fmap_Some. apply list_elem_of_lookup_2 in Hi. destruct (proj1 (Forall_forall _ _) Hcalls _ Hi) as [Hm Hf].
    apply role_call_safe; [done|done|]. intros r a b He. by exists (m, k). }
  destruct (clock_reach P (λ _ _ _, True) (avoids_keys (in_roles tn)) ltac:(done) _ _ _ _ _ _ _ Hstart Hrun) as [Ts Hend].
  pose proof (clock_good _ _ _ _ _ _ Hend) as [Hr' H0]. split_and!; [by apply Hend|done| |done].
  intros i. by eapply clock_no_panic.
Qed.

Lemma changes_fewer calls x y r :
  Forall (λ c, grants_no_role c.2) calls → rtc (changed_by calls r) x y → fewer_roles x y.
Proof.
  intros Hc. induction 1 as [x|x y z (c & Hin & He) _ IH]; [done|]. etrans; [|exact IH].
  eapply effect_fewer; [|exact He]. by apply (proj1 (Forall_forall _ _) Hc).
Qed.

(** C10: Concurrent calls change roles in whole steps.  However calls that add, drop,
    grant to, revoke from, read and transfer roles are interleaved with each other and
    with requests that do not write the roles of the tenant, with lost requests and
    replies: no call panics, every stored role stays readable under its name, and what
    became of a role is the effects of some of the calls on it, one after the other,
    each on what the one before it left.  If roles were granted to roles without a cycle
    and no call grants a role to a role or adds a role that has roles, there is no cycle
    afterwards. *)
Theorem role_updates_atomic tn calls t s t' s' cs' :
  calls_of tn calls → sm_ok s → roles_ok tn (kvs s) →
  rtc (clock_step (avoids_keys (in_roles tn))) (t, s, role_clients calls) (t', s', cs') →
  roles_ok tn (kvs s') ∧ (∀ i, cs' !! i ≠ Some (Done CPanic)) ∧
  (∀ r, rtc (λ x y, ∃ c, c ∈ calls ∧ call_effect c.2 r x y) (role_at tn (kvs s) r) (role_at tn (kvs s') r)) ∧
  (Forall (λ c, grants_no_role c.2) calls → role_acyclic tn (kvs s) → role_acyclic tn (kvs s')).
Proof.
  intros H1 H2 H3 H4. destruct (role_pool tn calls t s t' s' cs' H1 H2 H3 H4) as (_ & Hr & Hp & Hch). split_and!; [done..|].
  intros Hno Hac. eapply fewer_acyclic; [|exact Hac]. intros r. by eapply changes_fewer.
Qed.

(** C24: [grant_role_to_role] on every branch, undisturbed, when no stored role has to
    be upgraded.  It is refused when the role
    to be granted contains the target: when it is the built-in role, or the target can
    be reached from it or from [public] over granted roles.  Otherwise a target that is
    not stored is unknown, and the role is added to the roles of the target, the time is
    set, and all other roles stay.  Roles that were granted without a cycle stay without
    a cycle, whatever the call is asked for. *)
Theorem grant_role_branches now m s t time target grant :
  now < u64_mod → sm_ok s → roles_ok (rm_tenant m) (kvs s) → upgraded m (kvs s) → sequence (map_sys (sm_map s)) + 2 < u64_mod →
  let edge a b := a ≠ BUILTIN_ROLE_ACCOUNT_ADMIN ∧
    ∃ ri, role_at (rm_tenant m) (kvs s) a = Some ri ∧ b ∈ gs_roles (ri_grants ri) in
  let refused := (target = BUILTIN_ROLE_ACCOUNT_ADMIN ∨ is_Some (role_at (rm_tenant m) (kvs s) target)) ∧
    (grant = BUILTIN_ROLE_ACCOUNT_ADMIN ∨ rtc edge grant target ∨ rtc edge BUILTIN_ROLE_PUBLIC target) in
  ∃ s' res, mem_run now (grant_role_to_role m t time target grant) s = (s', res) ∧
    (role_acyclic (rm_tenant m) (kvs s) → role_acyclic (rm_tenant m) (kvs s')) ∧
    ((refused ∧ s' = s ∧ res = CErr (EQuery InvalidRole)) ∨
     (¬ refused ∧ role_at (rm_tenant m) (kvs s) target = None ∧ s' = s ∧ res = CErr (EQuery UnknownRole)) ∨
     (¬ refused ∧ ∃ ri n, role_at (rm_tenant m) (kvs s) target = Some ri ∧ res = COk (Some n) ∧
        ∀ r, role_at (rm_tenant m) (kvs s') r = if decide (r = target)
          then Some {| ri_name := ri_name ri; ri_created_on := ri_created_on ri; ri_update_on := time;
                       ri_grants := {| gs_entries := gs_entries (ri_grants ri);
                                       gs_roles := {[grant]} ∪ gs_roles (ri_grants ri) |} |}
          else role_at (rm_tenant m) (kvs s) r)).
Proof.
  intros Hnow Hok Hr Hu Hroom edge refused.
  destruct (run_grant_role now Hnow m t time target grant s Hok Hr Hu Hroom) as (s' & res & E & _ & _ & H).
  exists s', res. split_and!; [done| |done]. intros Hac.
  destruct H as [(_ & -> & _)|[(_ & _ & -> & _)|(Hn & ri & n & Hat & _ & Hat')]]; [done..|]. by eapply grant_acyclic.
Qed.

(** C33: An update of a role can be lost and still be answered with success.  The write
    of [update_role_with] under a version that is no longer the one of the role changes
    nothing, but its reply has the stored value, so that the call returns the stored
    version like that of a write.  This happens without any other call when the role is
    stored as JSON and the manager upgrades it: reading the role writes it, and the
    update then expects the version before. *)
Theorem role_update_lost now m s r v :
  now < u64_mod → sm_ok s → roles_ok (rm_tenant m) (kvs s) → sequence (map_sys (sm_map s)) + 3 < u64_mod →
  kvs s !! role_str (rm_tenant m) r = Some v →
  (∀ ri n, ri_name ri = r → role_fits ri → n ≠ seq v →
     ∃ s', mem_run now (upsert_role_info m ri (Exact n)) s = (s', COk (seq v)) ∧
       ∀ r', role_at (rm_tenant m) (kvs s') r' = role_at (rm_tenant m) (kvs s) r') ∧
  (rm_upgrade_to_pb m = true → decode_pb (T := RoleInfo) (data v) = None →
     ∀ t o a, ∃ s' n, mem_run now (revoke_privileges_from_role m t r o a) s = (s', COk (Some n)) ∧
       ∀ r', role_at (rm_tenant m) (kvs s') r' = role_at (rm_tenant m) (kvs s) r').
Proof.
  intros Hnow Hok Hr Hroom Hv. split.
  - intros ri n Hn Hfit Hq. subst r. destruct (run_upsert_role now Hnow m ri n v s Hok Hr Hfit ltac:(lia) Hv) as (s' & E & _ & _ & Hat).
    apply N.eqb_neq in Hq. rewrite Hq in E, Hat. by exists s'.
  - intros Hup Hdec t o a. destruct (Hr _ v (role_str_in _ r) Hv) as (_ & ri & Hd & _).
    unfold read_role in Hd. rewrite Hdec in Hd.
    destruct (run_update_json now Hnow m r (λ ri, map_grants (revoke_privileges o a) (update_role_time t ri)) v ri s)
      as (s' & n & E & _ & _ & Hat); [done..| |done|done|done|by exists s', n].
    intros ri'. split; [done|]. apply grants_fit_revoke.
Qed.

(** C34: The check of [grant_role_to_role] and its write are not one step.  Take any two
    stored roles of which neither contains the other, and two calls that grant each of
    them to the other.  One after the other, the second call is refused, because the
    first role then contains the second.  Run concurrently, both can succeed, whatever
    else goes on: both check before one of them writes, and then each role is granted to
    the other one, which is a cycle.  The manager does not upgrade roles, as is the
    default. *)
Theorem role_cycle_race other now m t time a b ra rb s :
  now < u64_mod → rm_upgrade_to_pb m = false → sm_ok s → roles_ok (rm_tenant m) (kvs s) →
  sequence (map_sys (sm_map s)) + 3 < u64_mod →
  role_at (rm_tenant m) (kvs s) a = Some ra → role_at (rm_tenant m) (kvs s) b = Some rb →
  ¬ contains_role m (kvs s) a b → ¬ contains_role m (kvs s) b a →
  (∃ s' n, mem_run now (grant_role_to_role m t time a b) s = (s', COk (Some n)) ∧
     mem_run now (grant_role_to_role m t time b a) s' = (s', CErr (EQuery InvalidRole))) ∧
  (∃ t' s', rtc (clock_step other)
       (now, s, [role_call m (CallGrantRole t time a b); role_call m (CallGrantRole t time b a)])
       (t', s', [Done (COk tt); Done (COk tt)]) ∧
     role_at (rm_tenant m) (kvs s') a = Some (with_role time b ra) ∧
     role_at (rm_tenant m) (kvs s') b = Some (with_role time a rb) ∧ ¬ role_acyclic (rm_tenant m) (kvs s')).
Proof.
  intros Hnow Hup Hok Hr Hroom Ha Hb Hab Hba.
  destruct (contains_distinct m (kvs s) a b) as [Hne Hadm]; [by eexists|done|].
  destruct (contains_distinct m (kvs s) b a) as [_ Hbdm]; [by eexists|done|]. split.
  - destruct (run_grant_alone now Hnow m Hup t time a b ra s) as (s1 & n & E & Hok1 & Hr1 & Hle & Hat1); [done|done|lia|done|done|].
    exists s1, n. split; [done|].
    destruct (run_grant_role now Hnow m t time b a s1 Hok1 Hr1 (not_upgrading m Hup _)) as (s2 & res & E2 & _ & _ & H); [lia|].
    destruct H as [(_ & -> & ->)|H]; [done|]. assert (contains_role m (kvs s1) a b) as Hc; [|by destruct H as [[? _]|[? _]]].
    split; [right; rewrite Hat1, decide_False by done; by eexists|]. right. left. apply rtc_once. split; [done|].
    exists (with_role time b ra). split; [by rewrite Hat1, decide_True|]. apply with_role_has.
  - destruct (pool_race now Hnow m Hup other t time a b ra rb s) as (t' & s' & Hrun & _ & Ha' & Hb'); [done..|].
    exists t', s'. split_and!; [done..|]. intros Hac. apply (Hac a). apply (tc_l _ _ b); [|apply tc_once].
    + split; [done|]. exists (with_role time b ra). split; [done|]. apply with_role_has.
    + split; [done|]. exists (with_role time a rb). split; [done|]. apply with_role_has.
Qed.
End concurrent.

(** ** Concrete calls *)

Module RoleEx.
Import LogEx.
#[local] Existing Instances digits_json digits_json_laws text_chrono text_chrono_laws.
#[local] Existing Instances BitSet.flags BitSet.flags_laws elements_order elements_order_laws.
#[local] Existing Instances text_role text_role_laws text_ownership.

#[local] Instance epoch : ChronoDefault text_chrono := {| datetime_default := "epoch" |}.
Definition now : DateTime := "now".

Definition role (r : string) : RoleInfo := role_info_new now r.

(** One text is the JSON form of a role. *)
#[local] Instance json_role : JsonDecode RoleInfo := {| json_decode b := if decide (b = "{}") then Some (role "j") else None |}.
#[local] Instance json_owner : JsonDecode OwnershipInfo := {| json_decode b := None |}.
#[local] Instance json_role_laws : JsonDecodeLaws RoleInfo.
Proof. split. intros b v. cbn. case_decide; [|done]. intros [= <-]. apply Forall_nil. done. Qed.

Definition tn : Tenant := {| tenant := "t" |}.
Definition mgr (up : bool) : RoleMgr := {| rm_tenant := tn; rm_upgrade_to_pb := up |}.
Definition turns (ns : list nat) : list (N * nat) := (λ i, (1000, i)) <$> ns.

Abbreviation kvs s := (kvv (sm_map s)).

Lemma no_roles : roles_ok tn (kvs mem0).
Proof. by intros x v. Qed.
Lemma no_cycle : role_acyclic tn (kvs mem0).
Proof. intros a Ha. by destruct Ha as [? ? (_ & ? & ? & _)|? ? ? (_ & ? & ? & _) _]. Qed.

(** Two roles are added. *)
Definition adds : list (RoleMgr * RoleCall) := [(mgr false, CallAddRole now (role "a") false); (mgr false, CallAddRole now (role "b") false)].
Definition two_pool : N * StateMachine Level * list (Client unit) := clock_schedule (turns [0; 1]%nat) (0, mem0, role_clients adds).
Definition two : StateMachine Level := two_pool.1.2.

Lemma adds_of : calls_of tn adds.
Proof. by repeat (apply Forall_cons; split; [split; [done|apply Forall_nil; done]|]). Qed.
Lemma adds_steps : rtc (clock_step (avoids_keys (in_roles tn))) (0, mem0, role_clients adds) (two_pool.1.1, two, two_pool.2).
Proof. unfold two. rewrite <-!surjective_pairing. apply clock_schedule_steps. Qed.

Lemma two_ok : sm_ok two ∧ roles_ok tn (kvs two) ∧ role_acyclic tn (kvs two).
Proof.
  destruct (role_pool tn adds _ _ _ _ _ adds_of mem0_ok no_roles adds_steps) as (H1 & H2 & _ & Hch). split_and!; [done|done|].
  eapply fewer_acyclic; [|exact no_cycle]. intros r. eapply changes_fewer; [|apply Hch].
  by repeat (apply Forall_cons; split; [done|]).
Qed.

(** Each role is granted to the other one; both calls read before one of them writes. *)
Definition race : list (RoleMgr * RoleCall) := [(mgr false, CallGrantRole now now "a" "b"); (mgr false, CallGrantRole now now "b" "a")].
Definition race_pool : N * StateMachine Level * list (Client unit) :=
  clock_schedule (turns [0; 1; 0; 0; 1; 1]%nat) (0, two, role_clients race).

Lemma race_result : race_pool.2 = [Done (COk tt); Done (COk tt)].
Proof. by vm_compute. Qed.

(** A role that is stored as JSON. *)
Definition json_state : StateMachine Level := ApiEx.with_record (role_str tn "j") "{}" mem0.
Definition json_value : SeqV bytes := {| seq := 1; meta := None; data := "{}" |}.

Lemma json_kv : kvs json_state = {[role_str tn "j" := json_value]}.
Proof. by vm_compute. Qed.
Lemma json_ok : sm_ok json_state ∧ roles_ok tn (kvs json_state).
Proof.
  split.
  - apply ApiEx.with_record_ok; [exact mem0_ok|reflexivity].
  - rewrite json_kv. intros x v _ [<- <-]%lookup_singleton_Some. split; [done|]. exists (role "j"). split; [|reflexivity]. vm_cast_no_check (eq_refl (Some (role "j"))).
Qed.

Lemma json_not_pb : decode_pb (T := RoleInfo) (data json_value) = None.
Proof. vm_cast_no_check (eq_refl (@None RoleInfo)). Qed.

(** ** Witnesses *)

Lemma grant_set_refines_witness : ∃ s o a p,
  verify_privilege s (Grant_Table "default" "db" "t") p = false ∧
  verify_privilege (grant_privileges o a s) (Grant_Table "default" "db" "t") p = true ∧ grants_ok (grant_privileges o a s).
Proof.
  set (a := make_bitflags [Priv_Select]). exists grant_set_empty, (Grant_Database "default" "db"), a, Priv_Select.
  split; [reflexivity|]. assert (grants_ok grant_set_empty) as H0 by apply NoDup_nil_2. split.
  - destruct (grant_set_refines (grant_privileges (Grant_Database "default" "db") a grant_set_empty) Grant_Global a)
      as (_ & _ & _ & Hv & _). apply Hv. exists (Grant_Database "default" "db"). split; [reflexivity|].
    apply (grant_set_refines grant_set_empty (Grant_Database "default" "db") a). right. split; reflexivity.
  - apply (grant_set_refines grant_set_empty (Grant_Database "default" "db") a). exact H0.
Defined.

(** Two roles that contain each other, and one that nobody was granted. *)
Definition cache : gmap string RoleInfo := {[
  "a" := map_grants (grant_role "b") (role "a"); "b" := map_grants (grant_role "a") (role "b"); "c" := role "c" ]}.

Lemma related_roles_closure_witness :
  ri_name <$> find_all_related_roles cache ["a"] = ["a"; "b"] ∧
  ∃ ks, NoDup ks ∧ "b" ∈ ks ∧ Forall2 (λ k ri, cache !! k = Some ri) ks (find_all_related_roles cache ["a"]).
Proof.
  split; [vm_compute; reflexivity|].
  destruct (related_roles_closure cache ["a"]) as [(ks & Hnd & Hks & Hk) _]. exists ks. split; [exact Hnd|]. split; [|exact Hks].
  apply Hk. split; [by eexists|]. right. exists "a". split; [left; by apply list_elem_of_singleton|].
  apply rtc_once. exists (map_grants (grant_role "b") (role "a")). split; [reflexivity|]. reflexivity.
Defined.

Lemma role_updates_atomic_witness :
  race_pool.2 = [Done (COk tt); Done (COk tt)] ∧ roles_ok tn (kvs race_pool.1.2) ∧
  rtc (λ x y, ∃ c, c ∈ race ∧ call_effect c.2 "a" x y) (role_at tn (kvs two) "a") (role_at tn (kvs race_pool.1.2) "a").
Proof.
  split; [exact race_result|]. destruct two_ok as (H1 & H2 & _).
  destruct (role_updates_atomic tn race 0 two race_pool.1.1 race_pool.1.2 race_pool.2) as (H3 & _ & H4 & _).
  - by repeat (apply Forall_cons; split; [split; done|]).
  - exact H1.
  - exact H2.
  - rewrite <-!surjective_pairing. apply clock_schedule_steps.
  - split; [exact H3|apply (H4 "a")].
Defined.

Lemma two_room : sequence (map_sys (sm_map two)) + 2 < u64_mod.
Proof. by vm_compute. Qed.

Lemma two_has_a : is_Some (role_at tn (kvs two) "a").
Proof. exists (role "a"). vm_cast_no_check (eq_refl (Some (role "a"))). Qed.

Lemma grant_role_branches_witness :
  ∃ s' res, mem_run 1000 (grant_role_to_role (mgr false) now now "a" "a") two = (s', res) ∧ res = CErr (EQuery InvalidRole) ∧
    role_acyclic tn (kvs s').
Proof.
  destruct two_ok as (H1 & H2 & H3).
  destruct (grant_role_branches 1000 (mgr false) two now now "a" "a" ltac:(reflexivity) H1 H2)
    as (s' & res & E & Hac & H); [intros x v _ _; left; reflexivity|exact two_room|].
  exists s', res. split; [exact E|]. split; [|exact (Hac H3)]. destruct H as [(_ & _ & H)|[[H _]|[H _]]]; [exact H| |].
  all: exfalso; apply H; split; [right; exact two_has_a|right; left; apply rtc_refl].
Defined.

Lemma two_alone x y : x ≠ y → x ≠ BUILTIN_ROLE_ACCOUNT_ADMIN → y ≠ BUILTIN_ROLE_PUBLIC → ¬ contains_role (mgr false) (kvs two) x y.
Proof.
  assert (∀ a b, ¬ granted_role tn (kvs two) a b) as Hno.
  { intros a b (_ & ri & Hri & Hb). destruct (role_pool tn adds _ _ _ _ _ adds_of mem0_ok no_roles adds_steps) as (_ & _ & _ & Hch).
    assert (fewer_roles (role_at tn (kvs mem0) a) (role_at tn (kvs two) a)) as Hf.
    { eapply changes_fewer; [|apply Hch]. by repeat (apply Forall_cons; split; [done|]). }
    destruct (Hf ri Hri) as [He|(? & ? & _)]; [|done]. rewrite He in Hb. by apply not_elem_of_empty in Hb. }
  intros Hxy Hx Hy [_ [?|[H|H]]]; [done| |]; apply rtc_inv in H as [?|(z & Hz & _)]; done || by eapply Hno.
Qed.

Lemma role_cycle_race_witness : ∃ t' s', rtc (clock_step (avoids_keys (in_roles tn)))
    (1000, two, [role_call (mgr false) (CallGrantRole now now "a" "b"); role_call (mgr false) (CallGrantRole now now "b" "a")])
    (t', s', [Done (COk tt); Done (COk tt)]) ∧ ¬ role_acyclic tn (kvs s').
Proof.
  destruct two_ok as (H1 & H2 & _).
  destruct (role_cycle_race (avoids_keys (in_roles tn)) 1000 (mgr false) now now "a" "b" (role "a") (role "b") two)
    as [_ (t' & s' & Hrun & _ & _ & Hcyc)].
  - reflexivity.
  - reflexivity.
  - exact H1.
  - exact H2.
  - vm_compute. reflexivity.
  - vm_cast_no_check (eq_refl (Some (role "a"))).
  - vm_cast_no_check (eq_refl (Some (role "b"))).
  - apply two_alone; discriminate.
  - apply two_alone; discriminate.
  - exists t', s'. split; [exact Hrun|exact Hcyc].
Defined.

Lemma role_update_lost_witness :
  ∃ s' n, mem_run 1000 (revoke_privileges_from_role (mgr true) now "j" Grant_Global ALL_PRIVILEGES) json_state = (s', COk (Some n)) ∧
    role_at tn (kvs s') "j" = Some (role "j").
Proof.
  destruct json_ok as [H1 H2].
  destruct (role_update_lost 1000 (mgr true) json_state "j" json_value ltac:(reflexivity) H1 H2) as [_ H].
  - vm_compute. reflexivity.
  - rewrite json_kv. apply lookup_singleton_eq.
  - destruct (H ltac:(reflexivity) json_not_pb now Grant_Global ALL_PRIVILEGES) as (s' & n & E & Hat).
    exists s', n. split; [exact E|]. change tn with (rm_tenant (mgr true)). rewrite Hat. vm_cast_no_check (eq_refl (Some (role "j"))).
Defined.
End RoleEx.
